(* ===== verification/_CoqProject ===== *)
-Q . S2P
Prelude.v
OpenFlags.v
Libc.v
FileHandle.v
InodeStore.v
DentryIndex.v
FuseTypes.v
FuseWire.v
Descriptor.v
SoftIdMap.v
XattrMap.v
Notify.v
FileSystem.v
Host.v
Credentials.v
ReadDir.v
Paths.v
MountFds.v
Passthrough.v
PassthroughOps.v
Ownership.v
PassthroughSpec.v
Session.v
Preserialization.v
Migration.v
SerializationSpec.v
DeserializationSpec.v
MigrationSpec.v
Contract.v
ReadOnly.v
Requests.v
Replies.v
Server.v
ServerSpec.v
Daemon.v
VhostUser.v
VhostUserSpec.v
Defaults.v
Process.v
WatchScan.v
Sandbox.v
SandboxSpec.v
Seccomp.v
Startup.v
StartupSpec.v
LegacyOptions.v
