(* ===== verification/Prelude.v ===== *)
(** * virtiofsd: a verified model of the vhost-user virtio-fs daemon

    virtiofsd shares a directory of the host with a guest.  The guest's kernel sends
    FUSE requests through a virtqueue; the daemon decodes each one, carries it out on
    the host with system calls, and puts a reply into the buffers the guest provides.
    This library models that path from the bytes of a request to the system calls and
    back, and the tables the daemon keeps between requests.

    ** The parts and the files that model them

    - Prelude: results ([res]: a value, an error or a panic), machine integers,
      strings and parsers, hint databases ([vfs], [eff]) and lemmas all files share.
    - OpenFlags (src/passthrough/open_flags.rs): open(2) flags of guest architectures,
      Linux hosts and macOS.  Libc: constants of the hosts' C libraries.
    - FuseTypes, FuseWire (src/fuse.rs, src/macros.rs): opcodes, flag sets, and the
      wire structures with their encoding ([ByteValued]).
    - Descriptor (src/descriptor_utils.rs, src/file_traits.rs): readers and writers over
      the guest's buffers, and transfers between them and files.
    - FileSystem (src/filesystem.rs): the trait as a class, and what the server may
      expect of an implementation: [ReadContract] and [LookupCounts].
    - Requests, Replies, Server, ServerSpec (src/server.rs): decoding of parameters and
      extensions, reply framing, one function per request handler, [handle_message], and
      the theorems about them for every file system that keeps the contracts.
    - FileHandle (src/passthrough/file_handle.rs, parts of src/oslib.rs), InodeStore
      (src/passthrough/inode_store.rs), DentryIndex (src/passthrough/dentry_index.rs):
      the tables of the passthrough file system, as pure state machines.
    - SoftIdMap (src/soft_idmap, src/idmap.rs) and XattrMap
      (src/passthrough/xattrmap.rs): user ID and attribute name mappings with their
      option parsers.
    - Notify (src/notify_invalidate): host file events turned into cache invalidations.
    - Host: the host as a class - a system call takes a host to a host and gives a result
      or an errno - and the monad [eff] of computations that make such calls, may fail
      and may panic; src/passthrough/stat.rs.  The calls made are recorded with their
      outcomes, because the code reads errno after other calls.
    - Credentials (src/passthrough/credentials.rs, [ScopedUmask]), ReadDir
      (src/read_dir.rs), Paths (src/passthrough/util.rs), MountFds
      (src/passthrough/mount_fd.rs).
    - Passthrough, PassthroughOps (src/passthrough/mod.rs, guest_fd_limit.rs, parts of
      inode_store.rs, oslib.rs and device_state/preserialization): the state
      [PassthroughFs] and every operation of the passthrough file system, from
      [PassthroughFs::new] to [copyfilerange], on Linux and macOS.  [passthrough_fs] is
      the instance of the [FileSystem] class.
    - Ownership: a logic of what a computation owns.  [spends k g m t e] says that [m],
      given the inode references and open files [g], leaves [t] behind when it succeeds
      and [e] when it fails, and raises reference counts at most [k] times.
    - PassthroughSpec: every operation in that logic.  Session: sequences of requests.
      Contract: the contracts of FileSystem, proved of the passthrough file system.
    - Preserialization and Migration (src/passthrough/device_state, [MountFd::new]): the
      walkers that find a location for every inode before a migration, the serialized
      state, [serialize] on the source and [deserialize_and_apply] on the destination.
      SerializationSpec: what the source's steps own and what the stream holds.
      DeserializationSpec: the loop that opens the inodes of a stream.  MigrationSpec: the
      two ends together.
    - ReadOnly (src/passthrough/read_only.rs): the wrapper for read-only shares and the
      calls it can make.  Daemon: the server on either file system.  Defaults: the default
      methods of the trait (src/filesystem.rs), and the requests the daemon leaves to them.
    - VhostUser (src/vhost_user.rs): the device - its queues, served in the event loop or
      by a pool, the notifier of the guest, the configuration space and the messages of the
      front end, with those of a migration.  VhostUserSpec: the theorems about it.
    - Process (src/util.rs, parts of src/oslib.rs): calls on the daemon's own process as
      a class, and computations that may also end the process ([proc]); fork, waiting,
      the pid file.  Sandbox (src/sandbox.rs): isolation by namespaces or chroot.
      SandboxSpec: where a sandboxed process is.  Seccomp (src/seccomp.rs): the filter,
      and that it lets the passthrough file system do its work.  WatchScan
      ([HostWatcher::warn_if_oversized]): the count of directories before they are watched.
    - Startup (src/limits.rs, src/main.rs, [HostWatcher::new]): the options, limits,
      capabilities, and [main] from the options to the device.  StartupSpec: what holds of
      a daemon that has started.  LegacyOptions: what the [-o] options of the command line
      mean.

    ** How state and effects are modelled

    An operation is a function on the state of its component.  A lock makes each
    operation atomic, so a lock has no counterpart; requests are carried out one after
    another.  An [Arc<InodeData>] an operation holds while another thread could drop the
    inode is modelled by a pin: an inode removed while pinned moves to [unlinked] and its
    file is closed when the operation ends.  Descriptors are numbers; the destructor of a
    file is an explicit close.  Integers are in Z with the bounds of their type written
    out, and [checks] says whether overflow panics (debug builds) or wraps.  [os] is the
    target system.  Code that is not in the repository appears as arguments: the host's
    system calls, guest memory, the range map of the ID mappings, the capability library,
    the postcard encoding ([Postcard]), the order of a hash table ([HashOrder]) and the
    virtqueues ([VirtQueues], with their laws in [UsedRing], and those of the memory behind
    the notification queue in [GuestBuffers]).  What the kernel, libseccomp and libcap-ng do
    with the calls of the start-up is stated in the classes [Kernel], [Filtering], [Limits]
    and [Capabilities], and what it does with a thread's identity in [CredHost]; each has an
    instance.

    Where the program has two threads on one piece of data, the model says who comes
    between what: [handle_raw_event] takes the number of events the translator takes between
    the watcher's two attempts to send; a migration thread runs at any time between the
    message that starts it and the one that asks for it ([migration_runs]), and one that is
    replaced goes on by itself ([detached_runs]).  The tasks of a pool are atomic and come in
    any order.

    ** What is shown

    - A session: after mounting, whatever requests a guest makes that forgets no more
      than it was given, and whatever the host answers, the reference counts are what
      the guest and the migration paths hold, and the descriptors of the tables and the
      free slots add up to the limit; a reference that a failed CREATE has lost is lost for
      good (Session).  Behind it: each operation gives back what it takes on
      every path, also when a system call fails (PassthroughSpec), and the store keeps
      its maps consistent and its counts exact (InodeStore).
    - The server: replies are framed, listings hold whole entries, READDIRPLUS counts
      what it hands out, sessions negotiate what both sides know (ServerSpec); the same
      for the server on the passthrough file system (Daemon).  A file system that
      implements nothing changes nothing and refuses, and so does the daemon for what the
      passthrough file system does not implement (Defaults).
    - Migration: preparing one, and serializing, leave the guest's references as they
      were; the destination ends up with the same references, options, IDs and open
      files, in whatever order the inodes of the stream can be opened; the loop that
      opens them always ends and never waits in vain (MigrationSpec, DeserializationSpec).
    - The device: requests taken off a queue are returned exactly once with their lengths,
      by the event loop and by a pool in any order; a notification arrives in the guest's
      memory as it is encoded, or an error says why not; the messages of a migration hand the state of one device
      to another; in every state the notifier agrees with the device (VhostUserSpec).
    - Data: wire structures, extensions, file handles, open flags, ID maps, attribute
      mappings and notifications are encoded, parsed and translated correctly; directory
      listings are complete and resume where they stopped (ReadDir); a transfer moves what
      it reports, and an error leaves a bounded number of bytes moved (Descriptor); the
      dentry index is a map from names to inodes, the translator invalidates what it says,
      and of a full event channel it is said which events are lost (Notify).
    - Credentials are switched and restored; a read-only share makes no call that could
      modify a file system, but for one that must fail (ReadOnly).
    - Start-up: a daemon that has entered its sandbox is confined to the shared directory
      and has given up its groups (SandboxSpec); its filter allows what requests need but
      not what the host watcher needs (Seccomp; the system calls of libcap-ng are left
      out, as it does not document them); its limits, capabilities and configuration are
      those the options ask for, and the descriptors held for its guest, the free slots and
      its own reserve make up its limit (StartupSpec); legacy options mean what they say
      (LegacyOptions).  The scan of the share for too many directories ends,
      and warns when it should (WatchScan).
    - Errors: inputs that make the daemon panic, leak a reference or lose a signal.
      Descriptors that are leaked are not counted: no table holds them.

    ** Bounds

    Recursion that is not structural takes fuel.  Where it is computed from the data
    (forgetting along parents, transfers, listings) theorems show that it is enough.
    [rounds] is the number of buffers a directory walk or a copy may take, of times the pid
    file is opened until the one that is locked is the one in place, and of inodes and
    directories the walkers of a migration may visit; the theorems about whole sessions and
    migrations hold for every value, those about listings for any that exceeds the number
    of entries.  The loop over the inodes of a stream is bounded by their number, and the scan of
    the share by its cap; both are shown to be enough.  [cancel] says at which points a
    preparation is cancelled.
    A pool or an event loop that is out of [rounds] panics, which the theorems about them
    exclude: they are about passes that end.  [passthrough_ok n] asks for room for [n] more
    lookups in the counters, which only matters for builds without overflow checks and for
    the 2^64th inode number.

    ** Not modelled

    - Of src/main.rs: the command line parser, which clap generates from the options; the
      set-up of loggers; the text of [--print-capabilities]; the event loop, which is the
      vhost-user-backend crate's.  Of src/sandbox.rs: what the listener's destructor does
      when the sandbox cannot be entered.
    - Concurrency of handlers and of the thread that prepares a migration, log messages and
      the texts of errors. *)

From stdpp Require Export base list gmap strings sorting.
From Stdlib Require Export ZArith Lia.

#[global] Open Scope Z_scope.

(** ** Results

    A Rust computation returns a value, returns an error, or panics (a failed
    [assert!], an [unwrap] of [None], an arithmetic overflow in a build with
    overflow checks).  [res] keeps the three apart. *)

Inductive res (E A : Type) : Type :=
| Ok (a : A)
| Err (e : E)
| Panic.
Arguments Ok {E A} a.
Arguments Err {E A} e.
Arguments Panic {E A}.

#[export] Instance res_eq_dec {E A} `{EqDecision E, EqDecision A} : EqDecision (res E A).
Proof. solve_decision. Defined.

#[export] Instance res_ret {E} : MRet (res E) := fun A a => Ok a.
#[export] Instance res_bind {E} : MBind (res E) := fun A B f r =>
  match r with Ok a => f a | Err e => Err e | Panic => Panic end.
#[export] Instance res_fmap {E} : FMap (res E) := fun A B f r =>
  match r with Ok a => Ok (f a) | Err e => Err e | Panic => Panic end.

(** Rust's [map_err]. *)
Definition map_err {E F A} (f : E -> F) (r : res E A) : res F A :=
  match r with Ok a => Ok a | Err e => Err (f e) | Panic => Panic end.

(** Rust's [Option::ok_or]. *)
Definition ok_or {E A} (o : option A) (e : E) : res E A :=
  match o with Some a => Ok a | None => Err e end.

(** Rust's [Option::unwrap]. *)
Definition unwrap {E A} (o : option A) : res E A :=
  match o with Some a => Ok a | None => Panic end.

(** Rust's [iter.map(f).collect::<Result<Vec<_>, _>>()]: stops at the first
    error. *)
Fixpoint map_collect {E A B} (f : A -> res E B) (l : list A) : res E (list B) :=
  match l with
  | [] => Ok []
  | a :: l' => b ← f a; bs ← map_collect f l'; Ok (b :: bs)
  end.

Definition is_ok {E A} (r : res E A) : bool :=
  match r with Ok _ => true | _ => false end.

(** ** I/O errors

    [std::io::Error] either carries a raw errno or a kind (the messages are
    not modelled). *)

Inductive error_kind :=
| NotFound | PermissionDenied | AlreadyExists | InvalidInput | InvalidData
| UnexpectedEof | WriteZero | UnsupportedKind | Other.

Inductive io_error :=
| Os (errno : Z)
| Custom (kind : error_kind).

#[export] Instance error_kind_eq_dec : EqDecision error_kind.
Proof. solve_decision. Defined.
#[export] Instance io_error_eq_dec : EqDecision io_error.
Proof. solve_decision. Defined.

Notation io := (res io_error).

Definition raw_os_error (e : io_error) : option Z :=
  match e with Os n => Some n | Custom _ => None end.

(** [std]'s table from errno to kind, on either host.  The program tests for the
    first three; the kinds it never tests for are all [Other] here. *)
Definition kind_of_errno (n : Z) : error_kind :=
  match n with
  | 2 => NotFound
  | 1 | 13 => PermissionDenied
  | 17 => AlreadyExists
  | 22 => InvalidInput
  | _ => Other
  end.

Definition error_kind_of (e : io_error) : error_kind :=
  match e with Os n => kind_of_errno n | Custom k => k end.

(** [ErrorContext::context]: the kind stays, the errno is lost. *)
Definition with_context (e : io_error) : io_error := Custom (error_kind_of e).

(** Linux errno values used by the program. *)
Definition EPERM := 1.
Definition ENOENT := 2.
Definition EIO := 5.
Definition EBADF := 9.
Definition ENOMEM := 12.
Definition EACCES := 13.
Definition ENOTDIR := 20.
Definition EINVAL := 22.
Definition ENFILE := 23.
Definition EROFS := 30.
Definition ERANGE := 34.
Definition EOVERFLOW := 75.
Definition EOPNOTSUPP := 95.

(** ** Machine integers

    A [w]-bit unsigned integer is a [Z] in [[0, 2^w)]. *)

Definition u8_max := 2 ^ 8 - 1.
Definition u16_max := 2 ^ 16 - 1.
Definition u32_max := 2 ^ 32 - 1.
Definition u64_max := 2 ^ 64 - 1.
Definition i64_max := 2 ^ 63 - 1.

Definition is_u32 (z : Z) : Prop := 0 <= z <= u32_max.
Definition is_u64 (z : Z) : Prop := 0 <= z <= u64_max.

Definition checked_add (max a b : Z) : option Z :=
  if a + b <=? max then Some (a + b) else None.

Definition checked_sub (a b : Z) : option Z :=
  if b <=? a then Some (a - b) else None.

Definition saturating_sub (a b : Z) : Z := if b <=? a then a - b else 0.

(** Plain [a + b]: in a build with overflow checks an overflow panics,
    otherwise the result wraps around. *)
Definition plain_add {E} (checks : bool) (max a b : Z) : res E Z :=
  if a + b <=? max then Ok (a + b)
  else if checks then Panic else Ok ((a + b) mod (max + 1)).

(** [as u32]. *)
Definition as_u32 (z : Z) : Z := z mod 2 ^ 32.

(** [z as i64]. *)
Definition as_i64 (z : Z) : Z :=
  let v := z mod 2 ^ 64 in if v <? 2 ^ 63 then v else v - 2 ^ 64.

Definition plain_sub {E} (checks : bool) (max a b : Z) : res E Z :=
  if b <=? a then Ok (a - b)
  else if checks then Panic else Ok ((a - b) mod (max + 1)).

(** [flags & mask == mask], [flags & mask != 0] and clearing bits. *)
Definition has_all (flags mask : Z) : bool := Z.land flags mask =? mask.
Definition has_any (flags mask : Z) : bool := negb (Z.land flags mask =? 0).

(** ** Bytes and text

    Bytes are [Z] in [[0, 256)], characters are [Z] code points, both in
    lists. *)

Definition is_byte (b : Z) : Prop := 0 <= b < 256.

Fixpoint text (s : string) : list Z :=
  match s with
  | EmptyString => []
  | String a s' => Z.of_N (Ascii.N_of_ascii a) :: text s'
  end.

Arguments text s%_string.

(** Little-endian encoding of an [n]-byte integer and its inverse. *)
Fixpoint le_bytes (n : nat) (z : Z) : list Z :=
  match n with
  | O => []
  | S n' => z mod 256 :: le_bytes n' (z / 256)
  end.

Fixpoint of_le (l : list Z) : Z :=
  match l with
  | [] => 0
  | b :: l' => b + 256 * of_le l'
  end.

(** [str::split(sep)] and [slice::split(|b| b == sep)]: always at least one
    piece. *)
Fixpoint split_on (sep : Z) (l : list Z) : list (list Z) :=
  match l with
  | [] => [[]]
  | c :: l' =>
      if c =? sep then [] :: split_on sep l'
      else match split_on sep l' with
           | [] => [[c]]
           | p :: ps => (c :: p) :: ps
           end
  end.

Fixpoint join_with (sep : Z) (l : list (list Z)) : list Z :=
  match l with
  | [] => []
  | [p] => p
  | p :: l' => p ++ sep :: join_with sep l'
  end.

Fixpoint starts_with (p l : list Z) : bool :=
  match p, l with
  | [], _ => true
  | a :: p', b :: l' => (a =? b) && starts_with p' l'
  | _ :: _, [] => false
  end.

(** ** Decimal numbers *)

Inductive int_error := IntEmpty | InvalidDigit | PosOverflow.

#[export] Instance int_error_eq_dec : EqDecision int_error.
Proof. solve_decision. Defined.

Definition is_digit (c : Z) : bool := (48 <=? c) && (c <=? 57).

(** The digit loop of [u32::from_str]: at each position an invalid digit is
    reported before an overflow. *)
Fixpoint parse_digits (max acc : Z) (l : list Z) : res int_error Z :=
  match l with
  | [] => Ok acc
  | c :: l' =>
      if negb (is_digit c) then Err InvalidDigit
      else if acc * 10 + (c - 48) <=? max
           then parse_digits max (acc * 10 + (c - 48)) l'
           else Err PosOverflow
  end.

(** [<u32 as FromStr>::from_str] and its siblings: an optional leading plus
    sign followed by at least one digit. *)
Definition parse_unsigned (max : Z) (l : list Z) : res int_error Z :=
  match l with
  | [] => Err IntEmpty
  | [c] => if is_digit c then parse_digits max 0 [c] else Err InvalidDigit
  | c :: l' => if c =? 43 then parse_digits max 0 l' else parse_digits max 0 l
  end.

(** [Display] of an unsigned integer; twenty digits hold every 64-bit value. *)
Fixpoint digits (fuel : nat) (n : Z) : list Z :=
  match fuel with
  | O => []
  | S f => if n <? 10 then [48 + n] else digits f (n / 10) ++ [48 + n mod 10]
  end.

Definition show (n : Z) : list Z := digits 20 n.

(** ** Tactics

    [res_inv] opens the equations a run of a [res] computation leaves in the
    context, [run] splits the conditionals of the goal, [zify_bool] turns
    boolean comparisons into arithmetic. *)

Ltac zify_bool :=
  repeat match goal with
  | H : (_ && _)%bool = true |- _ => apply andb_true_iff in H; destruct H
  | H : negb _ = true |- _ => apply negb_true_iff in H
  | H : negb _ = false |- _ => apply negb_false_iff in H
  | H : (_ <=? _)%Z = true |- _ => apply Z.leb_le in H
  | H : (_ <=? _)%Z = false |- _ => apply Z.leb_gt in H
  | H : (_ <? _)%Z = true |- _ => apply Z.ltb_lt in H
  | H : (_ <? _)%Z = false |- _ => apply Z.ltb_ge in H
  | H : (_ =? _)%Z = true |- _ => apply Z.eqb_eq in H
  | H : (_ =? _)%Z = false |- _ => apply Z.eqb_neq in H
  end.

Ltac res_inv :=
  repeat (simplify_eq/=;
    match goal with
    | H : mbind _ ?m = _ |- _ =>
        let E := fresh "E" in
        destruct m eqn:E; cbn [mbind res_bind] in H; try discriminate H
    | H : map_err _ ?m = _ |- _ =>
        let E := fresh "E" in
        destruct m eqn:E; cbn [map_err] in H; try discriminate H
    | H : ok_or ?m _ = _ |- _ =>
        let E := fresh "E" in
        destruct m eqn:E; cbn [ok_or] in H; try discriminate H
    end); simplify_eq/=.

Ltac run := repeat case_match; simplify_eq/=.

(** ** Results *)

Lemma map_collect_ok {E A B} (f : A -> res E B) (g : A -> B) l :
  (forall a, a ∈ l -> f a = Ok (g a)) -> map_collect f l = Ok (map g l).
Proof.
  induction l as [|a l IH]; intros Hf; simpl; [done|].
  rewrite Hf by set_solver. simpl. rewrite IH by set_solver. done.
Qed.

Lemma map_collect_length {E A B} (f : A -> res E B) l r :
  map_collect f l = Ok r -> length r = length l.
Proof.
  revert r; induction l as [|a l IH]; intros r H; simpl in *; res_inv; [done|].
  f_equal. by apply IH.
Qed.

Lemma map_collect_Forall2 {E A B} (f : A -> res E B) l r :
  map_collect f l = Ok r <-> Forall2 (fun a b => f a = Ok b) l r.
Proof.
  revert r; induction l as [|a l IH]; intros r; simpl.
  - split; [intros; simplify_eq; constructor | by inversion 1].
  - split.
    + intros H. res_inv. constructor; [done|]. by apply IH.
    + inversion 1 as [|? b ? bs Ha Hl]; subst. rewrite Ha. simpl.
      by rewrite (proj2 (IH bs) Hl).
Qed.

(** ** Lists *)

Lemma filter_all {A} (P : A -> Prop) `{!forall x, Decision (P x)} l :
  Forall P l -> filter P l = l.
Proof. induction 1; [done|]. rewrite filter_cons_True by done. congruence. Qed.

(** ** Integers *)

Lemma checked_add_spec max a b :
  checked_add max a b = if decide (a + b <= max) then Some (a + b) else None.
Proof. unfold checked_add. case_decide; run; zify_bool; try done; lia. Qed.

Lemma checked_sub_Some a b c : checked_sub a b = Some c <-> b <= a /\ c = a - b.
Proof. unfold checked_sub. run; zify_bool; naive_solver lia. Qed.

Lemma checked_sub_None a b : checked_sub a b = None <-> a < b.
Proof. unfold checked_sub. run; zify_bool; naive_solver lia. Qed.

Lemma saturating_sub_max a b : saturating_sub a b = Z.max 0 (a - b).
Proof. unfold saturating_sub. run; zify_bool; lia. Qed.

Lemma plain_add_small {E} checks max a b :
  a + b <= max -> plain_add (E := E) checks max a b = Ok (a + b).
Proof. intros. unfold plain_add. run; zify_bool; [done | lia..]. Qed.

Lemma plain_add_exact {E} checks max a b c :
  plain_add (E := E) checks max a b = Ok c -> checks = true \/ a + b <= max -> c = a + b.
Proof. intros Hp Hc. unfold plain_add in Hp. repeat case_match; simplify_eq; zify_bool; lia || naive_solver. Qed.

Lemma plain_sub_small {E} checks max a b :
  b <= a -> plain_sub (E := E) checks max a b = Ok (a - b).
Proof. intros. unfold plain_sub. run; zify_bool; [done | lia..]. Qed.

(** ** Little-endian codec *)

Lemma le_bytes_length n z : length (le_bytes n z) = n.
Proof. revert z; induction n; intros; simpl; congruence. Qed.

Lemma le_bytes_bytes n z : Forall is_byte (le_bytes n z).
Proof.
  revert z; induction n; intros; simpl; constructor; [|done].
  apply Z.mod_pos_bound; lia.
Qed.

Lemma of_le_le_bytes n z :
  0 <= z < 256 ^ Z.of_nat n -> of_le (le_bytes n z) = z.
Proof.
  revert z; induction n as [|n IH]; intros z Hz; simpl of_le.
  - simpl in Hz; lia.
  - rewrite Nat2Z.inj_succ, Z.pow_succ_r in Hz by lia.
    rewrite IH.
    + pose proof (Z.div_mod z 256); lia.
    + split; [apply Z.div_pos; lia | apply Z.div_lt_upper_bound; lia].
Qed.

Lemma le_bytes_of_le l : Forall is_byte l -> le_bytes (length l) (of_le l) = l.
Proof.
  induction 1 as [|b l Hb Hl IH]; simpl; [done|]. unfold is_byte in Hb.
  rewrite (Z.add_comm b), Z.mul_comm.
  rewrite Z.add_comm, Z.mod_add, Z.mod_small by lia.
  rewrite Z.add_comm, Z.div_add_l, (Z.div_small b), Z.add_0_r by lia.
  by rewrite IH.
Qed.

Lemma of_le_bound l : Forall is_byte l -> 0 <= of_le l < 256 ^ Z.of_nat (length l).
Proof.
  induction 1 as [|b l Hb Hl IH]; simpl of_le; simpl length; [simpl; lia|].
  unfold is_byte in Hb. rewrite Nat2Z.inj_succ, Z.pow_succ_r by lia. lia.
Qed.

(** ** Splitting and joining *)

Lemma split_on_nil_not sep l : split_on sep l <> [].
Proof. destruct l; simpl; run; done. Qed.

Lemma split_on_clean sep p : sep ∉ p -> split_on sep p = [p].
Proof.
  induction p as [|c p IH]; intros Hp; simpl; [done|].
  rewrite (proj2 (Z.eqb_neq c sep)) by set_solver.
  by rewrite IH by set_solver.
Qed.

Lemma split_on_app sep p l :
  sep ∉ p -> split_on sep (p ++ sep :: l) = p :: split_on sep l.
Proof.
  induction p as [|c p IH]; intros Hp; simpl; [by rewrite Z.eqb_refl|].
  rewrite (proj2 (Z.eqb_neq c sep)) by set_solver.
  by rewrite IH by set_solver.
Qed.

Lemma split_join sep l :
  l <> [] -> Forall (fun p => sep ∉ p) l -> split_on sep (join_with sep l) = l.
Proof.
  intros Hne Hl. induction Hl as [|p l Hp Hl IH]; [done|].
  destruct l as [|q l]; [by apply split_on_clean|].
  change (join_with sep (p :: q :: l)) with (p ++ sep :: join_with sep (q :: l)).
  rewrite split_on_app by done. by rewrite IH.
Qed.

Lemma join_split sep l : join_with sep (split_on sep l) = l.
Proof.
  induction l as [|c l IH]; simpl; [done|].
  pose proof (split_on_nil_not sep l).
  case_match eqn:Hc; destruct (split_on sep l) as [|p ps]; try done; zify_bool; subst; simpl.
  - done.
  - by destruct ps.
Qed.

Lemma split_on_pieces sep l : Forall (fun p => sep ∉ p) (split_on sep l).
Proof.
  induction l as [|c l IH]; simpl; [constructor; [set_solver|done]|].
  destruct (Z.eqb_spec c sep) as [|Hne]; [constructor; [set_solver|done]|].
  destruct (split_on sep l); constructor; inversion IH; set_solver.
Qed.

Lemma starts_with_spec p l : starts_with p l = true <-> exists r, l = p ++ r.
Proof.
  revert l; induction p as [|a p IH]; intros l; simpl; [naive_solver|].
  destruct l as [|b l]; [naive_solver|].
  rewrite andb_true_iff, IH, Z.eqb_eq. naive_solver.
Qed.

Lemma starts_with_app p l : starts_with p (p ++ l) = true.
Proof. apply starts_with_spec. eauto. Qed.

(** ** Decimal round trip *)

Lemma parse_digits_app max acc l1 l2 :
  parse_digits max acc (l1 ++ l2) =
  (v ← parse_digits max acc l1; parse_digits max v l2).
Proof. revert acc; induction l1; intros; simpl; run; auto. Qed.

Lemma digits_digit fuel n c : 0 <= n -> c ∈ digits fuel n -> is_digit c = true.
Proof.
  revert n; induction fuel as [|f IH]; intros n Hn; simpl; [set_solver|].
  unfold is_digit. case_match; zify_bool.
  - intros ->%list_elem_of_singleton. apply andb_true_iff; rewrite !Z.leb_le; lia.
  - intros [Hc | ->%list_elem_of_singleton]%elem_of_app.
    + apply (IH (n / 10)); [apply Z.div_pos; lia | done].
    + pose proof (Z.mod_pos_bound n 10). apply andb_true_iff; rewrite !Z.leb_le; lia.
Qed.

Lemma parse_digits_digits max fuel n :
  0 <= n <= max -> n < 10 ^ Z.of_nat fuel ->
  parse_digits max 0 (digits fuel n) = Ok n.
Proof.
  revert n; induction fuel as [|f IH]; intros n Hn Hf; [simpl in Hf; simpl; f_equal; lia|].
  cbn [digits]. case_match eqn:Hlt; zify_bool.
  - cbn. assert (is_digit (48 + n) = true) as -> by
      (apply andb_true_iff; rewrite !Z.leb_le; lia).
    cbn. rewrite (proj2 (Z.leb_le _ _)); [f_equal|]; lia.
  - rewrite Nat2Z.inj_succ, Z.pow_succ_r in Hf by lia.
    pose proof (Z.div_mod n 10). pose proof (Z.mod_pos_bound n 10).
    rewrite parse_digits_app, IH; cycle 1.
    { split; [apply Z.div_pos; lia | lia]. }
    { apply Z.div_lt_upper_bound; lia. }
    cbn. assert (is_digit (48 + n mod 10) = true) as -> by
      (apply andb_true_iff; rewrite !Z.leb_le; lia).
    cbn. rewrite (proj2 (Z.leb_le _ _)); [f_equal|]; lia.
Qed.

Lemma digits_nonempty fuel n : fuel <> O -> digits fuel n <> [].
Proof. destruct fuel; simpl; [done|]. run; [done|]. intros _ Hn. by apply app_nil in Hn as [_ ?]. Qed.

Lemma show_digit n c : 0 <= n -> c ∈ show n -> is_digit c = true.
Proof. apply digits_digit. Qed.

Lemma show_clean sep n : 0 <= n -> is_digit sep = false -> sep ∉ show n.
Proof. intros Hn Hs Hin. apply show_digit in Hin; congruence. Qed.

Lemma parse_show max n :
  0 <= n <= max -> max <= u64_max -> parse_unsigned max (show n) = Ok n.
Proof.
  intros Hn Hm. assert (Hd := parse_digits_digits max 20 n Hn).
  assert (Hall := fun c => show_digit n c ltac:(lia)).
  assert (Hne := digits_nonempty 20 n ltac:(done)).
  fold (show n) in *. unfold u64_max in *.
  specialize (Hd ltac:(lia)). destruct (show n) as [|c l] eqn:Hs; [done|].
  assert (Hc : is_digit c = true) by (apply Hall; set_solver).
  unfold parse_unsigned. destruct l as [|d l].
  - by rewrite Hc.
  - unfold is_digit in Hc; zify_bool.
    rewrite (proj2 (Z.eqb_neq c 43)) by lia. done.
Qed.

(** ** Hint databases *)

Create HintDb vfs discriminated.
Create Rewrite HintDb vfs.
#[export] Hint Resolve le_bytes_bytes split_on_nil_not starts_with_app : vfs.
#[export] Hint Rewrite le_bytes_length @length_app @length_cons @length_nil : vfs.
