(* ===== verification/OpenFlags.v ===== *)
(** * Open flags (src/passthrough/open_flags.rs)

    Translation of the open(2) flags of a Linux guest into the flags of the
    host: another Linux architecture or Darwin.  Flags are [i32] values; [Z]'s
    bit operations are those of two's complement, so negative values need no
    special case. *)

From S2P Require Import Prelude.

Inductive GuestArch := X86_64 | Aarch64.

#[export] Instance GuestArch_eq_dec : EqDecision GuestArch.
Proof. solve_decision. Defined.

Record ArchOpenFlags := {
  direct : Z;
  largefile : Z;
  directory : Z;
  nofollow : Z;
}.

(** [0o40000], [0o100000], [0o200000], [0o400000]. *)
Definition arch_flags (a : GuestArch) : ArchOpenFlags :=
  match a with
  | X86_64 => {| direct := 0x4000; largefile := 0x8000;
                 directory := 0x10000; nofollow := 0x20000 |}
  | Aarch64 => {| direct := 0x10000; largefile := 0x20000;
                  directory := 0x4000; nofollow := 0x8000 |}
  end.

Definition mask (f : ArchOpenFlags) : Z :=
  Z.lor (Z.lor (Z.lor (direct f) (largefile f)) (directory f)) (nofollow f).

Definition guest_arch_from_str (s : list Z) : res (list Z) GuestArch :=
  if bool_decide (s = text "x86_64") || bool_decide (s = text "amd64") then Ok X86_64
  else if bool_decide (s = text "aarch64") || bool_decide (s = text "arm64") then Ok Aarch64
  else Err (text "invalid guest-arch value (expected x86_64 or aarch64)").

Definition guest_arch_display (a : GuestArch) : list Z :=
  match a with X86_64 => text "x86_64" | Aarch64 => text "aarch64" end.

(** The flags every Linux architecture agrees on. *)
Definition linux_O_ACCMODE := 0x3.
Definition linux_O_RDONLY := 0x0.
Definition linux_O_WRONLY := 0x1.
Definition linux_O_RDWR := 0x2.
Definition linux_O_CREAT := 0x40.
Definition linux_O_EXCL := 0x80.
Definition linux_O_NOCTTY := 0x100.
Definition linux_O_TRUNC := 0x200.
Definition linux_O_APPEND := 0x400.
Definition linux_O_NONBLOCK := 0x800.
Definition linux_O_DSYNC := 0x1000.
Definition linux_O_CLOEXEC := 0x80000.
Definition linux_O_SYNC := 0x101000.
Definition linux_O_PATH := 0x200000.
Definition linux___O_TMPFILE := 0x400000.

(** Darwin's values. *)
Definition darwin_O_RDONLY := 0x0000.
Definition darwin_O_WRONLY := 0x0001.
Definition darwin_O_RDWR := 0x0002.
Definition darwin_O_NONBLOCK := 0x0004.
Definition darwin_O_APPEND := 0x0008.
Definition darwin_O_SYNC := 0x0080.
Definition darwin_O_NOFOLLOW := 0x0100.
Definition darwin_O_CREAT := 0x0200.
Definition darwin_O_TRUNC := 0x0400.
Definition darwin_O_EXCL := 0x0800.
Definition darwin_O_NOCTTY := 0x00020000.
Definition darwin_O_DIRECTORY := 0x00100000.
Definition darwin_O_DSYNC := 0x00400000.
Definition darwin_O_CLOEXEC := 0x01000000.

Record HostOpenFlags := {
  flags : Z;
  nocache : bool;
}.

#[export] Instance HostOpenFlags_eq_dec : EqDecision HostOpenFlags.
Proof. solve_decision. Defined.

(** The [for] loop over a translation table: a row contributes its target flag
    when the guest's flags satisfy [test] for its source flag. *)
Definition apply_table (test : Z -> bool) (table : list (Z * Z)) (init : Z) : Z :=
  fold_left (fun acc '(from, to) => if test from then Z.lor acc to else acc) table init.

Definition darwin_access (linux_flags : Z) : Z :=
  let acc := Z.land linux_flags linux_O_ACCMODE in
  if acc =? linux_O_RDONLY then darwin_O_RDONLY
  else if acc =? linux_O_WRONLY then darwin_O_WRONLY
  else if acc =? linux_O_RDWR then darwin_O_RDWR
  else darwin_O_RDONLY.

Definition darwin_table (arch : ArchOpenFlags) : list (Z * Z) :=
  [ (linux_O_CREAT, darwin_O_CREAT);
    (linux_O_EXCL, darwin_O_EXCL);
    (linux_O_NOCTTY, darwin_O_NOCTTY);
    (linux_O_TRUNC, darwin_O_TRUNC);
    (linux_O_APPEND, darwin_O_APPEND);
    (linux_O_NONBLOCK, darwin_O_NONBLOCK);
    (linux_O_DSYNC, darwin_O_DSYNC);
    (linux_O_CLOEXEC, darwin_O_CLOEXEC);
    (directory arch, darwin_O_DIRECTORY);
    (nofollow arch, darwin_O_NOFOLLOW) ].

Definition linux_to_darwin_open_flags (linux_flags : Z) (guest : GuestArch) : HostOpenFlags :=
  let arch := arch_flags guest in
  let fl := apply_table (has_all linux_flags) (darwin_table arch) (darwin_access linux_flags) in
  let fl := if has_all linux_flags linux_O_SYNC then Z.lor fl darwin_O_SYNC else fl in
  {| flags := fl; nocache := has_any linux_flags (direct arch) |}.

Definition arch_pairs (from to : ArchOpenFlags) : list (Z * Z) :=
  [ (direct from, direct to);
    (largefile from, largefile to);
    (directory from, directory to);
    (nofollow from, nofollow to) ].

Definition linux_to_linux_open_flags (linux_flags : Z) (guest host : GuestArch) : Z :=
  if bool_decide (guest = host) then linux_flags
  else
    let from := arch_flags guest in
    let to := arch_flags host in
    apply_table (has_any linux_flags) (arch_pairs from to)
      (Z.land linux_flags (Z.lnot (mask from))).

(** The host the daemon is built for. *)
Inductive HostOs := HostLinux (arch : GuestArch) | HostMacos.

Definition translate_linux_open_flags (os : HostOs) (linux_flags : Z) (guest : GuestArch)
  : HostOpenFlags :=
  match os with
  | HostMacos => linux_to_darwin_open_flags linux_flags guest
  | HostLinux host =>
      {| flags := linux_to_linux_open_flags linux_flags guest host; nocache := false |}
  end.

(** ** Bits of a translation *)

Lemma testbit_apply_table test table init i :
  Z.testbit (apply_table test table init) i =
  Z.testbit init i || existsb (fun '(from, to) => test from && Z.testbit to i) table.
Proof.
  unfold apply_table. revert init; induction table as [|[from to] table IH];
    intros init; simpl; [by rewrite orb_false_r|].
  rewrite IH. destruct (test from); simpl; [|done].
  by rewrite Z.lor_spec, orb_assoc.
Qed.

(** A test of a single-bit flag reads that bit. *)
Lemma has_any_bit f n : 0 <= n -> has_any f (2 ^ n) = Z.testbit f n.
Proof.
  intros Hn. unfold has_any. destruct (Z.testbit f n) eqn:Hb.
  - apply negb_true_iff, Z.eqb_neq. intros Hz.
    apply (f_equal (fun z => Z.testbit z n)) in Hz.
    by rewrite Z.land_spec, Hb, Z.pow2_bits_true, Z.bits_0 in Hz.
  - apply negb_false_iff, Z.eqb_eq, Z.bits_inj'. intros m Hm.
    rewrite Z.land_spec, Z.pow2_bits_eqb, Z.bits_0 by lia.
    destruct (Z.eqb_spec n m) as [->|]; [by rewrite Hb|apply andb_false_r].
Qed.

Lemma has_all_bit f n : 0 <= n -> has_all f (2 ^ n) = Z.testbit f n.
Proof.
  intros Hn. unfold has_all. destruct (Z.testbit f n) eqn:Hb.
  - apply Z.eqb_eq, Z.bits_inj'. intros m Hm.
    rewrite Z.land_spec, Z.pow2_bits_eqb by lia.
    destruct (Z.eqb_spec n m) as [->|]; [by rewrite Hb|apply andb_false_r].
  - apply Z.eqb_neq. intros Hz.
    apply (f_equal (fun z => Z.testbit z n)) in Hz.
    by rewrite Z.land_spec, Hb, Z.pow2_bits_true in Hz.
Qed.

Lemma has_all_sync f :
  has_all f linux_O_SYNC = Z.testbit f 12 && Z.testbit f 20.
Proof.
  unfold has_all. destruct (Z.testbit f 12) eqn:H1, (Z.testbit f 20) eqn:H2; simpl.
  1: { apply Z.eqb_eq, Z.bits_inj'. intros m Hm. rewrite Z.land_spec.
       destruct (decide (m = 12)) as [->|]; [by rewrite H1|].
       destruct (decide (m = 20)) as [->|]; [by rewrite H2|].
       change linux_O_SYNC with (Z.lor (2 ^ 12) (2 ^ 20)).
       rewrite Z.lor_spec, !Z.pow2_bits_false by lia. apply andb_false_r. }
  all: apply Z.eqb_neq; intros Hz;
    first [ apply (f_equal (fun z => Z.testbit z 20)) in Hz; rewrite Z.land_spec, H2 in Hz; discriminate Hz
          | apply (f_equal (fun z => Z.testbit z 12)) in Hz; rewrite Z.land_spec, H1 in Hz; discriminate Hz ].
Qed.

(** The two architectures exchange bits 14 and 16, and bits 15 and 17. *)
Definition swapped (i : Z) : Z :=
  if i =? 14 then 16 else if i =? 15 then 17
  else if i =? 16 then 14 else if i =? 17 then 15 else i.

Lemma testbit_masked f a i :
  0 <= i ->
  Z.testbit (Z.land f (Z.lnot (mask (arch_flags a)))) i =
  Z.testbit f i && negb ((14 <=? i) && (i <=? 17)).
Proof.
  intros Hi. rewrite Z.land_spec, Z.lnot_spec by done. f_equal. f_equal.
  replace (mask (arch_flags a)) with (Z.shiftl (Z.ones 4) 14) by by destruct a.
  rewrite Z.shiftl_spec, Z.testbit_ones by lia.
  destruct (Z.leb_spec 14 i), (Z.leb_spec i 17); simpl;
    destruct (Z.leb_spec 0 (i - 14)), (Z.ltb_spec (i - 14) 4); simpl; lia || done.
Qed.

(** The single-bit tests of the four moving flags, as bits. *)
Lemma has_any_moving f :
  has_any f 0x4000 = Z.testbit f 14 /\ has_any f 0x8000 = Z.testbit f 15 /\
  has_any f 0x10000 = Z.testbit f 16 /\ has_any f 0x20000 = Z.testbit f 17.
Proof.
  split_and!; [apply (has_any_bit f 14) | apply (has_any_bit f 15)
              | apply (has_any_bit f 16) | apply (has_any_bit f 17)]; lia.
Qed.

Lemma testbit_linux_to_linux f g h i :
  0 <= i -> g <> h ->
  Z.testbit (linux_to_linux_open_flags f g h) i = Z.testbit f (swapped i).
Proof.
  intros Hi Hgh. unfold linux_to_linux_open_flags.
  rewrite bool_decide_eq_false_2, testbit_apply_table, testbit_masked by done.
  destruct (has_any_moving f) as (H14 & H15 & H16 & H17).
  destruct (decide (14 <= i <= 17)) as [Hr|Hr].
  - assert (i = 14 \/ i = 15 \/ i = 16 \/ i = 17) as [->|[->|[->| ->]]] by lia;
      destruct g, h; try done; cbn [existsb arch_pairs arch_flags direct largefile directory nofollow];
      rewrite H14, H15, H16, H17; simpl; by rewrite ?andb_true_r, ?andb_false_r, ?orb_false_r.
  - assert (forall n, 14 <= n <= 17 -> Z.testbit (2 ^ n) i = false) as Hf
      by (intros; apply Z.pow2_bits_false; lia).
    assert (swapped i = i) as ->.
    { unfold swapped. run; zify_bool; lia. }
    replace (existsb _ _) with false.
    + rewrite orb_false_r. destruct (Z.leb_spec 14 i), (Z.leb_spec i 17); try lia;
        simpl; by rewrite andb_true_r.
    + assert (F14 : Z.testbit 0x4000 i = false) by (apply (Hf 14); lia).
      assert (F15 : Z.testbit 0x8000 i = false) by (apply (Hf 15); lia).
      assert (F16 : Z.testbit 0x10000 i = false) by (apply (Hf 16); lia).
      assert (F17 : Z.testbit 0x20000 i = false) by (apply (Hf 17); lia).
      destruct g, h; try done; cbn [existsb arch_pairs arch_flags direct largefile directory nofollow];
      rewrite F14, F15, F16, F17; by rewrite !andb_false_r.
Qed.

Lemma swapped_involutive i : swapped (swapped i) = i.
Proof. unfold swapped. repeat (case_match; zify_bool; subst; try lia; try done). Qed.

Lemma swapped_nonneg i : 0 <= i -> 0 <= swapped i.
Proof. unfold swapped. run; lia. Qed.

(** ** Linux to Linux *)

(** Translating a guest's open flags to another Linux architecture and back
    gives the original flags back, bit for bit, for every value (bits the module
    does not name and the sign bit included). *)
Theorem linux_to_linux_roundtrip f g h :
  linux_to_linux_open_flags (linux_to_linux_open_flags f g h) h g = f.
Proof.
  destruct (decide (g = h)) as [->|Hgh].
  - unfold linux_to_linux_open_flags. by rewrite bool_decide_eq_true_2.
  - apply Z.bits_inj'. intros i Hi.
    rewrite !testbit_linux_to_linux by (congruence || auto using swapped_nonneg).
    by rewrite swapped_involutive.
Qed.

(** A translated value asks for the host's O_DIRECT, O_LARGEFILE,
    O_DIRECTORY and O_NOFOLLOW exactly when the guest asked for them with its own
    values, and every bit outside those four is unchanged. *)
Theorem linux_to_linux_meaning f g h :
  let f' := linux_to_linux_open_flags f g h in
  let gf := arch_flags g in
  let hf := arch_flags h in
  has_any f' (direct hf) = has_any f (direct gf) /\
  has_any f' (largefile hf) = has_any f (largefile gf) /\
  has_any f' (directory hf) = has_any f (directory gf) /\
  has_any f' (nofollow hf) = has_any f (nofollow gf) /\
  Z.land f' (Z.lnot (mask hf)) = Z.land f (Z.lnot (mask gf)).
Proof.
  cbn zeta. destruct (decide (g = h)) as [->|Hgh].
  - unfold linux_to_linux_open_flags. by rewrite bool_decide_eq_true_2.
  - set (f' := linux_to_linux_open_flags f g h).
    destruct (has_any_moving f) as (F14 & F15 & F16 & F17).
    destruct (has_any_moving f') as (G14 & G15 & G16 & G17).
    split_and!; last first.
    { apply Z.bits_inj'. intros i Hi. rewrite !testbit_masked by done.
      unfold f'. rewrite testbit_linux_to_linux by done.
      unfold swapped. repeat (case_match; zify_bool; [by subst; simpl; rewrite !andb_false_r|]). done. }
    all: destruct g, h; try done; simpl;
      rewrite ?F14, ?F15, ?F16, ?F17, ?G14, ?G15, ?G16, ?G17;
      unfold f'; by rewrite testbit_linux_to_linux by (lia || done).
Qed.

(** ** Linux to Darwin *)

#[local] Arguments has_all : simpl never.
#[local] Arguments has_any : simpl never.

Lemma testbit_linux_to_darwin f g i :
  Z.testbit (flags (linux_to_darwin_open_flags f g)) i =
  Z.testbit (darwin_access f) i
  || existsb (fun '(from, to) => has_all f from && Z.testbit to i) (darwin_table (arch_flags g))
  || has_all f linux_O_SYNC && Z.testbit darwin_O_SYNC i.
Proof.
  unfold linux_to_darwin_open_flags. cbn [flags].
  destruct (has_all f linux_O_SYNC); cbn [andb].
  - by rewrite Z.lor_spec, testbit_apply_table.
  - by rewrite testbit_apply_table, orb_false_r.
Qed.

Lemma darwin_access_high f i : 2 <= i -> Z.testbit (darwin_access f) i = false.
Proof.
  intros Hi. unfold darwin_access. run; try apply Z.bits_0.
  all: first [apply (Z.pow2_bits_false 0); lia | apply (Z.pow2_bits_false 1); lia].
Qed.

(** A target flag of the translation is set exactly when its row fires. *)
Lemma darwin_row f g (l : Z) (k : Z) :
  2 <= k ->
  existsb (fun '(from, to) => has_all f from && Z.testbit to k) (darwin_table (arch_flags g))
    || has_all f linux_O_SYNC && Z.testbit darwin_O_SYNC k = has_all f l ->
  has_all (flags (linux_to_darwin_open_flags f g)) (2 ^ k) = has_all f l.
Proof.
  intros Hk Hrow. rewrite has_all_bit, testbit_linux_to_darwin, darwin_access_high by lia.
  done.
Qed.

Ltac darwin_row k :=
  apply (darwin_row _ _ _ k); [lia|];
  cbn -[has_all]; rewrite ?andb_true_r, ?andb_false_r, ?orb_false_r; done.

Lemma apply_table_low K test table init :
  Forall (fun '(_, to) => Z.land to K = 0) table ->
  Z.land (apply_table test table init) K = Z.land init K.
Proof.
  unfold apply_table. intros Ht; revert init.
  induction Ht as [|[from to] table Hto Ht IH]; intros init; simpl; [done|].
  rewrite IH. destruct (test from); [|done]. by rewrite Z.land_lor_distr_l, Hto, Z.lor_0_r.
Qed.

Lemma darwin_access_value f :
  darwin_access f = (if Z.land f 3 =? 3 then darwin_O_RDONLY else Z.land f 3) /\
  Z.land (darwin_access f) 3 = darwin_access f.
Proof.
  unfold darwin_access. change linux_O_ACCMODE with 3.
  assert (Hr : 0 <= Z.land f 3 < 4).
  { change 3 with (Z.ones 2). rewrite Z.land_ones by lia. by apply Z.mod_pos_bound. }
  remember (Z.land f 3) as a. clear Heqa.
  assert (a = 0 \/ a = 1 \/ a = 2 \/ a = 3) as [->|[->|[->| ->]]] by lia; done.
Qed.

(** Every flag Darwin's open(2) receives from a translation. *)
Definition darwin_known : Z := 0x01520F8F.

(** C36: On a macOS host a translated open has the guest's access mode (read-only
    for the invalid fourth mode), sets each Darwin flag exactly when the guest set
    the corresponding Linux flag of its architecture, sets O_SYNC only when both of
    its Linux bits are set, sets no other bit, and reports O_DIRECT as [nocache]. *)
Theorem linux_to_darwin_meaning f g :
  let r := linux_to_darwin_open_flags f g in
  let a := arch_flags g in
  Z.land (flags r) 3 = (if Z.land f 3 =? 3 then darwin_O_RDONLY else Z.land f 3) /\
  Forall (fun '(l, d) => has_all (flags r) d = has_all f l)
    [ (linux_O_CREAT, darwin_O_CREAT); (linux_O_EXCL, darwin_O_EXCL);
      (linux_O_NOCTTY, darwin_O_NOCTTY); (linux_O_TRUNC, darwin_O_TRUNC);
      (linux_O_APPEND, darwin_O_APPEND); (linux_O_NONBLOCK, darwin_O_NONBLOCK);
      (linux_O_DSYNC, darwin_O_DSYNC); (linux_O_CLOEXEC, darwin_O_CLOEXEC);
      (directory a, darwin_O_DIRECTORY); (nofollow a, darwin_O_NOFOLLOW);
      (linux_O_SYNC, darwin_O_SYNC) ] /\
  Z.land (flags r) (Z.lnot darwin_known) = 0 /\
  nocache r = has_any f (direct a).
Proof.
  cbn zeta. split_and!.
  - unfold linux_to_darwin_open_flags; cbn [flags].
    destruct (darwin_access_value f) as [Hv Hl]. rewrite <- Hv.
    destruct (has_all f linux_O_SYNC);
      rewrite ?Z.land_lor_distr_l, apply_table_low, Hl by (by destruct g; repeat constructor);
      [apply Z.lor_0_r | done].
  - repeat apply Forall_cons_2; [darwin_row 9|darwin_row 11|darwin_row 17|darwin_row 10
      |darwin_row 3|darwin_row 2|darwin_row 22|darwin_row 24|darwin_row 20|darwin_row 8
      |darwin_row 7|constructor].
  - unfold linux_to_darwin_open_flags; cbn [flags].
    assert (Z.land (darwin_access f) (Z.lnot darwin_known) = 0) as Ha
      by (unfold darwin_access; run; done).
    destruct (has_all f linux_O_SYNC); rewrite ?Z.land_lor_distr_l, apply_table_low, Ha
      by (by destruct g; repeat constructor); done.
  - done.
Qed.

(** Displaying an architecture and parsing the result back gives the same
    architecture, and parsing accepts nothing but the four documented names. *)
Theorem guest_arch_roundtrip (a : GuestArch) (s : list Z) :
  guest_arch_from_str (guest_arch_display a) = Ok a /\
  (guest_arch_from_str s = Ok a <->
   match a with
   | X86_64 => s = text "x86_64" \/ s = text "amd64"
   | Aarch64 => s = text "aarch64" \/ s = text "arm64"
   end).
Proof.
  split; [by destruct a|]. unfold guest_arch_from_str.
  repeat case_bool_decide; subst; destruct a; simpl; naive_solver.
Qed.
