(* ===== verification/Libc.v ===== *)
(** * Constants of the [libc] crate on the two hosts

    Only those the program uses.  On macOS src/libc_compat.rs adds stand-ins for
    flags Darwin lacks. *)

From S2P Require Import Prelude OpenFlags.

(** ** Errno values that differ *)

Definition host_ENOSYS (os : HostOs) : Z := match os with HostLinux _ => 38 | HostMacos => 78 end.
Definition host_ENODATA (os : HostOs) : Z := match os with HostLinux _ => 61 | HostMacos => 96 end.
Definition host_EPROTO (os : HostOs) : Z := match os with HostLinux _ => 71 | HostMacos => 100 end.
Definition host_EOVERFLOW (os : HostOs) : Z :=
  match os with HostLinux _ => 75 | HostMacos => 84 end.
Definition host_ENOTSUP (os : HostOs) : Z := match os with HostLinux _ => 95 | HostMacos => 45 end.
Definition host_EOPNOTSUPP (os : HostOs) : Z :=
  match os with HostLinux _ => 95 | HostMacos => 102 end.

(** ** Open flags *)

Definition O_ACCMODE : Z := 3.
Definition O_RDONLY : Z := 0.
Definition O_WRONLY : Z := 1.
Definition O_RDWR : Z := 2.

Definition O_CREAT (os : HostOs) : Z :=
  match os with HostLinux _ => linux_O_CREAT | HostMacos => darwin_O_CREAT end.
Definition O_EXCL (os : HostOs) : Z :=
  match os with HostLinux _ => linux_O_EXCL | HostMacos => darwin_O_EXCL end.
Definition O_TRUNC (os : HostOs) : Z :=
  match os with HostLinux _ => linux_O_TRUNC | HostMacos => darwin_O_TRUNC end.
Definition O_APPEND (os : HostOs) : Z :=
  match os with HostLinux _ => linux_O_APPEND | HostMacos => darwin_O_APPEND end.
Definition O_NONBLOCK (os : HostOs) : Z :=
  match os with HostLinux _ => linux_O_NONBLOCK | HostMacos => darwin_O_NONBLOCK end.
Definition O_CLOEXEC (os : HostOs) : Z :=
  match os with HostLinux _ => linux_O_CLOEXEC | HostMacos => darwin_O_CLOEXEC end.
Definition O_DIRECTORY (os : HostOs) : Z :=
  match os with HostLinux a => directory (arch_flags a) | HostMacos => darwin_O_DIRECTORY end.
Definition O_NOFOLLOW (os : HostOs) : Z :=
  match os with HostLinux a => nofollow (arch_flags a) | HostMacos => darwin_O_NOFOLLOW end.

(** The next two are 0 on macOS (src/libc_compat.rs). *)
Definition O_DIRECT (os : HostOs) : Z :=
  match os with HostLinux a => direct (arch_flags a) | HostMacos => 0 end.
Definition O_NOATIME (os : HostOs) : Z :=
  match os with HostLinux _ => 0x40000 | HostMacos => 0 end.

(** [O_PATH_OR_RDONLY] of src/passthrough/mod.rs. *)
Definition O_PATH_OR_RDONLY (os : HostOs) : Z :=
  match os with HostLinux _ => linux_O_PATH | HostMacos => O_RDONLY end.

(** Darwin only. *)
Definition O_SYMLINK : Z := 0x200000.

(** ** File modes *)

Definition S_IFMT : Z := 0xF000.
Definition S_IFREG : Z := 0x8000.
Definition S_IFDIR : Z := 0x4000.
Definition S_ISGID : Z := 0x400.

Definition R_OK : Z := 4.
Definition W_OK : Z := 2.
Definition X_OK : Z := 1.
Definition F_OK : Z := 0.

(** ** Flags and special values of other calls *)

Definition AT_FDCWD (os : HostOs) : Z := match os with HostLinux _ => -100 | HostMacos => -2 end.
Definition AT_REMOVEDIR (os : HostOs) : Z :=
  match os with HostLinux _ => 0x200 | HostMacos => 0x80 end.
Definition AT_SYMLINK_FOLLOW (os : HostOs) : Z :=
  match os with HostLinux _ => 0x400 | HostMacos => 0x40 end.
Definition AT_EMPTY_PATH : Z := 0x1000.
Definition AT_SYMLINK_NOFOLLOW (os : HostOs) : Z :=
  match os with HostLinux _ => 0x100 | HostMacos => 0x20 end.
Definition RENAME_EXCL : Z := 4.
Definition RENAME_SWAP : Z := 2.
Definition UTIME_NOW (os : HostOs) : Z :=
  match os with HostLinux _ => 2 ^ 30 - 1 | HostMacos => -1 end.
Definition UTIME_OMIT (os : HostOs) : Z :=
  match os with HostLinux _ => 2 ^ 30 - 2 | HostMacos => -2 end.
Definition PATH_MAX (os : HostOs) : Z := match os with HostLinux _ => 4096 | HostMacos => 1024 end.
Definition RWF_APPEND : Z := 0x10.
Definition STATX_BASIC_STATS : Z := 0x7ff.
Definition STATX_MNT_ID : Z := 0x1000.
Definition SEEK_SET : Z := 0.
Definition SEEK_CUR : Z := 1.
Definition SEEK_END : Z := 2.
Definition SEEK_DATA (os : HostOs) : Z := match os with HostLinux _ => 3 | HostMacos => 4 end.
Definition SEEK_HOLE (os : HostOs) : Z := match os with HostLinux _ => 4 | HostMacos => 3 end.
Definition RESOLVE_NO_MAGICLINKS : Z := 2.
Definition RESOLVE_IN_ROOT : Z := 16.
