(* ===== verification/FileHandle.v ===== *)
(** * File handles (src/passthrough/file_handle.rs, src/oslib.rs)

    The kernel's file handles as virtiofsd keeps them: the fixed-size C buffer
    [CFileHandle], the handle with its mount ID [FileHandle] (a key of the inode
    store), the form that travels in a migration stream
    [SerializableFileHandle], and the conversions between them.  The system calls
    are arguments of the functions that make them. *)

From S2P Require Import Prelude OpenFlags Libc.

Definition MAX_HANDLE_SZ : Z := 128.

Record CFileHandle := {
  handle_bytes : Z;
  handle_type : Z;
  f_handle : list Z;
}.

Record FileHandle := {
  fh_mnt_id : Z;
  fh_handle : CFileHandle;
}.

Record SerializableFileHandle := {
  sfh_mnt_id : Z;
  sfh_handle_type : Z;
  sfh_handle : list Z;
}.

(** [mount_fd] stands for the open mount file descriptor an openable handle
    refers to: its mount ID and its descriptor. *)
Record MountFd := {
  mount_id : Z;
  mount_file : Z;
}.

Record OpenableFileHandle := {
  inner : FileHandle;
  mount_fd : MountFd;
}.

Inductive FileOrHandle :=
| File (fd : Z)
| Handle (h : OpenableFileHandle)
| Invalid (err : io_error).

#[export] Instance CFileHandle_eq_dec : EqDecision CFileHandle.
Proof. solve_decision. Defined.
#[export] Instance CFileHandle_countable : Countable CFileHandle.
Proof.
  apply (inj_countable' (fun h => (handle_bytes h, handle_type h, f_handle h))
           (fun t => {| handle_bytes := t.1.1; handle_type := t.1.2; f_handle := t.2 |})).
  by intros [].
Defined.
#[export] Instance FileHandle_eq_dec : EqDecision FileHandle.
Proof. solve_decision. Defined.
#[export] Instance FileHandle_countable : Countable FileHandle.
Proof.
  apply (inj_countable' (fun h => (fh_mnt_id h, fh_handle h))
           (fun t => {| fh_mnt_id := t.1; fh_handle := t.2 |})).
  by intros [].
Defined.
#[export] Instance SerializableFileHandle_eq_dec : EqDecision SerializableFileHandle.
Proof. solve_decision. Defined.
#[export] Instance MountFd_eq_dec : EqDecision MountFd.
Proof. solve_decision. Defined.
#[export] Instance OpenableFileHandle_eq_dec : EqDecision OpenableFileHandle.
Proof. solve_decision. Defined.
#[export] Instance FileOrHandle_eq_dec : EqDecision FileOrHandle.
Proof. solve_decision. Defined.

(** ** The C buffer *)

Definition cfh_default : CFileHandle :=
  {| handle_bytes := MAX_HANDLE_SZ; handle_type := 0; f_handle := replicate 128 0 |}.

(** [&self.f_handle[..handle_bytes]]: slicing past the array panics. *)
Definition cfh_as_bytes {E} (h : CFileHandle) : res E (list Z) :=
  if handle_bytes h <=? Z.of_nat (length (f_handle h))
  then Ok (take (Z.to_nat (handle_bytes h)) (f_handle h))
  else Panic.

(** [f_handle[..n].copy_from_slice(bytes)] on a zeroed array of 128 bytes. *)
Definition cfh_try_from (sfh : SerializableFileHandle) : io CFileHandle :=
  let bytes := sfh_handle sfh in
  if MAX_HANDLE_SZ <? Z.of_nat (length bytes) then Err (Custom Other)
  else Ok {| handle_bytes := Z.of_nat (length bytes);
             handle_type := sfh_handle_type sfh;
             f_handle := bytes ++ replicate (128 - length bytes) 0 |}.

(** ** Handles from the kernel

    [syscall] is the outcome of name_to_handle_at(2): the filled buffer and the
    mount ID ([c_int], cast to [u64]), or an errno. *)

Definition from_name_at_fail_hard (syscall : io (CFileHandle * Z)) : io FileHandle :=
  '(c_fh, mnt) ← syscall;
  Ok {| fh_mnt_id := mnt mod 2 ^ 64; fh_handle := c_fh |}.

Definition from_name_at (os : HostOs) (syscall : io (CFileHandle * Z)) : io (option FileHandle) :=
  match from_name_at_fail_hard syscall with
  | Ok fh => Ok (Some fh)
  | Err err =>
      match raw_os_error err with
      | Some n => if (n =? host_EOPNOTSUPP os) || (n =? host_EOVERFLOW os) then Ok None else Err err
      | None => Err err
      end
  | Panic => Panic
  end.

(** ** Serializable handles *)

Definition sfh_from {E} (fh : FileHandle) : res E SerializableFileHandle :=
  bytes ← cfh_as_bytes (fh_handle fh);
  Ok {| sfh_mnt_id := fh_mnt_id fh;
        sfh_handle_type := handle_type (fh_handle fh);
        sfh_handle := bytes |}.

Definition sfh_try_from (name_to_handle : Z -> io (CFileHandle * Z)) (foh : FileOrHandle)
  : io SerializableFileHandle :=
  match foh with
  | Handle h => sfh_from (inner h)
  | File fd => fh ← from_name_at_fail_hard (name_to_handle fd); sfh_from fh
  | Invalid e => Err (Custom (error_kind_of e))
  end.

Definition require_equal_without_mount_id (a b : SerializableFileHandle) : bool :=
  if negb (sfh_handle_type a =? sfh_handle_type b) then false
  else bool_decide (sfh_handle a = sfh_handle b).

Definition require_equal (a b : SerializableFileHandle) : bool :=
  if negb (sfh_mnt_id a =? sfh_mnt_id b) then false
  else require_equal_without_mount_id a b.

Definition sfh_to_openable (sfh : SerializableFileHandle) (mfd : MountFd)
  : io OpenableFileHandle :=
  c_handle ← cfh_try_from sfh;
  Ok {| inner := {| fh_mnt_id := mount_id mfd; fh_handle := c_handle |};
        mount_fd := mfd |}.

(** ** Well-formed buffers

    The kernel fills [handle_bytes] bytes of a buffer that started zeroed, so
    the rest of the array is zero. *)

Definition cfh_wf (h : CFileHandle) : Prop :=
  0 <= handle_bytes h <= MAX_HANDLE_SZ /\
  length (f_handle h) = 128%nat /\
  drop (Z.to_nat (handle_bytes h)) (f_handle h) =
    replicate (128 - Z.to_nat (handle_bytes h)) 0.

Lemma cfh_as_bytes_wf {E} h :
  cfh_wf h -> cfh_as_bytes (E := E) h = Ok (take (Z.to_nat (handle_bytes h)) (f_handle h)).
Proof.
  intros (Hb & Hl & _). unfold cfh_as_bytes, MAX_HANDLE_SZ in *.
  rewrite (proj2 (Z.leb_le _ _)) by lia. done.
Qed.

Lemma cfh_try_from_wf sfh h : cfh_try_from sfh = Ok h -> cfh_wf h.
Proof.
  unfold cfh_try_from, cfh_wf, MAX_HANDLE_SZ. intros H. case_match; zify_bool; simplify_eq/=.
  rewrite Nat2Z.id. split_and!; [lia..| |by rewrite drop_app_length].
  rewrite length_app, length_replicate. lia.
Qed.

Lemma cfh_roundtrip h :
  cfh_wf h ->
  cfh_try_from {| sfh_mnt_id := 0; sfh_handle_type := handle_type h;
                  sfh_handle := take (Z.to_nat (handle_bytes h)) (f_handle h) |} = Ok h.
Proof.
  intros (Hb & Hl & Hd). unfold cfh_try_from, MAX_HANDLE_SZ in *. cbn [sfh_handle sfh_handle_type].
  rewrite length_take, Nat.min_l by lia. rewrite Z2Nat.id by lia.
  rewrite (proj2 (Z.ltb_ge _ _)) by lia. destruct h as [n t b]; simpl in *.
  f_equal. f_equal. rewrite <- Hd. apply take_drop.
Qed.

(** A file handle obtained from the kernel survives migration: serializing
    it and making the result openable on the mount it belongs to restores exactly
    the same handle (so it is found again as a key of the inode store); with
    another mount only the mount ID changes. *)
Theorem file_handle_roundtrip (fh : FileHandle) (mfd : MountFd) :
  cfh_wf (fh_handle fh) ->
  (sfh ← sfh_from fh; sfh_to_openable sfh mfd) =
    Ok {| inner := {| fh_mnt_id := mount_id mfd; fh_handle := fh_handle fh |};
          mount_fd := mfd |}.
Proof.
  intros Hwf. unfold sfh_from. rewrite cfh_as_bytes_wf by done. simpl.
  unfold sfh_to_openable. pose proof (cfh_roundtrip _ Hwf) as Hr.
  unfold cfh_try_from in *. simpl in *. by rewrite Hr.
Qed.

Lemma file_handle_roundtrip_witness :
  (sfh ← sfh_from {| fh_mnt_id := 7; fh_handle :=
      {| handle_bytes := 3; handle_type := 1; f_handle := [1; 2; 3] ++ replicate 125 0 |} |};
   sfh_to_openable sfh {| mount_id := 9; mount_file := 5 |}) =
    Ok {| inner := {| fh_mnt_id := 9; fh_handle :=
            {| handle_bytes := 3; handle_type := 1; f_handle := [1; 2; 3] ++ replicate 125 0 |} |};
          mount_fd := {| mount_id := 9; mount_file := 5 |} |}.
Proof.
  apply (file_handle_roundtrip {| fh_mnt_id := 7; fh_handle :=
    {| handle_bytes := 3; handle_type := 1; f_handle := [1; 2; 3] ++ replicate 125 0 |} |}).
  unfold cfh_wf, MAX_HANDLE_SZ; simpl. split_and!; lia || done.
Defined.

(** Two file handles compare equal for the migration check exactly when
    type and bytes agree, and a handle with an oversized payload is refused with an
    error instead of overrunning the fixed 128-byte buffer. *)
Theorem file_handle_checks (a b : SerializableFileHandle) :
  (require_equal_without_mount_id a b = true <->
     sfh_handle_type a = sfh_handle_type b /\ sfh_handle a = sfh_handle b) /\
  (require_equal a b = true <-> a = b) /\
  match cfh_try_from a with
  | Ok h => cfh_wf h /\ Z.of_nat (length (sfh_handle a)) <= MAX_HANDLE_SZ
  | Err e => e = Custom Other /\ MAX_HANDLE_SZ < Z.of_nat (length (sfh_handle a))
  | Panic => False
  end.
Proof.
  assert (Hm : require_equal_without_mount_id a b = true <->
     sfh_handle_type a = sfh_handle_type b /\ sfh_handle a = sfh_handle b).
  { unfold require_equal_without_mount_id. case_match; zify_bool; [naive_solver|].
    rewrite bool_decide_eq_true. naive_solver. }
  split_and!; [done| |].
  - unfold require_equal. destruct (Z.eqb_spec (sfh_mnt_id a) (sfh_mnt_id b)); simpl;
      [|naive_solver]. rewrite Hm. destruct a, b; naive_solver.
  - destruct (cfh_try_from a) eqn:Hc.
    + split; [by eapply cfh_try_from_wf|]. unfold cfh_try_from in Hc. run; zify_bool; lia.
    + unfold cfh_try_from in Hc. run; zify_bool. split; [done|lia].
    + unfold cfh_try_from in Hc. run.
Qed.
