(* ===== verification/InodeStore.v ===== *)
(** * The inode store (src/passthrough/inode_store.rs)

    Every inode the guest or the daemon refers to is an entry of the store with a
    reference count.  Three maps are kept in step: FUSE ID to data, (ino, dev,
    mount) to FUSE ID, file handle to FUSE ID.  An entry's migration info may hold
    a strong reference to its parent directory, so dropping an entry can drop its
    parent, and so on.

    A [StrongInodeReference] is modelled by the FUSE ID it refers to; the
    operations below run under the store's lock, one at a time. *)

From S2P Require Import Prelude FileHandle.

Definition ROOT_ID : Z := 1.

(** FUSE inode IDs. *)
Notation Inode := Z.

Record InodeIds := { ino : Z; dev : Z; mnt_id : Z }.

#[export] Instance InodeIds_eq_dec : EqDecision InodeIds.
Proof. solve_decision. Defined.
#[export] Instance InodeIds_countable : Countable InodeIds.
Proof.
  apply (inj_countable' (fun i => (ino i, dev i, mnt_id i))
           (fun t => {| ino := t.1.1; dev := t.1.2; mnt_id := t.2 |})).
  by intros [].
Defined.

(** How a migration destination finds an inode
    (device_state/preserialization/mod.rs). *)
Inductive InodeLocation :=
| RootNode
| Path (parent : Inode) (filename : list Z)
| ByFileHandle (h : SerializableFileHandle).

Record InodeMigrationInfo := {
  location : InodeLocation;
  mig_file_handle : option SerializableFileHandle;
}.

Record InodeData := {
  inode : Inode;
  file_or_handle : FileOrHandle;
  refcount : Z;
  ids : InodeIds;
  mode : Z;
  migration_info : option InodeMigrationInfo;
}.

Record InodeStoreInner := {
  data : gmap Inode InodeData;
  by_ids : gmap InodeIds Inode;
  by_handle : gmap FileHandle Inode;
}.

Definition empty_store : InodeStoreInner := {| data := ∅; by_ids := ∅; by_handle := ∅ |}.

(** ** Fields *)

Definition set_data (f : gmap Inode InodeData -> gmap Inode InodeData) (st : InodeStoreInner)
  : InodeStoreInner :=
  {| data := f (data st); by_ids := by_ids st; by_handle := by_handle st |}.

Definition set_refcount (rc : Z) (d : InodeData) : InodeData :=
  {| inode := inode d; file_or_handle := file_or_handle d; refcount := rc;
     ids := ids d; mode := mode d; migration_info := migration_info d |}.

Definition set_migration_info (mi : option InodeMigrationInfo) (d : InodeData) : InodeData :=
  {| inode := inode d; file_or_handle := file_or_handle d; refcount := refcount d;
     ids := ids d; mode := mode d; migration_info := mi |}.

(** The handle an entry is filed under in [by_handle]. *)
Definition handle_of (d : InodeData) : option FileHandle :=
  match file_or_handle d with Handle h => Some (inner h) | _ => None end.

(** [InodeMigrationInfo::for_each_strong_reference]: only a path holds one, to
    the parent directory. *)
Definition strong_references (mi : InodeMigrationInfo) : list Inode :=
  match location mi with
  | RootNode => []
  | Path parent _ => [parent]
  | ByFileHandle _ => []
  end.

Definition data_references (d : InodeData) : list Inode :=
  match migration_info d with Some mi => strong_references mi | None => [] end.

(** ** Insertion and removal *)

Definition insert_new (st : InodeStoreInner) (d : InodeData) : io InodeStoreInner :=
  match data st !! inode d with
  | Some _ => Panic
  | None =>
      Ok {| data := <[inode d := d]> (data st);
            by_ids := <[ids d := inode d]> (by_ids st);
            by_handle := match handle_of d with
                         | Some h => <[h := inode d]> (by_handle st)
                         | None => by_handle st
                         end |}
  end.

(** The three maps without an entry; what [remove] does before it drops the
    references of the entry's migration info. *)
Definition remove_entry (st : InodeStoreInner) (i : Inode) (d : InodeData) : InodeStoreInner :=
  {| data := delete i (data st);
     by_ids := delete (ids d) (by_ids st);
     by_handle := match handle_of d with
                  | Some h => delete h (by_handle st)
                  | None => by_handle st
                  end |}.

(** [forget_one] and [remove] call each other through [drop_unlocked].  Each
    round removes an entry, so [size (data st)] rounds are enough: see
    [forget_one_eq]. *)
Fixpoint forget_fuel (fuel : nat) (st : InodeStoreInner) (i : Inode) (count : Z)
  : InodeStoreInner :=
  match data st !! i with
  | None => st
  | Some d =>
      let new_count := saturating_sub (refcount d) count in
      if new_count =? 0 then
        let st' := remove_entry st i d in
        match fuel with
        | O => st'
        | S f => fold_left (fun s p => forget_fuel f s p 1) (data_references d) st'
        end
      else set_data (<[i := set_refcount new_count d]>) st
  end.

Definition forget_one (st : InodeStoreInner) (i : Inode) (count : Z) : InodeStoreInner :=
  forget_fuel (size (data st)) st i count.

(** [StrongInodeReference::drop_unlocked] (and [Drop], which takes the lock
    first). *)
Definition drop_reference (st : InodeStoreInner) (i : Inode) : InodeStoreInner :=
  forget_one st i 1.

Definition drop_references (st : InodeStoreInner) (l : list Inode) : InodeStoreInner :=
  fold_left drop_reference l st.

Definition inode_remove (st : InodeStoreInner) (i : Inode) : InodeStoreInner :=
  match data st !! i with
  | None => st
  | Some d => drop_references (remove_entry st i d) (data_references d)
  end.

Definition forget_many (st : InodeStoreInner) (l : list (Inode * Z)) : InodeStoreInner :=
  fold_left (fun s '(i, count) => forget_one s i count) l st.

(** ** Migration info *)

(** The entries of [data] in key order, as a [BTreeMap] iterates over them. *)
Definition key_le (a b : Inode * InodeData) : Prop := a.1 <= b.1.

#[export] Instance key_le_dec : RelDecision key_le := fun a b => Z_le_dec a.1 b.1.
#[export] Instance key_le_trans : Transitive key_le.
Proof. intros [] [] []; unfold key_le; simpl; lia. Qed.
#[export] Instance key_le_total : Total key_le.
Proof. intros [] []; unfold key_le; simpl; lia. Qed.

Definition entries (m : gmap Inode InodeData) : list (Inode * InodeData) :=
  merge_sort key_le (map_to_list m).

(** The strong references [clear_migration_info] collects, in iteration order. *)
Definition collected_references (m : gmap Inode InodeData) : list Inode :=
  flat_map (fun '(_, d) => if inode d =? ROOT_ID then [] else data_references d) (entries m).

Definition without_migration_info (d : InodeData) : InodeData :=
  if inode d =? ROOT_ID then d else set_migration_info None d.

Definition clear_migration_info (st : InodeStoreInner) : InodeStoreInner :=
  drop_references (set_data (fmap without_migration_info) st) (collected_references (data st)).

Definition inode_clear (st : InodeStoreInner) : InodeStoreInner :=
  let st := clear_migration_info st in
  {| data := ∅ : gmap Inode InodeData; by_ids := ∅; by_handle := ∅ |}.

(** ** Lookup *)

Definition store_get (st : InodeStoreInner) (i : Inode) : option InodeData := data st !! i.

Definition inode_by_ids (st : InodeStoreInner) (k : InodeIds) : option Inode := by_ids st !! k.

Definition inode_by_handle (st : InodeStoreInner) (h : FileHandle) : option Inode :=
  by_handle st !! h.

(** [get_by_ids] and [get_by_handle] unwrap: an ID without an entry panics. *)
Definition get_by_ids (st : InodeStoreInner) (k : InodeIds) : io (option InodeData) :=
  match inode_by_ids st k with
  | None => Ok None
  | Some i => d ← unwrap (store_get st i); Ok (Some d)
  end.

Definition get_by_handle (st : InodeStoreInner) (h : FileHandle) : io (option InodeData) :=
  match inode_by_handle st h with
  | None => Ok None
  | Some i => d ← unwrap (store_get st i); Ok (Some d)
  end.

(** ** Strong references *)

(** [increment_refcount_for]: never from zero.  [rc + 1] is a plain [u64]
    addition. *)
Definition increment_refcount_for (checks : bool) (d : InodeData) : io InodeData :=
  rc' ← plain_add checks u64_max (refcount d) 1;
  if 0 <? refcount d then Ok (set_refcount rc' d) else Err (Custom NotFound).

(** [StrongInodeReference::new_with_data]. *)
Definition new_with_data (checks : bool) (st : InodeStoreInner) (d : InodeData)
  : io (InodeStoreInner * Inode) :=
  d' ← increment_refcount_for checks d;
  Ok (set_data (<[inode d := d']>) st, inode d).

Definition get_strong (checks : bool) (st : InodeStoreInner) (i : Inode)
  : io (InodeStoreInner * Inode) :=
  d ← ok_or (store_get st i) (Custom NotFound);
  new_with_data checks st d.

(** [StrongInodeReference::clone] unwraps the increment. *)
Definition clone_reference (checks : bool) (st : InodeStoreInner) (i : Inode)
  : io (InodeStoreInner * Inode) :=
  match get_strong checks st i with Err _ => Panic | r => r end.

Definition is_file (d : InodeData) : bool :=
  match file_or_handle d with File _ => true | _ => false end.

(** The entry [claim_inode] settles on: by handle, else by IDs provided the
    entry keeps a descriptor open. *)
Definition find_claimable (st : InodeStoreInner) (handle : option FileHandle) (k : InodeIds)
  : io (option InodeData) :=
  by_h ← match handle with Some h => get_by_handle st h | None => Ok None end;
  match by_h with
  | Some d => Ok (Some d)
  | None => d ← get_by_ids st k; Ok (match d with Some d => if is_file d then Some d else None
                                             | None => None end)
  end.

Definition claim_inode (checks : bool) (st : InodeStoreInner)
    (handle : option FileHandle) (k : InodeIds) : io (InodeStoreInner * Inode) :=
  found ← find_claimable st handle k;
  d ← ok_or found (Custom NotFound);
  new_with_data checks st d.

(** An error of [get_or_insert] and [new_inode] comes with the store after
    the rejected [inode_data] has been dropped. *)
Definition drop_inode_data (st : InodeStoreInner) (d : InodeData) : InodeStoreInner :=
  drop_references st (data_references d).

Definition get_or_insert (checks : bool) (st : InodeStoreInner) (d : InodeData)
  : InodeStoreInner * io Inode :=
  match claim_inode checks st (handle_of d) (ids d) with
  | Ok (st', i) => (drop_inode_data st' d, Ok i)
  | Panic => (st, Panic)
  | Err _ =>
      if decide (is_Some (data st !! inode d))
      then (drop_inode_data st d, Err (Custom Other))
      else match insert_new st (set_refcount 1 d) with
           | Ok st' => (st', Ok (inode d))
           | Err e => (st, Err e)
           | Panic => (st, Panic)
           end
  end.

Definition new_inode (st : InodeStoreInner) (d : InodeData) : InodeStoreInner * io unit :=
  if decide (is_Some (data st !! inode d))
  then (drop_inode_data st d, Err (Custom Other))
  else match insert_new st d with
       | Ok st' => (st', Ok tt)
       | Err e => (st, Err e)
       | Panic => (st, Panic)
       end.

(** ** Iteration *)

Definition lower_bound {E} (checks : bool) (last_inode : option Inode) : res E Z :=
  match last_inode with
  | None => Ok 0
  | Some last_id => plain_add checks u64_max last_id 1
  end.

(** [store.data.range(lower_bound..).next()] *)
Definition range_next (m : gmap Inode InodeData) (lb : Z) : option (Inode * InodeData) :=
  head (filter (fun e => lb <= e.1) (entries m)).

Definition iter_next (checks : bool) (st : InodeStoreInner) (last_inode : option Inode)
  : io (option (Inode * InodeData)) :=
  lb ← lower_bound checks last_inode;
  Ok (range_next (data st) lb).

(** A whole traversal of a store that does not change meanwhile. *)
Fixpoint iter_all (checks : bool) (fuel : nat) (st : InodeStoreInner) (last_inode : option Inode)
  : io (list Inode) :=
  match fuel with
  | O => Ok []
  | S f =>
      e ← iter_next checks st last_inode;
      match e with
      | None => Ok []
      | Some (i, _) => l ← iter_all checks f st (Some i); Ok (i :: l)
      end
  end.

(** ** Removal terminates within its fuel *)

Lemma fold_left_inv {A B} (P : A -> Prop) (f : A -> B -> A) l a :
  P a -> (forall a b, P a -> P (f a b)) -> P (fold_left f l a).
Proof. revert a; induction l; simpl; auto. Qed.

Lemma fold_left_ext_inv {A B} (P : A -> Prop) (f g : A -> B -> A) l a :
  P a -> (forall a b, P a -> P (f a b)) -> (forall a b, P a -> f a b = g a b) ->
  fold_left f l a = fold_left g l a.
Proof.
  intros Ha Hf He. revert a Ha. induction l as [|b l IH]; intros a Ha; simpl; [done|].
  rewrite <- He by done. auto.
Qed.

Lemma forget_fuel_size fuel st i c :
  (size (data (forget_fuel fuel st i c)) <= size (data st))%nat.
Proof.
  revert st i c; induction fuel as [|f IH]; intros st i c; simpl; destruct (data st !! i) as [d|] eqn:Hd; try lia.
  all: case_match; [|simpl; rewrite map_size_insert_Some by eauto; lia].
  - simpl. rewrite map_size_delete_Some by eauto. lia.
  - eapply (fold_left_inv (fun s => (size (data s) <= size (data st))%nat)).
    + simpl. rewrite map_size_delete_Some by eauto. lia.
    + intros s p Hs. etrans; [apply IH|done].
Qed.

Lemma remove_entry_size st i d :
  data st !! i = Some d -> size (data (remove_entry st i d)) = pred (size (data st)).
Proof. intros. simpl. by rewrite map_size_delete_Some by eauto. Qed.

Lemma size_pos_lookup (m : gmap Inode InodeData) i d : m !! i = Some d -> (0 < size m)%nat.
Proof.
  intros H. destruct (size m) eqn:Hs; [|lia].
  apply map_size_empty_iff in Hs. subst. by rewrite lookup_empty in H.
Qed.

Lemma forget_fuel_enough n f st i c :
  (size (data st) <= n)%nat -> (size (data st) <= f)%nat ->
  forget_fuel f st i c = forget_fuel n st i c.
Proof.
  revert f st i c; induction n as [|n IH]; intros f st i c Hn Hf.
  - destruct f; simpl; destruct (data st !! i) eqn:Hd; try done;
      apply size_pos_lookup in Hd; lia.
  - destruct (data st !! i) as [d|] eqn:Hd; [|by destruct f; simpl; rewrite Hd].
    pose proof (size_pos_lookup _ _ _ Hd). destruct f as [|f]; [lia|]. simpl. rewrite Hd.
    case_match; [|done].
    apply (fold_left_ext_inv (fun s => (size (data s) <= pred (size (data st)))%nat)).
    + by rewrite remove_entry_size.
    + intros s p Hs. etrans; [apply forget_fuel_size|done].
    + intros s p Hs. apply IH; lia.
Qed.

(** The recursive equations of the source, free of fuel. *)
Lemma forget_one_eq st i c :
  forget_one st i c =
  match data st !! i with
  | None => st
  | Some d =>
      let new_count := saturating_sub (refcount d) c in
      if new_count =? 0 then inode_remove st i
      else set_data (<[i := set_refcount new_count d]>) st
  end.
Proof.
  unfold forget_one, inode_remove. destruct (data st !! i) as [d|] eqn:Hd; last first.
  { by destruct (size _); simpl; rewrite Hd. }
  pose proof (size_pos_lookup _ _ _ Hd) as Hp.
  destruct (size (data st)) as [|n] eqn:Hs; [lia|]. simpl. rewrite Hd.
  case_match; [|done]. unfold drop_references.
  apply (fold_left_ext_inv (fun s => (size (data s) <= n)%nat)).
  - rewrite remove_entry_size, Hs by done. done.
  - intros s p Hsz. etrans; [apply forget_fuel_size|done].
  - intros s p Hsz. unfold drop_reference, forget_one. apply forget_fuel_enough; lia.
Qed.

Lemma forget_one_size st i c : (size (data (forget_one st i c)) <= size (data st))%nat.
Proof. apply forget_fuel_size. Qed.

(** Induction along the chain of removals: a property of the store that the two
    elementary updates keep is kept by [forget_one]. *)
Lemma forget_one_ind (P : InodeStoreInner -> Prop) :
  (forall st i d, P st -> data st !! i = Some d -> P (remove_entry st i d)) ->
  (forall st i d rc, P st -> data st !! i = Some d -> P (set_data (<[i := set_refcount rc d]>) st)) ->
  forall st i c, P st -> P (forget_one st i c).
Proof.
  intros Hrem Hset st i c. unfold forget_one. generalize (size (data st)) as f.
  intros f; revert st i c; induction f as [|f IH]; intros st i c HP; simpl;
    (destruct (data st !! i) as [d|] eqn:Hd; [|done]); case_match; auto.
  apply fold_left_inv; auto.
Qed.

Lemma drop_references_ind (P : InodeStoreInner -> Prop) :
  (forall st i d, P st -> data st !! i = Some d -> P (remove_entry st i d)) ->
  (forall st i d rc, P st -> data st !! i = Some d -> P (set_data (<[i := set_refcount rc d]>) st)) ->
  forall l st, P st -> P (drop_references st l).
Proof.
  intros Hrem Hset l st HP. apply (fold_left_inv P); [done|].
  intros s p. by apply forget_one_ind.
Qed.

(** ** The maps stay in step *)

Definition store_wf (st : InodeStoreInner) : Prop :=
  (forall i d, data st !! i = Some d -> inode d = i) /\
  (forall k i, by_ids st !! k = Some i -> exists d, data st !! i = Some d /\ ids d = k) /\
  (forall h i, by_handle st !! h = Some i -> exists d, data st !! i = Some d /\ handle_of d = Some h).

(** Two data agree on everything the maps are keyed by. *)
Definition same_keys (d d' : InodeData) : Prop :=
  inode d' = inode d /\ ids d' = ids d /\ handle_of d' = handle_of d.

Lemma set_refcount_same_keys d rc : same_keys d (set_refcount rc d).
Proof. done. Qed.

Lemma store_wf_empty : store_wf empty_store.
Proof. split_and!; intros ??; simpl; rewrite lookup_empty; done. Qed.

Lemma store_wf_update st i d d' :
  store_wf st -> data st !! i = Some d -> same_keys d d' ->
  store_wf (set_data (<[i := d']>) st).
Proof.
  intros (Hd & Hk & Hh) Hi (Hs1 & Hs2 & Hs3). split_and!; simpl.
  - intros j e. rewrite lookup_insert. case_decide; [|by eauto].
    intros; simplify_eq. rewrite Hs1. eauto.
  - intros k j Hj. destruct (Hk k j Hj) as (e & He & Hke).
    rewrite lookup_insert. case_decide; [|by eauto]. simplify_eq. eauto.
  - intros k j Hj. destruct (Hh k j Hj) as (e & He & Hke).
    rewrite lookup_insert. case_decide; [|by eauto]. simplify_eq. eexists; split; [done|congruence].
Qed.

Lemma store_wf_remove_entry st i d :
  store_wf st -> data st !! i = Some d -> store_wf (remove_entry st i d).
Proof.
  intros (Hd & Hk & Hh) Hi. split_and!; simpl.
  - intros j e [_ He]%lookup_delete_Some. eauto.
  - intros k j [Hne Hj]%lookup_delete_Some. destruct (Hk k j Hj) as (e & He & Hke).
    exists e. rewrite lookup_delete_ne; [done|]. intros ->. congruence.
  - intros h j Hj. assert (by_handle st !! h = Some j /\ handle_of d <> Some h) as [Hj' Hne].
    { destruct (handle_of d) as [h'|] eqn:Hhd; [|done].
      apply lookup_delete_Some in Hj as [? ?]. split; [done|congruence]. }
    destruct (Hh h j Hj') as (e & He & Hke).
    exists e. rewrite lookup_delete_ne; [done|]. intros ->. congruence.
Qed.

Lemma store_wf_forget_one st i c : store_wf st -> store_wf (forget_one st i c).
Proof.
  apply forget_one_ind; [apply store_wf_remove_entry|].
  intros; eapply store_wf_update; eauto using set_refcount_same_keys.
Qed.

Lemma store_wf_drop_references l st : store_wf st -> store_wf (drop_references st l).
Proof. intros H. apply (fold_left_inv store_wf); [done|]. intros; by apply store_wf_forget_one. Qed.

Lemma store_wf_insert_new st d st' :
  store_wf st -> insert_new st d = Ok st' -> store_wf st'.
Proof.
  intros (Hd & Hk & Hh) Hins. unfold insert_new in Hins.
  destruct (data st !! inode d) eqn:Hi; simplify_eq/=. split_and!; simpl.
  - intros j e. rewrite lookup_insert. case_decide; [by intros; simplify_eq|eauto].
  - intros k j. rewrite (lookup_insert (by_ids st)). case_decide.
    + intros; simplify_eq. rewrite lookup_insert_eq. eauto.
    + intros Hj. destruct (Hk k j Hj) as (e & He & Hke). exists e.
      rewrite lookup_insert_ne; [done|congruence].
  - intros h j Hj.
    assert (by_handle st !! h = Some j \/ (handle_of d = Some h /\ j = inode d)) as [Hj'|[Hh' ->]].
    { destruct (handle_of d) as [h'|]; [|by left].
      apply lookup_insert_Some in Hj. naive_solver. }
    + destruct (Hh h j Hj') as (e & He & Hke). exists e.
      rewrite lookup_insert_ne; [done|congruence].
    + rewrite lookup_insert_eq. eauto.
Qed.

(** ** Lookup never panics on a well-formed store *)

(** What an entry found by [claim_inode] is. *)
Definition claimable (st : InodeStoreInner) (handle : option FileHandle) (k : InodeIds)
    (d : InodeData) : Prop :=
  data st !! inode d = Some d /\
  ((exists h, handle = Some h /\ handle_of d = Some h) \/ (ids d = k /\ is_file d = true)).

Lemma get_by_ids_wf st k :
  store_wf st ->
  exists o, get_by_ids st k = Ok o /\
    (forall d, o = Some d -> data st !! inode d = Some d /\ ids d = k) /\
    (o = None <-> by_ids st !! k = None).
Proof.
  intros (Hd & Hk & _). unfold get_by_ids, inode_by_ids, store_get.
  destruct (by_ids st !! k) as [i|] eqn:Hi; [|eexists; split; [done|]; naive_solver].
  destruct (Hk k i Hi) as (d & Hdi & <-). rewrite Hdi; simpl. eexists; split; [done|].
  split; [|naive_solver]. intros e [= <-]. by rewrite (Hd _ _ Hdi).
Qed.

Lemma get_by_handle_wf st h :
  store_wf st ->
  exists o, get_by_handle st h = Ok o /\
    (forall d, o = Some d -> data st !! inode d = Some d /\ handle_of d = Some h) /\
    (o = None <-> by_handle st !! h = None).
Proof.
  intros (Hd & _ & Hh). unfold get_by_handle, inode_by_handle, store_get.
  destruct (by_handle st !! h) as [i|] eqn:Hi; [|eexists; split; [done|]; naive_solver].
  destruct (Hh h i Hi) as (d & Hdi & Hhd). rewrite Hdi; simpl. eexists; split; [done|].
  split; [|naive_solver]. intros e [= <-]. by rewrite (Hd _ _ Hdi).
Qed.

Lemma find_claimable_wf st handle k :
  store_wf st ->
  exists o, find_claimable st handle k = Ok o /\ (forall d, o = Some d -> claimable st handle k d).
Proof.
  intros Hwf. unfold find_claimable.
  destruct (get_by_ids_wf st k Hwf) as (oi & Hoi & Hi & _).
  destruct handle as [h|]; simpl.
  - destruct (get_by_handle_wf st h Hwf) as (oh & Hoh & Hh & _). rewrite Hoh; simpl.
    destruct oh as [d|].
    + eexists; split; [done|]. intros e [= <-]. destruct (Hh d eq_refl).
      split; [done|]. left; eauto.
    + rewrite Hoi; simpl. eexists; split; [done|]. intros e He.
      destruct oi as [d|]; [|done]. case_match; simplify_eq. destruct (Hi _ eq_refl).
      split; [done|]. right; done.
  - rewrite Hoi; simpl. eexists; split; [done|]. intros e He.
    destruct oi as [d|]; [|done]. case_match; simplify_eq. destruct (Hi _ eq_refl).
    split; [done|]. right; done.
Qed.

Lemma new_with_data_inv checks st d r :
  new_with_data checks st d = Ok r ->
  0 < refcount d /\ r.2 = inode d /\
  exists rc', r.1 = set_data (<[inode d := set_refcount rc' d]>) st /\
    plain_add (E := io_error) checks u64_max (refcount d) 1 = Ok rc'.
Proof.
  unfold new_with_data, increment_refcount_for. intros H. res_inv.
  case_match; simplify_eq/=; zify_bool. eauto 10.
Qed.

Lemma claim_inode_inv checks st handle k st' i :
  store_wf st -> claim_inode checks st handle k = Ok (st', i) ->
  exists d, claimable st handle k d /\ inode d = i /\ 0 < refcount d /\
    exists rc', st' = set_data (<[i := set_refcount rc' d]>) st /\
      plain_add (E := io_error) checks u64_max (refcount d) 1 = Ok rc'.
Proof.
  intros Hwf. unfold claim_inode.
  destruct (find_claimable_wf st handle k Hwf) as (o & -> & Ho). simpl. intros H.
  destruct o as [d|]; simpl in H; [|done].
  apply new_with_data_inv in H as (Hrc & Hi & rc' & Hst & Hadd). simpl in *; subst.
  eauto 10.
Qed.

Lemma store_wf_claim checks st handle k st' i :
  store_wf st -> claim_inode checks st handle k = Ok (st', i) -> store_wf st'.
Proof.
  intros Hwf H. apply claim_inode_inv in H as (d & [Hd _] & <- & _ & rc' & -> & _); [|done].
  eapply store_wf_update; eauto using set_refcount_same_keys.
Qed.

Lemma store_wf_get_strong checks st i st' j :
  store_wf st -> get_strong checks st i = Ok (st', j) -> store_wf st'.
Proof.
  intros Hwf H. unfold get_strong, store_get in H. res_inv.
  match goal with H : new_with_data _ _ _ = _ |- _ => apply new_with_data_inv in H as (_ & _ & rc' & Hst & _) end.
  simpl in Hst; subst. match goal with H : data st !! _ = Some _ |- _ =>
    rewrite (proj1 Hwf _ _ H); eapply store_wf_update; eauto using set_refcount_same_keys end.
Qed.

Lemma store_wf_get_or_insert checks st d :
  store_wf st -> store_wf (get_or_insert checks st d).1.
Proof.
  intros Hwf. unfold get_or_insert. destruct (claim_inode _ _ _ _) as [[st' i]|e|] eqn:Hc; [| |done].
  - apply store_wf_drop_references. by eapply store_wf_claim.
  - case_decide; [by apply store_wf_drop_references|].
    destruct (insert_new _ _) eqn:Hn; [|done|done]. by eapply store_wf_insert_new.
Qed.

Lemma store_wf_new_inode st d : store_wf st -> store_wf (new_inode st d).1.
Proof.
  intros Hwf. unfold new_inode. case_decide; [by apply store_wf_drop_references|].
  destruct (insert_new _ _) eqn:Hn; [|done|done]. by eapply store_wf_insert_new.
Qed.

Lemma store_wf_fmap st f :
  store_wf st -> (forall d, same_keys d (f d)) -> store_wf (set_data (fmap f) st).
Proof.
  intros (Hd & Hk & Hh) Hf. split_and!; simpl.
  - intros i e. rewrite lookup_fmap_Some. intros (d & <- & Hi).
    destruct (Hf d) as [-> _]. eauto.
  - intros k i Hi. destruct (Hk k i Hi) as (d & He & Hkd). exists (f d).
    rewrite lookup_fmap, He. destruct (Hf d) as (_ & -> & _). done.
  - intros h i Hi. destruct (Hh h i Hi) as (d & He & Hkd). exists (f d).
    rewrite lookup_fmap, He. destruct (Hf d) as (_ & _ & ->). done.
Qed.

Lemma store_wf_clear_migration_info st : store_wf st -> store_wf (clear_migration_info st).
Proof.
  intros Hwf. apply store_wf_drop_references, store_wf_fmap; [done|].
  intros d. unfold without_migration_info. by case_match.
Qed.

(** ** Reference accounting

    [held i] counts the references to [i] outside the store: those leaked to the
    guest by a lookup and the live [StrongInodeReference]s of the daemon.  The
    migration infos inside the store hold the rest. *)

(** Assigning an entry's migration info takes over the references of the new
    value and drops those of the old one. *)
Definition assign_migration_info (st : InodeStoreInner) (i : Inode)
    (mi : option InodeMigrationInfo) : InodeStoreInner :=
  match data st !! i with
  | None => st
  | Some d => drop_references (set_data (<[i := set_migration_info mi d]>) st) (data_references d)
  end.

Definition occ (l : list Inode) (p : Inode) : Z := Z.of_nat (count_occ Z.eq_dec l p).

Definition references (m : gmap Inode InodeData) : list Inode :=
  flat_map (fun e => data_references e.2) (map_to_list m).

Definition parents (m : gmap Inode InodeData) (p : Inode) : Z := occ (references m) p.

Definition rc_inv (st : InodeStoreInner) (held : Inode -> Z) : Prop :=
  forall i, 0 <= held i /\
  match data st !! i with
  | Some d => 0 < refcount d /\ refcount d = held i + parents (data st) i
  | None => held i = 0 /\ parents (data st) i = 0
  end.

Lemma occ_app l k p : occ (l ++ k) p = occ l p + occ k p.
Proof. unfold occ. rewrite count_occ_app. lia. Qed.

Lemma occ_cons a l p : occ (a :: l) p = (if decide (a = p) then 1 else 0) + occ l p.
Proof. unfold occ. simpl. case_decide; destruct (Z.eq_dec a p); lia || done. Qed.

Lemma occ_nil p : occ [] p = 0.
Proof. done. Qed.

Lemma occ_nonneg l p : 0 <= occ l p.
Proof. unfold occ. lia. Qed.

Lemma occ_perm l k p : l ≡ₚ k -> occ l p = occ k p.
Proof. intros H. unfold occ. f_equal. by apply (Permutation_count_occ Z.eq_dec). Qed.

#[local] Instance flat_map_proper {A B} (f : A -> list B) :
  Proper ((≡ₚ) ==> (≡ₚ)) (flat_map f).
Proof. intros l k H. by apply Permutation_flat_map. Qed.

Lemma parents_insert m i d p :
  m !! i = None -> parents (<[i := d]> m) p = occ (data_references d) p + parents m p.
Proof.
  intros Hi. unfold parents, references. rewrite <- occ_app. apply occ_perm.
  by rewrite map_to_list_insert.
Qed.

Lemma parents_delete m i d p :
  m !! i = Some d -> parents m p = occ (data_references d) p + parents (delete i m) p.
Proof.
  intros Hi. rewrite <- (parents_insert (delete i m) i) by apply lookup_delete_eq.
  by rewrite insert_delete_id.
Qed.

Lemma parents_update m i d d' p :
  m !! i = Some d ->
  parents (<[i := d']> m) p = parents m p - occ (data_references d) p + occ (data_references d') p.
Proof.
  intros Hi. rewrite (parents_delete m i d p Hi).
  rewrite <- insert_delete_eq, (parents_insert (delete i m)) by apply lookup_delete_eq. lia.
Qed.

Lemma parents_nonneg m p : 0 <= parents m p.
Proof. apply occ_nonneg. Qed.

Lemma rc_inv_ext st held held' :
  (forall i, held i = held' i) -> rc_inv st held -> rc_inv st held'.
Proof. intros He H i. rewrite <- He. apply H. Qed.

Lemma rc_inv_empty : rc_inv empty_store (fun _ => 0).
Proof. intros i. simpl. by rewrite lookup_empty. Qed.

(** References that appear in the store are references somebody held. *)
Lemma rc_inv_present st held i :
  rc_inv st held -> 0 < held i -> is_Some (data st !! i).
Proof. intros H Hi. specialize (H i) as [_ H]. destruct (data st !! i); [eauto|lia]. Qed.

(** One entry's count changed by somebody taking or giving back references. *)
Lemma rc_inv_set_refcount st held i d rc :
  rc_inv st held -> data st !! i = Some d -> 0 < rc -> 0 <= held i + (rc - refcount d) ->
  rc_inv (set_data (<[i := set_refcount rc d]>) st)
    (fun j => if decide (j = i) then held j + (rc - refcount d) else held j).
Proof.
  intros Hinv Hd Hrc Hh j. pose proof (Hinv j) as [Hj Hmj]. simpl.
  rewrite (parents_update _ _ _ _ _ Hd).
  change (data_references (set_refcount _ d)) with (data_references d).
  destruct (decide (j = i)) as [->|Hne]; [rewrite lookup_insert_eq, Hd in *; simpl; lia|].
  rewrite lookup_insert_ne by done. destruct (data st !! j); lia.
Qed.

(** Removing an entry nobody refers to sets the references it held loose. *)
Lemma rc_inv_remove_entry st held i d :
  rc_inv st held -> data st !! i = Some d -> parents (data st) i = 0 ->
  rc_inv (remove_entry st i d)
    (fun j => (if decide (j = i) then 0 else held j) + occ (data_references d) j).
Proof.
  intros Hinv Hd Hpar j. pose proof (Hinv j) as [Hj Hmj].
  pose proof (occ_nonneg (data_references d) j). simpl.
  pose proof (parents_delete _ _ _ j Hd). pose proof (parents_nonneg (delete i (data st)) j).
  destruct (decide (j = i)) as [->|Hne]; [rewrite lookup_delete_eq; lia|].
  rewrite lookup_delete_ne by done. destruct (data st !! j); lia.
Qed.

Lemma rc_inv_forget_one st held i c :
  rc_inv st held -> 0 <= c <= held i ->
  rc_inv (forget_one st i c) (fun j => if decide (j = i) then held j - c else held j).
Proof.
  remember (size (data st)) as n eqn:Hn. revert st held i c Hn.
  induction n as [n IH] using lt_wf_ind; intros st held i c Hn Hinv Hc.
  pose proof (Hinv i) as [_ Hi]. rewrite forget_one_eq.
  destruct (data st !! i) as [d|] eqn:Hd; last first.
  { eapply rc_inv_ext, Hinv. intros j; case_decide; subst; lia. }
  destruct Hi as [Hpos Hrc]. pose proof (parents_nonneg (data st) i).
  cbn zeta. rewrite saturating_sub_max, Z.max_r by lia. case_match eqn:Hz; zify_bool; last first.
  { eapply rc_inv_ext; [|apply (rc_inv_set_refcount _ held _ _ _ Hinv Hd); lia].
    intros j; simpl; case_decide; subst; lia. }
  assert (Hrem := rc_inv_remove_entry _ _ _ _ Hinv Hd ltac:(lia)).
  unfold inode_remove. rewrite Hd. pose proof (remove_entry_size _ _ _ Hd) as Hsz.
  pose proof (size_pos_lookup _ _ _ Hd). unfold data_references, strong_references in *.
  destruct (migration_info d) as [[[| p fn |] ?]|]; simpl in Hrem |- *;
    try (eapply rc_inv_ext, Hrem; intros j; cbn beta; rewrite occ_nil; case_decide; subst; lia).
  apply (IH (pred n)) with (i := p) (c := 1) in Hrem; [|lia|lia|].
  - eapply rc_inv_ext, Hrem. intros j. cbn beta. rewrite occ_cons, occ_nil.
    repeat case_decide; subst; try congruence; lia.
  - cbn beta. rewrite occ_cons, occ_nil. rewrite (decide_True (P := p = p)) by done.
    specialize (Hinv p) as [? _]. case_decide; lia.
Qed.

Lemma rc_inv_drop_references l st held :
  rc_inv st held -> (forall p, occ l p <= held p) ->
  rc_inv (drop_references st l) (fun p => held p - occ l p).
Proof.
  revert st held; induction l as [|a l IH]; intros st held Hinv Hl; simpl.
  - eapply rc_inv_ext, Hinv. intros p. rewrite occ_nil. lia.
  - assert (Hocc := fun p => occ_nonneg l p).
    assert (Ha := Hl a). rewrite occ_cons, decide_True in Ha by done.
    eapply rc_inv_ext; [|apply (IH _ (fun j => if decide (j = a) then held j - 1 else held j))].
    + intros p. cbn beta. rewrite occ_cons. repeat case_decide; subst; try congruence; lia.
    + apply rc_inv_forget_one; [done|]. specialize (Hocc a). lia.
    + intros p. specialize (Hl p). rewrite occ_cons in Hl.
      repeat case_decide; subst; try congruence; lia.
Qed.

(** Taking a strong reference. *)
Definition add_reference (held : Inode -> Z) (i : Inode) : Inode -> Z :=
  fun j => if decide (j = i) then held j + 1 else held j.

Lemma rc_inv_new_with_data checks st held d st' i :
  rc_inv st held -> data st !! inode d = Some d -> checks = true \/ refcount d < u64_max ->
  new_with_data checks st d = Ok (st', i) -> rc_inv st' (add_reference held i).
Proof.
  intros Hinv Hd Hmax H. apply new_with_data_inv in H as (Hpos & Hi & rc' & Hst & Hadd).
  simpl in *; subst. apply plain_add_exact in Hadd as ->; [|by destruct Hmax; [left|right; lia]].
  pose proof (Hinv (inode d)) as [? _].
  eapply rc_inv_ext; [|apply (rc_inv_set_refcount _ held _ _ _ Hinv Hd); lia].
  intros j. unfold add_reference. case_decide; lia.
Qed.

Lemma rc_inv_insert_new st held d st' :
  rc_inv st held -> 0 < refcount d -> occ (data_references d) (inode d) = 0 ->
  (forall p, occ (data_references d) p <= held p) -> insert_new st d = Ok st' ->
  rc_inv st' (fun j => (if decide (j = inode d) then refcount d else held j)
                       - occ (data_references d) j).
Proof.
  intros Hinv Hrc Hself Hrefs Hins. unfold insert_new in Hins.
  destruct (data st !! inode d) eqn:Hd; simplify_eq/=. intros j.
  pose proof (Hinv j) as [Hj Hmj]. specialize (Hrefs j).
  pose proof (occ_nonneg (data_references d) j). simpl. rewrite parents_insert by done.
  destruct (decide (j = inode d)) as [->|Hne].
  - rewrite lookup_insert_eq. rewrite Hd in Hmj. lia.
  - rewrite lookup_insert_ne by done. destruct (data st !! j); lia.
Qed.

(** No entry is about to overflow its 64-bit count, or an overflow is caught. *)
Definition counts_small (st : InodeStoreInner) : Prop :=
  forall i d, data st !! i = Some d -> refcount d < u64_max.

Definition counts_ok (checks : bool) (st : InodeStoreInner) : Prop :=
  checks = true \/ counts_small st.

Lemma counts_ok_at checks st i d :
  counts_ok checks st -> data st !! i = Some d -> checks = true \/ refcount d < u64_max.
Proof. intros [?|Hs] Hd; [by left|right; eauto]. Qed.

(** References handed over with an [InodeData] or a migration info. *)
Definition hand_back (held : Inode -> Z) (l : list Inode) : Inode -> Z :=
  fun j => held j - occ l j.

Lemma rc_inv_claim checks st held handle k st' i :
  store_wf st -> counts_ok checks st -> rc_inv st held ->
  claim_inode checks st handle k = Ok (st', i) -> rc_inv st' (add_reference held i).
Proof.
  intros Hwf Hsmall Hinv. unfold claim_inode.
  destruct (find_claimable_wf st handle k Hwf) as (o & -> & Ho). simpl. intros H.
  destruct o as [d|]; simpl in H; [|done]. destruct (Ho d eq_refl) as [Hd _].
  apply (rc_inv_new_with_data checks st held d); eauto. by eapply counts_ok_at.
Qed.

Lemma rc_inv_get_strong checks st held i st' j :
  store_wf st -> counts_ok checks st -> rc_inv st held ->
  get_strong checks st i = Ok (st', j) -> j = i /\ rc_inv st' (add_reference held i).
Proof.
  intros Hwf Hsmall Hinv H. unfold get_strong, store_get in H.
  destruct (data st !! i) as [d|] eqn:Hd; simpl in H; [|done].
  pose proof (proj1 Hwf _ _ Hd) as Hi. subst i.
  assert (j = inode d) as -> by (apply new_with_data_inv in H as (_ & ? & _); done).
  split; [done|]. apply (rc_inv_new_with_data checks st held d); eauto. by eapply counts_ok_at.
Qed.

Lemma rc_inv_drop_given st held l :
  rc_inv st held -> (forall p, occ l p <= held p) ->
  rc_inv (drop_references st l) (hand_back held l).
Proof. apply rc_inv_drop_references. Qed.

Lemma rc_inv_get_or_insert checks st held d :
  store_wf st -> counts_ok checks st -> rc_inv st held ->
  (forall p, occ (data_references d) p <= held p) ->
  match get_or_insert checks st d with
  | (st', Ok i) => rc_inv st' (add_reference (hand_back held (data_references d)) i)
  | (st', Err _) => rc_inv st' (hand_back held (data_references d))
  | (st', Panic) => True
  end.
Proof.
  intros Hwf Hsmall Hinv Hrefs. unfold get_or_insert.
  destruct (claim_inode _ _ _ _) as [[st' i]|e|] eqn:Hc; [| |done].
  - assert (H1 := rc_inv_claim _ _ _ _ _ _ _ Hwf Hsmall Hinv Hc).
    eapply rc_inv_ext; [|apply (rc_inv_drop_given _ _ (data_references d) H1)].
    + intros j. unfold hand_back, add_reference. case_decide; lia.
    + intros p. specialize (Hrefs p). unfold add_reference. case_decide; lia.
  - case_decide as Hin; [by apply rc_inv_drop_given|].
    destruct (insert_new _ _) as [st'|e'|] eqn:Hn; [| |done].
    2: { unfold insert_new in Hn. by case_match. }
    assert (Hself : held (inode d) = 0).
    { pose proof (Hinv (inode d)) as [_ Hi]. apply eq_None_not_Some in Hin.
      rewrite Hin in Hi. lia. }
    pose proof (Hrefs (inode d)). pose proof (occ_nonneg (data_references d) (inode d)).
    eapply rc_inv_ext; [|apply (rc_inv_insert_new _ _ _ _ Hinv) in Hn; [exact Hn|simpl; done| |done]].
    + intros j. unfold hand_back, add_reference. simpl.
      change (data_references (set_refcount 1 d)) with (data_references d).
      case_decide; subst; lia.
    + change (data_references (set_refcount 1 d)) with (data_references d). simpl. lia.
Qed.

Lemma rc_inv_new_inode st held d st' :
  rc_inv st held -> 0 < refcount d -> data_references d = [] ->
  new_inode st d = (st', Ok tt) ->
  rc_inv st' (fun j => if decide (j = inode d) then held j + refcount d else held j).
Proof.
  intros Hinv Hrc Hrefs. unfold new_inode. case_decide as Hin; [done|].
  apply eq_None_not_Some in Hin. pose proof (Hinv (inode d)) as [_ Hi]. rewrite Hin in Hi.
  intros H. destruct (insert_new st d) as [s| |] eqn:Hn; simplify_eq.
  eapply rc_inv_ext; [|apply (rc_inv_insert_new _ held) in Hn; [exact Hn|..]]; rewrite ?Hrefs; try done.
  - intros j. cbn beta. rewrite occ_nil. case_decide; subst; lia.
  - intros p. rewrite occ_nil. apply Hinv.
Qed.

(** A migration info is replaced: whoever replaces it gets the references of the old
    one for those of the new one. *)
Definition info_references (mi : option InodeMigrationInfo) : list Inode :=
  match mi with Some m => strong_references m | None => [] end.

Lemma rc_inv_swap st held i d mi :
  rc_inv st held -> data st !! i = Some d -> (forall p, occ (info_references mi) p <= held p) ->
  rc_inv (set_data (<[i := set_migration_info mi d]>) st)
    (fun j => held j - occ (info_references mi) j + occ (data_references d) j).
Proof.
  intros Hinv Hd Hl j. pose proof (Hinv j) as [Hj Hmj]. specialize (Hl j).
  pose proof (occ_nonneg (data_references d) j). simpl.
  rewrite (parents_update _ _ _ _ _ Hd).
  change (data_references (set_migration_info mi d)) with (info_references mi).
  pose proof (parents_nonneg (delete i (data st)) j). pose proof (parents_delete _ _ _ j Hd).
  destruct (decide (j = i)) as [->|Hne].
  - rewrite lookup_insert_eq, Hd in *. simpl. lia.
  - rewrite lookup_insert_ne by done. pose proof (occ_nonneg (info_references mi) j).
    destruct (data st !! j); lia.
Qed.

Lemma rc_inv_assign st held i d mi :
  rc_inv st held -> data st !! i = Some d -> (forall p, occ (info_references mi) p <= held p) ->
  rc_inv (assign_migration_info st i mi) (hand_back held (info_references mi)).
Proof.
  intros Hinv Hd Hl. unfold assign_migration_info. rewrite Hd.
  eapply rc_inv_ext;
    [|apply (rc_inv_drop_given _ _ (data_references d) (rc_inv_swap _ _ _ _ _ Hinv Hd Hl))].
  - intros j. unfold hand_back. lia.
  - intros p. specialize (Hl p). lia.
Qed.

Lemma occ_flat_map_split {A} (f g h : A -> list Inode) l p :
  (forall x, x ∈ l -> occ (f x) p + occ (g x) p = occ (h x) p) ->
  occ (flat_map f l) p + occ (flat_map g l) p = occ (flat_map h l) p.
Proof.
  induction l as [|x l IH]; intros H; simpl; [done|]. rewrite !occ_app.
  rewrite <- (H x), <- IH by set_solver. lia.
Qed.

Lemma flat_map_map {A B C} (f : A -> B) (g : B -> list C) l :
  flat_map g (f <$> l) = flat_map (fun x => g (f x)) l.
Proof. induction l; csimpl; congruence. Qed.

(** Every reference in the store is either kept (the root's) or collected. *)
Lemma parents_clear m p :
  parents (without_migration_info <$> m) p + occ (collected_references m) p = parents m p.
Proof.
  unfold parents, references, collected_references, entries.
  rewrite (occ_perm (flat_map _ (merge_sort _ _)) _ p
             (flat_map_proper _ _ _ (merge_sort_Permutation key_le (map_to_list m)))).
  rewrite map_to_list_fmap, flat_map_map. apply occ_flat_map_split. intros [i d] _. simpl.
  unfold without_migration_info. case_match; [rewrite occ_nil; lia|].
  change (data_references (set_migration_info None d)) with (@nil Inode). rewrite occ_nil. lia.
Qed.

Lemma rc_inv_clear_migration_info st held :
  rc_inv st held -> rc_inv (clear_migration_info st) held.
Proof.
  intros Hinv. set (l := collected_references (data st)).
  assert (Hs : rc_inv (set_data (fmap without_migration_info) st) (fun j => held j + occ l j)).
  { intros j. pose proof (Hinv j) as [Hj Hmj]. pose proof (occ_nonneg l j).
    pose proof (parents_clear (data st) j) as Hp. fold l in Hp.
    pose proof (parents_nonneg (without_migration_info <$> data st) j). simpl.
    rewrite lookup_fmap. destruct (data st !! j) as [d|]; simpl; [|lia].
    replace (refcount (without_migration_info d)) with (refcount d); [lia|].
    unfold without_migration_info. by case_match. }
  eapply rc_inv_ext; [|apply (rc_inv_drop_references l _ _ Hs)].
  - intros j. cbn beta. lia.
  - intros p. cbn beta. specialize (Hinv p) as [? _]. lia.
Qed.

(** ** The store as a transition system

    A configuration is the store together with the references held outside of
    it.  Clients are well behaved: nobody gives back a reference they do not hold. *)

Definition conf : Type := InodeStoreInner * (Inode -> Z).

Inductive store_step (checks : bool) : conf -> conf -> Prop :=
| step_claim st held handle k st' i :
    counts_ok checks st -> claim_inode checks st handle k = Ok (st', i) ->
    store_step checks (st, held) (st', add_reference held i)
| step_get_strong st held i st' j :
    counts_ok checks st -> get_strong checks st i = Ok (st', j) ->
    store_step checks (st, held) (st', add_reference held i)
| step_insert st held d st' i :
    counts_ok checks st -> (forall p, occ (data_references d) p <= held p) ->
    get_or_insert checks st d = (st', Ok i) ->
    store_step checks (st, held) (st', add_reference (hand_back held (data_references d)) i)
| step_insert_fails st held d st' e :
    counts_ok checks st -> (forall p, occ (data_references d) p <= held p) ->
    get_or_insert checks st d = (st', Err e) ->
    store_step checks (st, held) (st', hand_back held (data_references d))
| step_new_inode st held d st' :
    0 < refcount d -> data_references d = [] -> new_inode st d = (st', Ok tt) ->
    store_step checks (st, held)
      (st', fun j => if decide (j = inode d) then held j + refcount d else held j)
| step_forget st held i c :
    0 <= c <= held i ->
    store_step checks (st, held)
      (forget_one st i c, fun j => if decide (j = i) then held j - c else held j)
| step_assign st held i mi :
    is_Some (data st !! i) ->
    (forall p, occ (info_references mi) p <= held p) ->
    store_step checks (st, held)
      (assign_migration_info st i mi,
       hand_back held (info_references mi))
| step_clear_migration_info st held :
    store_step checks (st, held) (clear_migration_info st, held)
| step_clear st held :
    store_step checks (st, held) (inode_clear st, fun _ => 0).

Lemma store_wf_assign st i mi : store_wf st -> store_wf (assign_migration_info st i mi).
Proof.
  intros Hwf. unfold assign_migration_info. destruct (data st !! i) eqn:Hd; [|done].
  by eapply store_wf_drop_references, store_wf_update.
Qed.

Lemma store_step_inv checks c c' :
  store_step checks c c' -> store_wf c.1 /\ rc_inv c.1 c.2 -> store_wf c'.1 /\ rc_inv c'.1 c'.2.
Proof.
  intros Hs [Hwf Hinv]; destruct Hs as [st held h k st' i Hc H|st held i st' j Hc H
    |st held d st' i Hc Hr H|st held d st' e Hc Hr H|st held d st' Hrc Hr H|st held i c Hc
    |st held i mi [d Hd] Hr| |]; simpl in *.
  - split; [by eapply store_wf_claim | by eapply rc_inv_claim].
  - split; [by eapply store_wf_get_strong | by eapply rc_inv_get_strong].
  - pose proof (store_wf_get_or_insert checks st d Hwf).
    pose proof (rc_inv_get_or_insert checks st held d Hwf Hc Hinv Hr). by rewrite H in *.
  - pose proof (store_wf_get_or_insert checks st d Hwf).
    pose proof (rc_inv_get_or_insert checks st held d Hwf Hc Hinv Hr). by rewrite H in *.
  - pose proof (store_wf_new_inode st d Hwf). rewrite H in *.
    split; [done | by eapply rc_inv_new_inode].
  - split; [by apply store_wf_forget_one | by apply rc_inv_forget_one].
  - split; [by apply store_wf_assign | by eapply rc_inv_assign].
  - split; [by apply store_wf_clear_migration_info | by apply rc_inv_clear_migration_info].
  - split; [apply store_wf_empty | apply rc_inv_empty].
Qed.

Lemma store_reachable checks c c' :
  rtc (store_step checks) c c' -> store_wf c.1 /\ rc_inv c.1 c.2 -> store_wf c'.1 /\ rc_inv c'.1 c'.2.
Proof. induction 1; eauto using store_step_inv. Qed.

(** C16: In every state the inode store can reach from empty, whatever the order
    of lookups, inserts, forgets, migration-info updates and clears: each entry's
    reference count is positive and equals the references held by the guest and the
    daemon plus those held by the migration infos of other entries; an inode
    somebody refers to is still in the store (no use after free); an inode nobody
    refers to is gone (no leak); and the ID and handle maps only lead to live
    entries filed under that very key. *)
Theorem inode_store_references checks st held :
  rtc (store_step checks) (empty_store, fun _ => 0) (st, held) ->
  (forall i d, data st !! i = Some d ->
     inode d = i /\ 0 < refcount d /\ refcount d = held i + parents (data st) i) /\
  (forall i, is_Some (data st !! i) <-> 0 < held i \/ 0 < parents (data st) i) /\
  (forall k i, by_ids st !! k = Some i -> exists d, data st !! i = Some d /\ ids d = k) /\
  (forall h i, by_handle st !! h = Some i -> exists d, data st !! i = Some d /\ handle_of d = Some h).
Proof.
  intros Hr. apply store_reachable in Hr as [(Hd & Hk & Hh) Hinv];
    [|split; [apply store_wf_empty | apply rc_inv_empty]].
  simpl in *. split_and!; [| |done|done].
  - intros i d Hi. specialize (Hinv i) as [_ Hm]. rewrite Hi in Hm. by split; [eauto|].
  - intros i. specialize (Hinv i) as [Hn Hm]. pose proof (parents_nonneg (data st) i).
    destruct (data st !! i) as [d|]; [split; [intros; lia|eauto]|split; [by intros []|lia]].
Qed.

Lemma counts_small_bool st :
  bool_decide (map_Forall (fun _ d => refcount d < u64_max) (data st)) = true -> counts_small st.
Proof. intros H%bool_decide_eq_true i d. apply H. Qed.

(** A run of the store: mount the root, look a child up with a path-based
    migration info (which owns a reference to the root), forget the child. *)
Definition demo_root : InodeData :=
  {| inode := 1; file_or_handle := File 3; refcount := 2;
     ids := {| ino := 100; dev := 1; mnt_id := 1 |}; mode := 0; migration_info := None |}.
Definition demo_child : InodeData :=
  {| inode := 2; file_or_handle := File 4; refcount := 1;
     ids := {| ino := 101; dev := 1; mnt_id := 1 |}; mode := 0;
     migration_info := Some {| location := Path 1 [97]; mig_file_handle := None |} |}.

Lemma inode_store_references_witness :
  exists st held, rtc (store_step true) (empty_store, fun _ => 0) (st, held) /\
    refcount <$> data st !! 1 = Some 2 /\ data st !! 2 = None /\ held 1 = 2 /\
    (forall i, is_Some (data st !! i) <-> 0 < held i \/ 0 < parents (data st) i).
Proof.
  eexists _, _. match goal with |- ?P /\ _ => assert (Hr : P) end.
  { eapply rtc_l; [apply (step_new_inode _ _ _ demo_root); [done..|vm_compute; reflexivity]|].
    eapply rtc_l; [eapply (step_get_strong _ _ _ 1); [|vm_compute; reflexivity]|].
    { by left. }
    eapply rtc_l; [eapply (step_insert _ _ _ demo_child); [| |vm_compute; reflexivity]|].
    { by left. }
    { intros p. unfold add_reference, occ. cbn -[decide Z.eq_dec].
      destruct (Z.eq_dec 1 p) as [<-|]; repeat case_decide; subst; simpl; lia. }
    eapply rtc_l; [apply (step_forget _ _ _ 2 1); vm_compute; split; congruence|].
    apply rtc_refl. }
  split; [exact Hr|]. split_and!; [vm_compute; reflexivity..|].
  exact (proj1 (proj2 (inode_store_references _ _ _ Hr))).
Defined.

(** ** Finding an inode again *)

Lemma find_claimable_update st handle k d rc :
  store_wf st -> find_claimable st handle k = Ok (Some d) ->
  find_claimable (set_data (<[inode d := set_refcount rc d]>) st) handle k =
    Ok (Some (set_refcount rc d)).
Proof.
  intros Hwf Hf.
  assert (Hlook : forall i e, data st !! i = Some e -> inode e = i) by apply Hwf.
  unfold find_claimable, get_by_handle, get_by_ids, inode_by_handle, inode_by_ids, store_get in *.
  simpl. destruct handle as [h|]; simpl in *.
  - destruct (by_handle st !! h) as [i|]; simpl in *.
    + destruct (data st !! i) as [e|] eqn:He; simpl in *; simplify_eq/=.
      rewrite (Hlook _ _ He), lookup_insert_eq. done.
    + destruct (by_ids st !! k) as [i|]; simpl in *; [|done].
      destruct (data st !! i) as [e|] eqn:He; simpl in *; [|done].
      destruct (is_file e) eqn:Hfile; simplify_eq/=.
      rewrite (Hlook _ _ He), lookup_insert_eq. simpl.
      change (is_file (set_refcount rc d)) with (is_file d). by rewrite Hfile.
  - destruct (by_ids st !! k) as [i|]; simpl in *; [|done].
    destruct (data st !! i) as [e|] eqn:He; simpl in *; [|done].
    destruct (is_file e) eqn:Hfile; simplify_eq/=.
    rewrite (Hlook _ _ He), lookup_insert_eq. simpl.
    change (is_file (set_refcount rc d)) with (is_file d). by rewrite Hfile.
Qed.

Lemma find_claimable_inserted st d st' :
  insert_new st d = Ok st' -> is_file d = true \/ is_Some (handle_of d) ->
  find_claimable st' (handle_of d) (ids d) = Ok (Some d).
Proof.
  intros Hins Hd. unfold insert_new in Hins. destruct (data st !! inode d); simplify_eq/=.
  unfold find_claimable, get_by_handle, get_by_ids, inode_by_handle, inode_by_ids, store_get.
  simpl. destruct (handle_of d) as [h|]; simpl.
  - by rewrite !lookup_insert_eq.
  - rewrite lookup_insert_eq. simpl. rewrite lookup_insert_eq. simpl.
    destruct Hd as [-> |[]]; done.
Qed.

Lemma claim_inode_found checks st handle k d :
  find_claimable st handle k = Ok (Some d) -> 0 < refcount d < u64_max ->
  claim_inode checks st handle k =
    Ok (set_data (<[inode d := set_refcount (refcount d + 1) d]>) st, inode d).
Proof.
  intros Hf Hrc. unfold claim_inode. rewrite Hf. simpl.
  unfold new_with_data, increment_refcount_for. rewrite plain_add_small by lia. simpl.
  rewrite (proj2 (Z.ltb_lt _ _)) by lia. done.
Qed.

Lemma get_or_insert_cases checks st d :
  store_wf st -> counts_small st ->
  (exists d0, find_claimable st (handle_of d) (ids d) = Ok (Some d0) /\ 0 < refcount d0 /\
     get_or_insert checks st d =
       (drop_inode_data (set_data (<[inode d0 := set_refcount (refcount d0 + 1) d0]>) st) d,
        Ok (inode d0))) \/
  ((forall d0, find_claimable st (handle_of d) (ids d) = Ok (Some d0) -> refcount d0 <= 0) /\
   ((is_Some (data st !! inode d) /\
     get_or_insert checks st d = (drop_inode_data st d, Err (Custom Other))) \/
    (exists st', insert_new st (set_refcount 1 d) = Ok st' /\
       get_or_insert checks st d = (st', Ok (inode d))))).
Proof.
  intros Hwf Hsmall. unfold get_or_insert.
  destruct (find_claimable_wf st (handle_of d) (ids d) Hwf) as (o & Ho & Hcl).
  destruct o as [d0|].
  - destruct (Hcl d0 eq_refl) as [Hd0 _]. pose proof (Hsmall _ _ Hd0).
    destruct (Z_lt_dec 0 (refcount d0)) as [Hpos|Hpos].
    + left. exists d0. rewrite (claim_inode_found _ _ _ _ d0) by (done || lia). done.
    + right. split; [intros ? H'; rewrite Ho in H'; simplify_eq; lia|].
      unfold claim_inode. rewrite Ho. simpl. unfold new_with_data, increment_refcount_for.
      rewrite plain_add_small by lia. simpl. rewrite (proj2 (Z.ltb_ge _ _)) by lia. simpl.
      case_decide as Hin; [by left|right]. unfold insert_new. simpl.
      apply eq_None_not_Some in Hin. rewrite Hin. eauto.
  - right. split; [intros ? H'; rewrite Ho in H'; simplify_eq|].
    unfold claim_inode. rewrite Ho. simpl.
    case_decide as Hin; [by left|right]. unfold insert_new. simpl.
    apply eq_None_not_Some in Hin. rewrite Hin. eauto.
Qed.

(** Looking the same file up twice yields the same FUSE inode: after
    [get_or_insert] has returned [i] for some data, calling it again with data of
    the same file (same IDs and handle, whatever fresh FUSE ID it carries) returns
    [i] again and neither call panics. *)
Theorem get_or_insert_idempotent checks st d d' st1 i :
  store_wf st -> counts_small st -> counts_small st1 ->
  data_references d = [] -> is_file d = true \/ is_Some (handle_of d) ->
  get_or_insert checks st d = (st1, Ok i) ->
  ids d' = ids d -> handle_of d' = handle_of d ->
  (get_or_insert checks st1 d').2 = Ok i /\
  is_Some (data st1 !! i).
Proof.
  intros Hwf Hs Hs1 Hrefs Hfile Hg Hids Hh.
  assert (exists d1, find_claimable st1 (handle_of d) (ids d) = Ok (Some d1) /\
            0 < refcount d1 /\ inode d1 = i /\ data st1 !! i = Some d1) as (d1 & Hf & Hpos & <- & Hd1).
  { destruct (get_or_insert_cases checks st d Hwf Hs)
      as [(d0 & Hf & Hpos & Heq)|(_ & [[_ Heq]|(st' & Hins & Heq)])]; rewrite Heq in Hg; simplify_eq.
    - exists (set_refcount (refcount d0 + 1) d0). unfold drop_inode_data. rewrite Hrefs. simpl.
      split_and!; [by apply find_claimable_update|lia|done|by rewrite lookup_insert_eq].
    - exists (set_refcount 1 d). split_and!; [|simpl; lia|done|].
      + by apply (find_claimable_inserted st (set_refcount 1 d)).
      + unfold insert_new in Hins. destruct (data st !! _); simplify_eq/=. by rewrite lookup_insert_eq. }
  split; [|by rewrite Hd1]. rewrite <- Hids, <- Hh in Hf.
  unfold get_or_insert. rewrite (claim_inode_found _ _ _ _ d1); [done|done|].
  split; [done|by eapply Hs1].
Qed.

Lemma get_or_insert_idempotent_witness :
  let d := {| inode := 5; file_or_handle := File 4; refcount := 1;
              ids := {| ino := 101; dev := 1; mnt_id := 1 |}; mode := 0; migration_info := None |} in
  let d' := {| inode := 6; file_or_handle := File 9; refcount := 1;
               ids := {| ino := 101; dev := 1; mnt_id := 1 |}; mode := 0; migration_info := None |} in
  (get_or_insert true (get_or_insert true empty_store d).1 d').2 = Ok 5.
Proof.
  intros d d'. apply (get_or_insert_idempotent true empty_store d d' _ 5 store_wf_empty).
  - by apply counts_small_bool.
  - apply counts_small_bool. vm_compute. reflexivity.
  - reflexivity.
  - left. reflexivity.
  - vm_compute. reflexivity.
  - reflexivity.
  - reflexivity.
Defined.

(** ** Misbehaving guests *)

Definition counts_positive (st : InodeStoreInner) : Prop :=
  forall i d, data st !! i = Some d -> 0 < refcount d.

Lemma counts_positive_bool st :
  bool_decide (map_Forall (fun _ d => 0 < refcount d) (data st)) = true -> counts_positive st.
Proof. intros H%bool_decide_eq_true i d. apply H. Qed.

Lemma counts_positive_forget_one st i c :
  0 <= c -> counts_positive st -> counts_positive (forget_one st i c).
Proof.
  unfold forget_one. generalize (size (data st)) as f. intros f; revert st i c.
  induction f as [|f IH]; intros st i c Hc Hst; simpl;
    (destruct (data st !! i) as [d|] eqn:Hd; [|done]); pose proof (Hst _ _ Hd);
    (case_match eqn:Hz; zify_bool;
      [|rewrite saturating_sub_max in Hz; intros j e; simpl;
        rewrite lookup_insert_Some; intros [[<- <-]|[_ Hj]];
        [simpl; rewrite saturating_sub_max; lia|by eapply Hst]]).
  - intros j e. simpl. rewrite lookup_delete_Some. intros [_ Hj]. by eapply Hst.
  - apply (fold_left_inv counts_positive).
    + intros j e. simpl. rewrite lookup_delete_Some. intros [_ Hj]. by eapply Hst.
    + intros s p Hs. apply IH; [lia|done].
Qed.

(** A guest cannot corrupt the store with bad FORGET requests: for any list
    of (inode, count) pairs, unknown inodes and counts beyond what the guest holds
    included, no count wraps around or reaches zero inside the store, the three maps
    stay consistent, and no entry is added. *)
Theorem forget_many_any_request st (l : list (Inode * Z)) :
  store_wf st -> counts_positive st -> Forall (fun e => 0 <= e.2 <= u64_max) l ->
  store_wf (forget_many st l) /\ counts_positive (forget_many st l) /\
  dom (data (forget_many st l)) ⊆ dom (data st).
Proof.
  intros Hwf Hpos Hl. unfold forget_many. revert st Hwf Hpos.
  induction Hl as [|[i c] l Hc Hl IH]; intros st Hwf Hpos; simpl; [done|]. simpl in Hc.
  destruct (IH (forget_one st i c)) as (H1 & H2 & H3);
    [by apply store_wf_forget_one|apply counts_positive_forget_one; [lia|done]|].
  split_and!; [done..|]. etrans; [apply H3|].
  apply (forget_one_ind (fun s => dom (data s) ⊆ dom (data st))); [| |done]; simpl.
  - intros s j d Hs Hj. rewrite dom_delete_L. set_solver.
  - intros s j d rc Hs Hj. rewrite dom_insert_lookup_L by eauto. done.
Qed.

Lemma forget_many_any_request_witness :
  let st := (new_inode empty_store demo_root).1 in
  store_wf (forget_many st [(1, 1); (7, 3); (1, u64_max); (1, 5)]).
Proof.
  intros st. apply (forget_many_any_request st).
  - apply store_wf_new_inode, store_wf_empty.
  - apply counts_positive_bool. vm_compute. reflexivity.
  - repeat constructor; simpl; unfold u64_max; lia.
Defined.

(** A strong reference does not protect its holder from a guest that
    forgets more than it was given: with one reference held by the guest and one by
    the daemon, a FORGET of two removes the inode, and cloning the daemon's strong
    reference then panics. *)
Theorem clone_panics_after_overforget checks st d :
  data st !! inode d = Some d -> refcount d = 1 -> data_references d = [] ->
  exists st1, get_strong checks st (inode d) = Ok (st1, inode d) /\
    is_Some (data st1 !! inode d) /\
    data (forget_one st1 (inode d) 2) !! inode d = None /\
    clone_reference checks (forget_one st1 (inode d) 2) (inode d) = Panic.
Proof.
  intros Hd Hrc Hrefs. unfold get_strong, store_get, new_with_data, increment_refcount_for.
  rewrite Hd. simpl. rewrite Hrc. rewrite plain_add_small by (unfold u64_max; lia). simpl.
  exists (set_data (<[inode d := set_refcount 2 d]>) st).
  split; [done|]. split; [simpl; rewrite lookup_insert_eq; eauto|].
  assert (Hf : data (forget_one (set_data (<[inode d := set_refcount 2 d]>) st) (inode d) 2)
            !! inode d = None).
  { rewrite forget_one_eq. simpl. rewrite lookup_insert_eq. simpl.
    unfold inode_remove. simpl. rewrite lookup_insert_eq.
    change (data_references (set_refcount 2 d)) with (data_references d). rewrite Hrefs. simpl.
    apply lookup_delete_eq. }
  split; [done|]. unfold clone_reference, get_strong, store_get. by rewrite Hf.
Qed.

Lemma clone_panics_after_overforget_witness :
  exists st1, get_strong true (new_inode empty_store (set_refcount 1 demo_root)).1 1 = Ok (st1, 1) /\
    is_Some (data st1 !! 1) /\ data (forget_one st1 1 2) !! 1 = None /\
    clone_reference true (forget_one st1 1 2) 1 = Panic.
Proof.
  apply (clone_panics_after_overforget true _ (set_refcount 1 demo_root)); vm_compute; reflexivity.
Defined.

(** ** Iteration visits every inode once, in order *)

Definition key_lt (a b : Inode * InodeData) : Prop := a.1 < b.1.

Lemma entries_perm m : entries m ≡ₚ map_to_list m.
Proof. apply merge_sort_Permutation. Qed.

Lemma entries_sorted m : StronglySorted key_lt (entries m).
Proof.
  assert (Hle : StronglySorted key_le (entries m)) by apply (StronglySorted_merge_sort key_le).
  assert (Hnd : NoDup ((entries m).*1)).
  { rewrite entries_perm. apply NoDup_fst_map_to_list. }
  revert Hle Hnd. generalize (entries m) as l. induction l as [|a l IH]; intros Hle Hnd; [constructor|].
  inversion Hle as [|? ? Hl Ha]; subst. inversion Hnd as [|? ? Hni Hnd']; subst.
  constructor; [auto|]. rewrite Forall_forall in *. intros b Hb. specialize (Ha b Hb).
  unfold key_le, key_lt in *. assert (a.1 <> b.1); [|lia].
  intros He. apply Hni. rewrite He. by apply list_elem_of_fmap_2.
Qed.

Lemma filter_after l1 a l2 :
  StronglySorted key_lt (l1 ++ a :: l2) ->
  filter (fun e : Inode * InodeData => a.1 + 1 <= e.1) (l1 ++ a :: l2) = l2.
Proof.
  induction l1 as [|b l1 IH]; simpl; intros Hs; inversion Hs as [|? ? Hs' Hb]; subst.
  - rewrite filter_cons_False by lia. apply filter_all, Forall_forall.
    intros e He. rewrite Forall_forall in Hb. specialize (Hb e He). unfold key_lt in Hb. lia.
  - rewrite filter_cons_False; [by apply IH|].
    rewrite Forall_forall in Hb. specialize (Hb a ltac:(set_solver)). unfold key_lt in Hb. lia.
Qed.

Lemma iter_all_from checks st l2 : forall l1 a fuel,
  entries (data st) = l1 ++ a :: l2 ->
  Forall (fun e => 0 <= e.1 < u64_max) (entries (data st)) ->
  (length l2 < fuel)%nat ->
  iter_all checks fuel st (Some a.1) = Ok (l2.*1).
Proof.
  induction l2 as [|b l2 IH]; intros l1 a [|fuel] He Hb Hf; simpl in Hf; try lia;
    simpl; unfold iter_next, lower_bound;
    (assert (0 <= a.1 < u64_max) as Ha
      by (rewrite Forall_forall in Hb; apply Hb; rewrite He; set_solver));
    rewrite plain_add_small by lia; simpl; unfold range_next;
    pose proof (entries_sorted (data st)) as Hs; rewrite He in Hs;
    rewrite He, filter_after by done; simpl; [done|].
  destruct b as [k d]; simpl.
  pose proof (IH (l1 ++ [a]) (k, d) fuel) as IH'. simpl in IH'. rewrite IH'; [done| |done|lia].
  by rewrite He, <- app_assoc.
Qed.

(** A full iteration over the inode store (repeated [next] until it returns
    nothing) visits every inode exactly once, in increasing ID order, and stops; no
    arithmetic overflow occurs as long as no FUSE ID is [u64::MAX]. *)
Theorem iter_all_complete checks st :
  (forall i, is_Some (data st !! i) -> 0 <= i < u64_max) ->
  exists l, iter_all checks (S (size (data st))) st None = Ok l /\
    StronglySorted Z.lt l /\ (forall i, i ∈ l <-> is_Some (data st !! i)).
Proof.
  intros Hkeys.
  assert (Hb : Forall (fun e => 0 <= e.1 < u64_max) (entries (data st))).
  { apply Forall_forall. intros [k d]. rewrite entries_perm, elem_of_map_to_list.
    intros Hk. apply Hkeys. eauto. }
  assert (Hlen : length (entries (data st)) = size (data st))
    by (rewrite entries_perm; apply length_map_to_list).
  pose proof (entries_sorted (data st)) as Hs.
  exists ((entries (data st)).*1). split_and!.
  - simpl. unfold iter_next. simpl. unfold range_next.
    rewrite filter_all by (eapply Forall_impl; [exact Hb|simpl; lia]).
    destruct (entries (data st)) as [|[k d] l] eqn:He; simpl; [done|].
    pose proof (iter_all_from checks st l [] (k, d) (size (data st)) He) as Hi. simpl in Hi.
    rewrite Hi; [done|by rewrite He|]. rewrite <- Hlen. simpl. lia.
  - clear Hb Hlen. induction Hs as [|a l Hs IH Ha]; csimpl; constructor; [done|].
    by apply Forall_fmap.
  - intros i. rewrite list_elem_of_fmap. split.
    + intros ([k d] & -> & Hin). rewrite entries_perm, elem_of_map_to_list in Hin. eauto.
    + intros [d Hd]. exists (i, d). split; [done|]. by rewrite entries_perm, elem_of_map_to_list.
Qed.

Lemma keys_small_bool st :
  bool_decide (map_Forall (fun i _ => 0 <= i /\ i < u64_max) (data st)) = true ->
  forall i, is_Some (data st !! i) -> 0 <= i < u64_max.
Proof. intros H%bool_decide_eq_true i [d Hd]. by apply (H i d). Qed.

Lemma iter_all_complete_witness :
  exists l, iter_all true 3 (get_or_insert true (new_inode empty_store demo_root).1 demo_child).1 None
      = Ok l /\ l = [1; 2].
Proof.
  destruct (iter_all_complete true
    (get_or_insert true (new_inode empty_store demo_root).1 demo_child).1) as (l & Hl & _).
  - apply keys_small_bool. vm_compute. reflexivity.
  - exists l. split; [exact Hl|]. vm_compute in Hl. congruence.
Defined.

(** Forgetting an inode terminates: [forget_one] satisfies the recursive
    equation of the source (decrement, and at zero remove the entry from all three
    maps and drop the parent its migration info refers to, which may in turn be
    removed, and so on), and no removal chain is longer than the number of entries. *)
Theorem forget_one_terminates st i c :
  forget_one st i c =
    match data st !! i with
    | None => st
    | Some d =>
        if saturating_sub (refcount d) c =? 0
        then drop_references (remove_entry st i d) (data_references d)
        else set_data (<[i := set_refcount (saturating_sub (refcount d) c) d]>) st
    end /\
  (forall fuel, (size (data st) <= fuel)%nat -> forget_fuel fuel st i c = forget_one st i c) /\
  (size (data (forget_one st i c)) <= size (data st))%nat.
Proof.
  split_and!; [|by intros; apply forget_fuel_enough|apply forget_one_size].
  rewrite forget_one_eq. destruct (data st !! i) as [d|] eqn:Hd; [|done].
  cbn zeta. unfold inode_remove. by rewrite Hd.
Qed.
