(* ===== verification/DentryIndex.v ===== *)
(** * The dentry index (src/passthrough/dentry_index.rs)

    A bidirectional map between [(parent, name)] pairs and FUSE inodes, kept so
    that an event on the host can be turned into an invalidation of what the guest
    caches.  [forward] answers lookups; [reverse] lists the names of an inode.

    The abstract view of the index is [forward] alone: a partial function from
    names to inodes.  [dentry_wf] says that [reverse] is exactly its inverse, every
    operation keeps it, and each operation is shown to be a simple update of the
    abstract view. *)

From S2P Require Import Prelude InodeStore.

(** A name within a directory. *)
Notation Name := (list Z).
Notation dentry := (Inode * Name)%type.

Record DentryIndex := {
  forward : gmap dentry Inode;
  reverse : gmap Inode (gset dentry);
}.

Definition dentry_new : DentryIndex := {| forward := ∅; reverse := ∅ |}.

(** [if let Some(set) = reverse.get_mut(&child) { set.remove(&key); if
    set.is_empty() { reverse.remove(&child); } }] *)
Definition reverse_remove (rev : gmap Inode (gset dentry)) (child : Inode) (key : dentry)
  : gmap Inode (gset dentry) :=
  match rev !! child with
  | None => rev
  | Some set =>
      let set' := set ∖ {[key]} in
      if decide (set' = ∅) then delete child rev else <[child := set']> rev
  end.

Definition dentry_insert (idx : DentryIndex) (parent : Inode) (name : Name) (child : Inode)
  : DentryIndex :=
  let key := (parent, name) in
  let rev := match forward idx !! key with
             | Some prev => if decide (prev = child) then reverse idx
                            else reverse_remove (reverse idx) prev key
             | None => reverse idx
             end in
  {| forward := <[key := child]> (forward idx);
     reverse := <[child := default ∅ (rev !! child) ∪ {[key]}]> rev |}.

Definition dentry_remove (idx : DentryIndex) (parent : Inode) (name : Name) : DentryIndex :=
  let key := (parent, name) in
  {| forward := delete key (forward idx);
     reverse := match forward idx !! key with
                | Some child => reverse_remove (reverse idx) child key
                | None => reverse idx
                end |}.

(** The second half of [rename], on what the first half left. *)
Definition dentry_move (idx : DentryIndex) (old_key new_key : dentry) : DentryIndex :=
  match forward idx !! old_key with
  | None => idx
  | Some child =>
      {| forward := <[new_key := child]> (delete old_key (forward idx));
         reverse := match reverse idx !! child with
                    | Some set => <[child := (set ∖ {[old_key]}) ∪ {[new_key]}]> (reverse idx)
                    | None => reverse idx
                    end |}
  end.

Definition dentry_rename (idx : DentryIndex) (old_parent : Inode) (old_name : Name)
    (new_parent : Inode) (new_name : Name) : DentryIndex :=
  dentry_move (dentry_remove idx new_parent new_name) (old_parent, old_name) (new_parent, new_name).

Definition forget_inode (idx : DentryIndex) (i : Inode) : DentryIndex :=
  match reverse idx !! i with
  | None => idx
  | Some set =>
      {| forward := set_fold (fun key fwd => delete key fwd) (forward idx) set;
         reverse := delete i (reverse idx) |}
  end.

Definition dentry_get (idx : DentryIndex) (parent : Inode) (name : Name) : option Inode :=
  forward idx !! (parent, name).

(** ** Paths

    [std::path::Path::components] on Unix: a leading root, a leading [.], and
    otherwise the non-empty pieces between slashes without [.]. *)

Inductive Component := RootDir | CurDir | ParentDir | Normal (name : Name).

#[export] Instance Component_eq_dec : EqDecision Component.
Proof. solve_decision. Defined.

Definition parse_piece (s : Name) : option Component :=
  if decide (s = [] \/ s = text ".") then None
  else if decide (s = text "..") then Some ParentDir
  else Some (Normal s).

Definition slash : Z := 47.

Definition components (path : list Z) : list Component :=
  let pieces := split_on slash path in
  if starts_with [slash] path then RootDir :: omap parse_piece pieces
  else match pieces with
       | first :: rest =>
           if decide (first = text ".") then CurDir :: omap parse_piece rest
           else omap parse_piece pieces
       | [] => []
       end.

Definition normal_name (c : Component) : option Name :=
  match c with Normal s => Some s | _ => None end.

(** The loop of [resolve_path] over the segments. *)
Fixpoint resolve_segments (idx : DentryIndex) (current : Inode) (segments : list Name)
  : Inode * list Name :=
  match segments with
  | [] => (current, [])
  | seg :: rest =>
      match forward idx !! (current, seg) with
      | Some child => resolve_segments idx child rest
      | None => (current, segments)
      end
  end.

Definition resolve_path (idx : DentryIndex) (root : Inode) (path : list Component)
  : Inode * list Name :=
  resolve_segments idx root (omap normal_name path).

Definition names_for (idx : DentryIndex) (i : Inode) : gset dentry :=
  default ∅ (reverse idx !! i).

(** Keys of a [BTreeMap], in order. *)
Definition all_inodes (idx : DentryIndex) : list Inode :=
  merge_sort Z.le ((map_to_list (reverse idx)).*1).

Definition dentry_len (idx : DentryIndex) : nat := size (forward idx).

(** ** The invariant *)

Definition dentry_wf (idx : DentryIndex) : Prop :=
  (forall key child, forward idx !! key = Some child <->
     exists set, reverse idx !! child = Some set /\ key ∈ set) /\
  (forall child set, reverse idx !! child = Some set -> set <> ∅).

Lemma dentry_wf_new : dentry_wf dentry_new.
Proof. split; intros; simpl; rewrite ?lookup_empty in *; naive_solver. Qed.

(** The names recorded for [child], as a set. *)
Lemma names_for_spec idx child key :
  dentry_wf idx -> key ∈ names_for idx child <-> forward idx !! key = Some child.
Proof.
  intros [Hwf _]. rewrite Hwf. unfold names_for.
  destruct (reverse idx !! child); simpl; set_solver.
Qed.

(** Well-formedness through [names_for], which hides the empty sets. *)
Lemma dentry_wf_intro fwd rev :
  (forall key child, fwd !! key = Some child <->
     key ∈ (default ∅ (rev !! child) : gset dentry)) ->
  (forall child set, rev !! child = Some set -> set <> ∅) ->
  dentry_wf {| forward := fwd; reverse := rev |}.
Proof.
  intros H1 H2. split; simpl; [|done]. intros key child. rewrite H1.
  destruct (rev !! child); simpl; set_solver.
Qed.

Lemma reverse_remove_names rev child key c :
  default ∅ (reverse_remove rev child key !! c) =
  if decide (c = child) then default ∅ (rev !! c) ∖ {[key]} else default ∅ (rev !! c).
Proof.
  unfold reverse_remove. destruct (rev !! child) as [set|] eqn:Hs; simpl.
  - destruct (decide (set ∖ {[key]} = ∅)) as [He|He]; case_decide as Hc; subst.
    + rewrite lookup_delete_eq, Hs. simpl. by rewrite He.
    + by rewrite lookup_delete_ne by done.
    + rewrite lookup_insert_eq, Hs. done.
    + by rewrite lookup_insert_ne by done.
  - case_decide; subst; [|done]. rewrite Hs. set_solver.
Qed.

Lemma reverse_remove_nonempty rev child key :
  (forall c set, rev !! c = Some set -> set <> ∅) ->
  forall c set, reverse_remove rev child key !! c = Some set -> set <> ∅.
Proof.
  intros H c set. unfold reverse_remove. destruct (rev !! child) eqn:Hs; [|by apply H].
  case_decide as He.
  - rewrite lookup_delete_Some. intros [_ ?]. eauto.
  - rewrite lookup_insert_Some. intros [[<- <-]|[_ ?]]; eauto.
Qed.

(** ** Each operation as an update of the abstract view *)

Lemma forward_names fwd rev :
  dentry_wf {| forward := fwd; reverse := rev |} ->
  forall key child, fwd !! key = Some child <-> key ∈ (default ∅ (rev !! child) : gset dentry).
Proof. intros H key child. symmetry. apply (names_for_spec _ child key H). Qed.

Lemma dentry_remove_wf idx p n : dentry_wf idx -> dentry_wf (dentry_remove idx p n).
Proof.
  destruct idx as [fwd rev]. intros Hwf. pose proof (forward_names _ _ Hwf) as Hf.
  unfold dentry_remove; simpl. apply dentry_wf_intro.
  - intros key child. rewrite lookup_delete_Some, Hf.
    destruct (fwd !! (p, n)) as [c|] eqn:Hc.
    + rewrite reverse_remove_names. case_decide; subst; [set_solver|].
      split; [naive_solver|]. intros Hk; split; [|done]. intros <-.
      apply Hf in Hk. congruence.
    + split; [naive_solver|]. intros Hk; split; [|done]. intros <-. apply Hf in Hk. congruence.
  - destruct (fwd !! (p, n)); [|by apply Hwf]. apply reverse_remove_nonempty, Hwf.
Qed.

Lemma dentry_insert_wf idx p n c : dentry_wf idx -> dentry_wf (dentry_insert idx p n c).
Proof.
  destruct idx as [fwd rev]. intros Hwf. pose proof (forward_names _ _ Hwf) as Hf.
  unfold dentry_insert; simpl.
  match goal with |- context [default ∅ (?r !! c)] => set (rev' := r) end.
  assert (Hr : forall c', default ∅ (rev' !! c') =
            if decide (fwd !! (p, n) = Some c' /\ c' <> c) then default ∅ (rev !! c') ∖ {[(p, n)]}
            else default ∅ (rev !! c')).
  { intros c'. unfold rev'. destruct (fwd !! (p, n)) as [prev|] eqn:Hp.
    - case_decide; subst; [case_decide; naive_solver|].
      rewrite reverse_remove_names. repeat case_decide; naive_solver.
    - case_decide; naive_solver. }
  assert (Hne : forall c' set, rev' !! c' = Some set -> set <> ∅).
  { unfold rev'. destruct (fwd !! (p, n)); [|by apply Hwf].
    case_decide; [by apply Hwf|]. apply reverse_remove_nonempty, Hwf. }
  apply dentry_wf_intro.
  - intros key child. rewrite lookup_insert_Some.
    destruct (decide (c = child)) as [->|Hcc].
    + rewrite lookup_insert_eq. simpl. rewrite elem_of_union, elem_of_singleton, Hr, Hf.
      case_decide; [naive_solver|]. destruct (decide (key = (p, n))); naive_solver.
    + rewrite lookup_insert_ne, Hr by done. case_decide as Hd.
      * rewrite elem_of_difference, elem_of_singleton, <- Hf. naive_solver.
      * rewrite <- Hf. split; [naive_solver|]. intros Hk. right. split; [|done].
        intros <-. naive_solver.
  - intros c' set. rewrite lookup_insert_Some. intros [[<- <-]|[_ ?]]; [set_solver|eauto].
Qed.

Lemma dentry_move_wf idx old_key new_key :
  dentry_wf idx -> forward idx !! new_key = None -> dentry_wf (dentry_move idx old_key new_key).
Proof.
  destruct idx as [fwd rev]. intros Hwf Hnew. pose proof (forward_names _ _ Hwf) as Hf.
  unfold dentry_move; simpl in *. destruct (fwd !! old_key) as [child|] eqn:Ho; [|done].
  destruct (proj1 (proj1 Hwf old_key child) Ho) as (set & Hs & Hin). simpl in Hs. rewrite Hs.
  assert (old_key <> new_key) by congruence.
  apply dentry_wf_intro.
  - intros key c. rewrite lookup_insert_Some, lookup_delete_Some.
    destruct (decide (child = c)) as [->|Hcc].
    + rewrite lookup_insert_eq. simpl. specialize (Hf key c). rewrite Hs in Hf. simpl in Hf.
      rewrite Hf. set_unfold. split; [naive_solver|].
      intros [[? ?]| ->]; [right|by left]. split; [|done]. intros <-.
      assert (fwd !! new_key = Some c) by naive_solver. congruence.
    + rewrite lookup_insert_ne by done. rewrite <- Hf. split; [naive_solver|].
      intros Hk. right. split; [congruence|]. split; [congruence|done].
  - intros c s. rewrite lookup_insert_Some. intros [[<- <-]|[_ ?]]; [set_solver|].
    by eapply Hwf.
Qed.

Lemma dentry_rename_wf idx op on np nn : dentry_wf idx -> dentry_wf (dentry_rename idx op on np nn).
Proof.
  intros Hwf. apply dentry_move_wf; [by apply dentry_remove_wf|].
  simpl. apply lookup_delete_eq.
Qed.

Lemma set_fold_delete_lookup {V : Type} (s : gset dentry) (m : gmap dentry V) key v :
  set_fold (fun k m => delete k m) m s !! key = Some v <-> (key ∉ s) /\ m !! key = Some v.
Proof.
  apply (set_fold_ind_L (fun (r : gmap dentry V) (s : gset dentry) =>
    r !! key = Some v <-> (key ∉ s) /\ m !! key = Some v)).
  - set_solver.
  - intros k s' r Hk IH. rewrite lookup_delete_Some, IH. set_solver.
Qed.

Lemma forget_inode_forward idx i key :
  dentry_wf idx ->
  forward (forget_inode idx i) !! key =
    if decide (forward idx !! key = Some i) then None else forward idx !! key.
Proof.
  intros Hwf. pose proof (names_for_spec idx i key Hwf) as Hn. unfold names_for in Hn.
  unfold forget_inode. destruct (reverse idx !! i) as [set|] eqn:Hs; simpl in *.
  - apply option_eq. intros c. rewrite set_fold_delete_lookup, Hn. case_decide; naive_solver.
  - case_decide as Hk; [|done]. set_solver.
Qed.

Lemma forget_inode_wf idx i : dentry_wf idx -> dentry_wf (forget_inode idx i).
Proof.
  intros Hwf. destruct (reverse idx !! i) as [set|] eqn:Hs; last first.
  { unfold forget_inode. by rewrite Hs. }
  pose proof (fun key => forget_inode_forward idx i key Hwf) as Hfw.
  unfold forget_inode in *. rewrite Hs in *. apply dentry_wf_intro; simpl in *.
  - intros key c. rewrite Hfw. pose proof (names_for_spec idx c key Hwf) as Hn.
    unfold names_for in Hn. destruct (decide (c = i)) as [->|Hne].
    + rewrite lookup_delete_eq. simpl. case_decide; set_solver.
    + rewrite lookup_delete_ne, Hn by done. case_decide; naive_solver.
  - intros c s. rewrite lookup_delete_Some. intros [_ Hc]. by eapply Hwf.
Qed.

(** ** Refinement of a plain map *)

Inductive dentry_op :=
| OpInsert (parent : Inode) (name : Name) (child : Inode)
| OpRemove (parent : Inode) (name : Name)
| OpRename (old_parent : Inode) (old_name : Name) (new_parent : Inode) (new_name : Name)
| OpForget (i : Inode).

Definition run_dentry_op (idx : DentryIndex) (op : dentry_op) : DentryIndex :=
  match op with
  | OpInsert p n c => dentry_insert idx p n c
  | OpRemove p n => dentry_remove idx p n
  | OpRename op on np nn => dentry_rename idx op on np nn
  | OpForget i => forget_inode idx i
  end.

(** What the operations promise: updates of a map from names to inodes. *)
Definition abs_dentry_op (m : gmap dentry Inode) (op : dentry_op) : gmap dentry Inode :=
  match op with
  | OpInsert p n c => <[(p, n) := c]> m
  | OpRemove p n => delete (p, n) m
  | OpRename op on np nn =>
      match delete (np, nn) m !! (op, on) with
      | Some c => <[(np, nn) := c]> (delete (op, on) (delete (np, nn) m))
      | None => delete (np, nn) m
      end
  | OpForget i => filter (fun e => e.2 <> i) m
  end.

Lemma run_dentry_op_wf idx op : dentry_wf idx -> dentry_wf (run_dentry_op idx op).
Proof.
  destruct op; simpl;
    eauto using dentry_insert_wf, dentry_remove_wf, dentry_rename_wf, forget_inode_wf.
Qed.

Lemma run_dentry_op_abs idx op :
  dentry_wf idx -> forward (run_dentry_op idx op) = abs_dentry_op (forward idx) op.
Proof.
  intros Hwf. destruct op as [p n c|p n|op on np nn|i]; simpl; [done|done| |].
  - unfold dentry_rename, dentry_move. simpl. by case_match.
  - apply map_eq. intros key. rewrite forget_inode_forward by done.
    apply option_eq. intros c. rewrite map_lookup_filter_Some. simpl. case_decide; naive_solver.
Qed.

Lemma dentry_refines ops : forall idx,
  dentry_wf idx ->
  dentry_wf (fold_left run_dentry_op ops idx) /\
  forward (fold_left run_dentry_op ops idx) = fold_left abs_dentry_op ops (forward idx).
Proof.
  induction ops as [|op ops IH]; intros idx Hwf; simpl; [done|].
  destruct (IH (run_dentry_op idx op) (run_dentry_op_wf idx op Hwf)) as [H1 H2].
  by rewrite H2, run_dentry_op_abs.
Qed.

Lemma all_inodes_spec idx i :
  dentry_wf idx -> i ∈ all_inodes idx <-> exists key, forward idx !! key = Some i.
Proof.
  intros Hwf. unfold all_inodes. rewrite merge_sort_Permutation, list_elem_of_fmap.
  split.
  - intros ([c set] & -> & Hin%elem_of_map_to_list). simpl.
    destruct (set_choose_L set) as [key Hk]; [by eapply Hwf|]. exists key. apply Hwf. eauto.
  - intros [key (set & Hs & Hk)%Hwf]. exists (i, set). split; [done|]. by apply elem_of_map_to_list.
Qed.

(** C17: The dentry index is a faithful bidirectional map: after any sequence of
    lookups, unlinks, renames and forgets, starting empty, it answers exactly as the
    plain map from (parent, name) to inode that the operations describe; the names
    it lists for an inode are precisely the names that resolve to it (hard links
    included); and the inodes it would bulk-invalidate are precisely those with a
    name, each listed once. *)
Theorem dentry_index_refines_map (ops : list dentry_op) :
  let idx := fold_left run_dentry_op ops dentry_new in
  let m := fold_left abs_dentry_op ops ∅ in
  (forall p n, dentry_get idx p n = m !! (p, n)) /\
  (forall i key, key ∈ names_for idx i <-> m !! key = Some i) /\
  (forall i, i ∈ all_inodes idx <-> exists key, m !! key = Some i) /\
  NoDup (all_inodes idx) /\
  dentry_len idx = size m.
Proof.
  intros idx m. destruct (dentry_refines ops dentry_new dentry_wf_new) as [Hwf Hf].
  change (forward dentry_new) with (∅ : gmap dentry Inode) in Hf. fold idx in Hwf, Hf. fold m in Hf.
  split_and!.
  - intros p n. unfold dentry_get. by rewrite Hf.
  - intros i key. by rewrite names_for_spec, Hf.
  - intros i. by rewrite all_inodes_spec, Hf.
  - unfold all_inodes. rewrite merge_sort_Permutation. apply NoDup_fst_map_to_list.
  - unfold dentry_len. by rewrite Hf.
Qed.

(** Following names one by one. *)
Fixpoint walk (idx : DentryIndex) (current : Inode) (segments : list Name) : option Inode :=
  match segments with
  | [] => Some current
  | seg :: rest => match dentry_get idx current seg with
                   | Some child => walk idx child rest
                   | None => None
                   end
  end.

Lemma resolve_segments_spec idx segs : forall current,
  let '(i, rem) := resolve_segments idx current segs in
  exists known, segs = known ++ rem /\ walk idx current known = Some i /\
    match rem with [] => True | s :: _ => dentry_get idx i s = None end.
Proof.
  induction segs as [|s segs IH]; intros current; simpl; [by exists []|].
  destruct (forward idx !! (current, s)) as [c|] eqn:Hc.
  - specialize (IH c). destruct (resolve_segments idx c segs) as [i rem].
    destruct IH as (known & -> & Hw & Hr). exists (s :: known). simpl.
    unfold dentry_get at 1. by rewrite Hc.
  - exists []. simpl. done.
Qed.

(** Path resolution finds the deepest cached ancestor: the path's names are
    the resolved ones followed by the returned rest, following the resolved names
    from the root leads to the returned inode, and the first name of the rest is
    not cached under it. *)
Theorem resolve_path_deepest idx root path :
  let '(i, rem) := resolve_path idx root path in
  exists known, omap normal_name path = known ++ rem /\ walk idx root known = Some i /\
    match rem with [] => True | s :: _ => dentry_get idx i s = None end.
Proof. apply resolve_segments_spec. Qed.

(** C39: Renaming an entry onto itself, a no-op on the host, makes the index
    forget the entry. *)
Theorem rename_onto_itself_forgets idx p n :
  dentry_get (dentry_rename idx p n p n) p n = None.
Proof.
  unfold dentry_get, dentry_rename, dentry_move. simpl. rewrite lookup_delete_eq. simpl.
  apply lookup_delete_eq.
Qed.
