(* ===== verification/FuseTypes.v ===== *)
(** * FUSE protocol constants (src/fuse.rs)

    The protocol versions, flag values, bit-flag types and opcodes of the FUSE
    wire protocol as the daemon uses them.  A [bitflags!] type is the list of its
    members; [from_bits_truncate] keeps the known bits of a raw value. *)

From S2P Require Import Prelude.

(** ** Versions, flags and flag types *)

Definition KERNEL_VERSION : Z := 7.
Definition KERNEL_MINOR_VERSION : Z := 38.
Definition MIN_KERNEL_MINOR_VERSION : Z := 27.
Definition FATTR_MODE : Z := 2 ^ 0.
Definition FATTR_UID : Z := 2 ^ 1.
Definition FATTR_GID : Z := 2 ^ 2.
Definition FATTR_SIZE : Z := 2 ^ 3.
Definition FATTR_ATIME : Z := 2 ^ 4.
Definition FATTR_MTIME : Z := 2 ^ 5.
Definition FATTR_FH : Z := 2 ^ 6.
Definition FATTR_ATIME_NOW : Z := 2 ^ 7.
Definition FATTR_MTIME_NOW : Z := 2 ^ 8.
Definition FATTR_LOCKOWNER : Z := 2 ^ 9.
Definition FATTR_CTIME : Z := 2 ^ 10.
Definition FATTR_KILL_SUIDGID : Z := 2 ^ 11.
Definition FOPEN_DIRECT_IO : Z := 2 ^ 0.
Definition FOPEN_KEEP_CACHE : Z := 2 ^ 1.
Definition FOPEN_NONSEEKABLE : Z := 2 ^ 2.
Definition FOPEN_CACHE_DIR : Z := 2 ^ 3.
Definition FOPEN_STREAM : Z := 2 ^ 4.
Definition FOPEN_NOFLUSH : Z := 2 ^ 5.
Definition FOPEN_PARALLEL_DIRECT_WRITES : Z := 2 ^ 6.
Definition ASYNC_READ : Z := 2 ^ 0.
Definition POSIX_LOCKS : Z := 2 ^ 1.
Definition FILE_OPS : Z := 2 ^ 2.
Definition ATOMIC_O_TRUNC : Z := 2 ^ 3.
Definition EXPORT_SUPPORT : Z := 2 ^ 4.
Definition BIG_WRITES : Z := 2 ^ 5.
Definition DONT_MASK : Z := 2 ^ 6.
Definition SPLICE_WRITE : Z := 2 ^ 7.
Definition SPLICE_MOVE : Z := 2 ^ 8.
Definition SPLICE_READ : Z := 2 ^ 9.
Definition FLOCK_LOCKS : Z := 2 ^ 10.
Definition HAS_IOCTL_DIR : Z := 2 ^ 11.
Definition AUTO_INVAL_DATA : Z := 2 ^ 12.
Definition DO_READDIRPLUS : Z := 2 ^ 13.
Definition READDIRPLUS_AUTO : Z := 2 ^ 14.
Definition ASYNC_DIO : Z := 2 ^ 15.
Definition WRITEBACK_CACHE : Z := 2 ^ 16.
Definition NO_OPEN_SUPPORT : Z := 2 ^ 17.
Definition PARALLEL_DIROPS : Z := 2 ^ 18.
Definition HANDLE_KILLPRIV : Z := 2 ^ 19.
Definition POSIX_ACL : Z := 2 ^ 20.
Definition ABORT_ERROR : Z := 2 ^ 21.
Definition MAX_PAGES : Z := 2 ^ 22.
Definition CACHE_SYMLINKS : Z := 2 ^ 23.
Definition NO_OPENDIR_SUPPORT : Z := 2 ^ 24.
Definition EXPLICIT_INVAL_DATA : Z := 2 ^ 25.
Definition SUBMOUNTS : Z := 2 ^ 27.
Definition HANDLE_KILLPRIV_V2 : Z := 2 ^ 28.
Definition SETXATTR_EXT : Z := 2 ^ 29.
Definition INIT_EXT : Z := 2 ^ 30.
Definition INIT_RESERVED : Z := 2 ^ 31.
Definition SECURITY_CTX : Z := 2 ^ 32.
Definition HAS_INODE_DAX : Z := 2 ^ 33.
Definition CREATE_SUPP_GROUP : Z := 2 ^ 34.
Definition DIRECT_IO_ALLOW_MMAP : Z := 2 ^ 36.
Definition ALLOW_IDMAP : Z := 2 ^ 40.
Definition RELEASE_FLUSH : Z := 2 ^ 0.
Definition RELEASE_FLOCK_UNLOCK : Z := 2 ^ 1.
Definition GETATTR_FH : Z := 2 ^ 0.
Definition READ_LOCKOWNER : Z := 2 ^ 1.
Definition WRITE_CACHE : Z := 2 ^ 0.
Definition WRITE_LOCKOWNER : Z := 2 ^ 1.
Definition WRITE_KILL_PRIV : Z := 2 ^ 2.
Definition FSYNC_FDATASYNC : Z := 2 ^ 0.
Definition ATTR_SUBMOUNT : Z := 2 ^ 0.
Definition ATTR_DAX : Z := 2 ^ 1.
Definition OPEN_KILL_SUIDGID : Z := 2 ^ 0.
Definition SETXATTR_ACL_KILL_SGID : Z := 2 ^ 0.
Definition MAX_NR_SECCTX : Z := 31.
Definition EXT_SUP_GROUPS : Z := 32.
Definition SetattrValid_MODE : Z := FATTR_MODE.
Definition SetattrValid_UID : Z := FATTR_UID.
Definition SetattrValid_GID : Z := FATTR_GID.
Definition SetattrValid_SIZE : Z := FATTR_SIZE.
Definition SetattrValid_ATIME : Z := FATTR_ATIME.
Definition SetattrValid_MTIME : Z := FATTR_MTIME.
Definition SetattrValid_ATIME_NOW : Z := FATTR_ATIME_NOW.
Definition SetattrValid_MTIME_NOW : Z := FATTR_MTIME_NOW.
Definition SetattrValid_CTIME : Z := FATTR_CTIME.
Definition SetattrValid_KILL_SUIDGID : Z := FATTR_KILL_SUIDGID.
Definition OpenOptions_DIRECT_IO : Z := FOPEN_DIRECT_IO.
Definition OpenOptions_KEEP_CACHE : Z := FOPEN_KEEP_CACHE.
Definition OpenOptions_NONSEEKABLE : Z := FOPEN_NONSEEKABLE.
Definition OpenOptions_CACHE_DIR : Z := FOPEN_CACHE_DIR.
Definition OpenOptions_STREAM : Z := FOPEN_CACHE_DIR.
Definition OpenOptions_NOFLUSH : Z := FOPEN_NOFLUSH.
Definition OpenOptions_PARALLEL_DIRECT_WRITES : Z := FOPEN_PARALLEL_DIRECT_WRITES.
Definition FsOptions_ASYNC_READ : Z := ASYNC_READ.
Definition FsOptions_POSIX_LOCKS : Z := POSIX_LOCKS.
Definition FsOptions_FILE_OPS : Z := FILE_OPS.
Definition FsOptions_ATOMIC_O_TRUNC : Z := ATOMIC_O_TRUNC.
Definition FsOptions_EXPORT_SUPPORT : Z := EXPORT_SUPPORT.
Definition FsOptions_BIG_WRITES : Z := BIG_WRITES.
Definition FsOptions_DONT_MASK : Z := DONT_MASK.
Definition FsOptions_SPLICE_WRITE : Z := SPLICE_WRITE.
Definition FsOptions_SPLICE_MOVE : Z := SPLICE_MOVE.
Definition FsOptions_SPLICE_READ : Z := SPLICE_READ.
Definition FsOptions_FLOCK_LOCKS : Z := FLOCK_LOCKS.
Definition FsOptions_HAS_IOCTL_DIR : Z := HAS_IOCTL_DIR.
Definition FsOptions_AUTO_INVAL_DATA : Z := AUTO_INVAL_DATA.
Definition FsOptions_DO_READDIRPLUS : Z := DO_READDIRPLUS.
Definition FsOptions_READDIRPLUS_AUTO : Z := READDIRPLUS_AUTO.
Definition FsOptions_ASYNC_DIO : Z := ASYNC_DIO.
Definition FsOptions_WRITEBACK_CACHE : Z := WRITEBACK_CACHE.
Definition FsOptions_ZERO_MESSAGE_OPEN : Z := NO_OPEN_SUPPORT.
Definition FsOptions_PARALLEL_DIROPS : Z := PARALLEL_DIROPS.
Definition FsOptions_HANDLE_KILLPRIV : Z := HANDLE_KILLPRIV.
Definition FsOptions_POSIX_ACL : Z := POSIX_ACL.
Definition FsOptions_ABORT_ERROR : Z := ABORT_ERROR.
Definition FsOptions_MAX_PAGES : Z := MAX_PAGES.
Definition FsOptions_CACHE_SYMLINKS : Z := CACHE_SYMLINKS.
Definition FsOptions_ZERO_MESSAGE_OPENDIR : Z := NO_OPENDIR_SUPPORT.
Definition FsOptions_EXPLICIT_INVAL_DATA : Z := EXPLICIT_INVAL_DATA.
Definition FsOptions_SUBMOUNTS : Z := SUBMOUNTS.
Definition FsOptions_HANDLE_KILLPRIV_V2 : Z := HANDLE_KILLPRIV_V2.
Definition FsOptions_SETXATTR_EXT : Z := SETXATTR_EXT.
Definition FsOptions_INIT_EXT : Z := INIT_EXT.
Definition FsOptions_INIT_RESERVED : Z := INIT_RESERVED.
Definition FsOptions_SECURITY_CTX : Z := SECURITY_CTX.
Definition FsOptions_HAS_INODE_DAX : Z := HAS_INODE_DAX.
Definition FsOptions_CREATE_SUPP_GROUP : Z := CREATE_SUPP_GROUP.
Definition FsOptions_DIRECT_IO_ALLOW_MMAP : Z := DIRECT_IO_ALLOW_MMAP.
Definition FsOptions_ALLOW_IDMAP : Z := ALLOW_IDMAP.
Definition SetxattrFlags_SETXATTR_ACL_KILL_SGID : Z := SETXATTR_ACL_KILL_SGID.
Definition SetattrValid_members : list Z :=
  [ SetattrValid_MODE; SetattrValid_UID; SetattrValid_GID; SetattrValid_SIZE;
    SetattrValid_ATIME; SetattrValid_MTIME; SetattrValid_ATIME_NOW; SetattrValid_MTIME_NOW;
    SetattrValid_CTIME; SetattrValid_KILL_SUIDGID ].
Definition OpenOptions_members : list Z :=
  [ OpenOptions_DIRECT_IO; OpenOptions_KEEP_CACHE; OpenOptions_NONSEEKABLE;
    OpenOptions_CACHE_DIR; OpenOptions_STREAM; OpenOptions_NOFLUSH;
    OpenOptions_PARALLEL_DIRECT_WRITES ].
Definition FsOptions_members : list Z :=
  [ FsOptions_ASYNC_READ; FsOptions_POSIX_LOCKS; FsOptions_FILE_OPS;
    FsOptions_ATOMIC_O_TRUNC; FsOptions_EXPORT_SUPPORT; FsOptions_BIG_WRITES;
    FsOptions_DONT_MASK; FsOptions_SPLICE_WRITE; FsOptions_SPLICE_MOVE;
    FsOptions_SPLICE_READ; FsOptions_FLOCK_LOCKS; FsOptions_HAS_IOCTL_DIR;
    FsOptions_AUTO_INVAL_DATA; FsOptions_DO_READDIRPLUS; FsOptions_READDIRPLUS_AUTO;
    FsOptions_ASYNC_DIO; FsOptions_WRITEBACK_CACHE; FsOptions_ZERO_MESSAGE_OPEN;
    FsOptions_PARALLEL_DIROPS; FsOptions_HANDLE_KILLPRIV; FsOptions_POSIX_ACL;
    FsOptions_ABORT_ERROR; FsOptions_MAX_PAGES; FsOptions_CACHE_SYMLINKS;
    FsOptions_ZERO_MESSAGE_OPENDIR; FsOptions_EXPLICIT_INVAL_DATA; FsOptions_SUBMOUNTS;
    FsOptions_HANDLE_KILLPRIV_V2; FsOptions_SETXATTR_EXT; FsOptions_INIT_EXT;
    FsOptions_INIT_RESERVED; FsOptions_SECURITY_CTX; FsOptions_HAS_INODE_DAX;
    FsOptions_CREATE_SUPP_GROUP; FsOptions_DIRECT_IO_ALLOW_MMAP; FsOptions_ALLOW_IDMAP ].
Definition SetxattrFlags_members : list Z :=
  [ SetxattrFlags_SETXATTR_ACL_KILL_SGID ].

(** The union of a flag type's members, and its [from_bits_truncate]. *)
Definition all_bits (members : list Z) : Z := fold_right Z.lor 0 members.

Definition from_bits_truncate (members : list Z) (bits : Z) : Z :=
  Z.land bits (all_bits members).

(** ** Opcodes *)

Inductive Opcode :=
| OpLookup | OpForget | OpGetattr | OpSetattr | OpReadlink | OpSymlink | OpMknod | OpMkdir
| OpUnlink | OpRmdir | OpRename | OpLink | OpOpen | OpRead | OpWrite | OpStatfs | OpRelease
| OpFsync | OpSetxattr | OpGetxattr | OpListxattr | OpRemovexattr | OpFlush | OpInit
| OpOpendir | OpReaddir | OpReleasedir | OpFsyncdir | OpGetlk | OpSetlk | OpSetlkw
| OpAccess | OpCreate | OpInterrupt | OpBmap | OpDestroy | OpIoctl | OpPoll | OpNotifyReply
| OpBatchForget | OpFallocate | OpReaddirplus | OpRename2 | OpLseek | OpCopyFileRange
| OpSetupMapping | OpRemoveMapping | OpSyncfs | OpTmpFile.

Definition opcode_value (o : Opcode) : Z :=
  match o with
  | OpLookup => 1
  | OpForget => 2
  | OpGetattr => 3
  | OpSetattr => 4
  | OpReadlink => 5
  | OpSymlink => 6
  | OpMknod => 8
  | OpMkdir => 9
  | OpUnlink => 10
  | OpRmdir => 11
  | OpRename => 12
  | OpLink => 13
  | OpOpen => 14
  | OpRead => 15
  | OpWrite => 16
  | OpStatfs => 17
  | OpRelease => 18
  | OpFsync => 20
  | OpSetxattr => 21
  | OpGetxattr => 22
  | OpListxattr => 23
  | OpRemovexattr => 24
  | OpFlush => 25
  | OpInit => 26
  | OpOpendir => 27
  | OpReaddir => 28
  | OpReleasedir => 29
  | OpFsyncdir => 30
  | OpGetlk => 31
  | OpSetlk => 32
  | OpSetlkw => 33
  | OpAccess => 34
  | OpCreate => 35
  | OpInterrupt => 36
  | OpBmap => 37
  | OpDestroy => 38
  | OpIoctl => 39
  | OpPoll => 40
  | OpNotifyReply => 41
  | OpBatchForget => 42
  | OpFallocate => 43
  | OpReaddirplus => 44
  | OpRename2 => 45
  | OpLseek => 46
  | OpCopyFileRange => 47
  | OpSetupMapping => 48
  | OpRemoveMapping => 49
  | OpSyncfs => 50
  | OpTmpFile => 51
  end.

Definition all_opcodes : list Opcode :=
  [ OpLookup; OpForget; OpGetattr; OpSetattr; OpReadlink; OpSymlink; OpMknod; OpMkdir;
    OpUnlink; OpRmdir; OpRename; OpLink; OpOpen; OpRead; OpWrite; OpStatfs; OpRelease;
    OpFsync; OpSetxattr; OpGetxattr; OpListxattr; OpRemovexattr; OpFlush; OpInit;
    OpOpendir; OpReaddir; OpReleasedir; OpFsyncdir; OpGetlk; OpSetlk; OpSetlkw; OpAccess;
    OpCreate; OpInterrupt; OpBmap; OpDestroy; OpIoctl; OpPoll; OpNotifyReply;
    OpBatchForget; OpFallocate; OpReaddirplus; OpRename2; OpLseek; OpCopyFileRange;
    OpSetupMapping; OpRemoveMapping; OpSyncfs; OpTmpFile ].

#[export] Instance Opcode_eq_dec : EqDecision Opcode.
Proof. solve_decision. Defined.

(** [Opcode::try_from], as generated by [enum_value!]: the first variant with
    the value. *)
Definition opcode_try_from (v : Z) : option Opcode :=
  head (filter (fun o => opcode_value o = v) all_opcodes).

Lemma all_opcodes_complete o : o ∈ all_opcodes.
Proof. apply (bool_decide_unpack _). by destruct o. Qed.

Lemma opcode_value_inj o o' : opcode_value o = opcode_value o' -> o = o'.
Proof. destruct o, o'; done || discriminate. Qed.

(** Decoding an opcode is exact: every request code the protocol defines is
    recognised as the variant with that number, and every other number is
    rejected. *)
Theorem opcode_roundtrip v o : opcode_try_from v = Some o <-> opcode_value o = v.
Proof.
  unfold opcode_try_from. split.
  - intros H. apply head_Some_elem_of, list_elem_of_filter in H. naive_solver.
  - intros <-. destruct (head _) as [o'|] eqn:Hh.
    + apply head_Some_elem_of, list_elem_of_filter in Hh as [Ho _].
      f_equal. by apply opcode_value_inj.
    + apply head_None in Hh. assert (o ∈ filter (fun o' => opcode_value o' = opcode_value o) all_opcodes)
        as Hin by (apply list_elem_of_filter; split; [done|apply all_opcodes_complete]).
      rewrite Hh in Hin. set_solver.
Qed.

(** ** Extension types *)

Inductive ExtType := SecCtx (n : Z) | SupGroups.


Definition ext_type_try_from (value : Z) : option ExtType :=
  if value <=? MAX_NR_SECCTX then Some (SecCtx value)
  else if value =? EXT_SUP_GROUPS then Some SupGroups
  else None.

(** ** Bits of flag types *)

Lemma testbit_all_bits members i :
  Z.testbit (all_bits members) i = existsb (fun m => Z.testbit m i) members.
Proof.
  induction members as [|m members IH]; simpl; [apply Z.bits_0|]. by rewrite Z.lor_spec, IH.
Qed.

Lemma from_bits_truncate_idemp members bits :
  from_bits_truncate members (from_bits_truncate members bits) = from_bits_truncate members bits.
Proof. unfold from_bits_truncate. by rewrite <- Z.land_assoc, Z.land_diag. Qed.
