(* ===== verification/FuseWire.v ===== *)
(** * FUSE wire structures (src/fuse.rs)

    The C structures of the protocol and their byte images.  All of them spell
    their padding out, so the image of a structure is the concatenation of its
    fields' little-endian images.  [ByteValued] is the interface the rest of the
    daemon relies on ([vm_memory::ByteValued] in the source); the two round-trip
    theorems are proved once, against the interface, for every instance. *)

From S2P Require Import Prelude.

(** ** Fields *)

(** Unsigned and two's complement fields of a width in bytes. *)
Inductive field_ty := U (bytes : nat) | I (bytes : nat).

Definition field_size (t : field_ty) : nat := match t with U n => n | I n => n end.

Definition field_modulus (t : field_ty) : Z := 256 ^ Z.of_nat (field_size t).

Definition field_ok (t : field_ty) (z : Z) : Prop :=
  match t with
  | U _ => 0 <= z < field_modulus t
  | I _ => - field_modulus t <= 2 * z < field_modulus t
  end.

Definition encode_field (t : field_ty) (z : Z) : list Z :=
  le_bytes (field_size t) (z mod field_modulus t).

Definition decode_field (t : field_ty) (l : list Z) : Z :=
  let v := of_le l in
  match t with
  | U _ => v
  | I _ => if field_modulus t <=? 2 * v then v - field_modulus t else v
  end.

Fixpoint encode_fields (ts : list field_ty) (zs : list Z) : list Z :=
  match ts, zs with
  | t :: ts', z :: zs' => encode_field t z ++ encode_fields ts' zs'
  | _, _ => []
  end.

Fixpoint decode_fields (ts : list field_ty) (l : list Z) : list Z :=
  match ts with
  | [] => []
  | t :: ts' => decode_field t (take (field_size t) l)
                  :: decode_fields ts' (drop (field_size t) l)
  end.

Definition fields_size (ts : list field_ty) : nat := sum_list (field_size <$> ts).

(** ** The interface *)

Class ByteValued (A : Type) := {
  layout : list field_ty;
  to_fields : A -> list Z;
  of_fields : list Z -> option A;
}.
Arguments layout A {_}.

Class ByteValuedLaws (A : Type) `{ByteValued A} := {
  of_to_fields (a : A) : of_fields (to_fields a) = Some a;
  to_of_fields l (a : A) : of_fields l = Some a -> to_fields a = l;
  to_fields_length (a : A) : length (to_fields a) = length (layout A);
  of_fields_total l : length l = length (layout A) -> is_Some (of_fields l : option A);
}.

Definition size_of (A : Type) `{ByteValued A} : nat := fields_size (layout A).

(** [ByteValued::as_slice]. *)
Definition as_slice {A} `{ByteValued A} (a : A) : list Z := encode_fields (layout A) (to_fields a).

(** [ByteValued::from_slice]. *)
Definition from_slice {A} `{ByteValued A} (l : list Z) : option A :=
  if decide (length l = size_of A) then of_fields (decode_fields (layout A) l) else None.

(** Every field of a structure fits its type. *)
Definition in_range {A} `{ByteValued A} (a : A) : Prop :=
  Forall2 field_ok (layout A) (to_fields a).

Ltac byte_valued_laws :=
  split;
  [ intros x;
    repeat match goal with
    | y : ?T |- _ => lazymatch T with Z => fail | list _ => fail | _ => destruct y end
    end; reflexivity
  | intros l a Hl; cbn [of_fields] in Hl;
    repeat (match goal with l : list Z |- _ => destruct l end; try discriminate Hl);
    injection Hl as <-; reflexivity
  | intros []; reflexivity
  | intros l Hl; cbn [layout] in Hl;
    repeat (match goal with l : list Z |- _ => destruct l end; try discriminate Hl);
    eexists; reflexivity ].

(** ** Structures *)

Record Attr := {
  attr_ino : Z; attr_size : Z; attr_blocks : Z; attr_atime : Z; attr_mtime : Z;
  attr_ctime : Z; attr_atimensec : Z; attr_mtimensec : Z; attr_ctimensec : Z;
  attr_mode : Z; attr_nlink : Z; attr_uid : Z; attr_gid : Z; attr_rdev : Z;
  attr_blksize : Z; attr_flags : Z;
}.

#[export] Instance attr_bytes : ByteValued Attr := {|
  layout := [U 8; U 8; U 8; U 8; U 8; U 8; U 4; U 4; U 4; U 4; U 4; U 4; U 4; U 4; U 4; U 4];
  to_fields x :=
    [ attr_ino x; attr_size x; attr_blocks x; attr_atime x; attr_mtime x; attr_ctime x;
      attr_atimensec x; attr_mtimensec x; attr_ctimensec x; attr_mode x; attr_nlink x;
      attr_uid x; attr_gid x; attr_rdev x; attr_blksize x; attr_flags x ];
  of_fields l := match l with
    | [f_ino; f_size; f_blocks; f_atime; f_mtime; f_ctime; f_atimensec; f_mtimensec;
      f_ctimensec; f_mode; f_nlink; f_uid; f_gid; f_rdev; f_blksize; f_flags] =>
        Some {| attr_ino := f_ino; attr_size := f_size; attr_blocks := f_blocks;
             attr_atime := f_atime; attr_mtime := f_mtime; attr_ctime := f_ctime;
             attr_atimensec := f_atimensec; attr_mtimensec := f_mtimensec;
             attr_ctimensec := f_ctimensec; attr_mode := f_mode; attr_nlink := f_nlink;
             attr_uid := f_uid; attr_gid := f_gid; attr_rdev := f_rdev;
             attr_blksize := f_blksize; attr_flags := f_flags |}
    | _ => None end;
|}.
#[export] Instance attr_laws : ByteValuedLaws Attr.
Proof. byte_valued_laws. Qed.

Record Kstatfs := {
  kstatfs_blocks : Z; kstatfs_bfree : Z; kstatfs_bavail : Z; kstatfs_files : Z;
  kstatfs_ffree : Z; kstatfs_bsize : Z; kstatfs_namelen : Z; kstatfs_frsize : Z;
  kstatfs_padding : Z; kstatfs_spare_0 : Z; kstatfs_spare_1 : Z; kstatfs_spare_2 : Z;
  kstatfs_spare_3 : Z; kstatfs_spare_4 : Z; kstatfs_spare_5 : Z;
}.

#[export] Instance kstatfs_bytes : ByteValued Kstatfs := {|
  layout := [U 8; U 8; U 8; U 8; U 8; U 4; U 4; U 4; U 4; U 4; U 4; U 4; U 4; U 4; U 4];
  to_fields x :=
    [ kstatfs_blocks x; kstatfs_bfree x; kstatfs_bavail x; kstatfs_files x;
      kstatfs_ffree x; kstatfs_bsize x; kstatfs_namelen x; kstatfs_frsize x;
      kstatfs_padding x; kstatfs_spare_0 x; kstatfs_spare_1 x; kstatfs_spare_2 x;
      kstatfs_spare_3 x; kstatfs_spare_4 x; kstatfs_spare_5 x ];
  of_fields l := match l with
    | [f_blocks; f_bfree; f_bavail; f_files; f_ffree; f_bsize; f_namelen; f_frsize;
      f_padding; f_spare_0; f_spare_1; f_spare_2; f_spare_3; f_spare_4; f_spare_5] =>
        Some {| kstatfs_blocks := f_blocks; kstatfs_bfree := f_bfree;
             kstatfs_bavail := f_bavail; kstatfs_files := f_files;
             kstatfs_ffree := f_ffree; kstatfs_bsize := f_bsize;
             kstatfs_namelen := f_namelen; kstatfs_frsize := f_frsize;
             kstatfs_padding := f_padding; kstatfs_spare_0 := f_spare_0;
             kstatfs_spare_1 := f_spare_1; kstatfs_spare_2 := f_spare_2;
             kstatfs_spare_3 := f_spare_3; kstatfs_spare_4 := f_spare_4;
             kstatfs_spare_5 := f_spare_5 |}
    | _ => None end;
|}.
#[export] Instance kstatfs_laws : ByteValuedLaws Kstatfs.
Proof. byte_valued_laws. Qed.

Record FileLock := {
  file_lock_start : Z; file_lock_end : Z; file_lock_type_ : Z; file_lock_pid : Z;
}.

#[export] Instance file_lock_bytes : ByteValued FileLock := {|
  layout := [U 8; U 8; U 4; U 4];
  to_fields x :=
    [ file_lock_start x; file_lock_end x; file_lock_type_ x; file_lock_pid x ];
  of_fields l := match l with
    | [f_start; f_end; f_type_; f_pid] =>
        Some {| file_lock_start := f_start; file_lock_end := f_end;
             file_lock_type_ := f_type_; file_lock_pid := f_pid |}
    | _ => None end;
|}.
#[export] Instance file_lock_laws : ByteValuedLaws FileLock.
Proof. byte_valued_laws. Qed.

Record EntryOut := {
  entry_out_nodeid : Z; entry_out_generation : Z; entry_out_entry_valid : Z;
  entry_out_attr_valid : Z; entry_out_entry_valid_nsec : Z; entry_out_attr_valid_nsec : Z;
  entry_out_attr : Attr;
}.

#[export] Instance entry_out_bytes : ByteValued EntryOut := {|
  layout := [U 8; U 8; U 8; U 8; U 4; U 4; U 8; U 8; U 8; U 8; U 8; U 8; U 4; U 4; U 4; U 4; U 4;
    U 4; U 4; U 4; U 4; U 4];
  to_fields x :=
    [ entry_out_nodeid x; entry_out_generation x; entry_out_entry_valid x;
      entry_out_attr_valid x; entry_out_entry_valid_nsec x; entry_out_attr_valid_nsec x;
      attr_ino (entry_out_attr x); attr_size (entry_out_attr x);
      attr_blocks (entry_out_attr x); attr_atime (entry_out_attr x);
      attr_mtime (entry_out_attr x); attr_ctime (entry_out_attr x);
      attr_atimensec (entry_out_attr x); attr_mtimensec (entry_out_attr x);
      attr_ctimensec (entry_out_attr x); attr_mode (entry_out_attr x);
      attr_nlink (entry_out_attr x); attr_uid (entry_out_attr x);
      attr_gid (entry_out_attr x); attr_rdev (entry_out_attr x);
      attr_blksize (entry_out_attr x); attr_flags (entry_out_attr x) ];
  of_fields l := match l with
    | [f_nodeid; f_generation; f_entry_valid; f_attr_valid; f_entry_valid_nsec;
      f_attr_valid_nsec; f_attr_ino; f_attr_size; f_attr_blocks; f_attr_atime;
      f_attr_mtime; f_attr_ctime; f_attr_atimensec; f_attr_mtimensec; f_attr_ctimensec;
      f_attr_mode; f_attr_nlink; f_attr_uid; f_attr_gid; f_attr_rdev; f_attr_blksize;
      f_attr_flags] =>
        Some {| entry_out_nodeid := f_nodeid; entry_out_generation := f_generation;
             entry_out_entry_valid := f_entry_valid; entry_out_attr_valid := f_attr_valid;
             entry_out_entry_valid_nsec := f_entry_valid_nsec;
             entry_out_attr_valid_nsec := f_attr_valid_nsec;
             entry_out_attr := {| attr_ino := f_attr_ino; attr_size := f_attr_size;
             attr_blocks := f_attr_blocks; attr_atime := f_attr_atime;
             attr_mtime := f_attr_mtime; attr_ctime := f_attr_ctime;
             attr_atimensec := f_attr_atimensec; attr_mtimensec := f_attr_mtimensec;
             attr_ctimensec := f_attr_ctimensec; attr_mode := f_attr_mode;
             attr_nlink := f_attr_nlink; attr_uid := f_attr_uid; attr_gid := f_attr_gid;
             attr_rdev := f_attr_rdev; attr_blksize := f_attr_blksize;
             attr_flags := f_attr_flags |} |}
    | _ => None end;
|}.
#[export] Instance entry_out_laws : ByteValuedLaws EntryOut.
Proof. byte_valued_laws. Qed.

Record ForgetIn := {
  forget_in_nlookup : Z;
}.

#[export] Instance forget_in_bytes : ByteValued ForgetIn := {|
  layout := [U 8];
  to_fields x :=
    [ forget_in_nlookup x ];
  of_fields l := match l with
    | [f_nlookup] =>
        Some {| forget_in_nlookup := f_nlookup |}
    | _ => None end;
|}.
#[export] Instance forget_in_laws : ByteValuedLaws ForgetIn.
Proof. byte_valued_laws. Qed.

Record ForgetOne := {
  forget_one_nodeid : Z; forget_one_nlookup : Z;
}.

#[export] Instance forget_one_bytes : ByteValued ForgetOne := {|
  layout := [U 8; U 8];
  to_fields x :=
    [ forget_one_nodeid x; forget_one_nlookup x ];
  of_fields l := match l with
    | [f_nodeid; f_nlookup] =>
        Some {| forget_one_nodeid := f_nodeid; forget_one_nlookup := f_nlookup |}
    | _ => None end;
|}.
#[export] Instance forget_one_laws : ByteValuedLaws ForgetOne.
Proof. byte_valued_laws. Qed.

Record BatchForgetIn := {
  batch_forget_in_count : Z; batch_forget_in_dummy : Z;
}.

#[export] Instance batch_forget_in_bytes : ByteValued BatchForgetIn := {|
  layout := [U 4; U 4];
  to_fields x :=
    [ batch_forget_in_count x; batch_forget_in_dummy x ];
  of_fields l := match l with
    | [f_count; f_dummy] =>
        Some {| batch_forget_in_count := f_count; batch_forget_in_dummy := f_dummy |}
    | _ => None end;
|}.
#[export] Instance batch_forget_in_laws : ByteValuedLaws BatchForgetIn.
Proof. byte_valued_laws. Qed.

Record GetattrIn := {
  getattr_in_flags : Z; getattr_in_dummy : Z; getattr_in_fh : Z;
}.

#[export] Instance getattr_in_bytes : ByteValued GetattrIn := {|
  layout := [U 4; U 4; U 8];
  to_fields x :=
    [ getattr_in_flags x; getattr_in_dummy x; getattr_in_fh x ];
  of_fields l := match l with
    | [f_flags; f_dummy; f_fh] =>
        Some {| getattr_in_flags := f_flags; getattr_in_dummy := f_dummy;
             getattr_in_fh := f_fh |}
    | _ => None end;
|}.
#[export] Instance getattr_in_laws : ByteValuedLaws GetattrIn.
Proof. byte_valued_laws. Qed.

Record AttrOut := {
  attr_out_attr_valid : Z; attr_out_attr_valid_nsec : Z; attr_out_dummy : Z;
  attr_out_attr : Attr;
}.

#[export] Instance attr_out_bytes : ByteValued AttrOut := {|
  layout := [U 8; U 4; U 4; U 8; U 8; U 8; U 8; U 8; U 8; U 4; U 4; U 4; U 4; U 4; U 4; U 4; U 4;
    U 4; U 4];
  to_fields x :=
    [ attr_out_attr_valid x; attr_out_attr_valid_nsec x; attr_out_dummy x;
      attr_ino (attr_out_attr x); attr_size (attr_out_attr x);
      attr_blocks (attr_out_attr x); attr_atime (attr_out_attr x);
      attr_mtime (attr_out_attr x); attr_ctime (attr_out_attr x);
      attr_atimensec (attr_out_attr x); attr_mtimensec (attr_out_attr x);
      attr_ctimensec (attr_out_attr x); attr_mode (attr_out_attr x);
      attr_nlink (attr_out_attr x); attr_uid (attr_out_attr x); attr_gid (attr_out_attr x);
      attr_rdev (attr_out_attr x); attr_blksize (attr_out_attr x);
      attr_flags (attr_out_attr x) ];
  of_fields l := match l with
    | [f_attr_valid; f_attr_valid_nsec; f_dummy; f_attr_ino; f_attr_size; f_attr_blocks;
      f_attr_atime; f_attr_mtime; f_attr_ctime; f_attr_atimensec; f_attr_mtimensec;
      f_attr_ctimensec; f_attr_mode; f_attr_nlink; f_attr_uid; f_attr_gid; f_attr_rdev;
      f_attr_blksize; f_attr_flags] =>
        Some {| attr_out_attr_valid := f_attr_valid;
             attr_out_attr_valid_nsec := f_attr_valid_nsec; attr_out_dummy := f_dummy;
             attr_out_attr := {| attr_ino := f_attr_ino; attr_size := f_attr_size;
             attr_blocks := f_attr_blocks; attr_atime := f_attr_atime;
             attr_mtime := f_attr_mtime; attr_ctime := f_attr_ctime;
             attr_atimensec := f_attr_atimensec; attr_mtimensec := f_attr_mtimensec;
             attr_ctimensec := f_attr_ctimensec; attr_mode := f_attr_mode;
             attr_nlink := f_attr_nlink; attr_uid := f_attr_uid; attr_gid := f_attr_gid;
             attr_rdev := f_attr_rdev; attr_blksize := f_attr_blksize;
             attr_flags := f_attr_flags |} |}
    | _ => None end;
|}.
#[export] Instance attr_out_laws : ByteValuedLaws AttrOut.
Proof. byte_valued_laws. Qed.

Record MknodIn := {
  mknod_in_mode : Z; mknod_in_rdev : Z; mknod_in_umask : Z; mknod_in_padding : Z;
}.

#[export] Instance mknod_in_bytes : ByteValued MknodIn := {|
  layout := [U 4; U 4; U 4; U 4];
  to_fields x :=
    [ mknod_in_mode x; mknod_in_rdev x; mknod_in_umask x; mknod_in_padding x ];
  of_fields l := match l with
    | [f_mode; f_rdev; f_umask; f_padding] =>
        Some {| mknod_in_mode := f_mode; mknod_in_rdev := f_rdev;
             mknod_in_umask := f_umask; mknod_in_padding := f_padding |}
    | _ => None end;
|}.
#[export] Instance mknod_in_laws : ByteValuedLaws MknodIn.
Proof. byte_valued_laws. Qed.

Record MkdirIn := {
  mkdir_in_mode : Z; mkdir_in_umask : Z;
}.

#[export] Instance mkdir_in_bytes : ByteValued MkdirIn := {|
  layout := [U 4; U 4];
  to_fields x :=
    [ mkdir_in_mode x; mkdir_in_umask x ];
  of_fields l := match l with
    | [f_mode; f_umask] =>
        Some {| mkdir_in_mode := f_mode; mkdir_in_umask := f_umask |}
    | _ => None end;
|}.
#[export] Instance mkdir_in_laws : ByteValuedLaws MkdirIn.
Proof. byte_valued_laws. Qed.

Record RenameIn := {
  rename_in_newdir : Z;
}.

#[export] Instance rename_in_bytes : ByteValued RenameIn := {|
  layout := [U 8];
  to_fields x :=
    [ rename_in_newdir x ];
  of_fields l := match l with
    | [f_newdir] =>
        Some {| rename_in_newdir := f_newdir |}
    | _ => None end;
|}.
#[export] Instance rename_in_laws : ByteValuedLaws RenameIn.
Proof. byte_valued_laws. Qed.

Record Rename2In := {
  rename2_in_newdir : Z; rename2_in_flags : Z; rename2_in_padding : Z;
}.

#[export] Instance rename2_in_bytes : ByteValued Rename2In := {|
  layout := [U 8; U 4; U 4];
  to_fields x :=
    [ rename2_in_newdir x; rename2_in_flags x; rename2_in_padding x ];
  of_fields l := match l with
    | [f_newdir; f_flags; f_padding] =>
        Some {| rename2_in_newdir := f_newdir; rename2_in_flags := f_flags;
             rename2_in_padding := f_padding |}
    | _ => None end;
|}.
#[export] Instance rename2_in_laws : ByteValuedLaws Rename2In.
Proof. byte_valued_laws. Qed.

Record LinkIn := {
  link_in_oldnodeid : Z;
}.

#[export] Instance link_in_bytes : ByteValued LinkIn := {|
  layout := [U 8];
  to_fields x :=
    [ link_in_oldnodeid x ];
  of_fields l := match l with
    | [f_oldnodeid] =>
        Some {| link_in_oldnodeid := f_oldnodeid |}
    | _ => None end;
|}.
#[export] Instance link_in_laws : ByteValuedLaws LinkIn.
Proof. byte_valued_laws. Qed.

Record SetattrIn := {
  setattr_in_valid : Z; setattr_in_padding : Z; setattr_in_fh : Z; setattr_in_size : Z;
  setattr_in_lock_owner : Z; setattr_in_atime : Z; setattr_in_mtime : Z;
  setattr_in_ctime : Z; setattr_in_atimensec : Z; setattr_in_mtimensec : Z;
  setattr_in_ctimensec : Z; setattr_in_mode : Z; setattr_in_unused4 : Z;
  setattr_in_uid : Z; setattr_in_gid : Z; setattr_in_unused5 : Z;
}.

#[export] Instance setattr_in_bytes : ByteValued SetattrIn := {|
  layout := [U 4; U 4; U 8; U 8; U 8; U 8; U 8; U 8; U 4; U 4; U 4; U 4; U 4; U 4; U 4; U 4];
  to_fields x :=
    [ setattr_in_valid x; setattr_in_padding x; setattr_in_fh x; setattr_in_size x;
      setattr_in_lock_owner x; setattr_in_atime x; setattr_in_mtime x; setattr_in_ctime x;
      setattr_in_atimensec x; setattr_in_mtimensec x; setattr_in_ctimensec x;
      setattr_in_mode x; setattr_in_unused4 x; setattr_in_uid x; setattr_in_gid x;
      setattr_in_unused5 x ];
  of_fields l := match l with
    | [f_valid; f_padding; f_fh; f_size; f_lock_owner; f_atime; f_mtime; f_ctime;
      f_atimensec; f_mtimensec; f_ctimensec; f_mode; f_unused4; f_uid; f_gid; f_unused5] =>
        Some {| setattr_in_valid := f_valid; setattr_in_padding := f_padding;
             setattr_in_fh := f_fh; setattr_in_size := f_size;
             setattr_in_lock_owner := f_lock_owner; setattr_in_atime := f_atime;
             setattr_in_mtime := f_mtime; setattr_in_ctime := f_ctime;
             setattr_in_atimensec := f_atimensec; setattr_in_mtimensec := f_mtimensec;
             setattr_in_ctimensec := f_ctimensec; setattr_in_mode := f_mode;
             setattr_in_unused4 := f_unused4; setattr_in_uid := f_uid;
             setattr_in_gid := f_gid; setattr_in_unused5 := f_unused5 |}
    | _ => None end;
|}.
#[export] Instance setattr_in_laws : ByteValuedLaws SetattrIn.
Proof. byte_valued_laws. Qed.

Record OpenIn := {
  open_in_flags : Z; open_in_open_flags : Z;
}.

#[export] Instance open_in_bytes : ByteValued OpenIn := {|
  layout := [U 4; U 4];
  to_fields x :=
    [ open_in_flags x; open_in_open_flags x ];
  of_fields l := match l with
    | [f_flags; f_open_flags] =>
        Some {| open_in_flags := f_flags; open_in_open_flags := f_open_flags |}
    | _ => None end;
|}.
#[export] Instance open_in_laws : ByteValuedLaws OpenIn.
Proof. byte_valued_laws. Qed.

Record CreateIn := {
  create_in_flags : Z; create_in_mode : Z; create_in_umask : Z; create_in_open_flags : Z;
}.

#[export] Instance create_in_bytes : ByteValued CreateIn := {|
  layout := [U 4; U 4; U 4; U 4];
  to_fields x :=
    [ create_in_flags x; create_in_mode x; create_in_umask x; create_in_open_flags x ];
  of_fields l := match l with
    | [f_flags; f_mode; f_umask; f_open_flags] =>
        Some {| create_in_flags := f_flags; create_in_mode := f_mode;
             create_in_umask := f_umask; create_in_open_flags := f_open_flags |}
    | _ => None end;
|}.
#[export] Instance create_in_laws : ByteValuedLaws CreateIn.
Proof. byte_valued_laws. Qed.

Record OpenOut := {
  open_out_fh : Z; open_out_open_flags : Z; open_out_padding : Z;
}.

#[export] Instance open_out_bytes : ByteValued OpenOut := {|
  layout := [U 8; U 4; U 4];
  to_fields x :=
    [ open_out_fh x; open_out_open_flags x; open_out_padding x ];
  of_fields l := match l with
    | [f_fh; f_open_flags; f_padding] =>
        Some {| open_out_fh := f_fh; open_out_open_flags := f_open_flags;
             open_out_padding := f_padding |}
    | _ => None end;
|}.
#[export] Instance open_out_laws : ByteValuedLaws OpenOut.
Proof. byte_valued_laws. Qed.

Record ReleaseIn := {
  release_in_fh : Z; release_in_flags : Z; release_in_release_flags : Z;
  release_in_lock_owner : Z;
}.

#[export] Instance release_in_bytes : ByteValued ReleaseIn := {|
  layout := [U 8; U 4; U 4; U 8];
  to_fields x :=
    [ release_in_fh x; release_in_flags x; release_in_release_flags x;
      release_in_lock_owner x ];
  of_fields l := match l with
    | [f_fh; f_flags; f_release_flags; f_lock_owner] =>
        Some {| release_in_fh := f_fh; release_in_flags := f_flags;
             release_in_release_flags := f_release_flags;
             release_in_lock_owner := f_lock_owner |}
    | _ => None end;
|}.
#[export] Instance release_in_laws : ByteValuedLaws ReleaseIn.
Proof. byte_valued_laws. Qed.

Record FlushIn := {
  flush_in_fh : Z; flush_in_unused : Z; flush_in_padding : Z; flush_in_lock_owner : Z;
}.

#[export] Instance flush_in_bytes : ByteValued FlushIn := {|
  layout := [U 8; U 4; U 4; U 8];
  to_fields x :=
    [ flush_in_fh x; flush_in_unused x; flush_in_padding x; flush_in_lock_owner x ];
  of_fields l := match l with
    | [f_fh; f_unused; f_padding; f_lock_owner] =>
        Some {| flush_in_fh := f_fh; flush_in_unused := f_unused;
             flush_in_padding := f_padding; flush_in_lock_owner := f_lock_owner |}
    | _ => None end;
|}.
#[export] Instance flush_in_laws : ByteValuedLaws FlushIn.
Proof. byte_valued_laws. Qed.

Record ReadIn := {
  read_in_fh : Z; read_in_offset : Z; read_in_size : Z; read_in_read_flags : Z;
  read_in_lock_owner : Z; read_in_flags : Z; read_in_padding : Z;
}.

#[export] Instance read_in_bytes : ByteValued ReadIn := {|
  layout := [U 8; U 8; U 4; U 4; U 8; U 4; U 4];
  to_fields x :=
    [ read_in_fh x; read_in_offset x; read_in_size x; read_in_read_flags x;
      read_in_lock_owner x; read_in_flags x; read_in_padding x ];
  of_fields l := match l with
    | [f_fh; f_offset; f_size; f_read_flags; f_lock_owner; f_flags; f_padding] =>
        Some {| read_in_fh := f_fh; read_in_offset := f_offset; read_in_size := f_size;
             read_in_read_flags := f_read_flags; read_in_lock_owner := f_lock_owner;
             read_in_flags := f_flags; read_in_padding := f_padding |}
    | _ => None end;
|}.
#[export] Instance read_in_laws : ByteValuedLaws ReadIn.
Proof. byte_valued_laws. Qed.

Record WriteIn := {
  write_in_fh : Z; write_in_offset : Z; write_in_size : Z; write_in_write_flags : Z;
  write_in_lock_owner : Z; write_in_flags : Z; write_in_padding : Z;
}.

#[export] Instance write_in_bytes : ByteValued WriteIn := {|
  layout := [U 8; U 8; U 4; U 4; U 8; U 4; U 4];
  to_fields x :=
    [ write_in_fh x; write_in_offset x; write_in_size x; write_in_write_flags x;
      write_in_lock_owner x; write_in_flags x; write_in_padding x ];
  of_fields l := match l with
    | [f_fh; f_offset; f_size; f_write_flags; f_lock_owner; f_flags; f_padding] =>
        Some {| write_in_fh := f_fh; write_in_offset := f_offset; write_in_size := f_size;
             write_in_write_flags := f_write_flags; write_in_lock_owner := f_lock_owner;
             write_in_flags := f_flags; write_in_padding := f_padding |}
    | _ => None end;
|}.
#[export] Instance write_in_laws : ByteValuedLaws WriteIn.
Proof. byte_valued_laws. Qed.

Record WriteOut := {
  write_out_size : Z; write_out_padding : Z;
}.

#[export] Instance write_out_bytes : ByteValued WriteOut := {|
  layout := [U 4; U 4];
  to_fields x :=
    [ write_out_size x; write_out_padding x ];
  of_fields l := match l with
    | [f_size; f_padding] =>
        Some {| write_out_size := f_size; write_out_padding := f_padding |}
    | _ => None end;
|}.
#[export] Instance write_out_laws : ByteValuedLaws WriteOut.
Proof. byte_valued_laws. Qed.

Record StatfsOut := {
  statfs_out_st : Kstatfs;
}.

#[export] Instance statfs_out_bytes : ByteValued StatfsOut := {|
  layout := [U 8; U 8; U 8; U 8; U 8; U 4; U 4; U 4; U 4; U 4; U 4; U 4; U 4; U 4; U 4];
  to_fields x :=
    [ kstatfs_blocks (statfs_out_st x); kstatfs_bfree (statfs_out_st x);
      kstatfs_bavail (statfs_out_st x); kstatfs_files (statfs_out_st x);
      kstatfs_ffree (statfs_out_st x); kstatfs_bsize (statfs_out_st x);
      kstatfs_namelen (statfs_out_st x); kstatfs_frsize (statfs_out_st x);
      kstatfs_padding (statfs_out_st x); kstatfs_spare_0 (statfs_out_st x);
      kstatfs_spare_1 (statfs_out_st x); kstatfs_spare_2 (statfs_out_st x);
      kstatfs_spare_3 (statfs_out_st x); kstatfs_spare_4 (statfs_out_st x);
      kstatfs_spare_5 (statfs_out_st x) ];
  of_fields l := match l with
    | [f_st_blocks; f_st_bfree; f_st_bavail; f_st_files; f_st_ffree; f_st_bsize;
      f_st_namelen; f_st_frsize; f_st_padding; f_st_spare_0; f_st_spare_1; f_st_spare_2;
      f_st_spare_3; f_st_spare_4; f_st_spare_5] =>
        Some {| statfs_out_st := {| kstatfs_blocks := f_st_blocks;
             kstatfs_bfree := f_st_bfree; kstatfs_bavail := f_st_bavail;
             kstatfs_files := f_st_files; kstatfs_ffree := f_st_ffree;
             kstatfs_bsize := f_st_bsize; kstatfs_namelen := f_st_namelen;
             kstatfs_frsize := f_st_frsize; kstatfs_padding := f_st_padding;
             kstatfs_spare_0 := f_st_spare_0; kstatfs_spare_1 := f_st_spare_1;
             kstatfs_spare_2 := f_st_spare_2; kstatfs_spare_3 := f_st_spare_3;
             kstatfs_spare_4 := f_st_spare_4; kstatfs_spare_5 := f_st_spare_5 |} |}
    | _ => None end;
|}.
#[export] Instance statfs_out_laws : ByteValuedLaws StatfsOut.
Proof. byte_valued_laws. Qed.

Record FsyncIn := {
  fsync_in_fh : Z; fsync_in_fsync_flags : Z; fsync_in_padding : Z;
}.

#[export] Instance fsync_in_bytes : ByteValued FsyncIn := {|
  layout := [U 8; U 4; U 4];
  to_fields x :=
    [ fsync_in_fh x; fsync_in_fsync_flags x; fsync_in_padding x ];
  of_fields l := match l with
    | [f_fh; f_fsync_flags; f_padding] =>
        Some {| fsync_in_fh := f_fh; fsync_in_fsync_flags := f_fsync_flags;
             fsync_in_padding := f_padding |}
    | _ => None end;
|}.
#[export] Instance fsync_in_laws : ByteValuedLaws FsyncIn.
Proof. byte_valued_laws. Qed.

Record SetxattrIn := {
  setxattr_in_size : Z; setxattr_in_flags : Z; setxattr_in_setxattr_flags : Z;
  setxattr_in_padding : Z;
}.

#[export] Instance setxattr_in_bytes : ByteValued SetxattrIn := {|
  layout := [U 4; U 4; U 4; U 4];
  to_fields x :=
    [ setxattr_in_size x; setxattr_in_flags x; setxattr_in_setxattr_flags x;
      setxattr_in_padding x ];
  of_fields l := match l with
    | [f_size; f_flags; f_setxattr_flags; f_padding] =>
        Some {| setxattr_in_size := f_size; setxattr_in_flags := f_flags;
             setxattr_in_setxattr_flags := f_setxattr_flags;
             setxattr_in_padding := f_padding |}
    | _ => None end;
|}.
#[export] Instance setxattr_in_laws : ByteValuedLaws SetxattrIn.
Proof. byte_valued_laws. Qed.

Record SetxattrInCompat := {
  setxattr_in_compat_size : Z; setxattr_in_compat_flags : Z;
}.

#[export] Instance setxattr_in_compat_bytes : ByteValued SetxattrInCompat := {|
  layout := [U 4; U 4];
  to_fields x :=
    [ setxattr_in_compat_size x; setxattr_in_compat_flags x ];
  of_fields l := match l with
    | [f_size; f_flags] =>
        Some {| setxattr_in_compat_size := f_size; setxattr_in_compat_flags := f_flags |}
    | _ => None end;
|}.
#[export] Instance setxattr_in_compat_laws : ByteValuedLaws SetxattrInCompat.
Proof. byte_valued_laws. Qed.

Record GetxattrIn := {
  getxattr_in_size : Z; getxattr_in_padding : Z;
}.

#[export] Instance getxattr_in_bytes : ByteValued GetxattrIn := {|
  layout := [U 4; U 4];
  to_fields x :=
    [ getxattr_in_size x; getxattr_in_padding x ];
  of_fields l := match l with
    | [f_size; f_padding] =>
        Some {| getxattr_in_size := f_size; getxattr_in_padding := f_padding |}
    | _ => None end;
|}.
#[export] Instance getxattr_in_laws : ByteValuedLaws GetxattrIn.
Proof. byte_valued_laws. Qed.

Record GetxattrOut := {
  getxattr_out_size : Z; getxattr_out_padding : Z;
}.

#[export] Instance getxattr_out_bytes : ByteValued GetxattrOut := {|
  layout := [U 4; U 4];
  to_fields x :=
    [ getxattr_out_size x; getxattr_out_padding x ];
  of_fields l := match l with
    | [f_size; f_padding] =>
        Some {| getxattr_out_size := f_size; getxattr_out_padding := f_padding |}
    | _ => None end;
|}.
#[export] Instance getxattr_out_laws : ByteValuedLaws GetxattrOut.
Proof. byte_valued_laws. Qed.

Record LkIn := {
  lk_in_fh : Z; lk_in_owner : Z; lk_in_lk : FileLock; lk_in_lk_flags : Z; lk_in_padding : Z;
}.

#[export] Instance lk_in_bytes : ByteValued LkIn := {|
  layout := [U 8; U 8; U 8; U 8; U 4; U 4; U 4; U 4];
  to_fields x :=
    [ lk_in_fh x; lk_in_owner x; file_lock_start (lk_in_lk x); file_lock_end (lk_in_lk x);
      file_lock_type_ (lk_in_lk x); file_lock_pid (lk_in_lk x); lk_in_lk_flags x;
      lk_in_padding x ];
  of_fields l := match l with
    | [f_fh; f_owner; f_lk_start; f_lk_end; f_lk_type_; f_lk_pid; f_lk_flags; f_padding] =>
        Some {| lk_in_fh := f_fh; lk_in_owner := f_owner;
             lk_in_lk := {| file_lock_start := f_lk_start; file_lock_end := f_lk_end;
             file_lock_type_ := f_lk_type_; file_lock_pid := f_lk_pid |};
             lk_in_lk_flags := f_lk_flags; lk_in_padding := f_padding |}
    | _ => None end;
|}.
#[export] Instance lk_in_laws : ByteValuedLaws LkIn.
Proof. byte_valued_laws. Qed.

Record LkOut := {
  lk_out_lk : FileLock;
}.

#[export] Instance lk_out_bytes : ByteValued LkOut := {|
  layout := [U 8; U 8; U 4; U 4];
  to_fields x :=
    [ file_lock_start (lk_out_lk x); file_lock_end (lk_out_lk x);
      file_lock_type_ (lk_out_lk x); file_lock_pid (lk_out_lk x) ];
  of_fields l := match l with
    | [f_lk_start; f_lk_end; f_lk_type_; f_lk_pid] =>
        Some {| lk_out_lk := {| file_lock_start := f_lk_start; file_lock_end := f_lk_end;
             file_lock_type_ := f_lk_type_; file_lock_pid := f_lk_pid |} |}
    | _ => None end;
|}.
#[export] Instance lk_out_laws : ByteValuedLaws LkOut.
Proof. byte_valued_laws. Qed.

Record AccessIn := {
  access_in_mask : Z; access_in_padding : Z;
}.

#[export] Instance access_in_bytes : ByteValued AccessIn := {|
  layout := [U 4; U 4];
  to_fields x :=
    [ access_in_mask x; access_in_padding x ];
  of_fields l := match l with
    | [f_mask; f_padding] =>
        Some {| access_in_mask := f_mask; access_in_padding := f_padding |}
    | _ => None end;
|}.
#[export] Instance access_in_laws : ByteValuedLaws AccessIn.
Proof. byte_valued_laws. Qed.

Record InitInCompat := {
  init_in_compat_major : Z; init_in_compat_minor : Z; init_in_compat_max_readahead : Z;
  init_in_compat_flags : Z;
}.

#[export] Instance init_in_compat_bytes : ByteValued InitInCompat := {|
  layout := [U 4; U 4; U 4; U 4];
  to_fields x :=
    [ init_in_compat_major x; init_in_compat_minor x; init_in_compat_max_readahead x;
      init_in_compat_flags x ];
  of_fields l := match l with
    | [f_major; f_minor; f_max_readahead; f_flags] =>
        Some {| init_in_compat_major := f_major; init_in_compat_minor := f_minor;
             init_in_compat_max_readahead := f_max_readahead;
             init_in_compat_flags := f_flags |}
    | _ => None end;
|}.
#[export] Instance init_in_compat_laws : ByteValuedLaws InitInCompat.
Proof. byte_valued_laws. Qed.

Record InitInExt := {
  init_in_ext_flags2 : Z; init_in_ext_unused_0 : Z; init_in_ext_unused_1 : Z;
  init_in_ext_unused_2 : Z; init_in_ext_unused_3 : Z; init_in_ext_unused_4 : Z;
  init_in_ext_unused_5 : Z; init_in_ext_unused_6 : Z; init_in_ext_unused_7 : Z;
  init_in_ext_unused_8 : Z; init_in_ext_unused_9 : Z; init_in_ext_unused_10 : Z;
}.

#[export] Instance init_in_ext_bytes : ByteValued InitInExt := {|
  layout := [U 4; U 4; U 4; U 4; U 4; U 4; U 4; U 4; U 4; U 4; U 4; U 4];
  to_fields x :=
    [ init_in_ext_flags2 x; init_in_ext_unused_0 x; init_in_ext_unused_1 x;
      init_in_ext_unused_2 x; init_in_ext_unused_3 x; init_in_ext_unused_4 x;
      init_in_ext_unused_5 x; init_in_ext_unused_6 x; init_in_ext_unused_7 x;
      init_in_ext_unused_8 x; init_in_ext_unused_9 x; init_in_ext_unused_10 x ];
  of_fields l := match l with
    | [f_flags2; f_unused_0; f_unused_1; f_unused_2; f_unused_3; f_unused_4; f_unused_5;
      f_unused_6; f_unused_7; f_unused_8; f_unused_9; f_unused_10] =>
        Some {| init_in_ext_flags2 := f_flags2; init_in_ext_unused_0 := f_unused_0;
             init_in_ext_unused_1 := f_unused_1; init_in_ext_unused_2 := f_unused_2;
             init_in_ext_unused_3 := f_unused_3; init_in_ext_unused_4 := f_unused_4;
             init_in_ext_unused_5 := f_unused_5; init_in_ext_unused_6 := f_unused_6;
             init_in_ext_unused_7 := f_unused_7; init_in_ext_unused_8 := f_unused_8;
             init_in_ext_unused_9 := f_unused_9; init_in_ext_unused_10 := f_unused_10 |}
    | _ => None end;
|}.
#[export] Instance init_in_ext_laws : ByteValuedLaws InitInExt.
Proof. byte_valued_laws. Qed.

Record InitOut := {
  init_out_major : Z; init_out_minor : Z; init_out_max_readahead : Z; init_out_flags : Z;
  init_out_max_background : Z; init_out_congestion_threshold : Z; init_out_max_write : Z;
  init_out_time_gran : Z; init_out_max_pages : Z; init_out_map_alignment : Z;
  init_out_flags2 : Z; init_out_unused_0 : Z; init_out_unused_1 : Z; init_out_unused_2 : Z;
  init_out_unused_3 : Z; init_out_unused_4 : Z; init_out_unused_5 : Z;
  init_out_unused_6 : Z;
}.

#[export] Instance init_out_bytes : ByteValued InitOut := {|
  layout := [U 4; U 4; U 4; U 4; U 2; U 2; U 4; U 4; U 2; U 2; U 4; U 4; U 4; U 4; U 4; U 4; U 4;
    U 4];
  to_fields x :=
    [ init_out_major x; init_out_minor x; init_out_max_readahead x; init_out_flags x;
      init_out_max_background x; init_out_congestion_threshold x; init_out_max_write x;
      init_out_time_gran x; init_out_max_pages x; init_out_map_alignment x;
      init_out_flags2 x; init_out_unused_0 x; init_out_unused_1 x; init_out_unused_2 x;
      init_out_unused_3 x; init_out_unused_4 x; init_out_unused_5 x; init_out_unused_6 x ];
  of_fields l := match l with
    | [f_major; f_minor; f_max_readahead; f_flags; f_max_background; f_congestion_threshold;
      f_max_write; f_time_gran; f_max_pages; f_map_alignment; f_flags2; f_unused_0;
      f_unused_1; f_unused_2; f_unused_3; f_unused_4; f_unused_5; f_unused_6] =>
        Some {| init_out_major := f_major; init_out_minor := f_minor;
             init_out_max_readahead := f_max_readahead; init_out_flags := f_flags;
             init_out_max_background := f_max_background;
             init_out_congestion_threshold := f_congestion_threshold;
             init_out_max_write := f_max_write; init_out_time_gran := f_time_gran;
             init_out_max_pages := f_max_pages; init_out_map_alignment := f_map_alignment;
             init_out_flags2 := f_flags2; init_out_unused_0 := f_unused_0;
             init_out_unused_1 := f_unused_1; init_out_unused_2 := f_unused_2;
             init_out_unused_3 := f_unused_3; init_out_unused_4 := f_unused_4;
             init_out_unused_5 := f_unused_5; init_out_unused_6 := f_unused_6 |}
    | _ => None end;
|}.
#[export] Instance init_out_laws : ByteValuedLaws InitOut.
Proof. byte_valued_laws. Qed.

Record InterruptIn := {
  interrupt_in_unique : Z;
}.

#[export] Instance interrupt_in_bytes : ByteValued InterruptIn := {|
  layout := [U 8];
  to_fields x :=
    [ interrupt_in_unique x ];
  of_fields l := match l with
    | [f_unique] =>
        Some {| interrupt_in_unique := f_unique |}
    | _ => None end;
|}.
#[export] Instance interrupt_in_laws : ByteValuedLaws InterruptIn.
Proof. byte_valued_laws. Qed.

Record FallocateIn := {
  fallocate_in_fh : Z; fallocate_in_offset : Z; fallocate_in_length : Z;
  fallocate_in_mode : Z; fallocate_in_padding : Z;
}.

#[export] Instance fallocate_in_bytes : ByteValued FallocateIn := {|
  layout := [U 8; U 8; U 8; U 4; U 4];
  to_fields x :=
    [ fallocate_in_fh x; fallocate_in_offset x; fallocate_in_length x; fallocate_in_mode x;
      fallocate_in_padding x ];
  of_fields l := match l with
    | [f_fh; f_offset; f_length; f_mode; f_padding] =>
        Some {| fallocate_in_fh := f_fh; fallocate_in_offset := f_offset;
             fallocate_in_length := f_length; fallocate_in_mode := f_mode;
             fallocate_in_padding := f_padding |}
    | _ => None end;
|}.
#[export] Instance fallocate_in_laws : ByteValuedLaws FallocateIn.
Proof. byte_valued_laws. Qed.

Record InHeader := {
  in_header_len : Z; in_header_opcode : Z; in_header_unique : Z; in_header_nodeid : Z;
  in_header_uid : Z; in_header_gid : Z; in_header_pid : Z; in_header_total_extlen : Z;
  in_header_padding : Z;
}.

#[export] Instance in_header_bytes : ByteValued InHeader := {|
  layout := [U 4; U 4; U 8; U 8; U 4; U 4; U 4; U 2; U 2];
  to_fields x :=
    [ in_header_len x; in_header_opcode x; in_header_unique x; in_header_nodeid x;
      in_header_uid x; in_header_gid x; in_header_pid x; in_header_total_extlen x;
      in_header_padding x ];
  of_fields l := match l with
    | [f_len; f_opcode; f_unique; f_nodeid; f_uid; f_gid; f_pid; f_total_extlen; f_padding] =>
        Some {| in_header_len := f_len; in_header_opcode := f_opcode;
             in_header_unique := f_unique; in_header_nodeid := f_nodeid;
             in_header_uid := f_uid; in_header_gid := f_gid; in_header_pid := f_pid;
             in_header_total_extlen := f_total_extlen; in_header_padding := f_padding |}
    | _ => None end;
|}.
#[export] Instance in_header_laws : ByteValuedLaws InHeader.
Proof. byte_valued_laws. Qed.

Record OutHeader := {
  out_header_len : Z; out_header_error : Z; out_header_unique : Z;
}.

#[export] Instance out_header_bytes : ByteValued OutHeader := {|
  layout := [U 4; I 4; U 8];
  to_fields x :=
    [ out_header_len x; out_header_error x; out_header_unique x ];
  of_fields l := match l with
    | [f_len; f_error; f_unique] =>
        Some {| out_header_len := f_len; out_header_error := f_error;
             out_header_unique := f_unique |}
    | _ => None end;
|}.
#[export] Instance out_header_laws : ByteValuedLaws OutHeader.
Proof. byte_valued_laws. Qed.

Record Dirent := {
  dirent_ino : Z; dirent_off : Z; dirent_namelen : Z; dirent_type_ : Z;
}.

#[export] Instance dirent_bytes : ByteValued Dirent := {|
  layout := [U 8; U 8; U 4; U 4];
  to_fields x :=
    [ dirent_ino x; dirent_off x; dirent_namelen x; dirent_type_ x ];
  of_fields l := match l with
    | [f_ino; f_off; f_namelen; f_type_] =>
        Some {| dirent_ino := f_ino; dirent_off := f_off; dirent_namelen := f_namelen;
             dirent_type_ := f_type_ |}
    | _ => None end;
|}.
#[export] Instance dirent_laws : ByteValuedLaws Dirent.
Proof. byte_valued_laws. Qed.

Record Direntplus := {
  direntplus_entry_out : EntryOut; direntplus_dirent : Dirent;
}.

#[export] Instance direntplus_bytes : ByteValued Direntplus := {|
  layout := [U 8; U 8; U 8; U 8; U 4; U 4; U 8; U 8; U 8; U 8; U 8; U 8; U 4; U 4; U 4; U 4; U 4;
    U 4; U 4; U 4; U 4; U 4; U 8; U 8; U 4; U 4];
  to_fields x :=
    [ entry_out_nodeid (direntplus_entry_out x);
      entry_out_generation (direntplus_entry_out x);
      entry_out_entry_valid (direntplus_entry_out x);
      entry_out_attr_valid (direntplus_entry_out x);
      entry_out_entry_valid_nsec (direntplus_entry_out x);
      entry_out_attr_valid_nsec (direntplus_entry_out x);
      attr_ino (entry_out_attr (direntplus_entry_out x));
      attr_size (entry_out_attr (direntplus_entry_out x));
      attr_blocks (entry_out_attr (direntplus_entry_out x));
      attr_atime (entry_out_attr (direntplus_entry_out x));
      attr_mtime (entry_out_attr (direntplus_entry_out x));
      attr_ctime (entry_out_attr (direntplus_entry_out x));
      attr_atimensec (entry_out_attr (direntplus_entry_out x));
      attr_mtimensec (entry_out_attr (direntplus_entry_out x));
      attr_ctimensec (entry_out_attr (direntplus_entry_out x));
      attr_mode (entry_out_attr (direntplus_entry_out x));
      attr_nlink (entry_out_attr (direntplus_entry_out x));
      attr_uid (entry_out_attr (direntplus_entry_out x));
      attr_gid (entry_out_attr (direntplus_entry_out x));
      attr_rdev (entry_out_attr (direntplus_entry_out x));
      attr_blksize (entry_out_attr (direntplus_entry_out x));
      attr_flags (entry_out_attr (direntplus_entry_out x));
      dirent_ino (direntplus_dirent x); dirent_off (direntplus_dirent x);
      dirent_namelen (direntplus_dirent x); dirent_type_ (direntplus_dirent x) ];
  of_fields l := match l with
    | [f_entry_out_nodeid; f_entry_out_generation; f_entry_out_entry_valid;
      f_entry_out_attr_valid; f_entry_out_entry_valid_nsec; f_entry_out_attr_valid_nsec;
      f_entry_out_attr_ino; f_entry_out_attr_size; f_entry_out_attr_blocks;
      f_entry_out_attr_atime; f_entry_out_attr_mtime; f_entry_out_attr_ctime;
      f_entry_out_attr_atimensec; f_entry_out_attr_mtimensec; f_entry_out_attr_ctimensec;
      f_entry_out_attr_mode; f_entry_out_attr_nlink; f_entry_out_attr_uid;
      f_entry_out_attr_gid; f_entry_out_attr_rdev; f_entry_out_attr_blksize;
      f_entry_out_attr_flags; f_dirent_ino; f_dirent_off; f_dirent_namelen; f_dirent_type_] =>
        Some {| direntplus_entry_out := {| entry_out_nodeid := f_entry_out_nodeid;
             entry_out_generation := f_entry_out_generation;
             entry_out_entry_valid := f_entry_out_entry_valid;
             entry_out_attr_valid := f_entry_out_attr_valid;
             entry_out_entry_valid_nsec := f_entry_out_entry_valid_nsec;
             entry_out_attr_valid_nsec := f_entry_out_attr_valid_nsec;
             entry_out_attr := {| attr_ino := f_entry_out_attr_ino;
             attr_size := f_entry_out_attr_size; attr_blocks := f_entry_out_attr_blocks;
             attr_atime := f_entry_out_attr_atime; attr_mtime := f_entry_out_attr_mtime;
             attr_ctime := f_entry_out_attr_ctime;
             attr_atimensec := f_entry_out_attr_atimensec;
             attr_mtimensec := f_entry_out_attr_mtimensec;
             attr_ctimensec := f_entry_out_attr_ctimensec;
             attr_mode := f_entry_out_attr_mode; attr_nlink := f_entry_out_attr_nlink;
             attr_uid := f_entry_out_attr_uid; attr_gid := f_entry_out_attr_gid;
             attr_rdev := f_entry_out_attr_rdev; attr_blksize := f_entry_out_attr_blksize;
             attr_flags := f_entry_out_attr_flags |} |};
             direntplus_dirent := {| dirent_ino := f_dirent_ino;
             dirent_off := f_dirent_off; dirent_namelen := f_dirent_namelen;
             dirent_type_ := f_dirent_type_ |} |}
    | _ => None end;
|}.
#[export] Instance direntplus_laws : ByteValuedLaws Direntplus.
Proof. byte_valued_laws. Qed.

Record NotifyInvalInodeOut := {
  notify_inval_inode_out_ino : Z; notify_inval_inode_out_off : Z;
  notify_inval_inode_out_len : Z;
}.

#[export] Instance notify_inval_inode_out_bytes : ByteValued NotifyInvalInodeOut := {|
  layout := [U 8; I 8; I 8];
  to_fields x :=
    [ notify_inval_inode_out_ino x; notify_inval_inode_out_off x;
      notify_inval_inode_out_len x ];
  of_fields l := match l with
    | [f_ino; f_off; f_len] =>
        Some {| notify_inval_inode_out_ino := f_ino; notify_inval_inode_out_off := f_off;
             notify_inval_inode_out_len := f_len |}
    | _ => None end;
|}.
#[export] Instance notify_inval_inode_out_laws : ByteValuedLaws NotifyInvalInodeOut.
Proof. byte_valued_laws. Qed.

Record NotifyInvalEntryOut := {
  notify_inval_entry_out_parent : Z; notify_inval_entry_out_namelen : Z;
  notify_inval_entry_out_flags : Z;
}.

#[export] Instance notify_inval_entry_out_bytes : ByteValued NotifyInvalEntryOut := {|
  layout := [U 8; U 4; U 4];
  to_fields x :=
    [ notify_inval_entry_out_parent x; notify_inval_entry_out_namelen x;
      notify_inval_entry_out_flags x ];
  of_fields l := match l with
    | [f_parent; f_namelen; f_flags] =>
        Some {| notify_inval_entry_out_parent := f_parent;
             notify_inval_entry_out_namelen := f_namelen;
             notify_inval_entry_out_flags := f_flags |}
    | _ => None end;
|}.
#[export] Instance notify_inval_entry_out_laws : ByteValuedLaws NotifyInvalEntryOut.
Proof. byte_valued_laws. Qed.

Record LseekIn := {
  lseek_in_fh : Z; lseek_in_offset : Z; lseek_in_whence : Z; lseek_in_padding : Z;
}.

#[export] Instance lseek_in_bytes : ByteValued LseekIn := {|
  layout := [U 8; U 8; U 4; U 4];
  to_fields x :=
    [ lseek_in_fh x; lseek_in_offset x; lseek_in_whence x; lseek_in_padding x ];
  of_fields l := match l with
    | [f_fh; f_offset; f_whence; f_padding] =>
        Some {| lseek_in_fh := f_fh; lseek_in_offset := f_offset;
             lseek_in_whence := f_whence; lseek_in_padding := f_padding |}
    | _ => None end;
|}.
#[export] Instance lseek_in_laws : ByteValuedLaws LseekIn.
Proof. byte_valued_laws. Qed.

Record LseekOut := {
  lseek_out_offset : Z;
}.

#[export] Instance lseek_out_bytes : ByteValued LseekOut := {|
  layout := [U 8];
  to_fields x :=
    [ lseek_out_offset x ];
  of_fields l := match l with
    | [f_offset] =>
        Some {| lseek_out_offset := f_offset |}
    | _ => None end;
|}.
#[export] Instance lseek_out_laws : ByteValuedLaws LseekOut.
Proof. byte_valued_laws. Qed.

Record CopyfilerangeIn := {
  copyfilerange_in_fh_in : Z; copyfilerange_in_off_in : Z; copyfilerange_in_nodeid_out : Z;
  copyfilerange_in_fh_out : Z; copyfilerange_in_off_out : Z; copyfilerange_in_len : Z;
  copyfilerange_in_flags : Z;
}.

#[export] Instance copyfilerange_in_bytes : ByteValued CopyfilerangeIn := {|
  layout := [U 8; U 8; U 8; U 8; U 8; U 8; U 8];
  to_fields x :=
    [ copyfilerange_in_fh_in x; copyfilerange_in_off_in x; copyfilerange_in_nodeid_out x;
      copyfilerange_in_fh_out x; copyfilerange_in_off_out x; copyfilerange_in_len x;
      copyfilerange_in_flags x ];
  of_fields l := match l with
    | [f_fh_in; f_off_in; f_nodeid_out; f_fh_out; f_off_out; f_len; f_flags] =>
        Some {| copyfilerange_in_fh_in := f_fh_in; copyfilerange_in_off_in := f_off_in;
             copyfilerange_in_nodeid_out := f_nodeid_out;
             copyfilerange_in_fh_out := f_fh_out; copyfilerange_in_off_out := f_off_out;
             copyfilerange_in_len := f_len; copyfilerange_in_flags := f_flags |}
    | _ => None end;
|}.
#[export] Instance copyfilerange_in_laws : ByteValuedLaws CopyfilerangeIn.
Proof. byte_valued_laws. Qed.

Record ExtHeader := {
  ext_header_size : Z; ext_header_ext_type : Z;
}.

#[export] Instance ext_header_bytes : ByteValued ExtHeader := {|
  layout := [U 4; U 4];
  to_fields x :=
    [ ext_header_size x; ext_header_ext_type x ];
  of_fields l := match l with
    | [f_size; f_ext_type] =>
        Some {| ext_header_size := f_size; ext_header_ext_type := f_ext_type |}
    | _ => None end;
|}.
#[export] Instance ext_header_laws : ByteValuedLaws ExtHeader.
Proof. byte_valued_laws. Qed.

Record Secctx := {
  secctx_size : Z; secctx_padding : Z;
}.

#[export] Instance secctx_bytes : ByteValued Secctx := {|
  layout := [U 4; U 4];
  to_fields x :=
    [ secctx_size x; secctx_padding x ];
  of_fields l := match l with
    | [f_size; f_padding] =>
        Some {| secctx_size := f_size; secctx_padding := f_padding |}
    | _ => None end;
|}.
#[export] Instance secctx_laws : ByteValuedLaws Secctx.
Proof. byte_valued_laws. Qed.

Record SecctxHeader := {
  secctx_header_size : Z; secctx_header_nr_secctx : Z;
}.

#[export] Instance secctx_header_bytes : ByteValued SecctxHeader := {|
  layout := [U 4; U 4];
  to_fields x :=
    [ secctx_header_size x; secctx_header_nr_secctx x ];
  of_fields l := match l with
    | [f_size; f_nr_secctx] =>
        Some {| secctx_header_size := f_size; secctx_header_nr_secctx := f_nr_secctx |}
    | _ => None end;
|}.
#[export] Instance secctx_header_laws : ByteValuedLaws SecctxHeader.
Proof. byte_valued_laws. Qed.

Record SuppGroups := {
  supp_groups_nr_groups : Z;
}.

#[export] Instance supp_groups_bytes : ByteValued SuppGroups := {|
  layout := [U 4];
  to_fields x :=
    [ supp_groups_nr_groups x ];
  of_fields l := match l with
    | [f_nr_groups] =>
        Some {| supp_groups_nr_groups := f_nr_groups |}
    | _ => None end;
|}.
#[export] Instance supp_groups_laws : ByteValuedLaws SuppGroups.
Proof. byte_valued_laws. Qed.

(** ** Round trips *)

Lemma field_modulus_pos t : 0 < field_modulus t.
Proof. unfold field_modulus. apply Z.pow_pos_nonneg; lia. Qed.

Lemma encode_field_length t z : length (encode_field t z) = field_size t.
Proof. apply le_bytes_length. Qed.

Lemma encode_fields_length ts zs :
  length zs = length ts -> length (encode_fields ts zs) = fields_size ts.
Proof.
  revert zs; induction ts as [|t ts IH]; intros [|z zs] H; simpl in *; try done.
  unfold fields_size in *. csimpl. rewrite length_app, encode_field_length, IH by lia. done.
Qed.

Lemma decode_encode_field t z : field_ok t z -> decode_field t (encode_field t z) = z.
Proof.
  intros Hok. pose proof (field_modulus_pos t) as Hp.
  pose proof (Z.mod_pos_bound z (field_modulus t) Hp) as Hm.
  unfold decode_field, encode_field. rewrite of_le_le_bytes by (unfold field_modulus in *; done).
  destruct t as [n|n]; simpl in Hok.
  - by apply Z.mod_small.
  - destruct (Z_lt_le_dec z 0) as [Hz|Hz].
    + rewrite <- (Z.mod_add z 1), Z.mod_small by lia.
      rewrite (proj2 (Z.leb_le _ _)) by lia. lia.
    + rewrite Z.mod_small by lia. rewrite (proj2 (Z.leb_gt _ _)) by lia. done.
Qed.

Lemma decode_encode_fields ts zs :
  Forall2 field_ok ts zs -> decode_fields ts (encode_fields ts zs) = zs.
Proof.
  induction 1 as [|t z ts zs Hok Hr IH]; simpl; [done|].
  rewrite take_app_length', drop_app_length' by (symmetry; apply encode_field_length).
  by rewrite decode_encode_field, IH.
Qed.

Lemma encode_decode_field t l :
  length l = field_size t -> Forall is_byte l -> encode_field t (decode_field t l) = l.
Proof.
  intros Hl Hb. pose proof (of_le_bound l Hb) as Hr. rewrite Hl in Hr.
  fold (field_modulus t) in Hr.
  assert (decode_field t l mod field_modulus t = of_le l) as Hm.
  { unfold decode_field. destruct t; [by apply Z.mod_small|].
    case_match; [|by apply Z.mod_small].
    rewrite <- (Z.mod_add _ 1), Z.mod_small by lia. lia. }
  unfold encode_field. rewrite Hm, <- Hl. by apply le_bytes_of_le.
Qed.

Lemma encode_decode_fields ts l :
  length l = fields_size ts -> Forall is_byte l -> encode_fields ts (decode_fields ts l) = l.
Proof.
  revert l; induction ts as [|t ts IH]; intros l Hl Hb; simpl.
  - by destruct l.
  - unfold fields_size in *. csimpl in Hl.
    rewrite encode_decode_field, IH;
      [apply take_drop|rewrite length_drop; lia|by apply Forall_drop
      |rewrite length_take; lia|by apply Forall_take].
Qed.

Lemma decode_fields_length ts l : length (decode_fields ts l) = length ts.
Proof. revert l; induction ts; intros; simpl; congruence. Qed.

Lemma as_slice_length {A} `{ByteValuedLaws A} (a : A) : length (as_slice a) = size_of A.
Proof. apply encode_fields_length, to_fields_length. Qed.

Lemma encode_fields_bytes ts zs : Forall is_byte (encode_fields ts zs).
Proof.
  revert zs; induction ts as [|t ts IH]; intros [|z zs]; simpl; try constructor.
  apply Forall_app; split; [apply le_bytes_bytes|apply IH].
Qed.

#[export] Hint Rewrite @as_slice_length : vfs.

Lemma from_slice_as_slice {A} `{ByteValuedLaws A} (a : A) :
  in_range a -> from_slice (as_slice a) = Some a.
Proof.
  intros Hr. unfold from_slice. rewrite decide_True by apply as_slice_length. unfold as_slice.
  rewrite decode_encode_fields by done. apply of_to_fields.
Qed.

Lemma from_slice_total {A} `{ByteValuedLaws A} (l : list Z) :
  length l = size_of A -> Forall is_byte l ->
  exists a : A, from_slice l = Some a /\ as_slice a = l.
Proof.
  intros Hl Hb. unfold from_slice. rewrite decide_True by done.
  destruct (of_fields_total (decode_fields (layout A) l)) as [a Ha];
    [apply decode_fields_length|].
  exists a. split; [done|]. unfold as_slice.
  rewrite (to_of_fields _ _ Ha). by apply encode_decode_fields.
Qed.

Lemma from_slice_size {A} `{ByteValued A} (l : list Z) (a : A) :
  from_slice l = Some a -> length l = size_of A.
Proof. unfold from_slice. by case_decide. Qed.

(** The fields of a value fit their types. *)
Ltac fields_in_range :=
  repeat (apply List.Forall2_cons; [cbn; unfold field_modulus; cbn; lia|]); apply List.Forall2_nil.

(** For every FUSE structure, writing a value whose fields fit their types
    and reading the bytes back gives the same value, and the image has exactly
    the structure's size. *)
Theorem byte_valued_roundtrip {A} `{ByteValuedLaws A} (a : A) :
  in_range a -> from_slice (as_slice a) = Some a /\ length (as_slice a) = size_of A.
Proof.
  intros Hr. split; [by apply from_slice_as_slice|apply as_slice_length].
Qed.

Lemma byte_valued_roundtrip_witness :
  from_slice (as_slice {| out_header_len := 16; out_header_error := -2; out_header_unique := 7 |})
    = Some {| out_header_len := 16; out_header_error := -2; out_header_unique := 7 |}.
Proof.
  apply (byte_valued_roundtrip
           {| out_header_len := 16; out_header_error := -2; out_header_unique := 7 |}).
  repeat constructor; vm_compute; congruence.
Defined.

(** Every byte string of a FUSE structure's size decodes to a value, and
    encoding that value gives the byte string back: no information is lost when a
    request is parsed. *)
Theorem byte_valued_decode {A} `{ByteValuedLaws A} (l : list Z) :
  length l = size_of A -> Forall is_byte l ->
  exists a : A, from_slice l = Some a /\ as_slice a = l.
Proof. apply from_slice_total. Qed.

Lemma byte_valued_decode_witness :
  exists a : ForgetIn, from_slice [5; 0; 0; 0; 0; 0; 0; 0] = Some a /\
    as_slice a = [5; 0; 0; 0; 0; 0; 0; 0].
Proof.
  apply byte_valued_decode; [reflexivity|]. repeat constructor; vm_compute; congruence.
Defined.
