(* ===== verification/Descriptor.v ===== *)
(** * Descriptor chains (src/descriptor_utils.rs, zero-copy loops of src/server.rs)

    A request arrives as a chain of guest buffers.  [consumer] is
    [DescriptorChainConsumer]: the slices not yet consumed, each a list of bytes,
    and a counter.  [Reader] and [Writer] are consumers of the readable and of the
    writable half of the chain; a writer also records the bytes it has stored, in
    order (the guest memory it covers is those bytes followed by what was there).

    The abstract view of a reader is the byte string left to read; of a writer, the
    number of bytes it still has room for. *)

From S2P Require Import Prelude FuseWire.

Notation bytes := (list Z).
Notation slice := (list Z).

Definition blen {A} (l : list A) : Z := Z.of_nat (length l).

(** [buf] after [data] was stored at its start. *)
Definition fill {A} (buf data : list A) : list A := data ++ drop (length data) buf.

Definition usize_max : Z := u64_max.

Inductive chain_error :=
| DescriptorChainOverflow
| FindMemoryRegion
| SplitOutOfBounds (off : Z)
| VolatileMemoryError.

Record consumer := {
  buffers : list slice;
  bytes_consumed : Z;
}.

Definition total_len (bufs : list slice) : Z := blen (concat bufs).

Definition available_bytes (c : consumer) : Z :=
  fold_left (fun count vs => count + blen vs) (buffers c) 0.

(** ** Building a consumer

    [find_slice addr len] is the lookup in guest memory: the region of [addr] and
    its slice of [len] bytes.  [descs] are the address and length pairs of the
    readable (or writable) descriptors. *)
Fixpoint collect_buffers (find_slice : Z -> Z -> res chain_error slice) (sum : Z)
    (descs : list (Z * Z)) : res chain_error (list slice) :=
  match descs with
  | [] => Ok []
  | (addr, len) :: rest =>
      sum' ← ok_or (checked_add usize_max sum len) DescriptorChainOverflow;
      vs ← find_slice addr len;
      more ← collect_buffers find_slice sum' rest;
      Ok (vs :: more)
  end.

Definition consumer_new (find_slice : Z -> Z -> res chain_error slice) (descs : list (Z * Z))
  : res chain_error consumer :=
  bufs ← collect_buffers find_slice 0 descs;
  Ok {| buffers := bufs; bytes_consumed := 0 |}.

(** ** Consuming *)

(** The slices handed to the callback of [consume]. *)
Fixpoint select_bufs (bufs : list slice) (count buflen : Z) : list slice :=
  match bufs with
  | [] => []
  | vs :: rest =>
      if count <=? buflen then []
      else
        let rem := count - buflen in
        vs :: select_bufs rest count (if rem <? blen vs then buflen + rem else buflen + blen vs)
  end.

(** The [while let Some(vs) = pop_front()] loop. *)
Fixpoint advance (bufs : list slice) (rem : Z) : list slice :=
  match bufs with
  | [] => []
  | vs :: rest =>
      if rem <? blen vs then drop (Z.to_nat rem) vs :: rest
      else advance rest (rem - blen vs)
  end.

Definition consume (c : consumer) (count : Z) (f : list slice -> io Z) : io (Z * consumer) :=
  match select_bufs (buffers c) count 0 with
  | [] => Ok (0, c)
  | bufs =>
      n ← f bufs;
      total ← ok_or (checked_add usize_max (bytes_consumed c) n) (Custom InvalidData);
      Ok (n, {| buffers := advance (buffers c) n; bytes_consumed := total |})
  end.

(** ** Splitting *)

(** [position] of the slice in which [rem] falls, with the remainder. *)
Fixpoint split_bufs (bufs : list slice) (rem : Z) : option (list slice * list slice) * Z :=
  match bufs with
  | [] => (None, rem)
  | vs :: rest =>
      if rem <? blen vs then
        if 0 <? rem
        then (Some ([take (Z.to_nat rem) vs], drop (Z.to_nat rem) vs :: rest), rem)
        else (Some ([], vs :: rest), rem)
      else match split_bufs rest (rem - blen vs) with
           | (Some (l, r), rem') => (Some (vs :: l, r), rem')
           | (None, rem') => (None, rem')
           end
  end.

(** The first component is the consumer after the call, the second the new one. *)
Definition split_at (c : consumer) (offset : Z) : res chain_error (consumer * consumer) :=
  match split_bufs (buffers c) offset with
  | (Some (l, r), _) =>
      Ok ({| buffers := l; bytes_consumed := bytes_consumed c |},
          {| buffers := r; bytes_consumed := 0 |})
  | (None, rem) =>
      if rem =? 0 then Ok (c, {| buffers := []; bytes_consumed := 0 |})
      else Err (SplitOutOfBounds offset)
  end.

(** ** Reading *)

(** The copy loop of [Reader::read]: bytes copied into a buffer of [room]
    bytes. *)
Fixpoint copy_out (bufs : list slice) (room : nat) : bytes :=
  match bufs with
  | [] => []
  | vs :: rest => take room vs ++ copy_out rest (room - length vs)
  end.

Definition reader_read (c : consumer) (n : nat) : io (bytes * consumer) :=
  let out := copy_out (select_bufs (buffers c) (Z.of_nat n) 0) n in
  '(_, c') ← consume c (Z.of_nat n) (fun bufs => Ok (blen (copy_out bufs n)));
  Ok (out, c').

(** [io::Read::read_exact]: read until the buffer is full; a read of nothing
    is an unexpected end of file.  [n] rounds of at least one byte are enough. *)
Fixpoint read_exact_loop (fuel : nat) (c : consumer) (n : nat) : io (bytes * consumer) :=
  match n, fuel with
  | O, _ => Ok ([], c)
  | S _, O => Err (Custom UnexpectedEof)
  | S _, S f =>
      '(got, c') ← reader_read c n;
      match got with
      | [] => Err (Custom UnexpectedEof)
      | _ => '(more, c'') ← read_exact_loop f c' (n - length got); Ok (got ++ more, c'')
      end
  end.

Definition read_exact (c : consumer) (n : nat) : io (bytes * consumer) := read_exact_loop n c n.

Definition read_obj (A : Type) `{ByteValued A} (c : consumer) : io (A * consumer) :=
  '(bs, c') ← read_exact c (size_of A);
  match from_slice bs with
  | Some a => Ok (a, c')
  | None => Panic
  end.

(** ** Writing *)

Record writer := {
  w_chain : consumer;
  w_out : bytes;
}.

(** The copy loop of [Writer::write] stores [min] bytes into each slice. *)
Definition writer_write (w : writer) (data : bytes) : io (Z * writer) :=
  '(k, c') ← consume (w_chain w) (blen data)
    (fun bufs => Ok (Z.min (blen data) (total_len bufs)));
  Ok (k, {| w_chain := c'; w_out := w_out w ++ take (Z.to_nat k) data |}).

(** [io::Write::write_all]; the writer is returned in either case, since part of
    the data may have been stored. *)
Fixpoint write_all_loop (fuel : nat) (w : writer) (data : bytes) : writer * io unit :=
  match data, fuel with
  | [], _ => (w, Ok tt)
  | _ :: _, O => (w, Err (Custom WriteZero))
  | _ :: _, S f =>
      match writer_write w data with
      | Ok (k, w') =>
          if k =? 0 then (w', Err (Custom WriteZero))
          else write_all_loop f w' (drop (Z.to_nat k) data)
      | Err e => (w, Err e)
      | Panic => (w, Panic)
      end
  end.

Definition write_all (w : writer) (data : bytes) : writer * io unit :=
  write_all_loop (length data) w data.

(** ** Views *)

(** What a reader has left to read; what a writer has left to fill. *)
Definition view (c : consumer) : bytes := concat (buffers c).

Definition room (w : writer) : nat := length (view (w_chain w)).

(** The counter cannot overflow: established by [consumer_new]. *)
Definition chain_ok (c : consumer) : Prop :=
  0 <= bytes_consumed c /\ bytes_consumed c + blen (view c) <= usize_max.

Lemma blen_app {A} (l k : list A) : blen (l ++ k) = blen l + blen k.
Proof. unfold blen. rewrite length_app. lia. Qed.

Lemma blen_nonneg {A} (l : list A) : 0 <= blen l.
Proof. unfold blen. lia. Qed.

Lemma blen_take {A} n (l : list A) : blen (take n l) = Z.min (Z.of_nat n) (blen l).
Proof. unfold blen. rewrite length_take. lia. Qed.

Lemma blen_drop {A} n (l : list A) : blen (drop n l) = Z.max 0 (blen l - Z.of_nat n).
Proof. unfold blen. rewrite length_drop. lia. Qed.

#[local] Hint Rewrite @blen_app @blen_take @blen_drop : vfs.

Lemma available_bytes_view c : available_bytes c = blen (view c).
Proof.
  unfold available_bytes, view.
  assert (forall (bufs : list slice) acc, fold_left (fun count vs => count + blen vs) bufs acc =
            acc + blen (concat bufs)) as H.
  { induction bufs as [|b bufs IH]; intros acc; simpl; [unfold blen; simpl; lia|].
    rewrite IH, blen_app. lia. }
  by rewrite H.
Qed.

Lemma collect_buffers_total find_slice descs : forall sum bufs,
  (forall addr len vs, find_slice addr len = Ok vs -> blen vs = len) ->
  0 <= sum -> Forall (fun d => 0 <= d.2) descs ->
  collect_buffers find_slice sum descs = Ok bufs ->
  sum + blen (concat bufs) = sum + foldr (fun d acc => d.2 + acc) 0 descs /\
  (descs <> [] -> sum + blen (concat bufs) <= usize_max).
Proof.
  induction descs as [|[addr len] descs IH]; intros sum bufs Hf Hs Hd H; simpl in H.
  - simplify_eq. done.
  - inversion Hd as [|? ? Hl Hd']; subst. simpl in Hl. res_inv.
    rewrite checked_add_spec in *. case_decide; simplify_eq.
    match goal with H : find_slice _ _ = Ok _ |- _ => apply Hf in H end.
    match goal with H : collect_buffers _ _ _ = Ok _ |- _ =>
      pose proof H as Hc; apply IH in H as [H1 H2]; [|done|lia|done] end.
    rewrite blen_app. simpl. split; [lia|]. intros _.
    destruct descs; [simpl in Hc; simplify_eq; unfold blen in *; simpl in *; lia|].
    specialize (H2 ltac:(done)). lia.
Qed.

Lemma concat_advance bufs n :
  0 <= n -> concat (advance bufs n) = drop (Z.to_nat n) (concat bufs).
Proof.
  revert n; induction bufs as [|vs bufs IH]; intros n Hn; simpl; [by rewrite drop_nil|].
  case_match eqn:Hlt; zify_bool; unfold blen in Hlt; simpl.
  - rewrite drop_app_le by lia. done.
  - rewrite IH, drop_app_ge by (unfold blen; lia). f_equal. unfold blen. lia.
Qed.

Lemma copy_out_select bufs : forall buflen n,
  copy_out (select_bufs bufs (buflen + Z.of_nat n) buflen) n = take n (concat bufs).
Proof.
  induction bufs as [|vs bufs IH]; intros buflen n; simpl; [by rewrite take_nil|].
  destruct (Z.leb_spec (buflen + Z.of_nat n) buflen).
  - assert (n = 0)%nat as -> by lia. done.
  - simpl. rewrite take_app. f_equal. replace (buflen + Z.of_nat n - buflen) with (Z.of_nat n) by lia.
    unfold blen. destruct (Z.ltb_spec (Z.of_nat n) (Z.of_nat (length vs))).
    + replace (n - length vs)%nat with 0%nat by lia.
      destruct bufs as [|b bufs]; simpl; [done|].
      by rewrite (proj2 (Z.leb_le _ _)) by lia.
    + rewrite <- (IH (buflen + Z.of_nat (length vs))). f_equal. f_equal. lia.
Qed.

Lemma select_bufs_nil bufs count :
  select_bufs bufs count 0 = [] -> count <= 0 \/ bufs = [].
Proof. destruct bufs as [|b bufs]; simpl; [by right|]. case_match; zify_bool; [by left|done]. Qed.

(** The slices handed out cover the requested bytes, and only the last may
    reach beyond them. *)
Lemma select_bufs_prefix bufs : forall count buflen,
  exists rest, bufs = select_bufs bufs count buflen ++ rest.
Proof.
  induction bufs as [|vs bufs IH]; intros count buflen; simpl; [by exists []|].
  case_match; [by eexists|]. edestruct IH as [rest Hr]. exists rest. simpl. by rewrite <- Hr.
Qed.

Lemma select_bufs_total bufs : forall count buflen,
  buflen <= count ->
  Z.min (count - buflen) (total_len bufs) <= total_len (select_bufs bufs count buflen).
Proof.
  unfold total_len. induction bufs as [|vs bufs IH]; intros count buflen Hle; simpl;
    [unfold blen; simpl; lia|].
  pose proof (blen_nonneg vs). pose proof (blen_nonneg (concat bufs)).
  case_match eqn:Hc; zify_bool; [rewrite blen_app; unfold blen; simpl; lia|].
  simpl. rewrite !blen_app. case_match eqn:Hlt; zify_bool.
  - pose proof (blen_nonneg (concat (select_bufs bufs count (buflen + (count - buflen))))). lia.
  - specialize (IH count (buflen + blen vs) ltac:(lia)). lia.
Qed.

Lemma selected_le c count : total_len (select_bufs (buffers c) count 0) <= blen (view c).
Proof.
  destruct (select_bufs_prefix (buffers c) count 0) as [rest Hrest].
  unfold view, total_len. rewrite Hrest at 2. rewrite concat_app, blen_app.
  pose proof (blen_nonneg (concat rest)). lia.
Qed.

Lemma consume_spec c count f :
  chain_ok c ->
  match select_bufs (buffers c) count 0 with
  | [] => consume c count f = Ok (0, c)
  | bufs =>
      match f bufs with
      | Ok n => 0 <= n <= blen (view c) ->
          exists c', consume c count f = Ok (n, c') /\ view c' = drop (Z.to_nat n) (view c) /\
            bytes_consumed c' = bytes_consumed c + n /\ chain_ok c'
      | Err e => consume c count f = Err e
      | Panic => consume c count f = Panic
      end
  end.
Proof.
  intros [Hb Ht]. unfold consume. destruct (select_bufs _ _ _) as [|b bs]; [done|].
  destruct (f (b :: bs)) as [n|e|]; simpl; [|done|done]. intros Hn.
  rewrite checked_add_spec, decide_True by lia. simpl. eexists; split; [done|].
  assert (Hv : view {| buffers := advance (buffers c) n; bytes_consumed := bytes_consumed c + n |}
            = drop (Z.to_nat n) (view c)) by (unfold view; simpl; apply concat_advance; lia).
  split; [done|]. split; [done|]. split; [simpl; lia|]. rewrite Hv, blen_drop. simpl. lia.
Qed.

(** ** Reading is a cursor over a byte string *)

Ltac cursor_done := repeat (split; [done || lia|]); done || lia.

Lemma reader_read_spec c n :
  chain_ok c ->
  exists c', reader_read c n = Ok (take n (view c), c') /\ view c' = drop n (view c) /\
    bytes_consumed c' = bytes_consumed c + blen (take n (view c)) /\ chain_ok c'.
Proof.
  intros Hok. pose proof (copy_out_select (buffers c) 0 n) as Hcopy. rewrite Z.add_0_l in Hcopy.
  unfold reader_read. cbn zeta. rewrite Hcopy. fold (view c).
  pose proof (consume_spec c (Z.of_nat n) (fun bufs => Ok (blen (copy_out bufs n))) Hok) as Hc.
  destruct (select_bufs (buffers c) (Z.of_nat n) 0) as [|b bs] eqn:Hs.
  - rewrite Hc. simpl. exists c. apply select_bufs_nil in Hs as [Hs|Hs].
    + assert (n = 0)%nat as -> by lia. unfold blen; simpl. cursor_done.
    + unfold view. rewrite Hs. simpl. rewrite take_nil, drop_nil. unfold blen; simpl. cursor_done.
  - rewrite Hcopy in Hc. fold (view c) in Hc. destruct Hc as (c' & -> & Hv & Hb & Hok').
    { rewrite blen_take. pose proof (blen_nonneg (view c)). lia. }
    simpl. exists c'. split; [done|]. split; [|by split].
    rewrite Hv. unfold blen. rewrite Nat2Z.id, length_take.
    destruct (decide (n <= length (view c))%nat); [f_equal; lia|].
    rewrite !drop_ge by lia. done.
Qed.

Lemma read_exact_loop_spec fuel : forall c n,
  chain_ok c -> (n <= fuel)%nat ->
  if decide (n <= length (view c))%nat then
    exists c', read_exact_loop fuel c n = Ok (take n (view c), c') /\
      view c' = drop n (view c) /\ bytes_consumed c' = bytes_consumed c + Z.of_nat n /\ chain_ok c'
  else read_exact_loop fuel c n = Err (Custom UnexpectedEof).
Proof.
  induction fuel as [|f IH]; intros c n Hok Hf.
  - assert (n = 0)%nat as -> by lia. rewrite decide_True by lia. exists c. simpl. cursor_done.
  - destruct n as [|n]; [rewrite decide_True by lia; exists c; simpl; cursor_done|].
    destruct (reader_read_spec c (S n) Hok) as (c1 & Hr & Hv1 & Hb1 & Hok1).
    cbn [read_exact_loop]. rewrite Hr. cbn [mbind res_bind].
    destruct (take (S n) (view c)) as [|b bs] eqn:Ht.
    + apply (f_equal length) in Ht. rewrite length_take in Ht. cbn [length] in Ht.
      rewrite decide_False by lia. done.
    + assert (Hlen : length (b :: bs) = Nat.min (S n) (length (view c)))
        by (rewrite <- Ht; apply length_take).
      specialize (IH c1 (S n - length (b :: bs))%nat Hok1 ltac:(cbn [length] in *; lia)).
      rewrite Hv1, length_drop in IH. unfold blen in Hb1.
      destruct (decide (S n <= length (view c))%nat) as [Hd|Hd].
      * rewrite decide_True in IH by lia. destruct IH as (c2 & -> & Hv2 & Hb2 & Hok2).
        replace (S n - length (b :: bs))%nat with 0%nat in * by lia.
        simpl. rewrite app_nil_r. exists c2. rewrite Hv2, drop_0, Hb2, Hb1.
        cursor_done.
      * rewrite decide_False in IH by lia. by rewrite IH.
Qed.

Lemma read_exact_spec c n :
  chain_ok c ->
  if decide (n <= length (view c))%nat then
    exists c', read_exact c n = Ok (take n (view c), c') /\
      view c' = drop n (view c) /\ bytes_consumed c' = bytes_consumed c + Z.of_nat n /\ chain_ok c'
  else read_exact c n = Err (Custom UnexpectedEof).
Proof. intros Hok. by apply read_exact_loop_spec. Qed.

(** Reading from a descriptor chain is independent of how the guest cut its
    message into buffers: [read_exact] returns the next [n] bytes of the
    concatenated buffers and leaves the rest, whenever that many are left, and
    reports an unexpected end of file otherwise; it never panics. *)
Theorem read_exact_cursor c n :
  chain_ok c ->
  match read_exact c n with
  | Ok (bs, c') =>
      bs ++ view c' = view c /\ length bs = n /\ chain_ok c' /\
      bytes_consumed c' = bytes_consumed c + Z.of_nat n
  | Err e => e = Custom UnexpectedEof /\ (length (view c) < n)%nat
  | Panic => False
  end.
Proof.
  intros Hok. pose proof (read_exact_spec c n Hok) as H. case_decide as Hd.
  - destruct H as (c' & -> & -> & -> & Hok').
    split; [apply take_drop|]. split; [rewrite length_take; lia|done].
  - rewrite H. split; [done|lia].
Qed.

Lemma read_exact_cursor_witness :
  match read_exact {| buffers := [[1; 2]; []; [3]; [4; 5]]; bytes_consumed := 0 |} 4 with
  | Ok (bs, c') => bs ++ view c' = [1; 2; 3; 4; 5] /\ length bs = 4%nat /\ chain_ok c' /\
      bytes_consumed c' = 4
  | Err e => e = Custom UnexpectedEof /\ (5 < 4)%nat
  | Panic => False
  end.
Proof.
  apply (read_exact_cursor {| buffers := [[1; 2]; []; [3]; [4; 5]]; bytes_consumed := 0 |} 4).
  split; vm_compute; congruence.
Defined.

Lemma read_obj_spec (A : Type) `{ByteValuedLaws A} c :
  chain_ok c -> Forall is_byte (view c) ->
  if decide (size_of A <= length (view c))%nat then
    exists a c', read_obj A c = Ok (a, c') /\ as_slice a = take (size_of A) (view c) /\
      view c' = drop (size_of A) (view c) /\ chain_ok c'
  else read_obj A c = Err (Custom UnexpectedEof).
Proof.
  intros Hok Hb. unfold read_obj. pose proof (read_exact_spec c (size_of A) Hok) as Hr.
  case_decide as Hd; [|by rewrite Hr].
  destruct Hr as (c' & -> & Hv & _ & Hok'). cbn [mbind res_bind].
  unfold from_slice. rewrite decide_True by (rewrite length_take; lia).
  destruct (of_fields_total (decode_fields (layout A) (take (size_of A) (view c)))) as [a Ha];
    [apply decode_fields_length|]. rewrite Ha. exists a, c'.
  split; [done|]. split; [|done]. unfold as_slice. rewrite (to_of_fields _ _ Ha).
  apply encode_decode_fields; [rewrite length_take; unfold size_of in *; lia|by apply Forall_take].
Qed.

(** ** Writing fills the buffers in order *)

(** Bytes written and room left always add up to the size of the buffers. *)
Definition capacity (w : writer) : Z := bytes_consumed (w_chain w) + Z.of_nat (room w).

Lemma writer_write_spec w data :
  chain_ok (w_chain w) ->
  exists w', writer_write w data = Ok (Z.min (blen data) (Z.of_nat (room w)), w') /\
    w_out w' = w_out w ++ take (room w) data /\
    room w' = (room w - length data)%nat /\ chain_ok (w_chain w') /\ capacity w' = capacity w.
Proof.
  intros Hok. unfold writer_write, capacity, room. set (c := w_chain w) in *.
  pose proof (consume_spec c (blen data) (fun bufs => Ok (Z.min (blen data) (total_len bufs))) Hok) as Hc.
  destruct (select_bufs (buffers c) (blen data) 0) as [|b bs] eqn:Hs.
  - rewrite Hc. simpl. apply select_bufs_nil in Hs as [Hs|Hs].
    + destruct data; [|unfold blen in Hs; simpl in Hs; lia].
      eexists; split; [f_equal; f_equal; unfold blen; simpl; lia|]. simpl.
      rewrite take_nil. by rewrite Nat.sub_0_r.
    + eexists; split; [f_equal; f_equal; unfold blen, view; rewrite Hs; simpl; lia|]. simpl.
      unfold view. rewrite Hs. done.
  - pose proof (select_bufs_total (buffers c) (blen data) 0 (blen_nonneg _)) as Ht.
    rewrite Z.sub_0_r, Hs in Ht. destruct (select_bufs_prefix (buffers c) (blen data) 0) as [rest Hrest].
    rewrite Hs in Hrest.
    assert (Htot : total_len (b :: bs) <= blen (view c)).
    { unfold view, total_len. rewrite Hrest, concat_app, blen_app.
      pose proof (blen_nonneg (concat rest)). lia. }
    unfold total_len in Ht at 1. fold (view c) in Ht.
    assert (Hmin : Z.min (blen data) (total_len (b :: bs)) = Z.min (blen data) (blen (view c))) by lia.
    pose proof (blen_nonneg data). pose proof (blen_nonneg (view c)).
    rewrite Hmin in Hc. destruct Hc as (c' & -> & Hv & Hb & Hok'); [lia|]. simpl.
    eexists; split; [reflexivity|]. simpl. rewrite Hv, Hb. split; [|split; [|split; [done|]]].
    + f_equal. unfold blen. destruct (decide (length data <= length (view c))%nat).
      * rewrite !take_ge by lia. done.
      * f_equal. lia.
    + rewrite length_drop. unfold blen. lia.
    + rewrite length_drop. unfold blen in *. lia.
Qed.

Lemma write_all_loop_spec fuel : forall w data,
  chain_ok (w_chain w) -> (length data <= fuel)%nat ->
  let '(w', r) := write_all_loop fuel w data in
  w_out w' = w_out w ++ take (room w) data /\
  room w' = (room w - length data)%nat /\ chain_ok (w_chain w') /\ capacity w' = capacity w /\
  r = (if decide (length data <= room w)%nat then Ok tt else Err (Custom WriteZero)).
Proof.
  induction fuel as [|f IH]; intros w data Hok Hf.
  - destruct data; [|simpl in Hf; lia]. simpl. rewrite take_nil, app_nil_r. cursor_done.
  - destruct data as [|d data].
    { simpl. rewrite take_nil, app_nil_r. cursor_done. }
    cbn [write_all_loop]. destruct (writer_write_spec w (d :: data) Hok) as (w1 & -> & Ho1 & Hr1 & Hok1 & Hcap1).
    destruct (Z.eqb_spec (Z.min (blen (d :: data)) (Z.of_nat (room w))) 0) as [Hz|Hz].
    + assert (room w = 0%nat) as Hw by (unfold blen in Hz; cbn [length] in Hz; lia).
      rewrite Hw in *. rewrite Ho1, Hr1, Hcap1. cursor_done.
    + assert (Hlen : (0 < room w)%nat) by (unfold blen in Hz; lia).
      set (k := Z.to_nat (Z.min (blen (d :: data)) (Z.of_nat (room w)))).
      assert (Hk : k = Nat.min (length (d :: data)) (room w)) by (unfold k, blen; lia).
      specialize (IH w1 (drop k (d :: data)) Hok1 ltac:(rewrite length_drop; cbn [length] in *; lia)).
      destruct (write_all_loop f w1 _) as [w2 r]. rewrite length_drop in IH.
      destruct IH as (Ho2 & Hr2 & Hok2 & Hcap2 & ->).
      destruct (decide (length (d :: data) <= room w)%nat) as [Hfit|Hfit].
      * rewrite decide_True by lia. rewrite Ho2, Ho1, Hr2, Hr1, Hcap2, Hcap1.
        rewrite (drop_ge (d :: data) k), take_nil, app_nil_r by lia. cursor_done.
      * assert (room w1 = 0%nat) as Hz1 by lia.
        rewrite decide_False by lia. rewrite Ho2, Ho1, Hr2, Hcap2, Hcap1, Hz1, take_0, app_nil_r. cursor_done.
Qed.

Lemma write_all_spec w data :
  chain_ok (w_chain w) ->
  let '(w', r) := write_all w data in
  w_out w' = w_out w ++ take (room w) data /\
  room w' = (room w - length data)%nat /\ chain_ok (w_chain w') /\ capacity w' = capacity w /\
  r = (if decide (length data <= room w)%nat then Ok tt else Err (Custom WriteZero)).
Proof. intros Hok. by apply write_all_loop_spec. Qed.

(** Writing a reply stores it byte for byte across however many buffers the
    guest supplied when there is room, and otherwise stores as much as fits and
    reports an error; the room shrinks by exactly what was stored, and nothing is
    ever stored beyond the buffers. *)
Theorem write_all_fills w data :
  chain_ok (w_chain w) ->
  let '(w', r) := write_all w data in
  w_out w' = w_out w ++ take (room w) data /\
  room w' = (room w - length data)%nat /\
  chain_ok (w_chain w') /\
  r = (if decide (length data <= room w)%nat then Ok tt else Err (Custom WriteZero)).
Proof.
  intros Hok. pose proof (write_all_spec w data Hok) as Hw.
  destruct (write_all w data) as [w' r]. tauto.
Qed.

Lemma write_all_fills_witness :
  let w := {| w_chain := {| buffers := [[0; 0]; [0]; [0; 0]]; bytes_consumed := 0 |}; w_out := [] |} in
  let '(w', r) := write_all w [7; 8; 9; 10] in
  w_out w' = [7; 8; 9; 10] /\ room w' = 1%nat /\ chain_ok (w_chain w') /\ r = Ok tt.
Proof.
  apply (write_all_fills
    {| w_chain := {| buffers := [[0; 0]; [0]; [0; 0]]; bytes_consumed := 0 |}; w_out := [] |}).
  split; vm_compute; congruence.
Defined.

(** ** Splitting *)

Lemma split_bufs_spec bufs : forall off,
  0 <= off ->
  match split_bufs bufs off with
  | (Some (l, r), _) => concat l = take (Z.to_nat off) (concat bufs) /\
                        concat r = drop (Z.to_nat off) (concat bufs) /\ off < total_len bufs
  | (None, rem) => rem = off - total_len bufs /\ total_len bufs <= off
  end.
Proof.
  unfold total_len. induction bufs as [|vs bufs IH]; intros off Hoff; simpl.
  - unfold blen. simpl. lia.
  - rewrite blen_app. destruct (Z.ltb_spec off (blen vs)) as [Hlt|Hge].
    + pose proof (blen_nonneg (concat bufs)). unfold blen in Hlt.
      destruct (Z.ltb_spec 0 off) as [Hpos|Hz]; simpl.
      * rewrite app_nil_r, take_app_le, drop_app_le by lia. unfold blen in *. split_and!; lia || done.
      * assert (off = 0) as -> by lia. simpl. unfold blen in *. split_and!; lia || done.
    + specialize (IH (off - blen vs) ltac:(lia)).
      destruct (split_bufs bufs (off - blen vs)) as [[[l r]|] rem']; simpl.
      * destruct IH as (-> & -> & ?). unfold blen in *.
        rewrite take_app_ge, drop_app_ge by lia. split_and!; [f_equal; f_equal; lia|f_equal; lia|lia].
      * lia.
Qed.

Lemma split_at_spec c offset :
  0 <= offset ->
  match split_at c offset with
  | Ok (a, b) => view a = take (Z.to_nat offset) (view c) /\
                 view b = drop (Z.to_nat offset) (view c) /\
                 bytes_consumed a = bytes_consumed c /\
                 bytes_consumed b = 0 /\ offset <= blen (view c)
  | Err e => e = SplitOutOfBounds offset /\ blen (view c) < offset
  | Panic => False
  end.
Proof.
  intros Hoff. unfold split_at, view. pose proof (split_bufs_spec (buffers c) offset Hoff) as Hs.
  unfold total_len in Hs. destruct (split_bufs (buffers c) offset) as [[[l r]|] rem].
  - simpl. destruct Hs as (-> & -> & ?). split_and!; lia || done.
  - destruct Hs as [-> Hle].
    destruct (Z.eqb_spec (offset - blen (concat (buffers c))) 0); simpl; [|split; [done|lia]].
    unfold blen in *. rewrite take_ge, drop_ge by lia. split_and!; lia || done.
Qed.

(** Splitting a chain at an offset gives two consumers over the first
    [offset] bytes and over the rest, however the buffers are cut, and fails exactly
    when the offset lies beyond the end. *)
Theorem split_at_splits c offset :
  0 <= offset ->
  match split_at c offset with
  | Ok (a, b) => view a = take (Z.to_nat offset) (view c) /\
                 view b = drop (Z.to_nat offset) (view c) /\
                 bytes_consumed b = 0 /\ offset <= blen (view c)
  | Err e => e = SplitOutOfBounds offset /\ blen (view c) < offset
  | Panic => False
  end.
Proof.
  intros Hoff. pose proof (split_at_spec c offset Hoff).
  destruct (split_at c offset) as [[a b]|e|]; tauto.
Qed.

Lemma split_at_splits_witness :
  match split_at {| buffers := [[1; 2]; [3; 4]]; bytes_consumed := 0 |} 3 with
  | Ok (a, b) => view a = [1; 2; 3] /\ view b = [4] /\ bytes_consumed b = 0 /\ 3 <= 4
  | Err e => e = SplitOutOfBounds 3 /\ 4 < 3
  | Panic => False
  end.
Proof.
  apply (split_at_splits {| buffers := [[1; 2]; [3; 4]]; bytes_consumed := 0 |} 3). lia.
Defined.

(** ** Zero-copy transfers

    [xfer s bufs off] is the vectored file transfer of the standard library and the
    kernel ([preadv2] or [pwritev2]): [s] is the state of the file and of the guest
    memory.  It moves at most as many bytes as the slices hold. *)

Class VectoredFile (S : Type) := {
  xfer : S -> list slice -> Z -> S * io Z;
}.

Class VectoredFileLaws (S : Type) `{VectoredFile S} : Prop := {
  xfer_bound s bufs off s' n :
    xfer s bufs off = (s', Ok n) -> 0 <= n <= total_len bufs;
}.

(** [moved s]: how many bytes have gone to or come from the file so far.  A call that
    fails moves nothing (read(2), write(2)). *)
Class CountedFile (S : Type) `{VectoredFile S} := {
  moved : S -> Z;
  xfer_moved s bufs off :
    match xfer s bufs off with
    | (s', Ok n) => moved s' = moved s + n
    | (s', Err _) => moved s' = moved s
    | (_, Panic) => False
    end;
}.

Section ZeroCopy.
Context {S : Type} `{VectoredFile S}.

(** [read_vectored_at_volatile] and [write_vectored_at_volatile] of
    src/file_traits.rs: the [u64] offset is converted to [i64] with
    [try_into().unwrap()]. *)
Definition vectored_at_volatile (s : S) (bufs : list slice) (off : Z) : S * io Z :=
  match bufs with
  | [] => (s, Ok 0)
  | _ => if off <=? i64_max then xfer s bufs off else (s, Panic)
  end.

(** [Reader::write_to_file_at] and [Writer::read_from_file_at]. *)
Definition transfer_at (s : S) (c : consumer) (count off : Z) : S * io (Z * consumer) :=
  match select_bufs (buffers c) count 0 with
  | [] => (s, Ok (0, c))
  | bufs => let '(s', r) := vectored_at_volatile s bufs off in
            (s', consume c count (fun _ => r))
  end.

(** The loop of [ZcReader::write_to_file_at] and [ZcWriter::read_from_file_at];
    it yields the final offset.  Every round moves at least one byte. *)
Fixpoint zc_loop (fuel : nat) (s : S) (c : consumer) (count off : Z)
  : S * io (Z * consumer) :=
  if count =? 0 then (s, Ok (off, c))
  else match fuel with
       | O => (s, Ok (off, c))
       | Datatypes.S f =>
           match transfer_at s c count off with
           | (s', Ok (n, c')) =>
               if n =? 0 then (s', Ok (off, c'))
               else match checked_add u64_max off n with
                    | None => (s', Err (Custom Other))
                    | Some off' =>
                        match checked_sub count n with
                        | None => (s', Err (Custom Other))
                        | Some count' => zc_loop f s' c' count' off'
                        end
                    end
           | (s', Err e) => (s', Err e)
           | (s', Panic) => (s', Panic)
           end
       end.

Definition zc_transfer (s : S) (c : consumer) (count off : Z) : S * io (Z * consumer) :=
  match zc_loop (Z.to_nat count) s c count off with
  | (s', Ok (off', c')) => (s', Ok (off' - off, c'))
  | r => r
  end.

Lemma transfer_at_inv `{!VectoredFileLaws S} s c count off s' n c' :
  chain_ok c -> transfer_at s c count off = (s', Ok (n, c')) ->
  0 <= n <= blen (view c) /\ view c' = drop (Z.to_nat n) (view c) /\ chain_ok c'.
Proof.
  intros Hok Ht. unfold transfer_at in Ht.
  destruct (select_bufs (buffers c) count 0) as [|b bs] eqn:Hs.
  { simplify_eq. pose proof (blen_nonneg (view c')). by rewrite drop_0. }
  destruct (vectored_at_volatile s (b :: bs) off) as [s1 r] eqn:Hv.
  pose proof (consume_spec c count (fun _ => r) Hok) as Hc. rewrite Hs in Hc.
  destruct r as [m|e|]; [|rewrite Hc in Ht; simplify_eq..].
  assert (Hm : 0 <= m <= blen (view c)).
  { unfold vectored_at_volatile in Hv. case_match; [|simplify_eq]. apply xfer_bound in Hv.
    pose proof (selected_le c count). rewrite Hs in *. lia. }
  destruct (Hc Hm) as (c1 & Hc1 & Hv1 & _ & Hok1). rewrite Hc1 in Ht. by simplify_eq.
Qed.

Lemma zc_loop_bound `{!VectoredFileLaws S} fuel : forall s c count off s' off' c',
  chain_ok c -> 0 <= count -> zc_loop fuel s c count off = (s', Ok (off', c')) ->
  0 <= off' - off <= count /\ off' - off <= blen (view c) /\
  view c' = drop (Z.to_nat (off' - off)) (view c).
Proof.
  induction fuel as [|f IH]; intros s c count off s' off' c' Hok Hc Hz; cbn [zc_loop] in Hz;
    pose proof (blen_nonneg (view c));
    (destruct (Z.eqb_spec count 0) as [Hc0|Hc0]; [simplify_eq; rewrite Z.sub_diag, drop_0; lia || done|]).
  { simplify_eq. rewrite Z.sub_diag, drop_0. lia || done. }
  destruct (transfer_at s c count off) as [s1 [[n c1]|e|]] eqn:Ht; [|done|done].
  apply transfer_at_inv in Ht as (Hn & Hv1 & Hok1); [|done].
  destruct (Z.eqb_spec n 0) as [->|Hn0].
  { simplify_eq. rewrite Z.sub_diag, drop_0, Hv1. simpl. rewrite drop_0. lia || done. }
  rewrite checked_add_spec in Hz. case_decide; [|done].
  destruct (checked_sub count n) as [count'|] eqn:Hs; [|done].
  apply checked_sub_Some in Hs as [Hle ->].
  apply IH in Hz as (Hb & Hb2 & Hv2); [|done|lia].
  rewrite Hv1, blen_drop in Hb2. rewrite Hv2, Hv1, drop_drop.
  split_and!; [lia|lia|lia|]. f_equal. lia.
Qed.

(** What a file measures of its transfers adds up. *)
Lemma transfer_at_measure (f : S -> Z) s c count off s' n c' :
  (forall s bufs off s' n, xfer s bufs off = (s', Ok n) -> f s' = f s + n) ->
  transfer_at s c count off = (s', Ok (n, c')) -> f s' = f s + n.
Proof.
  intros Hf. unfold transfer_at, consume. destruct (select_bufs (buffers c) count 0) as [|b bs].
  { intros [= <- <- _]. lia. }
  unfold vectored_at_volatile. destruct (off <=? i64_max); [|done].
  destruct (xfer s (b :: bs) off) as [s1 r] eqn:Hx. intros [= <- Hr]. res_inv. by eapply Hf.
Qed.

Lemma zc_loop_measure (f : S -> Z) fuel :
  (forall s bufs off s' n, xfer s bufs off = (s', Ok n) -> f s' = f s + n) ->
  forall s c count off s' off' c', zc_loop fuel s c count off = (s', Ok (off', c')) ->
  f s' = f s + (off' - off).
Proof.
  intros Hf. induction fuel as [|fuel IH]; intros s c count off s' off' c' Hz; cbn [zc_loop] in Hz;
    (destruct (count =? 0); [simplify_eq; lia|]); [simplify_eq; lia|].
  destruct (transfer_at s c count off) as [s1 [[n c1]|e|]] eqn:Ht; [|done|done].
  apply (transfer_at_measure f) in Ht; [|done]. destruct (n =? 0) eqn:Hn.
  { zify_bool. simplify_eq. lia. }
  rewrite checked_add_spec in Hz. case_decide; [|done].
  destruct (checked_sub count n) as [count'|]; [|done]. apply IH in Hz. lia.
Qed.

(** Enough rounds: one byte per round at least. *)
Lemma zc_loop_fuel `{!VectoredFileLaws S} fuel : forall s c count off fuel',
  chain_ok c -> 0 <= count <= Z.of_nat fuel -> count <= Z.of_nat fuel' ->
  zc_loop fuel s c count off = zc_loop fuel' s c count off.
Proof.
  induction fuel as [|f IH]; intros s c count off [|f'] Hok Hf Hf'; cbn [zc_loop]; [done| | |].
  1,2: rewrite (proj2 (Z.eqb_eq count 0)) by lia; done.
  destruct (Z.eqb_spec count 0) as [Hc0|Hc0]; [done|].
  destruct (transfer_at s c count off) as [s1 [[n c1]|e|]] eqn:Ht; [|done|done].
  apply transfer_at_inv in Ht as (Hn & _ & Hok1); [|done].
  destruct (Z.eqb_spec n 0) as [Hn0|Hn0]; [done|]. destruct (checked_add u64_max off n); [|done].
  destruct (checked_sub count n) as [count'|] eqn:Hs; [|done].
  apply checked_sub_Some in Hs as [Hle ->]. apply IH; [done|lia|lia].
Qed.

(** The outcomes of one transfer. *)
Lemma transfer_at_outcome `{!VectoredFileLaws S, !CountedFile S} s c count off s' r :
  chain_ok c -> 0 < count -> transfer_at s c count off = (s', r) ->
  match r with
  | Ok (n, c') =>
      moved s' = moved s + n /\ 0 <= n <= blen (view c) /\ view c' = drop (Z.to_nat n) (view c) /\
      chain_ok c' /\ (n = 0 -> view c' = [] \/ exists bufs, xfer s bufs off = (s', Ok 0))
  | Err e => moved s' = moved s /\ exists bufs, xfer s bufs off = (s', Err e)
  | Panic => moved s' = moved s /\ i64_max < off
  end.
Proof.
  intros Hok Hc. unfold transfer_at.
  destruct (select_bufs (buffers c) count 0) as [|b bs] eqn:Hs.
  { intros [= <- <-]. pose proof (blen_nonneg (view c)). rewrite drop_0.
    split_and!; [lia|lia|lia|done|done|]. intros _. left.
    apply select_bufs_nil in Hs as [?|Hs]; [lia|]. unfold view. by rewrite Hs. }
  unfold vectored_at_volatile.
  assert (Hall : forall rx, match rx with Ok n => 0 <= n <= blen (view c) | _ => True end ->
    match rx with
    | Ok n => exists c', consume c count (fun _ => rx) = Ok (n, c') /\
        view c' = drop (Z.to_nat n) (view c) /\ chain_ok c'
    | Err e => consume c count (fun _ => rx) = Err e
    | Panic => consume c count (fun _ => rx) = Panic
    end).
  { intros rx. pose proof (consume_spec c count (fun _ => rx) Hok) as Hsp. rewrite Hs in Hsp.
    destruct rx; [|done..]. intros Hn. destruct (Hsp Hn) as (c' & ? & ? & _ & ?). by exists c'. }
  destruct (Z.leb_spec off i64_max).
  2: { rewrite (Hall Panic Logic.I). by intros [= <- <-]. }
  pose proof (xfer_moved s (b :: bs) off) as Hm.
  pose proof (xfer_bound s (b :: bs) off) as Hb.
  destruct (xfer s (b :: bs) off) as [s1 [n|e|]] eqn:Hx; [|rewrite (Hall (Err e) Logic.I)|done].
  2: { intros [= <- <-]. eauto. }
  assert (Hn : 0 <= n <= blen (view c)).
  { specialize (Hb s1 n eq_refl). pose proof (selected_le c count). rewrite Hs in *. lia. }
  destruct (Hall (Ok n) Hn) as (c' & -> & Hv & Hok'). intros [= <- <-].
  split_and!; try done; [lia|lia|]. intros ->. eauto.
Qed.

(** The outcomes of the loop, which has moved [moved s' - moved s] bytes. *)
Lemma zc_loop_outcome `{!VectoredFileLaws S, !CountedFile S} fuel : forall s c count off s' r,
  chain_ok c -> 0 <= count <= Z.of_nat fuel -> zc_loop fuel s c count off = (s', r) ->
  let n := moved s' - moved s in
  0 <= n <= blen (view c) /\
  match r with
  | Ok (off', c') =>
      off' = off + n /\ n <= count /\ view c' = drop (Z.to_nat n) (view c) /\
      (n = count \/ view c' = [] \/ exists s1 bufs, xfer s1 bufs (off + n) = (s', Ok 0))
  | Err e =>
      n <= count /\ (exists s1 bufs, xfer s1 bufs (off + n) = (s', Err e)) \/
      e = Custom Other /\ (count < n \/ u64_max < off + n)
  | Panic => n <= count /\ i64_max < off + n
  end.
Proof.
  induction fuel as [|f IH]; intros s c count off s' r Hok Hc; cbn [zc_loop];
    pose proof (blen_nonneg (view c)).
  { rewrite (proj2 (Z.eqb_eq count 0)) by lia. intros [= <- <-]. rewrite Z.sub_diag, drop_0.
    split_and!; [lia|lia|lia|lia|done|lia]. }
  destruct (Z.eqb_spec count 0) as [Hc0|Hc0].
  { intros [= <- <-]. rewrite Z.sub_diag, drop_0. split_and!; [lia|lia|lia|lia|done|lia]. }
  destruct (transfer_at s c count off) as [s1 r1] eqn:Ht.
  apply transfer_at_outcome in Ht; [|done|lia]. destruct r1 as [[n c1]|e|].
  2: { destruct Ht as (Hm & bufs & Hx). intros [= <- <-]. rewrite Hm, Z.sub_diag, Z.add_0_r.
    split; [lia|]. left. split; [lia|]. eauto. }
  2: { destruct Ht as [Hm Hx]. intros [= <- <-]. rewrite Hm, Z.sub_diag. lia. }
  destruct Ht as (Hm & Hn & Hv & Hok1 & Hz). destruct (Z.eqb_spec n 0) as [->|Hn0].
  { intros [= <- <-]. rewrite Hm, Z.add_simpl_l, Z.add_0_r.
    split_and!; [lia|lia|lia|lia|done|]. destruct (Hz eq_refl) as [|[bufs Hx]]; eauto. }
  rewrite checked_add_spec. case_decide.
  2: { intros [= <- <-]. split; [lia|]. right. split; [done|]. right. unfold u64_max in *. lia. }
  destruct (checked_sub count n) as [count'|] eqn:Hs.
  2: { intros [= <- <-]. unfold checked_sub in Hs. case_match; [done|]. zify_bool.
    split; [lia|]. right. split; [done|]. left. lia. }
  apply checked_sub_Some in Hs as [Hle ->]. intros Hl.
  apply IH in Hl as [Hb Hr]; [|done|lia]. rewrite Hv, blen_drop in Hb.
  replace (off + n + (moved s' - moved s1)) with (off + (moved s' - moved s)) in Hr by lia.
  split; [lia|]. destruct r as [[off' c']|e|]; [|destruct Hr as [[??]|[??]]; [left|right]; (split; [lia || done|]); [done|lia]|lia].
  destruct Hr as (-> & Hle' & Hv' & Hend). rewrite Hv' in Hend |- *. rewrite Hv, drop_drop in Hend |- *.
  replace (Z.to_nat n + Z.to_nat (moved s' - moved s1))%nat with (Z.to_nat (moved s' - moved s)) in * by lia.
  split_and!; [lia|lia|done|]. destruct Hend as [?|[?|?]]; [left; lia|auto..].
Qed.

(** C34: What a zero-copy transfer of [count] bytes between a guest buffer chain and a
    file at [off] can come to, whatever the file does.  A transfer that succeeds has moved
    exactly the number of bytes it reports, at most [count], they are the ones gone from
    the chain, and it stops short of [count] only when the chain is used up or the file
    has moved nothing.  One that fails does so with an error of the file, after at most
    [count] bytes; or because the file was handed whole slices and moved more than [count]
    bytes, or because the offset has left 64 bits.  It panics only at an offset above
    i64::MAX.  The loop ends within [count] rounds: more fuel changes nothing. *)
Theorem zc_transfer_contract `{!VectoredFileLaws S, !CountedFile S} s c count off s' r :
  chain_ok c -> 0 <= count -> zc_transfer s c count off = (s', r) ->
  let n := moved s' - moved s in
  0 <= n <= blen (view c) /\
  match r with
  | Ok (k, c') =>
      k = n /\ n <= count /\ view c' = drop (Z.to_nat n) (view c) /\
      (n = count \/ view c' = [] \/ exists s1 bufs, xfer s1 bufs (off + n) = (s', Ok 0))
  | Err e =>
      n <= count /\ (exists s1 bufs, xfer s1 bufs (off + n) = (s', Err e)) \/
      e = Custom Other /\ (count < n \/ u64_max < off + n)
  | Panic => n <= count /\ i64_max < off + n
  end /\
  (forall fuel, count <= Z.of_nat fuel ->
     zc_loop fuel s c count off = zc_loop (Z.to_nat count) s c count off).
Proof.
  intros Hok Hc Hz n.
  assert (Hfuel : forall fuel, count <= Z.of_nat fuel ->
    zc_loop fuel s c count off = zc_loop (Z.to_nat count) s c count off)
    by (intros fuel Hf; apply zc_loop_fuel; [done|lia|lia]).
  unfold zc_transfer in Hz. destruct (zc_loop (Z.to_nat count) s c count off) as [s1 r1] eqn:Hl.
  apply zc_loop_outcome in Hl as [Hb Hl]; [|done|lia].
  destruct r1 as [[off' c1]| |]; simplify_eq; [|done..]. destruct Hl as (-> & Hl).
  split; [done|]. split; [|done]. split; [unfold n; lia|done].
Qed.

(** A guest can make the daemon panic with a READ or WRITE request whose
    64-bit offset does not fit a signed 64-bit integer: whatever the file, the
    transfer panics as soon as there is a byte to move. *)
Theorem zc_transfer_offset_panics s c count off :
  0 < count -> buffers c <> [] -> i64_max < off ->
  (zc_transfer s c count off).2 = Panic.
Proof.
  intros Hc Hb Hoff. unfold zc_transfer.
  destruct (Z.to_nat count) as [|f] eqn:Hf; [lia|]. cbn [zc_loop].
  rewrite (proj2 (Z.eqb_neq count 0)) by lia.
  assert (exists b bs, select_bufs (buffers c) count 0 = b :: bs) as (b & bs & Hs).
  { destruct (buffers c) as [|b bs]; [done|]. simpl.
    rewrite (proj2 (Z.leb_gt count 0)) by lia. eauto. }
  unfold transfer_at, consume. rewrite Hs. simpl.
  by rewrite (proj2 (Z.leb_gt off i64_max)) by lia.
Qed.
End ZeroCopy.

(** A file that takes [k] bytes at a time, for the witnesses. *)
#[local] Instance chunk_file (k : Z) : VectoredFile Z :=
  {| xfer s bufs _ := (s + Z.min (Z.max 0 k) (total_len bufs), Ok (Z.min (Z.max 0 k) (total_len bufs))) |}.
#[local] Instance chunk_file_laws k : VectoredFileLaws Z (H := chunk_file k).
Proof.
  split. intros s bufs off s' n [= _ <-]. pose proof (blen_nonneg (concat bufs)).
  unfold total_len. lia.
Qed.
#[local] Instance chunk_file_counted k : CountedFile Z (H := chunk_file k).
Proof. by refine {| moved := fun s : Z => s |}. Defined.

(** Five bytes in rounds of two; and two bytes asked of a file that moves the whole slice
    of four. *)
Lemma zc_transfer_contract_witness :
  let c := {| buffers := [[1; 2; 3]; [4; 5]]; bytes_consumed := 0 |} in
  let c4 := {| buffers := [[1; 2; 3; 4]]; bytes_consumed := 0 |} in
  (exists s' c', zc_transfer (H := chunk_file 2) 0 c 5 100 = (s', Ok (5, c')) /\ view c' = [] /\ 5 = s' - 0) /\
  (exists s' e, zc_transfer (H := chunk_file 8) 0 c4 2 100 = (s', Err e) /\ 2 < s' - 0).
Proof.
  intros c c4. assert (Hok : chain_ok c) by (split; vm_compute; congruence).
  assert (Hok4 : chain_ok c4) by (split; vm_compute; congruence). split.
  - destruct (zc_transfer (H := chunk_file 2) 0 c 5 100) as [s' [[n c']|e|]] eqn:Hz;
      [|vm_compute in Hz; discriminate..].
    destruct (zc_transfer_contract (H := chunk_file 2) 0 c 5 100 _ _ Hok ltac:(lia) Hz)
      as (_ & (Hn & _ & Hv & _) & _).
    assert (n = 5 /\ s' = 5) as [-> ->] by (vm_compute in Hz; split; congruence).
    exists 5, c'. split; [reflexivity|]. split; [exact Hv|exact Hn].
  - destruct (zc_transfer (H := chunk_file 8) 0 c4 2 100) as [s' [[n c']|e|]] eqn:Hz;
      try (vm_compute in Hz; discriminate).
    destruct (zc_transfer_contract (H := chunk_file 8) 0 c4 2 100 _ _ Hok4 ltac:(lia) Hz)
      as (_ & [[_ (s1 & bufs & Hx)]|[_ [Hn|Hn]]] & _).
    + discriminate Hx.
    + exists s', e. split; [reflexivity|exact Hn].
    + exfalso. assert (s' = 4) as -> by (vm_compute in Hz; congruence). revert Hn. vm_compute. discriminate.
Defined.

Lemma zc_transfer_offset_panics_witness :
  (zc_transfer (H := chunk_file 2) 0 {| buffers := [[1; 2; 3]]; bytes_consumed := 0 |} 3 (2 ^ 63)).2 = Panic.
Proof. apply zc_transfer_offset_panics; [lia|discriminate|unfold i64_max; lia]. Defined.

(** The slices [consume] hands to its callback can hold more than [count]
    bytes in total: the last one is not shortened. *)
Theorem consume_hands_out_too_much (vs : slice) (count : Z) :
  0 < count < blen vs ->
  exists bufs, select_bufs [vs] count 0 = bufs /\ count < total_len bufs.
Proof.
  intros Hc. eexists; split; [done|]. simpl. rewrite (proj2 (Z.leb_gt count 0)) by lia.
  unfold total_len. simpl. rewrite app_nil_r. lia.
Qed.

Lemma consume_hands_out_too_much_witness :
  exists bufs, select_bufs [[1; 2; 3; 4]] 2 0 = bufs /\ 2 < total_len bufs.
Proof. apply (consume_hands_out_too_much [1; 2; 3; 4] 2). unfold blen; simpl; lia. Defined.
