(* ===== verification/SoftIdMap.v ===== *)
(** * UID and GID translation

    src/soft_idmap/cmdline.rs (the [--translate-uid] and [--translate-gid]
    syntax), src/soft_idmap/mod.rs and id_types.rs (the runtime maps) and
    src/idmap.rs (the [--uid-map] and [--gid-map] syntax of the sandbox).

    Strings are lists of code points.  The Unicode tables of [char] and the
    third-party [RangeMap] are interfaces; the theorems hold for everything that
    satisfies their laws. *)

From S2P Require Import Prelude.

(** [char::is_alphanumeric] and [char::to_lowercase]. *)
Class CharTables := {
  is_alphanumeric : Z -> bool;
  to_lowercase : Z -> list Z;
}.

Definition ascii_upper (c : Z) : bool := (65 <=? c) && (c <=? 90).
Definition ascii_lower (c : Z) : bool := (97 <=? c) && (c <=? 122).

Class CharTablesLaws `{CharTables} : Prop := {
  ascii_alphanumeric c :
    0 <= c < 128 -> is_alphanumeric c = is_digit c || ascii_upper c || ascii_lower c;
  ascii_lowercase c :
    0 <= c < 128 -> to_lowercase c = [if ascii_upper c then c + 32 else c];
}.

(** ** Command line: [cmdline::IdMap] *)

Inductive CmdlineIdMap :=
| Guest (from_guest to_host count : Z)
| Host (from_host to_guest count : Z)
| SquashGuest (from_guest to_host count : Z)
| SquashHost (from_host to_guest count : Z)
| Bidirectional (guest host count : Z)
| ForbidGuest (from_guest count : Z).

Inductive CmdlineError :=
| InvalidPrefix (prefix : list Z)
| InvalidLength (expected seen : nat)
| InvalidValue (value : list Z) (error : int_error).

#[export] Instance CmdlineIdMap_eq_dec : EqDecision CmdlineIdMap.
Proof. solve_decision. Defined.
#[export] Instance CmdlineError_eq_dec : EqDecision CmdlineError.
Proof. solve_decision. Defined.

(** [Display]: the word of a map and its fields, each after a separator. *)
Definition prefix_of (m : CmdlineIdMap) : list Z :=
  match m with
  | Guest _ _ _ => text "guest"
  | Host _ _ _ => text "host"
  | SquashGuest _ _ _ => text "squash-guest"
  | SquashHost _ _ _ => text "squash-host"
  | Bidirectional _ _ _ => text "map"
  | ForbidGuest _ _ => text "forbid-guest"
  end.

Definition fields_of (m : CmdlineIdMap) : list Z :=
  match m with
  | Guest a b c | Host a b c | SquashGuest a b c | SquashHost a b c | Bidirectional a b c =>
      [a; b; c]
  | ForbidGuest a c => [a; c]
  end.

Definition colon : Z := 58.

Definition cmdline_display (m : CmdlineIdMap) : list Z :=
  prefix_of m ++ colon :: join_with colon (map show (fields_of m)).

Section Parsing.
Context `{CharTables}.

(** The characters of a prefix; the first other one is the separator. *)
Definition prefix_char (c : Z) : bool := is_alphanumeric c || (c =? 45) || (c =? 95).

(** The loop of [pre_parse]: the lower-cased prefix, the separator and the rest. *)
Fixpoint take_prefix (chars prefix : list Z) : res CmdlineError (list Z * Z * list Z) :=
  match chars with
  | [] => Err (InvalidLength 1 0)
  | c :: chars' =>
      if prefix_char c then take_prefix chars' (prefix ++ to_lowercase c)
      else Ok (prefix, c, chars')
  end.

Definition parse_value (v : list Z) : res CmdlineError Z :=
  map_err (InvalidValue v) (parse_unsigned u32_max v).

Definition pre_parse (s : list Z) : res CmdlineError (list Z * list Z) :=
  '(prefix, separator, rest) ← take_prefix s [];
  values ← map_collect parse_value (split_on separator rest);
  Ok (prefix, values).

Definition check_arg_count (args : list Z) (expected_count : nat) : res CmdlineError unit :=
  if decide (length args = expected_count) then Ok tt
  else Err (InvalidLength expected_count (length args)).

(** [fields[i]]: out of range, the index panics. *)
Definition field (fields : list Z) (i : nat) : res CmdlineError Z := unwrap (fields !! i).

Definition three (make : Z -> Z -> Z -> CmdlineIdMap) (fields : list Z)
  : res CmdlineError CmdlineIdMap :=
  _ ← check_arg_count fields 3;
  a ← field fields 0; b ← field fields 1; c ← field fields 2; Ok (make a b c).

Definition cmdline_from_str (s : list Z) : res CmdlineError CmdlineIdMap :=
  '(prefix, fields) ← pre_parse s;
  if decide (prefix = text "guest") then three Guest fields
  else if decide (prefix = text "host") then three Host fields
  else if decide (prefix = text "squash-guest") then three SquashGuest fields
  else if decide (prefix = text "squash-host") then three SquashHost fields
  else if decide (prefix = text "forbid-guest") then
    _ ← check_arg_count fields 2;
    a ← field fields 0; b ← field fields 1; Ok (ForbidGuest a b)
  else if decide (prefix = text "map") then three Bidirectional fields
  else Err (InvalidPrefix prefix).

(** ** Sandbox maps: src/idmap.rs *)

Inductive IdMapError :=
| InvalidDelimiter
| IncompleteMap
| InvalidMapValue (error : int_error).

(** [parse_idmap]: the last character is the delimiter. *)
Definition parse_idmap (s : list Z) (expected_len : nat) : res IdMapError (list Z) :=
  match last s with
  | None => Err IncompleteMap
  | Some delimiter =>
      if is_alphanumeric delimiter then Err InvalidDelimiter
      else match removelast s with
           | c :: body =>
               if c =? delimiter then
                 let values := split_on delimiter body in
                 if decide (length values = expected_len)
                 then map_collect (fun v => map_err InvalidMapValue (parse_unsigned u32_max v)) values
                 else Err IncompleteMap
               else Err InvalidDelimiter
           | [] => Err InvalidDelimiter
           end
  end.
End Parsing.

Record UidMap := { inside_uid : Z; outside_uid : Z; uid_count : Z }.
Record GidMap := { inside_gid : Z; outside_gid : Z; gid_count : Z }.

Definition uid_map_from_str `{CharTables} (s : list Z) : res IdMapError UidMap :=
  fields ← parse_idmap s 3;
  a ← unwrap (fields !! 0%nat); b ← unwrap (fields !! 1%nat); c ← unwrap (fields !! 2%nat);
  Ok {| inside_uid := a; outside_uid := b; uid_count := c |}.

Definition gid_map_from_str `{CharTables} (s : list Z) : res IdMapError GidMap :=
  fields ← parse_idmap s 3;
  a ← unwrap (fields !! 0%nat); b ← unwrap (fields !! 1%nat); c ← unwrap (fields !! 2%nat);
  Ok {| inside_gid := a; outside_gid := b; gid_count := c |}.

(** [Display] writes the three fields between and around colons. *)
Definition uid_map_display (m : UidMap) : list Z :=
  colon :: show (inside_uid m) ++ colon :: show (outside_uid m) ++
  colon :: show (uid_count m) ++ [colon].

Definition gid_map_display (m : GidMap) : list Z :=
  colon :: show (inside_gid m) ++ colon :: show (outside_gid m) ++
  colon :: show (gid_count m) ++ [colon].

(** ** Runtime maps: [soft_idmap::IdMap] *)

(** Source ranges are half-open; [start <= end] is not enforced by the type. *)
Inductive MapEntry :=
| Squash (start stop to : Z)
| Range (start stop to_base : Z)
| FailMapping (start stop : Z).

Inductive MapError := ExplicitFailMapping (id : Z).

#[export] Instance MapEntry_eq_dec : EqDecision MapEntry.
Proof. solve_decision. Defined.

Definition source_range (e : MapEntry) : Z * Z :=
  match e with Squash a b _ | Range a b _ | FailMapping a b => (a, b) end.

Definition contains (e : MapEntry) (id : Z) : bool :=
  ((source_range e).1 <=? id) && (id <? (source_range e).2).

(** [MapEntry::map]; the sums of the id types are plain [u32] sums. *)
Definition entry_map (checks : bool) (e : MapEntry) (id : Z) : res MapError Z :=
  if contains e id then
    match e with
    | Squash _ _ to => Ok to
    | Range start _ to_base =>
        off ← plain_sub checks u32_max id start; plain_add checks u32_max to_base off
    | FailMapping _ _ => Err (ExplicitFailMapping id)
    end
  else Panic.

(** [From<MapError> for io::Error]. *)
Definition io_of_map_error (e : MapError) : io_error := Custom PermissionDenied.

(** [Display] of an entry computes the end of the target range. *)
Definition entry_display_sum (checks : bool) (e : MapEntry) : io unit :=
  match e with
  | Range start stop to_base =>
      len ← plain_sub checks u32_max stop start;
      _ ← plain_add checks u32_max to_base len; Ok tt
  | _ => Ok tt
  end.

(** [btree_range_map::RangeMap]. *)
Class RangeMap (M V : Type) := {
  range_new : M;
  range_get : M -> Z -> option V;
  range_intersects : M -> Z -> Z -> bool;
  range_insert : M -> Z -> Z -> V -> M;
}.

Class RangeMapLaws (M V : Type) `{RangeMap M V} : Prop := {
  range_get_new k : range_get range_new k = None;
  range_intersects_spec m lo hi :
    lo <= hi ->
    range_intersects m lo hi = true <-> exists k, lo <= k < hi /\ is_Some (range_get m k);
  range_get_insert m lo hi v k :
    lo <= hi ->
    range_get (range_insert m lo hi v) k =
    if decide (lo <= k < hi) then Some v else range_get m k;
}.

Section RuntimeMap.
Context {M : Type} `{RangeMap M MapEntry} (checks : bool).

Record IdMap := { guest_to_host : M; host_to_guest : M }.

Definition idmap_empty : IdMap := {| guest_to_host := range_new; host_to_guest := range_new |}.

(** An id outside every entry maps to itself. *)
Definition map_id (m : M) (id : Z) : res MapError Z :=
  match range_get m id with
  | Some e => entry_map checks e id
  | None => Ok id
  end.

Definition map_guest (m : IdMap) (guest_id : Z) : res MapError Z :=
  map_id (guest_to_host m) guest_id.

Definition map_host (m : IdMap) (host_id : Z) : res MapError Z :=
  map_id (host_to_guest m) host_id.

Definition do_push (m : M) (e : MapEntry) : io M :=
  let '(start, stop) := source_range e in
  if range_intersects m start stop
  then _ ← entry_display_sum checks e; Err (Custom Other)
  else Ok (range_insert m start stop e).

Definition push_guest_to_host (m : IdMap) (e : MapEntry) : io IdMap :=
  g ← do_push (guest_to_host m) e; Ok {| guest_to_host := g; host_to_guest := host_to_guest m |}.

Definition push_host_to_guest (m : IdMap) (e : MapEntry) : io IdMap :=
  h ← do_push (host_to_guest m) e; Ok {| guest_to_host := guest_to_host m; host_to_guest := h |}.

Definition id_range_from_u32 (base count : Z) : io (Z * Z) :=
  stop ← ok_or (checked_add u32_max base count) (Custom InvalidInput); Ok (base, stop).

(** One round of [try_from]. *)
Definition push_cmdline (m : IdMap) (entry : CmdlineIdMap) : io IdMap :=
  match entry with
  | Guest from_guest to_host count =>
      '(a, b) ← id_range_from_u32 from_guest count; push_guest_to_host m (Range a b to_host)
  | Host from_host to_guest count =>
      '(a, b) ← id_range_from_u32 from_host count; push_host_to_guest m (Range a b to_guest)
  | SquashGuest from_guest to_host count =>
      '(a, b) ← id_range_from_u32 from_guest count; push_guest_to_host m (Squash a b to_host)
  | SquashHost from_host to_guest count =>
      '(a, b) ← id_range_from_u32 from_host count; push_host_to_guest m (Squash a b to_guest)
  | Bidirectional guest host count =>
      '(a, b) ← id_range_from_u32 guest count;
      m' ← push_guest_to_host m (Range a b host);
      '(a', b') ← id_range_from_u32 host count;
      push_host_to_guest m' (Range a' b' guest)
  | ForbidGuest from_guest count =>
      stop ← plain_add checks u32_max from_guest count;
      push_guest_to_host m (FailMapping from_guest stop)
  end.

Fixpoint push_all (m : IdMap) (cmdline : list CmdlineIdMap) : io IdMap :=
  match cmdline with
  | [] => Ok m
  | entry :: rest => m' ← push_cmdline m entry; push_all m' rest
  end.

Definition idmap_try_from (cmdline : list CmdlineIdMap) : io IdMap := push_all idmap_empty cmdline.
End RuntimeMap.
Arguments IdMap M : clear implicits.
Arguments guest_to_host {M}.
Arguments host_to_guest {M}.

(** ** The command line syntax *)

Section ParsingFacts.
Context `{CharTables}.

Lemma take_prefix_spec chars prefix q sep rest :
  take_prefix chars prefix = Ok (q, sep, rest) <->
  exists p, chars = p ++ sep :: rest /\ Forall (fun c => prefix_char c = true) p /\
            prefix_char sep = false /\ q = prefix ++ concat (map to_lowercase p).
Proof.
  revert prefix; induction chars as [|c chars IH]; intros prefix; simpl.
  { split; [done|]. intros (p & Hp & _). by destruct p. }
  destruct (prefix_char c) eqn:Hc; [rewrite IH|]; split.
  - intros (p & -> & Hp & Hs & ->). exists (c :: p). simpl.
    rewrite (assoc_L (++)). auto.
  - intros ([|c' p] & Hp & Hall & Hs & ->); simplify_eq/=; [congruence|].
    inversion Hall; subst. exists p. rewrite (assoc_L (++)). auto.
  - intros [= <- <- <-]. exists []. rewrite app_nil_r. auto.
  - intros ([|c' p] & Hp & Hall & Hs & ->); simplify_eq/=; [by rewrite app_nil_r|].
    inversion Hall; congruence.
Qed.

Lemma take_prefix_no_panic chars prefix : take_prefix chars prefix <> Panic.
Proof. revert prefix; induction chars; intros; simpl; run; auto. Qed.

(** The fields of a map, split at the separator, parse to its numbers. *)
Lemma pre_parse_spec s prefix fields :
  pre_parse s = Ok (prefix, fields) <->
  exists p sep vs, s = p ++ sep :: join_with sep vs /\ vs <> [] /\
    Forall (fun c => prefix_char c = true) p /\ prefix_char sep = false /\
    Forall (fun v => sep ∉ v) vs /\
    prefix = concat (map to_lowercase p) /\
    Forall2 (fun v n => parse_unsigned u32_max v = Ok n) vs fields.
Proof.
  assert (Hpv : forall v n, parse_value v = Ok n <-> parse_unsigned u32_max v = Ok n).
  { intros v n. unfold parse_value. destruct (parse_unsigned u32_max v); simpl; naive_solver. }
  unfold pre_parse. split.
  - intros Hp. destruct (take_prefix s []) as [[[q sep] rest]|e|] eqn:Ht; try done.
    cbn [mbind res_bind] in Hp. res_inv. apply take_prefix_spec in Ht as (p & -> & Hall & Hs & ->).
    exists p, sep, (split_on sep rest). rewrite join_split.
    split_and!; eauto using split_on_nil_not, split_on_pieces.
    apply map_collect_Forall2 in E. eapply Forall2_impl; [done|]. naive_solver.
  - intros (p & sep & vs & -> & Hne & Hall & Hs & Hvs & -> & Hf).
    rewrite (proj2 (take_prefix_spec _ _ (concat (map to_lowercase p)) sep (join_with sep vs)))
      by eauto.
    cbn [mbind res_bind]. rewrite split_join by done.
    rewrite (proj2 (map_collect_Forall2 _ vs fields)); [done|].
    eapply Forall2_impl; [done|]. naive_solver.
Qed.

Lemma three_spec make fields m :
  three make fields = Ok m <-> exists a b c, fields = [a; b; c] /\ m = make a b c.
Proof.
  unfold three, check_arg_count. split.
  - case_decide; [|done]. destruct fields as [|a [|b [|c [|]]]]; try done.
    cbn. intros [= <-]. eauto.
  - by intros (a & b & c & -> & ->).
Qed.

Lemma from_fields prefix fields m :
  (if decide (prefix = text "guest") then three Guest fields
   else if decide (prefix = text "host") then three Host fields
   else if decide (prefix = text "squash-guest") then three SquashGuest fields
   else if decide (prefix = text "squash-host") then three SquashHost fields
   else if decide (prefix = text "forbid-guest") then
     _ ← check_arg_count fields 2;
     a ← field fields 0; b ← field fields 1; Ok (ForbidGuest a b)
   else if decide (prefix = text "map") then three Bidirectional fields
   else Err (InvalidPrefix prefix)) = Ok m <->
  prefix = prefix_of m /\ fields = fields_of m.
Proof.
  split.
  - repeat (case_decide; [subst|]); rewrite ?three_spec;
      try (intros (a & b & c & -> & ->); done); [|done].
    unfold check_arg_count. case_decide; [|done]. destruct fields as [|a [|b [|]]]; try done.
    cbn. by intros [= <-].
  - intros [-> ->]. by destruct m.
Qed.

Lemma from_str_ok p sep vs m :
  Forall (fun c => prefix_char c = true) p -> prefix_char sep = false ->
  Forall (fun v => sep ∉ v) vs -> concat (map to_lowercase p) = prefix_of m ->
  Forall2 (fun v n => parse_unsigned u32_max v = Ok n) vs (fields_of m) ->
  cmdline_from_str (p ++ sep :: join_with sep vs) = Ok m.
Proof.
  intros Hp Hs Hvs Hl Hf. unfold cmdline_from_str.
  rewrite (proj2 (pre_parse_spec _ (prefix_of m) (fields_of m))).
  - cbn [mbind res_bind]. by apply from_fields.
  - exists p, sep, vs. split_and!; try done.
    intros ->. apply Forall2_length in Hf. by destruct m.
Qed.

(** The command-line parser accepts exactly the documented language: a string
    denotes a map when it is the map's word in any letter case, followed by the
    map's fields, each in decimal and introduced by one and the same separator
    that is neither alphanumeric nor a dash nor an underscore. *)
Theorem cmdline_from_str_spec s m :
  cmdline_from_str s = Ok m <->
  exists p sep vs, s = p ++ sep :: join_with sep vs /\
    Forall (fun c => prefix_char c = true) p /\ prefix_char sep = false /\
    Forall (fun v => sep ∉ v) vs /\
    concat (map to_lowercase p) = prefix_of m /\
    Forall2 (fun v n => parse_unsigned u32_max v = Ok n) vs (fields_of m).
Proof.
  split; [|intros (p & sep & vs & -> & ? & ? & ? & ? & ?); by apply from_str_ok].
  unfold cmdline_from_str. destruct (pre_parse s) as [[prefix fields]|e|] eqn:Hp; try done.
  cbn [mbind res_bind]. intros [-> ->]%from_fields.
  apply pre_parse_spec in Hp as (p & sep & vs & -> & _ & ? & ? & ? & ? & ?).
  exists p, sep, vs. split_and!; auto.
Qed.
End ParsingFacts.

Section RoundTrips.
Context `{CharTablesLaws}.

Definition u32_fields (m : CmdlineIdMap) : Prop := Forall is_u32 (fields_of m).

Lemma digit_alphanumeric c : is_digit c = true -> is_alphanumeric c = true.
Proof.
  intros Hd. rewrite ascii_alphanumeric; [by rewrite Hd|]. unfold is_digit in Hd; zify_bool; lia.
Qed.

Lemma show_free sep n : is_alphanumeric sep = false -> is_u32 n -> sep ∉ show n.
Proof.
  intros Hs [Hn _]. apply show_clean; [done|]. apply not_true_is_false. intros Hd.
  apply digit_alphanumeric in Hd. congruence.
Qed.

Lemma parse_shown l :
  Forall is_u32 l -> Forall2 (fun v n => parse_unsigned u32_max v = Ok n) (map show l) l.
Proof.
  induction 1 as [|n l Hn Hl IH]; simpl; constructor; [|done].
  apply parse_show; [done|]. by vm_compute.
Qed.

Lemma colon_separates : is_alphanumeric colon = false.
Proof. by rewrite ascii_alphanumeric. Qed.

(** The words of the maps are lower case already. *)
Lemma prefix_of_lower m :
  Forall (fun c => prefix_char c = true) (prefix_of m) /\
  concat (map to_lowercase (prefix_of m)) = prefix_of m.
Proof.
  unfold prefix_char. destruct m; simpl; rewrite !ascii_lowercase by lia; split; try done;
    repeat constructor; rewrite ascii_alphanumeric by lia; done.
Qed.

(** Printing a command-line map and parsing it gives the map back, and the
    same text parses to the same map with the colons replaced by any other
    separator character and the word in any letter case. *)
Theorem cmdline_roundtrip m p sep :
  u32_fields m -> Forall (fun c => prefix_char c = true) p ->
  concat (map to_lowercase p) = prefix_of m -> prefix_char sep = false ->
  cmdline_from_str (cmdline_display m) = Ok m /\
  cmdline_from_str (p ++ sep :: join_with sep (map show (fields_of m))) = Ok m.
Proof.
  intros Hm Hp Hl Hs.
  assert (Hall : forall q c, Forall (fun c => prefix_char c = true) q ->
    concat (map to_lowercase q) = prefix_of m -> prefix_char c = false ->
    cmdline_from_str (q ++ c :: join_with c (map show (fields_of m))) = Ok m).
  { intros q c Hq Hlq Hc. apply from_str_ok; auto using parse_shown.
    apply Forall_map. eapply Forall_impl; [done|]. intros n Hn. apply show_free; [|done].
    unfold prefix_char in Hc. by destruct (is_alphanumeric c). }
  split; [|by apply Hall]. destruct (prefix_of_lower m) as [Hq Hlq].
  apply Hall; [done..|]. unfold prefix_char. by rewrite colon_separates.
Qed.

Lemma parse_idmap_shown sep l :
  is_alphanumeric sep = false -> Forall is_u32 l -> l <> [] ->
  parse_idmap (sep :: join_with sep (map show l) ++ [sep]) (length l) = Ok l.
Proof.
  intros Hs Hl Hne. unfold parse_idmap.
  rewrite app_comm_cons, last_snoc, Hs, removelast_last, Z.eqb_refl.
  rewrite split_join; [|by destruct l|].
  - rewrite length_map, decide_True by done. apply map_collect_Forall2.
    eapply Forall2_impl; [by apply parse_shown|]. by intros v n ->.
  - apply Forall_map. eapply Forall_impl; [done|]. intros n Hn. by apply show_free.
Qed.

(** Printing a sandbox UID or GID map and parsing it gives the map back. *)
Theorem uid_gid_map_roundtrip inside outside count :
  is_u32 inside -> is_u32 outside -> is_u32 count ->
  let u := {| inside_uid := inside; outside_uid := outside; uid_count := count |} in
  let g := {| inside_gid := inside; outside_gid := outside; gid_count := count |} in
  uid_map_from_str (uid_map_display u) = Ok u /\ gid_map_from_str (gid_map_display g) = Ok g.
Proof.
  intros Hi Ho Hc u g.
  assert (Hp : parse_idmap (colon :: join_with colon (map show [inside; outside; count]) ++ [colon])
                 3 = Ok [inside; outside; count]).
  { apply (parse_idmap_shown colon [inside; outside; count]); [apply colon_separates| |done].
    repeat (apply Forall_cons_2; [done|]). by apply Forall_nil. }
  cbn [map join_with] in Hp. rewrite <- !app_assoc, <- !app_comm_cons, <- !app_assoc,
    <- !app_comm_cons in Hp.
  unfold uid_map_from_str, gid_map_from_str, uid_map_display, gid_map_display. simpl.
  rewrite Hp. done.
Qed.
End RoundTrips.

(** ** What a list of command-line maps means *)

(** The entry a command-line map adds on either side, with exact sums. *)
Definition guest_side (c : CmdlineIdMap) : option MapEntry :=
  match c with
  | Guest f t n | Bidirectional f t n => Some (Range f (f + n) t)
  | SquashGuest f t n => Some (Squash f (f + n) t)
  | ForbidGuest f n => Some (FailMapping f (f + n))
  | Host _ _ _ | SquashHost _ _ _ => None
  end.

Definition host_side (c : CmdlineIdMap) : option MapEntry :=
  match c with
  | Host f t n | Bidirectional t f n => Some (Range f (f + n) t)
  | SquashHost f t n => Some (Squash f (f + n) t)
  | Guest _ _ _ | SquashGuest _ _ _ | ForbidGuest _ _ => None
  end.

Definition side_entries (side : CmdlineIdMap -> option MapEntry) (l : list CmdlineIdMap)
  : list MapEntry := l ≫= (fun c => option_list (side c)).

Definition entry_fits (o : option MapEntry) : Prop :=
  forall e, o = Some e -> (source_range e).2 <= u32_max.

Definition fits (c : CmdlineIdMap) : Prop := entry_fits (guest_side c) /\ entry_fits (host_side c).

Definition forbid_fits (c : CmdlineIdMap) : Prop :=
  match c with ForbidGuest f n => f + n <= u32_max | _ => True end.

Definition overlap (e e' : MapEntry) : Prop :=
  exists id, contains e id = true /\ contains e' id = true.

Fixpoint separate (es : list MapEntry) : Prop :=
  match es with
  | [] => True
  | e :: es' => (forall e', e' ∈ es' -> ~ overlap e e') /\ separate es'
  end.

(** [f] is the translation the entries [es] describe: an entry decides the ids
    of its range, every other id is kept. *)
Definition translates (checks : bool) (f : Z -> res MapError Z) (es : list MapEntry) : Prop :=
  (forall e id, e ∈ es -> contains e id = true -> f id = entry_map checks e id) /\
  (forall id, (forall e, e ∈ es -> contains e id = false) -> f id = Ok id).

Definition apart (es : list MapEntry) (o : option MapEntry) : Prop :=
  forall e e', o = Some e -> e' ∈ es -> ~ overlap e' e.

Lemma separate_app a b :
  separate (a ++ b) <->
  separate a /\ separate b /\ (forall e e', e ∈ a -> e' ∈ b -> ~ overlap e e').
Proof. induction a; set_solver. Qed.

Lemma separate_unique es e e' id :
  separate es -> e ∈ es -> e' ∈ es -> contains e id = true -> contains e' id = true -> e = e'.
Proof.
  intros Hs He He' Hc Hc'. induction es as [|x es IH]; [set_solver|].
  destruct Hs as [Hx Hs]. assert (Ho : forall a b, contains a id = true -> contains b id = true ->
    overlap a b) by (intros a b ? ?; by exists id).
  apply elem_of_cons in He as [->|He], He' as [->|He']; auto.
  - destruct (Hx e'); auto.
  - destruct (Hx e); auto.
Qed.

Lemma side_entries_cons side c l :
  side_entries side (c :: l) = option_list (side c) ++ side_entries side l.
Proof. done. Qed.

Lemma separate_option o : separate (option_list o).
Proof. destruct o; set_solver. Qed.

Lemma apart_option es o :
  apart es o <-> (forall e e', e ∈ es -> e' ∈ option_list o -> ~ overlap e e').
Proof. unfold apart. destruct o; set_solver. Qed.

Section RuntimeFacts.
Context {M : Type} `{RangeMapLaws M MapEntry} (checks : bool).

Definition represents (m : M) (es : list MapEntry) : Prop :=
  (forall k e, range_get m k = Some e -> e ∈ es /\ contains e k = true) /\
  (forall k e, e ∈ es -> contains e k = true -> is_Some (range_get m k)).

Lemma contains_spec e id :
  contains e id = true <-> (source_range e).1 <= id < (source_range e).2.
Proof. unfold contains. rewrite andb_true_iff, Z.leb_le, Z.ltb_lt. lia. Qed.

Lemma do_push_spec m es e :
  represents m es -> (source_range e).1 <= (source_range e).2 ->
  match do_push checks m e with
  | Ok m' => apart es (Some e) /\ represents m' (es ++ [e])
  | _ => ~ apart es (Some e)
  end.
Proof.
  intros [Hsound Hcompl] Hr. unfold do_push.
  destruct (source_range e) as [lo hi] eqn:Hse; cbn [fst snd] in Hr.
  assert (Hin : forall k, contains e k = true <-> lo <= k < hi)
    by (intros k; by rewrite contains_spec, Hse).
  destruct (range_intersects m lo hi) eqn:Hi.
  - apply range_intersects_spec in Hi as (k & Hk & [e' He']); [|done].
    apply Hsound in He' as [He' Hc']. assert (~ apart es (Some e)).
    { intros Ha. destruct (Ha e e'); [done..|]. exists k. by rewrite Hin. }
    by destruct (entry_display_sum checks e).
  - split.
    + intros e0 e' [= <-] He' (k & Hc' & Hc). apply Hin in Hc.
      assert (range_intersects m lo hi = true); [|congruence].
      apply range_intersects_spec; eauto.
    + split; intros k e0; rewrite range_get_insert by done; case_decide.
      * intros [= <-]. rewrite Hin. set_solver.
      * intros He0%Hsound. set_solver.
      * eauto.
      * rewrite elem_of_app, list_elem_of_singleton. intros [He0| ->]; [by apply Hcompl|].
        by rewrite Hin.
Qed.

Lemma represents_translates m es :
  represents m es -> separate es -> translates checks (map_id checks m) es.
Proof.
  intros [Hsound Hcompl] Hs. unfold map_id. split.
  - intros e id He Hc. destruct (Hcompl id e He Hc) as [e' He']. rewrite He'.
    apply Hsound in He' as [? ?]. f_equal. by eapply separate_unique.
  - intros id Hno. destruct (range_get m id) as [e|] eqn:He; [|done].
    apply Hsound in He as [He ?]. rewrite Hno in *; done.
Qed.

(** One command-line map: it is added when its ranges neither overflow nor meet
    an earlier one. *)
Definition idmap_represents (m : IdMap M) (gs hs : list MapEntry) : Prop :=
  represents (guest_to_host m) gs /\ represents (host_to_guest m) hs.

Definition acceptable (gs hs : list MapEntry) (c : CmdlineIdMap) : Prop :=
  fits c /\ apart gs (guest_side c) /\ apart hs (host_side c).

Lemma push_guest_spec m gs hs e :
  idmap_represents m gs hs -> (source_range e).1 <= (source_range e).2 ->
  match push_guest_to_host checks m e with
  | Ok m' => apart gs (Some e) /\ idmap_represents m' (gs ++ [e]) hs
  | _ => ~ apart gs (Some e)
  end.
Proof.
  intros [Hg Hh] Hr. pose proof (do_push_spec _ _ e Hg Hr) as Hp. unfold push_guest_to_host.
  destruct (do_push checks (guest_to_host m) e); simpl; [|done..].
  destruct Hp; by split_and!.
Qed.

Lemma push_host_spec m gs hs e :
  idmap_represents m gs hs -> (source_range e).1 <= (source_range e).2 ->
  match push_host_to_guest checks m e with
  | Ok m' => apart hs (Some e) /\ idmap_represents m' gs (hs ++ [e])
  | _ => ~ apart hs (Some e)
  end.
Proof.
  intros [Hg Hh] Hr. pose proof (do_push_spec _ _ e Hh Hr) as Hp. unfold push_host_to_guest.
  destruct (do_push checks (host_to_guest m) e); simpl; [|done..].
  destruct Hp; by split_and!.
Qed.
Lemma id_range_spec base count :
  id_range_from_u32 base count =
  if decide (base + count <= u32_max) then Ok (base, base + count) else Err (Custom InvalidInput).
Proof. unfold id_range_from_u32. rewrite checked_add_spec. by case_decide. Qed.

Ltac push_case lem f :=
  match goal with
  | Hm : idmap_represents ?m ?gs ?hs |- context [f ?m ?e] =>
      let Hp := fresh "Hp" in
      pose proof (lem m gs hs e Hm ltac:(simpl; lia)) as Hp; revert Hp;
      destruct (f m e); intros Hp
  end.

Lemma push_cmdline_spec m gs hs c :
  idmap_represents m gs hs -> u32_fields c -> checks = true \/ forbid_fits c ->
  match push_cmdline checks m c with
  | Ok m' => acceptable gs hs c /\
             idmap_represents m' (gs ++ option_list (guest_side c)) (hs ++ option_list (host_side c))
  | _ => ~ acceptable gs hs c
  end.
Proof.
  intros Hm Hu Hc. unfold acceptable, fits, entry_fits.
  destruct c as [f t n|f t n|f t n|f t n|g h n|f n]; unfold u32_fields, is_u32 in Hu;
    cbn [fields_of] in Hu; rewrite !Forall_cons in Hu; cbn [guest_side host_side option_list app];
    rewrite ?app_nil_r; cbn [push_cmdline].
  1-4: rewrite id_range_spec; case_decide; cbn [mbind res_bind];
    [|intros [[Hg Hh] _]; first [specialize (Hg _ eq_refl)|specialize (Hh _ eq_refl)]; done].
  - push_case push_guest_spec (push_guest_to_host checks); [|naive_solver..].
    destruct Hp. split_and!; try done; naive_solver.
  - push_case push_host_spec (push_host_to_guest checks); [|naive_solver..].
    destruct Hp. split_and!; try done; naive_solver.
  - push_case push_guest_spec (push_guest_to_host checks); [|naive_solver..].
    destruct Hp. split_and!; try done; naive_solver.
  - push_case push_host_spec (push_host_to_guest checks); [|naive_solver..].
    destruct Hp. split_and!; try done; naive_solver.
  - rewrite (id_range_spec g); case_decide; cbn [mbind res_bind];
      [|intros [[Hg Hh] _]; specialize (Hg _ eq_refl); done].
    push_case push_guest_spec (push_guest_to_host checks); cbn [mbind res_bind]; [|naive_solver..].
    rewrite (id_range_spec h); case_decide; cbn [mbind res_bind];
      [|intros [[Hg Hh] _]; specialize (Hh _ eq_refl); done].
    destruct Hp as [Ha Hm']. clear Hm. rename Hm' into Hm.
    push_case push_host_spec (push_host_to_guest checks); [|naive_solver..].
    destruct Hp. split_and!; try done; naive_solver.
  - unfold plain_add. destruct (Z.leb_spec (f + n) u32_max); cbn [mbind res_bind].
    + push_case push_guest_spec (push_guest_to_host checks); [|naive_solver..].
      destruct Hp. split_and!; try done; naive_solver.
    + destruct Hc as [->|Hc]; [|simpl in Hc; lia]. cbn.
      intros [[Hg Hh] _]; specialize (Hg _ eq_refl). simpl in Hg. lia.
Qed.
(** A whole command line, after the entries [gs] and [hs]. *)
Definition all_acceptable (gs hs : list MapEntry) (l : list CmdlineIdMap) : Prop :=
  Forall fits l /\ separate (gs ++ side_entries guest_side l) /\
  separate (hs ++ side_entries host_side l).

Lemma all_acceptable_cons gs hs c l :
  separate gs -> separate hs ->
  all_acceptable gs hs (c :: l) <->
  acceptable gs hs c /\
  all_acceptable (gs ++ option_list (guest_side c)) (hs ++ option_list (host_side c)) l.
Proof.
  intros Hg Hh. unfold all_acceptable, acceptable.
  rewrite Forall_cons, !side_entries_cons, !app_assoc, !apart_option. split; [|tauto].
  intros ([Hf Hl] & Hsg & Hsh). split_and!; try done.
  - by apply separate_app in Hsg as [(_ & _ & ?)%separate_app _].
  - by apply separate_app in Hsh as [(_ & _ & ?)%separate_app _].
Qed.

Lemma push_all_spec l m gs hs :
  idmap_represents m gs hs -> separate gs -> separate hs ->
  Forall u32_fields l -> checks = true \/ Forall forbid_fits l ->
  match push_all checks m l with
  | Ok m' => all_acceptable gs hs l /\
      idmap_represents m' (gs ++ side_entries guest_side l) (hs ++ side_entries host_side l)
  | _ => ~ all_acceptable gs hs l
  end.
Proof.
  revert m gs hs; induction l as [|c l IH]; intros m gs hs Hm Hg Hh Hu Hc.
  { cbn. unfold all_acceptable. cbn. rewrite !app_nil_r. by split_and!. }
  apply Forall_cons in Hu as [Hu Hul]. rewrite Forall_cons in Hc.
  pose proof (all_acceptable_cons gs hs c l Hg Hh) as Hcons. cbn [push_all].
  pose proof (push_cmdline_spec m gs hs c Hm Hu ltac:(naive_solver)) as Hp.
  destruct (push_cmdline checks m c) as [m'|e|]; cbn [mbind res_bind]; [|tauto..].
  destruct Hp as [Ha Hm'].
  assert (separate (gs ++ option_list (guest_side c)) /\
          separate (hs ++ option_list (host_side c))) as [Hg' Hh'].
  { destruct Ha as (_ & Ha & Hb). rewrite apart_option in Ha, Hb.
    rewrite !separate_app. split_and!; auto using separate_option. }
  pose proof (IH _ _ _ Hm' Hg' Hh' Hul ltac:(naive_solver)) as Hr.
  rewrite !side_entries_cons, !app_assoc. destruct (push_all checks m' l); tauto.
Qed.

Lemma idmap_try_from_ok l :
  Forall u32_fields l -> checks = true \/ Forall forbid_fits l ->
  match idmap_try_from (M := M) checks l with
  | Ok m => all_acceptable [] [] l /\
      translates checks (map_guest checks m) (side_entries guest_side l) /\
      translates checks (map_host checks m) (side_entries host_side l)
  | _ => ~ all_acceptable [] [] l
  end.
Proof.
  intros Hu Hc. assert (He : idmap_represents idmap_empty [] []).
  { split; split; intros k e; simpl; rewrite ?range_get_new; set_solver. }
  pose proof (push_all_spec l _ _ _ He I I Hu Hc) as Hp. unfold idmap_try_from.
  destruct (push_all checks idmap_empty l) as [m|e|]; [|done..].
  destruct Hp as [Ha [Hg Hh]]. split; [done|]. destruct Ha as (_ & Hsg & Hsh).
  split; by apply represents_translates.
Qed.

(** A command line in which no range leaves the 32-bit ids and, on either side, no two
    ranges share an id. *)
Definition well_formed (l : list CmdlineIdMap) : Prop :=
  Forall fits l /\ separate (side_entries guest_side l) /\ separate (side_entries host_side l).

(** C20: Converting the command line to the runtime id maps.  A command line in which no
    source range leaves the 32-bit ids and, on either side, no two ranges share an id is
    accepted by every build, and the maps it gives translate every id as the one range that
    holds it says, and keep the ids of no range.  Any other command line is refused by
    builds with overflow checks; builds without them refuse it too, unless it has a
    forbidden range that leaves the 32-bit ids: that one sum is not checked, and wraps. *)
Theorem idmap_try_from_spec l :
  Forall u32_fields l ->
  (well_formed l -> exists m, idmap_try_from (M := M) checks l = Ok m /\
     translates checks (map_guest checks m) (side_entries guest_side l) /\
     translates checks (map_host checks m) (side_entries host_side l)) /\
  (~ well_formed l -> checks = true \/ Forall forbid_fits l ->
     forall m, idmap_try_from (M := M) checks l <> Ok m).
Proof.
  intros Hu. split.
  - intros Hw. assert (Hf : Forall forbid_fits l).
    { destruct Hw as [Hf _]. eapply Forall_impl; [done|]. intros c [Hg _]. destruct c; try done.
      by apply (Hg _ eq_refl). }
    pose proof (idmap_try_from_ok l Hu (or_intror Hf)) as Ht.
    destruct (idmap_try_from checks l) as [m|?|]; [exists m; tauto|done..].
  - intros Hw Hc m Hm. pose proof (idmap_try_from_ok l Hu Hc) as Ht. rewrite Hm in Ht. by destruct Ht.
Qed.

(** C31: A bidirectional map is invertible: once the command line is accepted, a
    guest id of its range translates to the host id at the same offset, and that
    host id translates back. *)
Theorem bidirectional_inverse l m g h n id :
  Forall u32_fields l -> checks = true \/ Forall forbid_fits l ->
  idmap_try_from (M := M) checks l = Ok m -> Bidirectional g h n ∈ l -> g <= id < g + n ->
  map_guest checks m id = Ok (h + (id - g)) /\ map_host checks m (h + (id - g)) = Ok id.
Proof.
  intros Hu Hc Hm Hin Hid. pose proof (idmap_try_from_ok l Hu Hc) as Ht. rewrite Hm in Ht.
  destruct Ht as ((Hf & _ & _) & [Hg _] & [Hh _]).
  rewrite Forall_forall in Hf. destruct (Hf _ Hin) as [Hfg Hfh].
  specialize (Hfg _ eq_refl). specialize (Hfh _ eq_refl). simpl in Hfg, Hfh.
  assert (Hside : forall side e, side (Bidirectional g h n) = Some e -> e ∈ side_entries side l).
  { intros side e He. unfold side_entries. apply list_elem_of_bind. eexists. split; [|done].
    rewrite He. set_solver. }
  rewrite (Hg (Range g (g + n) h)), (Hh (Range h (h + n) g));
    [|by apply Hside|apply contains_spec; simpl; lia|by apply Hside|apply contains_spec; simpl; lia].
  unfold entry_map. rewrite !(proj2 (contains_spec _ _)) by (simpl; lia).
  rewrite !plain_sub_small by lia. cbn [mbind res_bind].
  rewrite !plain_add_small by lia. split; f_equal; lia.
Qed.

(** Two sums the conversion leaves unchecked.  A forbidden range that leaves
    the 32-bit ids panics in builds with overflow checks, where every other kind
    of map reports an error; and a range whose targets leave the 32-bit ids is
    accepted and panics when an id past the end is translated. *)
Theorem idmap_unchecked_sums f t n :
  checks = true -> is_u32 f -> is_u32 t -> is_u32 n ->
  (u32_max < f + n ->
   idmap_try_from (M := M) checks [ForbidGuest f n] = Panic /\
   idmap_try_from (M := M) checks [Guest f t n] = Err (Custom InvalidInput)) /\
  (f + n <= u32_max -> u32_max < t + (n - 1) -> exists m,
   idmap_try_from (M := M) checks [Guest f t n] = Ok m /\
   map_guest checks m (f + (n - 1)) = Panic).
Proof.
  intros Hck Hf Ht Hn. split.
  - intros Hov. unfold idmap_try_from. cbn [push_all push_cmdline].
    rewrite id_range_spec, decide_False by lia. unfold plain_add.
    rewrite (proj2 (Z.leb_gt _ _)), Hck by lia. done.
  - intros Hfit Hov. assert (Hu : Forall u32_fields [Guest f t n]).
    { apply Forall_singleton. repeat (apply Forall_cons_2; [done|]). by apply Forall_nil. }
    pose proof (idmap_try_from_ok [Guest f t n] Hu (or_introl Hck)) as Hs.
    assert (Hacc : all_acceptable [] [] [Guest f t n]).
    { split; [apply Forall_singleton; split; intros ? [= <-]; simpl; lia|cbn; set_solver]. }
    destruct (idmap_try_from checks [Guest f t n]) as [m|e|] eqn:Hm; [|done..]. exists m. split; [done|]. destruct Hs as (_ & [Hg _] & _). unfold is_u32 in *.
    rewrite (Hg (Range f (f + n) t)); [|set_solver|apply contains_spec; simpl; lia].
    unfold entry_map. rewrite (proj2 (contains_spec _ _)) by (simpl; lia).
    rewrite plain_sub_small by lia. cbn [mbind res_bind]. unfold plain_add.
    rewrite (proj2 (Z.leb_gt _ _)), Hck by lia. done.
Qed.
End RuntimeFacts.

(** ** Instances: the ASCII tables and a range map as a list of ranges *)

#[local] Instance ascii_tables : CharTables := {|
  is_alphanumeric c := is_digit c || ascii_upper c || ascii_lower c;
  to_lowercase c := [if ascii_upper c then c + 32 else c];
|}.
#[local] Instance ascii_tables_laws : CharTablesLaws.
Proof. by split. Qed.

Definition in_range_entry (k : Z) (r : Z * Z * MapEntry) : bool :=
  (r.1.1 <=? k) && (k <? r.1.2).

#[local] Instance list_range_map : RangeMap (list (Z * Z * MapEntry)) MapEntry := {|
  range_new := [];
  range_get m k := snd <$> find (in_range_entry k) m;
  range_intersects m lo hi :=
    existsb (fun r => (Z.max lo r.1.1 <? Z.min hi r.1.2)) m;
  range_insert m lo hi v := (lo, hi, v) :: m;
|}.

#[local] Instance list_range_map_laws : RangeMapLaws (list (Z * Z * MapEntry)) MapEntry.
Proof.
  split; simpl; [done| |].
  - intros m lo hi _. rewrite existsb_exists. split.
    + intros (r & Hr & Hlt%Z.ltb_lt). exists (Z.max lo r.1.1). split; [lia|].
      destruct (find _ m) as [r'|] eqn:Hf; [by eexists|].
      eapply find_none in Hf; [|done]. unfold in_range_entry in Hf.
      rewrite (proj2 (Z.leb_le _ _)), (proj2 (Z.ltb_lt _ _)) in Hf by lia. done.
    + intros (k & Hk & [v Hv]). destruct (find _ m) as [r|] eqn:Hf; [|done].
      apply find_some in Hf as [Hr Hi]. exists r. split; [done|].
      unfold in_range_entry in Hi. zify_bool. apply Z.ltb_lt. lia.
  - intros m lo hi v k _. unfold in_range_entry at 1. simpl.
    case_decide; [by rewrite (proj2 (Z.leb_le _ _)), (proj2 (Z.ltb_lt _ _)) by lia|].
    destruct (Z.leb_spec lo k), (Z.ltb_spec k hi); simpl; try done; lia.
Qed.

Ltac u32_list := repeat constructor; vm_compute; congruence.

Lemma cmdline_roundtrip_witness :
  cmdline_from_str (cmdline_display (ForbidGuest 7 10)) = Ok (ForbidGuest 7 10) /\
  cmdline_from_str (text "FORBID-guest/7/10") = Ok (ForbidGuest 7 10).
Proof. apply (cmdline_roundtrip (ForbidGuest 7 10) (text "FORBID-guest") 47); u32_list. Defined.

Lemma uid_gid_map_roundtrip_witness :
  let u := {| inside_uid := 0; outside_uid := 100000; uid_count := 65536 |} in
  let g := {| inside_gid := 0; outside_gid := 100000; gid_count := 65536 |} in
  uid_map_from_str (uid_map_display u) = Ok u /\ gid_map_from_str (gid_map_display g) = Ok g.
Proof. apply (uid_gid_map_roundtrip 0 100000 65536); u32_list. Defined.

Definition demo_cmdline : list CmdlineIdMap :=
  [Bidirectional 0 1000 10; SquashGuest 10 65534 5; ForbidGuest 20 2].

Lemma demo_well_formed : well_formed demo_cmdline.
Proof.
  assert (Ho : forall e e' : MapEntry, (source_range e).2 <= (source_range e').1 -> ~ overlap e e').
  { intros e e' Hle (id & Hc & Hc'). rewrite contains_spec in Hc, Hc'. lia. }
  split_and!.
  - repeat constructor; by intros ? [= <-].
  - cbn. split_and!; try done; intros e'; rewrite ?elem_of_cons, ?elem_of_nil; intros He;
      destruct_or?; subst; try done; apply Ho; vm_compute; discriminate.
  - cbn. split_and!; try done. intros e' He. by apply elem_of_nil in He.
Qed.

(** Accepted without overflow checks; with two ranges that meet, refused. *)
Lemma idmap_try_from_spec_witness :
  (exists m, idmap_try_from (M := list (Z * Z * MapEntry)) false demo_cmdline = Ok m /\
     map_guest false m 3 = Ok 1003) /\
  (forall m, idmap_try_from (M := list (Z * Z * MapEntry)) false
     [Guest 0 5 3; ForbidGuest 2 1] <> Ok m).
Proof.
  split.
  - destruct (idmap_try_from_spec (M := list (Z * Z * MapEntry)) false demo_cmdline) as [Hok _]; [u32_list|].
    destruct (Hok demo_well_formed) as (m & Hm & [Hg _] & _). exists m. split; [exact Hm|].
    rewrite (Hg (Range 0 10 1000)); [reflexivity|by left|reflexivity].
  - destruct (idmap_try_from_spec (M := list (Z * Z * MapEntry)) false [Guest 0 5 3; ForbidGuest 2 1])
      as [_ Hno]; [u32_list|]. apply Hno; [|right; u32_list].
    intros (_ & [Hs _] & _). apply (Hs (FailMapping 2 3)); [by left|]. exists 2. done.
Defined.

Lemma bidirectional_inverse_witness : exists m,
  idmap_try_from (M := list (Z * Z * MapEntry)) false demo_cmdline = Ok m /\
  map_guest false m 3 = Ok 1003 /\ map_host false m 1003 = Ok 3.
Proof.
  eexists. split; [vm_compute; reflexivity|].
  apply (bidirectional_inverse (M := list (Z * Z * MapEntry)) false demo_cmdline _ 0 1000 10 3).
  - u32_list.
  - right. u32_list.
  - vm_compute. reflexivity.
  - by left.
  - lia.
Defined.

Lemma idmap_unchecked_sums_witness :
  idmap_try_from (M := list (Z * Z * MapEntry)) true [ForbidGuest 4294967295 2] = Panic.
Proof.
  apply (idmap_unchecked_sums (M := list (Z * Z * MapEntry)) true 4294967295 0 2);
    [done|u32_list..|vm_compute; done].
Defined.
