(* ===== verification/XattrMap.v ===== *)
(** * Extended attribute translation: src/passthrough/xattrmap.rs

    Rule text is a list of code points, attribute names and the fields of a rule
    are lists of bytes. *)

From S2P Require Import Prelude.

Inductive ErrorKind :=
| InvalidScope (got : list Z)
| InvalidType (got : list Z)
| InvalidDelimiter
| IncompleteRule
| MapRuleViolation
| NoRulesProvided
| UnterminatedMapping.

Record XattrError := { cause : ErrorKind; culprit : option nat }.

#[export] Instance ErrorKind_eq_dec : EqDecision ErrorKind.
Proof. solve_decision. Defined.
#[export] Instance XattrError_eq_dec : EqDecision XattrError.
Proof. solve_decision. Defined.

(** [Scope] is a set of two flags. *)
Definition CLIENT : Z := 1.
Definition SERVER : Z := 2.
Definition both_scopes : Z := Z.lor CLIENT SERVER.

Definition scope_from_bytes (bytes : list Z) : res ErrorKind Z :=
  if decide (bytes = text "all") then Ok both_scopes
  else if decide (bytes = text "client") then Ok CLIENT
  else if decide (bytes = text "server") then Ok SERVER
  else Err (InvalidScope bytes).

Inductive RuleType := Prefix | Okay | Bad | Unsupported | MapType.

#[export] Instance RuleType_eq_dec : EqDecision RuleType.
Proof. solve_decision. Defined.

Definition type_from_bytes (bytes : list Z) : res ErrorKind RuleType :=
  if decide (bytes = text "prefix") then Ok Prefix
  else if decide (bytes = text "ok") then Ok Okay
  else if decide (bytes = text "bad") then Ok Bad
  else if decide (bytes = text "unsupported") then Ok Unsupported
  else if decide (bytes = text "map") then Ok MapType
  else Err (InvalidType bytes).

Record Rule := { scope : Z; type_ : RuleType; key : list Z; prepend : list Z }.

#[export] Instance Rule_eq_dec : EqDecision Rule.
Proof. solve_decision. Defined.

(** [Rule::matches]; the last case is [panic!("ambiguous scope")]. *)
Definition rule_matches {E} (r : Rule) (sc : Z) (xattr_name : list Z) : res E bool :=
  if negb (has_all (scope r) sc) then Ok false
  else if sc =? CLIENT then Ok (starts_with (key r) xattr_name)
  else if sc =? SERVER then Ok (starts_with (prepend r) xattr_name)
  else Panic.

(** [CString::new(bytes).unwrap()]. *)
Definition cstring_new {E} (bytes : list Z) : res E (list Z) :=
  if decide (0 ∈ bytes) then Panic else Ok bytes.

(** [next_token]: up to the delimiter, which is consumed; characters are truncated
    to bytes. *)
Fixpoint next_token (delim : Z) (tokens : list Z) : res ErrorKind (list Z * list Z) :=
  match tokens with
  | [] => Err IncompleteRule
  | ch :: tokens' =>
      if ch =? delim then Ok ([], tokens')
      else '(bytes, rest) ← next_token delim tokens'; Ok (ch mod 256 :: bytes, rest)
  end.

(** [Rule::from_tokens]: the rule and the characters after it. *)
Definition from_tokens (tokens : list Z) : res ErrorKind (Rule * list Z) :=
  match tokens with
  | [] => Err InvalidDelimiter
  | delim :: tokens1 =>
      '(t, tokens2) ← next_token delim tokens1;
      ty ← type_from_bytes t;
      '(sc, tokens3) ←
        match ty with
        | MapType => Ok (both_scopes, tokens2)
        | _ => '(s, tokens3) ← next_token delim tokens2;
               sc ← scope_from_bytes s; Ok (sc, tokens3)
        end;
      '(k, tokens4) ← next_token delim tokens3;
      k ← cstring_new k;
      '(p, tokens5) ← next_token delim tokens4;
      p ← cstring_new p;
      Ok ({| scope := sc; type_ := ty; key := k; prepend := p |}, tokens5)
  end.

Definition expand_map_type {E} (r : Rule) : res E (list Rule) :=
  if decide (type_ r = MapType) then
    Ok ({| type_ := Prefix; scope := both_scopes; key := key r; prepend := prepend r |} ::
        if decide (key r = []) then
          [{| type_ := Bad; scope := both_scopes; key := []; prepend := [] |}]
        else
          [{| type_ := Bad; scope := both_scopes; key := prepend r; prepend := key r |};
           {| type_ := Okay; scope := both_scopes; key := []; prepend := [] |}])
  else Panic.

(** [char::is_whitespace] (the Unicode White_Space property) and
    [char::is_ascii_whitespace]. *)
Definition is_whitespace (c : Z) : bool :=
  ((9 <=? c) && (c <=? 13)) || (c =? 32) || (c =? 133) || (c =? 160) || (c =? 5760) ||
  ((8192 <=? c) && (c <=? 8202)) || (c =? 8232) || (c =? 8233) || (c =? 8239) ||
  (c =? 8287) || (c =? 12288).

Definition is_ascii_whitespace (c : Z) : bool :=
  (c =? 9) || (c =? 10) || (c =? 12) || (c =? 13) || (c =? 32).

Fixpoint trim_start (l : list Z) : list Z :=
  match l with
  | c :: l' => if is_whitespace c then trim_start l' else l
  | [] => []
  end.

Definition trim (l : list Z) : list Z := reverse (trim_start (reverse (trim_start l))).

(** The loop of [XattrMap::try_from]; every round consumes a character, so as
    many rounds as there are characters are enough. *)
Fixpoint parse_rules (fuel : nat) (unparsed : list Z) (rules : list Rule)
  : res XattrError (list Rule) :=
  match fuel, unparsed with
  | _, [] => Ok rules
  | O, _ => Ok rules
  | S f, ch :: rest =>
      if is_ascii_whitespace ch then parse_rules f rest rules
      else
        '(rule, rest') ←
          map_err (fun e => {| cause := e; culprit := Some (length rules + 1)%nat |})
            (from_tokens unparsed);
        if decide (type_ rule = MapType) then
          match rest' with
          | [] => rs ← expand_map_type rule; parse_rules f rest' (rules ++ rs)
          | _ => Err {| cause := MapRuleViolation; culprit := Some (length rules + 1)%nat |}
          end
        else parse_rules f rest' (rules ++ [rule])
  end.

Record XattrMap := { rules : list Rule }.

Definition xattrmap_try_from (input : list Z) : res XattrError XattrMap :=
  let trimmed := trim input in
  rs ← parse_rules (length trimmed) trimmed [];
  match rs with
  | [] => Err {| cause := NoRulesProvided; culprit := None |}
  | _ => Ok {| rules := rs |}
  end.

(** [find_rule]: the first rule that matches. *)
Fixpoint find_rule (rs : list Rule) (sc : Z) (xattr_name : list Z) : res XattrError Rule :=
  match rs with
  | [] => Err {| cause := UnterminatedMapping; culprit := None |}
  | r :: rs' =>
      hit ← rule_matches r sc xattr_name;
      if hit : bool then Ok r else find_rule rs' sc xattr_name
  end.

Inductive AppliedRule := Pass (name : list Z) | Deny | UnsupportedName.

Definition map_client_xattr (m : XattrMap) (xattr_name : list Z) : res XattrError AppliedRule :=
  rule ← find_rule (rules m) CLIENT xattr_name;
  match type_ rule with
  | Okay => Ok (Pass xattr_name)
  | Bad => Ok Deny
  | Unsupported => Ok UnsupportedName
  | Prefix => s ← cstring_new (prepend rule ++ xattr_name); Ok (Pass s)
  | MapType => Panic
  end.

(** One name of the server's list: [None] hides it. *)
Definition map_server_name (m : XattrMap) (xattr_name : list Z) : res XattrError (option (list Z)) :=
  rule ← find_rule (rules m) SERVER xattr_name;
  match type_ rule with
  | Bad | Unsupported => Ok None
  | Okay => Ok (Some xattr_name)
  | Prefix => Ok (Some (drop (length (prepend rule)) xattr_name))
  | MapType => Panic
  end.

Fixpoint map_server_names (m : XattrMap) (names : list (list Z)) (filtered : list Z)
  : res XattrError (list Z) :=
  match names with
  | [] => Ok filtered
  | n :: names' =>
      processed ← map_server_name m n;
      map_server_names m names'
        match processed with Some p => filtered ++ p ++ [0] | None => filtered end
  end.

Definition map_server_xattrlist (m : XattrMap) (xattr_names : list Z) : res XattrError (list Z) :=
  let unprocessed := filter (fun bs => bs <> []) (split_on 0 xattr_names) in
  filtered ← map_server_names m unprocessed [];
  Ok match filtered with [] => [0] | _ => filtered end.

(** ** Printed rules *)

Definition type_word (t : RuleType) : list Z :=
  match t with
  | Prefix => text "prefix" | Okay => text "ok" | Bad => text "bad"
  | Unsupported => text "unsupported" | MapType => text "map"
  end.

Definition scope_word (sc : Z) : list Z :=
  if sc =? CLIENT then text "client" else if sc =? SERVER then text "server" else text "all".

Definition printed (d : Z) (r : Rule) : list Z :=
  d :: type_word (type_ r) ++ d ::
  match type_ r with MapType => [] | _ => scope_word (scope r) ++ [d] end ++
  key r ++ d :: prepend r ++ [d].

Definition is_name_byte (b : Z) : Prop := 0 < b < 256.

(** A rule that can be written with the delimiter [d]. *)
Record printable (d : Z) (r : Rule) : Prop := {
  printable_delim : is_whitespace d = false;
  printable_words : d ∉ type_word (type_ r) ++ scope_word (scope r);
  printable_fields : d ∉ key r ++ prepend r;
  printable_bytes : Forall is_name_byte (key r ++ prepend r);
  printable_scope : scope r = CLIENT \/ scope r = SERVER \/ scope r = both_scopes;
  printable_map : type_ r = MapType -> scope r = both_scopes;
}.

Lemma is_name_byte_char w : Forall is_name_byte w -> Forall (fun c => 0 <= c < 256) w.
Proof. intros. eapply Forall_impl; [done|]. unfold is_name_byte. lia. Qed.

Lemma next_token_word d w rest :
  d ∉ w -> Forall (fun c => 0 <= c < 256) w -> next_token d (w ++ d :: rest) = Ok (w, rest).
Proof.
  induction w as [|c w IH]; intros Hd Hw; simpl; [by rewrite Z.eqb_refl|].
  apply Forall_cons in Hw as [Hc Hw]. rewrite (proj2 (Z.eqb_neq c d)) by set_solver.
  rewrite IH by set_solver. cbn. by rewrite Z.mod_small by lia.
Qed.

Lemma cstring_new_name {E} w : Forall is_name_byte w -> cstring_new (E := E) w = Ok w.
Proof.
  intros Hw. unfold cstring_new. case_decide as H0; [|done].
  rewrite Forall_forall in Hw. apply Hw in H0. unfold is_name_byte in H0. lia.
Qed.

Lemma type_word_ok t :
  type_from_bytes (type_word t) = Ok t /\ Forall (fun c => 0 <= c < 256) (type_word t).
Proof. destruct t; split; first [done|repeat constructor; done]. Qed.

Lemma scope_word_ok sc :
  sc = CLIENT \/ sc = SERVER \/ sc = both_scopes ->
  scope_from_bytes (scope_word sc) = Ok sc /\ Forall (fun c => 0 <= c < 256) (scope_word sc).
Proof. intros [->|[->| ->]]; split; first [done|repeat constructor; done]. Qed.

Lemma from_tokens_printed d r rest :
  printable d r -> from_tokens (printed d r ++ rest) = Ok (r, rest).
Proof.
  intros [_ Hw Hf [Hk Hp]%Forall_app Hsc Hmap]. rewrite not_elem_of_app in Hw, Hf.
  destruct (type_word_ok (type_ r)) as [Ht Htb], (scope_word_ok (scope r) Hsc) as [Hs Hsb].
  unfold printed. cbn [app from_tokens]. rewrite <- !app_assoc. cbn [app].
  rewrite next_token_word by tauto. cbn [mbind res_bind]. rewrite Ht. cbn [mbind res_bind].
  assert (Hfields : forall sc tail, sc = scope r ->
    tail = key r ++ d :: prepend r ++ d :: rest ->
    ('(k, tokens4) ← next_token d tail;
     k ← cstring_new k;
     '(p, tokens5) ← next_token d tokens4;
     p ← cstring_new p;
     Ok ({| scope := sc; type_ := type_ r; key := k; prepend := p |}, tokens5))
    = Ok (r, rest)).
  { intros sc tail -> ->. rewrite next_token_word by (auto using is_name_byte_char; tauto).
    cbn. rewrite cstring_new_name by done. cbn.
    rewrite next_token_word by (auto using is_name_byte_char; tauto).
    cbn. rewrite cstring_new_name by done. by destruct r. }
  destruct (type_ r) eqn:Hty; cbn [mbind res_bind app];
    rewrite <- ?app_assoc; cbn [app];
    try (rewrite next_token_word by tauto; cbn [mbind res_bind]; rewrite Hs; cbn [mbind res_bind]);
    apply Hfields; auto using eq_sym.
  all: by rewrite <- !app_assoc.
Qed.

(** ** A rule file *)

(** A rule with the white space around it. *)
Record item := { ws : list Z; delim : Z; item_rule : Rule; after : list Z }.

Definition item_text (i : item) : list Z := ws i ++ printed (delim i) (item_rule i) ++ after i.

Definition item_ok (i : item) : Prop :=
  Forall (fun c => is_ascii_whitespace c = true) (ws i ++ after i) /\ printable (delim i) (item_rule i).

Fixpoint map_last (l : list item) : Prop :=
  match l with
  | [] | [_] => True
  | i :: l' => type_ (item_rule i) <> MapType /\ map_last l'
  end.

Definition expanded (r : Rule) : list Rule :=
  match expand_map_type (E := ErrorKind) r with Ok rs => rs | _ => [r] end.

Lemma expanded_map {E} r : type_ r = MapType -> expand_map_type (E := E) r = Ok (expanded r).
Proof. intros H. unfold expanded, expand_map_type. by rewrite !(decide_True _ _ H). Qed.

Lemma expanded_other r : type_ r <> MapType -> expanded r = [r].
Proof. intros H. unfold expanded, expand_map_type. by rewrite !(decide_False _ _ H). Qed.

Lemma ascii_whitespace_whitespace c : is_ascii_whitespace c = true -> is_whitespace c = true.
Proof.
  unfold is_ascii_whitespace. rewrite !orb_true_iff, !Z.eqb_eq.
  intros [[[[->| ->]| ->]| ->]| ->]; done.
Qed.

Lemma parse_rules_ws w u acc fuel :
  Forall (fun c => is_ascii_whitespace c = true) w -> (length (w ++ u) <= fuel)%nat ->
  exists fuel', (length u <= fuel')%nat /\ parse_rules fuel (w ++ u) acc = parse_rules fuel' u acc.
Proof.
  intros Hw; revert fuel; induction Hw as [|c w Hc Hw IH]; intros fuel Hf; [by exists fuel|].
  destruct fuel as [|f]; [simpl in Hf; lia|]. cbn [app parse_rules]. rewrite Hc.
  apply IH. simpl in Hf. lia.
Qed.

Lemma printed_length d r : (0 < length (printed d r))%nat.
Proof. simpl. lia. Qed.

(** Nothing follows the last rule. *)
Definition ends_bare (l : list item) : Prop := forall i, last l = Some i -> after i = [].

Lemma parse_rules_items l acc fuel :
  Forall item_ok l -> map_last l -> ends_bare l -> (length (concat (map item_text l)) <= fuel)%nat ->
  parse_rules fuel (concat (map item_text l)) acc =
  Ok (acc ++ concat (map (fun i => expanded (item_rule i)) l)).
Proof.
  intros Hl; revert acc fuel; induction Hl as [|i l [Hw Hp] Hl IH]; intros acc fuel Hm He Hf.
  { destruct fuel; simpl; by rewrite app_nil_r. }
  apply Forall_app in Hw as [Hw Ha].
  cbn [map concat] in *. unfold item_text at 1. unfold item_text at 1 in Hf.
  rewrite <- !app_assoc in *. destruct (parse_rules_ws _ _ acc _ Hw Hf) as (f & Hf' & ->).
  pose proof (printed_length (delim i) (item_rule i)) as Hpl. rewrite length_app in Hf'.
  destruct f as [|f]; [lia|].
  pose proof (from_tokens_printed _ _ (after i ++ concat (map item_text l)) Hp) as Ht.
  assert (Hd : is_ascii_whitespace (delim i) = false).
  { apply not_true_is_false. intros Hasc%ascii_whitespace_whitespace.
    rewrite (printable_delim _ _ Hp) in Hasc. done. }
  change (printed (delim i) (item_rule i) ++ ?x) with
    (delim i :: (tail (printed (delim i) (item_rule i)) ++ x)) in *.
  cbn [parse_rules]. rewrite Hd, Ht. cbn [map_err mbind res_bind].
  rewrite (app_assoc acc). destruct (decide (type_ (item_rule i) = MapType)) as [Hty|Hty].
  - destruct l as [|j l]; [|by destruct Hm]. cbn [map concat]. rewrite (He i eq_refl).
    rewrite expanded_map by done. cbn [mbind res_bind app]. rewrite app_nil_r. by destruct f.
  - rewrite expanded_other by done.
    destruct (parse_rules_ws _ (concat (map item_text l)) (acc ++ [item_rule i]) f Ha) as (f' & Hf2 & ->);
      [lia|]. apply IH; [by destruct l; [|destruct Hm]| |done].
    intros j Hj. apply He. by destruct l.
Qed.

Lemma trim_start_ws w l :
  Forall (fun c => is_whitespace c = true) w -> trim_start (w ++ l) = trim_start l.
Proof. induction 1 as [|c w Hc Hw IH]; simpl; [done|]. by rewrite Hc. Qed.

(** Trimming takes white space off both ends and nothing else. *)
Lemma trim_kept w c l c' w' :
  Forall (fun c => is_whitespace c = true) w -> Forall (fun c => is_whitespace c = true) w' ->
  is_whitespace c = false -> last (c :: l) = Some c' -> is_whitespace c' = false ->
  trim (w ++ (c :: l) ++ w') = c :: l.
Proof.
  intros Hw Hw' Hc Hl Hc'. unfold trim. rewrite trim_start_ws by done. simpl. rewrite Hc.
  rewrite app_comm_cons, reverse_app, trim_start_ws by (by apply Forall_reverse).
  apply last_Some in Hl as [l' Hl]. rewrite Hl, reverse_snoc. simpl. rewrite Hc'.
  by rewrite <- reverse_snoc, reverse_involutive.
Qed.

Lemma printed_last d r : exists l, printed d r = l ++ [d].
Proof.
  unfold printed. repeat first [rewrite app_comm_cons|rewrite app_assoc]. by eexists.
Qed.

(** The same rules without the white space at the two ends. *)
Fixpoint without_end (l : list item) : list item :=
  match l with
  | [] => []
  | [i] => [{| ws := ws i; delim := delim i; item_rule := item_rule i; after := [] |}]
  | i :: l => i :: without_end l
  end.

Definition without_ends (i : item) (l : list item) : list item :=
  without_end ({| ws := []; delim := delim i; item_rule := item_rule i; after := after i |} :: l).

Lemma without_end_text l :
  l <> [] -> Forall item_ok l ->
  exists t d w, concat (map item_text (without_end l)) = t ++ [d] /\ is_whitespace d = false /\
    concat (map item_text l) = (t ++ [d]) ++ w /\ Forall (fun c => is_ascii_whitespace c = true) w.
Proof.
  intros Hne Hl. induction Hl as [|i l [Hw Hp] Hl IH]; [done|]. cbn [map concat].
  destruct l as [|j l].
  - destruct (printed_last (delim i) (item_rule i)) as [t Ht].
    exists (ws i ++ t), (delim i), (after i). unfold item_text.
    cbn [without_end map concat ws delim item_rule after]. rewrite Ht.
    rewrite !app_nil_r, <- !app_assoc. apply Forall_app in Hw as [_ ?].
    split_and!; try done. by apply printable_delim in Hp.
  - destruct IH as (t & d & w & Ht & Hd & Htw & Hws); [done|].
    exists (item_text i ++ t), d, w. cbn [without_end map concat] in *.
    rewrite Ht, Htw. rewrite <- !app_assoc. done.
Qed.

Lemma without_end_ok l : Forall item_ok l -> Forall item_ok (without_end l).
Proof.
  induction 1 as [|i l [Hw Hp] Hl IH]; [constructor|]. destruct l; [|by constructor].
  constructor; [|constructor]. apply Forall_app in Hw as [Hw _].
  split; [|done]. simpl. by rewrite app_nil_r.
Qed.

Lemma without_end_rules l : item_rule <$> without_end l = item_rule <$> l.
Proof. induction l as [|i [|j l] IH]; [done|done|]. cbn in *. by rewrite IH. Qed.

Lemma without_end_bare l : ends_bare (without_end l).
Proof.
  intros i Hi. induction l as [|j [|k l] IH]; simpl in *; [done|by simplify_eq|].
  apply IH. by destruct l.
Qed.

Lemma without_end_map_last l : map_last l -> map_last (without_end l).
Proof.
  induction l as [|i [|j l] IH]; [done..|]. intros [Hi Hl]. specialize (IH Hl).
  cbn [without_end] in *. by destruct l.
Qed.

Lemma ascii_ws_ws w :
  Forall (fun c => is_ascii_whitespace c = true) w -> Forall (fun c => is_whitespace c = true) w.
Proof. intros Hw. eapply Forall_impl; [done|]. apply ascii_whitespace_whitespace. Qed.

Lemma expanded_nonempty r : expanded r <> [].
Proof. unfold expanded, expand_map_type. by case_decide. Qed.

Lemma trim_items lead i l trail :
  Forall (fun c => is_whitespace c = true) (lead ++ trail) -> Forall item_ok (i :: l) ->
  trim (lead ++ concat (map item_text (i :: l)) ++ trail) = concat (map item_text (without_ends i l)).
Proof.
  intros [Hlead Htrail]%Forall_app Hl. inversion Hl as [|? ? [Hw Hp] Hl']; subst.
  apply Forall_app in Hw as [Hw Ha].
  set (i' := {| ws := []; delim := delim i; item_rule := item_rule i; after := after i |}).
  assert (Hi' : Forall item_ok (i' :: l)) by (by constructor).
  destruct (without_end_text (i' :: l) ltac:(done) Hi') as (t & d & w & Ht & Hd & Htw & Hws).
  assert (Hsplit : concat (map item_text (i :: l)) = ws i ++ concat (map item_text (i' :: l))).
  { cbn [map concat]. unfold item_text at 1 3. cbn [ws delim item_rule after i' app].
    by rewrite <- !app_assoc. }
  unfold without_ends. fold i'. rewrite Hsplit, Htw, Ht.
  assert (Hhead : exists t', t ++ [d] = delim i :: t').
  { destruct (printed (delim i) (item_rule i)) as [|x y] eqn:Hpr; [done|]. injection Hpr as Hx _.
    assert (Hc : exists z, (t ++ [d]) ++ w = delim i :: z).
    { rewrite <- Htw. cbn [map concat]. unfold item_text at 1. cbn [ws delim item_rule i' app].
      by eexists. }
    destruct Hc as [z Hz]. destruct t as [|x' t']; simpl in Hz |- *; simplify_eq; by eexists. }
  destruct Hhead as [t' Ht']. rewrite Ht'.
  rewrite <- (app_assoc _ _ trail), <- (app_assoc _ w), (app_assoc lead).
  apply (trim_kept _ _ _ d).
  - apply Forall_app. split; [done|by apply ascii_ws_ws].
  - apply Forall_app. split; [by apply ascii_ws_ws|done].
  - by apply printable_delim in Hp.
  - rewrite <- Ht'. apply last_snoc.
  - done.
Qed.

Lemma xattrmap_parse_items lead l trail :
  l <> [] -> Forall item_ok l -> map_last l -> Forall (fun c => is_whitespace c = true) (lead ++ trail) ->
  xattrmap_try_from (lead ++ concat (map item_text l) ++ trail) =
  Ok {| rules := concat (map (fun i => expanded (item_rule i)) l) |}.
Proof.
  intros Hne Hl Hm Hws. unfold xattrmap_try_from. destruct l as [|i l]; [done|].
  rewrite trim_items by done. unfold without_ends.
  set (l' := {| ws := []; delim := delim i; item_rule := item_rule i; after := after i |} :: l).
  inversion Hl as [|? ? [Hw Hp] Hl']; subst. apply Forall_app in Hw as [_ Ha].
  rewrite parse_rules_items; [|apply without_end_ok; by constructor| |apply without_end_bare|done].
  - assert (Hr : forall k : list item, concat (map (fun i => expanded (item_rule i)) k) =
      concat (map expanded (item_rule <$> k))) by (intros k; f_equal; symmetry; apply map_map).
    rewrite (Hr (without_end l')), without_end_rules, <- Hr.
    cbn [mbind res_bind app l' map concat item_rule].
    pose proof (expanded_nonempty (item_rule i)). by destruct (expanded (item_rule i)).
  - apply without_end_map_last. by destruct l.
Qed.

(** C32: A rule file parses to the rules it spells out.  Each rule may use its own
    delimiter and have white space before and after it, between rules that of ASCII, at the
    two ends any; a [map] rule, allowed only in the last place, is replaced by its
    expansion. *)
Theorem xattrmap_parse lead l trail :
  l <> [] -> Forall item_ok l -> map_last l -> Forall (fun c => is_whitespace c = true) (lead ++ trail) ->
  xattrmap_try_from (lead ++ concat (map item_text l) ++ trail) =
  Ok {| rules := concat (map (fun i => expanded (item_rule i)) l) |}.
Proof. apply xattrmap_parse_items. Qed.

(** ** What a [map] rule does *)

Lemma find_rule_client r rs n :
  scope r = both_scopes ->
  find_rule (r :: rs) CLIENT n =
  if starts_with (key r) n then Ok r else find_rule rs CLIENT n.
Proof. intros Hs. cbn [find_rule]. unfold rule_matches. by rewrite Hs. Qed.

Lemma find_rule_server r rs n :
  scope r = both_scopes ->
  find_rule (r :: rs) SERVER n =
  if starts_with (prepend r) n then Ok r else find_rule rs SERVER n.
Proof. intros Hs. cbn [find_rule]. unfold rule_matches. by rewrite Hs. Qed.

Lemma map_rule_client r n :
  type_ r = MapType -> Forall is_name_byte (prepend r ++ n) ->
  map_client_xattr {| rules := expanded r |} n =
  Ok (if starts_with (key r) n then Pass (prepend r ++ n)
      else if starts_with (prepend r) n then Deny else Pass n).
Proof.
  intros Hty Hb. unfold map_client_xattr, expanded, expand_map_type. cbn [rules].
  rewrite (decide_True _ _ Hty), find_rule_client by done. cbn [key].
  destruct (starts_with (key r) n) eqn:Hk.
  - cbn [mbind res_bind type_ prepend]. by rewrite cstring_new_name.
  - rewrite decide_False by (intros He; by rewrite He in Hk).
    rewrite find_rule_client by done. cbn [key].
    destruct (starts_with (prepend r) n); [done|]. by rewrite find_rule_client.
Qed.

Lemma map_rule_server r n :
  type_ r = MapType ->
  map_server_name {| rules := expanded r |} n =
  Ok (if starts_with (prepend r) n then Some (drop (length (prepend r)) n)
      else if starts_with (key r) n then None else Some n).
Proof.
  intros Hty. unfold map_server_name, expanded, expand_map_type. cbn [rules].
  rewrite (decide_True _ _ Hty), find_rule_server by done. cbn [prepend].
  destruct (starts_with (prepend r) n); [done|].
  case_decide as Hk; rewrite find_rule_server by done; cbn [prepend].
  - by rewrite Hk.
  - destruct (starts_with (key r) n); [done|]. by rewrite find_rule_server.
Qed.

(** C28: A [:map:key:prepend:] rule gives the guest a private, faithful name space.
    Every attribute the guest can reach is listed to it under the name it used;
    two guest names never reach the same host attribute; and a host attribute that
    starts with [key] is out of reach unless it also starts with [prepend]. *)
Theorem map_rule_namespace d r m n h :
  printable d r -> type_ r = MapType -> Forall is_name_byte n ->
  xattrmap_try_from (printed d r) = Ok m -> map_client_xattr m n = Ok (Pass h) ->
  map_server_name m h = Ok (Some n) /\
  (forall n', Forall is_name_byte n' -> map_client_xattr m n' = Ok (Pass h) -> n' = n) /\
  (starts_with (prepend r) h = true \/ starts_with (key r) h = false).
Proof.
  intros Hp Hty Hn Hm Hh.
  pose proof (xattrmap_parse_items [] [{| ws := []; delim := d; item_rule := r; after := [] |}] []) as Hpi.
  unfold item_text in Hpi. cbn [map concat ws delim item_rule after app] in Hpi.
  rewrite !app_nil_r, Hm in Hpi. assert (m = {| rules := expanded r |}) as ->.
  { assert (Ok (E := XattrError) m = Ok {| rules := expanded r |}); [|congruence].
    apply Hpi; [done| |done|done]. apply Forall_singleton. by split; [apply Forall_nil|]. }
  assert (Hb : forall n', Forall is_name_byte n' -> Forall is_name_byte (prepend r ++ n')).
  { intros n' Hn'. apply printable_bytes in Hp. apply Forall_app in Hp as [_ ?].
    by apply Forall_app. }
  assert (Hback : forall n', Forall is_name_byte n' ->
    map_client_xattr {| rules := expanded r |} n' = Ok (Pass h) ->
    map_server_name {| rules := expanded r |} h = Ok (Some n') /\
    (starts_with (prepend r) h = true \/ starts_with (key r) h = false)).
  { intros n' Hn'. rewrite map_rule_client, map_rule_server by auto.
    destruct (starts_with (key r) n') eqn:Hk; [|destruct (starts_with (prepend r) n') eqn:Hpn];
      intros [= <-].
    - rewrite starts_with_app, drop_app_length. auto.
    - rewrite Hk, Hpn. auto. }
  destruct (Hback n Hn Hh) as [Hs Hiso]. split_and!; try done.
  intros n' Hn' Hh'. destruct (Hback n' Hn' Hh') as [Hs' _]. congruence.
Qed.

(** ** Attribute lists *)

Definition nul_list (names : list (list Z)) : list Z := concat (map (fun n => n ++ [0]) names).

Lemma split_nul_list names :
  Forall (fun n => 0 ∉ n) names -> split_on 0 (nul_list names) = names ++ [[]].
Proof.
  induction 1 as [|n names Hn Hl IH]; [done|]. unfold nul_list in *. cbn [map concat].
  rewrite <- app_assoc. cbn [app]. rewrite split_on_app by done. by rewrite IH.
Qed.

Lemma map_server_names_spec m names acc :
  map_server_names m names acc =
  (ts ← map_collect (map_server_name m) names; Ok (acc ++ nul_list (omap id ts))).
Proof.
  revert acc; induction names as [|n names IH]; intros acc; simpl; [by rewrite app_nil_r|].
  destruct (map_server_name m n) as [p|e|]; simpl; [|done..]. rewrite IH.
  destruct (map_collect (map_server_name m) names); simpl; [|done..].
  destruct p; simpl; [|done]. unfold nul_list. simpl. by rewrite <- !app_assoc.
Qed.

(** The list of attribute names sent to the guest is the server's list with
    every name translated on its own, the hidden ones left out and the order kept;
    an empty result is a single NUL byte, and one name that no rule matches fails
    the whole request. *)
Theorem map_server_xattrlist_spec m names :
  Forall (fun n => n <> [] /\ 0 ∉ n) names ->
  map_server_xattrlist m (nul_list names) =
  (ts ← map_collect (map_server_name m) names;
   Ok match nul_list (omap id ts) with [] => [0] | l => l end).
Proof.
  intros Hn. unfold map_server_xattrlist. rewrite split_nul_list; cycle 1.
  { eapply Forall_impl; [done|]. naive_solver. }
  rewrite filter_app, (filter_all _ names); cycle 1.
  { eapply Forall_impl; [done|]. naive_solver. }
  rewrite filter_cons_False, filter_nil, app_nil_r by naive_solver.
  rewrite map_server_names_spec.
  destruct (map_collect (map_server_name m) names) as [ts|e|]; [|done..]. simpl.
  by destruct (nul_list (omap id ts)).
Qed.

Lemma from_tokens_wide d c :
  d ∉ text "okall" -> d <> c -> c mod 256 = 0 ->
  from_tokens (d :: text "ok" ++ d :: text "all" ++ [d; c; d; d]) = Panic.
Proof.
  intros Hw Hc Hm. unfold from_tokens.
  rewrite next_token_word by (simpl in Hw; first [set_solver|repeat constructor; lia]).
  cbn [mbind res_bind]. change (type_from_bytes (text "ok")) with (Ok (E := ErrorKind) Okay).
  cbn [mbind res_bind].
  rewrite (next_token_word d (text "all")) by (simpl in *; first [set_solver|repeat constructor; lia]).
  cbn [mbind res_bind].
  change (scope_from_bytes (text "all")) with (Ok (E := ErrorKind) both_scopes).
  cbn [mbind res_bind next_token].
  rewrite (proj2 (Z.eqb_neq c d)), Z.eqb_refl, Hm by congruence. done.
Qed.

(** A character above 255 whose low byte is zero, in the key of a rule,
    panics the parser instead of being reported. *)
Theorem wide_character_panics d c :
  is_whitespace d = false -> d ∉ text "okall" -> d <> c -> c mod 256 = 0 ->
  xattrmap_try_from (d :: text "ok" ++ d :: text "all" ++ [d; c; d; d]) = Panic.
Proof.
  intros Hd Hw Hc Hm. unfold xattrmap_try_from.
  match goal with |- context [trim ?x] => assert (Ht : trim x = x) end.
  { rewrite <- (app_nil_r (_ :: _)) at 1. by apply (trim_kept [] d _ d []). }
  rewrite Ht. cbn [length parse_rules]. destruct (is_ascii_whitespace d) eqn:Ha.
  { apply ascii_whitespace_whitespace in Ha. congruence. }
  by rewrite from_tokens_wide.
Qed.

(** ** Witnesses *)

Definition demo_map_rule : Rule :=
  {| scope := both_scopes; type_ := MapType; key := text "trusted."; prepend := text "user.vm." |}.

Definition demo_bad_rule : Rule :=
  {| scope := SERVER; type_ := Bad; key := []; prepend := text "system." |}.

Lemma demo_map_printable : printable 58 demo_map_rule.
Proof.
  split; try done; try (right; right; reflexivity).
  - apply (bool_decide_unpack _). by vm_compute.
  - apply (bool_decide_unpack _). by vm_compute.
  - repeat constructor; by vm_compute.
Qed.

Lemma demo_bad_printable : printable 47 demo_bad_rule.
Proof.
  split; try done; try (right; left; reflexivity).
  - apply (bool_decide_unpack _). by vm_compute.
  - apply (bool_decide_unpack _). by vm_compute.
  - repeat constructor; by vm_compute.
Qed.

(** Spaces and a line break around the rules, and a no-break space at the end. *)
Lemma xattrmap_parse_witness :
  xattrmap_try_from (text "/bad/server//system./ " ++ [10] ++ text " :map:trusted.:user.vm.: " ++ [160]) =
  Ok {| rules := demo_bad_rule :: expanded demo_map_rule |}.
Proof.
  apply (xattrmap_parse []
    [{| ws := []; delim := 47; item_rule := demo_bad_rule; after := [32; 10] |};
     {| ws := [32]; delim := 58; item_rule := demo_map_rule; after := [32] |}] [160]);
    [done| |done|by apply Forall_singleton].
  apply Forall_cons; split; [|apply Forall_singleton].
  - split; [by repeat constructor|apply demo_bad_printable].
  - split; [by repeat constructor|apply demo_map_printable].
Defined.

Lemma map_rule_namespace_witness : exists m,
  xattrmap_try_from (printed 58 demo_map_rule) = Ok m /\
  map_server_name m (text "user.vm.trusted.x") = Ok (Some (text "trusted.x")).
Proof.
  eexists. split; [vm_compute; reflexivity|].
  eapply (map_rule_namespace 58 demo_map_rule _ (text "trusted.x")).
  - apply demo_map_printable.
  - done.
  - repeat constructor; by vm_compute.
  - vm_compute. reflexivity.
  - vm_compute. reflexivity.
Defined.

Lemma map_server_xattrlist_spec_witness :
  map_server_xattrlist {| rules := expanded demo_map_rule |}
    (nul_list [text "user.vm.trusted.x"; text "trusted.y"; text "user.z"]) =
  Ok (nul_list [text "trusted.x"; text "user.z"]).
Proof.
  apply (map_server_xattrlist_spec {| rules := expanded demo_map_rule |}
           [text "user.vm.trusted.x"; text "trusted.y"; text "user.z"]).
  repeat (apply Forall_cons; split; [split; [done|apply (bool_decide_unpack _); by vm_compute]|]).
  by apply Forall_nil.
Defined.

Lemma wide_character_panics_witness :
  xattrmap_try_from (58 :: text "ok" ++ 58 :: text "all" ++ [58; 256; 58; 58]) = Panic.
Proof.
  apply wide_character_panics; try done. apply (bool_decide_unpack _). by vm_compute.
Defined.
