(* ===== verification/Notify.v ===== *)
(** * Push invalidation: src/notify_invalidate/

    Host file system events are classified ([watcher.rs]), resolved through the
    dentry index ([translate.rs]) and framed as FUSE notifications
    ([notifier.rs]); [mod.rs] connects the three.

    The notification sink is the interface [Notifier].  The event type of the
    [notify] crate is modelled as far as the watcher looks at it. *)

From S2P Require Import Prelude InodeStore DentryIndex FuseTypes FuseWire.

(** ** Notifications: notifier.rs *)

Inductive Notification :=
| InvalInode (inode : Inode)
| InvalEntry (parent : Inode) (name : Name).

#[export] Instance Notification_eq_dec : EqDecision Notification.
Proof. solve_decision. Defined.

Inductive NotifyOpcode := Poll | NInvalInode | NInvalEntry | Store | Retrieve | Delete | CodeMax.

Definition notify_opcode_value (o : NotifyOpcode) : Z :=
  match o with
  | Poll => 1 | NInvalInode => 2 | NInvalEntry => 3 | Store => 4
  | Retrieve => 5 | Delete => 6 | CodeMax => 7
  end.

Definition notification_header (total_len : Z) (o : NotifyOpcode) : OutHeader :=
  {| out_header_len := as_u32 total_len; out_header_error := - notify_opcode_value o;
     out_header_unique := 0 |}.

Definition encode (n : Notification) : list Z :=
  match n with
  | InvalInode inode =>
      let body := {| notify_inval_inode_out_ino := inode; notify_inval_inode_out_off := 0;
                     notify_inval_inode_out_len := -1 |} in
      let total_len := Z.of_nat (size_of OutHeader + size_of NotifyInvalInodeOut) in
      as_slice (notification_header total_len NInvalInode) ++ as_slice body
  | InvalEntry parent name =>
      let body := {| notify_inval_entry_out_parent := parent;
                     notify_inval_entry_out_namelen := as_u32 (Z.of_nat (length name));
                     notify_inval_entry_out_flags := 0 |} in
      let total_len :=
        Z.of_nat (size_of OutHeader + size_of NotifyInvalEntryOut + length name + 1) in
      as_slice (notification_header total_len NInvalEntry) ++ as_slice body ++ name ++ [0]
  end.

Inductive NotifierError :=
| QueueNotNegotiated
| QueueFull
| BufferTooSmall (needed have : Z)
| NotifierIo (e : io_error).

Class Notifier (N : Type) := { send : N -> Notification -> N * res NotifierError unit }.

(** [LoggingNotifier], [CapturingNotifier] and [DropOnFullNotifier]. *)
#[export] Instance LoggingNotifier : Notifier unit := {| send n _ := (n, Ok tt) |}.

#[export] Instance CapturingNotifier : Notifier (list Notification) :=
  {| send captured n := (captured ++ [n], Ok tt) |}.

Definition capturing_drain (captured : list Notification)
  : list Notification * list Notification := ([], captured).

Record DropOnFull (N : Type) := { inner : N; dropped : Z }.
Arguments inner {N}.
Arguments dropped {N}.

Definition drop_on_full_send {N} `{Notifier N} (d : DropOnFull N) (n : Notification)
  : DropOnFull N * res NotifierError unit :=
  match send (inner d) n with
  | (i, Err QueueFull) => ({| inner := i; dropped := (dropped d + 1) mod 2 ^ 64 |}, Ok tt)
  | (i, other) => ({| inner := i; dropped := dropped d |}, other)
  end.

#[export] Instance DropOnFullNotifier {N} `{Notifier N} : Notifier (DropOnFull N) :=
  {| send := drop_on_full_send |}.

(** ** Host events: watcher.rs *)

Definition path : Type := list Component.

Inductive HostEvent :=
| Modify (p : path)
| Create (p : path)
| Remove (p : path)
| Rename (from to : option path)
| Overflow.

(** The [notify] crate's event kinds. *)
Inductive RenameMode := RenameAny | RenameTo | RenameFrom | RenameBoth | RenameOther.
Inductive ModifyKind := NameChange (m : RenameMode) | OtherChange.
Inductive EventKind :=
| EvAny | EvAccess | EvCreate | EvModify (m : ModifyKind) | EvRemove | EvOther.

Record Event := { event_kind : EventKind; paths : list path }.

Definition classify_rename (e : Event) : HostEvent :=
  match event_kind e with
  | EvModify (NameChange RenameFrom) => Rename (head (paths e)) None
  | EvModify (NameChange RenameTo) => Rename None (head (paths e))
  | _ => Rename (head (paths e)) (paths e !! 1%nat)
  end.

Definition classify (e : Event) : option HostEvent :=
  let p := head (paths e) in
  match event_kind e with
  | EvCreate => Create <$> p
  | EvModify (NameChange _) => Some (classify_rename e)
  | EvModify OtherChange => Modify <$> p
  | EvRemove => Remove <$> p
  | EvAccess => None
  | EvOther => Some Overflow
  | EvAny => Modify <$> p
  end.

Definition EVENT_CHANNEL_SIZE : nat := 4096.

(** The bounded channel between the watch thread, which sends, and the translator's, which
    receives: what is in it, and what has been taken out, oldest first. *)
Record Channel := { queue : list HostEvent; received : list HostEvent }.

Definition bounded : Channel := {| queue := []; received := [] |}.

(** [Sender::try_send]; the receiver is alive as long as the watcher is. *)
Definition try_send (tx : Channel) (e : HostEvent) : Channel * bool :=
  if decide (length (queue tx) < EVENT_CHANNEL_SIZE)%nat
  then ({| queue := queue tx ++ [e]; received := received tx |}, true)
  else (tx, false).

(** The translator takes the next [n] events, as far as there are that many. *)
Definition receive (n : nat) (c : Channel) : Channel :=
  {| queue := drop n (queue c); received := received c ++ take n (queue c) |}.

(** The argument is the backend's result: an event, or an error ([None]).  The translator
    runs at the same time: [taken] is what it takes between the two attempts to send. *)
Definition handle_raw_event (r : option Event) (taken : nat) (tx : Channel) : Channel :=
  match r with
  | None => (try_send tx Overflow).1
  | Some e =>
      match classify e with
      | Some k =>
          let '(tx', sent) := try_send tx k in
          if sent : bool then tx' else (try_send (receive taken tx') Overflow).1
      | None => tx
      end
  end.

(** ** Translation: translate.rs *)

Fixpoint strip_prefix (prefix p : path) : option path :=
  match prefix, p with
  | [], _ => Some p
  | a :: prefix', b :: p' => if decide (a = b) then strip_prefix prefix' p' else None
  | _ :: _, [] => None
  end.

(** [Path::file_name] and [Path::parent]. *)
Definition file_name (p : path) : option Name := last p ≫= normal_name.
Definition path_parent (p : path) : option path :=
  match last p with
  | Some (Normal _) | Some CurDir | Some ParentDir => Some (removelast p)
  | _ => None
  end.

Section Translator.
Context {N : Type} `{Notifier N}.

Record Translator := {
  root_inode : Inode;
  shared_dir : path;
  index : DentryIndex;
}.

Implicit Types (t : Translator) (n : N).

Definition relativize t (host_path : path) : option path := strip_prefix (shared_dir t) host_path.

(** [a?; b]. *)
Definition and_then (r : N * res NotifierError unit) (k : N -> N * res NotifierError unit)
  : N * res NotifierError unit :=
  match r with
  | (n, Ok _) => k n
  | (n, Err e) => (n, Err e)
  | (n, Panic) => (n, Panic)
  end.

Definition handle_modify t n (host_path : path) : N * res NotifierError unit :=
  match relativize t host_path with
  | None => (n, Ok tt)
  | Some rel =>
      let '(inode, remaining) := resolve_path (index t) (root_inode t) rel in
      match remaining with
      | [] => send n (InvalInode inode)
      | _ => (n, Ok tt)
      end
  end.

Definition handle_parent_change t n (host_path : path) : N * res NotifierError unit :=
  match relativize t host_path with
  | None => (n, Ok tt)
  | Some rel =>
      let parent_rel := default [] (path_parent rel) in
      match file_name rel with
      | None => (n, Ok tt)
      | Some leaf_name =>
          let '(parent_inode, remaining) := resolve_path (index t) (root_inode t) parent_rel in
          match remaining with
          | [] => send n (InvalEntry parent_inode leaf_name)
          | _ => (n, Ok tt)
          end
      end
  end.

(** The leaf of a removed or renamed path, when it is cached and not the root. *)
Definition cached_leaf t (host_path : path) : option Inode :=
  rel ← relativize t host_path;
  let '(inode, remaining) := resolve_path (index t) (root_inode t) rel in
  match remaining with
  | [] => if decide (inode <> root_inode t) then Some inode else None
  | _ => None
  end.

Definition send_inode n (o : option Inode) : N * res NotifierError unit :=
  match o with Some i => send n (InvalInode i) | None => (n, Ok tt) end.

Definition handle_remove t n (host_path : path) : N * res NotifierError unit :=
  and_then (handle_parent_change t n host_path) (fun n1 =>
    send_inode n1 (cached_leaf t host_path)).

Definition handle_parent_opt t n (p : option path) : N * res NotifierError unit :=
  match p with Some p => handle_parent_change t n p | None => (n, Ok tt) end.

Definition handle_rename t n (from to : option path) : N * res NotifierError unit :=
  let renamed_inode := from ≫= cached_leaf t in
  and_then (handle_parent_opt t n from) (fun n1 =>
  and_then (handle_parent_opt t n1 to) (fun n2 =>
    send_inode n2 renamed_inode)).

(** Errors are logged and the loop goes on; a panic of the sink propagates. *)
Fixpoint invalidate_all (root : Inode) n (inodes : list Inode) : N * res NotifierError unit :=
  match inodes with
  | [] => (n, Ok tt)
  | i :: rest =>
      if i =? root then invalidate_all root n rest
      else match send n (InvalInode i) with
           | (n', Panic) => (n', Panic)
           | (n', _) => invalidate_all root n' rest
           end
  end.

Definition bulk_invalidate t n : N * res NotifierError unit :=
  invalidate_all (root_inode t) n (all_inodes (index t)).

Definition translator_handle t n (e : HostEvent) : N * res NotifierError unit :=
  match e with
  | Modify p => handle_modify t n p
  | Create p => handle_parent_change t n p
  | Remove p => handle_remove t n p
  | Rename from to => handle_rename t n from to
  | Overflow => bulk_invalidate t n
  end.

(** [spawn_pipeline]: one bulk invalidation, then the events in order; a failed
    event is logged and skipped.  [idx_at k] is the index when event [k] is taken
    from the channel, as the request threads have left it. *)
Definition pipeline_start t n : N := (bulk_invalidate t n).1.

Fixpoint pipeline_events (root : Inode) (dir : path) n (l : list (DentryIndex * HostEvent)) : N :=
  match l with
  | [] => n
  | (idx, e) :: l' =>
      pipeline_events root dir
        (translator_handle {| root_inode := root; shared_dir := dir; index := idx |} n e).1 l'
  end.
End Translator.

(** ** The resolution policy, over the abstract map of names *)

Inductive resolves (m : gmap dentry Inode) : Inode -> list Name -> Inode -> Prop :=
| resolves_nil i : resolves m i [] i
| resolves_cons i s c segs j :
    m !! (i, s) = Some c -> resolves m c segs j -> resolves m i (s :: segs) j.

Definition path_names (p : path) : list Name := omap normal_name p.

(** The host paths whose directory entry an event changes, and those whose own
    inode it changes. *)
Definition entry_paths (e : HostEvent) : list path :=
  match e with
  | Create p | Remove p => [p]
  | Rename from to => option_list from ++ option_list to
  | Modify _ | Overflow => []
  end.

Definition leaf_paths (e : HostEvent) : list path :=
  match e with
  | Remove p => [p]
  | Rename from _ => option_list from
  | Create _ | Modify _ | Overflow => []
  end.

Inductive must_invalidate (m : gmap dentry Inode) (root : Inode) (dir : path)
  : HostEvent -> Notification -> Prop :=
| inv_modify p rel i :
    strip_prefix dir p = Some rel -> resolves m root (path_names rel) i ->
    must_invalidate m root dir (Modify p) (InvalInode i)
| inv_entry e p rel name parent :
    p ∈ entry_paths e -> strip_prefix dir p = Some rel -> file_name rel = Some name ->
    resolves m root (path_names (removelast rel)) parent ->
    must_invalidate m root dir e (InvalEntry parent name)
| inv_leaf e p rel i :
    p ∈ leaf_paths e -> strip_prefix dir p = Some rel ->
    resolves m root (path_names rel) i -> i <> root ->
    must_invalidate m root dir e (InvalInode i)
| inv_overflow key i :
    m !! key = Some i -> i <> root -> must_invalidate m root dir Overflow (InvalInode i).

Lemma resolves_walk idx i segs j :
  resolves (forward idx) i segs j <-> walk idx i segs = Some j.
Proof.
  split.
  - induction 1 as [|i s c segs j Hs _ IH]; simpl; [done|]. unfold dentry_get. by rewrite Hs.
  - revert i; induction segs as [|s segs IH]; intros i Hw; simpl in *.
    + simplify_eq. constructor.
    + unfold dentry_get in Hw. destruct (forward idx !! (i, s)) eqn:Hs; [|done].
      econstructor; eauto.
Qed.

Lemma resolve_path_walk idx root p :
  match resolve_path idx root p with
  | (i, []) => walk idx root (path_names p) = Some i
  | _ => walk idx root (path_names p) = None
  end.
Proof.
  unfold resolve_path, path_names. generalize (omap normal_name p) as segs.
  intros segs; revert root; induction segs as [|s segs IH]; intros root; simpl; [done|].
  unfold dentry_get. destruct (forward idx !! (root, s)); [apply IH|done].
Qed.

(** The notifications of each handler as a list, for a sink that records them. *)
Definition entry_list (t : Translator) (p : path) : list Notification :=
  match relativize t p with
  | None => []
  | Some rel =>
      match file_name rel, walk (index t) (root_inode t) (path_names (removelast rel)) with
      | Some name, Some parent => [InvalEntry parent name]
      | _, _ => []
      end
  end.

Definition leaf_list (t : Translator) (p : path) : list Notification :=
  match relativize t p ≫= (fun rel => walk (index t) (root_inode t) (path_names rel)) with
  | Some i => if decide (i <> root_inode t) then [InvalInode i] else []
  | None => []
  end.

Definition modify_list (t : Translator) (p : path) : list Notification :=
  match relativize t p ≫= (fun rel => walk (index t) (root_inode t) (path_names rel)) with
  | Some i => [InvalInode i]
  | None => []
  end.

Definition sent_list (t : Translator) (e : HostEvent) : list Notification :=
  match e with
  | Modify p => modify_list t p
  | Overflow => InvalInode <$> filter (fun i => i <> root_inode t) (all_inodes (index t))
  | _ => concat (map (entry_list t) (entry_paths e)) ++ concat (map (leaf_list t) (leaf_paths e))
  end.

Lemma handle_modify_sent t (c : list Notification) p :
  handle_modify t c p = (c ++ modify_list t p, Ok tt).
Proof.
  unfold handle_modify, modify_list. destruct (relativize t p) as [rel|]; simpl;
    [|by rewrite app_nil_r].
  pose proof (resolve_path_walk (index t) (root_inode t) rel) as Hr.
  destruct (resolve_path _ _ rel) as [i [|s rem]]; rewrite Hr; [done|by rewrite app_nil_r].
Qed.

Lemma handle_parent_change_sent t (c : list Notification) p :
  handle_parent_change t c p = (c ++ entry_list t p, Ok tt).
Proof.
  unfold handle_parent_change, entry_list, file_name, path_parent.
  destruct (relativize t p) as [rel|]; simpl; [|by rewrite app_nil_r].
  destruct (last rel) as [[| | |name]|]; simpl; try by rewrite app_nil_r.
  pose proof (resolve_path_walk (index t) (root_inode t) (removelast rel)) as Hr.
  destruct (resolve_path _ _ (removelast rel)) as [i [|s rem]]; rewrite Hr;
    [done|by rewrite app_nil_r].
Qed.

Lemma send_leaf_sent t (c : list Notification) p :
  send_inode c (cached_leaf t p) = (c ++ leaf_list t p, Ok tt).
Proof.
  unfold cached_leaf, leaf_list. destruct (relativize t p) as [rel|]; simpl;
    [|by rewrite app_nil_r].
  pose proof (resolve_path_walk (index t) (root_inode t) rel) as Hr.
  destruct (resolve_path _ _ rel) as [i [|s rem]]; rewrite Hr; [|by rewrite app_nil_r].
  case_decide; simpl; [done|by rewrite app_nil_r].
Qed.

Lemma bulk_invalidate_sent t (c : list Notification) :
  bulk_invalidate t c = (c ++ sent_list t Overflow, Ok tt).
Proof.
  unfold bulk_invalidate. simpl. generalize (all_inodes (index t)) as l.
  intros l; revert c; induction l as [|i l IH]; intros c; simpl; [by rewrite app_nil_r|].
  destruct (Z.eqb_spec i (root_inode t)).
  - rewrite filter_cons_False by naive_solver. apply IH.
  - rewrite filter_cons_True by done. rewrite IH. simpl. by rewrite <- app_assoc.
Qed.

Lemma translator_sent t (c : list Notification) e :
  translator_handle t c e = (c ++ sent_list t e, Ok tt).
Proof.
  destruct e as [p|p|p|from to|]; cbn [translator_handle].
  - apply handle_modify_sent.
  - rewrite handle_parent_change_sent. simpl. by rewrite !app_nil_r.
  - unfold handle_remove. rewrite handle_parent_change_sent. simpl.
    rewrite send_leaf_sent, !app_nil_r. by rewrite <- app_assoc.
  - assert (Hopt : forall c o, handle_parent_opt t c o =
      (c ++ concat (map (entry_list t) (option_list o)), Ok tt)).
    { intros c' [p|]; simpl; [rewrite handle_parent_change_sent|]; by rewrite ?app_nil_r. }
    unfold handle_rename. rewrite Hopt. simpl. rewrite Hopt. simpl.
    rewrite map_app, concat_app. destruct from as [p|]; simpl.
    + rewrite send_leaf_sent, !app_nil_r. by rewrite <- !app_assoc.
    + by rewrite !app_nil_r.
  - apply bulk_invalidate_sent.
Qed.

(** Membership in a list of at most one notification. *)
Ltac one_notification :=
  split; [rewrite ?list_elem_of_singleton, ?elem_of_nil; intros; try done; subst; eauto 10
         |intros; repeat match goal with
            | H : exists _, _ |- _ => destruct H
            | H : _ /\ _ |- _ => destruct H
            end; simplify_eq; try congruence; by apply list_elem_of_singleton].

Lemma entry_list_spec t p n :
  n ∈ entry_list t p <->
  exists rel name parent, strip_prefix (shared_dir t) p = Some rel /\ file_name rel = Some name /\
    resolves (forward (index t)) (root_inode t) (path_names (removelast rel)) parent /\
    n = InvalEntry parent name.
Proof.
  unfold entry_list, relativize. setoid_rewrite resolves_walk.
  destruct (strip_prefix (shared_dir t) p) as [rel|]; [|one_notification].
  destruct (file_name rel) eqn:Hf; [|one_notification].
  destruct (walk (index t) (root_inode t) (path_names (removelast rel))) eqn:Hw; one_notification.
Qed.

Lemma leaf_list_spec t p n :
  n ∈ leaf_list t p <->
  exists rel i, strip_prefix (shared_dir t) p = Some rel /\
    resolves (forward (index t)) (root_inode t) (path_names rel) i /\ i <> root_inode t /\
    n = InvalInode i.
Proof.
  unfold leaf_list, relativize. setoid_rewrite resolves_walk.
  destruct (strip_prefix (shared_dir t) p) as [rel|]; simpl; [|one_notification].
  destruct (walk (index t) (root_inode t) (path_names rel)) eqn:Hw; [|one_notification].
  case_decide; one_notification.
Qed.

Lemma modify_list_spec t p n :
  n ∈ modify_list t p <->
  exists rel i, strip_prefix (shared_dir t) p = Some rel /\
    resolves (forward (index t)) (root_inode t) (path_names rel) i /\ n = InvalInode i.
Proof.
  unfold modify_list, relativize. setoid_rewrite resolves_walk.
  destruct (strip_prefix (shared_dir t) p) as [rel|]; simpl; [|one_notification].
  destruct (walk (index t) (root_inode t) (path_names rel)) eqn:Hw; one_notification.
Qed.

Lemma elem_of_concat_map {A B} (f : A -> list B) l x :
  x ∈ concat (map f l) <-> exists a, a ∈ l /\ x ∈ f a.
Proof.
  induction l as [|a l IH]; simpl; [set_solver|]. rewrite elem_of_app, IH. set_solver.
Qed.

Lemma sent_list_spec t e n :
  dentry_wf (index t) ->
  n ∈ sent_list t e <-> must_invalidate (forward (index t)) (root_inode t) (shared_dir t) e n.
Proof.
  intros Hwf. assert (Hpaths : n ∈ concat (map (entry_list t) (entry_paths e)) ++
      concat (map (leaf_list t) (leaf_paths e)) ->
    must_invalidate (forward (index t)) (root_inode t) (shared_dir t) e n).
  { rewrite elem_of_app, !elem_of_concat_map.
    intros [(p & Hp & (rel & name & parent & ? & ? & ? & ->)%entry_list_spec)
           |(p & Hp & (rel & i & ? & ? & ? & ->)%leaf_list_spec)];
      [eapply inv_entry|eapply inv_leaf]; eauto. }
  split.
  - destruct e as [p|p|p|from to|]; try apply Hpaths; cbn [sent_list].
    + intros (rel & i & ? & ? & ->)%modify_list_spec. eapply inv_modify; eauto.
    + intros (i & -> & [Hne Hi]%list_elem_of_filter)%list_elem_of_fmap.
      apply all_inodes_spec in Hi as [key Hk]; [|done]. by eapply inv_overflow.
  - intros Hm. inversion Hm as [p rel i Hs Hr|? p rel name parent Hp Hs Hf Hr
      |? p rel i Hp Hs Hr Hne|key i Hk Hne]; subst; cbn [sent_list].
    + apply modify_list_spec. eauto.
    + assert (Hin : InvalEntry parent name ∈ concat (map (entry_list t) (entry_paths e)))
        by (apply elem_of_concat_map; exists p; split; [done|]; apply entry_list_spec; exists rel, name, parent; auto).
      destruct e; set_solver.
    + assert (Hin : InvalInode i ∈ concat (map (leaf_list t) (leaf_paths e)))
        by (apply elem_of_concat_map; exists p; split; [done|]; apply leaf_list_spec; exists rel, i; auto).
      destruct e; set_solver.
    + apply list_elem_of_fmap. exists i. split; [done|]. apply list_elem_of_filter.
      split; [done|]. apply all_inodes_spec; eauto.
Qed.

(** C26: The translator implements the documented resolution policy.  Whatever
    sequence of lookups, unlinks, renames and forgets built the dentry index, a host
    event makes it send exactly the notifications the policy asks for over the map
    of names those operations describe: an inode invalidation for a modified cached
    file, an entry invalidation for every changed entry of a cached directory, an
    inode invalidation for a removed or renamed cached file, and after an overflow
    one for every cached inode but the root.  Paths outside the shared directory
    cause nothing, and nothing fails. *)
Theorem translator_policy ops root dir captured e :
  let m := fold_left abs_dentry_op ops ∅ in
  let t := {| root_inode := root; shared_dir := dir;
              index := fold_left run_dentry_op ops dentry_new |} in
  exists sent, translator_handle t captured e = (captured ++ sent, Ok tt) /\
    forall n, n ∈ sent <-> must_invalidate m root dir e n.
Proof.
  intros m t. exists (sent_list t e). split; [apply translator_sent|].
  destruct (dentry_refines ops dentry_new dentry_wf_new) as [Hwf Hf].
  intros n. rewrite (sent_list_spec t e n Hwf). simpl. by rewrite Hf.
Qed.

(** ** The channel *)

(** Raw events, each with what the translator takes while it is handled and after it. *)
Definition watch (l : list (option Event * nat * nat)) (c : Channel) : Channel :=
  fold_left (fun c '(r, taken, later) => receive later (handle_raw_event r taken c)) l c.

(** Everything the translator has been given or will be, in order. *)
Definition stream (c : Channel) : list HostEvent := received c ++ queue c.

(** The host event a raw event stands for. *)
Definition raised (r : option Event) : option HostEvent :=
  match r with Some e => classify e | None => Some Overflow end.

Lemma stream_receive n c : stream (receive n c) = stream c.
Proof. unfold stream, receive. simpl. by rewrite <- app_assoc, take_drop. Qed.

Lemma try_send_room c e :
  (length (queue c) < EVENT_CHANNEL_SIZE)%nat ->
  try_send c e = ({| queue := queue c ++ [e]; received := received c |}, true).
Proof. intros Hl. unfold try_send. by rewrite decide_True. Qed.

Lemma try_send_full c e : ~ (length (queue c) < EVENT_CHANNEL_SIZE)%nat -> try_send c e = (c, false).
Proof. intros Hl. unfold try_send. by rewrite decide_False. Qed.

Lemma try_send_bound c e :
  (length (queue c) <= EVENT_CHANNEL_SIZE)%nat ->
  (length (queue (try_send c e).1) <= EVENT_CHANNEL_SIZE)%nat.
Proof.
  intros Hl. unfold try_send. case_decide; simpl; [rewrite length_app; simpl; lia|done].
Qed.

Lemma receive_length n c : length (queue (receive n c)) = (length (queue c) - n)%nat.
Proof. apply length_drop. Qed.

Lemma handle_raw_event_bound r taken c :
  (length (queue c) <= EVENT_CHANNEL_SIZE)%nat ->
  (length (queue (handle_raw_event r taken c)) <= EVENT_CHANNEL_SIZE)%nat.
Proof.
  intros Hl. unfold handle_raw_event. destruct r as [e|]; [|by apply try_send_bound].
  destruct (classify e) as [k|]; [|done]. pose proof (try_send_bound c k Hl) as Hb.
  destruct (try_send c k) as [c1 []]; simpl in Hb; [done|].
  apply try_send_bound. rewrite receive_length. lia.
Qed.

Lemma watch_bound l : forall c,
  (length (queue c) <= EVENT_CHANNEL_SIZE)%nat ->
  (length (queue (watch l c)) <= EVENT_CHANNEL_SIZE)%nat.
Proof.
  induction l as [|[[r taken] later] l IH]; intros c Hl; [done|]. apply IH.
  rewrite receive_length. pose proof (handle_raw_event_bound r taken c Hl). lia.
Qed.

(** What the translator learns of a raw event. *)
Definition told (full : bool) (r : option Event) (taken : nat) : list HostEvent :=
  match r, full with
  | _, false => option_list (raised r)
  | Some e, true => match classify e with Some _ => if decide (0 < taken)%nat then [Overflow] else [] | None => [] end
  | None, true => []
  end.

Lemma handle_raw_event_told r taken c :
  (length (queue c) <= EVENT_CHANNEL_SIZE)%nat ->
  stream (handle_raw_event r taken c) =
  stream c ++ told (bool_decide (length (queue c) = EVENT_CHANNEL_SIZE)) r taken.
Proof.
  intros Hl. unfold handle_raw_event, told, stream, raised. case_bool_decide as Hf.
  - destruct r as [e|]; [|rewrite try_send_full by lia; by rewrite app_nil_r].
    destruct (classify e) as [k|]; [|by rewrite app_nil_r]. rewrite (try_send_full c k) by lia.
    fold (stream c). rewrite <- (stream_receive taken c). case_decide as Ht.
    + rewrite try_send_room by (rewrite receive_length; unfold EVENT_CHANNEL_SIZE in *; lia).
      unfold stream. simpl. by rewrite app_assoc.
    + rewrite try_send_full by (rewrite receive_length; lia). by rewrite app_nil_r.
  - destruct r as [e|]; [destruct (classify e) as [k|]; [|by rewrite app_nil_r]|];
      rewrite try_send_room by lia; simpl; by rewrite app_assoc.
Qed.

(** C40: What becomes of a host event when the channel is full.  Whatever raw events came
    before and however the translator kept up with them, the channel never holds more than
    its capacity, and what the guest is told in the end because of one more event is this:
    with room in the channel, exactly what the event calls for; with the channel full, the
    invalidation of every cached inode if the translator took an event between the
    watcher's two attempts to send, and otherwise nothing at all, since the overflow marker
    goes to the same full channel and is dropped like the event.  An error of the backend
    is sent as an overflow, once; with the channel full the guest is told nothing. *)
Theorem full_channel l r taken k ops root dir :
  raised r = Some k ->
  let c := watch l bounded in
  let m := fold_left abs_dentry_op ops ∅ in
  let idx := fold_left run_dentry_op ops dentry_new in
  (length (queue c) <= EVENT_CHANNEL_SIZE)%nat /\
  exists more, stream (handle_raw_event r taken c) = stream c ++ more /\
    forall n, n ∈ pipeline_events (N := list Notification) root dir [] (pair idx <$> more) <->
      if decide (length (queue c) < EVENT_CHANNEL_SIZE)%nat then must_invalidate m root dir k n
      else is_Some r /\ (0 < taken)%nat /\ must_invalidate m root dir Overflow n.
Proof.
  intros Hk c m idx. assert (Hl : (length (queue c) <= EVENT_CHANNEL_SIZE)%nat)
    by (apply watch_bound, Nat.le_0_l).
  split; [done|]. eexists. split; [by apply handle_raw_event_told|]. intros n.
  destruct (dentry_refines ops dentry_new dentry_wf_new) as [Hwf Hm].
  assert (Hone : forall e, n ∈ pipeline_events (N := list Notification) root dir [] (pair idx <$> [e]) <->
    must_invalidate m root dir e n).
  { intros e. cbn [fmap list_fmap pipeline_events]. rewrite translator_sent. cbn [fst app].
    rewrite sent_list_spec by done. simpl. unfold idx. by rewrite Hm. }
  case_bool_decide as Hf.
  - rewrite decide_False by lia. unfold told. destruct r as [e|].
    + cbn [raised] in Hk. rewrite Hk. case_decide; [rewrite Hone; naive_solver|].
      split; [by intros ?%elem_of_nil|naive_solver].
    + split; [by intros ?%elem_of_nil|]. by intros [[? [=]] _].
  - rewrite decide_True by lia. unfold told. destruct r; rewrite Hk; apply Hone.
Qed.

(** A notification is framed the way its reader takes it apart: an output
    header whose length is the length of the whole message and whose unique id is
    zero, the body of the notification, and for an entry the name and one NUL. *)
Theorem notification_frame n :
  match n with
  | InvalInode i => is_u64 i
  | InvalEntry parent name => is_u64 parent /\ Z.of_nat (length name) < 2 ^ 31
  end ->
  exists h rest, encode n = as_slice h ++ rest /\ from_slice (as_slice h) = Some h /\
    out_header_len h = Z.of_nat (length (encode n)) /\ out_header_unique h = 0 /\
    match n with
    | InvalInode i => out_header_error h = -2 /\
        from_slice rest = Some {| notify_inval_inode_out_ino := i;
          notify_inval_inode_out_off := 0; notify_inval_inode_out_len := -1 |}
    | InvalEntry parent name => out_header_error h = -3 /\
        exists body, rest = as_slice body ++ name ++ [0] /\ from_slice (as_slice body) = Some body /\
          notify_inval_entry_out_parent body = parent /\
          notify_inval_entry_out_namelen body = Z.of_nat (length name)
    end.
Proof.
  pose proof (as_slice_length (A := OutHeader)) as Hh.
  assert (Hhdr : forall len o, 0 <= len < 2 ^ 32 ->
    from_slice (as_slice (notification_header len o)) = Some (notification_header len o)).
  { intros len o Hlen. apply from_slice_as_slice. unfold notification_header, as_u32, in_range.
    cbn. rewrite Z.mod_small by done. destruct o; fields_in_range. }
  destruct n as [i|parent name]; intros Hn; unfold encode.
  - exists (notification_header 40 NInvalInode). eexists. split; [done|].
    split; [by apply Hhdr|]. split; [by rewrite length_app, !as_slice_length|].
    split; [done|]. split; [done|]. apply from_slice_as_slice. unfold in_range.
    destruct Hn; unfold u64_max in *. fields_in_range.
  - destruct Hn as [[Hp0 Hp1] Hl]. unfold u64_max in *.
    eexists (notification_header (Z.of_nat (16 + 16 + length name + 1)) NInvalEntry), _.
    split; [done|]. split; [apply Hhdr; lia|]. split.
    { cbn [notification_header out_header_len]. unfold as_u32.
      rewrite Z.mod_small by lia. rewrite !length_app, !as_slice_length. cbn [length].
      change (size_of OutHeader) with 16%nat.
      change (size_of NotifyInvalEntryOut) with 16%nat. lia. }
    split; [done|]. split; [done|]. eexists. split; [done|].
    assert (Hu : as_u32 (Z.of_nat (length name)) = Z.of_nat (length name))
      by (unfold as_u32; rewrite Z.mod_small; lia).
    split; [|by rewrite Hu]. apply from_slice_as_slice. unfold in_range. rewrite Hu.
    fields_in_range.
Qed.

(** ** Witnesses *)

Definition demo_create : option Event :=
  Some {| event_kind := EvCreate; paths := [[Normal (text "share"); Normal (text "a")]] |}.

Lemma watch_fills n : forall c,
  (length (queue c) + n <= EVENT_CHANNEL_SIZE)%nat ->
  length (queue (watch (replicate n (demo_create, 0%nat, 0%nat)) c)) = (length (queue c) + n)%nat.
Proof.
  induction n as [|n IH]; intros c Hc; [simpl; lia|].
  change (watch _ c) with (watch (replicate n (demo_create, 0%nat, 0%nat))
    (receive 0 (handle_raw_event demo_create 0 c))).
  assert (Hl : length (queue (receive 0 (handle_raw_event demo_create 0 c))) = Datatypes.S (length (queue c))).
  { rewrite receive_length. unfold handle_raw_event, demo_create. cbn [classify event_kind paths head fmap option_fmap option_map].
    rewrite try_send_room by lia. simpl. rewrite length_app. simpl. lia. }
  rewrite IH; rewrite Hl; lia.
Qed.

(** The translator takes nothing while more events arrive than the channel holds. *)
Lemma full_channel_witness :
  exists l, let c := watch l bounded in length (queue c) = EVENT_CHANNEL_SIZE /\
  exists more, stream (handle_raw_event demo_create 0 c) = stream c ++ more /\
    forall n, n ∉ pipeline_events (N := list Notification) 1 [Normal (text "share")] []
      (pair (fold_left run_dentry_op [] dentry_new) <$> more).
Proof.
  exists (replicate EVENT_CHANNEL_SIZE (demo_create, 0%nat, 0%nat)).
  pose proof (watch_fills EVENT_CHANNEL_SIZE bounded (le_n _)) as Hc.
  destruct (full_channel (replicate EVENT_CHANNEL_SIZE (demo_create, 0%nat, 0%nat)) demo_create 0
    (Create [Normal (text "share"); Normal (text "a")]) [] 1 [Normal (text "share")] eq_refl)
    as [_ (more & Hs & Hn)].
  revert Hc Hs Hn. generalize (watch (replicate EVENT_CHANNEL_SIZE (demo_create, 0%nat, 0%nat)) bounded).
  intros c Hc Hs Hn. split; [exact Hc|]. exists more. split; [exact Hs|]. intros n Hin. apply Hn in Hin.
  rewrite decide_False in Hin; [destruct Hin as (_ & H0 & _); by apply Nat.lt_irrefl in H0|].
  rewrite Hc. apply Nat.lt_irrefl.
Defined.

Lemma notification_frame_witness :
  exists h rest, encode (InvalEntry 1 (text "a")) = as_slice h ++ rest /\ out_header_len h = 34.
Proof.
  destruct (notification_frame (InvalEntry 1 (text "a"))) as (h & rest & He & _ & Hl & _).
  { split; [split; by vm_compute|by vm_compute]. }
  exists h, rest. split; [done|]. rewrite Hl. by vm_compute.
Defined.
