(* ===== verification/FileSystem.v ===== *)
(** * The file system interface: src/filesystem.rs

    The types exchanged between the FUSE server and a file system, and the
    [FileSystem] trait as a class.  A file system is a state of type [F] with one
    operation per trait method; the sequential state change of a method that takes
    [&self] (and mutates through locks) is explicit.  [D] is the directory
    iterator.  Inodes and handles are 64-bit integers. *)

From S2P Require Import Prelude FuseTypes FuseWire Descriptor.

Record Duration := { as_secs : Z; subsec_nanos : Z }.

Definition from_secs (s : Z) : Duration := {| as_secs := s; subsec_nanos := 0 |}.

Record Entry := {
  entry_inode : Z;
  entry_generation : Z;
  entry_attr : Attr;
  attr_timeout : Duration;
  entry_timeout : Duration;
}.

Definition entry_out_from (e : Entry) : EntryOut :=
  {| entry_out_nodeid := entry_inode e; entry_out_generation := entry_generation e;
     entry_out_entry_valid := as_secs (entry_timeout e);
     entry_out_attr_valid := as_secs (attr_timeout e);
     entry_out_entry_valid_nsec := subsec_nanos (entry_timeout e);
     entry_out_attr_valid_nsec := subsec_nanos (attr_timeout e);
     entry_out_attr := entry_attr e |}.

(** Names are byte strings without the trailing NUL. *)
Record DirEntry := { de_ino : Z; de_offset : Z; de_type : Z; de_name : bytes }.

Inductive GetxattrReply := Value (val : bytes) | Count (count : Z).
Inductive ListxattrReply := Names (val : bytes) | NamesCount (count : Z).

(** [pid as i32]: the unsigned header field reinterpreted. *)
Definition as_i32 (z : Z) : Z :=
  let v := z mod 2 ^ 32 in if v <? 2 ^ 31 then v else v - 2 ^ 32.

Record Context := { ctx_uid : Z; ctx_gid : Z; ctx_pid : Z }.

Definition context_from (source : InHeader) : Context :=
  {| ctx_uid := in_header_uid source; ctx_gid := in_header_gid source;
     ctx_pid := as_i32 (in_header_pid source) |}.

Record SecContext := { secctx_name : bytes; secctx_value : bytes }.

Record Extensions := { ext_secctx : option SecContext; ext_sup_gids : list Z }.

Definition no_extensions : Extensions := {| ext_secctx := None; ext_sup_gids := [] |}.

(** [libc::statvfs64], the fields that are used. *)
Record Statvfs := {
  f_blocks : Z; f_bfree : Z; f_bavail : Z; f_files : Z; f_ffree : Z;
  f_bsize : Z; f_namemax : Z; f_frsize : Z;
}.

Definition kstatfs_from (st : Statvfs) : Kstatfs :=
  {| kstatfs_blocks := f_blocks st; kstatfs_bfree := f_bfree st; kstatfs_bavail := f_bavail st;
     kstatfs_files := f_files st; kstatfs_ffree := f_ffree st;
     kstatfs_bsize := f_bsize st mod 2 ^ 32; kstatfs_namelen := f_namemax st mod 2 ^ 32;
     kstatfs_frsize := f_frsize st mod 2 ^ 32;
     kstatfs_padding := 0; kstatfs_spare_0 := 0; kstatfs_spare_1 := 0; kstatfs_spare_2 := 0;
     kstatfs_spare_3 := 0; kstatfs_spare_4 := 0; kstatfs_spare_5 := 0 |}.

(** ** The trait

    Advancing a directory iterator, [fs_forget], [fs_batch_forget] and [fs_destroy]
    do not fail, but may panic.  [fs_read] gets
    the guest's writable buffers and returns them with what it has
    stored; [fs_write] gets the guest's readable buffers. *)

Class FileSystem (F D : Type) := {
  dir_next : D -> D * res Empty_set (option DirEntry);
  fs_init : F -> Z -> F * io Z;
  fs_destroy : F -> F * res Empty_set unit;
  fs_lookup : F -> Context -> Z -> bytes -> F * io Entry;
  fs_forget : F -> Context -> Z -> Z -> F * res Empty_set unit;
  fs_batch_forget : F -> Context -> list (Z * Z) -> F * res Empty_set unit;
  fs_getattr : F -> Context -> Z -> option Z -> F * io (Attr * Duration);
  fs_setattr : F -> Context -> Z -> SetattrIn -> option Z -> Z -> F * io (Attr * Duration);
  fs_readlink : F -> Context -> Z -> F * io bytes;
  fs_symlink : F -> Context -> bytes -> Z -> bytes -> Extensions -> F * io Entry;
  fs_mknod : F -> Context -> Z -> bytes -> Z -> Z -> Z -> Extensions -> F * io Entry;
  fs_mkdir : F -> Context -> Z -> bytes -> Z -> Z -> Extensions -> F * io Entry;
  fs_unlink : F -> Context -> Z -> bytes -> F * io unit;
  fs_rmdir : F -> Context -> Z -> bytes -> F * io unit;
  fs_rename : F -> Context -> Z -> bytes -> Z -> bytes -> Z -> F * io unit;
  fs_link : F -> Context -> Z -> Z -> bytes -> F * io Entry;
  fs_open : F -> Context -> Z -> bool -> Z -> F * io (option Z * Z);
  fs_create : F -> Context -> Z -> bytes -> Z -> bool -> Z -> Z -> Extensions ->
              F * io (Entry * option Z * Z);
  fs_read : F -> Context -> Z -> Z -> writer -> Z -> Z -> option Z -> Z -> F * writer * io Z;
  fs_write : F -> Context -> Z -> Z -> consumer -> Z -> Z -> option Z -> bool -> bool -> Z ->
             F * io Z;
  fs_flush : F -> Context -> Z -> Z -> Z -> F * io unit;
  fs_fsync : F -> Context -> Z -> bool -> Z -> F * io unit;
  fs_fallocate : F -> Context -> Z -> Z -> Z -> Z -> Z -> F * io unit;
  fs_release : F -> Context -> Z -> Z -> Z -> bool -> bool -> option Z -> F * io unit;
  fs_statfs : F -> Context -> Z -> F * io Statvfs;
  fs_setxattr : F -> Context -> Z -> bytes -> bytes -> Z -> Z -> F * io unit;
  fs_getxattr : F -> Context -> Z -> bytes -> Z -> F * io GetxattrReply;
  fs_listxattr : F -> Context -> Z -> Z -> F * io ListxattrReply;
  fs_removexattr : F -> Context -> Z -> bytes -> F * io unit;
  fs_opendir : F -> Context -> Z -> Z -> F * io (option Z * Z);
  fs_readdir : F -> Context -> Z -> Z -> Z -> Z -> F * io D;
  fs_fsyncdir : F -> Context -> Z -> bool -> Z -> F * io unit;
  fs_releasedir : F -> Context -> Z -> Z -> Z -> F * io unit;
  fs_access : F -> Context -> Z -> Z -> F * io unit;
  fs_lseek : F -> Context -> Z -> Z -> Z -> Z -> F * io Z;
  fs_copyfilerange : F -> Context -> Z -> Z -> Z -> Z -> Z -> Z -> Z -> Z -> F * io Z;
  fs_syncfs : F -> Context -> Z -> F * io unit;
  fs_getlk : F -> F * io unit;
  fs_setlk : F -> F * io unit;
  fs_setlkw : F -> F * io unit;
  fs_ioctl : F -> F * io unit;
  fs_bmap : F -> F * io unit;
  fs_poll : F -> F * io unit;
  fs_notify_reply : F -> F * io unit;
  fs_tmpfile : F -> F * io unit;
}.

(** The contract of [ZeroCopyWriter] a file system's [read] relies on and passes
    on: a successful read stores exactly the bytes it reports, after what was in
    the buffer, and never more than fits. *)
Class ReadContract (F D : Type) `{FileSystem F D} : Prop := {
  read_stores s ctx inode handle w size offset owner flags s' w' n :
    chain_ok (w_chain w) ->
    fs_read s ctx inode handle w size offset owner flags = (s', w', Ok n) ->
    exists data, w_out w' = w_out w ++ data /\ blen data = n /\
      (length data <= room w)%nat /\ (0 <= size -> n <= size);
}.

(** The lookup count of the trait's documentation: a successful lookup takes one
    reference to the inode it returns, [forget] gives references back, and neither
    touches the count of another inode; inode 0 stands for no inode.  [fs_ok n] is
    the file system's invariant, with room for [n] more lookups in its counters. *)
Class LookupCounts (F D : Type) `{FileSystem F D} := {
  fs_ok : nat -> F -> Prop;
  lookup_count : F -> Z -> Z;
  fs_ok_le m n s : (n <= m)%nat -> fs_ok m s -> fs_ok n s;
  lookup_counts n s ctx parent name s' r :
    fs_ok (S n) s -> fs_lookup s ctx parent name = (s', r) ->
    match r with
    | Ok e => fs_ok n s' /\
        forall i, lookup_count s' i =
             lookup_count s i + (if decide (i = entry_inode e) then 1 else 0)
    | Err _ => fs_ok n s' /\ forall i, lookup_count s' i = lookup_count s i
    | Panic => True
    end;
  forget_counts n s ctx i c :
    fs_ok n s -> 0 <= c <= lookup_count s i ->
    exists s', fs_forget s ctx i c = (s', Ok tt) /\ fs_ok n s' /\
      forall j, lookup_count s' j = lookup_count s j - (if decide (j = i) then c else 0);
  forget_none n s ctx c :
    fs_ok n s ->
    exists s', fs_forget s ctx 0 c = (s', Ok tt) /\ fs_ok n s' /\
      forall j, lookup_count s' j = lookup_count s j;
  readdir_counts n s ctx inode handle size offset s' r :
    fs_ok n s -> fs_readdir s ctx inode handle size offset = (s', r) ->
    fs_ok n s' /\ forall i, lookup_count s' i = lookup_count s i;
  lookup_count_nonneg n s i : fs_ok n s -> 0 <= lookup_count s i;
}.
