(* ===== verification/Host.v ===== *)
(** * The host system

    The system calls the daemon makes, as a family of calls indexed by the type of
    their results, and the monad its code runs in.  What the calls do is the
    business of a [Host]: any type of worlds with any meaning of the calls.  Every
    call a computation makes is recorded with its outcome, so that theorems can say
    which calls are made without knowing what they do.

    The calls to [capng] and to [libc] helpers that are no system calls are treated
    the same way. *)

From S2P Require Import Prelude OpenFlags Libc FileHandle FuseTypes FuseWire Descriptor FileSystem.

(** ** Calls *)

(** [struct stat]. *)
Record Stat64 := {
  st_dev : Z; st_ino : Z; st_mode : Z; st_nlink : Z; st_uid : Z; st_gid : Z; st_rdev : Z;
  st_size : Z; st_blksize : Z; st_blocks : Z; st_atime : Z; st_atime_nsec : Z; st_mtime : Z;
  st_mtime_nsec : Z; st_ctime : Z; st_ctime_nsec : Z;
}.

(** [struct statx]: the file status with its device numbers in two parts, valid as
    far as the mask says. *)
Record Statx := {
  stx_mask : Z; stx_stat : Stat64; stx_dev_major : Z; stx_dev_minor : Z; stx_rdev_major : Z;
  stx_rdev_minor : Z; stx_mnt_id : Z;
}.

Record Timespec := { tv_sec : Z; tv_nsec : Z }.

(** Paths are given without their terminating NUL. *)
Inductive Call : Type -> Type :=
| SysClose (fd : Z) : Call unit
| SysOpenat (dirfd : Z) (path : bytes) (flags mode : Z) : Call Z
| SysOpenat2 (dirfd : Z) (path : bytes) (flags mode resolve : Z) : Call Z
| SysOpen (path : bytes) (flags : Z) : Call Z
| SysStatx (dirfd : Z) (path : bytes) (flags mask : Z) : Call Statx
| SysFstat (fd : Z) : Call Stat64
| SysFstatat (dirfd : Z) (path : bytes) (flags : Z) : Call Stat64
| SysNameToHandleAt (dirfd : Z) (path : bytes) (flags : Z) : Call (CFileHandle * Z)
| SysOpenByHandleAt (mount_fd : Z) (handle : CFileHandle) (flags : Z) : Call Z
| SysUnlinkat (dirfd : Z) (path : bytes) (flags : Z) : Call unit
| SysMkdirat (dirfd : Z) (path : bytes) (mode : Z) : Call unit
| SysMknodat (dirfd : Z) (path : bytes) (mode dev : Z) : Call unit
| SysSymlinkat (target : bytes) (dirfd : Z) (path : bytes) : Call unit
| SysLinkat (olddirfd : Z) (oldpath : bytes) (newdirfd : Z) (newpath : bytes) (flags : Z) : Call unit
| SysRenameat (olddirfd : Z) (oldpath : bytes) (newdirfd : Z) (newpath : bytes) : Call unit
| SysRenameat2 (olddirfd : Z) (oldpath : bytes) (newdirfd : Z) (newpath : bytes) (flags : Z) : Call unit
| SysRenameatxNp (olddirfd : Z) (oldpath : bytes) (newdirfd : Z) (newpath : bytes) (flags : Z) : Call unit
| SysReadlinkat (dirfd : Z) (path : bytes) (len : Z) : Call bytes
| SysReadlink (path : bytes) (len : Z) : Call bytes
| SysGetpath (fd : Z) : Call bytes
| SysFstatvfs (fd : Z) : Call Statvfs
| SysFchmod (fd mode : Z) : Call unit
| SysFchmodat (dirfd : Z) (path : bytes) (mode flags : Z) : Call unit
| SysFchown (fd uid gid : Z) : Call unit
| SysFchownat (dirfd : Z) (path : bytes) (uid gid flags : Z) : Call unit
| SysFtruncate (fd size : Z) : Call unit
| SysFutimens (fd : Z) (atime mtime : Timespec) : Call unit
| SysUtimensat (dirfd : Z) (path : bytes) (atime mtime : Timespec) (flags : Z) : Call unit
| SysFsetxattr (fd : Z) (name value : bytes) (flags : Z) : Call unit
| SysSetxattr (path name value : bytes) (flags : Z) : Call unit
| SysFgetxattr (fd : Z) (name : bytes) (size : Z) : Call (Z * bytes)
| SysGetxattr (path name : bytes) (size : Z) : Call (Z * bytes)
| SysFlistxattr (fd size : Z) : Call (Z * bytes)
| SysListxattr (path : bytes) (size : Z) : Call (Z * bytes)
| SysFremovexattr (fd : Z) (name : bytes) : Call unit
| SysRemovexattr (path name : bytes) : Call unit
| SysFchdir (fd : Z) : Call unit
| SysDup (fd : Z) : Call Z
| SysFsync (fd : Z) : Call unit
| SysFdatasync (fd : Z) : Call unit
| SysFullfsync (fd : Z) : Call unit
| SysSyncfs (fd : Z) : Call unit
| SysNocache (fd : Z) : Call unit
| SysFallocate (fd mode offset length : Z) : Call unit
| SysPreallocate (fd : Z) (contiguous : bool) (length : Z) : Call unit
| SysLseek (fd offset whence : Z) : Call Z
| SysCopyFileRange (fd_in off_in fd_out off_out len flags : Z) : Call Z
| SysPread (fd len offset : Z) : Call bytes
| SysPwrite (fd : Z) (data : bytes) (offset : Z) : Call Z
| SysPreadv (fd len offset : Z) : Call bytes
| SysPwritev (fd : Z) (data : bytes) (offset flags : Z) : Call Z
| SysGetdents (fd len : Z) : Call bytes
| SysGetdirentries (fd len : Z) : Call bytes
| SysReadAll (fd : Z) : Call bytes
| SysUmask (mask : Z) : Call Z
| SysGeteuid : Call Z
| SysGetegid : Call Z
| SysSeteffuid (uid : Z) : Call unit
| SysSeteffgid (gid : Z) : Call unit
| SysSetgroups (gids : list Z) : Call unit
| CapNameToId (name : bytes) : Call Z
| CapHaveEffective (cap : Z) : Call bool
| CapGetProcess : Call unit
| CapUpdateEffective (add : bool) (cap : Z) : Call unit
| CapApply : Call unit.

(** The outcome of a call: an errno or a result. *)
Definition outcome_of (A : Type) : Type := (Z + A)%type.

Class Host (W : Type) := {
  host_run : forall A, Call A -> W -> W * outcome_of A;
  makedev : Z -> Z -> Z;
}.

Arguments host_run {W Host A} c w.

Inductive event := | Event {A : Type} (c : Call A) (r : outcome_of A).

(** ** Computations

    A computation over a state may fail or panic; it returns the state it leaves
    behind in any case. *)

Definition eff (S A : Type) : Type := S -> S * io A.

#[export] Instance eff_ret S : MRet (eff S) := fun A a s => (s, Ok a).
#[export] Instance eff_bind S : MBind (eff S) := fun A B f m s =>
  match m s with
  | (s', Ok a) => f a s'
  | (s', Err e) => (s', Err e)
  | (s', Panic) => (s', Panic)
  end.

Section Eff.
Context {S : Type}.

Definition lift {A} (r : io A) : eff S A := fun s => (s, r).
Definition throw {A} (e : io_error) : eff S A := lift (Err e).
Definition gets {A} (f : S -> A) : eff S A := fun s => (s, Ok (f s)).
Definition modify (f : S -> S) : eff S unit := fun s => (f s, Ok tt).

(** The result of [m] as a value; a panic is not caught. *)
Definition attempt {A} (m : eff S A) : eff S (io A) := fun s =>
  match m s with
  | (s', Panic) => (s', Panic)
  | (s', r) => (s', Ok r)
  end.

(** [m] followed by the destructors [c] of the values that go out of scope with
    it, on every exit from [m]. *)
Definition finally {A} (m : eff S A) (c : eff S unit) : eff S A := fun s =>
  let '(s1, r) := m s in
  let '(s2, rc) := c s1 in
  (s2, match rc with Panic => Panic | _ => r end).

(** The same when [m] leaves by an error: what it would have returned has not
    taken over the values. *)
Definition on_failure {A} (m : eff S A) (c : eff S unit) : eff S A := fun s =>
  match m s with
  | (s1, Ok a) => (s1, Ok a)
  | (s1, r) => let '(s2, rc) := c s1 in (s2, match rc with Panic => Panic | _ => r end)
  end.

(** [let _ = m]. *)
Definition ignore {A} (m : eff S A) : eff S unit := r ← attempt m; mret tt.

Definition when_ (b : bool) (m : eff S unit) : eff S unit := if b then m else mret tt.

Definition expect {A} (m : eff S A) : eff S A := fun s =>
  match m s with (s', Err _) => (s', Panic) | r => r end.

(** [m] on every element in turn. *)
Fixpoint each {A} (m : A -> eff S unit) (l : list A) : eff S unit :=
  match l with
  | [] => mret tt
  | a :: l' => m a;; each m l'
  end.
End Eff.

(** A computation on a part of the state. *)
Definition zoom {S T A} (get : S -> T) (set : T -> S -> S) (m : eff T A) : eff S A := fun s =>
  let '(t, r) := m (get s) in (set t s, r).

Lemma eff_bind_ok {S A B} (m : eff S A) (k : A -> eff S B) s s' a :
  m s = (s', Ok a) -> (a ← m; k a) s = k a s'.
Proof. intros Hm. unfold mbind, eff_bind. by rewrite Hm. Qed.

(** The ways a sequence of two computations can end. *)
Lemma eff_bind_inv {S A B} (m : eff S A) (k : A -> eff S B) s s' r :
  (a ← m; k a) s = (s', r) ->
  (exists s1 a, m s = (s1, Ok a) /\ k a s1 = (s', r)) \/
  (exists e, m s = (s', Err e) /\ r = Err e) \/ (m s = (s', Panic) /\ r = Panic).
Proof.
  unfold mbind, eff_bind. destruct (m s) as [s1 [a|e|]]; intros; simplify_eq; eauto 10.
Qed.

(** ** Relations every run respects

    [respects R m]: from any state, [m] ends in a state related to it by the
    preorder [R], however it ends.  Invariants, frame conditions and properties of
    the calls that are made all have this form, and the combinators pass it on. *)

Definition respects {S A} (R : S -> S -> Prop) (m : eff S A) : Prop := forall s, R s (m s).1.

Create HintDb eff.

Section Respects.
Context {S : Type} (R : S -> S -> Prop) `{HR : !PreOrder R}.

Lemma respects_ret {A} (a : A) : respects R (mret (M := eff S) a).
Proof. intros s. cbn. reflexivity. Qed.

Lemma respects_lift {A} (r : io A) : respects R (lift r).
Proof. intros s. cbn. reflexivity. Qed.

Lemma respects_throw {A} e : respects R (throw (A := A) e).
Proof. apply respects_lift. Qed.

Lemma respects_gets {A} (f : S -> A) : respects R (gets f).
Proof. intros s. cbn. reflexivity. Qed.

Lemma respects_modify f : (forall s, R s (f s)) -> respects R (modify f).
Proof. intros Hf s. apply Hf. Qed.

Lemma respects_bind {A B} (m : eff S A) (k : A -> eff S B) :
  respects R m -> (forall a, respects R (k a)) -> respects R (a ← m; k a).
Proof.
  intros Hm Hk s. specialize (Hm s). unfold mbind, eff_bind.
  destruct (m s) as [s1 [a|e|]]; cbn in *; [|done..]. etrans; [done|apply Hk].
Qed.

Lemma respects_attempt {A} (m : eff S A) : respects R m -> respects R (attempt m).
Proof. intros Hm s. specialize (Hm s). unfold attempt. by destruct (m s) as [s1 [a|e|]]. Qed.

Lemma respects_finally {A} (m : eff S A) c :
  respects R m -> respects R c -> respects R (finally m c).
Proof.
  intros Hm Hc s. specialize (Hm s). unfold finally. destruct (m s) as [s1 r]. cbn in Hm.
  specialize (Hc s1). destruct (c s1) as [s2 rc]. cbn in *. by etrans.
Qed.

Lemma respects_on_failure {A} (m : eff S A) c :
  respects R m -> respects R c -> respects R (on_failure m c).
Proof.
  intros Hm Hc s. specialize (Hm s). unfold on_failure. destruct (m s) as [s1 [a|e|]]; cbn in *; [done|..].
  all: specialize (Hc s1); destruct (c s1) as [s2 rc]; cbn in *; by etrans.
Qed.

Lemma respects_ignore {A} (m : eff S A) : respects R m -> respects R (ignore m).
Proof.
  intros Hm. apply respects_bind; [by apply respects_attempt|intros; apply respects_ret].
Qed.

Lemma respects_when (b : bool) m : respects R m -> respects R (when_ b m).
Proof. intros Hm. destruct b; [done|apply respects_ret]. Qed.

Lemma respects_expect {A} (m : eff S A) : respects R m -> respects R (expect m).
Proof. intros Hm s. specialize (Hm s). unfold expect. by destruct (m s) as [s1 [a|e|]]. Qed.

Lemma respects_each {A} (m : A -> eff S unit) l :
  (forall a, respects R (m a)) -> respects R (each m l).
Proof.
  intros Hm. induction l as [|a l IH]; [apply respects_ret|]. by apply respects_bind.
Qed.
End Respects.

Lemma respects_zoom {S T A} (R : S -> S -> Prop) (RT : T -> T -> Prop) get set (m : eff T A) :
  respects RT m -> (forall s t, RT (get s) t -> R s (set t s)) -> respects R (zoom get set m).
Proof.
  intros Hm Hset s. specialize (Hm (get s)). unfold zoom. destruct (m (get s)) as [t r].
  by apply Hset.
Qed.

(** Follows the structure of a computation; the hints in [eff] close the leaves. *)
Ltac respect :=
  repeat lazymatch goal with
  | |- forall _, _ => intros ?
  | |- respects _ (mbind _ _) => apply respects_bind; [exact _| |intros ?]
  | |- respects _ (mret _) => apply respects_ret; exact _
  | |- respects _ (lift _) => apply respects_lift; exact _
  | |- respects _ (throw _) => apply respects_throw; exact _
  | |- respects _ (gets _) => apply respects_gets; exact _
  | |- respects _ (attempt _) => apply respects_attempt
  | |- respects _ (finally _ _) => apply respects_finally; [exact _| |]
  | |- respects _ (on_failure _ _) => apply respects_on_failure; [exact _| |]
  | |- respects _ (ignore _) => apply respects_ignore; [exact _|]
  | |- respects _ (when_ _ _) => apply respects_when; [exact _|]
  | |- respects _ (expect _) => apply respects_expect
  | |- respects _ (each _ _) => apply respects_each; [exact _|intros ?]
  | |- respects _ (match ?x with _ => _ end) => destruct x
  | |- respects _ (let _ := _ in _) => cbv zeta
  | |- _ => progress eauto 3 with eff
  end.

(** ** The world *)

Record world (W : Type) := { host : W; history : list event }.
Arguments host {W} w.
Arguments history {W} w.
Arguments Build_world {W} _ _.

Section World.
Context {W : Type} `{Host W}.

Notation IO := (eff (world W)).

Definition sys {A} (c : Call A) : IO A := fun w =>
  let '(h, r) := host_run c (host w) in
  ({| host := h; history := history w ++ [Event c r] |},
   match r with inl errno => Err (Os errno) | inr a => Ok a end).

Lemma sys_ok {A} (c : Call A) w h a :
  host_run c (host w) = (h, inr a) ->
  sys c w = ({| host := h; history := history w ++ [Event c (inr a)] |}, Ok a).
Proof. intros Hr. unfold sys. by rewrite Hr. Qed.

(** [errno]: a failing call sets it, a successful one leaves it alone. *)
Definition event_errno (errno : Z) (e : event) : Z :=
  match e with Event _ (inl n) => n | Event _ (inr _) => errno end.

Definition last_errno (h : list event) : Z := fold_left event_errno h 0.

(** [io::Error::last_os_error()]. *)
Definition last_os_error : IO io_error := gets (fun w => Os (last_errno (history w))).

(** A call whose result is kept for later, when [errno] may be another's. *)
Definition raw {A} (c : Call A) : IO (option A) :=
  r ← attempt (sys c);
  mret match r with Ok a => Some a | _ => None end.

(** [File]'s destructor. *)
Definition close (fd : Z) : IO unit := ignore (sys (SysClose fd)).

(** ** File status (src/passthrough/stat.rs) *)

Record StatExt := { st : Stat64; st_mnt_id : Z }.

Definition set_devices (s : Stat64) (dev rdev : Z) : Stat64 :=
  {| st_dev := dev; st_ino := st_ino s; st_mode := st_mode s; st_nlink := st_nlink s;
     st_uid := st_uid s; st_gid := st_gid s; st_rdev := rdev; st_size := st_size s;
     st_blksize := st_blksize s; st_blocks := st_blocks s; st_atime := st_atime s;
     st_atime_nsec := st_atime_nsec s; st_mtime := st_mtime s; st_mtime_nsec := st_mtime_nsec s;
     st_ctime := st_ctime s; st_ctime_nsec := st_ctime_nsec s |}.

(** [SafeStatXAccess::stat64]: one bit of the mask is enough. *)
Definition statx_stat64 (x : Statx) : option Stat64 :=
  if has_any (stx_mask x) STATX_BASIC_STATS
  then Some (set_devices (stx_stat x) (makedev (stx_dev_major x) (stx_dev_minor x))
               (makedev (stx_rdev_major x) (stx_rdev_minor x)))
  else None.

Definition statx_mount_id (x : Statx) : option Z :=
  if has_any (stx_mask x) STATX_MNT_ID then Some (stx_mnt_id x) else None.

(** [mount_id as MountId]: a [c_int] widened to 64 bits. *)
Definition get_mount_id (dir : Z) (path : bytes) : IO (option Z) :=
  r ← attempt (sys (SysNameToHandleAt dir path AT_EMPTY_PATH));
  mret match r with Ok (_, mount_id) => Some (mount_id mod 2 ^ 64) | _ => None end.

Definition statx (os : HostOs) (dir : Z) (path : option bytes) : IO StatExt :=
  match os with
  | HostLinux _ =>
      let p := default [] path in
      x ← sys (SysStatx dir p (Z.lor AT_EMPTY_PATH (AT_SYMLINK_NOFOLLOW os))
                 (Z.lor STATX_BASIC_STATS STATX_MNT_ID));
      mnt ← match statx_mount_id x with
            | Some m => mret (Some m)
            | None => get_mount_id dir p
            end;
      st ← lift (ok_or (statx_stat64 x) (Os (host_ENOSYS os)));
      mret {| st := st; st_mnt_id := default 0 mnt |}
  | HostMacos =>
      st ← match path with
           | Some p => sys (SysFstatat dir p (AT_SYMLINK_NOFOLLOW os))
           | None => sys (SysFstat dir)
           end;
      mret {| st := st; st_mnt_id := st_dev st mod 2 ^ 64 |}
  end.
End World.
