(* ===== verification/Credentials.v ===== *)
(** * Caller credentials (src/passthrough/credentials.rs)

    A request that creates a file runs with the user and group of the guest
    process that sent it.  The credentials are switched by [UnixCredentials::set]
    and switched back when the guard it returns goes out of scope.  [ScopedCaps]
    drops a capability in the same way, [ScopedUmask] (src/oslib.rs) sets the file
    mode creation mask. *)

From S2P Require Import Prelude OpenFlags Libc FileHandle Descriptor Host.

Record UnixCredentials := {
  cred_uid : Z; cred_gid : Z; cred_sup_gids : list Z; keep_capability : bool;
}.

Record UnixCredentialsGuard := {
  reset_uid : option Z; reset_gid : option Z; drop_sup_gid : bool;
}.

Definition credentials_new (uid gid : Z) : UnixCredentials :=
  {| cred_uid := uid; cred_gid := gid; cred_sup_gids := []; keep_capability := false |}.

Definition supplementary_gid (c : UnixCredentials) (supported_extension : bool)
  (sup_gids : list Z) : UnixCredentials :=
  {| cred_uid := cred_uid c; cred_gid := cred_gid c; cred_sup_gids := sup_gids;
     keep_capability := negb supported_extension |}.

Section Credentials.
Context {W : Type} `{Host W} (os : HostOs).

Notation IO := (eff (world W)).

(** [add_cap_to_eff] (src/util.rs). *)
Definition add_cap_to_eff (name : bytes) : IO unit :=
  cap ← sys (CapNameToId name);
  sys CapGetProcess;;
  sys (CapUpdateEffective true cap);;
  sys CapApply.

Definition is_empty {A} (l : list A) : bool := match l with [] => true | _ => false end.

Definition credentials_set (c : UnixCredentials) : IO (option UnixCredentialsGuard) :=
  current_uid ← sys SysGeteuid;
  current_gid ← sys SysGetegid;
  let change_uid := negb (cred_uid c =? 0) && negb (cred_uid c =? current_uid) in
  let change_gid := negb (cred_gid c =? 0) && negb (cred_gid c =? current_gid) in
  when_ (negb (is_empty (cred_sup_gids c))) (sys (SysSetgroups (cred_sup_gids c)));;
  when_ change_gid (sys (SysSeteffgid (cred_gid c)));;
  when_ change_uid (sys (SysSeteffuid (cred_uid c)));;
  match os with
  | HostLinux _ =>
      when_ (change_uid && keep_capability c) (ignore (add_cap_to_eff (text "DAC_OVERRIDE")))
  | HostMacos => mret tt
  end;;
  mret (if negb change_uid && negb change_gid then None
        else Some {| reset_uid := if change_uid then Some current_uid else None;
                     reset_gid := if change_gid then Some current_gid else None;
                     drop_sup_gid := negb (is_empty (cred_sup_gids c)) |}).

(** The guard's destructor: errors are only logged. *)
Definition credentials_drop (g : UnixCredentialsGuard) : IO unit :=
  match reset_uid g with Some uid => ignore (sys (SysSeteffuid uid)) | None => mret tt end;;
  match reset_gid g with Some gid => ignore (sys (SysSeteffgid gid)) | None => mret tt end;;
  when_ (drop_sup_gid g) (ignore (sys (SysSetgroups []))).

Definition drop_option {A} (d : A -> IO unit) (o : option A) : IO unit :=
  match o with Some a => d a | None => mret tt end.

(** ** Capabilities *)

Definition scoped_caps_new (cap_name : bytes) : IO (option Z) :=
  cap ← sys (CapNameToId cap_name);
  have ← sys (CapHaveEffective cap);
  if have : bool then
    u ← attempt (sys (CapUpdateEffective false cap));
    lift (map_err (fun _ => Os EINVAL) u);;
    a ← attempt (sys CapApply);
    lift (map_err (fun _ => Os EINVAL) a);;
    mret (Some cap)
  else mret None.

Definition scoped_caps_drop (cap : Z) : IO unit :=
  expect (sys (CapUpdateEffective true cap));;
  expect (sys CapApply).

Definition drop_effective_cap (cap_name : bytes) : IO (option Z) :=
  match os with HostLinux _ => scoped_caps_new cap_name | HostMacos => mret None end.

(** ** The file mode creation mask *)

Definition scoped_umask_new (new_umask : Z) : IO Z := sys (SysUmask new_umask).
Definition scoped_umask_drop (umask : Z) : IO unit := ignore (sys (SysUmask umask)).
End Credentials.

(** ** The identity of a thread

    The real, effective and saved user and group, and the supplementary groups
    (credentials(7)). *)

Record Creds := {
  ruid : Z; euid : Z; suid : Z; rgid : Z; egid : Z; sgid : Z; groups : list Z;
}.

Definition with_euid (u : Z) (c : Creds) : Creds :=
  {| ruid := ruid c; euid := u; suid := suid c; rgid := rgid c; egid := egid c; sgid := sgid c;
     groups := groups c |}.
Definition with_egid (g : Z) (c : Creds) : Creds :=
  {| ruid := ruid c; euid := euid c; suid := suid c; rgid := rgid c; egid := g; sgid := sgid c;
     groups := groups c |}.
Definition with_groups (l : list Z) (c : Creds) : Creds :=
  {| ruid := ruid c; euid := euid c; suid := suid c; rgid := rgid c; egid := egid c; sgid := sgid c;
     groups := l |}.

(** The documented behaviour of the calls, for a thread with CAP_SETUID and CAP_SETGID in
    its permitted set, or for a super-user on macOS.  Linux has permitted capabilities in
    effect while the effective user is 0, and only then (capabilities(7)).  So a thread
    takes any user or group that is valid (in its user namespace) and any list of valid
    groups that is not too long while its effective user is 0; otherwise it can only go
    back to a real, effective or saved ID of its own (setresuid(2), setresgid(2),
    setgroups(2)).  An ID of all ones means "no change". *)
Class CredHost (W : Type) `{Host W} := {
  creds : W -> Creds;
  valid_uid : Z -> bool;
  valid_gid : Z -> bool;
  max_groups : nat;
  run_geteuid w : host_run SysGeteuid w = (w, inr (euid (creds w)));
  run_getegid w : host_run SysGetegid w = (w, inr (egid (creds w)));
  run_seteffuid w u :
    u <> u32_max ->
    euid (creds w) = 0 /\ valid_uid u = true \/
      u ∈ [ruid (creds w); euid (creds w); suid (creds w)] ->
    exists w', host_run (SysSeteffuid u) w = (w', inr tt) /\ creds w' = with_euid u (creds w);
  run_seteffgid w g :
    g <> u32_max ->
    euid (creds w) = 0 /\ valid_gid g = true \/
      g ∈ [rgid (creds w); egid (creds w); sgid (creds w)] ->
    exists w', host_run (SysSeteffgid g) w = (w', inr tt) /\ creds w' = with_egid g (creds w);
  run_setgroups w l :
    euid (creds w) = 0 -> Forall (fun g => valid_gid g = true) l -> (length l <= max_groups)%nat ->
    exists w', host_run (SysSetgroups l) w = (w', inr tt) /\ creds w' = with_groups l (creds w);
  run_cap_name w n : creds (host_run (CapNameToId n) w).1 = creds w;
  run_cap_get w : creds (host_run CapGetProcess w).1 = creds w;
  run_cap_update w b c : creds (host_run (CapUpdateEffective b c) w).1 = creds w;
  run_cap_apply w : creds (host_run CapApply w).1 = creds w;
}.

(** A thread of a daemon that was started as root, between requests. *)
Definition root_thread (o : Creds) : Prop :=
  ruid o = 0 /\ euid o = 0 /\ egid o = rgid o /\ rgid o <> u32_max.

Section CredentialFacts.
Context {W : Type} `{CredHost W} (os : HostOs).

Notation IO := (eff (world W)).

(** Users and groups the host can switch to. *)
Definition valid_request (c : UnixCredentials) : Prop :=
  (cred_uid c <> u32_max /\ valid_uid (cred_uid c) = true) /\
  (cred_gid c <> u32_max /\ valid_gid (cred_gid c) = true) /\
  Forall (fun g => valid_gid g = true) (cred_sup_gids c) /\ (length (cred_sup_gids c) <= max_groups)%nat.

(** From an identity with [P], a computation that succeeds and changes it by [f]. *)
Definition sets (P : Creds -> Prop) (f : Creds -> Creds) (m : IO unit) : Prop :=
  forall w, P (creds (host w)) -> exists w', m w = (w', Ok tt) /\ creds (host w') = f (creds (host w)).

Lemma sets_seteffuid u :
  u <> u32_max ->
  sets (fun c => euid c = 0 /\ valid_uid u = true \/ u ∈ [ruid c; euid c; suid c]) (with_euid u)
    (sys (SysSeteffuid u)).
Proof.
  intros Hu w Hp. destruct (run_seteffuid (host w) u Hu Hp) as (w' & Hr & Hc).
  unfold sys. rewrite Hr. eexists; split; [done|]. done.
Qed.

Lemma sets_seteffgid g :
  g <> u32_max ->
  sets (fun c => euid c = 0 /\ valid_gid g = true \/ g ∈ [rgid c; egid c; sgid c]) (with_egid g)
    (sys (SysSeteffgid g)).
Proof.
  intros Hu w Hp. destruct (run_seteffgid (host w) g Hu Hp) as (w' & Hr & Hc).
  unfold sys. rewrite Hr. eexists; split; [done|]. done.
Qed.

Lemma sets_setgroups l :
  Forall (fun g => valid_gid g = true) l -> (length l <= max_groups)%nat ->
  sets (fun c => euid c = 0) (with_groups l) (sys (SysSetgroups l)).
Proof.
  intros Hl Hm w Hp. destruct (run_setgroups (host w) l Hp Hl Hm) as (w' & Hr & Hc).
  unfold sys. rewrite Hr. eexists; split; [done|]. done.
Qed.

Lemma sets_ret P : sets P (fun c => c) (mret (M := IO) tt).
Proof. intros w _. eexists. split; reflexivity. Qed.

Lemma sets_when P (b : bool) f m :
  (b = true -> sets P f m) -> sets P (fun c => if b then f c else c) (when_ b m).
Proof. intros Hm. destruct b; [by apply Hm|apply sets_ret]. Qed.

Lemma sets_weaken (P Q : Creds -> Prop) f m : (forall c, Q c -> P c) -> sets P f m -> sets Q f m.
Proof. intros Hi Hm w Hq. by apply Hm, Hi. Qed.

Lemma sets_ignore P f m : sets P f m -> sets P f (ignore m).
Proof.
  intros Hm w Hp. destruct (Hm w Hp) as (w' & Hr & Hc). exists w'. split; [|done].
  unfold ignore, attempt, mbind, eff_bind. by rewrite Hr.
Qed.

Lemma sets_bind (P Q : Creds -> Prop) f g (m k : IO unit) :
  sets P f m -> (forall c, P c -> Q (f c)) -> sets Q g k -> sets P (fun c => g (f c)) (m;; k).
Proof.
  intros Hm Hpq Hk w Hp. destruct (Hm w Hp) as (w1 & Hr & Hc).
  destruct (Hk w1) as (w2 & Hr2 & Hc2); [rewrite Hc; by apply Hpq|].
  exists w2. unfold mbind, eff_bind. rewrite Hr. split; [done|]. by rewrite Hc2, Hc.
Qed.

(** Whatever a chain of capability calls does, it leaves the credentials alone. *)
Definition keeps_creds {A} (m : IO A) : Prop :=
  forall w, creds (host (m w).1) = creds (host w) /\ (m w).2 <> Panic.

Lemma keeps_sys {A} (c : Call A) :
  (forall w, creds (host_run c w).1 = creds w) -> keeps_creds (sys c).
Proof.
  intros Hc w. unfold sys. specialize (Hc (host w)). destruct (host_run c (host w)) as [h [e|a]]; done.
Qed.

Lemma keeps_bind {A B} (m : IO A) (k : A -> IO B) :
  keeps_creds m -> (forall a, keeps_creds (k a)) -> keeps_creds (a ← m; k a).
Proof.
  intros Hm Hk w. destruct (Hm w) as [Hc Hp]. unfold mbind, eff_bind.
  destruct (m w) as [w1 [a|e|]]; simpl in *; [|done..].
  destruct (Hk a w1) as [Hc2 Hp2]. split; [congruence|done].
Qed.

Lemma sets_add_cap P name : sets P (fun c => c) (ignore (add_cap_to_eff name)).
Proof.
  assert (Hk : keeps_creds (add_cap_to_eff name)).
  { unfold add_cap_to_eff. apply keeps_bind; [apply keeps_sys; intros; apply run_cap_name|].
    intros cap. apply keeps_bind; [apply keeps_sys, run_cap_get|intros _].
    apply keeps_bind; [apply keeps_sys; intros; apply run_cap_update|intros _].
    apply keeps_sys, run_cap_apply. }
  intros w _. destruct (Hk w) as [Hc Hp]. unfold ignore, attempt, mbind, eff_bind.
  destruct (add_cap_to_eff name w) as [w' [a|e|]]; simpl in *; [eauto|eauto|done].
Qed.

(** The identity a request runs with: root stays the daemon's own. *)
Definition acting (c : UnixCredentials) (o : Creds) : Creds :=
  with_euid (if cred_uid c =? 0 then euid o else cred_uid c)
    (with_egid (if cred_gid c =? 0 then egid o else cred_gid c)
       (match cred_sup_gids c with [] => o | l => with_groups l o end)).

Definition guard_of (c : UnixCredentials) (o : Creds) : option UnixCredentialsGuard :=
  let change_uid := negb (cred_uid c =? 0) && negb (cred_uid c =? euid o) in
  let change_gid := negb (cred_gid c =? 0) && negb (cred_gid c =? egid o) in
  if negb change_uid && negb change_gid then None
  else Some {| reset_uid := if change_uid then Some (euid o) else None;
               reset_gid := if change_gid then Some (egid o) else None;
               drop_sup_gid := negb (is_empty (cred_sup_gids c)) |}.

(** Groups first, then the group, then the user: each while the effective user is 0. *)
Lemma credentials_set_spec c w :
  valid_request c -> euid (creds (host w)) = 0 ->
  exists w', credentials_set os c w = (w', Ok (guard_of c (creds (host w)))) /\
    creds (host w') = acting c (creds (host w)).
Proof.
  intros ([Hu1 Hu2] & [Hg1 Hg2] & Hl1 & Hl2) Hroot.
  set (o := creds (host w)) in *. unfold guard_of. cbn zeta.
  set (change_uid := negb (cred_uid c =? 0) && negb (cred_uid c =? euid o)).
  set (change_gid := negb (cred_gid c =? 0) && negb (cred_gid c =? egid o)).
  unfold credentials_set. erewrite eff_bind_ok by (apply sys_ok, run_geteuid).
  erewrite eff_bind_ok by (apply sys_ok, run_getegid). cbn [host history].
  fold o. fold change_uid change_gid.
  set (w1 := {| host := host w; history := _ |}).
  destruct (sets_when (fun c => euid c = 0) (negb (is_empty (cred_sup_gids c))) _ _
    (fun _ => sets_setgroups _ Hl1 Hl2) w1 Hroot) as (w2 & R2 & C2).
  change (creds (host w1)) with o in C2. erewrite eff_bind_ok by exact R2.
  assert (E2 : euid (creds (host w2)) = 0) by (rewrite C2; destruct (is_empty _); exact Hroot).
  destruct (sets_when (fun c => euid c = 0) change_gid _ _ (fun _ => sets_weaken _ (fun c => euid c = 0) _ _
    (fun c He => or_introl (conj He Hg2)) (sets_seteffgid (cred_gid c) Hg1)) w2 E2) as (w3 & R3 & C3).
  erewrite eff_bind_ok by exact R3.
  assert (E3 : euid (creds (host w3)) = 0) by (rewrite C3; destruct change_gid; exact E2).
  destruct (sets_when (fun c => euid c = 0) change_uid _ _ (fun _ => sets_weaken _ (fun c => euid c = 0) _ _
    (fun c He => or_introl (conj He Hu2)) (sets_seteffuid (cred_uid c) Hu1)) w3 E3) as (w4 & R4 & C4).
  erewrite eff_bind_ok by exact R4.
  assert (Hcap : sets (fun _ => True) (fun o => o)
    (match os with
     | HostLinux _ => when_ (change_uid && keep_capability c)
                        (ignore (add_cap_to_eff (text "DAC_OVERRIDE")))
     | HostMacos => mret tt
     end)).
  { destruct os; [|apply sets_ret]. destruct (change_uid && keep_capability c);
      [apply sets_add_cap|apply sets_ret]. }
  destruct (Hcap w4 I) as (w5 & R5 & C5). erewrite eff_bind_ok by exact R5.
  exists w5. split; [reflexivity|]. rewrite C5, C4, C3, C2. clear -change_uid change_gid.
  unfold acting, change_uid, change_gid, with_euid, with_egid, with_groups.
  destruct o as [r u x r' g x' l]. cbn [euid egid].
  destruct (cred_sup_gids c), (Z.eqb_spec (cred_uid c) 0), (Z.eqb_spec (cred_uid c) u),
    (Z.eqb_spec (cred_gid c) 0), (Z.eqb_spec (cred_gid c) g); simpl; congruence.
Qed.

(** The user first: the group and the groups can be changed back once it is 0 again. *)
Lemma credentials_drop_spec g w :
  ruid (creds (host w)) = 0 ->
  (reset_uid g = Some 0 \/ reset_uid g = None /\ euid (creds (host w)) = 0) ->
  (forall gid, reset_gid g = Some gid -> gid = rgid (creds (host w)) /\ gid <> u32_max) ->
  exists w', credentials_drop g w = (w', Ok tt) /\
    creds (host w') = (if drop_sup_gid g then with_groups [] else id)
      (with_egid (default (egid (creds (host w))) (reset_gid g)) (with_euid 0 (creds (host w)))).
Proof.
  destruct g as [ou og b]. cbn [reset_uid reset_gid drop_sup_gid]. intros Hr Hu Hg.
  set (P c := ruid c = 0 /\ (ou = Some 0 \/ ou = None /\ euid c = 0) /\
    (forall gid, og = Some gid -> gid = rgid c /\ gid <> u32_max)).
  set (Q c := euid c = 0 /\ forall gid, og = Some gid -> gid = rgid c /\ gid <> u32_max).
  assert (Hsu : sets P (with_euid 0)
    (match ou with Some uid => ignore (sys (SysSeteffuid uid)) | None => mret tt end)).
  { intros w1 (Hr1 & [->|[-> He1]] & _).
    - apply (sets_ignore _ _ _ (sets_seteffuid 0 ltac:(done))). right. rewrite Hr1. left.
    - exists w1. split; [done|]. destruct (creds (host w1)). simpl in *. by subst. }
  assert (Hsg : sets Q (fun c => with_egid (default (egid c) og) c)
    (match og with Some gid => ignore (sys (SysSeteffgid gid)) | None => mret tt end)).
  { intros w1 (He1 & Hg1). destruct og as [gid|].
    - destruct (Hg1 gid eq_refl) as [Hgid Hmax].
      apply (sets_ignore _ _ _ (sets_seteffgid gid Hmax)). right. rewrite Hgid. left.
    - exists w1. split; [done|]. by destruct (creds (host w1)). }
  pose proof (sets_when (fun c => euid c = 0) b _ _ (fun _ =>
    sets_ignore _ _ _ (sets_setgroups [] ltac:(constructor) ltac:(simpl; lia)))) as Hss.
  pose proof (sets_bind P Q _ _ _ _ Hsu ltac:(by intros c (_ & _ & ?))
    (sets_bind Q (fun c => euid c = 0) _ _ _ _ Hsg ltac:(by intros c [? _]) Hss)) as Hall.
  destruct (Hall w) as (w' & Hd & Hc); [done|]. exists w'. split; [exact Hd|].
  rewrite Hc. by destruct b.
Qed.

Definition same_ids (a b : Creds) : Prop := euid a = euid b /\ egid a = egid b.

(** The identities of a request and a thread, by cases. *)
Ltac compare_ids c r Hgd :=
  revert Hgd; unfold same_ids, with_euid, with_egid, with_groups;
  destruct (cred_sup_gids c), (Z.eqb_spec (cred_uid c) 0), (Z.eqb_spec (cred_gid c) 0),
    (Z.eqb_spec (cred_gid c) r); simpl; intros; simplify_eq/=; try done; intuition congruence.

(** C19: Credentials are switched and switched back.  In a thread of a daemon that runs as
    root and has no supplementary groups, a request of a valid user and groups gets them:
    while the guard lives, the thread has the requested user and group (the daemon's own
    where root is asked for) and exactly the supplementary groups of the request.  Once it
    is gone the credentials are the original ones; except that a request that changes
    neither user nor group leaves its supplementary groups behind.  The host allows each
    change only to root, or back to an ID of the thread, so the order of the changes
    matters in both directions. *)
Theorem credentials_restored c w :
  root_thread (creds (host w)) -> groups (creds (host w)) = [] -> valid_request c ->
  exists w1 g w2, credentials_set os c w = (w1, Ok g) /\
    creds (host w1) = acting c (creds (host w)) /\
    drop_option credentials_drop g w1 = (w2, Ok tt) /\
    (~ same_ids (creds (host w1)) (creds (host w)) \/ cred_sup_gids c = [] ->
     creds (host w2) = creds (host w)) /\
    (same_ids (creds (host w1)) (creds (host w)) ->
     groups (creds (host w2)) = cred_sup_gids c).
Proof.
  intros (Hru & Heu & Heg & Hmax) Hg Hv. destruct (credentials_set_spec c w Hv Heu) as (w1 & Hs & Hc).
  exists w1, (guard_of c (creds (host w))).
  destruct (creds (host w)) as [r u x r' gd x' l] eqn:Ho. simpl in *. subst r u gd l.
  unfold acting in Hc. simpl in Hc.
  destruct (guard_of c {| ruid := 0; euid := 0; suid := x; rgid := r'; egid := r'; sgid := x'; groups := [] |})
    as [g|] eqn:Hgd; unfold guard_of in Hgd; cbn [euid egid] in Hgd.
  - destruct (credentials_drop_spec g w1) as (w2 & Hd & Hc2).
    + rewrite Hc. by destruct (cred_sup_gids c).
    + destruct (_ && _) eqn:Hb in Hgd; simplify_eq/=. rewrite Hc.
      destruct (Z.eqb_spec (cred_uid c) 0) as [He|He]; simpl; [right|left; done].
      split; [done|]. by destruct (cred_sup_gids c).
    + intros gid. destruct (_ && _) eqn:Hb in Hgd; simplify_eq/=. rewrite Hc.
      destruct (negb _ && negb (cred_gid c =? r')); intros [= <-]. by destruct (cred_sup_gids c).
    + exists w2. split_and!; [done..| |]; rewrite Hc2, Hc; clear Hc Hc2 Hd Hs; compare_ids c r' Hgd.
  - exists w1. split_and!; [done..| |]; rewrite Hc; clear Hc Hs; compare_ids c r' Hgd.
Qed.
End CredentialFacts.

(** ** A host for examples

    The credentials of one thread, with IDs of 32 bits; every other call fails. *)

Definition demo_id (i : Z) : bool := (0 <=? i) && (i <? u32_max).

Definition cred_run (A : Type) (c : Call A) (w : Creds) : Creds * outcome_of A :=
  match c in Call A return Creds * outcome_of A with
  | SysGeteuid => (w, inr (euid w))
  | SysGetegid => (w, inr (egid w))
  | SysSeteffuid u =>
      if (euid w =? 0) && demo_id u || bool_decide (u ∈ [ruid w; euid w; suid w])
      then (with_euid u w, inr tt) else (w, inl EPERM)
  | SysSeteffgid g =>
      if (euid w =? 0) && demo_id g || bool_decide (g ∈ [rgid w; egid w; sgid w])
      then (with_egid g w, inr tt) else (w, inl EPERM)
  | SysSetgroups l =>
      if (euid w =? 0) && forallb demo_id l && (length l <=? 16)%nat
      then (with_groups l w, inr tt) else (w, inl EPERM)
  | _ => (w, inl 38)
  end.

#[local] Instance CredsHost : Host Creds := {| host_run := cred_run; makedev a b := 0 |}.

#[local] Instance CredsCredHost : CredHost Creds.
Proof.
  refine {| creds := fun w : Creds => w; valid_uid := demo_id; valid_gid := demo_id; max_groups := 16 |};
    simpl; try done.
  - intros w u _ Hu. assert (((euid w =? 0) && demo_id u || bool_decide (u ∈ [ruid w; euid w; suid w])) = true)
      as ->; [|eauto]. destruct Hu as [[-> ->]|Hu]; [done|]. by rewrite bool_decide_true, orb_true_r.
  - intros w g _ Hg. assert (((euid w =? 0) && demo_id g || bool_decide (g ∈ [rgid w; egid w; sgid w])) = true)
      as ->; [|eauto]. destruct Hg as [[-> ->]|Hg]; [done|]. by rewrite bool_decide_true, orb_true_r.
  - intros w l -> Hl Hlen. assert (forallb demo_id l = true) as ->.
    { apply forallb_forall. intros g Hg. rewrite Forall_forall in Hl. by apply Hl, list_elem_of_In. }
    rewrite (proj2 (Nat.leb_le _ _)) by done. eauto.
Defined.

(** A request of user 1000 and group 100 with a group list, and one of root with a group
    list. *)
Lemma credentials_restored_witness :
  let w := {| host := {| ruid := 0; euid := 0; suid := 0; rgid := 0; egid := 0; sgid := 0; groups := [] |};
              history := [] |} in
  let c uid gid := supplementary_gid (credentials_new uid gid) true [7] in
  (exists w1 g w2, credentials_set HostMacos (c 1000 100) w = (w1, Ok g) /\
     drop_option credentials_drop g w1 = (w2, Ok tt) /\
     euid (host w1) = 1000 /\ egid (host w1) = 100 /\ groups (host w1) = [7] /\ host w2 = host w) /\
  (exists w1 g w2, credentials_set HostMacos (c 0 0) w = (w1, Ok g) /\
     drop_option credentials_drop g w1 = (w2, Ok tt) /\ groups (host w2) = [7]).
Proof.
  intros w c.
  assert (Hv : forall uid gid, demo_id uid = true -> demo_id gid = true -> valid_request (W := Creds) (c uid gid)).
  { intros uid gid Hu Hg. unfold demo_id in *. split_and!; simpl; try done; try lia.
    by repeat constructor. }
  split.
  - destruct (credentials_restored HostMacos (c 1000 100) w) as (w1 & g & w2 & Hs & Hc & Hd & Hr & _);
      [done|done|by apply Hv|].
    exists w1, g, w2. do 2 (split; [done|]). change (creds (host w1)) with (host w1) in Hc, Hr.
    rewrite Hc in Hr |- *. do 3 (split; [done|]). apply Hr. left. unfold same_ids. cbn. lia.
  - destruct (credentials_restored HostMacos (c 0 0) w) as (w1 & g & w2 & Hs & Hc & Hd & _ & Hr);
      [done|done|by apply Hv|].
    exists w1, g, w2. do 2 (split; [done|]). change (creds (host w1)) with (host w1) in Hc, Hr.
    rewrite Hc in Hr. by apply Hr.
Defined.
