(* ===== verification/ReadDir.v ===== *)
(** * Reading directories (src/read_dir.rs)

    A [ReadDir] holds a buffer of the kernel's directory records and yields their
    entries one by one.  On Linux it is filled by one call of getdents64(2) at the
    position asked for; file systems whose positions do not fit a signed offset are
    walked from the start instead.  On macOS the whole directory is read and the
    entries seen before are skipped. *)

From S2P Require Import Prelude OpenFlags Libc FileHandle FuseTypes FuseWire Descriptor FileSystem.
From S2P Require Import Host.

(** [namelen <= back.len()] and the like: checked only by builds with debug
    assertions. *)
Definition debug_assert {E} (checks b : bool) : res E unit :=
  if checks && negb b then Panic else Ok tt.

(** [strip_padding]: the bytes before the first NUL. *)
Fixpoint strip_padding {E} (b : bytes) : res E bytes :=
  match b with
  | [] => Panic
  | c :: b' => if c =? 0 then Ok [] else l ← strip_padding b'; Ok (c :: l)
  end.

(** ** Linux *)

Record LinuxDirent64 := { d_ino : Z; d_off : Z; d_reclen : Z; d_ty : Z }.

#[export] Instance linux_dirent64_bytes : ByteValued LinuxDirent64 := {|
  layout := [U 8; I 8; U 2; U 1];
  to_fields x := [ d_ino x; d_off x; d_reclen x; d_ty x ];
  of_fields l := match l with
    | [f_ino; f_off; f_reclen; f_ty] =>
        Some {| d_ino := f_ino; d_off := f_off; d_reclen := f_reclen; d_ty := f_ty |}
    | _ => None end;
|}.
#[export] Instance linux_dirent64_laws : ByteValuedLaws LinuxDirent64.
Proof. byte_valued_laws. Qed.

Record LinuxReadDir := { rd_buf : bytes; rd_current : nat; rd_end : nat }.

Definition linux_remaining (rd : LinuxReadDir) : nat := rd_end rd - rd_current rd.

(** [&buf[a..b]]. *)
Definition subslice {E} (buf : bytes) (a b : nat) : res E bytes :=
  if decide (a <= b <= length buf)%nat then Ok (take (b - a) (drop a buf)) else Panic.

Section Linux.
Context (checks : bool).

(** The record at the start of [rem], with its length. *)
Definition read_record {E} (rem : bytes) : res E (DirEntry * Z) :=
  debug_assert checks (size_of LinuxDirent64 <=? length rem)%nat;;
  front ← subslice rem 0 (size_of LinuxDirent64);
  back ← subslice rem (size_of LinuxDirent64) (length rem);
  dirent64 ← unwrap (from_slice (A := LinuxDirent64) front);
  namelen ← plain_sub checks usize_max (d_reclen dirent64) (Z.of_nat (size_of LinuxDirent64));
  debug_assert checks (namelen <=? blen back);;
  name ← (if namelen <=? blen back then subslice back 0 (Z.to_nat namelen) else Panic);
  name ← strip_padding name;
  debug_assert checks (d_reclen dirent64 <=? blen rem);;
  Ok ({| de_ino := d_ino dirent64; de_offset := d_off dirent64 mod 2 ^ 64;
         de_type := d_ty dirent64; de_name := name |}, d_reclen dirent64).

Definition linux_next {E} (rd : LinuxReadDir) : LinuxReadDir * res E (option DirEntry) :=
  match subslice (rd_buf rd) (rd_current rd) (rd_end rd) with
  | Ok [] => (rd, Ok None)
  | Ok rem =>
      match read_record rem with
      | Ok (entry, reclen) =>
          ({| rd_buf := rd_buf rd; rd_current := rd_current rd + Z.to_nat reclen;
              rd_end := rd_end rd |}, Ok (Some entry))
      | Err e => (rd, Err e)
      | Panic => (rd, Panic)
      end
  | Err e => (rd, Err e)
  | Panic => (rd, Panic)
  end.

(** [move_past]: the entries up to the one with the offset are passed over.  Every
    round but the last takes an entry off the buffer. *)
Fixpoint move_past (fuel : nat) (rd : LinuxReadDir) (target_offset : Z)
  : LinuxReadDir * io bool :=
  match fuel with
  | O => (rd, Ok false)
  | S f =>
      match linux_next rd with
      | (rd', Ok (Some entry)) =>
          if de_offset entry =? target_offset then (rd', Ok true)
          else move_past f rd' target_offset
      | (rd', Ok None) => (rd', Ok false)
      | (rd', Err e) => (rd', Err e)
      | (rd', Panic) => (rd', Panic)
      end
  end.

Context {W : Type} `{Host W}.
Notation IO := (eff (world W)).

Definition linux_new_no_seek (dir : Z) (buf : bytes) : IO LinuxReadDir :=
  data ← sys (SysGetdents dir (blen buf));
  mret {| rd_buf := fill buf data; rd_current := 0; rd_end := length data |}.

(** [new_walk_to]'s loop.  It ends when the kernel has no more entries; [fuel]
    bounds the number of batches. *)
Fixpoint walk_loop (fuel : nat) (dir target_offset : Z) (buf : bytes) : IO (option LinuxReadDir) :=
  match fuel with
  | O => mret None
  | S f =>
      rd ← linux_new_no_seek dir buf;
      if (linux_remaining rd =? 0)%nat then mret (Some rd)
      else
        let '(rd, found) := move_past (S (rd_end rd)) rd target_offset in
        found ← lift found;
        if found : bool then
          if (0 <? linux_remaining rd)%nat then mret (Some rd)
          else rd ← linux_new_no_seek dir (rd_buf rd); mret (Some rd)
        else walk_loop f dir target_offset (rd_buf rd)
  end.

Definition new_walk_to (fuel : nat) (dir target_offset : Z) (buf : bytes)
  : IO (option LinuxReadDir) :=
  sys (SysLseek dir 0 SEEK_SET);;
  walk_loop fuel dir target_offset buf.

Definition linux_readdir_new (fuel : nat) (dir offset : Z) (buf : bytes)
  : IO (option LinuxReadDir) :=
  r ← attempt (sys (SysLseek dir (as_i64 offset) SEEK_SET));
  match r with
  | Ok _ => rd ← linux_new_no_seek dir buf; mret (Some rd)
  | Err err =>
      if negb (bool_decide (raw_os_error err = Some EINVAL)) || (offset <=? i64_max)
      then throw err
      else new_walk_to fuel dir offset buf
  | Panic => lift Panic
  end.
End Linux.

(** ** macOS *)

Definition MACOS_DIRENT_NAME_OFFSET : nat := 21.

Record MacReadDir := {
  dir_buf : bytes; mrd_current : nat; mrd_end : nat; skip_remaining : nat; entry_index : Z;
}.

Section Macos.
(** A record's fixed part at the start of [rem], and its name. *)
Definition mac_name {E} (rem : bytes) (d_namlen : nat) : res E (option bytes) :=
  let name_end := (MACOS_DIRENT_NAME_OFFSET + d_namlen)%nat in
  if decide (length rem < name_end)%nat then Ok None
  else
    let name := take d_namlen (drop MACOS_DIRENT_NAME_OFFSET rem) in
    match rem !! name_end with
    | Some 0 => Ok (Some name)
    | _ => l ← strip_padding name; Ok (Some l)
    end.

(** [next]'s loop: a record of no length or beyond the buffer ends the listing,
    every other round advances. *)
Fixpoint mac_next {E} (checks : bool) (fuel : nat) (rd : MacReadDir)
  : MacReadDir * res E (option DirEntry) :=
  match fuel with
  | O => (rd, Ok None)
  | S f =>
      match subslice (dir_buf rd) (mrd_current rd) (mrd_end rd) with
      | Ok rem =>
          if decide (length rem < MACOS_DIRENT_NAME_OFFSET)%nat then (rd, Ok None)
          else
            let ino := of_le (take 8 rem) in
            let reclen := of_le (take 2 (drop 16 rem)) in
            let namlen := of_le (take 2 (drop 18 rem)) in
            let type := of_le (take 1 (drop 20 rem)) in
            if (reclen =? 0) || (blen rem <? reclen) then (rd, Ok None)
            else
              match plain_add checks u64_max (entry_index rd) 1 with
              | Ok index =>
                  let rd' := {| dir_buf := dir_buf rd;
                    mrd_current := (mrd_current rd + Z.to_nat reclen)%nat; mrd_end := mrd_end rd;
                    skip_remaining := pred (skip_remaining rd); entry_index := index |} in
                  if (0 <? skip_remaining rd)%nat then mac_next checks f rd'
                  else
                    match mac_name rem (Z.to_nat namlen) with
                    | Ok None => (rd', Ok None)
                    | Ok (Some name) =>
                        (rd', Ok (Some {| de_ino := ino; de_offset := index; de_type := type;
                                          de_name := name |}))
                    | Err e => (rd', Err e)
                    | Panic => (rd', Panic)
                    end
              | Err e => (rd, Err e)
              | Panic => (rd, Panic)
              end
      | Err e => (rd, Err e)
      | Panic => (rd, Panic)
      end
  end.

Context {W : Type} `{Host W}.
Notation IO := (eff (world W)).

(** The chunks of 32 KiB until the kernel reports the end. *)
Fixpoint read_chunks (fuel : nat) (dir : Z) (acc : bytes) : IO (option bytes) :=
  match fuel with
  | O => mret None
  | S f =>
      chunk ← sys (SysGetdirentries dir 32768);
      match chunk with
      | [] => mret (Some acc)
      | _ => read_chunks f dir (acc ++ chunk)
      end
  end.

Definition mac_new_no_seek (fuel : nat) (dir : Z) : IO (option MacReadDir) :=
  b ← read_chunks fuel dir [];
  mret (b ← b; Some {| dir_buf := b; mrd_current := 0; mrd_end := length b; skip_remaining := 0;
                       entry_index := 0 |}).

Definition mac_readdir_new (fuel : nat) (dir offset : Z) : IO (option MacReadDir) :=
  sys (SysLseek dir 0 SEEK_SET);;
  rd ← mac_new_no_seek fuel dir;
  mret (rd ← rd; Some {| dir_buf := dir_buf rd; mrd_current := mrd_current rd;
                         mrd_end := mrd_end rd; skip_remaining := Z.to_nat offset;
                         entry_index := entry_index rd |}).
End Macos.

(** ** Either host *)

Inductive ReadDir := ReadLinux (rd : LinuxReadDir) | ReadMacos (rd : MacReadDir).

(** [ReadDir::default()]. *)
Definition readdir_default (os : HostOs) : ReadDir :=
  match os with
  | HostLinux _ => ReadLinux {| rd_buf := []; rd_current := 0; rd_end := 0 |}
  | HostMacos => ReadMacos {| dir_buf := []; mrd_current := 0; mrd_end := 0; skip_remaining := 0;
                              entry_index := 0 |}
  end.

Definition readdir_next {E} (checks : bool) (rd : ReadDir) : ReadDir * res E (option DirEntry) :=
  match rd with
  | ReadLinux rd => let '(rd, r) := linux_next checks rd in (ReadLinux rd, r)
  | ReadMacos rd => let '(rd, r) := mac_next checks (S (mrd_end rd)) rd in (ReadMacos rd, r)
  end.

Section New.
Context {W : Type} `{Host W}.

(** [None] only when [fuel] is not enough for the number of batches. *)
Definition readdir_new (checks : bool) (os : HostOs) (fuel : nat) (dir offset size : Z)
  : eff (world W) (option ReadDir) :=
  match os with
  | HostLinux _ =>
      rd ← linux_readdir_new checks fuel dir offset (replicate (Z.to_nat size) 0);
      mret (ReadLinux <$> rd)
  | HostMacos => rd ← mac_readdir_new fuel dir offset; mret (ReadMacos <$> rd)
  end.
End New.

(** ** What the kernel stores

    An entry of a directory and its record.  The padding after the name is not
    specified. *)

Record kentry := { k_ino : Z; k_off : Z; k_type : Z; k_name : bytes; k_pad : bytes }.

(** The entry as the daemon presents it. *)
Definition entry_of (k : kentry) : DirEntry :=
  {| de_ino := k_ino k; de_offset := k_off k mod 2 ^ 64; de_type := k_type k;
     de_name := k_name k |}.

Definition tail_of (k : kentry) : bytes := k_name k ++ 0 :: k_pad k.

Definition dirent_of (k : kentry) : LinuxDirent64 :=
  {| d_ino := k_ino k; d_off := k_off k; d_reclen := Z.of_nat (19 + length (tail_of k));
     d_ty := k_type k |}.

Definition record_of (k : kentry) : bytes := as_slice (dirent_of k) ++ tail_of k.

Definition records (ks : list kentry) : bytes := concat (record_of <$> ks).

(** Names have no NUL and lengths fit their fields. *)
Definition kentry_ok (k : kentry) : Prop := in_range (dirent_of k) /\ 0 ∉ k_name k.

(** The reader has exactly the records of [ks] left. *)
Definition holds (rd : LinuxReadDir) (ks : list kentry) : Prop :=
  (rd_current rd <= rd_end rd <= length (rd_buf rd))%nat /\
  take (rd_end rd - rd_current rd) (drop (rd_current rd) (rd_buf rd)) = records ks.

Lemma strip_padding_app {E} name pad : 0 ∉ name -> strip_padding (E := E) (name ++ 0 :: pad) = Ok name.
Proof.
  induction name as [|c name IH]; intros Hn; [done|]. apply not_elem_of_cons in Hn as [Hc Hn].
  cbn. rewrite IH by done. by destruct (Z.eqb_spec c 0).
Qed.

Lemma subslice_ok {E} buf a b :
  (a <= b <= length buf)%nat -> subslice (E := E) buf a b = Ok (take (b - a) (drop a buf)).
Proof. intros. unfold subslice. by rewrite decide_True. Qed.

Lemma record_length k : length (record_of k) = (19 + length (tail_of k))%nat.
Proof. unfold record_of. by rewrite length_app, as_slice_length. Qed.

Lemma holds_nil checks E rd : holds rd [] -> linux_next (E := E) checks rd = (rd, Ok None).
Proof.
  intros [Hb Hv]. unfold linux_next. rewrite subslice_ok by done. by rewrite Hv.
Qed.

Lemma holds_length rd ks : holds rd ks -> linux_remaining rd = length (records ks).
Proof.
  intros [Hb Hv]. rewrite <- Hv, length_take, length_drop. unfold linux_remaining. lia.
Qed.

Lemma debug_assert_true {E} checks (b : bool) : b = true -> debug_assert (E := E) checks b = Ok tt.
Proof. intros ->. unfold debug_assert. by rewrite andb_false_r. Qed.

Definition advance_reader (rd : LinuxReadDir) (n : nat) : LinuxReadDir :=
  {| rd_buf := rd_buf rd; rd_current := rd_current rd + n; rd_end := rd_end rd |}.

(** A record is read back, whatever follows it. *)
Lemma read_record_ok {E} checks k rest :
  kentry_ok k ->
  read_record (E := E) checks (record_of k ++ rest) = Ok (entry_of k, Z.of_nat (length (record_of k))).
Proof.
  intros [Hr Hn]. unfold record_of at 1. rewrite <- app_assoc. set (back := tail_of k ++ rest).
  pose proof (as_slice_length (dirent_of k)) as Hl.
  unfold read_record. change (size_of LinuxDirent64) with 19%nat in *.
  assert (length (as_slice (dirent_of k) ++ back) = (19 + length back)%nat) as Hll
    by (rewrite length_app; lia).
  assert (length (tail_of k) <= length back)%nat as Hback
    by (unfold back; rewrite length_app; lia).
  rewrite debug_assert_true by (apply Nat.leb_le; lia). cbn [mbind res_bind].
  rewrite !subslice_ok by lia. rewrite Hll, drop_0, Nat.sub_0_r. cbn [mbind res_bind].
  rewrite (take_app_length' _ back 19), (drop_app_length' _ back 19), take_ge by lia.
  rewrite from_slice_as_slice by done. cbn [unwrap d_reclen dirent_of mbind res_bind].
  rewrite plain_sub_small by lia.
  replace (Z.of_nat (19 + length (tail_of k)) - Z.of_nat 19) with (Z.of_nat (length (tail_of k)))
    by lia.
  assert ((Z.of_nat (length (tail_of k)) <=? blen back) = true) as Hlb
    by (apply Z.leb_le; unfold blen; lia).
  cbn [mbind res_bind]. rewrite Hlb, (debug_assert_true _ true) by done. cbn [mbind res_bind].
  rewrite subslice_ok by lia. cbn [mbind res_bind].
  assert (take (length (tail_of k)) back = tail_of k) as Htake by apply take_app_length.
  rewrite drop_0, Nat.sub_0_r, Nat2Z.id, Htake.
  rewrite (strip_padding_app (k_name k) (k_pad k)) by done. cbn [mbind res_bind].
  rewrite debug_assert_true by (apply Z.leb_le; unfold blen; lia).
  by rewrite record_length.
Qed.

Lemma records_cons k ks : records (k :: ks) = record_of k ++ records ks.
Proof. done. Qed.

Lemma records_app ks ks' : records (ks ++ ks') = records ks ++ records ks'.
Proof. unfold records. by rewrite fmap_app, concat_app. Qed.

Lemma records_pos k ks : (0 < length (records (k :: ks)))%nat.
Proof. rewrite records_cons, length_app, record_length. lia. Qed.

Lemma holds_cons checks E rd k ks :
  kentry_ok k -> holds rd (k :: ks) ->
  let rd' := advance_reader rd (length (record_of k)) in
  linux_next (E := E) checks rd = (rd', Ok (Some (entry_of k))) /\ holds rd' ks.
Proof.
  intros Hk Hh rd'. pose proof (holds_length _ _ Hh) as Hlen. destruct Hh as [Hb Hv].
  pose proof (records_pos k ks) as Hp. rewrite records_cons, length_app in Hlen.
  unfold linux_remaining in Hlen. split.
  - unfold linux_next. rewrite subslice_ok by done. rewrite Hv.
    rewrite records_cons, read_record_ok, Nat2Z.id by done.
    destruct (record_of k ++ records ks) eqn:Happ; [|done].
    rewrite records_cons, Happ in Hp. cbn in Hp. lia.
  - unfold rd', advance_reader. split; cbn [rd_current rd_end rd_buf]; [lia|].
    rewrite <- drop_drop, Nat.sub_add_distr, <- skipn_firstn_comm, Hv.
    rewrite records_cons. by apply drop_app_length.
Qed.

(** ** Listing a Linux directory *)

(** All that a reader yields; [fuel] bounds the number of entries. *)
Fixpoint listing (checks : bool) (fuel : nat) (rd : LinuxReadDir) : res Empty_set (list DirEntry) :=
  match fuel with
  | O => Ok []
  | S f =>
      match linux_next checks rd with
      | (rd', Ok (Some e)) => l ← listing checks f rd'; Ok (e :: l)
      | (_, Ok None) => Ok []
      | (_, Err e) => Err e
      | (_, Panic) => Panic
      end
  end.

(** a buffer of directory records as the kernel stores them is listed completely
    and in order, with the names stripped of their padding and the positions
    reinterpreted as unsigned, and no read of it panics. *)
Theorem linux_listing_complete checks rd ks :
  holds rd ks -> Forall kentry_ok ks ->
  listing checks (S (length ks)) rd = Ok (entry_of <$> ks).
Proof.
  intros Hh Hk. revert rd Hh. induction Hk as [|k ks Hk Hks IH]; intros rd Hh.
  - cbn [listing]. by rewrite holds_nil.
  - destruct (holds_cons checks Empty_set rd k ks) as [Hn Hh']; [done..|].
    cbn [listing length]. rewrite Hn. cbn [listing] in IH. by rewrite IH.
Qed.

(** Resuming after the entry with a position: what is to be listed next.  Position
    zero is the start of the directory. *)
Fixpoint past (ks : list kentry) (offset : Z) : option (list kentry) :=
  match ks with
  | [] => None
  | k :: ks' => if k_off k mod 2 ^ 64 =? offset then Some ks' else past ks' offset
  end.

Definition resume (ks : list kentry) (offset : Z) : option (list kentry) :=
  if offset =? 0 then Some ks else past ks offset.

Lemma past_app ks ks' o :
  past (ks ++ ks') o = match past ks o with Some r => Some (r ++ ks') | None => past ks' o end.
Proof. induction ks as [|k ks IH]; [done|]. cbn. by destruct (_ =? _). Qed.

Lemma past_sound ks o r : past ks o = Some r -> exists l, ks = l ++ r.
Proof.
  induction ks as [|k ks IH]; [done|]. cbn. destruct (_ =? _); intros Hp; simplify_eq.
  - by exists [k].
  - destruct (IH Hp) as [l ->]. by exists (k :: l).
Qed.

Lemma move_past_spec checks fuel rd ks o :
  holds rd ks -> Forall kentry_ok ks -> (length ks < fuel)%nat ->
  exists rd', rd_buf rd' = rd_buf rd /\
    move_past checks fuel rd o = (rd', Ok (bool_decide (is_Some (past ks o)))) /\
    (forall r, past ks o = Some r -> holds rd' r).
Proof.
  intros Hh Hk. revert fuel rd Hh. induction Hk as [|k ks Hk Hks IH]; intros [|f] rd Hh Hf; try (cbn in Hf; lia).
  - exists rd. cbn. by rewrite holds_nil.
  - destruct (holds_cons checks io_error rd k ks) as [Hn Hh']; [done..|].
    cbn [move_past past]. rewrite Hn. cbn [de_offset entry_of].
    destruct (_ =? _).
    + eexists. split; [|split; [by rewrite bool_decide_eq_true_2|]]; [done|].
      intros r [= <-]. done.
    + destruct (IH f _ Hh') as (rd' & Hb & Hm & Hr); [cbn in Hf; lia|]. by exists rd'.
Qed.

Lemma records_length_ge ks : (length ks <= length (records ks))%nat.
Proof.
  induction ks as [|k ks IH]; [done|]. rewrite records_cons, length_app, record_length.
  cbn [length]. lia.
Qed.

(** What getdents64(2) and lseek(2) promise for a directory with the entries [all]
    and buffers of [len] bytes.  [at_pos w ks]: the stream is positioned before
    [ks].  A buffer is filled with the records that follow, at least one unless
    there are none.  A position is sought, or refused with [EINVAL] if it is
    negative as a signed offset. *)
Record DirStream {W} `{Host W} (dir : Z) (len : nat) (all : list kentry)
    (at_pos : W -> list kentry -> Prop) : Prop := {
  stream_entries : Forall kentry_ok all;
  stream_part w ks : at_pos w ks -> exists l, all = l ++ ks;
  stream_rewind w ks : at_pos w ks ->
    exists w' p, host_run (SysLseek dir 0 SEEK_SET) w = (w', inr p) /\ at_pos w' all;
  stream_seek w ks offset r : at_pos w ks -> resume all offset = Some r ->
    exists w', (exists p, host_run (SysLseek dir (as_i64 offset) SEEK_SET) w = (w', inr p) /\
                     at_pos w' r) \/
          (host_run (SysLseek dir (as_i64 offset) SEEK_SET) w = (w', inl EINVAL) /\
           i64_max < offset /\ at_pos w' ks);
  stream_read w ks : at_pos w ks ->
    exists w' ks1 ks2, host_run (SysGetdents dir (Z.of_nat len)) w = (w', inr (records ks1)) /\
      ks = ks1 ++ ks2 /\ at_pos w' ks2 /\ (length (records ks1) <= len)%nat /\
      (ks <> [] -> ks1 <> []);
}.

Section Stream.
Context {W : Type} `{Host W} (dir : Z) (len : nat) (all : list kentry)
  (at_pos : W -> list kentry -> Prop) (stream : DirStream dir len all at_pos) (checks : bool).

(** A batch and the entries that follow it make up [ks], and the batch is not empty
    unless [ks] is. *)
Definition batch_of (w : world W) (rd : LinuxReadDir) (ks : list kentry) : Prop :=
  exists ks1 ks2, holds rd ks1 /\ at_pos (host w) ks2 /\ ks = ks1 ++ ks2 /\ (ks <> [] -> ks1 <> []).

Lemma stream_ok w ks : at_pos w ks -> Forall kentry_ok ks.
Proof.
  intros Hp. destruct (stream_part _ _ _ _ stream _ _ Hp) as [l Hl].
  pose proof (stream_entries _ _ _ _ stream) as Ha. rewrite Hl in Ha. by apply Forall_app in Ha as [_ ?].
Qed.

Lemma new_no_seek_batch w ks buf :
  at_pos (host w) ks -> length buf = len ->
  exists w' rd, linux_new_no_seek dir buf w = (w', Ok rd) /\ batch_of w' rd ks /\
    length (rd_buf rd) = len.
Proof.
  intros Hp Hb. destruct (stream_read _ _ _ _ stream _ _ Hp) as (h & ks1 & ks2 & Hr & -> & Hp2 & Hl & Hne).
  rewrite <- Hb in Hr, Hl. unfold linux_new_no_seek. fold (blen buf) in Hr.
  erewrite eff_bind_ok by (by apply sys_ok). eexists _, _. split; [done|].
  cbn [rd_buf]. unfold fill. split; [|rewrite length_app, length_drop; lia].
  exists ks1, ks2. split; [|done]. split; cbn [rd_buf rd_current rd_end].
  - rewrite length_app. lia.
  - by rewrite drop_0, Nat.sub_0_r, take_app_length.
Qed.

Lemma walk_loop_resumes fuel w ks o r buf :
  at_pos (host w) ks -> past ks o = Some r -> length buf = len -> (length ks <= fuel)%nat ->
  exists w' rd, walk_loop checks fuel dir o buf w = (w', Ok (Some rd)) /\ batch_of w' rd r.
Proof.
  revert w ks buf. induction fuel as [|f IH]; intros w ks buf Hp Hpast Hb Hf.
  { destruct ks; [done|cbn in Hf; lia]. }
  destruct (new_no_seek_batch w ks buf) as (w1 & rd & Hn & (ks1 & ks2 & Hh & Hp2 & -> & Hne) & Hl);
    [done..|].
  pose proof (stream_ok _ _ Hp) as [Hk1 _]%Forall_app. pose proof (holds_length _ _ Hh) as Hrem.
  pose proof (records_length_ge ks1) as Hge.
  assert (ks1 <> []) as Hks1 by (apply Hne; intros E; by rewrite E in Hpast).
  assert (1 <= length ks1)%nat as Hpos by (destruct ks1; cbn; [done|lia]).
  cbn [walk_loop]. rewrite (eff_bind_ok _ _ _ _ _ Hn).
  destruct (Nat.eqb_spec (linux_remaining rd) 0); [lia|].
  destruct (move_past_spec checks (S (rd_end rd)) rd ks1 o) as (rd' & Hbuf & Hm & Hr);
    [done|done|unfold linux_remaining in *; lia|].
  rewrite Hm. rewrite past_app in Hpast. destruct (past ks1 o) as [r1|] eqn:Ep.
  - injection Hpast as <-. rewrite bool_decide_eq_true_2 by done. specialize (Hr _ eq_refl).
    rewrite (eff_bind_ok (lift (Ok true)) _ w1 w1 true) by done.
    pose proof (holds_length _ _ Hr) as Hrem'. destruct (Nat.ltb_spec 0 (linux_remaining rd')).
    + eexists _, _. split; [done|]. exists r1, ks2. split; [done|]. split; [done|]. split; [done|].
      intros _ ->. cbn in Hrem'. lia.
    + destruct r1 as [|k r1]; [|pose proof (records_pos k r1); lia].
      destruct (new_no_seek_batch w1 ks2 (rd_buf rd')) as (w2 & rd2 & Hn2 & Hb2 & _);
        [done|by rewrite Hbuf|].
      rewrite (eff_bind_ok _ _ _ _ _ Hn2). by eexists _, _.
  - rewrite bool_decide_eq_false_2 by (intros [? [=]]).
    rewrite (eff_bind_ok (lift (Ok false)) _ w1 w1 false) by done.
    apply (IH _ ks2); [done|done|by rewrite Hbuf|rewrite length_app in Hf; lia].
Qed.

(** C18: asked for the entries that follow a position, [ReadDir] provides them: the
    first of them (at least one if there are any) in its buffer and the others at
    the directory's new position.  This includes the positions lseek(2) refuses
    because they do not fit a signed offset (cookies of network file systems with
    the high bit set), which are found by walking the directory. *)
Theorem readdir_resumes w ks offset r :
  at_pos (host w) ks -> resume all offset = Some r ->
  exists w' rd, linux_readdir_new checks (length all) dir offset (replicate len 0) w
                  = (w', Ok (Some rd)) /\ batch_of w' rd r.
Proof.
  intros Hp Hr. unfold linux_readdir_new.
  assert (length (replicate len 0) = len) as Hlen by apply length_replicate.
  destruct (stream_seek _ _ _ _ stream _ _ _ _ Hp Hr) as (h & [(p & Hs & Hp')|(Hs & Ho & Hp')]).
  - unfold attempt at 1, sys at 1, mbind at 1, eff_bind at 1. rewrite Hs.
    destruct (new_no_seek_batch {| host := h; history := history w ++ [Event (SysLseek dir (as_i64 offset) SEEK_SET) (inr p)] |} r (replicate len 0))
      as (w2 & rd & Hn & Hb & _); [done..|].
    rewrite (eff_bind_ok _ _ _ _ _ Hn). by eexists _, _.
  - unfold attempt at 1, sys at 1, mbind at 1, eff_bind at 1. rewrite Hs.
    rewrite bool_decide_eq_true_2 by done. destruct (Z.leb_spec offset i64_max); [lia|]. cbn [negb orb].
    unfold resume in Hr. destruct (Z.eqb_spec offset 0); [unfold i64_max in *; lia|].
    unfold new_walk_to.
    destruct (stream_rewind _ _ _ _ stream h _ Hp') as (h2 & p & Hs2 & Hp2).
    erewrite eff_bind_ok by (by apply sys_ok). by eapply walk_loop_resumes.
Qed.
End Stream.

(** ** Listing a macOS directory *)

(** The record of an entry.  The entry's [k_off] is the kernel's position, which
    the daemon does not use. *)
Definition mac_record (k : kentry) : bytes :=
  le_bytes 8 (k_ino k) ++ le_bytes 8 (k_off k mod 2 ^ 64) ++
  le_bytes 2 (Z.of_nat (21 + length (tail_of k))) ++ le_bytes 2 (Z.of_nat (length (k_name k))) ++
  le_bytes 1 (k_type k) ++ tail_of k.

Definition mac_records (ks : list kentry) : bytes := concat (mac_record <$> ks).

Definition mac_kentry_ok (k : kentry) : Prop :=
  0 <= k_ino k < 2 ^ 64 /\ 0 <= k_type k < 2 ^ 8 /\ 21 + blen (tail_of k) < 2 ^ 16.

(** The [i]-th entry of the directory. *)
Definition mac_entry (i : nat) (k : kentry) : DirEntry :=
  {| de_ino := k_ino k; de_offset := Z.of_nat i; de_type := k_type k; de_name := k_name k |}.

(** The entries numbered from [S n]. *)
Definition numbered (n : nat) (ks : list kentry) : list DirEntry :=
  imap (fun i k => mac_entry (S (n + i)) k) ks.

(** [n] entries have been passed, the records of [ks] are left. *)
Definition mac_holds (rd : MacReadDir) (n : nat) (ks : list kentry) : Prop :=
  (mrd_current rd <= mrd_end rd <= length (dir_buf rd))%nat /\
  take (mrd_end rd - mrd_current rd) (drop (mrd_current rd) (dir_buf rd)) = mac_records ks /\
  entry_index rd = Z.of_nat n /\ Z.of_nat (n + length ks) <= u64_max.

Lemma of_le_field (n : nat) z l :
  0 <= z < 256 ^ Z.of_nat n -> of_le (take n (le_bytes n z ++ l)) = z.
Proof.
  intros Hz. rewrite take_app_length' by (symmetry; apply le_bytes_length). by apply of_le_le_bytes.
Qed.

Lemma drop_field (n m : nat) z l : drop (n + m) (le_bytes n z ++ l) = drop m l.
Proof. rewrite <- drop_drop, drop_app_length'; [done|]. symmetry. apply le_bytes_length. Qed.

(** The fields of the record at the start of a buffer. *)
Lemma mac_record_fields k rest :
  mac_kentry_ok k -> let rem := mac_record k ++ rest in
  of_le (take 8 rem) = k_ino k /\ of_le (take 2 (drop 16 rem)) = Z.of_nat (21 + length (tail_of k)) /\
  of_le (take 2 (drop 18 rem)) = Z.of_nat (length (k_name k)) /\
  of_le (take 1 (drop 20 rem)) = k_type k /\ drop 21 rem = tail_of k ++ rest.
Proof.
  intros (Hi & Ht & Hl) rem. unfold rem, mac_record, blen in *. rewrite <- !app_assoc.
  assert (length (k_name k) <= length (tail_of k))%nat by (unfold tail_of; rewrite length_app; lia).
  split; [by apply of_le_field|].
  rewrite (drop_field 8 8), (drop_field 8 0), drop_0.
  split; [apply of_le_field; cbn -[tail_of Z.of_nat Nat.add]; lia|].
  rewrite (drop_field 8 10), (drop_field 8 2), (drop_field 2 0), drop_0.
  split; [apply of_le_field; cbn -[Z.of_nat]; lia|].
  rewrite (drop_field 8 12), (drop_field 8 4), (drop_field 2 2), (drop_field 2 0), drop_0.
  split; [by apply of_le_field|].
  rewrite (drop_field 8 13), (drop_field 8 5), (drop_field 2 3), (drop_field 2 1).
  by rewrite (drop_field 1 0), drop_0.
Qed.

Lemma mac_record_length k : length (mac_record k) = (21 + length (tail_of k))%nat.
Proof. unfold mac_record. rewrite !length_app, !le_bytes_length. lia. Qed.

Lemma mac_name_ok {E} k rest :
  mac_kentry_ok k ->
  mac_name (E := E) (mac_record k ++ rest) (length (k_name k)) = Ok (Some (k_name k)).
Proof.
  intros Hk. destruct (mac_record_fields k rest Hk) as (_ & _ & _ & _ & Hd).
  assert (length (tail_of k) = length (k_name k) + S (length (k_pad k)))%nat as Ht
    by (unfold tail_of; by rewrite length_app).
  unfold mac_name, MACOS_DIRENT_NAME_OFFSET.
  rewrite decide_False by (rewrite length_app, mac_record_length; lia).
  rewrite <- lookup_drop, Hd. unfold tail_of. rewrite <- app_assoc.
  rewrite lookup_app_r by lia. rewrite Nat.sub_diag. cbn. by rewrite take_app_length.
Qed.

Lemma mac_holds_nil {E} checks fuel rd n :
  mac_holds rd n [] -> mac_next (E := E) checks (S fuel) rd = (rd, Ok None).
Proof.
  intros (Hb & Hv & _). cbn [mac_next]. rewrite subslice_ok by done. rewrite Hv.
  by rewrite decide_True by (cbn; unfold MACOS_DIRENT_NAME_OFFSET; lia).
Qed.

Definition mac_advance (rd : MacReadDir) (k : nat) : MacReadDir :=
  {| dir_buf := dir_buf rd; mrd_current := (mrd_current rd + k)%nat; mrd_end := mrd_end rd;
     skip_remaining := pred (skip_remaining rd); entry_index := entry_index rd + 1 |}.

(** One round of [mac_next]'s loop. *)
Lemma mac_holds_cons {E} checks fuel rd n k ks :
  mac_kentry_ok k -> mac_holds rd n (k :: ks) ->
  let rd' := mac_advance rd (length (mac_record k)) in
  mac_next (E := E) checks (S fuel) rd
    = (if (0 <? skip_remaining rd)%nat then mac_next checks fuel rd'
       else (rd', Ok (Some (mac_entry (S n) k)))) /\
  mac_holds rd' (S n) ks.
Proof.
  intros Hk (Hb & Hv & Hi & Hn) rd'.
  assert (mac_records (k :: ks) = mac_record k ++ mac_records ks) as Hc by done.
  pose proof (mac_record_length k) as Hl. rewrite Hc in Hv. cbn [length] in Hn.
  assert (length (mac_record k ++ mac_records ks) = mrd_end rd - mrd_current rd)%nat as Hlen
    by (rewrite <- Hv, length_take, length_drop; lia).
  rewrite length_app in Hlen. split.
  - destruct (mac_record_fields k (mac_records ks) Hk) as (E1 & E2 & E3 & E4 & _).
    cbn [mac_next]. rewrite subslice_ok by done. rewrite Hv.
    rewrite decide_False by (unfold MACOS_DIRENT_NAME_OFFSET; rewrite length_app; lia).
    rewrite E1, E2, E3, E4, <- Hl.
    assert ((Z.of_nat (length (mac_record k)) =? 0)
            || (blen (mac_record k ++ mac_records ks) <? Z.of_nat (length (mac_record k))) = false)
      as Hr by (apply orb_false_iff; rewrite blen_app; unfold blen; lia).
    rewrite Hr, plain_add_small by lia. rewrite !Nat2Z.id, mac_name_ok by done.
    unfold rd', mac_advance, mac_entry. by rewrite Hi, Nat2Z.inj_succ, Z.add_1_r.
  - unfold rd', mac_advance. split_and!; cbn [mrd_current mrd_end dir_buf entry_index]; [lia..| |lia|lia].
    rewrite <- drop_drop, Nat.sub_add_distr, <- skipn_firstn_comm, Hv. by apply drop_app_length.
Qed.

Fixpoint mac_listing (checks : bool) (fuel : nat) (rd : MacReadDir) : res Empty_set (list DirEntry) :=
  match fuel with
  | O => Ok []
  | S f =>
      match mac_next checks (S (mrd_end rd)) rd with
      | (rd', Ok (Some e)) => l ← mac_listing checks f rd'; Ok (e :: l)
      | (_, Ok None) => Ok []
      | (_, Err e) => Err e
      | (_, Panic) => Panic
      end
  end.

(** The entries to be skipped are skipped. *)
Lemma mac_next_skips {E} checks fuel rd n ks :
  Forall mac_kentry_ok ks -> mac_holds rd n ks -> (length ks < fuel)%nat ->
  match drop (skip_remaining rd) ks with
  | [] => exists rd', mac_next (E := E) checks fuel rd = (rd', Ok None)
  | k :: ks' =>
      exists rd', mac_next (E := E) checks fuel rd
               = (rd', Ok (Some (mac_entry (S (n + skip_remaining rd)) k))) /\
        mac_holds rd' (S (n + skip_remaining rd)) ks' /\ skip_remaining rd' = 0%nat /\
        mrd_end rd' = mrd_end rd
  end.
Proof.
  intros Hk. revert fuel rd n. induction Hk as [|k ks Hk Hks IH]; intros [|f] rd n Hh Hf;
    try (cbn in Hf; lia).
  - rewrite drop_nil. eexists. by eapply mac_holds_nil.
  - destruct (mac_holds_cons (E := E) checks f rd n k ks) as [Hn Hh']; [done..|].
    rewrite Hn. destruct (skip_remaining rd) as [|m] eqn:Es; cbn [Nat.ltb Nat.leb drop].
    + eexists. rewrite Nat.add_0_r. split; [done|]. split; [done|]. cbn. by rewrite Es.
    + specialize (IH f _ _ Hh'). cbn [mac_advance skip_remaining] in IH. rewrite Es in IH.
      cbn [pred mrd_end mac_advance] in IH. replace (n + S m)%nat with (S n + m)%nat by lia.
      apply IH. cbn in Hf; lia.
Qed.

Lemma mac_records_length_ge ks : (length ks <= length (mac_records ks))%nat.
Proof.
  induction ks as [|k ks IH]; [done|].
  change (mac_records (k :: ks)) with (mac_record k ++ mac_records ks).
  rewrite length_app, mac_record_length. cbn [length]. lia.
Qed.

Lemma mac_holds_end rd n ks : mac_holds rd n ks -> (length ks <= mrd_end rd)%nat.
Proof.
  intros (Hb & Hv & _). apply (f_equal length) in Hv. rewrite length_take in Hv.
  pose proof (mac_records_length_ge ks). lia.
Qed.

Lemma numbered_cons n k ks : mac_entry (S n) k :: numbered (S n) ks = numbered n (k :: ks).
Proof.
  unfold numbered. cbn [imap]. rewrite Nat.add_0_r. f_equal.
  apply imap_ext. intros i x _. unfold compose. f_equal. lia.
Qed.

Lemma mac_listing_spec checks fuel rd n ks :
  Forall mac_kentry_ok ks -> mac_holds rd n ks -> (length ks < fuel)%nat ->
  mac_listing checks fuel rd
    = Ok (numbered (n + skip_remaining rd) (drop (skip_remaining rd) ks)).
Proof.
  revert rd n ks. induction fuel as [|f IH]; intros rd n ks Hk Hh Hf; [lia|].
  pose proof (mac_holds_end _ _ _ Hh) as He.
  pose proof (mac_next_skips (E := Empty_set) checks (S (mrd_end rd)) rd n ks Hk Hh ltac:(lia)) as Hn.
  cbn [mac_listing]. pose proof (length_drop ks (skip_remaining rd)) as Hd.
  destruct (drop (skip_remaining rd) ks) as [|k ks'] eqn:Ed.
  { destruct Hn as [rd' ->]. done. }
  destruct Hn as (rd' & -> & Hh' & Hs' & _). cbn [length] in Hd.
  apply (Forall_drop _ (skip_remaining rd)) in Hk. rewrite Ed in Hk. inversion_clear Hk as [|? ? _ Hk'].
  rewrite (IH _ _ ks' Hk' Hh') by lia. rewrite Hs', drop_0. cbn [mbind res_bind].
  rewrite Nat.add_0_r. f_equal. by apply numbered_cons.
Qed.

(** What getdirentries(2) and lseek(2) promise on macOS for a directory with the
    entries [all]. *)
Record MacDirStream {W} `{Host W} (dir : Z) (all : list kentry)
    (at_pos : W -> list kentry -> Prop) : Prop := {
  mac_stream_entries : Forall mac_kentry_ok all;
  mac_stream_size : blen all <= u64_max;
  mac_stream_rewind w ks : at_pos w ks ->
    exists w' p, host_run (SysLseek dir 0 SEEK_SET) w = (w', inr p) /\ at_pos w' all;
  mac_stream_read w ks : at_pos w ks ->
    exists w' ks1 ks2, host_run (SysGetdirentries dir 32768) w = (w', inr (mac_records ks1)) /\
      ks = ks1 ++ ks2 /\ at_pos w' ks2 /\ (ks <> [] -> ks1 <> []);
}.

Section MacStream.
Context {W : Type} `{Host W} (dir : Z) (all : list kentry)
  (at_pos : W -> list kentry -> Prop) (stream : MacDirStream dir all at_pos) (checks : bool).

Lemma read_chunks_all fuel w ks acc :
  at_pos (host w) ks -> (length ks < fuel)%nat ->
  exists w', read_chunks fuel dir acc w = (w', Ok (Some (acc ++ mac_records ks))).
Proof.
  revert w ks acc. induction fuel as [|f IH]; intros w ks acc Hp Hf; [lia|].
  destruct (mac_stream_read _ _ _ stream _ _ Hp) as (h & ks1 & ks2 & Hr & -> & Hp2 & Hne).
  cbn [read_chunks]. erewrite eff_bind_ok by (by apply sys_ok).
  destruct ks1 as [|k ks1].
  - destruct ks2; [|by destruct (Hne ltac:(done))]. eexists. cbn. by rewrite app_nil_r.
  - destruct (mac_records (k :: ks1)) as [|b l] eqn:Em.
    { pose proof (mac_records_length_ge (k :: ks1)) as Hl. rewrite Em in Hl. cbn in Hl. lia. }
    rewrite <- Em. rewrite length_app in Hf. cbn [length] in Hf.
    destruct (IH {| host := h; history := history w ++ [Event (SysGetdirentries dir 32768) (inr (mac_records (k :: ks1)))] |}
                ks2 (acc ++ mac_records (k :: ks1))) as [w' Hw]; [done|lia|].
    exists w'. rewrite Hw. unfold mac_records. rewrite fmap_app, concat_app, app_assoc. done.
Qed.

(** on macOS a listing from position [n] consists of the directory's entries
    after the first [n], numbered from [n + 1], so that the number of the last entry
    received is the position to resume from. *)
Theorem mac_readdir_resumes w ks n :
  at_pos (host w) ks -> 0 <= n <= u64_max ->
  exists w' rd, mac_readdir_new (S (length all)) dir n w = (w', Ok (Some rd)) /\
    mac_listing checks (S (length all)) rd
      = Ok (numbered (Z.to_nat n) (drop (Z.to_nat n) all)).
Proof.
  intros Hp Hn. unfold mac_readdir_new, mac_new_no_seek.
  destruct (mac_stream_rewind _ _ _ stream _ _ Hp) as (h & p & Hs & Hp').
  erewrite eff_bind_ok by (by apply sys_ok).
  match goal with |- context [mbind _ _ ?w1] => destruct (read_chunks_all (S (length all)) w1 all [])
    as [w2 Hw2]; [done|lia|] end.
  unfold mbind, eff_bind. rewrite Hw2. eexists _, _. split; [done|].
  pose proof (mac_stream_entries _ _ _ stream). pose proof (mac_stream_size _ _ _ stream).
  rewrite (mac_listing_spec _ _ _ 0 all); [done|done| |lia].
  split_and!; cbn; [lia|lia| |done|unfold blen in *; lia].
  by rewrite drop_0, Nat.sub_0_r, firstn_all.
Qed.
End MacStream.

(** ** A directory

    Three entries, one of them with a position above [i64::MAX].  The host returns
    one record at a time. *)

Definition demo_entry (name : string) (off : Z) : kentry :=
  {| k_ino := 7; k_off := off; k_type := 8; k_name := text name; k_pad := [0; 9] |}.

Definition demo_dir : list kentry :=
  [demo_entry "a" 5; demo_entry "bc" (-3); demo_entry "d" 9].

Definition demo_run {A} (recs : list kentry -> bytes) (c : Call A) : list kentry -> list kentry * outcome_of A :=
  match c in Call A return list kentry -> list kentry * outcome_of A with
  | SysLseek _ off _ => fun pos =>
      if off <? 0 then (pos, inl EINVAL) else (default [] (resume demo_dir off), inr off)
  | SysGetdents _ _ => fun pos => (drop 1 pos, inr (recs (take 1 pos)))
  | SysGetdirentries _ _ => fun pos => (drop 1 pos, inr (recs (take 1 pos)))
  | _ => fun pos => (pos, inl EBADF)
  end.

Definition demo_host : Host (list kentry) :=
  {| host_run A := demo_run records; makedev a b := a |}.

Definition demo_mac_host : Host (list kentry) :=
  {| host_run A := demo_run mac_records; makedev a b := a |}.

Definition demo_at (pos : list kentry) (ks : list kentry) : Prop :=
  pos = ks /\ exists n, ks = drop n demo_dir.

Lemma demo_rest n : (length (records (take 1 (drop n demo_dir))) <= 64)%nat.
Proof. destruct n as [|[|[|n]]]; cbn; rewrite ?drop_nil; cbn; lia. Qed.

Lemma demo_resume offset r :
  resume demo_dir offset = Some r ->
  offset ∈ [0; 5; 2 ^ 64 - 3; 9] /\ exists n, r = drop n demo_dir.
Proof.
  unfold resume. destruct (Z.eqb_spec offset 0) as [->|]; [intros [= <-]; split; [left|by exists 0%nat]|].
  unfold demo_dir. cbn [past demo_entry k_off].
  case_match eqn:E1; [|case_match eqn:E2; [|case_match eqn:E3; [|done]]];
    intros [= <-]; zify_bool; subst offset; (split; [rewrite !elem_of_cons; vm_compute; auto 10|]).
  - by exists 1%nat.
  - by exists 2%nat.
  - by exists 3%nat.
Qed.

Lemma demo_stream : DirStream (W := list kentry) (H := demo_host) 3 64 demo_dir demo_at.
Proof.
  split.
  - repeat constructor; cbn; try lia; try (intros Hx; set_solver by lia).
  - intros w ks (-> & n & ->). exists (take n demo_dir). symmetry. apply take_drop.
  - intros w ks _. eexists _, _. split; [reflexivity|]. by split; [|exists 0%nat].
  - intros w ks offset r [-> Hks] Hr. pose proof (demo_resume _ _ Hr) as [Ho Hrn].
    cbn [host_run demo_host demo_run].
    assert (offset = 2 ^ 64 - 3 \/ as_i64 offset = offset /\ 0 <= offset) as [->|[Ha Ho']].
    { repeat (apply elem_of_cons in Ho as [->|Ho]; [vm_compute; intuition congruence|]). by apply elem_of_nil in Ho. }
    + exists ks. right. do 2 (split; [done|]). done.
    + exists r. left. exists offset. rewrite Ha. destruct (Z.ltb_spec offset 0); [lia|].
      rewrite Hr. done.
  - intros w ks (-> & n & ->). exists (drop 1 (drop n demo_dir)), (take 1 (drop n demo_dir)), (drop 1 (drop n demo_dir)).
    split; [done|]. split; [by rewrite take_drop|]. split; [split; [done|]|].
    { exists (n + 1)%nat. apply drop_drop. }
    split; [apply demo_rest|]. by destruct (drop n demo_dir).
Qed.

Lemma linux_listing_complete_witness :
  listing true 4 {| rd_buf := records demo_dir ++ [1; 2]; rd_current := 0;
                    rd_end := length (records demo_dir) |} = Ok (entry_of <$> demo_dir).
Proof.
  apply (linux_listing_complete true _ demo_dir).
  - split; [vm_compute; lia|reflexivity].
  - exact (stream_entries _ _ _ _ demo_stream).
Defined.

Lemma readdir_resumes_witness :
  exists w' rd,
    linux_readdir_new (H := demo_host) true 3 3 (2 ^ 64 - 3) (replicate 64 0)
      {| host := demo_dir; history := [] |} = (w', Ok (Some rd)) /\
    batch_of demo_at w' rd [demo_entry "d" 9].
Proof.
  apply (readdir_resumes 3 64 demo_dir demo_at demo_stream true _ demo_dir).
  - split; [done|]. by exists 0%nat.
  - reflexivity.
Defined.

Lemma mac_readdir_resumes_witness :
  exists w' rd,
    mac_readdir_new (H := demo_mac_host) 4 3 2 {| host := demo_dir; history := [] |} = (w', Ok (Some rd)) /\
    mac_listing true 4 rd
      = Ok [{| de_ino := 7; de_offset := 3; de_type := 8; de_name := text "d" |}].
Proof.
  apply (mac_readdir_resumes (H := demo_mac_host) 3 demo_dir eq) with (ks := demo_dir).
  - split; [repeat constructor; cbn; lia|done| |].
    + intros w ks ->. by eexists _, _.
    + intros w ks ->. exists (drop 1 ks), (take 1 ks), (drop 1 ks). split; [done|].
      split; [by rewrite take_drop|]. split; [done|]. by destruct ks.
  - done.
  - done.
Defined.
