(* ===== verification/Paths.v ===== *)
(** * Path and descriptor helpers (src/passthrough/util.rs)

    Seek constants and space allocation on the two hosts, opening files by path and
    again by descriptor, and the paths of open descriptors.  Paths are byte strings
    without the terminating NUL. *)

From S2P Require Import Prelude OpenFlags Libc FileHandle FuseTypes FuseWire Descriptor FileSystem.
From S2P Require Import Host.

(** ** Errors *)

Definition ebadf : io_error := Os EBADF.
Definition einval : io_error := Os EINVAL.
Definition erofs : io_error := Os EROFS.

(** [other_io_error] (src/util.rs). *)
Definition other_io_error : io_error := Custom Other.

(** ** UTF-8

    [str::from_utf8]: the characters of a byte string, if it is well formed. *)

Definition in_bounds (lo hi b : Z) : bool := (lo <=? b) && (b <=? hi).

Definition continuation (b : Z) : bool := in_bounds 0x80 0xBF b.

(** The range of the second byte, which excludes overlong forms, surrogates and
    values beyond U+10FFFF. *)
Definition second_byte (b0 b1 : Z) : bool :=
  if b0 =? 0xE0 then in_bounds 0xA0 0xBF b1
  else if b0 =? 0xED then in_bounds 0x80 0x9F b1
  else if b0 =? 0xF0 then in_bounds 0x90 0xBF b1
  else if b0 =? 0xF4 then in_bounds 0x80 0x8F b1
  else continuation b1.

Fixpoint utf8_decode (l : bytes) : option (list Z) :=
  match l with
  | [] => Some []
  | b0 :: l0 =>
      if in_bounds 0 0x7F b0 then cons b0 <$> utf8_decode l0
      else
        match l0 with
        | b1 :: l1 =>
            if in_bounds 0xC2 0xDF b0 then
              if continuation b1
              then cons ((b0 - 0xC0) * 64 + (b1 - 0x80)) <$> utf8_decode l1
              else None
            else
              match l1 with
              | b2 :: l2 =>
                  if in_bounds 0xE0 0xEF b0 then
                    if second_byte b0 b1 && continuation b2
                    then cons ((b0 - 0xE0) * 4096 + (b1 - 0x80) * 64 + (b2 - 0x80))
                           <$> utf8_decode l2
                    else None
                  else
                    match l2 with
                    | b3 :: l3 =>
                        if in_bounds 0xF0 0xF4 b0 && second_byte b0 b1 && continuation b2
                           && continuation b3
                        then cons ((b0 - 0xF0) * 262144 + (b1 - 0x80) * 4096 + (b2 - 0x80) * 64
                                   + (b3 - 0x80)) <$> utf8_decode l3
                        else None
                    | [] => None
                    end
              | [] => None
              end
        | [] => None
        end
  end.

(** The bytes of a [str]. *)
Definition utf8_char (c : Z) : bytes :=
  if c <? 0x80 then [c]
  else if c <? 0x800 then [0xC0 + c / 64; 0x80 + c mod 64]
  else if c <? 0x10000 then [0xE0 + c / 4096; 0x80 + (c / 64) mod 64; 0x80 + c mod 64]
  else [0xF0 + c / 262144; 0x80 + (c / 4096) mod 64; 0x80 + (c / 64) mod 64; 0x80 + c mod 64].

Definition utf8_encode (s : list Z) : bytes := concat (map utf8_char s).

Definition is_utf8 (b : bytes) : bool := match utf8_decode b with Some _ => true | None => false end.

(** [CString::new]: no NUL inside. *)
Definition cstring_of (b : bytes) : option bytes := if decide (0 ∈ b) then None else Some b.

(** ** Prefixes and suffixes of byte strings *)

Fixpoint strip_prefix (prefix l : bytes) : option bytes :=
  match prefix, l with
  | [], _ => Some l
  | p :: prefix', c :: l' => if p =? c then strip_prefix prefix' l' else None
  | _ :: _, [] => None
  end.

Definition strip_suffix (suffix l : bytes) : option bytes :=
  reverse <$> strip_prefix (reverse suffix) (reverse l).

(** The leading [/]s. *)
Fixpoint strip_slashes (l : bytes) : bytes :=
  match l with c :: l' => if c =? 47 then strip_slashes l' else l | [] => [] end.

(** The path of [path] below [prefix], which is compared as bytes. *)
Definition relative_path (path prefix : bytes) : io bytes :=
  rel ← ok_or (strip_prefix prefix path) other_io_error;
  Ok (strip_slashes rel).

(** ** Seek positions *)

Definition LINUX_SEEK_SET : Z := 0.
Definition LINUX_SEEK_CUR : Z := 1.
Definition LINUX_SEEK_END : Z := 2.
Definition LINUX_SEEK_DATA : Z := 3.
Definition LINUX_SEEK_HOLE : Z := 4.

Definition translate_linux_seek_whence (os : HostOs) (linux_whence : Z) : io Z :=
  match os with
  | HostLinux _ => Ok linux_whence
  | HostMacos =>
      if linux_whence =? LINUX_SEEK_SET then Ok SEEK_SET
      else if linux_whence =? LINUX_SEEK_CUR then Ok SEEK_CUR
      else if linux_whence =? LINUX_SEEK_END then Ok SEEK_END
      else if linux_whence =? LINUX_SEEK_DATA then Ok (SEEK_DATA os)
      else if linux_whence =? LINUX_SEEK_HOLE then Ok (SEEK_HOLE os)
      else Err einval
  end.

(** ** File types *)

Definition is_safe_inode (mode : Z) : bool :=
  (Z.land mode S_IFMT =? S_IFREG) || (Z.land mode S_IFMT =? S_IFDIR).

Inductive FdPathError :=
| ReadLink (err : io_error)
| TooLong
| InvalidCString (err : io_error)
| NotAFile (path : bytes)
| Deleted (path : bytes).

Definition io_of_fd_path_error (e : FdPathError) : io_error :=
  match e with
  | ReadLink err => with_context err
  | TooLong => other_io_error
  | InvalidCString err => with_context err
  | NotAFile _ => other_io_error
  | Deleted _ => other_io_error
  end.

(** The bytes before the first [/]. *)
Definition pre_slash (l : bytes) : bytes := default [] (head (split_on 47 l)).

(** A name like [pipe:[1234]]. *)
Definition not_a_file (l : bytes) : bool := bool_decide (58 ∈ pre_slash l).

Section Paths.
Context {W : Type} `{Host W} (os : HostOs).

Notation IO := (eff (world W)).

(** Only for mode 0: the space is reserved as far as the host can, and the file is
    grown to the size asked for. *)
Definition macos_emulate_fallocate (fd mode offset length : Z) : IO unit :=
  if negb (mode =? 0) then throw (Os (host_EOPNOTSUPP os))
  else
    st ← sys (SysFstat fd);
    let current_size := st_size st mod 2 ^ 64 in
    let target_size := Z.min u64_max (offset + length) in
    if target_size <=? current_size then mret tt
    else
      let bytes_past_eof := target_size - current_size in
      res ← raw (SysPreallocate fd true (as_i64 bytes_past_eof));
      match res with
      | Some _ => mret tt
      | None => ignore (sys (SysPreallocate fd false (as_i64 bytes_past_eof)))
      end;;
      sys (SysFtruncate fd (as_i64 target_size)).

(** [util::openat]: the path comes from the daemon. *)
Definition util_openat (dir_fd : Z) (path : bytes) (flags : Z) : IO Z :=
  path ← lift (ok_or (cstring_of path) (Custom InvalidData));
  sys (SysOpenat dir_fd path flags 0).

Definition openat_verbose (dir_fd : Z) (path : bytes) (flags : Z) : IO Z :=
  r ← attempt (util_openat dir_fd path flags);
  lift (map_err with_context r).

(** What [fcntl(F_GETPATH)] stores in a zeroed buffer of [PATH_MAX] bytes. *)
Definition getpath_buf (fd : Z) : IO bytes :=
  data ← sys (SysGetpath fd);
  mret (fill (replicate (Z.to_nat (PATH_MAX os)) 0) data).

(** The bytes before the first NUL, if there is one. *)
Fixpoint until_nul (b : bytes) : option bytes :=
  match b with
  | [] => None
  | c :: b' => if c =? 0 then Some [] else cons c <$> until_nul b'
  end.

Definition reopen_fd_through_proc (fd flags proc_self_fd : Z) : IO Z :=
  match os with
  | HostLinux _ =>
      util_openat proc_self_fd (show fd) (Z.ldiff flags (O_NOFOLLOW os))
  | HostMacos =>
      buf ← getpath_buf fd;
      path ← lift (ok_or (until_nul buf) other_io_error);
      sys (SysOpen path (Z.ldiff flags (O_NOFOLLOW os)))
  end.

(** The path of an open descriptor.  The inner result is the function's own; the
    outer one never fails. *)
Definition get_path_by_fd (fd proc_self_fd : Z) : IO (res FdPathError bytes) :=
  match os with
  | HostLinux _ =>
      r ← attempt (sys (SysReadlinkat proc_self_fd (show fd) (PATH_MAX os)));
      mret match r with
           | Ok target =>
               if blen target =? PATH_MAX os then Err TooLong
               else match cstring_of target with
                    | None => Err (InvalidCString other_io_error)
                    | Some path =>
                        if not_a_file path then Err (NotAFile path)
                        else match strip_suffix (text " (deleted)") path with
                             | Some p => Err (Deleted p)
                             | None => Ok path
                             end
                    end
           | Err e => Err (ReadLink e)
           | Panic => Panic
           end
  | HostMacos =>
      r ← attempt (getpath_buf fd);
      mret match r with
           | Ok buf =>
               match until_nul buf with
               | Some [] => Err (ReadLink other_io_error)
               | Some path => if not_a_file path then Err (NotAFile path) else Ok path
               | None => Err (InvalidCString other_io_error)
               end
           | Err e => Err (ReadLink e)
           | Panic => Panic
           end
  end.
End Paths.
