(* ===== verification/MountFds.v ===== *)
(** * Mount descriptors (src/passthrough/mount_fd.rs)

    Opening a file handle takes a descriptor on the handle's mount.  [MountFds] keeps
    one per mount ID for as long as some handle refers to it.  The mount point comes
    from /proc/self/mountinfo.

    An [Arc<MountFd>] is a [MountFd] and one unit of its entry's count.  Of an
    [MPRError] the I/O error is kept; the description and the question whether to
    log it are not modelled, except that errors are reported in full, with another
    look at mountinfo, only the first time. *)

From S2P Require Import Prelude OpenFlags Libc FileHandle FuseTypes FuseWire Descriptor XattrMap.
From S2P Require Import FileSystem Host Paths.

Record MountFds := {
  mount_map : gmap Z (Z * Z);
  mountinfo : Z;
  mountprefix : option (list Z);
  error_logged : gset Z;
}.

Definition mount_fds_new (mountinfo : Z) (mountprefix : option (list Z)) : MountFds :=
  {| mount_map := ∅; mountinfo := mountinfo; mountprefix := mountprefix; error_logged := ∅ |}.

Definition set_mount_map (f : gmap Z (Z * Z) -> gmap Z (Z * Z)) (m : MountFds) : MountFds :=
  {| mount_map := f (mount_map m); mountinfo := mountinfo m; mountprefix := mountprefix m;
     error_logged := error_logged m |}.

Definition log_error_for (mount_id : Z) (m : MountFds) : MountFds :=
  {| mount_map := mount_map m; mountinfo := mountinfo m; mountprefix := mountprefix m;
     error_logged := {[mount_id]} ∪ error_logged m |}.

(** ** mountinfo *)

(** [str::split] with a predicate: one piece more than there are separators. *)
Fixpoint split_by (sep : Z -> bool) (l : list Z) : list (list Z) :=
  match l with
  | [] => [[]]
  | c :: l' =>
      if sep c then [] :: split_by sep l'
      else match split_by sep l' with
           | p :: ps => (c :: p) :: ps
           | [] => [[c]]
           end
  end.

(** The mount point in a line about the mount. *)
Definition mount_line (mount_id : Z) (line : list Z) : option (list Z) :=
  match split_by is_whitespace line with
  | [] => None
  | id :: columns =>
      match parse_unsigned u64_max id with
      | Ok n => if n =? mount_id then columns !! 3%nat else None
      | _ => None
      end
  end.

Fixpoint find_map {A B} (f : A -> option B) (l : list A) : option B :=
  match l with
  | [] => None
  | a :: l' => match f a with Some b => Some b | None => find_map f l' end
  end.

Definition mount_point_in (mount_id : Z) (mountinfo : list Z) : option (list Z) :=
  find_map (mount_line mount_id) (split_on 10 mountinfo).

(** The mount point as the daemon sees it below its root. *)
Definition strip_mount_prefix (prefix : option (list Z)) (p : list Z) : list Z :=
  match prefix with
  | None => p
  | Some prefix =>
      match strip_prefix prefix p with
      | Some [] | None => text "/"
      | Some suffix => suffix
      end
  end.

Section MountFds.
Context {W : Type} `{Host W} (os : HostOs).

Notation state := (MountFds * world W)%type.
Notation IO := (eff state).

Definition on_world {A} (m : eff (world W) A) : IO A := zoom snd (fun w s => (s.1, w)) m.

(** [error_for_nolookup]: whether an error was reported before. *)
Definition error_for_nolookup (mount_id : Z) : IO bool :=
  silent ← gets (fun s : state => bool_decide (mount_id ∈ error_logged s.1));
  when_ (negb silent) (modify (fun s => (log_error_for mount_id s.1, s.2)));;
  mret silent.

Definition get_mount_root (mount_id : Z) : IO (list Z) :=
  fd ← gets (fun s : state => mountinfo s.1);
  contents ← attempt (on_world (
    sys (SysLseek fd 0 SEEK_SET);;
    data ← sys (SysReadAll fd);
    lift (ok_or (utf8_decode data) (Custom InvalidData))));
  match contents with
  | Ok contents =>
      match mount_point_in mount_id contents with
      | Some p => prefix ← gets (fun s : state => mountprefix s.1);
                  mret (strip_mount_prefix prefix p)
      | None => error_for_nolookup mount_id;; throw einval
      end
  | Err e => error_for_nolookup mount_id;; throw e
  | Panic => lift Panic
  end.

Definition error_for (mount_id : Z) : IO unit :=
  silent ← error_for_nolookup mount_id;
  if silent : bool then mret tt else ignore (get_mount_root mount_id).

(** [.map_err(|e| self.error_for(mount_id, e))?] *)
Definition or_error_for {A} (mount_id : Z) (m : IO A) : IO A :=
  r ← attempt m;
  match r with
  | Err e => error_for mount_id;; throw e
  | r => lift r
  end.

(** An open descriptor on a path of the mount, checked to be of that mount and safe
    to open. *)
Definition open_mount (reopen_fd : Z -> Z -> IO Z) (id mount_point_path : Z) : IO Z :=
  stx ← or_error_for id (on_world (statx os mount_point_path None));
  (if st_mnt_id stx =? id then mret tt else or_error_for id (throw (Os EIO)));;
  (if is_safe_inode (st_mode (st stx)) then mret tt else or_error_for id (throw (Os EIO)));;
  or_error_for id
    (reopen_fd mount_point_path (Z.lor O_RDONLY (Z.lor (O_NOFOLLOW os) (O_CLOEXEC os)))).

(** One more reference to the descriptor on the mount. *)
Definition mount_fds_get (reopen_fd : Z -> Z -> IO Z) (id : Z) : IO MountFd :=
  existing ← gets (fun s : state => mount_map s.1 !! id);
  match existing with
  | Some (fd, count) =>
      modify (fun s => (set_mount_map (<[id := (fd, count + 1)]>) s.1, s.2));;
      mret {| mount_id := id; mount_file := fd |}
  | None =>
      mount_point ← get_mount_root id;
      c_mount_point ← or_error_for id
        (lift (ok_or (cstring_of (utf8_encode mount_point)) (Custom InvalidInput)));
      mount_point_path ← or_error_for id
        (on_world (sys (SysOpen c_mount_point (O_PATH_OR_RDONLY os))));
      fd ← finally (open_mount reopen_fd id mount_point_path) (on_world (close mount_point_path));
      modify (fun s => (set_mount_map (<[id := (fd, 1)]>) s.1, s.2));;
      mret {| mount_id := id; mount_file := fd |}
  end.

(** A reference goes; the last one takes the entry and its descriptor along. *)
Definition mount_fd_drop (mfd : MountFd) : IO unit :=
  entry ← gets (fun s : state => mount_map s.1 !! mount_id mfd);
  match entry with
  | Some (fd, count) =>
      if count =? 1 then
        modify (fun s => (set_mount_map (delete (mount_id mfd)) s.1, s.2));;
        on_world (close fd)
      else modify (fun s => (set_mount_map (<[mount_id mfd := (fd, count - 1)]>) s.1, s.2))
  | None => mret tt
  end.
End MountFds.
