(* ===== verification/Passthrough.v ===== *)
(** * The passthrough file system: state and lookups (src/passthrough/mod.rs)

    The daemon's file system serves a directory of the host.  An inode the guest
    knows is an entry of the inode store with an [O_PATH] descriptor or a file handle;
    an open file of the guest is an entry of the handle table with a descriptor.
    Operations run one at a time, as computations on the whole state and the host.

    What Rust's destructors do is written out: [close] for a [File], [guest_release]
    and [close] for a [GuestFile], [drop_ref] for a [StrongInodeReference].  An
    [Arc<InodeData>] on the stack keeps the data of an inode alive that leaves the
    store meanwhile; [pinned] lists the inodes so held and [unlinked] their data.
    The data of inodes that leave the store at the same time go in the order of
    their IDs. *)

From S2P Require Import Prelude OpenFlags Libc FileHandle InodeStore DentryIndex FuseTypes.
From S2P Require Import FuseWire Descriptor SoftIdMap XattrMap FileSystem Host Credentials ReadDir.
From S2P Require Import Paths MountFds.

(** ** Configuration *)

Inductive CachePolicy := CacheNever | CacheMetadata | CacheAuto | CacheAlways.
Inductive NegotiationMode := NegNever | NegAuto | NegAlways.
Inductive InodeFileHandlesMode := HandlesNever | HandlesPrefer | HandlesMandatory.
Inductive MigrationOnError := OnErrorAbort | OnErrorGuestError.
Inductive MigrationMode := FindPaths | FileHandles.

#[export] Instance NegotiationMode_eq_dec : EqDecision NegotiationMode.
Proof. solve_decision. Defined.
#[export] Instance InodeFileHandlesMode_eq_dec : EqDecision InodeFileHandlesMode.
Proof. solve_decision. Defined.
#[export] Instance MigrationMode_eq_dec : EqDecision MigrationMode.
Proof. solve_decision. Defined.

(** [s.to_lowercase()] only matters for ASCII letters here: no other character has
    an ASCII letter of the words as its lower case, but the Kelvin sign, and there
    is no k in them. *)
Definition to_ascii_lowercase (s : list Z) : list Z :=
  map (fun c => if (65 <=? c) && (c <=? 90) then c + 32 else c) s.

Definition cache_policy_from_str (s : list Z) : option CachePolicy :=
  let s := to_ascii_lowercase s in
  if decide (s = text "never") then Some CacheNever
  else if decide (s = text "metadata") then Some CacheMetadata
  else if decide (s = text "auto") then Some CacheAuto
  else if decide (s = text "always") then Some CacheAlways
  else None.

Definition negotiation_mode_from_str (s : list Z) : option NegotiationMode :=
  if decide (s = text "never") then Some NegNever
  else if decide (s = text "auto") then Some NegAuto
  else if decide (s = text "always") then Some NegAlways
  else None.

Definition negotiation_mode_display (m : NegotiationMode) : list Z :=
  match m with NegNever => text "never" | NegAuto => text "auto" | NegAlways => text "always" end.

Definition migration_on_error_from_str (s : list Z) : option MigrationOnError :=
  if decide (s = text "abort") then Some OnErrorAbort
  else if decide (s = text "guest-error") then Some OnErrorGuestError
  else None.

Definition migration_mode_from_str (s : list Z) : option MigrationMode :=
  if decide (s = text "find-paths") then Some FindPaths
  else if decide (s = text "file-handles") then Some FileHandles
  else None.

Record Config := {
  cfg_entry_timeout : Duration;
  cfg_attr_timeout : Duration;
  cache_policy : CachePolicy;
  cfg_writeback : bool;
  root_dir : bytes;
  mountinfo_prefix : option (list Z);
  xattr : bool;
  xattrmap : option XattrMap;
  xattr_security_capability : option bytes;
  proc_sfd_rawfd : option Z;
  proc_mountinfo_rawfd : option Z;
  cfg_announce_submounts : bool;
  inode_file_handles : InodeFileHandlesMode;
  readdirplus : bool;
  allow_direct_io : bool;
  guest_arch : GuestArch;
  killpriv_v2 : bool;
  cfg_posix_acl : NegotiationMode;
  security_label : NegotiationMode;
  clean_noatime : bool;
  allow_mmap : bool;
  migration_on_error : MigrationOnError;
  migration_verify_handles : bool;
  migration_confirm_paths : bool;
  migration_mode : MigrationMode;
  cfg_uid_map : option (list CmdlineIdMap);
  cfg_gid_map : option (list CmdlineIdMap);
  guest_fd_limit : Z;
}.

(** [Config::default()] on a host of the architecture [host]. *)
Definition config_default (host : GuestArch) : Config :=
  {| cfg_entry_timeout := from_secs 5; cfg_attr_timeout := from_secs 5; cache_policy := CacheAuto;
     cfg_writeback := false; root_dir := text "/"; mountinfo_prefix := None; xattr := false;
     xattrmap := None; xattr_security_capability := None; proc_sfd_rawfd := None;
     proc_mountinfo_rawfd := None; cfg_announce_submounts := false;
     inode_file_handles := HandlesNever; readdirplus := true; allow_direct_io := false;
     guest_arch := host; killpriv_v2 := false; cfg_posix_acl := NegNever;
     security_label := NegNever; clean_noatime := true; allow_mmap := false;
     migration_on_error := OnErrorAbort; migration_verify_handles := false;
     migration_confirm_paths := false; migration_mode := FindPaths; cfg_uid_map := None;
     cfg_gid_map := None; guest_fd_limit := u64_max |}.

(** ** Open files *)

(** [FileType]: the type bits of a mode. *)
Definition file_type_from_mode (mode : Z) : Z := Z.land mode S_IFMT.
Definition is_regular_file (file_type : Z) : bool := file_type =? S_IFREG.

Inductive HandleDataFile := HandleFile (fd : Z) | HandleInvalid (err : io_error).

(** How the destination of a migration opens the file again. *)
Inductive HandleMigrationInfo := OpenInode (open_flags : Z).

Definition handle_migration_info_new (os : HostOs) (flags : Z) : HandleMigrationInfo :=
  OpenInode (Z.ldiff flags (Z.lor (O_CREAT os) (Z.lor (O_EXCL os) (O_TRUNC os)))).

Record HandleData := {
  hd_inode : Z;
  hd_file : HandleDataFile;
  hd_file_type : Z;
  hd_migration_info : HandleMigrationInfo;
}.

(** [HandleDataFile::get]. *)
Definition handle_file_get (f : HandleDataFile) : io Z :=
  match f with HandleFile fd => Ok fd | HandleInvalid err => Err (with_context err) end.

(** ** State *)

(** What [init] negotiates. *)
Record NegotiatedOpts := {
  writeback : bool;
  announce_submounts : bool;
  posix_acl : bool;
  sup_group_extension : bool;
}.

Definition nothing_negotiated : NegotiatedOpts :=
  {| writeback := false; announce_submounts := false; posix_acl := false;
     sup_group_extension := false |}.

(** What does not change once the file system is set up. *)
Record Setup (M : Type) := {
  cfg : Config;
  uid_map : IdMap M;
  gid_map : IdMap M;
  proc_self_fd : Z;
  orig_wd_fd : Z;
  has_openat2 : bool;
}.
Arguments cfg {M} s.
Arguments uid_map {M} s.
Arguments gid_map {M} s.
Arguments proc_self_fd {M} s.
Arguments orig_wd_fd {M} s.
Arguments has_openat2 {M} s.
Arguments Build_Setup {M} _ _ _ _ _ _.

Record PassthroughFs (W : Type) := {
  inodes : InodeStoreInner;
  next_inode : Z;
  handles : gmap Z HandleData;
  next_handle : Z;
  available : Z;
  mount_fds : option MountFds;
  opts : NegotiatedOpts;
  track_migration_info : bool;
  dentry_index : option DentryIndex;
  pinned : list Z;
  unlinked : list InodeData;
  fs_world : world W;
}.
Arguments inodes {W} p.
Arguments next_inode {W} p.
Arguments handles {W} p.
Arguments next_handle {W} p.
Arguments available {W} p.
Arguments mount_fds {W} p.
Arguments opts {W} p.
Arguments track_migration_info {W} p.
Arguments dentry_index {W} p.
Arguments pinned {W} p.
Arguments unlinked {W} p.
Arguments fs_world {W} p.
Arguments Build_PassthroughFs {W} _ _ _ _ _ _ _ _ _ _ _ _.

(** ** Fields *)

Section Fields.
Context {W : Type}.
Implicit Types (s : PassthroughFs W).

Definition set_inodes (v : InodeStoreInner) s : PassthroughFs W :=
  Build_PassthroughFs v (next_inode s) (handles s) (next_handle s) (available s) (mount_fds s)
    (opts s) (track_migration_info s) (dentry_index s) (pinned s) (unlinked s) (fs_world s).
Definition set_next_inode (v : Z) s : PassthroughFs W :=
  Build_PassthroughFs (inodes s) v (handles s) (next_handle s) (available s) (mount_fds s) (opts
    s) (track_migration_info s) (dentry_index s) (pinned s) (unlinked s) (fs_world s).
Definition set_handles (v : gmap Z HandleData) s : PassthroughFs W :=
  Build_PassthroughFs (inodes s) (next_inode s) v (next_handle s) (available s) (mount_fds s)
    (opts s) (track_migration_info s) (dentry_index s) (pinned s) (unlinked s) (fs_world s).
Definition set_next_handle (v : Z) s : PassthroughFs W :=
  Build_PassthroughFs (inodes s) (next_inode s) (handles s) v (available s) (mount_fds s) (opts
    s) (track_migration_info s) (dentry_index s) (pinned s) (unlinked s) (fs_world s).
Definition set_available (v : Z) s : PassthroughFs W :=
  Build_PassthroughFs (inodes s) (next_inode s) (handles s) (next_handle s) v (mount_fds s)
    (opts s) (track_migration_info s) (dentry_index s) (pinned s) (unlinked s) (fs_world s).
Definition set_mount_fds (v : option MountFds) s : PassthroughFs W :=
  Build_PassthroughFs (inodes s) (next_inode s) (handles s) (next_handle s) (available s) v
    (opts s) (track_migration_info s) (dentry_index s) (pinned s) (unlinked s) (fs_world s).
Definition set_opts (v : NegotiatedOpts) s : PassthroughFs W :=
  Build_PassthroughFs (inodes s) (next_inode s) (handles s) (next_handle s) (available s)
    (mount_fds s) v (track_migration_info s) (dentry_index s) (pinned s) (unlinked s) (fs_world
    s).
Definition set_track_migration_info (v : bool) s : PassthroughFs W :=
  Build_PassthroughFs (inodes s) (next_inode s) (handles s) (next_handle s) (available s)
    (mount_fds s) (opts s) v (dentry_index s) (pinned s) (unlinked s) (fs_world s).
Definition set_dentry_index (v : option DentryIndex) s : PassthroughFs W :=
  Build_PassthroughFs (inodes s) (next_inode s) (handles s) (next_handle s) (available s)
    (mount_fds s) (opts s) (track_migration_info s) v (pinned s) (unlinked s) (fs_world s).
Definition set_pinned (v : list Z) s : PassthroughFs W :=
  Build_PassthroughFs (inodes s) (next_inode s) (handles s) (next_handle s) (available s)
    (mount_fds s) (opts s) (track_migration_info s) (dentry_index s) v (unlinked s) (fs_world
    s).
Definition set_unlinked (v : list InodeData) s : PassthroughFs W :=
  Build_PassthroughFs (inodes s) (next_inode s) (handles s) (next_handle s) (available s)
    (mount_fds s) (opts s) (track_migration_info s) (dentry_index s) (pinned s) v (fs_world s).
Definition set_fs_world (v : world W) s : PassthroughFs W :=
  Build_PassthroughFs (inodes s) (next_inode s) (handles s) (next_handle s) (available s)
    (mount_fds s) (opts s) (track_migration_info s) (dentry_index s) (pinned s) (unlinked s) v.
End Fields.

Section Passthrough.
Context {W M : Type} `{Host W} `{RangeMap M MapEntry}.
Context (checks : bool) (os : HostOs) (fs : Setup M).

Notation state := (PassthroughFs W).
Notation IO := (eff state).

(** ** The host *)

Definition hosted {A} (m : eff (world W) A) : IO A := zoom fs_world set_fs_world m.

Definition sysc {A} (c : Call A) : IO A := hosted (sys c).

(** [if res < 0 { return Err(io::Error::last_os_error()) }] *)
Definition check_last {A} (res : option A) : IO A :=
  match res with
  | Some a => mret a
  | None => err ← hosted last_os_error; throw err
  end.

(** A computation on the mount descriptors, which exist wherever they are used. *)
Definition mounts {A} (m : eff (MountFds * world W) A) : IO A := fun s =>
  match mount_fds s with
  | Some mf =>
      let '((mf, w), r) := m (mf, fs_world s) in (set_mount_fds (Some mf) (set_fs_world w s), r)
  | None => (s, Panic)
  end.

(** ** Guest descriptors (src/passthrough/guest_fd_limit.rs) *)

(** [GuestFdSemaphore::allocate] takes the descriptor over: without a free slot it
    is closed. *)
Definition guest_allocate (fd : Z) : IO unit :=
  previous ← gets available;
  match checked_sub previous 1 with
  | Some n => modify (set_available n)
  | None => hosted (close fd);; throw (Os ENFILE)
  end.

Definition guest_release : IO unit :=
  previous ← gets available;
  modify (set_available ((previous + 1) mod 2 ^ 64));;
  match checked_add u64_max previous 1 with
  | Some increased_to => lift (debug_assert checks (increased_to <=? guest_fd_limit (cfg fs)))
  | None => lift Panic
  end.

(** [GuestFile]'s destructor. *)
Definition guest_file_drop (fd : Z) : IO unit := guest_release;; hosted (close fd).

(** ** Inode data *)

(** The table of mounts is there as long as there are mount descriptors. *)
Definition drop_mount_fd (mfd : MountFd) : IO unit :=
  present ← gets mount_fds;
  match present with Some _ => mounts (mount_fd_drop mfd) | None => mret tt end.

Definition drop_file_or_handle (foh : FileOrHandle) : IO unit :=
  match foh with
  | File fd => guest_file_drop fd
  | Handle h => drop_mount_fd (mount_fd h)
  | Invalid _ => mret tt
  end.

(** The data of an inode that is no longer in the store, unless an operation is
    still using it. *)
Definition release_data (d : InodeData) : IO unit :=
  held ← gets (fun s : state => bool_decide (inode d ∈ pinned s));
  if held : bool then modify (fun s => set_unlinked (unlinked s ++ [d]) s)
  else drop_file_or_handle (file_or_handle d).

(** The data that [st'] has lost. *)
Definition removed (st st' : InodeStoreInner) : list InodeData :=
  filter (fun d => data st' !! inode d = None) (entries (data st)).*2.

Definition change_store (st' : InodeStoreInner) : IO unit :=
  st ← gets inodes;
  modify (set_inodes st');;
  each release_data (removed st st').

(** [StrongInodeReference]'s destructor. *)
Definition drop_ref (i : Z) : IO unit :=
  st ← gets inodes;
  change_store (drop_reference st i).

(** [self.inodes.get(i).ok_or_else(ebadf)?] for as long as [k] runs. *)
Fixpoint remove_one (i : Z) (l : list Z) : list Z :=
  match l with
  | [] => []
  | j :: l' => if i =? j then l' else j :: remove_one i l'
  end.

Definition unpin (i : Z) : IO unit :=
  modify (fun s : state => set_pinned (remove_one i (pinned s)) s);;
  s ← gets id;
  if decide (i ∈ pinned s) then mret tt
  else
    modify (fun s : state => set_unlinked (filter (fun d => inode d <> i) (unlinked s)) s);;
    each (fun d => drop_file_or_handle (file_or_handle d))
      (filter (fun d => inode d = i) (unlinked s)).

Definition pin {A} (i : Z) (m : IO A) : IO A :=
  modify (fun s : state => set_pinned (i :: pinned s) s);;
  finally m (unpin i).

Definition with_inode {A} (i : Z) (k : InodeData -> IO A) : IO A :=
  d ← gets (fun s : state => store_get (inodes s) i);
  match d with
  | None => throw ebadf
  | Some d => pin i (k d)
  end.

(** [StrongInodeReference::new_with_data] for data that was found under [i]: an
    inode that has left the store has no references left. *)
Definition strong_ref (i : Z) : IO Z :=
  st ← gets inodes;
  '(st', i) ← lift (get_strong checks st i);
  modify (set_inodes st');;
  mret i.

(** ** Files of inodes *)

(** [oslib::name_to_handle_at] and [oslib::open_by_handle_at]. *)
Definition name_to_handle_at (dir : Z) (path : bytes) : IO (CFileHandle * Z) :=
  match os with
  | HostLinux _ => sysc (SysNameToHandleAt dir path AT_EMPTY_PATH)
  | HostMacos => throw (Os (host_ENOSYS os))
  end.

Definition open_by_handle_at (mount : Z) (handle : CFileHandle) (flags : Z) : IO Z :=
  match os with
  | HostLinux _ => sysc (SysOpenByHandleAt mount handle flags)
  | HostMacos => throw (Os (host_ENOSYS os))
  end.

(** [OpenableFileHandle::open]. *)
Definition openable_open (h : OpenableFileHandle) (flags : Z) : IO Z :=
  open_by_handle_at (mount_file (mount_fd h)) (fh_handle (inner h)) flags.

(** [InodeFile]: whether the descriptor is to be closed. *)
Record InodeFile := { raw_fd : Z; owned : bool }.

Definition inode_file_drop (f : InodeFile) : IO unit :=
  when_ (owned f) (hosted (close (raw_fd f))).

Definition get_file (d : InodeData) : IO InodeFile :=
  match file_or_handle d with
  | File fd => mret {| raw_fd := fd; owned := false |}
  | Handle h => fd ← openable_open h (O_PATH_OR_RDONLY os); mret {| raw_fd := fd; owned := true |}
  | Invalid err => throw (with_context err)
  end.

(** [open_file] always returns an owned descriptor. *)
Definition open_file (d : InodeData) (flags : Z) : IO Z :=
  match file_or_handle d with
  | File fd =>
      if negb (is_safe_inode (mode d)) then throw ebadf
      else hosted (reopen_fd_through_proc os fd flags (proc_self_fd fs))
  | Handle h => if negb (is_safe_inode (mode d)) then throw ebadf else openable_open h flags
  | Invalid err => throw (with_context err)
  end.

Definition with_file {A} (d : InodeData) (k : Z -> IO A) : IO A :=
  f ← get_file d;
  finally (k (raw_fd f)) (inode_file_drop f).

(** The path of an inode's file. *)
Inductive InodePathError := NoFd (err : io_error) | InodeFdPath (err : FdPathError) | OutsideRoot.

Definition io_of_inode_path_error (e : InodePathError) : io_error :=
  match e with
  | NoFd err => err
  | InodeFdPath err => io_of_fd_path_error err
  | OutsideRoot => other_io_error
  end.

Definition get_path (d : InodeData) : IO (res InodePathError bytes) :=
  f ← attempt (get_file d);
  match f with
  | Ok f =>
      finally
        (path ← hosted (get_path_by_fd os (raw_fd f) (proc_self_fd fs));
         mret match path with
              | Ok path =>
                  if bool_decide (path = text "/") && negb (inode d =? ROOT_ID)
                  then Err OutsideRoot else Ok path
              | Err e => Err (InodeFdPath e)
              | Panic => Panic
              end)
        (inode_file_drop f)
  | Err e => mret (Err (NoFd e))
  | Panic => lift Panic
  end.

(** A directory and a path to name an open file by in the [*at] calls. *)
Definition at_path_for_fd (fd : Z) : IO (Z * bytes) :=
  match os with
  | HostLinux _ => mret (proc_self_fd fs, show fd)
  | HostMacos =>
      path ← hosted (get_path_by_fd os fd (proc_self_fd fs));
      path ← lift (map_err io_of_fd_path_error path);
      mret (AT_FDCWD os, path)
  end.

(** [ScopedWorkingDirectory]: [m] in /proc/self/fd, and back. *)
Definition in_proc_self_fd {A} (m : IO A) : IO A :=
  expect (sysc (SysFchdir (proc_self_fd fs)));;
  finally m (expect (sysc (SysFchdir (orig_wd_fd fs)))).

(** ** The dentry index *)

Definition update_dentries (f : DentryIndex -> DentryIndex) : IO unit :=
  modify (fun s : state => set_dentry_index (f <$> dentry_index s) s).

Definition dentry_index_insert (parent : Z) (name : bytes) (child : Z) : IO unit :=
  update_dentries (fun idx => dentry_insert idx parent name child).
Definition dentry_index_remove (parent : Z) (name : bytes) : IO unit :=
  update_dentries (fun idx => dentry_remove idx parent name).
Definition dentry_index_rename (old_parent : Z) (old_name : bytes) (new_parent : Z)
  (new_name : bytes) : IO unit :=
  update_dentries (fun idx => dentry_rename idx old_parent old_name new_parent new_name).
Definition dentry_index_forget (i : Z) : IO unit :=
  update_dentries (fun idx => forget_inode idx i).

(** ** Opening *)

Definition do_open_relative_to (dir : Z) (pathname : bytes) (flags : Z) (mode : option Z) : IO Z :=
  let mode := Z.land (default 0 mode) 0xFFF in
  match os with
  | HostLinux _ =>
      sysc (SysOpenat2 dir pathname flags mode (Z.lor RESOLVE_IN_ROOT RESOLVE_NO_MAGICLINKS))
  | HostMacos =>
      sysc (SysOpenat dir pathname
              (Z.lor (Z.lor (Z.ldiff flags (O_NOFOLLOW os)) O_SYMLINK) (O_CLOEXEC os)) mode)
  end.

Definition open_relative_to (dir : Z) (pathname : bytes) (flags : Z) (mode : option Z) : IO Z :=
  let flags :=
    match os with
    | HostLinux _ => Z.lor (Z.lor (O_NOFOLLOW os) (O_CLOEXEC os)) flags
    | HostMacos => Z.lor (Z.lor (Z.ldiff flags (O_NOFOLLOW os)) O_SYMLINK) (O_CLOEXEC os)
    end in
  if has_openat2 fs then do_open_relative_to dir pathname flags mode
  else sysc (SysOpenat dir pathname flags (default 0 mode)).

Definition find_handle (handle i : Z) : IO HandleData :=
  hd ← gets (fun s : state => handles s !! handle);
  match hd with
  | Some hd => if hd_inode hd =? i then mret hd else throw ebadf
  | None => throw ebadf
  end.

(** The flags [open_inode] opens the file with. *)
Definition open_inode_flags (writeback : bool) (flags : Z) : Z :=
  let flags :=
    if writeback && (Z.land flags O_ACCMODE =? O_WRONLY)
    then Z.lor (Z.ldiff flags O_ACCMODE) O_RDWR else flags in
  let flags := if writeback && has_any flags (O_APPEND os)
               then Z.ldiff flags (O_APPEND os) else flags in
  let flags := if negb (allow_direct_io (cfg fs)) && has_any flags (O_DIRECT os)
               then Z.ldiff flags (O_DIRECT os) else flags in
  Z.lor flags (O_CLOEXEC os).

Definition open_inode (d : InodeData) (flags : Z) : IO Z :=
  wb ← gets (fun s : state => writeback (opts s));
  open_file d (open_inode_flags wb flags).

(** ** File handles *)

Definition get_file_handle_opt (fd : Z) (st : StatExt) : IO (option FileHandle) :=
  match inode_file_handles (cfg fs) with
  | HandlesNever => mret None
  | m =>
      r ← attempt (name_to_handle_at fd []);
      handle ← lift (from_name_at os r);
      match handle with
      | Some h => mret (Some h)
      | None =>
          when_ (0 <? st_mnt_id st) (mounts (error_for (st_mnt_id st)));;
          match m with
          | HandlesMandatory => throw (Os (host_EOPNOTSUPP os))
          | _ => mret None
          end
      end
  end.

Definition make_file_handle_openable (fh : FileHandle) : IO OpenableFileHandle :=
  mfd ← mounts (mount_fds_get os
          (fun fd flags => on_world (reopen_fd_through_proc os fd flags (proc_self_fd fs)))
          (fh_mnt_id fh));
  mret {| inner := fh; mount_fd := mfd |}.

(** ** Identities *)

Definition map_guest_uid (uid : Z) : io Z := map_err io_of_map_error (map_guest checks (uid_map fs) uid).
Definition map_guest_gid (gid : Z) : io Z := map_err io_of_map_error (map_guest checks (gid_map fs) gid).
Definition map_host_uid (uid : Z) : io Z := map_err io_of_map_error (map_host checks (uid_map fs) uid).
Definition map_host_gid (gid : Z) : io Z := map_err io_of_map_error (map_host checks (gid_map fs) gid).

(** [Attr::try_with_flags] (src/fuse.rs). *)
Definition try_with_flags (st : Stat64) (flags : Z) : io Attr :=
  uid ← map_host_uid (st_uid st);
  gid ← map_host_gid (st_gid st);
  Ok {| attr_ino := st_ino st; attr_size := st_size st mod 2 ^ 64;
        attr_blocks := st_blocks st mod 2 ^ 64; attr_atime := st_atime st mod 2 ^ 64;
        attr_mtime := st_mtime st mod 2 ^ 64; attr_ctime := st_ctime st mod 2 ^ 64;
        attr_atimensec := as_u32 (st_atime_nsec st); attr_mtimensec := as_u32 (st_mtime_nsec st);
        attr_ctimensec := as_u32 (st_ctime_nsec st); attr_mode := as_u32 (st_mode st);
        attr_nlink := as_u32 (st_nlink st); attr_uid := uid; attr_gid := gid;
        attr_rdev := as_u32 (st_rdev st); attr_blksize := as_u32 (st_blksize st);
        attr_flags := flags |}.

Definition try_from_stat64 (st : Stat64) : io Attr := try_with_flags st 0.

(** [m] as the user the request comes from. *)
Definition with_credentials {A} (ctx : Context) (ext : Extensions) (m : IO A) : IO A :=
  guard ← lift (map_guest_uid (ctx_uid ctx)) ≫= (fun host_uid =>
          host_gid ← lift (map_guest_gid (ctx_gid ctx));
          supp_gids ← lift (map_collect map_guest_gid (ext_sup_gids ext));
          supported ← gets (fun s : state => sup_group_extension (opts s));
          hosted (credentials_set os
            (supplementary_gid (credentials_new host_uid host_gid) supported supp_gids)));
  finally m (hosted (drop_option credentials_drop guard)).

(** [m] with the guest's umask, if the guest leaves masking to the daemon. *)
Definition with_umask {A} (umask : Z) (m : IO A) : IO A :=
  acl ← gets (fun s : state => posix_acl (opts s));
  if acl : bool then
    old ← hosted (scoped_umask_new umask);
    finally m (hosted (scoped_umask_drop old))
  else m.

(** [m] without the capability to keep set-ID bits, if [kill]. *)
Definition killing_priv {A} (kill : bool) (m : IO A) : IO A :=
  if kill then
    guard ← hosted (drop_effective_cap os (text "FSETID"));
    finally m (hosted (drop_option scoped_caps_drop guard))
  else m.

(** ** Migration info (src/passthrough/device_state/preserialization/mod.rs) *)

(** [SerializableFileHandle::try_from]. *)
Definition serializable_handle (foh : FileOrHandle) : IO SerializableFileHandle :=
  match foh with
  | File fd => r ← attempt (name_to_handle_at fd []); lift (sfh_try_from (fun _ => r) foh)
  | _ => lift (sfh_try_from (fun _ => Panic) foh)
  end.

Definition migration_info_internal (location : InodeLocation) (foh : FileOrHandle)
  : IO InodeMigrationInfo :=
  file_handle ←
    (if migration_verify_handles (cfg fs)
     then h ← serializable_handle foh; mret (Some h)
     else mret None);
  mret {| location := location; mig_file_handle := file_handle |}.

(** The reference to the parent goes into the location or is dropped. *)
Definition migration_info_new (parent_ref : Z) (filename : bytes) (foh : FileOrHandle)
  : IO InodeMigrationInfo :=
  match migration_mode (cfg fs) with
  | FindPaths =>
      on_failure
        (if is_utf8 filename then migration_info_internal (Path parent_ref filename) foh
         else throw other_io_error)
        (drop_ref parent_ref)
  | FileHandles =>
      finally
        (handle ← attempt (serializable_handle foh);
         handle ← lift (map_err with_context handle);
         migration_info_internal (ByFileHandle handle) foh)
        (drop_ref parent_ref)
  end.

Definition migration_info_new_root (foh : FileOrHandle) : IO InodeMigrationInfo :=
  migration_info_internal RootNode foh.

Definition has_path (mi : InodeMigrationInfo) : bool :=
  match location mi with RootNode => false | Path _ _ => true | ByFileHandle _ => false end.

(** Puts [mi] in the place of the migration info of [i], which is returned.  The info
    of an inode that has left the store goes nowhere. *)
Definition swap_migration_info (i : Z) (mi : option InodeMigrationInfo)
  : IO (option InodeMigrationInfo) :=
  d ← gets (fun s : state => store_get (inodes s) i);
  match d with
  | Some d =>
      modify (fun s : state =>
        set_inodes (set_data (<[i := set_migration_info mi d]>) (inodes s)) s);;
      mret (migration_info d)
  | None => mret mi
  end.

(** [*inode_data.migration_info.lock() = mi] *)
Definition put_migration_info (i : Z) (mi : option InodeMigrationInfo) : IO unit :=
  old ← swap_migration_info i mi;
  each drop_ref (info_references old).

(** ** Lookups *)

Definition ids_of (st : StatExt) : InodeIds :=
  {| ino := st_ino (Host.st st); dev := st_dev (Host.st st); mnt_id := st_mnt_id st |}.

(** [self.inodes.claim_inode(..).ok()] *)
Definition claim (handle : option FileHandle) (k : InodeIds) : IO (option Z) :=
  store ← gets inodes;
  match claim_inode checks store handle k with
  | Ok (store', i) => modify (set_inodes store');; mret (Some i)
  | Err _ => mret None
  | Panic => lift Panic
  end.

Definition try_lookup_implementation (parent_data : InodeData) (name : bytes)
  : IO (option Z * Z * StatExt * option FileHandle) :=
  with_file parent_data (fun p_file =>
    path_fd ← open_relative_to p_file name (O_PATH_OR_RDONLY os) None;
    on_failure
      (st ← hosted (statx os path_fd None);
       handle ← get_file_handle_opt path_fd st;
       existing ← claim handle (ids_of st);
       mret (existing, path_fd, st, handle))
      (hosted (close path_fd))).

Definition try_lookup (parent_data : InodeData) (name : bytes) : IO (option Z) :=
  '(existing, path_fd, _, _) ← try_lookup_implementation parent_data name;
  hosted (close path_fd);;
  mret existing.

(** [self.next_inode.fetch_add(1)] *)
Definition new_inode_id : IO Z :=
  i ← gets next_inode;
  modify (set_next_inode ((i + 1) mod 2 ^ 64));;
  mret i.

(** [self.inodes.get_or_insert(inode_data)]: data that is not inserted is dropped, because
    of an error or because the inode is there already. *)
Definition store_get_or_insert (d : InodeData) : IO Z :=
  store ← gets inodes;
  let '(store', r) := get_or_insert checks store d in
  change_store store';;
  match r with
  | Ok i =>
      when_ (bool_decide (is_Some (store_get store i))) (drop_file_or_handle (file_or_handle d));;
      mret i
  | Err err => drop_file_or_handle (file_or_handle d);; throw err
  | Panic => lift Panic
  end.

(** The entry for an inode the store does not know. *)
Definition insert_inode (parent : Z) (name : bytes) (st : StatExt) (foh : FileOrHandle) : IO Z :=
  tracked ← gets (track_migration_info);
  mig_info ← on_failure
    (if tracked : bool then
       parent_strong_ref ← strong_ref parent;
       mi ← migration_info_new parent_strong_ref name foh;
       mret (Some mi)
     else mret None)
    (drop_file_or_handle foh);
  i ← new_inode_id;
  store_get_or_insert
    {| inode := i; file_or_handle := foh; refcount := 1; ids := ids_of st;
       mode := as_u32 (st_mode (Host.st st)); migration_info := mig_info |}.

(** The reply for a reference to an inode, which passes to the guest. *)
Definition lookup_entry (parent : Z) (name : bytes) (attr_flags : Z) (st : StatExt) (i : Z)
  : IO Entry :=
  attr ← on_failure (lift (try_with_flags (Host.st st) attr_flags)) (drop_ref i);
  dentry_index_insert parent name i;;
  mret {| entry_inode := i; entry_generation := 0; entry_attr := attr;
          attr_timeout := cfg_attr_timeout (cfg fs); entry_timeout := cfg_entry_timeout (cfg fs) |}.

(** Whether the guest is told that a directory is on another mount than its parent. *)
Definition is_submount (announce : bool) (p : InodeData) (st : StatExt) : bool :=
  (Z.land (st_mode (Host.st st)) S_IFMT =? S_IFDIR) && announce &&
  (negb (st_dev (Host.st st) =? dev (ids p)) || negb (st_mnt_id st =? mnt_id (ids p))).

Definition do_lookup (parent : Z) (name : bytes) : IO Entry :=
  with_inode parent (fun p =>
    '(existing_inode, path_fd, st, handle) ← try_lookup_implementation p name;
    announce ← gets (fun s : state => announce_submounts (opts s));
    let attr_flags := if is_submount announce p st then ATTR_SUBMOUNT else 0 in
    match existing_inode, handle with
    | Some i, _ =>
        finally (lookup_entry parent name attr_flags st i) (hosted (close path_fd))
    | None, Some h =>
        finally
          (openable ← make_file_handle_openable h;
           i ← insert_inode parent name st (Handle openable);
           lookup_entry parent name attr_flags st i)
          (hosted (close path_fd))
    | None, None =>
        guest_allocate path_fd;;
        i ← insert_inode parent name st (File path_fd);
        lookup_entry parent name attr_flags st i
    end).

(** ** Paths of inodes (src/passthrough/device_state/preserialization/proc_paths.rs) *)

Inductive WrappedError := Fallback (err : io_error) | Unrecoverable (err : io_error).

Definition wrapped_into_inner (e : WrappedError) : io_error :=
  match e with Fallback err => err | Unrecoverable err => err end.

Definition wrapped (fall_back : bool) (err : io_error) : WrappedError :=
  if fall_back then Fallback err else Unrecoverable err.

Definition link_count (d : InodeData) : IO (option Z) :=
  st ← attempt (with_file d (fun f => hosted (statx os f None)));
  mret match st with Ok st => Some (st_nlink (Host.st st)) | _ => None end.

Definition more_links_than (n : Z) (d : InodeData) : IO bool :=
  count ← link_count d;
  mret match count with Some c => n <? c | None => false end.

(** [Path::iter]. *)
Definition component_name (c : Component) : bytes :=
  match c with
  | RootDir => text "/" | CurDir => text "." | ParentDir => text ".." | Normal name => name
  end.

(** Looks the elements up one below the other, giving every inode on the way that
    has none a path.  [parent] is a reference, and so is the result. *)
Fixpoint walk_path (parent : Z) (elements : list bytes) : IO (res WrappedError Z) :=
  match elements with
  | [] => mret (Ok parent)
  | element :: rest =>
      entry ← attempt (do_lookup parent element);
      match entry with
      | Ok entry =>
          let i := entry_inode entry in
          d ← gets (fun s : state => store_get (inodes s) i);
          match d with
          | None => lift Panic
          | Some d =>
              match migration_info d with
              | Some _ => drop_ref parent;; walk_path i rest
              | None =>
                  mi ← attempt (migration_info_new parent element (file_or_handle d));
                  match mi with
                  | Ok mi => put_migration_info i (Some mi);; walk_path i rest
                  | Err err => drop_ref i;; mret (Err (Unrecoverable err))
                  | Panic => lift Panic
                  end
              end
          end
      | Err err => drop_ref parent;; mret (Err (Unrecoverable err))
      | Panic => lift Panic
      end
  end.

(** Whether another way of finding the path may succeed where this one failed. *)
Definition path_error_fall_back (d : InodeData) (e : InodePathError) : IO bool :=
  match e with
  | InodeFdPath (Deleted _) => more_links_than 0 d
  | OutsideRoot => more_links_than 1 d
  | NoFd _ => mret false
  | InodeFdPath _ => mret true
  end.

Definition set_path_migration_info_from_proc_self_fd (d : InodeData) (shared_dir_path : bytes)
  : IO (res WrappedError unit) :=
  abs_path ← get_path d;
  match abs_path with
  | Ok abs_path =>
      match relative_path abs_path shared_dir_path with
      | Ok rel_path =>
          if negb (is_utf8 rel_path) then mret (Err (Unrecoverable other_io_error))
          else
            root ← attempt (strong_ref ROOT_ID);
            match root with
            | Ok root =>
                r ← walk_path root (component_name <$> components rel_path);
                match r with
                | Ok found =>
                    drop_ref found;;
                    mret (if found =? inode d then Ok tt else Err (Fallback other_io_error))
                | Err e => mret (Err e)
                | Panic => lift Panic
                end
            | Err err => mret (Err (Unrecoverable err))
            | Panic => lift Panic
            end
      | Err err => fall_back ← more_links_than 1 d; mret (Err (wrapped fall_back err))
      | Panic => lift Panic
      end
  | Err e =>
      fall_back ← path_error_fall_back d e;
      mret (Err (wrapped fall_back (with_context (io_of_inode_path_error e))))
  | Panic => lift Panic
  end.

(** ** Inodes whose path changes *)

Definition after_invalidating_path_refresh (d : InodeData) : IO unit :=
  root ← gets (fun s : state => store_get (inodes s) ROOT_ID);
  match root with
  | None => throw other_io_error
  | Some root =>
      path ← pin ROOT_ID (get_path root);
      shared_dir_path ← lift (map_err (fun e => with_context (io_of_inode_path_error e)) path);
      r ← set_path_migration_info_from_proc_self_fd d shared_dir_path;
      lift (map_err wrapped_into_inner r)
  end.

Definition before_invalidating_path (parent : InodeData) (filename : bytes) : IO (option Z) :=
  r ← attempt (try_lookup parent filename);
  mret match r with Ok existing => existing | _ => None end.

(** Takes the reference over. *)
Definition after_invalidating_path (i : Z) : IO unit :=
  finally
    (d ← gets (fun s : state => store_get (inodes s) i);
     match d with
     | None => mret tt
     | Some d =>
         match migration_info d with
         | None => mret tt
         | Some mi =>
             if has_path mi then
               old ← swap_migration_info i None;
               finally (ignore (after_invalidating_path_refresh d))
                 (each drop_ref (info_references old))
             else mret tt
         end
     end)
    (drop_ref i).

(** [before_invalidating_path] and [after_invalidating_path] around a call. *)
Definition invalidating {A} (parent : InodeData) (filename : bytes) (m : IO A) : IO A :=
  invalidated ← before_invalidating_path parent filename;
  match invalidated with
  | Some i => res ← on_failure m (drop_ref i); after_invalidating_path i;; mret res
  | None => m
  end.

Definition update_inode_migration_info (parent_data : InodeData) (filename : bytes) : IO unit :=
  tracked ← gets (track_migration_info);
  if negb tracked then mret tt
  else
    found ← try_lookup parent_data filename;
    match found with
    | None => mret tt
    | Some i =>
        finally
          (d ← gets (fun s : state => store_get (inodes s) i);
           d ← lift (unwrap d);
           parent_strong_ref ← strong_ref (inode parent_data);
           let kept := match migration_info d with Some mi => negb (has_path mi) | None => false end in
           if kept then drop_ref parent_strong_ref
           else
             put_migration_info i None;;
             mi ← migration_info_new parent_strong_ref filename (file_or_handle d);
             put_migration_info i (Some mi))
          (drop_ref i)
    end.
End Passthrough.
