(* ===== verification/PassthroughOps.v ===== *)
(** * The passthrough file system: the operations (src/passthrough/mod.rs)

    The methods of the [FileSystem] trait, built from the lookups and guards of
    [Passthrough], and the file system they make up.  A method that reads [errno]
    late, after other calls, is written with [raw] and [check_last].

    [rounds] bounds the loops whose end is up to the host: the calls of a directory
    listing until it has reached its offset, and the writes that write nothing.  A
    loop that needs more rounds ends in a panic here. *)

From S2P Require Import Prelude OpenFlags Libc FileHandle InodeStore DentryIndex FuseTypes.
From S2P Require Import FuseWire Descriptor SoftIdMap XattrMap FileSystem Host Credentials ReadDir.
From S2P Require Import Paths MountFds Passthrough.

(** [Vec::resize] with zeros. *)
Definition resize (l : bytes) (n : nat) : bytes := take n (l ++ replicate n 0).

(** [mode as libc::mode_t]. *)
Definition as_mode_t (os : HostOs) (mode : Z) : Z :=
  match os with HostLinux _ => mode | HostMacos => mode mod 2 ^ 16 end.

Definition POSIX_ACL_ACCESS_XATTR : bytes := text "system.posix_acl_access".

Definition should_clear_sgid_for_setxattr (posix_acl : bool) (extra_flags : Z) (name : bytes)
  : bool :=
  posix_acl && has_all extra_flags SETXATTR_ACL_KILL_SGID &&
  bool_decide (name = POSIX_ACL_ACCESS_XATTR).

(** A table in the order of its keys. *)
Definition fh_le (a b : Z * HandleData) : Prop := a.1 <= b.1.

#[export] Instance fh_le_dec : RelDecision fh_le.
Proof. intros a b. unfold fh_le. apply _. Defined.

Definition handles_in_order (m : gmap Z HandleData) : list HandleData :=
  (merge_sort fh_le (map_to_list m)).*2.

Section Operations.
Context {W M : Type} `{Host W} `{RangeMap M MapEntry}.
Context (checks : bool) (os : HostOs) (fs : Setup M) (rounds : nat).

Local Notation state := (PassthroughFs W).
Local Notation IO := (eff state).
Local Notation with_inode := (with_inode checks fs).
Local Notation with_file := (with_file os).
Local Notation open_inode := (open_inode os fs).
Local Notation open_file := (open_file os fs).
Local Notation get_file := (get_file os).
Local Notation killing_priv := (killing_priv os).
Local Notation guest_file_drop := (guest_file_drop checks fs).
Local Notation drop_file_or_handle := (drop_file_or_handle checks fs).
Local Notation change_store := (change_store checks fs).
Local Notation with_credentials := (with_credentials checks os fs).
Local Notation do_lookup := (do_lookup checks os fs).
Local Notation invalidating := (invalidating checks os fs).
Local Notation update_inode_migration_info := (update_inode_migration_info checks os fs).
Local Notation in_proc_self_fd := (in_proc_self_fd fs).
Local Notation at_path_for_fd := (at_path_for_fd os fs).
Local Notation open_relative_to := (open_relative_to os fs).

(** ** Extended attribute names *)

Definition block_xattr (name : bytes) : IO bool :=
  acl ← gets (fun s : state => posix_acl (opts s));
  mret (negb acl && (starts_with name (text "system.posix_acl_access") ||
                     starts_with name (text "system.posix_acl_default"))).

Definition map_client_xattrname (name : bytes) : IO bytes :=
  blocked ← block_xattr name;
  if blocked : bool then throw (Os (host_ENOTSUP os))
  else
    match xattrmap (cfg fs) with
    | Some map =>
        match map_client_xattr map name with
        | Ok Deny => throw (Os EPERM)
        | Ok UnsupportedName => throw (Os (host_ENOTSUP os))
        | Ok (Pass new_name) => mret new_name
        | _ => lift Panic
        end
    | None => mret name
    end.

(** The names that are not blocked, each with its terminating NUL. *)
Fixpoint filter_blocked (names : list bytes) : IO bytes :=
  match names with
  | [] => mret []
  | name :: rest =>
      blocked ← block_xattr name;
      filtered ← filter_blocked rest;
      mret (if blocked : bool then filtered else name ++ 0 :: filtered)
  end.

Definition map_server_xattrlist (xattr_names : bytes) : IO bytes :=
  all_xattrs ← match xattrmap (cfg fs) with
               | Some map =>
                   match XattrMap.map_server_xattrlist map xattr_names with
                   | Ok l => mret l
                   | _ => lift Panic
                   end
               | None => mret xattr_names
               end;
  filter_blocked (filter (fun name => name <> []) (split_on 0 all_xattrs)).

(** ** Privileges of files *)

Definition clear_file_capabilities (fd file_type : Z) (o_path : bool) : IO unit :=
  match xattr_security_capability (cfg fs) with
  | None => mret tt
  | Some xattrname =>
      if negb (is_regular_file file_type) then mret tt
      else
        res ← (if o_path then in_proc_self_fd (hosted (raw (SysRemovexattr (show fd) xattrname)))
               else hosted (raw (SysFremovexattr fd xattrname)));
        match res with
        | Some _ => mret tt
        | None =>
            eno ← hosted last_os_error;
            if bool_decide (raw_os_error eno = Some (host_ENODATA os) \/
                            raw_os_error eno = Some (host_ENOTSUP os))
            then mret tt else throw eno
        end
  end.

Definition clear_sgid (fd : Z) (o_path : bool) : IO unit :=
  st ← hosted (statx os fd None);
  let mode := Z.ldiff (Z.land (st_mode (Host.st st)) 0xFFF) S_ISGID in
  if o_path then
    '(dirfd, path) ← at_path_for_fd fd;
    if is_utf8 path then sysc (SysFchmodat dirfd path mode 0) else throw (Custom InvalidData)
  else sysc (SysFchmod fd mode).

(** ** Open files *)

Definition guest_open_flags (fl : Z) : HostOpenFlags :=
  translate_linux_open_flags os (as_i32 fl) (guest_arch (cfg fs)).

Definition apply_nocache (fd : Z) (regular nocache : bool) : IO unit :=
  match os with
  | HostLinux _ => mret tt
  | HostMacos =>
      if negb nocache || negb (allow_direct_io (cfg fs)) || negb regular then mret tt
      else sysc (SysNocache fd)
  end.

(** [self.next_handle.fetch_add(1)] *)
Definition new_handle : IO Z :=
  h ← gets next_handle;
  modify (set_next_handle ((h + 1) mod 2 ^ 64));;
  mret h.

Definition drop_handle (hd : HandleData) : IO unit :=
  match hd_file hd with HandleFile fd => guest_file_drop fd | HandleInvalid _ => mret tt end.

(** [self.handles.insert(..)], which drops what it replaces. *)
Definition insert_handle (h : Z) (hd : HandleData) : IO unit :=
  old ← gets (fun s : state => handles s !! h);
  modify (fun s : state => set_handles (<[h := hd]> (handles s)) s);;
  match old with Some hd => drop_handle hd | None => mret tt end.

(** Gives an open file to the guest. *)
Definition hand_out (i fd file_type fl : Z) : IO Z :=
  handle ← new_handle;
  guest_allocate fd;;
  insert_handle handle {| hd_inode := i; hd_file := HandleFile fd; hd_file_type := file_type;
                          hd_migration_info := handle_migration_info_new os fl |};;
  mret handle.

(** The flags [do_open] keeps of the translated ones, as a [u32]. *)
Definition kept_open_flags (fl : Z) : Z :=
  let fl := Z.ldiff (as_u32 fl) (O_APPEND os) in
  if clean_noatime (cfg fs) then Z.ldiff fl (O_NOATIME os) else fl.

Definition open_options (fl : Z) : Z :=
  let dir := has_any fl (O_DIRECTORY os) in
  match cache_policy (cfg fs) with
  | CacheNever => if dir then 0 else OpenOptions_DIRECT_IO
  | CacheMetadata =>
      if dir then Z.lor OpenOptions_CACHE_DIR OpenOptions_KEEP_CACHE else OpenOptions_DIRECT_IO
  | CacheAlways =>
      Z.lor OpenOptions_KEEP_CACHE (if dir then OpenOptions_CACHE_DIR else 0)
  | CacheAuto => 0
  end.

Definition do_open (i : Z) (kill_priv : bool) (host_flags : HostOpenFlags) : IO (option Z * Z) :=
  let fl := kept_open_flags (flags host_flags) in
  with_inode i (fun d =>
    let file_type := file_type_from_mode (mode d) in
    file ← killing_priv (killpriv_v2 (cfg fs) && kill_priv) (open_inode d (as_i32 fl));
    on_failure
      (apply_nocache file (is_regular_file file_type) (nocache host_flags);;
       when_ (has_any fl (O_TRUNC os)) (clear_file_capabilities file file_type false))
      (hosted (close file));;
    handle ← hand_out i file file_type (as_i32 fl);
    mret (Some handle, open_options fl)).

Definition do_release (i handle : Z) : IO unit :=
  e ← gets (fun s : state => handles s !! handle);
  match e with
  | Some hd =>
      if hd_inode hd =? i then
        modify (fun s : state => set_handles (delete handle (handles s)) s);;
        drop_handle hd
      else throw ebadf
  | None => throw ebadf
  end.

(** [self.find_handle(handle, inode)?.file.get()?] *)
Definition handle_fd (handle i : Z) : IO Z :=
  hd ← find_handle handle i;
  lift (handle_file_get (hd_file hd)).

(** ** Attributes and removal *)

Definition do_getattr (i : Z) : IO (Attr * Duration) :=
  with_inode i (fun d =>
    with_file d (fun fd =>
      st ← hosted (statx os fd None);
      attr ← lift (try_from_stat64 checks fs (Host.st st));
      mret (attr, cfg_attr_timeout (cfg fs)))).

Definition do_unlink (parent : Z) (name : bytes) (fl : Z) : IO unit :=
  with_inode parent (fun d =>
    with_file d (fun parent_file =>
      res ← invalidating d name (hosted (raw (SysUnlinkat parent_file name fl)));
      check_last res;;
      dentry_index_remove parent name)).

(** ** Creating *)

(** A descriptor that is returned raw is not closed when its file cannot be
    labelled. *)
Definition do_create (ctx : Context) (parent_file : Z) (name : bytes) (mode fl umask : Z)
  (ext : Extensions) : IO Z :=
  fd ← with_credentials ctx ext
         (with_umask umask
            (open_relative_to parent_file name (Z.lor fl (Z.lor (O_CREAT os) (O_EXCL os)))
               (Some mode)));
  match ext_secctx ext with
  | None => mret fd
  | Some secctx =>
      xattr_name ← attempt (map_client_xattrname (secctx_name secctx));
      match xattr_name with
      | Ok xattr_name =>
          ret ← hosted (raw (SysFsetxattr fd xattr_name (secctx_value secctx) 0));
          match ret with
          | Some _ => mret fd
          | None => ignore (sysc (SysUnlinkat parent_file name 0));; check_last None
          end
      | Err e => ignore (sysc (SysUnlinkat parent_file name 0));; throw e
      | Panic => lift Panic
      end
  end.

Definition do_mknod_mkdir_symlink_secctx (parent_file : Z) (name : bytes) (secctx : SecContext)
  : IO unit :=
  xattr_name ← map_client_xattrname (secctx_name secctx);
  path_fd ← open_relative_to parent_file name (O_PATH_OR_RDONLY os) None;
  in_proc_self_fd (sysc (SysSetxattr (show path_fd) xattr_name (secctx_value secctx) 0)).

(** A node that cannot be labelled goes again. *)
Definition label_node (parent_file : Z) (name : bytes) (ext : Extensions) (unlink_flags : Z)
  : IO unit :=
  match ext_secctx ext with
  | Some secctx =>
      labelled ← attempt (do_mknod_mkdir_symlink_secctx parent_file name secctx);
      match labelled with
      | Ok _ => mret tt
      | Err e => ignore (sysc (SysUnlinkat parent_file name unlink_flags));; throw e
      | Panic => lift Panic
      end
  | None => mret tt
  end.

(** What [mkdir], [mknod] and [symlink] share: the call as the user of the request,
    the label of the new file, and its lookup. *)
Definition make_node (ctx : Context) (parent : Z) (name : bytes) (ext : Extensions)
  (unlink_flags : Z) (call : Z -> IO (option unit)) : IO Entry :=
  with_inode parent (fun d =>
    with_file d (fun parent_file =>
      res ← invalidating d name (with_credentials ctx ext (call parent_file));
      check_last res;;
      label_node parent_file name ext unlink_flags;;
      do_lookup parent name)).

(** ** Setting up and tearing down *)

Definition insert_root (st : StatExt) (foh : FileOrHandle) : IO unit :=
  mi ← attempt (migration_info_new_root os fs foh);
  store ← gets inodes;
  let d := {| inode := ROOT_ID; file_or_handle := foh; refcount := 2; ids := ids_of st;
              mode := as_u32 (st_mode (Host.st st));
              migration_info := match mi with Ok mi => Some mi | _ => None end |} in
  let '(store', r) := new_inode store d in
  change_store store';;
  on_failure (lift r) (drop_file_or_handle foh).

Definition open_root_node : IO unit :=
  path_fd ← hosted (util_openat (AT_FDCWD os) (root_dir (cfg fs))
              (Z.lor (Z.lor (O_PATH_OR_RDONLY os) (O_NOFOLLOW os)) (O_CLOEXEC os)));
  '(st, handle) ← on_failure
    (st ← hosted (statx os path_fd None);
     handle ← get_file_handle_opt os fs path_fd st;
     mret (st, handle))
    (hosted (close path_fd));
  match handle with
  | Some h =>
      finally
        (openable ← make_file_handle_openable os fs h;
         insert_root st (Handle openable))
        (hosted (close path_fd))
  | None => guest_allocate path_fd;; insert_root st (File path_fd)
  end.

Definition destroy : IO unit :=
  hs ← gets handles;
  modify (set_handles ∅);;
  each drop_handle (handles_in_order hs);;
  store ← gets inodes;
  change_store (inode_clear store);;
  modify (set_opts nothing_negotiated).

(** One negotiable option: whether it is on. *)
Definition negotiate (m : NegotiationMode) (supported : bool) : io bool :=
  match m with
  | NegNever => Ok false
  | NegAuto => Ok supported
  | NegAlways => if supported then Ok true else Err (Os (host_EPROTO os))
  end.

Definition acl_required_flags : Z := Z.lor POSIX_ACL (Z.lor DONT_MASK SETXATTR_EXT).

Definition when_flag (b : bool) (fl : Z) : Z := if b then fl else 0.

(** The options of the file system that are stored as soon as they are negotiated:
    an error leaves the earlier ones set. *)
Definition set_posix_acl (b : bool) (o : NegotiatedOpts) : NegotiatedOpts :=
  {| writeback := writeback o; announce_submounts := announce_submounts o; posix_acl := b;
     sup_group_extension := sup_group_extension o |}.

Definition set_sup_group_extension (b : bool) (o : NegotiatedOpts) : NegotiatedOpts :=
  {| writeback := writeback o; announce_submounts := announce_submounts o;
     posix_acl := posix_acl o; sup_group_extension := b |}.

Definition change_opts (f : NegotiatedOpts -> NegotiatedOpts) : IO unit :=
  modify (fun s : state => set_opts (f (opts s)) s).

Definition negotiate_options (capable : Z) : IO Z :=
  let c := cfg fs in
  let wb := cfg_writeback c && has_all capable WRITEBACK_CACHE in
  let submounts := cfg_announce_submounts c && has_all capable SUBMOUNTS in
  let killpriv := killpriv_v2 c && has_all capable HANDLE_KILLPRIV_V2 in
  change_opts (fun _ => {| writeback := wb; announce_submounts := submounts; posix_acl := false;
                           sup_group_extension := false |});;
  acl ← lift (negotiate (cfg_posix_acl c) (has_all capable acl_required_flags));
  change_opts (set_posix_acl acl);;
  label ← lift (negotiate (security_label c) (has_all capable SECURITY_CTX));
  change_opts (set_sup_group_extension (has_all capable CREATE_SUPP_GROUP));;
  mret (foldr Z.lor 0
    [when_flag (readdirplus c) (Z.lor DO_READDIRPLUS READDIRPLUS_AUTO);
     when_flag wb WRITEBACK_CACHE; when_flag killpriv HANDLE_KILLPRIV_V2;
     when_flag acl acl_required_flags; when_flag label SECURITY_CTX;
     when_flag (allow_mmap c) DIRECT_IO_ALLOW_MMAP]).

Definition init (capable : Z) : IO Z :=
  destroy;;
  open_root_node;;
  negotiate_options capable.

(** ** Lookups and forgetting *)

Definition lookup (parent : Z) (name : bytes) : IO Entry := do_lookup parent name.

(** The dentry index forgets an inode that has left the store. *)
Definition forget_dentries (i : Z) : IO unit :=
  gone ← gets (fun s : state => bool_decide (store_get (inodes s) i = None));
  when_ gone (dentry_index_forget i).

Definition forget (i count : Z) : IO unit :=
  store ← gets inodes;
  change_store (forget_one store i count);;
  forget_dentries i.

Definition batch_forget (requests : list (Z * Z)) : IO unit :=
  store ← gets inodes;
  change_store (forget_many store requests);;
  each forget_dentries requests.*1.

(** ** Files and directories *)

Definition statfs (i : Z) : IO Statvfs :=
  with_inode i (fun d => with_file d (fun fd => sysc (SysFstatvfs fd))).

Definition opendir (i fl : Z) : IO (option Z * Z) :=
  let host_flags := guest_open_flags fl in
  do_open i false {| flags := Z.lor (flags host_flags) (O_DIRECTORY os);
                     nocache := nocache host_flags |}.

Definition releasedir (i handle : Z) : IO unit := do_release i handle.

Definition mkdir (ctx : Context) (parent : Z) (name : bytes) (mode umask : Z) (ext : Extensions)
  : IO Entry :=
  make_node ctx parent name ext (AT_REMOVEDIR os) (fun parent_file =>
    with_umask umask (hosted (raw (SysMkdirat parent_file name (as_mode_t os mode))))).

Definition mknod (ctx : Context) (parent : Z) (name : bytes) (mode rdev umask : Z)
  (ext : Extensions) : IO Entry :=
  make_node ctx parent name ext 0 (fun parent_file =>
    with_umask umask (hosted (raw (SysMknodat parent_file name (as_mode_t os mode)
                                     (match os with HostLinux _ => rdev | HostMacos => as_i32 rdev end))))).

Definition symlink (ctx : Context) (linkname : bytes) (parent : Z) (name : bytes)
  (ext : Extensions) : IO Entry :=
  make_node ctx parent name ext 0 (fun parent_file =>
    hosted (raw (SysSymlinkat linkname parent_file name))).

Definition rmdir (parent : Z) (name : bytes) : IO unit := do_unlink parent name (AT_REMOVEDIR os).

Definition unlink (parent : Z) (name : bytes) : IO unit := do_unlink parent name 0.

Definition readdir (i handle size offset : Z) : IO ReadDir :=
  if size =? 0 then mret (readdir_default os)
  else
    dir ← handle_fd handle i;
    rd ← hosted (readdir_new checks os rounds dir offset size);
    lift (unwrap rd).

Definition open (i : Z) (kill_priv : bool) (fl : Z) : IO (option Z * Z) :=
  do_open i kill_priv (guest_open_flags fl).

Definition release (i handle : Z) : IO unit := do_release i handle.

Definition create_options : Z :=
  match cache_policy (cfg fs) with
  | CacheNever | CacheMetadata => OpenOptions_DIRECT_IO
  | CacheAlways => OpenOptions_KEEP_CACHE
  | CacheAuto => 0
  end.

(** The lookup of the file that has been created, or that was there before and is
    opened instead. *)
Definition create_lookup (parent : Z) (name : bytes) (host_flags : HostOpenFlags) (fd : io Z)
  : IO Entry :=
  match fd with
  | Ok fd =>
      on_failure (apply_nocache fd true (nocache host_flags);; do_lookup parent name)
        (hosted (close fd))
  | Err last_error =>
      if bool_decide (error_kind_of last_error = AlreadyExists) &&
         negb (has_any (flags host_flags) (O_EXCL os))
      then do_lookup parent name
      else throw last_error
  | Panic => lift Panic
  end.

(** A failure here leaves the reference of the lookup behind. *)
Definition create_open (entry : Entry) (mode : Z) (kill_priv : bool) (host_flags : HostOpenFlags)
  (fd : io Z) : IO Z :=
  match fd with
  | Ok fd => hand_out (entry_inode entry) fd (file_type_from_mode mode) (flags host_flags)
  | _ =>
      '(handle, _) ← do_open (entry_inode entry) kill_priv host_flags;
      lift (ok_or handle ebadf)
  end.

Definition create (ctx : Context) (parent : Z) (name : bytes) (mode : Z) (kill_priv : bool)
  (fl umask : Z) (ext : Extensions) : IO (Entry * option Z * Z) :=
  with_inode parent (fun d =>
    with_file d (fun parent_file =>
      let host_flags := guest_open_flags fl in
      fd ← attempt (do_create ctx parent_file name mode (Z.ldiff (flags host_flags) (O_APPEND os))
                      umask ext);
      entry ← create_lookup parent name host_flags fd;
      handle ← create_open entry mode kill_priv host_flags fd;
      mret (entry, Some handle, create_options))).

(** ** Data

    The descriptor as the file of the zero-copy transfers of [Descriptor]: reading
    gathers what goes into the guest's buffers, writing sends what is in them. *)

Definition preadv_file (fd : Z) : VectoredFile (world W * bytes) :=
  {| xfer '(w, stored) bufs off :=
       match sys (SysPreadv fd (total_len bufs) off) w with
       | (w, Ok data) => ((w, stored ++ data), Ok (blen data))
       | (w, Err e) => ((w, stored), Err e)
       | (w, Panic) => ((w, stored), Panic)
       end |}.

(** Darwin's [pwritev] takes no flags (src/oslib.rs). *)
Definition pwritev_file (fd fl : Z) : VectoredFile (world W) :=
  {| xfer w bufs off :=
       sys (SysPwritev fd (concat bufs) off (match os with HostLinux _ => fl | HostMacos => 0 end)) w |}.

(** What is stored when the transfer fails has still gone into the guest's memory. *)
Definition read (i handle : Z) (w : writer) (size offset : Z) (s : state)
  : state * writer * io Z :=
  match handle_fd handle i s with
  | (s, Ok fd) =>
      let '((wd, stored), r) :=
        zc_transfer (H := preadv_file fd) (fs_world s, []) (w_chain w) size offset in
      let c := match r with Ok (_, c) => c | _ => w_chain w end in
      (set_fs_world wd s, {| w_chain := c; w_out := w_out w ++ stored |},
       match r with Ok (n, _) => Ok n | Err e => Err e | Panic => Panic end)
  | (s, Err e) => (s, w, Err e)
  | (s, Panic) => (s, w, Panic)
  end.

Definition write (i handle : Z) (r : consumer) (size offset : Z) (delayed_write kill_priv : bool)
  (fl : Z) : IO Z :=
  hd ← find_handle handle i;
  fd ← lift (handle_file_get (hd_file hd));
  killing_priv (killpriv_v2 (cfg fs) && kill_priv)
    (clear_file_capabilities fd (hd_file_type hd) false;;
     let is_append := has_any fl (O_APPEND os) in
     let fl := if negb delayed_write && is_append then RWF_APPEND else 0 in
     '(n, _) ← hosted (fun w => zc_transfer (H := pwritev_file fd fl) w r size offset);
     mret n).

Definition getattr (i : Z) : IO (Attr * Duration) := do_getattr i.

(** ** Changing attributes *)

Inductive Data := DataHandle (fd : Z) | ProcPath (fd : Z).

Definition setattr_mode (attr : SetattrIn) (dt : Data) : IO unit :=
  let mode := as_mode_t os (setattr_in_mode attr) in
  match dt with
  | DataHandle fd => sysc (SysFchmod fd mode)
  | ProcPath fd => '(dirfd, p) ← at_path_for_fd fd; sysc (SysFchmodat dirfd p mode 0)
  end.

Definition setattr_owner (attr : SetattrIn) (valid fd file_type : Z) : IO unit :=
  uid ← lift (if has_all valid SetattrValid_UID
              then map_guest_uid checks fs (setattr_in_uid attr) else Ok u32_max);
  gid ← lift (if has_all valid SetattrValid_GID
              then map_guest_gid checks fs (setattr_in_gid attr) else Ok u32_max);
  clear_file_capabilities fd file_type true;;
  match os with
  | HostLinux _ =>
      sysc (SysFchownat fd [] uid gid (Z.lor AT_EMPTY_PATH (AT_SYMLINK_NOFOLLOW os)))
  | HostMacos => sysc (SysFchown fd uid gid)
  end.

Definition setattr_size (attr : SetattrIn) (valid file_type : Z) (dt : Data) : IO unit :=
  let fd := match dt with DataHandle fd => fd | ProcPath fd => fd end in
  killing_priv (killpriv_v2 (cfg fs) && has_all valid SetattrValid_KILL_SUIDGID)
    (clear_file_capabilities fd file_type false;;
     sysc (SysFtruncate fd (as_i64 (setattr_in_size attr)))).

(** One of the two time stamps [futimens] takes. *)
Definition new_time (valid now_flag flag sec nsec : Z) : Timespec :=
  if has_all valid now_flag then {| tv_sec := 0; tv_nsec := UTIME_NOW os |}
  else if has_all valid flag then {| tv_sec := as_i64 sec; tv_nsec := nsec |}
  else {| tv_sec := 0; tv_nsec := UTIME_OMIT os |}.

Definition setattr_times (attr : SetattrIn) (valid : Z) (dt : Data) : IO unit :=
  let atime := new_time valid SetattrValid_ATIME_NOW SetattrValid_ATIME
                 (setattr_in_atime attr) (setattr_in_atimensec attr) in
  let mtime := new_time valid SetattrValid_MTIME_NOW SetattrValid_MTIME
                 (setattr_in_mtime attr) (setattr_in_mtimensec attr) in
  match dt with
  | DataHandle fd => sysc (SysFutimens fd atime mtime)
  | ProcPath fd =>
      '(dirfd, p) ← at_path_for_fd fd; sysc (SysUtimensat dirfd p atime mtime 0)
  end.

Definition setattr (i : Z) (attr : SetattrIn) (handle : option Z) (valid : Z)
  : IO (Attr * Duration) :=
  with_inode i (fun d =>
    let file_type := file_type_from_mode (mode d) in
    inode_file ←
      (if bool_decide (handle = None) && has_any valid SetattrValid_SIZE
       then fd ← open_file d (Z.lor (O_NONBLOCK os) O_RDWR); mret {| raw_fd := fd; owned := true |}
       else get_file d);
    finally
      (dt ← match handle with
            | Some h => fd ← handle_fd h i; mret (DataHandle fd)
            | None => mret (ProcPath (raw_fd inode_file))
            end;
       when_ (has_all valid SetattrValid_MODE) (setattr_mode attr dt);;
       when_ (has_any valid (Z.lor SetattrValid_UID SetattrValid_GID))
         (setattr_owner attr valid (raw_fd inode_file) file_type);;
       when_ (has_all valid SetattrValid_SIZE) (setattr_size attr valid file_type dt);;
       when_ (has_any valid (Z.lor SetattrValid_ATIME SetattrValid_MTIME))
         (setattr_times attr valid dt);;
       do_getattr i)
      (inode_file_drop inode_file)).

(** ** Names *)

Definition rename_call (old_file : Z) (oldname : bytes) (new_file : Z) (newname : bytes) (fl : Z)
  : IO (option unit) :=
  match os with
  | HostLinux _ => hosted (raw (SysRenameat2 old_file oldname new_file newname fl))
  | HostMacos =>
      if fl =? 0 then hosted (raw (SysRenameat old_file oldname new_file newname))
      else if fl =? 1 then hosted (raw (SysRenameatxNp old_file oldname new_file newname RENAME_EXCL))
      else if fl =? 2 then hosted (raw (SysRenameatxNp old_file oldname new_file newname RENAME_SWAP))
      else throw einval
  end.

Definition rename (olddir : Z) (oldname : bytes) (newdir : Z) (newname : bytes) (fl : Z)
  : IO unit :=
  with_inode olddir (fun old_inode => with_inode newdir (fun new_inode =>
    with_file old_inode (fun old_file => with_file new_inode (fun new_file =>
      res ← invalidating new_inode newname (rename_call old_file oldname new_file newname fl);
      check_last res;;
      ignore (update_inode_migration_info new_inode newname);;
      dentry_index_rename olddir oldname newdir newname)))).

Definition link (i newparent : Z) (newname : bytes) : IO Entry :=
  with_inode i (fun d => with_inode newparent (fun new_inode =>
    with_file d (fun inode_file => with_file new_inode (fun newparent_file =>
      '(old_dirfd, procname) ← at_path_for_fd inode_file;
      res ← invalidating new_inode newname
        (hosted (raw (SysLinkat old_dirfd procname newparent_file newname (AT_SYMLINK_FOLLOW os))));
      check_last res;;
      do_lookup newparent newname)))).

Definition readlink (i : Z) : IO bytes :=
  with_inode i (fun d => with_file d (fun fd =>
    match os with
    | HostLinux _ => sysc (SysReadlinkat fd [] (PATH_MAX os))
    | HostMacos =>
        path_buf ← hosted (getpath_buf os fd);
        sysc (SysReadlink (default path_buf (until_nul path_buf)) (PATH_MAX os))
    end)).

(** ** Synchronisation *)

Definition flush (i handle : Z) : IO unit :=
  fd ← handle_fd handle i;
  newfd ← sysc (SysDup fd);
  sysc (SysClose newfd).

Definition fsync (i : Z) (datasync : bool) (handle : Z) : IO unit :=
  fd ← handle_fd handle i;
  sysc (if datasync then SysFdatasync fd else SysFsync fd).

Definition fsyncdir (i : Z) (datasync : bool) (handle : Z) : IO unit := fsync i datasync handle.

Definition syncfs (i : Z) : IO unit :=
  with_inode i (fun d =>
    file ← open_inode d (Z.lor O_RDONLY (O_NOFOLLOW os));
    finally (sysc (match os with HostLinux _ => SysSyncfs file | HostMacos => SysFullfsync file end))
      (hosted (close file))).

(** ** Permissions *)

(** Whether the bits of one class are missing: [bit] is the owner's. *)
Definition denied (st : Stat64) (st_uid st_gid uid gid bit : Z) : bool :=
  (negb (st_uid =? uid) || negb (has_any (st_mode st) bit)) &&
  (negb (st_gid =? gid) || negb (has_any (st_mode st) (Z.shiftr bit 3))) &&
  negb (has_any (st_mode st) (Z.shiftr bit 6)).

Definition access (ctx : Context) (i mask : Z) : IO unit :=
  with_inode i (fun d => with_file d (fun fd =>
    st ← hosted (statx os fd None);
    let st := Host.st st in
    let mode := Z.land (as_i32 mask) (Z.lor R_OK (Z.lor W_OK X_OK)) in
    if mode =? F_OK then mret tt
    else
      st_uid ← lift (map_host_uid checks fs (st_uid st));
      st_gid ← lift (map_host_gid checks fs (st_gid st));
      let root := ctx_uid ctx =? 0 in
      let denied := denied st st_uid st_gid (ctx_uid ctx) (ctx_gid ctx) in
      if has_any mode R_OK && negb root && denied 0x100 then throw (Os EACCES)
      else if has_any mode W_OK && negb root && denied 0x80 then throw (Os EACCES)
      else if has_any mode X_OK && (negb root || negb (has_any (st_mode st) 0x49)) && denied 0x40
      then throw (Os EACCES)
      else mret tt)).

(** ** Extended attributes *)

(** A call on a descriptor of the file if it is safe to open, else on its name in
    /proc/self/fd; [errno] is read after the file is closed. *)
Definition on_xattrs {A} (d : InodeData) (safe : Z -> IO (option A)) (other : Z -> IO (option A))
  : IO A :=
  res ← (if is_safe_inode (mode d) then
           file ← open_inode d (Z.lor O_RDONLY (O_NONBLOCK os));
           finally (safe file) (hosted (close file))
         else with_file d other);
  check_last res.

Definition setxattr (i : Z) (name value : bytes) (fl extra_flags : Z) : IO unit :=
  if negb (xattr (cfg fs)) then throw (Os (host_ENOSYS os))
  else with_inode i (fun d =>
    name ← map_client_xattrname name;
    acl ← gets (fun s : state => posix_acl (opts s));
    let must_clear_sgid := should_clear_sgid_for_setxattr acl extra_flags name in
    let file_type := file_type_from_mode (mode d) in
    on_xattrs d
      (fun file =>
         clear_file_capabilities file file_type false;;
         when_ must_clear_sgid (clear_sgid file false);;
         hosted (raw (SysFsetxattr file name value (as_i32 fl))))
      (fun file =>
         clear_file_capabilities file file_type true;;
         when_ must_clear_sgid (clear_sgid file true);;
         in_proc_self_fd (hosted (raw (SysSetxattr (show file) name value (as_i32 fl)))))).

(** A buffer of [size] bytes after a call has stored [data] and returned [res]. *)
Definition result_buffer (size res : Z) (data : bytes) : bytes :=
  resize (fill (replicate (Z.to_nat size) 0) data) (Z.to_nat res).

Definition getxattr (i : Z) (name : bytes) (size : Z) : IO GetxattrReply :=
  if negb (xattr (cfg fs)) then throw (Os (host_ENOSYS os))
  else
    name ← attempt (map_client_xattrname name);
    name ← lift (map_err (fun e => if bool_decide (error_kind_of e = PermissionDenied)
                                   then Os (host_ENODATA os) else e) name);
    with_inode i (fun d =>
      '(res, data) ← on_xattrs d
        (fun file => hosted (raw (SysFgetxattr file name size)))
        (fun file => in_proc_self_fd (hosted (raw (SysGetxattr (show file) name size))));
      mret (if size =? 0 then Count (as_u32 res) else Value (result_buffer size res data))).

Definition listxattr (i size : Z) : IO ListxattrReply :=
  if negb (xattr (cfg fs)) then throw (Os (host_ENOSYS os))
  else with_inode i (fun d =>
    '(res, data) ← on_xattrs d
      (fun file => hosted (raw (SysFlistxattr file size)))
      (fun file => in_proc_self_fd (hosted (raw (SysListxattr (show file) size))));
    if size =? 0 then mret (NamesCount (as_u32 res))
    else buf ← map_server_xattrlist (result_buffer size res data); mret (Names buf)).

Definition removexattr (i : Z) (name : bytes) : IO unit :=
  if negb (xattr (cfg fs)) then throw (Os (host_ENOSYS os))
  else with_inode i (fun d =>
    name ← map_client_xattrname name;
    on_xattrs d
      (fun file => hosted (raw (SysFremovexattr file name)))
      (fun file => in_proc_self_fd (hosted (raw (SysRemovexattr (show file) name))))).

(** ** Ranges *)

Definition fallocate (i handle mode offset length : Z) : IO unit :=
  fd ← handle_fd handle i;
  match os with
  | HostLinux _ => sysc (SysFallocate fd (as_i32 mode) (as_i64 offset) (as_i64 length))
  | HostMacos => hosted (macos_emulate_fallocate os fd mode offset length)
  end.

Definition lseek (i handle offset whence : Z) : IO Z :=
  fd ← handle_fd handle i;
  native_whence ← lift (translate_linux_seek_whence os (as_i32 whence));
  res ← sysc (SysLseek fd (as_i64 offset) native_whence);
  mret (res mod 2 ^ 64).

(** Addition of file offsets. *)
Definition off_add (a b : Z) : io Z :=
  if checks && (i64_max <? a + b) then Panic else Ok (as_i64 (a + b)).

(** Writes [data] out. *)
Fixpoint write_out (fuel : nat) (fd : Z) (data : bytes) (off_out : Z) : IO unit :=
  match data with
  | [] => mret tt
  | _ =>
      match fuel with
      | O => lift Panic
      | S fuel =>
          n_written ← sysc (SysPwrite fd data off_out);
          off_out ← lift (off_add off_out n_written);
          write_out fuel fd (drop (Z.to_nat n_written) data) off_out
      end
  end.

(** The copy through a buffer on macOS.  Every round takes at least a byte. *)
Fixpoint copy_loop (fuel : nat) (fd_in off_in fd_out off_out buf_len total remaining : Z) : IO Z :=
  if remaining =? 0 then mret total
  else
    match fuel with
    | O => lift Panic
    | S fuel =>
        data ← sysc (SysPread fd_in (Z.min remaining buf_len) off_in);
        if blen data =? 0 then mret total
        else
          write_out (length data + rounds) fd_out data off_out;;
          off_in ← lift (off_add off_in (blen data));
          off_out ← lift (off_add off_out (blen data));
          copy_loop fuel fd_in off_in fd_out off_out buf_len (total + blen data)
            (remaining - blen data)
    end.

Definition copyfilerange (inode_in handle_in offset_in inode_out handle_out offset_out len fl : Z)
  : IO Z :=
  fd_in ← handle_fd handle_in inode_in;
  fd_out ← handle_fd handle_out inode_out;
  match os with
  | HostLinux _ =>
      sysc (SysCopyFileRange fd_in (as_i64 offset_in) fd_out (as_i64 offset_out) len fl)
  | HostMacos =>
      copy_loop (Z.to_nat len) fd_in (as_i64 offset_in) fd_out (as_i64 offset_out)
        (Z.min len (1024 * 1024)) 0 len
  end.

(** The methods the file system leaves to the trait (src/filesystem.rs). *)
Definition not_implemented : IO unit := throw (Os (host_ENOSYS os)).
End Operations.

(** ** Construction *)

Section Construction.
Context {W M : Type} `{Host W} `{RangeMap M MapEntry}.
Context (checks : bool) (os : HostOs).

Local Notation IO := (eff (PassthroughFs W)).

(** The configuration a file system keeps: what [new] took out of it is gone. *)
Definition config_kept (c : Config) (capability : option bytes) (mode : InodeFileHandlesMode)
  : Config :=
  {| cfg_entry_timeout := cfg_entry_timeout c; cfg_attr_timeout := cfg_attr_timeout c;
     cache_policy := cache_policy c; cfg_writeback := cfg_writeback c; root_dir := root_dir c;
     mountinfo_prefix := mountinfo_prefix c; xattr := xattr c; xattrmap := xattrmap c;
     xattr_security_capability := capability; proc_sfd_rawfd := None;
     proc_mountinfo_rawfd := None; cfg_announce_submounts := cfg_announce_submounts c;
     inode_file_handles := mode; readdirplus := readdirplus c;
     allow_direct_io := allow_direct_io c; guest_arch := guest_arch c;
     killpriv_v2 := killpriv_v2 c; cfg_posix_acl := cfg_posix_acl c;
     security_label := security_label c; clean_noatime := clean_noatime c;
     allow_mmap := allow_mmap c; migration_on_error := migration_on_error c;
     migration_verify_handles := migration_verify_handles c;
     migration_confirm_paths := migration_confirm_paths c; migration_mode := migration_mode c;
     cfg_uid_map := None; cfg_gid_map := None; guest_fd_limit := guest_fd_limit c |}.

Definition set_cfg (c : Config) (fs : Setup M) : Setup M :=
  Build_Setup c (uid_map fs) (gid_map fs) (proc_self_fd fs) (orig_wd_fd fs) (has_openat2 fs).

Definition set_handles_mode (mode : InodeFileHandlesMode) (fs : Setup M) : Setup M :=
  set_cfg (config_kept (cfg fs) (xattr_security_capability (cfg fs)) mode) fs.

(** [OsFacts::new] (src/oslib.rs). *)
Definition os_facts_new : eff (world W) bool :=
  match os with
  | HostLinux _ =>
      fd ← attempt (sys (SysOpenat2 (AT_FDCWD os) (text ".") 0 0 0));
      match fd with Ok fd => close fd;; mret true | _ => mret false end
  | HostMacos => mret false
  end.

(** File handles that do not work are switched off, or an error where they are
    mandatory. *)
Definition without_handles (fs : Setup M) (err : io_error) : io (Setup M) :=
  match inode_file_handles (cfg fs) with
  | HandlesNever => Panic
  | HandlesPrefer => Ok (set_handles_mode HandlesNever fs)
  | HandlesMandatory => Err err
  end.

Definition check_working_file_handles (fs : Setup M) : IO (Setup M) :=
  if decide (inode_file_handles (cfg fs) = HandlesNever) then mret fs
  else
    root ← hosted (openat_verbose (AT_FDCWD os) (root_dir (cfg fs))
             (Z.lor (Z.lor (O_PATH_OR_RDONLY os) (O_NOFOLLOW os)) (O_CLOEXEC os)));
    finally
      (st ← hosted (statx os root None);
       h ← get_file_handle_opt os fs root st;
       match h with
       | Some h =>
           openable ← make_file_handle_openable os fs h;
           finally
             (fd ← attempt (openable_open os openable (O_PATH_OR_RDONLY os));
              match fd with
              | Ok fd => hosted (close fd);; mret fs
              | Err e => lift (without_handles fs e)
              | Panic => lift Panic
              end)
             (drop_mount_fd (mount_fd openable))
       | None =>
           if decide (inode_file_handles (cfg fs) = HandlesMandatory) then lift Panic
           else lift (without_handles fs other_io_error)
       end)
      (hosted (close root)).

Definition fresh_state (c : Config) (mf : option MountFds) (w : world W) : PassthroughFs W :=
  Build_PassthroughFs empty_store (ROOT_ID + 1) ∅ 0 (guest_fd_limit c) mf nothing_negotiated
    false None [] [] w.

(** [map.try_into()] under a context. *)
Definition runtime_map (m : option (list CmdlineIdMap)) : io (IdMap M) :=
  match m with
  | Some l => map_err with_context (idmap_try_from checks l)
  | None => Ok idmap_empty
  end.

(** The descriptors and maps; a failure closes what has been opened. *)
Definition prepare (c : Config) : eff (world W) (Setup M * option MountFds) :=
  proc_self_fd ← match proc_sfd_rawfd c with
    | Some fd => mret fd
    | None =>
        match os with
        | HostLinux _ =>
            openat_verbose (AT_FDCWD os) (text "/proc/self/fd")
              (Z.lor (Z.lor (O_PATH_OR_RDONLY os) (O_NOFOLLOW os)) (O_CLOEXEC os))
        | HostMacos =>
            openat_verbose (AT_FDCWD os) (text "/dev")
              (Z.lor (Z.lor O_RDONLY (O_DIRECTORY os)) (O_CLOEXEC os))
        end
    end;
  on_failure
    (orig_wd_fd ← openat_verbose (AT_FDCWD os) (text ".")
       (Z.lor (Z.lor (O_PATH_OR_RDONLY os) (O_DIRECTORY os)) (O_CLOEXEC os));
     on_failure
       (mountinfo ←
          match os with
          | HostLinux _ =>
              if bool_decide (inode_file_handles c = HandlesNever) &&
                 negb (bool_decide (migration_mode c = FileHandles))
              then mret None
              else match proc_mountinfo_rawfd c with
                   | Some fd => mret (Some fd)
                   | None =>
                       fd ← openat_verbose (AT_FDCWD os) (text "/proc/self/mountinfo")
                              (Z.lor (Z.lor O_RDONLY (O_NOFOLLOW os)) (O_CLOEXEC os));
                       mret (Some fd)
                   end
          | HostMacos => mret None
          end;
        '(uids, gids) ← on_failure
          (uids ← lift (runtime_map (cfg_uid_map c)); gids ← lift (runtime_map (cfg_gid_map c));
           mret (uids, gids))
          (drop_option close mountinfo);
        facts ← os_facts_new;
        mret (Build_Setup (config_kept c (xattr_security_capability c) (inode_file_handles c))
                uids gids proc_self_fd orig_wd_fd facts,
              (fun fd => mount_fds_new fd (mountinfo_prefix c)) <$> mountinfo))
       (close orig_wd_fd))
    (close proc_self_fd).

(** [PassthroughFs]'s destructor, as far as [new] needs it. *)
Definition drop_fresh (fs : Setup M) : IO unit :=
  mf ← gets mount_fds;
  hosted (drop_option close (mountinfo <$> mf));;
  hosted (close (proc_self_fd fs));;
  hosted (close (orig_wd_fd fs)).

Definition SECURITY_CAPABILITY : bytes := text "security.capability".

(** What the guest's capability attribute is called on the host, if not the same. *)
Definition mapped_capability (fs : Setup M) : IO (option bytes) :=
  name ← attempt (map_client_xattrname os fs SECURITY_CAPABILITY);
  mret match name with
       | Ok n => if decide (n = SECURITY_CAPABILITY) then None else Some n
       | _ => None
       end.

Definition finish_setup (fs : Setup M) : IO (Setup M) :=
  capability ← mapped_capability fs;
  let mode := match os with HostLinux _ => inode_file_handles (cfg fs) | HostMacos => HandlesNever end in
  fs ← check_working_file_handles (set_cfg (config_kept (cfg fs) capability mode) fs);
  ignore (sysc (SysUmask 0));;
  mret fs.

Definition passthrough_new (c : Config) (w : world W) : world W * io (Setup M * PassthroughFs W) :=
  match prepare c w with
  | (w, Ok (fs, mf)) =>
      match on_failure (finish_setup fs) (drop_fresh fs) (fresh_state c mf w) with
      | (s, Ok fs) => (fs_world s, Ok (fs, s))
      | (s, Err e) => (fs_world s, Err e)
      | (s, Panic) => (fs_world s, Panic)
      end
  | (w, Err e) => (w, Err e)
  | (w, Panic) => (w, Panic)
  end.

Definition enable_dentry_index (s : PassthroughFs W) : PassthroughFs W :=
  set_dentry_index (Some dentry_new) s.

Definition keep_fds (fs : Setup M) : list Z := [proc_self_fd fs].
End Construction.

(** ** The file system

    [forget], [batch_forget] and [destroy] return nothing: they have no errors. *)

Section Instance_.
Context {W M : Type} `{Host W} `{RangeMap M MapEntry}.
Context (checks : bool) (os : HostOs) (fs : Setup M) (rounds : nat).

Definition no_errors (m : eff (PassthroughFs W) unit) (s : PassthroughFs W)
  : PassthroughFs W * res Empty_set unit :=
  match m s with (s', Panic) => (s', Panic) | (s', _) => (s', Ok tt) end.

Definition passthrough_fs : FileSystem (PassthroughFs W) ReadDir := {|
  dir_next := readdir_next checks;
  fs_init s capable := init checks os fs capable s;
  fs_destroy := no_errors (destroy checks fs);
  fs_lookup s _ parent name := lookup checks os fs parent name s;
  fs_forget s _ i count := no_errors (forget checks fs i count) s;
  fs_batch_forget s _ requests := no_errors (batch_forget checks fs requests) s;
  fs_getattr s _ i _ := getattr checks os fs i s;
  fs_setattr s _ i attr handle valid := setattr checks os fs i attr handle valid s;
  fs_readlink s _ i := readlink checks os fs i s;
  fs_symlink s ctx linkname parent name ext := symlink checks os fs ctx linkname parent name ext s;
  fs_mknod s ctx parent name mode rdev umask ext :=
    mknod checks os fs ctx parent name mode rdev umask ext s;
  fs_mkdir s ctx parent name mode umask ext := mkdir checks os fs ctx parent name mode umask ext s;
  fs_unlink s _ parent name := unlink checks os fs parent name s;
  fs_rmdir s _ parent name := rmdir checks os fs parent name s;
  fs_rename s _ olddir oldname newdir newname fl :=
    rename checks os fs olddir oldname newdir newname fl s;
  fs_link s _ i newparent newname := link checks os fs i newparent newname s;
  fs_open s _ i kill_priv fl := open checks os fs i kill_priv fl s;
  fs_create s ctx parent name mode kill_priv fl umask ext :=
    create checks os fs ctx parent name mode kill_priv fl umask ext s;
  fs_read s _ i handle w size offset _ _ := read i handle w size offset s;
  fs_write s _ i handle r size offset _ delayed_write kill_priv fl :=
    write os fs i handle r size offset delayed_write kill_priv fl s;
  fs_flush s _ i handle _ := flush i handle s;
  fs_fsync s _ i datasync handle := fsync i datasync handle s;
  fs_fallocate s _ i handle mode offset length := fallocate os i handle mode offset length s;
  fs_release s _ i _ handle _ _ _ := release checks fs i handle s;
  fs_statfs s _ i := statfs checks os fs i s;
  fs_setxattr s _ i name value fl extra := setxattr checks os fs i name value fl extra s;
  fs_getxattr s _ i name size := getxattr checks os fs i name size s;
  fs_listxattr s _ i size := listxattr checks os fs i size s;
  fs_removexattr s _ i name := removexattr checks os fs i name s;
  fs_opendir s _ i fl := opendir checks os fs i fl s;
  fs_readdir s _ i handle size offset := readdir checks os rounds i handle size offset s;
  fs_fsyncdir s _ i datasync handle := fsyncdir i datasync handle s;
  fs_releasedir s _ i _ handle := releasedir checks fs i handle s;
  fs_access s ctx i mask := access checks os fs ctx i mask s;
  fs_lseek s _ i handle offset whence := lseek os i handle offset whence s;
  fs_copyfilerange s _ i_in h_in off_in i_out h_out off_out len fl :=
    copyfilerange checks os rounds i_in h_in off_in i_out h_out off_out len fl s;
  fs_syncfs s _ i := syncfs checks os fs i s;
  fs_getlk := not_implemented os;
  fs_setlk := not_implemented os;
  fs_setlkw := not_implemented os;
  fs_ioctl := not_implemented os;
  fs_bmap := not_implemented os;
  fs_poll := not_implemented os;
  fs_notify_reply := not_implemented os;
  fs_tmpfile := not_implemented os;
|}.
End Instance_.
