(* ===== verification/Ownership.v ===== *)
(** * Who owns what in the passthrough file system

    A reference to an inode and a slot for a descriptor of the guest are resources:
    an operation may be given some, keep some in the tables of the file system, and
    return some; none may be lost.  [spends k g m t e] says that [m], given the
    resources [g], returns [t a] with a result [a] and [e] with an error, and that
    the books balance all the way: the reference count of every inode is what its
    holders hold, and the free slots and the descriptors of the guest add up to the
    limit.  [k] bounds how often the count of one inode goes up.

    The rules follow the combinators of [Host]; below them are the basic operations
    of src/passthrough/mod.rs and inode_store.rs. *)

From S2P Require Import Prelude OpenFlags Libc FileHandle InodeStore DentryIndex FuseTypes.
From S2P Require Import FuseWire Descriptor SoftIdMap XattrMap FileSystem Host Credentials ReadDir.
From S2P Require Import Paths MountFds Passthrough.

(** ** Resources *)

(** References and descriptors somebody holds. *)
Record loot := { refs : list Z; files : Z }.

Definition nothing : loot := {| refs := []; files := 0 |}.
Definition ref (i : Z) : loot := {| refs := [i]; files := 0 |}.
Definition refs_of (l : list Z) : loot := {| refs := l; files := 0 |}.
Definition files_of (n : Z) : loot := {| refs := []; files := n |}.
Definition both (a b : loot) : loot := {| refs := refs a ++ refs b; files := files a + files b |}.

(** What everybody outside the file system's tables holds. *)
Record owned := { held : Z -> Z; loose : Z }.

Definition gain (b : owned) (g : loot) : owned :=
  {| held := fun j => held b j + occ (refs g) j; loose := loose b + files g |}.

Definition same (g g' : loot) : Prop := (forall p, occ (refs g) p = occ (refs g') p) /\ files g = files g'.

#[export] Instance same_equiv : Equivalence same.
Proof.
  split; [by intros []|by intros ?? []|]. intros ??? [H1 ?] [H2 ?]. split; [|congruence].
  intros p. by rewrite H1.
Qed.

(** Resources that are the same up to order. *)
Ltac balance :=
  split; [let p := fresh "p" in intros p|]; cbn [refs files nothing ref refs_of files_of both];
  rewrite ?occ_app, ?occ_cons, ?occ_nil; lia.

(** ** Descriptors of the guest *)

Definition file_count (foh : FileOrHandle) : Z := match foh with File _ => 1 | _ => 0 end.

Fixpoint files_in (l : list InodeData) : Z :=
  match l with [] => 0 | d :: l' => file_count (file_or_handle d) + files_in l' end.

Definition handle_count (hd : HandleData) : Z :=
  match hd_file hd with HandleFile _ => 1 | HandleInvalid _ => 0 end.

Fixpoint handles_count (l : list HandleData) : Z :=
  match l with [] => 0 | hd :: l' => handle_count hd + handles_count l' end.

Definition stored_files (m : gmap Z InodeData) : Z := files_in (map_to_list m).*2.
Definition open_files (m : gmap Z HandleData) : Z := handles_count (map_to_list m).*2.

(** The descriptors the tables hold for the guest.  What an operation opens for as long as
    it runs, or forgets to close, is not among them. *)
Definition guest_files {W} (s : PassthroughFs W) : Z :=
  stored_files (data (inodes s)) + files_in (unlinked s) + open_files (handles s).

Lemma files_in_app l k : files_in (l ++ k) = files_in l + files_in k.
Proof. induction l; simpl; lia. Qed.

Lemma files_in_nonneg l : 0 <= files_in l.
Proof. induction l as [|d l IH]; simpl; [done|]. unfold file_count. case_match; lia. Qed.

#[export] Instance files_in_proper : Proper ((≡ₚ) ==> (=)) files_in.
Proof. induction 1; simpl; lia. Qed.

Lemma files_in_filter (P : InodeData -> Prop) `{!forall d, Decision (P d)} l :
  files_in l = files_in (filter P l) + files_in (filter (fun d => ~ P d) l).
Proof.
  induction l as [|d l IH]; [done|]. rewrite !filter_cons. simpl.
  destruct (decide (P d)), (decide (~ P d)); simpl; try tauto; lia.
Qed.

Lemma handles_count_nonneg l : 0 <= handles_count l.
Proof. induction l as [|d l IH]; simpl; [done|]. unfold handle_count. case_match; lia. Qed.

#[export] Instance handles_count_proper : Proper ((≡ₚ) ==> (=)) handles_count.
Proof. induction 1; simpl; lia. Qed.

Lemma stored_files_insert m i d :
  m !! i = None -> stored_files (<[i := d]> m) = file_count (file_or_handle d) + stored_files m.
Proof. intros Hi. unfold stored_files. by rewrite map_to_list_insert. Qed.

Lemma stored_files_delete m i d :
  m !! i = Some d -> stored_files m = file_count (file_or_handle d) + stored_files (delete i m).
Proof.
  intros Hi. rewrite <- (stored_files_insert _ i), insert_delete_id; [done..|].
  apply lookup_delete_eq.
Qed.

Lemma open_files_insert m h hd :
  m !! h = None -> open_files (<[h := hd]> m) = handle_count hd + open_files m.
Proof. intros Hi. unfold open_files. by rewrite map_to_list_insert. Qed.

Lemma open_files_delete m h hd :
  m !! h = Some hd -> open_files m = handle_count hd + open_files (delete h m).
Proof.
  intros Hi. rewrite <- (open_files_insert _ h), insert_delete_id; [done..|].
  apply lookup_delete_eq.
Qed.

Lemma open_files_nonneg m : 0 <= open_files m.
Proof. apply handles_count_nonneg. Qed.

Lemma stored_files_nonneg m : 0 <= stored_files m.
Proof. apply files_in_nonneg. Qed.

(** [m'] is [m] without some of its entries; what else may differ does not matter. *)
Definition thinned (m m' : gmap Z InodeData) : Prop :=
  forall i d', m' !! i = Some d' -> exists d, m !! i = Some d /\ file_or_handle d' = file_or_handle d.

#[export] Instance thinned_preorder : PreOrder thinned.
Proof.
  split; [by intros m i d Hd; eauto|]. intros m1 m2 m3 H1 H2 i d Hd.
  destruct (H2 _ _ Hd) as (d2 & Hd2 & ->). destruct (H1 _ _ Hd2) as (d1 & ? & ->). eauto.
Qed.

Definition lost (m m' : gmap Z InodeData) : list InodeData :=
  filter (fun d => m' !! inode d = None) (map_to_list m).*2.

Lemma filter_ext_in {A} (P Q : A -> Prop) `{!forall x, Decision (P x), !forall x, Decision (Q x)}
  (l : list A) :
  (forall x, x ∈ l -> P x <-> Q x) -> filter P l = filter Q l.
Proof.
  induction l as [|x l IH]; intros Hx; [done|]. rewrite !filter_cons, IH by set_solver.
  destruct (decide (P x)), (decide (Q x)); try done; exfalso; set_solver.
Qed.

Lemma lost_files m m' :
  (forall i d, m !! i = Some d -> inode d = i) -> thinned m m' ->
  stored_files m = files_in (lost m m') + stored_files m'.
Proof.
  unfold lost. revert m'. induction m as [|i d m Hi IH] using map_ind; intros m' Hk Ht.
  - assert (m' = ∅) as ->; [|done]. apply map_empty. intros i. apply eq_None_not_Some.
    intros [d' Hd']. destruct (Ht _ _ Hd') as (d & Hd & _). by rewrite lookup_empty in Hd.
  - assert (inode d = i) as Hd by (apply Hk, lookup_insert_eq).
    assert (Hk' : forall j e, m !! j = Some e -> inode e = j).
    { intros j e He. apply Hk. rewrite lookup_insert_ne; [done|]. intros ->. congruence. }
    rewrite stored_files_insert, map_to_list_insert by done. csimpl.
    rewrite filter_cons, Hd. destruct (m' !! i) as [d'|] eqn:Hd'.
    + rewrite decide_False by done. destruct (Ht _ _ Hd') as (e & He & Hf).
      rewrite lookup_insert_eq in He. injection He as <-.
      rewrite (stored_files_delete m' i d' Hd'), Hf, (IH (delete i m') Hk').
      * replace (filter (fun e => delete i m' !! inode e = None) (map_to_list m).*2)
          with (filter (fun e => m' !! inode e = None) (map_to_list m).*2); [lia|].
        apply filter_ext_in. intros e ([j e'] & -> & He')%list_elem_of_fmap.
        apply elem_of_map_to_list in He'. simpl. rewrite (Hk' _ _ He').
        rewrite lookup_delete_ne; [done|]. congruence.
      * intros j e [Hne He]%lookup_delete_Some. destruct (Ht _ _ He) as (e0 & He0 & ?).
        rewrite lookup_insert_ne in He0; eauto.
    + rewrite decide_True by done. simpl. rewrite (IH m' Hk'); [lia|].
      intros j e He. destruct (Ht _ _ He) as (e0 & He0 & ?). rewrite lookup_insert_ne in He0; eauto.
      intros ->. congruence.
Qed.

(** ** The books *)

Section Ownership.
Context {W M : Type} `{Host W} `{RangeMap M MapEntry}.
Context (checks : bool) (os : HostOs) (fs : Setup M).

Local Notation state := (PassthroughFs W).
Local Notation IO := (eff state).

(** No count overflows when it goes up by [k], or the overflow is caught. *)
Definition room_for (k : Z) (st : InodeStoreInner) : Prop :=
  checks = true \/
  (k <= u64_max /\ forall i d, data st !! i = Some d -> refcount d + k <= u64_max).

Definition slots (s : state) (n : Z) : Prop :=
  0 <= available s /\ 0 <= n /\ available s + guest_files s + n = guest_fd_limit (cfg fs) /\
  guest_fd_limit (cfg fs) <= u64_max.

Definition books (k : Z) (s : state) (b : owned) : Prop :=
  store_wf (inodes s) /\ rc_inv (inodes s) (held b) /\ room_for k (inodes s) /\ slots s (loose b).

Definition nonneg (b : owned) : Prop := (forall j, 0 <= held b j) /\ 0 <= loose b.

Definition balanced {A} (k : Z) (b : owned) (t : A -> loot) (e : loot) (r : state * io A) : Prop :=
  match r with
  | (s, Ok a) => books k s (gain b (t a))
  | (s, Err _) => books k s (gain b e)
  | (_, Panic) => True
  end.

Definition spends {A} (k : Z) (g : loot) (m : IO A) (t : A -> loot) (e : loot) : Prop :=
  forall n s b, 0 <= n -> nonneg b -> books (k + n) s (gain b g) -> balanced n b t e (m s).

Lemma room_for_le k k' st : k' <= k -> room_for k st -> room_for k' st.
Proof. intros Hle [?|[Hk Hr]]; [by left|right]. split; [lia|]. intros i d Hd. specialize (Hr _ _ Hd). lia. Qed.

Lemma books_le k k' s b : k' <= k -> books k s b -> books k' s b.
Proof. intros Hle (? & ? & ? & ?). split_and!; try done. by eapply room_for_le. Qed.

Lemma books_same k s b g g' : same g g' -> books k s (gain b g) -> books k s (gain b g').
Proof.
  intros [Hr Hf] (? & Hrc & ? & Hs). split_and!; try done.
  - eapply rc_inv_ext, Hrc. intros i. simpl. by rewrite Hr.
  - cbn [loose gain] in *. by rewrite <- Hf.
Qed.

Lemma books_assoc k s b f g :
  books k s (gain (gain b f) g) <-> books k s (gain b (both f g)).
Proof.
  unfold books. simpl. rewrite Z.add_assoc.
  assert (He : forall i, held b i + occ (refs f) i + occ (refs g) i
                         = held b i + occ (refs f ++ refs g) i) by (intros i; rewrite occ_app; lia).
  split; intros (? & Hrc & ?); (split; [done|split; [|done]]); eapply rc_inv_ext, Hrc; intros i;
    simpl; by rewrite He.
Qed.

Lemma nonneg_gain b g : nonneg b -> 0 <= files g -> nonneg (gain b g).
Proof.
  intros [Hb Hl] Hf. split; simpl; [|lia]. intros j. pose proof (Hb j).
  pose proof (occ_nonneg (refs g) j). lia.
Qed.

(** *** Rules *)

Lemma spends_weaken {A} k k' g g' (m : IO A) t t' e e' :
  spends k g m t e -> k <= k' -> same g' g -> (forall a, same (t a) (t' a)) -> same e e' ->
  spends k' g' m t' e'.
Proof.
  intros Hm Hk Hg Ht He n s b Hn Hb Hs.
  assert (Hr := Hm n s b Hn Hb (books_same _ _ _ _ _ Hg (books_le (k' + n) (k + n) _ _ ltac:(lia) Hs))).
  unfold balanced in *. destruct (m s) as [s' [a|?|]]; [| |done].
  - eapply books_same; [apply Ht|done].
  - by eapply books_same.
Qed.

Lemma spends_frame {A} f k g (m : IO A) t e :
  0 <= files f -> spends k g m t e ->
  spends k (both f g) m (fun a => both f (t a)) (both f e).
Proof.
  intros Hf Hm n s b Hn Hb Hs. apply books_assoc in Hs.
  assert (Hr := Hm n s (gain b f) Hn (nonneg_gain _ _ Hb Hf) Hs). unfold balanced in *.
  destruct (m s) as [s' [a|?|]]; [by apply books_assoc..|done].
Qed.

Lemma spends_bind {A B} k1 k2 g (m : IO A) (c : A -> IO B) t t' e :
  0 <= k2 -> spends k1 g m t e -> (forall a, spends k2 (t a) (c a) t' e) ->
  spends (k1 + k2) g (a ← m; c a) t' e.
Proof.
  intros Hk2 Hm Hc n s b Hn Hb Hs. replace (k1 + k2 + n) with (k1 + (k2 + n)) in Hs by lia.
  assert (Hr := Hm (k2 + n) s b ltac:(lia) Hb Hs). unfold balanced in *. unfold mbind, eff_bind.
  destruct (m s) as [s1 [a|?|]]; [by apply Hc| |done]. eapply books_le, Hr. lia.
Qed.

Lemma spends_lift {A} g (r : io A) : spends 0 g (lift r) (fun _ => g) g.
Proof. intros n s b Hn Hb Hs. unfold balanced, lift. destruct r; done. Qed.

Lemma spends_ret {A} g (a : A) : spends 0 g (mret (M := eff state) a) (fun _ => g) g.
Proof. apply (spends_lift g (Ok a)). Qed.

Lemma spends_throw {A} g err (t : A -> loot) : spends 0 g (throw err) t g.
Proof. by intros n s b Hn Hb Hs. Qed.

Lemma spends_panic {A} g (t : A -> loot) e : spends 0 g (lift Panic) t e.
Proof. by intros n s b Hn Hb Hs. Qed.

Lemma spends_le {A} k k' g (m : IO A) t e : k <= k' -> spends k g m t e -> spends k' g m t e.
Proof. intros Hk Hm. by eapply spends_weaken; [exact Hm|..]. Qed.

(** [m] only looks at the state it starts from through [f]. *)
Lemma spends_gets {A B} (f : state -> A) k g (c : A -> IO B) t e :
  (forall n s b, 0 <= n -> nonneg b -> books (k + n) s (gain b g) -> balanced n b t e (c (f s) s)) ->
  spends k g (a ← gets f; c a) t e.
Proof. intros Hc n s b Hn Hb Hs. by apply Hc. Qed.

Lemma spends_gets_any {A B} (f : state -> A) k g (c : A -> IO B) t e :
  (forall a, spends k g (c a) t e) -> spends k g (a ← gets f; c a) t e.
Proof. intros Hc. apply spends_gets. intros. by apply Hc. Qed.

Lemma spends_attempt {A} k g (m : IO A) t e e' :
  spends k g m t e ->
  spends k g (attempt m) (fun r => match r with Ok a => t a | _ => e end) e'.
Proof.
  intros Hm n s b Hn Hb Hs. assert (Hr := Hm n s b Hn Hb Hs). unfold balanced, attempt in *.
  by destruct (m s) as [s' [a|?|]].
Qed.

Lemma spends_finally {A} k1 k2 g (m : IO A) (c : IO unit) t t' e e' :
  0 <= k2 -> spends k1 g m t e ->
  (forall a, spends k2 (t a) c (fun _ => t' a) (t' a)) -> spends k2 e c (fun _ => e') e' ->
  spends (k1 + k2) g (finally m c) t' e'.
Proof.
  intros Hk2 Hm Ht He n s b Hn Hb Hs. replace (k1 + k2 + n) with (k1 + (k2 + n)) in Hs by lia.
  assert (Hr := Hm (k2 + n) s b ltac:(lia) Hb Hs). unfold balanced, finally in *.
  destruct (m s) as [s1 [a|?|]].
  - specialize (Ht a n s1 b Hn Hb Hr). unfold balanced in Ht. by destruct (c s1) as [s2 [[]|?|]].
  - specialize (He n s1 b Hn Hb Hr). unfold balanced in He. by destruct (c s1) as [s2 [[]|?|]].
  - by destruct (c s1) as [s2 [[]|?|]].
Qed.

Lemma spends_on_failure {A} k1 k2 g (m : IO A) (c : IO unit) t e e' :
  0 <= k2 -> spends k1 g m t e -> spends k2 e c (fun _ => e') e' ->
  spends (k1 + k2) g (on_failure m c) t e'.
Proof.
  intros Hk2 Hm He n s b Hn Hb Hs. replace (k1 + k2 + n) with (k1 + (k2 + n)) in Hs by lia.
  assert (Hr := Hm (k2 + n) s b ltac:(lia) Hb Hs). unfold balanced, on_failure in *.
  destruct (m s) as [s1 [a|?|]].
  - eapply books_le, Hr. lia.
  - specialize (He n s1 b Hn Hb Hr). unfold balanced in He. by destruct (c s1) as [s2 [[]|?|]].
  - by destruct (c s1) as [s2 [[]|?|]].
Qed.

Lemma spends_ignore {A} k g (m : IO A) g' :
  spends k g m (fun _ => g') g' -> spends k g (ignore m) (fun _ => g') g'.
Proof.
  intros Hm n s b Hn Hb Hs. assert (Hr := Hm n s b Hn Hb Hs). revert Hr.
  unfold balanced, ignore, attempt, mbind, eff_bind, mret, eff_ret.
  by destruct (m s) as [s' [a|?|]].
Qed.

Lemma spends_when k g (c : bool) (m : IO unit) :
  0 <= k -> spends k g m (fun _ => g) g -> spends k g (when_ c m) (fun _ => g) g.
Proof.
  intros Hk Hm. destruct c; [done|]. eapply spends_weaken; [apply spends_ret|done|reflexivity..].
Qed.

Lemma spends_expect {A} k g (m : IO A) t e e' : spends k g m t e -> spends k g (expect m) t e'.
Proof.
  intros Hm n s b Hn Hb Hs. assert (Hr := Hm n s b Hn Hb Hs). unfold balanced, expect in *.
  by destruct (m s) as [s' [a|?|]].
Qed.

Lemma spends_checked {A} k k' g (m : IO A) t e :
  checks = true -> spends k g m t e -> spends k' g m t e.
Proof.
  intros Hc Hm n s b Hn Hb (Hw & Hr & _ & Hs).
  apply (Hm n); [done..|]. split_and!; try done. by left.
Qed.

(** *** Computations that touch no table *)

Definition untouched (s s' : state) : Prop :=
  inodes s' = inodes s /\ available s' = available s /\ handles s' = handles s /\
  unlinked s' = unlinked s.

#[local] Instance untouched_preorder : PreOrder untouched.
Proof. split; [done|]. intros s1 s2 s3 (? & ? & ? & ?) (? & ? & ? & ?). repeat split; congruence. Qed.

Notation quiet m := (respects untouched m).

Lemma slots_untouched s s' n : untouched s s' -> slots s n -> slots s' n.
Proof. intros (Hi & Ha & Hh & Hu). unfold slots, guest_files. by rewrite Hi, Ha, Hh, Hu. Qed.

Lemma books_untouched k s s' b : untouched s s' -> books k s b -> books k s' b.
Proof.
  intros Hu (? & ? & ? & ?). pose proof Hu as (Hi & _). unfold books. rewrite Hi.
  split_and!; try done. by eapply slots_untouched.
Qed.

Lemma spends_quiet {A} g (m : IO A) : quiet m -> spends 0 g m (fun _ => g) g.
Proof.
  intros Hm n s b Hn Hb Hs. specialize (Hm s). unfold balanced.
  destruct (m s) as [s' [a|?|]]; [by eapply books_untouched..|done].
Qed.

Lemma quiet_hosted {A} (m : eff (world W) A) : quiet (hosted m).
Proof. apply (respects_zoom _ (fun _ _ => True)); [by intros ?|done]. Qed.

Lemma quiet_mounts {A} (m : eff (MountFds * world W) A) : quiet (mounts m).
Proof. intros s. unfold mounts. destruct (mount_fds s); [|done]. by destruct (m _) as [[mf w] r]. Qed.

Lemma quiet_modify f : (forall s, untouched s (f s)) -> quiet (modify f).
Proof. apply respects_modify. Qed.

#[local] Hint Resolve quiet_hosted quiet_mounts quiet_modify : eff.

Lemma quiet_sysc {A} (c : Call A) : quiet (sysc c).
Proof. apply quiet_hosted. Qed.
#[local] Hint Resolve quiet_sysc : eff.

Lemma quiet_check_last {A} (r : option A) : quiet (check_last r).
Proof. unfold check_last. respect. Qed.

(** *** Entries that leave the store *)

(** Entries are gone or counted down. *)
Definition shrunk (st st' : InodeStoreInner) : Prop :=
  forall i d', data st' !! i = Some d' ->
  exists d, data st !! i = Some d /\ file_or_handle d' = file_or_handle d /\
    refcount d' <= refcount d.

#[local] Instance shrunk_preorder : PreOrder shrunk.
Proof.
  split; [intros st i d Hd; eauto using Z.le_refl|]. intros s1 s2 s3 H1 H2 i d Hd.
  destruct (H2 _ _ Hd) as (d2 & Hd2 & -> & ?). destruct (H1 _ _ Hd2) as (d1 & ? & -> & ?).
  exists d1. split_and!; [done..|lia].
Qed.

Lemma shrunk_thinned st st' : shrunk st st' -> thinned (data st) (data st').
Proof. intros Hs i d Hd. destruct (Hs _ _ Hd) as (? & ? & ? & ?). eauto. Qed.

Lemma shrunk_room k st st' : shrunk st st' -> room_for k st -> room_for k st'.
Proof.
  intros Hs [?|[Hk Hr]]; [by left|right]. split; [done|]. intros i d Hd. destruct (Hs _ _ Hd) as (d0 & Hd0 & _ & ?).
  specialize (Hr _ _ Hd0). lia.
Qed.

Lemma shrunk_remove_entry st i d : data st !! i = Some d -> shrunk st (remove_entry st i d).
Proof. intros Hd j e. simpl. intros [_ He]%lookup_delete_Some. eauto using Z.le_refl. Qed.

Lemma shrunk_set_refcount st i d rc :
  data st !! i = Some d -> rc <= refcount d ->
  shrunk st (set_data (<[i := set_refcount rc d]>) st).
Proof.
  intros Hd Hrc j e. simpl. rewrite lookup_insert. case_decide; [|eauto using Z.le_refl].
  intros [= <-]. subst. eauto.
Qed.

Lemma shrunk_forget_one st i c : 0 <= c -> shrunk st (forget_one st i c).
Proof.
  unfold forget_one. generalize (size (data st)) as f. intros f; revert st i c.
  induction f as [|f IH]; intros st i c Hc; simpl;
    (destruct (data st !! i) as [d|] eqn:Hd; [|reflexivity]);
    destruct (saturating_sub (refcount d) c =? 0) eqn:Hz.
  2,4: apply shrunk_set_refcount; [done|]; unfold saturating_sub in *; case_match; zify_bool; lia.
  - by apply shrunk_remove_entry.
  - apply (fold_left_inv (shrunk st)); [by apply shrunk_remove_entry|].
    intros s p Hs. etrans; [exact Hs|]. apply IH. lia.
Qed.

Lemma shrunk_drop_references st l : shrunk st (drop_references st l).
Proof.
  apply (fold_left_inv (shrunk st)); [reflexivity|].
  intros s p Hs. etrans; [exact Hs|]. by apply shrunk_forget_one.
Qed.

Lemma removed_lost st st' : removed st st' ≡ₚ lost (data st) (data st').
Proof.
  unfold removed, lost, entries. by rewrite merge_sort_Permutation.
Qed.

(** [m] neither fails nor panics; it is given [n] descriptors and returns [n'], and leaves the
    inodes alone. *)
Definition pays (n : Z) (m : IO unit) (n' : Z) : Prop :=
  forall s k, 0 <= k -> slots s (n + k) ->
  match m s with
  | (s', Ok _) => inodes s' = inodes s /\ slots s' (n' + k)
  | _ => False
  end.

Lemma pays_bind n n1 n2 m m' : pays n m n1 -> pays n1 m' n2 -> pays n (m;; m') n2.
Proof.
  intros Hm Hm' s k Hk Hs. specialize (Hm s k Hk Hs). unfold mbind, eff_bind.
  destruct (m s) as [s1 [[]|?|]]; [|done..]. destruct Hm as [Hi Hs1].
  specialize (Hm' s1 k Hk Hs1). destruct (m' s1) as [s2 [[]|?|]]; [|done..].
  by rewrite <- Hi.
Qed.

Lemma pays_ret n : pays n (mret tt) n.
Proof. intros s k Hk Hs. done. Qed.

Lemma pays_close n fd : pays n (hosted (close fd)) n.
Proof.
  intros s k Hk Hs. unfold hosted, zoom, close, ignore, attempt, mbind, eff_bind, sys.
  destruct (host_run _ _) as [h [e|[]]]; simpl; done.
Qed.

Lemma pays_release : pays 1 (guest_release checks fs) 0.
Proof.
  intros s k Hk (Ha & Hn & Hl & Hm). unfold guest_files in Hl.
  pose proof (stored_files_nonneg (data (inodes s))). pose proof (files_in_nonneg (unlinked s)).
  pose proof (open_files_nonneg (handles s)). unfold u64_max in *.
  unfold guest_release, gets, modify, mbind, eff_bind. simpl.
  rewrite checked_add_spec, decide_True by (unfold u64_max; lia).
  unfold debug_assert. rewrite (proj2 (Z.leb_le _ _)) by lia. rewrite orb_true_r || idtac.
  simpl. rewrite Z.mod_small by lia. unfold lift. simpl.
  destruct checks; simpl; (split; [done|]); unfold slots, guest_files; simpl; unfold u64_max; lia.
Qed.

Lemma pays_guest_file_drop fd : pays 1 (guest_file_drop checks fs fd) 0.
Proof. eapply pays_bind; [apply pays_release|apply pays_close]. Qed.

Lemma pays_mount_drop n mfd : pays n (drop_mount_fd mfd) n.
Proof.
  intros s k Hk Hs. unfold drop_mount_fd, mounts, gets, mbind at 1, eff_bind at 1. simpl.
  destruct (mount_fds s) as [mf|] eqn:Hm; [|done]. simpl. rewrite Hm.
  unfold mount_fd_drop, gets, modify, mbind, eff_bind, mret, eff_ret. simpl.
  destruct (mount_map mf !! _) as [[fd c]|]; [|done]. destruct (c =? 1); [|done].
  unfold on_world, zoom, close, ignore, attempt, mbind, eff_bind, sys. simpl.
  by destruct (host_run _ _) as [h [e|[]]].
Qed.

Lemma pays_drop_foh foh : pays (file_count foh) (drop_file_or_handle checks fs foh) 0.
Proof.
  destruct foh; simpl; [apply pays_guest_file_drop|apply pays_mount_drop|apply pays_ret].
Qed.

Lemma pays_release_data d : pays (file_count (file_or_handle d)) (release_data checks fs d) 0.
Proof.
  intros s k Hk Hs. unfold release_data, gets, mbind at 1, eff_bind at 1. simpl.
  destruct (bool_decide _); [|by apply pays_drop_foh].
  simpl. split; [done|]. destruct Hs as (Ha & Hn & Hl & Hm). unfold slots, guest_files in *.
  simpl. rewrite files_in_app. simpl. lia.
Qed.

Lemma pays_each {A} (m : A -> IO unit) (cost : list A -> Z) l :
  (forall a l', cost (a :: l') = cost [a] + cost l') -> (forall a, 0 <= cost [a]) -> cost [] = 0 ->
  (forall a, pays (cost [a]) (m a) 0) -> pays (cost l) (each m l) 0.
Proof.
  intros Hc Hp H0' Hm. assert (Hl : forall l, 0 <= cost l).
  { intros l'. induction l'; [lia|]. rewrite Hc. specialize (Hp a). lia. }
  induction l as [|a l IH]; simpl; [rewrite H0'; apply pays_ret|].
  apply (pays_bind _ (cost l)); [|done]. intros s k Hk Hs. rewrite Hc, <- Z.add_assoc in Hs.
  specialize (Hl l). specialize (Hm a s (cost l + k) ltac:(lia) Hs).
  destruct (m a s) as [s' [[]|?|]]; done.
Qed.

Lemma pays_release_all l : pays (files_in l) (each (release_data checks fs) l) 0.
Proof.
  apply (pays_each _ files_in); [intros; simpl; lia| |done|].
  - intros d. apply files_in_nonneg.
  - intros d. simpl. rewrite Z.add_0_r. apply pays_release_data.
Qed.

Lemma change_store_slots st' s n :
  store_wf (inodes s) -> thinned (data (inodes s)) (data st') -> slots s n ->
  match change_store checks fs st' s with
  | (s', Ok _) => inodes s' = st' /\ slots s' n
  | _ => False
  end.
Proof.
  intros [Hk _] Ht Hs. pose proof (lost_files _ _ Hk Ht) as Hl.
  rewrite <- (removed_lost (inodes s) st') in Hl.
  unfold change_store, gets, modify, mbind, eff_bind. simpl.
  assert (Hs1 : slots (set_inodes st' s) (files_in (removed (inodes s) st') + n)).
  { pose proof (files_in_nonneg (removed (inodes s) st')).
    unfold slots, guest_files in *. simpl. lia. }
  pose proof Hs as (_ & Hn & _).
  specialize (pays_release_all (removed (inodes s) st') _ _ Hn Hs1).
  by destruct (each _ _ _) as [s' [[]|?|]].
Qed.

(** *** Basic operations *)

Lemma books_nothing k s b : books k s (gain b nothing) <-> books k s b.
Proof.
  assert (He : forall i, held b i + occ [] i = held b i) by (intros i; rewrite occ_nil; lia).
  unfold books. simpl. rewrite Z.add_0_r.
  split; intros (? & Hrc & ?); (split; [done|split; [|done]]); eapply rc_inv_ext, Hrc; intros i;
    simpl; by rewrite He.
Qed.

Lemma spends_pays n m e : pays n m 0 -> spends 0 (files_of n) m (fun _ => nothing) e.
Proof.
  intros Hm k s b Hk [Hb Hl] (Hw & Hrc & Hr & Hs). simpl in *. rewrite Z.add_comm in Hs.
  specialize (Hm s (loose b) Hl Hs). unfold balanced. destruct (m s) as [s' [[]|?|]]; [|done..].
  destruct Hm as [Hi Hs']. apply books_nothing. unfold books. rewrite Hi. split_and!; try done.
  eapply rc_inv_ext, Hrc. intros i. simpl. rewrite occ_nil. lia.
Qed.

Lemma spends_close g fd e : spends 0 g (hosted (close fd)) (fun _ => g) e.
Proof.
  intros k s b Hk Hb Hs. pose proof (pays_close 0 fd s) as Hp.
  pose proof (quiet_hosted (close fd) s) as Hq. unfold balanced.
  destruct (hosted (close fd) s) as [s' [[]|?|]]; simpl in *.
  - by eapply books_untouched.
  - destruct Hs as (_ & _ & _ & Hs). pose proof Hs as (_ & Hn & _).
    exfalso. by apply (Hp (loose (gain b g)) Hn).
  - done.
Qed.

Lemma spends_allocate fd : spends 0 nothing (guest_allocate fd) (fun _ => files_of 1) nothing.
Proof.
  intros k s b Hk Hb Hs. unfold guest_allocate, gets, mbind at 1, eff_bind at 1. simpl.
  destruct (checked_sub (available s) 1) as [n|] eqn:Hc.
  - apply checked_sub_Some in Hc as [Hle ->]. simpl.
    destruct Hs as (Hw & Hrc & Hr & Ha & Hn & Hl & Hm). split_and!; simpl; try done.
    unfold slots, guest_files in *. simpl in *. lia.
  - pose proof (spends_close nothing fd nothing k s b Hk Hb Hs) as Hcl.
    unfold mbind, eff_bind, balanced in *. by destruct (hosted (close fd) s) as [s' [[]|?|]].
Qed.

(** The store changes to one that owes [g] less and may hold fewer entries. *)
Lemma balanced_change k g st' s b e :
  books k s (gain b g) -> files g = 0 -> shrunk (inodes s) st' -> store_wf st' ->
  rc_inv st' (held b) -> balanced k b (fun _ => nothing) e (change_store checks fs st' s).
Proof.
  intros (Hw & _ & Hr & Hs) Hg Hsh Hw' Hrc. simpl in Hs. rewrite Hg, Z.add_0_r in Hs.
  pose proof (change_store_slots st' s _ Hw (shrunk_thinned _ _ Hsh) Hs) as Hc. unfold balanced.
  destruct (change_store checks fs st' s) as [s' [[]|?|]]; [|done..]. destruct Hc as [<- Hs'].
  apply books_nothing. split_and!; try done. by eapply shrunk_room.
Qed.

Lemma spends_drop_ref i e : spends 0 (ref i) (drop_ref checks fs i) (fun _ => nothing) e.
Proof.
  apply spends_gets. intros k s b Hk [Hb _] Hs. pose proof Hs as (Hw & Hrc & _).
  eapply balanced_change; [exact Hs|done|by apply shrunk_forget_one|by apply store_wf_forget_one|].
  assert (Hh : held (gain b (ref i)) i = held b i + 1)
    by (simpl; rewrite occ_cons, occ_nil, decide_True by done; lia).
  specialize (Hb i). eapply rc_inv_ext; [|apply (rc_inv_forget_one _ _ i 1 Hrc); lia].
  intros j. simpl. rewrite occ_cons, occ_nil. repeat case_decide; subst; lia || done.
Qed.

(** *** Computations that cannot fail *)

Definition infallible {A} (m : IO A) : Prop := forall s, match (m s).2 with Err _ => False | _ => True end.

Lemma infallible_bind {A B} (m : IO A) (c : A -> IO B) :
  infallible m -> (forall a, infallible (c a)) -> infallible (a ← m; c a).
Proof.
  intros Hm Hc s. specialize (Hm s). unfold mbind, eff_bind.
  destruct (m s) as [s' [a|?|]]; [apply Hc|done..].
Qed.

Lemma infallible_each {A} (m : A -> IO unit) l :
  (forall a, infallible (m a)) -> infallible (each m l).
Proof. intros Hm. induction l; simpl; [done|]. by apply infallible_bind. Qed.

Lemma infallible_finally {A} (m : IO A) c : infallible m -> infallible (finally m c).
Proof.
  intros Hm s. specialize (Hm s). unfold finally. destruct (m s) as [s1 r].
  destruct (c s1) as [s2 rc]. by destruct rc, r.
Qed.

Lemma infallible_ignore {A} (m : IO A) : infallible (ignore m).
Proof.
  intros s. unfold ignore, attempt, mbind, eff_bind. by destruct (m s) as [s' [a|?|]].
Qed.

Lemma infallible_attempt {A} (m : IO A) : infallible (attempt m).
Proof. intros s. unfold attempt. by destruct (m s) as [s' [a|?|]]. Qed.

Lemma infallible_close fd : infallible (hosted (W := W) (close fd)).
Proof.
  intros s. unfold hosted, zoom, close, ignore, attempt, mbind, eff_bind, sys.
  by destruct (host_run _ _) as [h [e|[]]].
Qed.

Lemma infallible_drop_foh foh : infallible (drop_file_or_handle (W := W) checks fs foh).
Proof.
  destruct foh as [fd|h|]; simpl; [| |done].
  - apply infallible_bind; [|intros; apply infallible_close]. intros s.
    unfold guest_release, gets, modify, mbind, eff_bind, debug_assert, lift. simpl.
    repeat case_match; done.
  - intros s. unfold drop_mount_fd, mounts, gets, mbind at 1, eff_bind at 1. simpl.
    destruct (mount_fds s) as [mf|] eqn:Hm; [|done]. simpl. rewrite Hm.
    unfold mount_fd_drop, gets, modify, mbind, eff_bind, mret, eff_ret. simpl.
    destruct (mount_map mf !! _) as [[fd c]|]; [|done]. destruct (c =? 1); [|done].
    unfold on_world, zoom, close, ignore, attempt, mbind, eff_bind, sys. simpl.
    by destruct (host_run _ _) as [hh [e|[]]].
Qed.

Lemma infallible_release_data d : infallible (release_data (W := W) checks fs d).
Proof.
  apply infallible_bind; [done|]. intros []; [done|apply infallible_drop_foh].
Qed.

Lemma infallible_change_store st' : infallible (change_store (W := W) checks fs st').
Proof.
  apply infallible_bind; [done|]. intros st. apply infallible_bind; [done|]. intros _.
  apply infallible_each, infallible_release_data.
Qed.

Lemma infallible_drop_ref i : infallible (drop_ref (W := W) checks fs i).
Proof. apply infallible_bind; [done|]. intros st. apply infallible_change_store. Qed.

Lemma infallible_unpin i : infallible (unpin (W := W) checks fs i).
Proof.
  apply infallible_bind; [done|]. intros _. apply infallible_bind; [done|]. intros s.
  case_decide; [done|]. apply infallible_bind; [done|]. intros _.
  apply infallible_each. intros d. apply infallible_drop_foh.
Qed.

Lemma spends_infallible {A} k g (m : IO A) t e e' :
  infallible m -> spends k g m t e -> spends k g m t e'.
Proof.
  intros Hi Hm n s b Hn Hb Hs. specialize (Hm n s b Hn Hb Hs). specialize (Hi s).
  unfold balanced in *. by destruct (m s) as [s' [a|?|]].
Qed.

(** Gives something back and goes on with the rest. *)
Lemma spends_then {A B} f k1 k2 g g' (m : IO B) (c : IO A) t e e' :
  infallible m -> 0 <= files f -> 0 <= k2 -> spends k1 g m (fun _ => nothing) e' ->
  same g' (both f g) -> spends k2 f c t e -> spends (k1 + k2) g' (m;; c) t e.
Proof.
  intros Hi Hf Hk Hm Hg Hc. apply (spends_bind k1 k2 _ _ _ (fun _ => f)); [done| |by intros _].
  eapply spends_weaken; [eapply spends_infallible, spends_frame; [done..|exact Hm]|done|done| |].
  - intros ?. balance.
  - reflexivity.
Qed.

Lemma spends_each_drop l e :
  spends 0 (refs_of l) (each (drop_ref checks fs) l) (fun _ => nothing) e.
Proof.
  revert e. induction l as [|i l IH]; intros e.
  - eapply spends_weaken; [eapply (spends_infallible _ _ _ _ _ e); [|apply (spends_ret nothing)]|..];
      done || reflexivity.
  - eapply (spends_then (refs_of l) 0 0 (ref i)); [apply infallible_drop_ref|done|done| |balance|].
    + apply (spends_drop_ref i nothing).
    + apply IH.
Qed.

(** *** Computations that return what they are given *)

Definition neutral {A} (k : Z) (m : IO A) : Prop := spends k nothing m (fun _ => nothing) nothing.

Lemma neutral_keeps {A} k (m : IO A) g :
  0 <= files g -> neutral k m -> spends k g m (fun _ => g) g.
Proof.
  intros Hg Hm. eapply spends_weaken; [apply (spends_frame g); [done|exact Hm]|done|..];
    [balance|intros ?; balance|balance].
Qed.

Lemma neutral_le {A} k k' (m : IO A) : k <= k' -> neutral k m -> neutral k' m.
Proof. intros Hk Hm. by eapply spends_weaken; [exact Hm|..]. Qed.

Lemma neutral_quiet {A} (m : IO A) : quiet m -> neutral 0 m.
Proof. apply spends_quiet. Qed.

Lemma neutral_bind {A B} (m : IO A) (c : A -> IO B) :
  neutral 0 m -> (forall a, neutral 0 (c a)) -> neutral 0 (a ← m; c a).
Proof. intros Hm Hc. by apply (spends_bind 0 0 _ _ _ (fun _ => nothing)). Qed.

Lemma neutral_attempt {A} k (m : IO A) : neutral k m -> neutral k (attempt m).
Proof.
  intros Hm. eapply spends_weaken; [apply (spends_attempt _ _ _ _ _ nothing Hm)|done|done| |done].
  by intros [].
Qed.

Lemma neutral_finally {A} (m : IO A) c : neutral 0 m -> neutral 0 c -> neutral 0 (finally m c).
Proof. intros Hm Hc. by eapply (spends_finally 0 0 _ _ _ (fun _ => nothing)). Qed.

Lemma neutral_on_failure {A} (m : IO A) c :
  neutral 0 m -> neutral 0 c -> neutral 0 (on_failure m c).
Proof. intros Hm Hc. by eapply (spends_on_failure 0 0 _ _ _ (fun _ => nothing)). Qed.

(** *** The data an operation works on *)

Lemma spends_unpin i : neutral 0 (unpin checks fs i).
Proof.
  apply (spends_bind 0 0 _ _ _ (fun _ => nothing)); [done| |intros _].
  { apply spends_quiet, quiet_modify. done. }
  apply spends_gets. intros k s b Hk Hb Hs. simpl. case_decide; [done|].
  unfold modify, mbind, eff_bind. simpl.
  set (mine := filter (fun d => inode d = i) (unlinked s)).
  set (s1 := set_unlinked (filter (fun d => inode d <> i) (unlinked s)) s).
  assert (Hs1 : books k s1 (gain b (files_of (files_in mine)))).
  { destruct Hs as (Hw & Hrc & Hr & Ha & Hn & Hl & Hm). split_and!; simpl in *; try done.
    unfold slots, guest_files in *. simpl.
    rewrite (files_in_filter (fun d => inode d = i) (unlinked s)) in Hl. fold mine in Hl.
    pose proof (files_in_nonneg mine). lia. }
  assert (Hp : pays (files_in mine)
                 (each (fun d => drop_file_or_handle checks fs (file_or_handle d)) mine) 0).
  { apply (pays_each _ files_in); [intros; simpl; lia| |done|].
    - intros d. apply files_in_nonneg.
    - intros d. simpl. rewrite Z.add_0_r. apply pays_drop_foh. }
  exact (spends_pays _ _ nothing Hp k s1 b Hk Hb Hs1).
Qed.

Lemma spends_pin {A} k g i (m : IO A) t e :
  0 <= k -> (forall a, 0 <= files (t a)) -> 0 <= files e -> spends k g m t e ->
  spends k g (pin checks fs i m) t e.
Proof.
  intros Hk Ht He Hm.
  apply (spends_weaken (0 + (k + 0)) k g g _ t t e e); [|lia|reflexivity..].
  apply (spends_bind 0 (k + 0) _ _ _ (fun _ => g)); [lia| |intros _].
  { eapply spends_infallible; [|apply spends_quiet, quiet_modify]; done. }
  apply (spends_finally _ _ _ _ _ t _ e); [done|done| |].
  - intros a. apply neutral_keeps; [done|]. apply spends_unpin.
  - apply neutral_keeps; [done|]. apply spends_unpin.
Qed.

(** The inode is in the store when [c] starts. *)
Lemma spends_with_inode {A} k g i (c : InodeData -> IO A) t :
  0 <= k -> (forall a, 0 <= files (t a)) -> 0 <= files g ->
  (forall d, spends k g (c d) t g) -> spends k g (with_inode checks fs i c) t g.
Proof.
  intros Hk Ht He Hm. apply spends_gets_any. intros [d|].
  - by apply spends_pin.
  - eapply spends_le, spends_throw. done.
Qed.

(** *** Taking references *)

Lemma stored_files_update m i d d' :
  m !! i = Some d -> file_or_handle d' = file_or_handle d ->
  stored_files (<[i := d']> m) = stored_files m.
Proof.
  intros Hd Hf. rewrite (stored_files_delete m i d Hd), <- Hf.
  rewrite <- insert_delete_eq. apply stored_files_insert, lookup_delete_eq.
Qed.

Lemma slots_set_inodes s st' n :
  stored_files (data st') = stored_files (data (inodes s)) -> slots s n ->
  slots (set_inodes st' s) n.
Proof. intros Hf. unfold slots, guest_files. simpl. by rewrite Hf. Qed.

Lemma room_counts_ok k st : 0 < k -> room_for k st -> counts_ok checks st.
Proof. intros Hk [?|[_ Hr]]; [by left|right]. intros i d Hd. specialize (Hr _ _ Hd). lia. Qed.

Lemma room_count_up k st d rc :
  data st !! inode d = Some d -> plain_add (E := io_error) checks u64_max (refcount d) 1 = Ok rc ->
  0 <= k -> room_for (1 + k) st ->
  room_for k (set_data (<[inode d := set_refcount rc d]>) st).
Proof.
  intros Hd Hadd Hk [?|[Hk' Hr]]; [by left|right]. pose proof (Hr _ _ Hd).
  apply plain_add_exact in Hadd as ->; [|right; lia]. split; [lia|]. intros j e. simpl. rewrite lookup_insert.
  case_decide; [intros [= <-]; simpl; lia|]. intros He. specialize (Hr _ _ He). lia.
Qed.

Lemma books_count_up k s b d st' i :
  0 <= k -> books (1 + k) s b -> data (inodes s) !! inode d = Some d ->
  new_with_data checks (inodes s) d = Ok (st', i) -> books k (set_inodes st' s) (gain b (ref i)).
Proof.
  intros Hk (Hw & Hrc & Hr & Hs) Hd Hn. assert (Hc : counts_ok checks (inodes s))
    by (eapply room_counts_ok, Hr; lia).
  pose proof (rc_inv_new_with_data _ _ _ _ _ _ Hrc Hd (counts_ok_at _ _ _ _ Hc Hd) Hn) as Hrc'.
  apply new_with_data_inv in Hn as (_ & Hi & rc & Hst & Hadd). simpl in Hi, Hst. subst i st'.
  split_and!; simpl.
  - eapply store_wf_update; eauto using set_refcount_same_keys.
  - eapply rc_inv_ext, Hrc'. intros j. simpl. unfold add_reference.
    rewrite occ_cons, occ_nil. repeat case_decide; subst; lia || done.
  - by apply room_count_up.
  - rewrite Z.add_0_r. apply slots_set_inodes; [|done]. by apply (stored_files_update _ _ d).
Qed.

Lemma spends_strong_ref i : spends 1 nothing (strong_ref checks i) ref nothing.
Proof.
  apply spends_gets. intros k s b Hk Hb Hs. apply (proj1 (books_nothing _ _ _)) in Hs.
  unfold lift, modify, mbind, eff_bind. simpl.
  destruct (get_strong checks (inodes s) i) as [[st' j]|err|] eqn:Hg; [| |done].
  - unfold get_strong, store_get in Hg. destruct (data (inodes s) !! i) as [d|] eqn:Hd; [|done].
    simpl in Hg. pose proof (proj1 (proj1 Hs) _ _ Hd). subst i.
    change (books k (set_inodes st' s) (gain b (ref j))). by eapply books_count_up.
  - change (books k s (gain b nothing)). eapply (proj2 (books_nothing _ _ _)), books_le, Hs. lia.
Qed.

(** What a lookup in the store returns. *)
Definition found (o : option Z) : loot := from_option ref nothing o.

Lemma spends_claim handle ids : spends 1 nothing (claim checks handle ids) found nothing.
Proof.
  apply spends_gets. intros k s b Hk Hb Hs. apply (proj1 (books_nothing _ _ _)) in Hs.
  unfold claim_inode. destruct (find_claimable_wf (inodes s) handle ids (proj1 Hs)) as (o & -> & Ho).
  simpl. destruct o as [d|]; simpl.
  - destruct (Ho d eq_refl) as [Hd _].
    destruct (new_with_data checks (inodes s) d) as [[st' j]|err|] eqn:Hg; simpl; [| |done].
    + change (books k (set_inodes st' s) (gain b (ref j))). by eapply books_count_up.
    + change (books k s (gain b nothing)). eapply (proj2 (books_nothing _ _ _)), books_le, Hs. lia.
  - change (books k s (gain b nothing)). eapply (proj2 (books_nothing _ _ _)), books_le, Hs. lia.
Qed.

(** *** Migration infos *)

Lemma spends_swap i mi e :
  spends 0 (refs_of (info_references mi)) (swap_migration_info i mi)
    (fun old => refs_of (info_references old)) e.
Proof.
  apply spends_gets. intros k s b Hk [Hb Hl] (Hw & Hrc & Hr & Hs). unfold store_get.
  destruct (data (inodes s) !! i) as [d|] eqn:Hd; [|done].
  unfold modify, mbind, eff_bind. simpl. split_and!; simpl.
  - eapply store_wf_update; [done..|]. done.
  - eapply rc_inv_ext; [|apply (rc_inv_swap _ _ i d mi Hrc Hd)].
    + intros j. simpl. change (info_references (migration_info d)) with (data_references d). lia.
    + intros p. simpl. specialize (Hb p). lia.
  - destruct Hr as [?|[Hk' Hr]]; [by left|right]. split; [done|]. intros j e'. simpl. rewrite lookup_insert.
    case_decide; [intros [= <-]; subst; exact (Hr _ _ Hd)|apply Hr].
  - apply slots_set_inodes; [|done]. by apply (stored_files_update _ _ d).
Qed.

Lemma spends_put i mi e :
  spends 0 (refs_of (info_references mi)) (put_migration_info checks fs i mi)
    (fun _ => nothing) e.
Proof.
  eapply (spends_bind 0 0); [done|apply spends_swap|]. intros old. apply spends_each_drop.
Qed.

Lemma infallible_put i mi : infallible (put_migration_info (W := W) checks fs i mi).
Proof.
  apply infallible_bind.
  - apply infallible_bind; [done|]. by intros [d|].
  - intros old. apply infallible_each. intros j. apply infallible_drop_ref.
Qed.

(** *** Inserting *)

(** What comes with the data of an inode. *)
Definition given (d : InodeData) : loot :=
  {| refs := data_references d; files := file_count (file_or_handle d) |}.

Lemma thinned_count_up st d rc :
  data st !! inode d = Some d -> thinned (data st) (data (set_data (<[inode d := set_refcount rc d]>) st)).
Proof.
  intros Hd i e. simpl. rewrite lookup_insert. case_decide; [|by eauto].
  intros [= <-]. subst. eauto.
Qed.

Lemma file_count_nonneg foh : 0 <= file_count foh.
Proof. by destruct foh. Qed.

Lemma change_store_books k b g st' s :
  store_wf (inodes s) -> slots s (loose (gain b g)) -> thinned (data (inodes s)) (data st') ->
  store_wf st' -> room_for k st' -> rc_inv st' (held (gain b g)) ->
  match change_store checks fs st' s with
  | (s1, Ok _) => books k s1 (gain b g)
  | (_, Err _) => False
  | (_, Panic) => True
  end.
Proof.
  intros Hw Hs Ht Hw' Hr Hrc. pose proof (change_store_slots st' s _ Hw Ht Hs) as Hc.
  destruct (change_store checks fs st' s) as [s1 [[]|?|]]; [|done..]. destruct Hc as [<- Hs1].
  done.
Qed.

(** New data takes its descriptor along. *)
Lemma change_store_grown k b g d st' s :
  nonneg b -> 0 <= files g -> slots s (loose (gain b g) + file_count (file_or_handle d)) ->
  data st' = <[inode d := d]> (data (inodes s)) -> data (inodes s) !! inode d = None ->
  store_wf (inodes s) -> store_wf st' -> room_for k st' -> rc_inv st' (held (gain b g)) ->
  match change_store checks fs st' s with
  | (s1, Ok _) => books k s1 (gain b g)
  | (_, Err _) => False
  | (_, Panic) => True
  end.
Proof.
  intros [_ Hb] Hg Hs Hst Hn [Hk _] Hw' Hr Hrc.
  assert (Hrem : removed (inodes s) st' = []).
  { apply Permutation_nil_r. rewrite removed_lost. unfold lost.
    rewrite (filter_ext_in _ (fun _ => False)); [induction ((map_to_list _).*2); done|].
    intros e ([j e'] & -> & He')%list_elem_of_fmap. apply elem_of_map_to_list in He'. simpl.
    rewrite (Hk _ _ He'), Hst, lookup_insert. case_decide; [done|]. by rewrite He'. }
  unfold change_store, gets, modify, mbind, eff_bind. simpl. rewrite Hrem. simpl.
  split_and!; simpl; try done.
  unfold slots, guest_files in *. simpl. rewrite Hst, stored_files_insert by done. simpl in *. lia.
Qed.

Lemma balanced_then {A} k b g st' s (c : IO A) t e :
  match change_store checks fs st' s with
  | (s1, Ok _) => books k s1 (gain b g)
  | (_, Err _) => False
  | (_, Panic) => True
  end ->
  0 <= k -> nonneg b -> spends 0 g c t e ->
  balanced k b t e ((change_store checks fs st';; c) s).
Proof.
  intros Hc Hk Hb Hs. unfold mbind, eff_bind. unfold balanced at 1.
  destruct (change_store checks fs st' s) as [s1 [[]|?|]]; [|done..]. by apply Hs.
Qed.

Lemma spends_drop_foh foh e :
  spends 0 (files_of (file_count foh)) (drop_file_or_handle checks fs foh) (fun _ => nothing) e.
Proof. apply spends_pays, pays_drop_foh. Qed.

(** The two ways data is dropped. *)
Lemma spends_drop_ret foh i :
  spends 0 (both (ref i) (files_of (file_count foh)))
    (drop_file_or_handle checks fs foh;; mret i) ref nothing.
Proof.
  eapply (spends_then (ref i) 0 0 (files_of (file_count foh)));
    [apply infallible_drop_foh|done|done|apply (spends_drop_foh foh nothing)|reflexivity|].
  by intros n s b Hn Hb Hs.
Qed.

Lemma spends_drop_throw {A} foh err (t : A -> loot) :
  spends 0 (files_of (file_count foh)) (drop_file_or_handle checks fs foh;; throw err) t nothing.
Proof.
  eapply (spends_then nothing 0 0 (files_of (file_count foh)));
    [apply infallible_drop_foh|done|done|apply (spends_drop_foh foh nothing)|balance|].
  apply spends_throw.
Qed.

Lemma spends_store_get_or_insert d :
  spends 1 (given d) (store_get_or_insert checks fs d) ref nothing.
Proof.
  apply spends_gets. intros k s b Hk Hb Hs. pose proof Hs as (Hw & Hrc & Hr & Hsl).
  pose proof (store_wf_get_or_insert checks (inodes s) d Hw) as Hw'.
  assert (Hc : counts_ok checks (inodes s)) by (eapply room_counts_ok, Hr; lia).
  assert (Hd : forall p, occ (data_references d) p <= held (gain b (given d)) p)
    by (intros p; simpl; destruct Hb as [Hb _]; specialize (Hb p); lia).
  pose proof (rc_inv_get_or_insert checks _ _ d Hw Hc Hrc Hd) as Hgi.
  unfold get_or_insert in *. destruct (claim_inode _ _ _ _) as [[st1 i]|err|] eqn:Hcl.
  - pose proof (claim_inode_inv _ _ _ _ _ _ Hw Hcl) as (e & [He _] & <- & _ & rc & -> & Hadd).
    unfold store_get. rewrite bool_decide_true by eauto.
    eapply balanced_then; [|done|done|apply spends_drop_ret].
    apply change_store_books; try done.
    + etrans; [by apply thinned_count_up|apply shrunk_thinned, shrunk_drop_references].
    + eapply shrunk_room; [apply shrunk_drop_references|]. by apply room_count_up.
    + eapply rc_inv_ext, Hgi. intros j. unfold add_reference, hand_back. simpl.
      rewrite ?occ_cons, occ_nil. repeat case_decide; subst; lia || done.
  - case_decide as Hin.
    + eapply balanced_then; [|done|done|apply spends_drop_throw].
      apply change_store_books; try done.
      * apply shrunk_thinned, shrunk_drop_references.
      * eapply shrunk_room; [apply shrunk_drop_references|]. eapply room_for_le, Hr. lia.
      * eapply rc_inv_ext, Hgi. intros j. unfold hand_back. simpl. rewrite occ_nil. lia.
    + assert (Hn : data (inodes s) !! inode d = None) by by apply eq_None_not_Some.
      unfold insert_new in *. simpl in *. rewrite Hn in *. simpl in *.
      unfold store_get. rewrite bool_decide_false by (rewrite Hn; by intros []). simpl.
      apply (balanced_then k b (ref (inode d))); [|done|done|by intros n s1 b1 Hn' Hb' Hs'].
      apply change_store_grown with (d := set_refcount 1 d); try done.
      * simpl. by rewrite Z.add_0_r.
      * destruct Hr as [?|[Hk' Hr]]; [by left|right]. split; [lia|]. intros j e. simpl.
        rewrite lookup_insert. case_decide; [intros [= <-]; simpl; lia|].
        intros He. specialize (Hr _ _ He). lia.
      * eapply rc_inv_ext, Hgi. intros j. unfold add_reference, hand_back. simpl.
        rewrite occ_cons, occ_nil. repeat case_decide; subst; lia || done.
  - eapply balanced_then; [|done|done|apply spends_panic].
    eapply change_store_books; try done. eapply room_for_le, Hr. lia.
Qed.
End Ownership.

#[export] Existing Instances untouched_preorder shrunk_preorder.
#[export] Hint Resolve quiet_hosted quiet_mounts quiet_modify quiet_sysc quiet_check_last : eff.
