(* ===== verification/PassthroughSpec.v ===== *)
(** * Lookups and operations keep the books

    The lookups of [Passthrough] and every operation of [PassthroughOps] in terms of
    [spends]: which references an operation hands to the guest, and that it loses
    none and no descriptor otherwise. *)

From S2P Require Import Prelude OpenFlags Libc FileHandle InodeStore DentryIndex FuseTypes.
From S2P Require Import FuseWire Descriptor SoftIdMap XattrMap FileSystem Host Credentials ReadDir.
From S2P Require Import Paths MountFds Passthrough Ownership PassthroughOps.

Section Quiet.
Context {W M : Type} `{Host W} `{RangeMap M MapEntry}.
Context (checks : bool) (os : HostOs) (fs : Setup M).

Local Notation state := (PassthroughFs W).
Local Notation IO := (eff state).
Local Notation quiet := (respects untouched).

Lemma quiet_openable_open h fl : quiet (openable_open (W := W) os h fl).
Proof. unfold openable_open, open_by_handle_at. respect. Qed.
#[local] Hint Resolve quiet_openable_open : eff.

Lemma quiet_get_file d : quiet (get_file (W := W) os d).
Proof. unfold get_file. respect. Qed.

Lemma quiet_open_file d fl : quiet (open_file (W := W) os fs d fl).
Proof. unfold open_file. respect. Qed.

Lemma quiet_file_drop f : quiet (inode_file_drop (W := W) f).
Proof. unfold inode_file_drop. respect. Qed.
#[local] Hint Resolve quiet_get_file quiet_open_file quiet_file_drop : eff.

Lemma quiet_get_path d : quiet (get_path (W := W) os fs d).
Proof. unfold get_path. respect. Qed.

Lemma quiet_at_path fd : quiet (at_path_for_fd (W := W) os fs fd).
Proof. unfold at_path_for_fd. respect. Qed.

Lemma quiet_open_relative dir p fl mode : quiet (open_relative_to (W := W) os fs dir p fl mode).
Proof. unfold open_relative_to, do_open_relative_to. respect. Qed.

Lemma quiet_open_inode d fl : quiet (open_inode (W := W) os fs d fl).
Proof. unfold open_inode. respect. Qed.

Lemma quiet_find_handle h i : quiet (find_handle (W := W) h i).
Proof. unfold find_handle. respect. Qed.

Lemma quiet_handle_opt fd st : quiet (get_file_handle_opt (W := W) os fs fd st).
Proof. unfold get_file_handle_opt, name_to_handle_at. respect. Qed.

Lemma quiet_openable fh : quiet (make_file_handle_openable (W := W) os fs fh).
Proof. unfold make_file_handle_openable. respect. Qed.

Lemma quiet_serializable foh : quiet (serializable_handle (W := W) os foh).
Proof. unfold serializable_handle, name_to_handle_at. respect. Qed.
#[local] Hint Resolve quiet_serializable : eff.

Lemma quiet_info_internal l foh : quiet (migration_info_internal (W := W) os fs l foh).
Proof. unfold migration_info_internal. respect. Qed.

Lemma quiet_new_id : quiet (new_inode_id (W := W)).
Proof. unfold new_inode_id. respect. done. Qed.

Lemma quiet_dentries f : quiet (update_dentries (W := W) f).
Proof. unfold update_dentries. respect. done. Qed.
End Quiet.
#[export] Hint Resolve quiet_openable_open quiet_get_file quiet_open_file quiet_file_drop quiet_get_path
  quiet_at_path quiet_open_relative quiet_open_inode quiet_find_handle quiet_handle_opt quiet_openable
  quiet_serializable quiet_info_internal quiet_new_id quiet_dentries : eff.

(** ** Lookups *)

Section Lookups.
Context {W M : Type} `{Host W} `{RangeMap M MapEntry}.
Context (checks : bool) (os : HostOs) (fs : Setup M).

Local Notation state := (PassthroughFs W).
Local Notation IO := (eff state).
Local Notation quiet := (respects untouched).
Local Notation spends := (spends checks fs).
Local Notation neutral := (neutral checks fs).

(** Something is acquired and released without touching the tables. *)
Lemma spends_around {A B} k g (acquire : IO B) (m : B -> IO A) (release : B -> IO unit) t :
  0 <= k -> quiet acquire -> (forall x, quiet (release x)) ->
  (forall x, spends k g (m x) t g) -> spends k g (x ← acquire; finally (m x) (release x)) t g.
Proof.
  intros Hk Ha Hr Hm. apply (spends_le _ _ (0 + (k + 0))); [lia|].
  apply (spends_bind _ _ 0 (k + 0) _ _ _ (fun _ => g)); [lia|by apply spends_quiet|]. intros x.
  apply (spends_finally _ _ k 0 _ _ _ t t g g); [done|done|..]; intros; by apply spends_quiet.
Qed.

Lemma spends_with_file {A} k g d (c : Z -> IO A) t :
  0 <= k -> (forall fd, spends k g (c fd) t g) -> spends k g (with_file os d c) t g.
Proof.
  intros Hk Hc. apply (spends_around _ _ _ (fun f => c (raw_fd f)) inode_file_drop);
    [done|eauto with eff..|done].
Qed.

(** A quiet step first. *)
Lemma spends_quiet_bind {A B} k g (m : IO A) (c : A -> IO B) t :
  0 <= k -> quiet m -> (forall a, spends k g (c a) t g) -> spends k g (a ← m; c a) t g.
Proof.
  intros Hk Hm Hc. apply (spends_le _ _ (0 + k)); [lia|].
  apply (spends_bind _ _ 0 k _ _ _ (fun _ => g)); [done|by apply spends_quiet|done].
Qed.

Definition looked_up (r : option Z * Z * StatExt * option FileHandle) : loot := found r.1.1.1.

Lemma spends_try_lookup_impl p name :
  spends 1 nothing (try_lookup_implementation checks os fs p name) looked_up nothing.
Proof.
  apply spends_with_file; [done|]. intros p_file. apply spends_quiet_bind; [done|eauto with eff|].
  intros path_fd. apply (spends_on_failure _ _ 1 0 _ _ _ _ nothing); [done| |apply spends_close].
  apply spends_quiet_bind; [done|eauto with eff|]. intros st.
  apply spends_quiet_bind; [done|eauto with eff|]. intros handle.
  apply (spends_bind _ _ 1 0 _ _ _ found); [done|apply spends_claim|]. intros o.
  by intros n s b Hn Hb Hs.
Qed.

Lemma spends_try_lookup p name : spends 1 nothing (try_lookup checks os fs p name) found nothing.
Proof.
  apply (spends_bind _ _ 1 0 _ _ _ looked_up); [done|apply spends_try_lookup_impl|].
  intros [[[o fd] st] h]. apply (spends_bind _ _ 0 0 _ _ _ (fun _ => found o)); [done| |].
  - apply spends_close.
  - intros _. by intros n s b Hn Hb Hs.
Qed.

(** The references in a migration info. *)
Lemma spends_info_internal l foh :
  spends 0 (refs_of (strong_references {| location := l; mig_file_handle := None |}))
    (migration_info_internal os fs l foh) (fun mi => refs_of (strong_references mi))
    (refs_of (strong_references {| location := l; mig_file_handle := None |})).
Proof.
  apply spends_quiet_bind; [done|respect; eauto with eff|]. intros h.
  by intros n s b Hn Hb Hs.
Qed.

Lemma spends_info_new p name foh :
  spends 0 (ref p) (migration_info_new checks os fs p name foh)
    (fun mi => refs_of (strong_references mi)) nothing.
Proof.
  unfold migration_info_new. case_match.
  - apply (spends_on_failure _ _ 0 0 _ _ _ _ (ref p)); [done| |apply spends_drop_ref].
    case_match; [apply (spends_info_internal (Path p name))|apply spends_throw].
  - eapply (spends_finally _ _ 0 0 _ _ _
      (fun mi => both (ref p) (refs_of (strong_references mi))) _ (ref p)); [done|..].
    + apply spends_quiet_bind; [done|respect; eauto with eff|]. intros h.
      apply spends_quiet_bind; [done|respect|]. intros h'.
      eapply spends_weaken; [apply (spends_frame _ _ (ref p)); [done|];
        apply (spends_info_internal (ByFileHandle h') foh)|done|balance|done|balance].
    + intros mi. eapply spends_weaken;
        [apply (spends_frame _ _ (refs_of (strong_references mi))); [done|];
         apply (spends_drop_ref _ _ p nothing)|done|balance|intros ?; balance|balance].
    + apply spends_drop_ref.
Qed.

Lemma spends_lookup_entry parent name fl st i :
  spends 0 (ref i) (lookup_entry checks fs parent name fl st i)
    (fun e => ref (entry_inode e)) nothing.
Proof.
  apply (spends_bind _ _ 0 0 _ _ _ (fun _ => ref i)); [done| |].
  - apply (spends_on_failure _ _ 0 0 _ _ _ _ (ref i)); [done|apply spends_lift|].
    apply spends_drop_ref.
  - intros attr. apply (spends_bind _ _ 0 0 _ _ _ (fun _ => ref i)); [done| |].
    + eapply spends_infallible; [|apply spends_quiet, quiet_dentries]. done.
    + intros _. by intros n s b Hn Hb Hs.
Qed.

(** The migration info of a new inode. *)
Lemma spends_new_info (tracked : bool) parent name foh :
  spends 1 nothing
    (if tracked then
       parent_strong_ref ← strong_ref checks parent;
       mi ← migration_info_new checks os fs parent_strong_ref name foh;
       mret (Some mi)
     else mret None)
    (fun mi => refs_of (info_references mi)) nothing.
Proof.
  destruct tracked; [|by apply (spends_le _ _ 0); [done|intros n s b Hn Hb Hs]].
  apply (spends_bind _ _ 1 0 _ _ _ ref); [done|apply spends_strong_ref|]. intros p.
  apply (spends_bind _ _ 0 0 _ _ _ (fun mi => refs_of (strong_references mi)));
    [done|apply spends_info_new|]. intros mi. by intros n s b Hn Hb Hs.
Qed.

Lemma spends_insert_inode parent name st foh :
  spends 2 (files_of (file_count foh)) (insert_inode checks os fs parent name st foh) ref nothing.
Proof.
  set (f := files_of (file_count foh)). apply spends_gets_any. intros tracked.
  apply (spends_bind _ _ 1 1 _ _ _ (fun mi => both f (refs_of (info_references mi)))); [done| |].
  - apply (spends_on_failure _ _ 1 0 _ _ _ _ f); [done| |apply spends_drop_foh].
    eapply spends_weaken; [apply (spends_frame _ _ f); [apply file_count_nonneg|];
      apply (spends_new_info tracked parent name foh)|done|balance|done|balance].
  - intros mi. apply (spends_le _ _ (0 + 1)); [done|].
    apply (spends_bind _ _ 0 1 _ _ _ (fun _ => both f (refs_of (info_references mi)))); [done| |].
    + eapply spends_infallible; [|apply spends_quiet, quiet_new_id]. done.
    + intros i. eapply spends_weaken; [apply spends_store_get_or_insert|done| |done..].
      unfold f, given, data_references, info_references. cbn [migration_info file_or_handle]. balance.
Qed.

Lemma spends_do_lookup parent name :
  spends 3 nothing (do_lookup checks os fs parent name) (fun e => ref (entry_inode e)) nothing.
Proof.
  apply spends_with_inode; [done..|]. intros p.
  apply (spends_bind _ _ 1 2 _ _ _ looked_up); [done|apply spends_try_lookup_impl|].
  intros [[[o path_fd] st] h]. apply spends_gets_any. intros announce.
  unfold looked_up. simpl. destruct o as [i|]; [|destruct h as [h|]].
  - apply (spends_le _ _ (0 + 0)); [done|].
    apply (spends_finally _ _ 0 0 _ _ _ (fun e => ref (entry_inode e)) _ nothing);
      [done|apply spends_lookup_entry|intros e; apply spends_close|apply spends_close].
  - apply (spends_finally _ _ 2 0 _ _ _ (fun e => ref (entry_inode e)) _ nothing);
      [done| |intros e; apply spends_close|apply spends_close].
    apply spends_quiet_bind; [done|eauto with eff|]. intros openable.
    apply (spends_bind _ _ 2 0 _ _ _ ref); [done| |intros; apply spends_lookup_entry].
    apply (spends_insert_inode parent name st (Handle openable)).
  - apply (spends_bind _ _ 0 2 _ _ _ (fun _ => files_of 1)); [done|apply spends_allocate|].
    intros _. apply (spends_bind _ _ 2 0 _ _ _ ref); [done| |intros; apply spends_lookup_entry].
    apply (spends_insert_inode parent name st (File path_fd)).
Qed.
End Lookups.

(** ** Operations that hand nothing out *)

Section Neutral.
Context {W M : Type} `{Host W} `{RangeMap M MapEntry}.
Context (checks : bool) (os : HostOs) (fs : Setup M).

Local Notation state := (PassthroughFs W).
Local Notation IO := (eff state).
Local Notation quiet := (respects untouched).
Local Notation neutral := (neutral checks fs 0).

Lemma neutral_ret {A} (a : A) : neutral (mret (M := eff state) a).
Proof. by intros n s b Hn Hb Hs. Qed.

Lemma neutral_lift {A} (r : io A) : neutral (lift (S := state) r).
Proof. apply spends_lift. Qed.

Lemma neutral_throw {A} err : neutral (throw (S := state) (A := A) err).
Proof. apply spends_lift. Qed.

Lemma neutral_gets {A B} (f : state -> A) (c : A -> IO B) :
  (forall a, neutral (c a)) -> neutral (a ← gets f; c a).
Proof. apply spends_gets_any. Qed.

Lemma neutral_ignore {A} (m : IO A) : neutral m -> neutral (ignore m).
Proof. apply spends_ignore. Qed.

Lemma neutral_when c (m : IO unit) : neutral m -> neutral (when_ c m).
Proof. by apply spends_when. Qed.

Lemma neutral_expect {A} (m : IO A) : neutral m -> neutral (expect m).
Proof. apply spends_expect. Qed.

Lemma neutral_each {A} (m : A -> IO unit) l : (forall a, neutral (m a)) -> neutral (each m l).
Proof.
  intros Hm. induction l; simpl; [apply neutral_ret|]. by apply neutral_bind.
Qed.

Lemma neutral_with_inode {A} i (c : InodeData -> IO A) :
  (forall d, neutral (c d)) -> neutral (with_inode checks fs i c).
Proof. by apply spends_with_inode. Qed.

Lemma neutral_with_file {A} d (c : Z -> IO A) :
  (forall fd, neutral (c fd)) -> neutral (with_file os d c).
Proof. by apply spends_with_file. Qed.

Lemma neutral_in_proc {A} (m : IO A) : neutral m -> neutral (in_proc_self_fd fs m).
Proof.
  intros Hm. apply neutral_bind; [apply neutral_quiet; respect|]. intros _.
  apply neutral_finally; [done|]. apply neutral_quiet. respect.
Qed.

Lemma neutral_credentials {A} ctx ext (m : IO A) :
  neutral m -> neutral (with_credentials checks os fs ctx ext m).
Proof.
  intros Hm. apply neutral_bind; [apply neutral_quiet; respect|]. intros g.
  apply neutral_finally; [done|]. apply neutral_quiet. respect.
Qed.

Lemma neutral_umask {A} u (m : IO A) : neutral m -> neutral (with_umask u m).
Proof.
  intros Hm. apply neutral_gets. intros [|]; [|done].
  apply neutral_bind; [apply neutral_quiet; respect|]. intros g.
  apply neutral_finally; [done|]. apply neutral_quiet. respect.
Qed.

Lemma neutral_killing_priv {A} c (m : IO A) : neutral m -> neutral (killing_priv os c m).
Proof.
  intros Hm. destruct c; [|done]. apply neutral_bind; [apply neutral_quiet; respect|]. intros g.
  apply neutral_finally; [done|]. apply neutral_quiet. respect.
Qed.
Lemma neutral_more_links n d : neutral (more_links_than os n d).
Proof.
  apply neutral_quiet. unfold more_links_than, link_count, with_file. respect.
Qed.
End Neutral.

#[export] Hint Resolve neutral_more_links : eff.

(** Follows the structure of an operation. *)
Ltac settle :=
  repeat lazymatch goal with
  | |- forall _, _ => intros ?
  | |- neutral _ _ 0 (mret _) => apply neutral_ret
  | |- neutral _ _ 0 (lift _) => apply neutral_lift
  | |- neutral _ _ 0 (throw _) => apply neutral_throw
  | |- neutral _ _ 0 (mbind _ (gets _)) => apply neutral_gets; intros ?
  | |- neutral _ _ 0 (mbind _ _) => apply neutral_bind; [|intros ?]
  | |- neutral _ _ 0 (attempt _) => apply neutral_attempt
  | |- neutral _ _ 0 (finally _ _) => apply neutral_finally
  | |- neutral _ _ 0 (on_failure _ _) => apply neutral_on_failure
  | |- neutral _ _ 0 (ignore _) => apply neutral_ignore
  | |- neutral _ _ 0 (when_ _ _) => apply neutral_when
  | |- neutral _ _ 0 (expect _) => apply neutral_expect
  | |- neutral _ _ 0 (each _ _) => apply neutral_each; intros ?
  | |- neutral _ _ 0 (with_inode _ _ _ _) => apply neutral_with_inode; intros ?
  | |- neutral _ _ 0 (with_file _ _ _) => apply neutral_with_file; intros ?
  | |- neutral _ _ 0 (in_proc_self_fd _ _) => apply neutral_in_proc
  | |- neutral _ _ 0 (with_credentials _ _ _ _ _ _) => apply neutral_credentials
  | |- neutral _ _ 0 (with_umask _ _) => apply neutral_umask
  | |- neutral _ _ 0 (killing_priv _ _ _) => apply neutral_killing_priv
  | |- neutral _ _ 0 (match ?x with _ => _ end) => destruct x
  | |- neutral _ _ 0 (let _ := _ in _) => cbv zeta
  | |- neutral _ _ 0 _ => first [progress eauto 3 with eff | apply neutral_quiet; progress eauto 3 with eff]
  end.

(** ** Paths that change

    How far a count goes up while paths are walked depends on the paths the host
    reports; from here on an overflow is caught. *)

Section Invalidation.
Context {W M : Type} `{Host W} `{RangeMap M MapEntry}.
Context (os : HostOs) (fs : Setup M).

Local Notation state := (PassthroughFs W).
Local Notation IO := (eff state).
Local Notation quiet := (respects untouched).
Local Notation spends := (spends true fs 0).
Local Notation neutral := (neutral true fs 0).

Lemma free {A} k g (m : IO A) t e : Ownership.spends true fs k g m t e -> spends g m t e.
Proof. by apply spends_checked. Qed.

(** What a walk returns. *)
Definition walked (r : res WrappedError Z) : loot := match r with Ok i => ref i | _ => nothing end.

Lemma spends_walk_path parent l :
  spends (ref parent) (walk_path true os fs parent l) walked nothing.
Proof.
  revert parent. induction l as [|element l IH]; intros parent; [by intros n s b Hn Hb Hs|].
  cbn [walk_path]. eapply (spends_bind _ _ 0 0); [done| |].
  { apply spends_attempt. eapply spends_weaken;
      [apply (spends_frame _ _ (ref parent)); [done|]; eapply free, spends_do_lookup
      |done|balance|reflexivity..]. }
  intros [entry|err|]; cbv beta iota; [| |apply spends_panic].
  2: { eapply (spends_then _ _ nothing 0 0 (ref parent)); [apply infallible_drop_ref|done..| |balance|].
       - apply (spends_drop_ref _ _ parent nothing).
       - by intros n s b Hn Hb Hs. }
  apply spends_gets_any. intros [d|]; [|apply spends_panic].
  destruct (migration_info d) as [info|].
  { eapply (spends_then _ _ (ref (entry_inode entry)) 0 0 (ref parent));
      [apply infallible_drop_ref|done..| |balance|apply IH].
    apply (spends_drop_ref _ _ parent nothing). }
  eapply (spends_bind _ _ 0 0); [done| |].
  { apply spends_attempt. eapply spends_weaken;
      [apply (spends_frame _ _ (ref (entry_inode entry))); [done|]; apply (spends_info_new _ _ _ parent)
      |done|balance|reflexivity..]. }
  intros [mi|err|]; cbv beta iota; [| |apply spends_panic].
  - eapply (spends_then _ _ (ref (entry_inode entry)) 0 0 (refs_of (strong_references mi)));
      [apply infallible_put|done..| |reflexivity|apply IH].
    apply (spends_put _ _ (entry_inode entry) (Some mi) nothing).
  - eapply (spends_then _ _ nothing 0 0 (ref (entry_inode entry)));
      [apply infallible_drop_ref|done..| |balance|].
    + apply (spends_drop_ref _ _ (entry_inode entry) nothing).
    + by intros n s b Hn Hb Hs.
Qed.

Lemma neutral_fall_back d e : neutral (path_error_fall_back os d e).
Proof.
  destruct e as [err|err|]; cbn [path_error_fall_back];
    [apply neutral_ret| |apply neutral_more_links].
  destruct err; first [apply neutral_ret|apply neutral_more_links].
Qed.

Lemma neutral_set_path d shared :
  neutral (set_path_migration_info_from_proc_self_fd true os fs d shared).
Proof.
  apply neutral_bind; [apply neutral_quiet; eauto with eff|]. intros [abs_path|e|].
  - destruct (relative_path abs_path shared) as [rel|err|].
    + destruct (negb _); [apply neutral_ret|].
      eapply (spends_bind _ _ 0 0); [done|eapply spends_attempt, free, spends_strong_ref|].
      intros [root|err|]; cbv beta iota; [|apply neutral_ret|apply neutral_lift].
      eapply (spends_bind _ _ 0 0); [done|apply spends_walk_path|].
      intros [found|e|]; [|apply neutral_ret|apply neutral_lift].
      eapply (spends_then _ _ nothing 0 0 (ref found));
        [apply infallible_drop_ref|done..| |unfold walked; balance|].
      * apply (spends_drop_ref _ _ found nothing).
      * apply neutral_ret.
    + apply neutral_bind; [apply neutral_more_links|]. intros. apply neutral_ret.
    + apply neutral_lift.
  - apply neutral_bind; [apply neutral_fall_back|]. intros. apply neutral_ret.
  - apply neutral_lift.
Qed.

Lemma neutral_refresh d : neutral (after_invalidating_path_refresh true os fs d).
Proof.
  apply neutral_gets. intros [root|]; [|apply neutral_lift].
  apply neutral_bind; [apply spends_pin; [done..|]; apply neutral_quiet; eauto with eff|]. intros path.
  apply neutral_bind; [apply neutral_lift|]. intros shared.
  apply neutral_bind; [apply neutral_set_path|]. intros r. apply neutral_lift.
Qed.

Lemma spends_before_invalidating d name :
  spends nothing (before_invalidating_path true os fs d name) found nothing.
Proof.
  eapply (spends_bind _ _ 0 0); [done|eapply spends_attempt, free, spends_try_lookup|].
  by intros [o|err|] n s b Hn Hb Hs.
Qed.

Lemma spends_after_invalidating i :
  spends (ref i) (after_invalidating_path true os fs i) (fun _ => nothing) nothing.
Proof.
  eapply (spends_finally _ _ 0 0 _ _ _ (fun _ => ref i) _ (ref i)); [done| |intros ?|];
    [|apply spends_drop_ref..].
  apply neutral_keeps; [done|]. apply neutral_gets. intros [d|]; [|apply neutral_ret].
  destruct (migration_info d) as [mi|]; [|apply neutral_ret].
  destruct (has_path mi); [|apply neutral_ret].
  eapply (spends_bind _ _ 0 0); [done|apply (spends_swap _ _ i None)|]. intros old.
  eapply (spends_finally _ _ 0 0 _ _ _ (fun _ => refs_of (info_references old)) _
            (refs_of (info_references old))); [done| |intros ?; apply spends_each_drop..|].
  - apply neutral_keeps; [done|]. apply neutral_ignore, neutral_refresh.
  - apply spends_each_drop.
Qed.

Lemma neutral_invalidating {A} d name (m : IO A) :
  neutral m -> neutral (invalidating true os fs d name m).
Proof.
  intros Hm. eapply (spends_bind _ _ 0 0); [done|apply spends_before_invalidating|].
  intros [i|]; [|done]. simpl. eapply (spends_bind _ _ 0 0 _ _ _ (fun _ => ref i)); [done| |].
  - eapply (spends_on_failure _ _ 0 0 _ _ _ _ (ref i)); [done| |apply spends_drop_ref].
    by apply neutral_keeps.
  - intros r. eapply (spends_bind _ _ 0 0); [done|apply spends_after_invalidating|].
    intros ?. apply neutral_ret.
Qed.

Lemma neutral_update_info d name : neutral (update_inode_migration_info true os fs d name).
Proof.
  apply neutral_gets. intros [|]; [|apply neutral_ret]. simpl.
  eapply (spends_bind _ _ 0 0); [done|eapply free, spends_try_lookup|].
  intros [i|]; [|apply neutral_ret]. simpl.
  eapply (spends_finally _ _ 0 0 _ _ _ (fun _ => ref i) _ (ref i)); [done| |intros ?|];
    [|apply spends_drop_ref..].
  apply neutral_keeps; [done|]. apply neutral_gets. intros o.
  apply neutral_bind; [apply neutral_lift|]. intros e.
  eapply (spends_bind _ _ 0 0); [done|eapply free, spends_strong_ref|]. intros p.
  set (kept := match migration_info e with Some mi => negb (has_path mi) | None => false end).
  destruct kept; [apply spends_drop_ref|].
  eapply (spends_then _ _ (ref p) 0 0 nothing); [apply infallible_put|done..| |balance|].
  - apply (spends_put _ _ i None nothing).
  - eapply (spends_bind _ _ 0 0); [done|apply spends_info_new|]. intros mi.
    apply (spends_put _ _ i (Some mi)).
Qed.
End Invalidation.

(** ** Open files *)

Section Handles.
Context {W M : Type} `{Host W} `{RangeMap M MapEntry}.
Context (checks : bool) (os : HostOs) (fs : Setup M).

Local Notation state := (PassthroughFs W).
Local Notation IO := (eff state).
Local Notation quiet := (respects untouched).
Local Notation spends := (spends checks fs 0).
Local Notation neutral := (neutral checks fs 0).

Lemma pays_drop_handle hd : pays fs (handle_count hd) (drop_handle (W := W) checks fs hd) 0.
Proof.
  unfold drop_handle, handle_count. destruct (hd_file hd);
    [apply pays_guest_file_drop|apply pays_ret].
Qed.

Lemma handle_count_nonneg hd : 0 <= handle_count hd.
Proof. unfold handle_count. by destruct (hd_file hd). Qed.

(** The books after a change of the handle table. *)
Lemma books_set_handles k (s : state) b g g' m :
  nonneg b -> 0 <= files g' -> refs g = refs g' ->
  open_files m + files g' = open_files (handles s) + files g ->
  books checks fs k s (gain b g) -> books checks fs k (set_handles m s) (gain b g').
Proof.
  intros [_ Hb] Hf Hrefs Ho (Hw & Hrc & Hr & Ha & Hn & Hl & Hm).
  split_and!; simpl in *; try done; [by rewrite <- Hrefs|].
  unfold slots, guest_files in *. simpl in *. lia.
Qed.

Lemma spends_insert_handle h hd e :
  spends (files_of (handle_count hd)) (insert_handle checks fs h hd) (fun _ => nothing) e.
Proof.
  apply spends_gets. intros k s b Hk Hb Hs. unfold modify, mbind, eff_bind. simpl.
  destruct (handles s !! h) as [old|] eqn:Ho.
  - assert (Hp := spends_pays checks fs _ _ e (pays_drop_handle old)). apply (Hp k); [done..|].
    eapply books_set_handles, Hs; [done|apply handle_count_nonneg|done|]. simpl.
    rewrite <- insert_delete_eq, open_files_insert by apply lookup_delete_eq.
    rewrite (open_files_delete _ _ _ Ho). lia.
  - simpl. eapply books_set_handles, Hs; [done..|]. simpl. rewrite open_files_insert by done. lia.
Qed.

Lemma neutral_hand_out i fd ft fl : neutral (hand_out checks os fs i fd ft fl).
Proof.
  apply neutral_bind; [apply neutral_quiet; unfold new_handle; respect; done|]. intros h.
  apply (spends_bind _ _ 0 0 _ _ _ (fun _ => files_of 1)); [done|apply spends_allocate|].
  intros _. eapply (spends_bind _ _ 0 0 _ _ _ (fun _ => nothing)); [done| |].
  - apply (spends_insert_handle h
      {| hd_inode := i; hd_file := HandleFile fd; hd_file_type := ft;
         hd_migration_info := handle_migration_info_new os fl |}).
  - intros _. apply neutral_ret.
Qed.

Lemma neutral_do_release i h : neutral (do_release checks fs i h).
Proof.
  apply spends_gets. intros k s b Hk Hb Hs. simpl.
  destruct (handles s !! h) as [hd|] eqn:Ho; [|done]. destruct (hd_inode hd =? i); [|done].
  unfold modify, mbind, eff_bind. simpl.
  assert (Hp := spends_pays checks fs _ _ nothing (pays_drop_handle hd)). apply (Hp k); [done..|].
  eapply books_set_handles, Hs; [done|apply handle_count_nonneg|done|]. simpl.
  rewrite (open_files_delete _ _ _ Ho). lia.
Qed.

Lemma quiet_block_xattr name : quiet (block_xattr (W := W) name).
Proof. unfold block_xattr. respect. Qed.
#[local] Hint Resolve quiet_block_xattr : eff.

Lemma quiet_client_name name : quiet (map_client_xattrname (W := W) os fs name).
Proof. unfold map_client_xattrname. respect. Qed.

Lemma quiet_filter_blocked l : quiet (filter_blocked (W := W) l).
Proof. induction l; simpl; respect. Qed.
#[local] Hint Resolve quiet_client_name quiet_filter_blocked neutral_hand_out : eff.

Lemma neutral_clear_caps fd ft o : neutral (clear_file_capabilities (W := W) os fs fd ft o).
Proof. unfold clear_file_capabilities. settle. Qed.
#[local] Hint Resolve neutral_clear_caps : eff.

Lemma neutral_do_open i kp f : neutral (do_open checks os fs i kp f).
Proof. unfold do_open, apply_nocache. settle. Qed.

Lemma neutral_do_getattr i : neutral (do_getattr checks os fs i).
Proof. unfold do_getattr. settle. Qed.

Lemma quiet_handle_fd h i : quiet (handle_fd (W := W) h i).
Proof. unfold handle_fd. respect. Qed.

Lemma neutral_on_xattrs {A} d (safe other : Z -> IO (option A)) :
  (forall fd, neutral (safe fd)) -> (forall fd, neutral (other fd)) ->
  neutral (on_xattrs os fs d safe other).
Proof. intros Hs Ho. unfold on_xattrs. settle; done. Qed.

Lemma neutral_clear_sgid fd o : neutral (clear_sgid (W := W) os fs fd o).
Proof. unfold clear_sgid. settle. Qed.
End Handles.
#[export] Hint Resolve quiet_block_xattr quiet_client_name quiet_filter_blocked quiet_handle_fd
  neutral_hand_out neutral_clear_caps neutral_do_release neutral_do_open neutral_do_getattr
  neutral_clear_sgid neutral_invalidating neutral_update_info : eff.

(** ** The operations *)

Section Operations.
Context {W M : Type} `{Host W} `{RangeMap M MapEntry}.
Context (os : HostOs) (fs : Setup M).

Local Notation state := (PassthroughFs W).
Local Notation IO := (eff state).
Local Notation quiet := (respects untouched).
Local Notation spends := (spends true fs 0).
Local Notation neutral := (neutral true fs 0).

Lemma neutral_setattr i attr h valid : neutral (setattr true os fs i attr h valid).
Proof.
  unfold setattr, setattr_mode, setattr_owner, setattr_size, setattr_times. settle.
Qed.

Lemma neutral_readlink i : neutral (readlink true os fs i).
Proof. unfold readlink. settle. Qed.

Lemma neutral_do_unlink parent name fl : neutral (do_unlink true os fs parent name fl).
Proof.
  unfold do_unlink. settle. apply neutral_invalidating. settle.
Qed.

Lemma neutral_rename od on nd nn fl : neutral (rename true os fs od on nd nn fl).
Proof.
  unfold rename. settle. apply neutral_invalidating. unfold rename_call. settle.
Qed.

Lemma neutral_write i h r size off dw kp fl : neutral (write os fs i h r size off dw kp fl).
Proof. unfold write. settle. Qed.

Lemma quiet_read i h w size off :
  quiet (fun s : state => let '(s', _, r) := read i h w size off s in (s', r)).
Proof.
  intros s. unfold read. pose proof (quiet_handle_fd h i s) as Hq.
  destruct (handle_fd h i s) as [s1 [fd|e|]]; [|done..].
  by destruct (zc_transfer _ _ _ _) as [[w' stored] r].
Qed.

Lemma neutral_access ctx i mask : neutral (access true os fs ctx i mask).
Proof. unfold access. settle. Qed.

Lemma neutral_setxattr i name value fl extra : neutral (setxattr true os fs i name value fl extra).
Proof. unfold setxattr. settle. apply neutral_on_xattrs; settle. Qed.

Lemma neutral_getxattr i name size : neutral (getxattr true os fs i name size).
Proof. unfold getxattr. settle. apply neutral_on_xattrs; settle. Qed.

Lemma neutral_listxattr i size : neutral (listxattr true os fs i size).
Proof.
  unfold listxattr, map_server_xattrlist. settle. apply neutral_on_xattrs; settle.
Qed.

Lemma neutral_removexattr i name : neutral (removexattr true os fs i name).
Proof. unfold removexattr. settle. apply neutral_on_xattrs; settle. Qed.

Lemma neutral_readdir rounds i h size off : neutral (readdir true os rounds i h size off).
Proof. unfold readdir. settle. Qed.

Lemma quiet_write_out fuel fd data off : quiet (write_out (W := W) true fuel fd data off).
Proof. revert data off. induction fuel; intros [|] off; simpl; respect. Qed.
#[local] Hint Resolve quiet_write_out : eff.

Lemma quiet_copy_loop rounds fuel fi oi fo oo len t r :
  quiet (copy_loop (W := W) true rounds fuel fi oi fo oo len t r).
Proof. revert oi oo t r. induction fuel; intros; simpl; respect. Qed.
#[local] Hint Resolve quiet_copy_loop : eff.

Lemma neutral_copyfilerange rounds ii hi oi io ho oo len fl :
  neutral (copyfilerange true os rounds ii hi oi io ho oo len fl).
Proof. unfold copyfilerange. settle. Qed.

Lemma neutral_label_node pf name ext uf : neutral (label_node (W := W) os fs pf name ext uf).
Proof. unfold label_node, do_mknod_mkdir_symlink_secctx. settle. Qed.

(** A new name, and the reference its lookup returns. *)
Lemma spends_make_node ctx parent name ext uf call :
  (forall fd, neutral (call fd)) ->
  spends nothing (make_node true os fs ctx parent name ext uf call)
    (fun e => ref (entry_inode e)) nothing.
Proof.
  intros Hcall. apply spends_with_inode; [done..|]. intros d.
  apply spends_with_file; [done|]. intros pf.
  apply (spends_bind _ _ 0 0 _ _ _ (fun _ => nothing)); [done| |intros res].
  { apply neutral_invalidating, neutral_credentials, Hcall. }
  apply (spends_bind _ _ 0 0 _ _ _ (fun _ => nothing)); [done| |intros _].
  { apply neutral_quiet. eauto with eff. }
  apply (spends_bind _ _ 0 0 _ _ _ (fun _ => nothing)); [done| |intros _].
  { apply neutral_label_node. }
  eapply free, spends_do_lookup.
Qed.

Lemma spends_link i np name :
  spends nothing (link true os fs i np name) (fun e => ref (entry_inode e)) nothing.
Proof.
  apply spends_with_inode; [done..|]. intros d. apply spends_with_inode; [done..|]. intros d'.
  apply spends_with_file; [done|]. intros f. apply spends_with_file; [done|]. intros f'.
  apply spends_quiet_bind; [done|eauto with eff|]. intros [dirfd p].
  apply (spends_bind _ _ 0 0 _ _ _ (fun _ => nothing)); [done| |intros res].
  { apply neutral_invalidating. settle. }
  apply spends_quiet_bind; [done|eauto with eff|]. intros _. eapply free, spends_do_lookup.
Qed.

(** *** CREATE

    What is left behind by an error is described by a set of possible loots. *)

Definition leaves {A} (b : owned) (t : A -> loot) (E : loot -> Prop) (r : state * io A) : Prop :=
  match r with
  | (s, Ok a) => books true fs 0 s (gain b (t a))
  | (s, Err _) => exists e, E e /\ books true fs 0 s (gain b e)
  | (_, Panic) => True
  end.

Lemma leaves_finally {A} b (t : A -> loot) (E : loot -> Prop) (m : IO A) c s :
  nonneg b -> (forall a, 0 <= files (t a)) -> (forall e, E e -> 0 <= files e) -> neutral c ->
  leaves b t E (m s) -> leaves b t E (finally m c s).
Proof.
  intros Hb Ht He Hc Hm. unfold leaves, finally in *. destruct (m s) as [s1 [a|err|]].
  - pose proof (neutral_keeps _ _ 0 c (t a) (Ht a) Hc 0 s1 b ltac:(done) Hb Hm) as Hr.
    unfold balanced in Hr. by destruct (c s1) as [s2 [[]|?|]].
  - destruct Hm as (e & HE & Hs).
    pose proof (neutral_keeps _ _ 0 c e (He e HE) Hc 0 s1 b ltac:(done) Hb Hs) as Hr.
    unfold balanced in Hr. destruct (c s1) as [s2 [[]|?|]]; eauto.
  - by destruct (c s1) as [s2 [[]|?|]].
Qed.

(** Nothing, or one reference. *)
Definition one_lost (e : loot) : Prop := e = nothing \/ exists i, e = ref i.

Definition created (r : Entry * option Z * Z) : loot := ref (entry_inode r.1.1).

Lemma spends_create_lookup parent name hf fd :
  spends nothing (create_lookup true os fs parent name hf fd)
    (fun e => ref (entry_inode e)) nothing.
Proof.
  destruct fd as [fd|err|]; cbn [create_lookup]; [|case_match|apply spends_panic].
  - eapply (spends_on_failure _ _ 0 0 _ _ _ _ nothing); [done| |apply spends_close].
    eapply (spends_bind _ _ 0 0 _ _ _ (fun _ => nothing)); [done| |].
    + change (neutral (apply_nocache (W := W) os fs fd true (nocache hf))). unfold apply_nocache. settle.
    + intros _. eapply free, spends_do_lookup.
  - eapply free, spends_do_lookup.
  - apply spends_throw.
Qed.

Lemma neutral_create_open entry mode kp hf fd :
  neutral (create_open true os fs entry mode kp hf fd).
Proof. unfold create_open. settle. Qed.

Lemma neutral_do_create ctx pf name mode fl umask ext :
  neutral (do_create true os fs ctx pf name mode fl umask ext).
Proof. unfold do_create. settle. Qed.

Lemma leaves_bind {A B} b g (m : IO A) (c : A -> IO B) t (E : loot -> Prop) s t' :
  nonneg b -> spends g m t nothing -> books true fs 0 s (gain b g) -> E nothing ->
  (forall a s1, books true fs 0 s1 (gain b (t a)) -> leaves b t' E (c a s1)) ->
  leaves b t' E ((a ← m; c a) s).
Proof.
  intros Hb Hm Hs HE Hc. specialize (Hm 0 s b ltac:(done) Hb Hs). unfold mbind, eff_bind.
  unfold balanced in Hm. destruct (m s) as [s1 [a|err|]]; [by apply Hc| |done]. simpl. eauto.
Qed.

Lemma create_leaves ctx parent name mode kp fl umask ext s b :
  nonneg b -> books true fs 0 s (gain b nothing) ->
  leaves b created one_lost (create true os fs ctx parent name mode kp fl umask ext s).
Proof.
  intros Hb Hs. assert (HE : one_lost nothing) by by left.
  assert (Hf : forall e, one_lost e -> 0 <= files e) by by intros e [->|[i ->]].
  unfold create, with_inode. eapply (leaves_bind _ nothing _ _ (fun _ => nothing));
    [done|apply neutral_quiet, respects_gets, _|done|done|]. clear s Hs. intros [d|] s Hs; [|simpl; eauto].
  eapply (leaves_bind _ nothing _ _ (fun _ => nothing));
    [done|by apply neutral_quiet, quiet_modify|done|done|]. clear s Hs. intros _ s Hs.
  apply leaves_finally; [done..|apply spends_unpin|]. unfold with_file.
  eapply (leaves_bind _ nothing _ _ (fun _ => nothing));
    [done|apply neutral_quiet; eauto with eff|done|done|]. clear s Hs. intros file s Hs.
  apply leaves_finally; [done..|apply neutral_quiet; eauto with eff|]. cbv zeta.
  eapply (leaves_bind _ nothing _ _ (fun _ => nothing));
    [done|apply neutral_attempt, neutral_do_create|done|done|]. clear s Hs. intros fd s Hs.
  eapply leaves_bind; [done|apply spends_create_lookup|done|done|]. clear s Hs. intros entry s Hs.
  pose proof (neutral_keeps _ _ 0 _ (ref (entry_inode entry)) ltac:(done)
    (neutral_create_open entry mode kp (guest_open_flags os fs fl) fd) 0 s b ltac:(done) Hb Hs) as Hr.
  unfold balanced, mbind, eff_bind in *. destruct (create_open _ _ _ _ _ _ _ _ s) as [s1 [h|err|]];
    simpl; [done| |done]. exists (ref (entry_inode entry)). split; [|done]. right. eauto.
Qed.

(** A CREATE up to its lookup; [create] goes on with the entry it returns. *)
Definition create_looked_up ctx parent name mode fl umask ext : IO Entry :=
  with_inode true fs parent (fun d =>
    with_file os d (fun parent_file =>
      fd ← attempt (do_create true os fs ctx parent_file name mode
                      (Z.ldiff (flags (guest_open_flags os fs fl)) (O_APPEND os)) umask ext);
      create_lookup true os fs parent name (guest_open_flags os fs fl) fd)).

(** Where the first run has found an entry, the second has kept its reference. *)
Definition entry_kept {A} (b : owned) (r1 : state * io Entry) (r2 : state * io A) : Prop :=
  match r1, r2 with
  | (_, Ok entry), (s, Err _) => books true fs 0 s (gain b (ref (entry_inode entry)))
  | _, _ => True
  end.

Lemma entry_kept_finally {A} b m1 (m2 : IO A) c s :
  nonneg b -> neutral c -> entry_kept b (m1 s) (m2 s) -> entry_kept b (finally m1 c s) (finally m2 c s).
Proof.
  intros Hb Hc. unfold entry_kept, finally. destruct (m1 s) as [s1 [entry|err|]]; [|by destruct (c s1) as [? []]..].
  destruct (m2 s) as [s2 [a|err|]]; [by destruct (c s1) as [? []], (c s2) as [? []]| |].
  2: by destruct (c s1) as [? []], (c s2) as [? []].
  intros Hs. pose proof (neutral_keeps _ _ 0 c (ref (entry_inode entry)) ltac:(done) Hc 0 s2 b ltac:(done) Hb Hs) as Hr.
  unfold balanced in Hr. by destruct (c s1) as [? []], (c s2) as [? [[]|?|]].
Qed.

Lemma entry_kept_bind {A B} b (m : IO A) c1 (c2 : A -> IO B) s :
  nonneg b -> neutral m -> books true fs 0 s (gain b nothing) ->
  (forall a s1, books true fs 0 s1 (gain b nothing) -> entry_kept b (c1 a s1) (c2 a s1)) ->
  entry_kept b ((a ← m; c1 a) s) ((a ← m; c2 a) s).
Proof.
  intros Hb Hm Hs Hc. specialize (Hm 0 s b ltac:(done) Hb Hs). unfold mbind, eff_bind.
  unfold balanced in Hm. by destruct (m s) as [s1 [a|err|]]; [apply Hc|..].
Qed.

Lemma create_keeps_entry ctx parent name mode kp fl umask ext s b :
  nonneg b -> books true fs 0 s (gain b nothing) ->
  entry_kept b (create_looked_up ctx parent name mode fl umask ext s)
    (create true os fs ctx parent name mode kp fl umask ext s).
Proof.
  intros Hb Hs. unfold create_looked_up, create, with_inode.
  apply entry_kept_bind; [done|apply neutral_quiet, respects_gets, _|done|].
  clear s Hs. intros [d|] s Hs; [|done].
  apply entry_kept_bind; [done|by apply neutral_quiet, quiet_modify|done|]. clear s Hs. intros _ s Hs.
  apply entry_kept_finally; [done|apply spends_unpin|]. unfold with_file.
  apply entry_kept_bind; [done|apply neutral_quiet; eauto with eff|done|]. clear s Hs. intros file s Hs.
  apply entry_kept_finally; [done|apply neutral_quiet; eauto with eff|]. cbv zeta.
  apply entry_kept_bind; [done|apply neutral_attempt, neutral_do_create|done|]. clear s Hs. intros fd s Hs.
  pose proof (spends_create_lookup parent name (guest_open_flags os fs fl) fd 0 s b ltac:(done) Hb Hs) as Hl.
  unfold mbind, eff_bind, balanced in *. destruct (create_lookup _ _ _ _ _ _ _ s) as [s1 [entry|err|]];
    [|done..]. simpl.
  pose proof (neutral_keeps _ _ 0 _ (ref (entry_inode entry)) ltac:(done)
    (neutral_create_open entry mode kp (guest_open_flags os fs fl) fd) 0 s1 b ltac:(done) Hb Hl) as Hr.
  unfold balanced in Hr. by destruct (create_open _ _ _ _ _ _ _ _ s1) as [s2 [h|err|]].
Qed.
End Operations.
