(* ===== verification/Session.v ===== *)
(** * A guest's session with the passthrough file system

    The requests a guest makes after mounting, one after the other, and what it
    holds meanwhile.  Whatever the host's calls return, the inode store counts the
    references the guest has been given, and the descriptors opened on its behalf
    never exceed the limit.

    The second part discharges what the FUSE server expects of a file system: that
    lookups are counted and that reads store what they report. *)

From S2P Require Import Prelude OpenFlags Libc FileHandle InodeStore DentryIndex FuseTypes.
From S2P Require Import FuseWire Descriptor SoftIdMap XattrMap FileSystem Host Credentials ReadDir.
From S2P Require Import Paths MountFds Passthrough Ownership PassthroughOps PassthroughSpec.

(** ** Requests *)

Inductive request :=
| RLookup (parent : Z) (name : bytes)
| RForget (i count : Z)
| RBatchForget (requests : list (Z * Z))
| RGetattr (i : Z)
| RSetattr (i : Z) (attr : SetattrIn) (handle : option Z) (valid : Z)
| RReadlink (i : Z)
| RSymlink (ctx : Context) (linkname : bytes) (parent : Z) (name : bytes) (ext : Extensions)
| RMknod (ctx : Context) (parent : Z) (name : bytes) (mode rdev umask : Z) (ext : Extensions)
| RMkdir (ctx : Context) (parent : Z) (name : bytes) (mode umask : Z) (ext : Extensions)
| RUnlink (parent : Z) (name : bytes)
| RRmdir (parent : Z) (name : bytes)
| RRename (olddir : Z) (oldname : bytes) (newdir : Z) (newname : bytes) (fl : Z)
| RLink (i newparent : Z) (newname : bytes)
| ROpen (i : Z) (kill_priv : bool) (fl : Z)
| RCreate (ctx : Context) (parent : Z) (name : bytes) (mode : Z) (kill_priv : bool)
    (fl umask : Z) (ext : Extensions)
| RRead (i handle : Z) (w : writer) (size offset : Z)
| RWrite (i handle : Z) (r : consumer) (size offset : Z) (delayed_write kill_priv : bool) (fl : Z)
| RFlush (i handle : Z)
| RFsync (i : Z) (datasync : bool) (handle : Z)
| RFallocate (i handle mode offset length : Z)
| RRelease (i handle : Z)
| RStatfs (i : Z)
| RSetxattr (i : Z) (name value : bytes) (fl extra_flags : Z)
| RGetxattr (i : Z) (name : bytes) (size : Z)
| RListxattr (i size : Z)
| RRemovexattr (i : Z) (name : bytes)
| ROpendir (i fl : Z)
| RReaddir (i handle size offset : Z)
| RFsyncdir (i : Z) (datasync : bool) (handle : Z)
| RReleasedir (i handle : Z)
| RAccess (ctx : Context) (i mask : Z)
| RLseek (i handle offset whence : Z)
| RCopyFileRange (inode_in handle_in offset_in inode_out handle_out offset_out len fl : Z)
| RSyncfs (i : Z).

(** The references a request gives back. *)
Definition given_back (r : request) : list (Z * Z) :=
  match r with RForget i count => [(i, count)] | RBatchForget l => l | _ => [] end.

Fixpoint owed (l : list (Z * Z)) (j : Z) : Z :=
  match l with [] => 0 | (i, c) :: l' => (if decide (j = i) then c else 0) + owed l' j end.

Section Session.
Context {W M : Type} `{Host W} `{RangeMap M MapEntry}.
Context (os : HostOs) (fs : Setup M) (rounds : nat).

Local Notation state := (PassthroughFs W).
Local Notation IO := (eff state).

Definition done_ {A} (m : IO A) : IO (list Z) := m;; mret [].
Definition entered (m : IO Entry) : IO (list Z) := e ← m; mret [entry_inode e].

(** The file system's answer, as far as it hands inodes out. *)
Definition serve (r : request) : IO (list Z) :=
  match r with
  | RLookup parent name => entered (lookup true os fs parent name)
  | RForget i count => done_ (forget true fs i count)
  | RBatchForget l => done_ (batch_forget true fs l)
  | RGetattr i => done_ (getattr true os fs i)
  | RSetattr i attr handle valid => done_ (setattr true os fs i attr handle valid)
  | RReadlink i => done_ (readlink true os fs i)
  | RSymlink ctx linkname parent name ext =>
      entered (symlink true os fs ctx linkname parent name ext)
  | RMknod ctx parent name mode rdev umask ext =>
      entered (mknod true os fs ctx parent name mode rdev umask ext)
  | RMkdir ctx parent name mode umask ext =>
      entered (mkdir true os fs ctx parent name mode umask ext)
  | RUnlink parent name => done_ (unlink true os fs parent name)
  | RRmdir parent name => done_ (rmdir true os fs parent name)
  | RRename olddir oldname newdir newname fl =>
      done_ (rename true os fs olddir oldname newdir newname fl)
  | RLink i newparent newname => entered (link true os fs i newparent newname)
  | ROpen i kill_priv fl => done_ (open true os fs i kill_priv fl)
  | RCreate ctx parent name mode kill_priv fl umask ext =>
      '(e, _, _) ← create true os fs ctx parent name mode kill_priv fl umask ext;
      mret [entry_inode e]
  | RRead i handle w size offset =>
      done_ (fun s => let '(s', _, r) := read i handle w size offset s in (s', r))
  | RWrite i handle r size offset delayed_write kill_priv fl =>
      done_ (write os fs i handle r size offset delayed_write kill_priv fl)
  | RFlush i handle => done_ (flush i handle)
  | RFsync i datasync handle => done_ (fsync i datasync handle)
  | RFallocate i handle mode offset length => done_ (fallocate os i handle mode offset length)
  | RRelease i handle => done_ (release true fs i handle)
  | RStatfs i => done_ (statfs true os fs i)
  | RSetxattr i name value fl extra_flags => done_ (setxattr true os fs i name value fl extra_flags)
  | RGetxattr i name size => done_ (getxattr true os fs i name size)
  | RListxattr i size => done_ (listxattr true os fs i size)
  | RRemovexattr i name => done_ (removexattr true os fs i name)
  | ROpendir i fl => done_ (opendir true os fs i fl)
  | RReaddir i handle size offset => done_ (readdir true os rounds i handle size offset)
  | RFsyncdir i datasync handle => done_ (fsyncdir i datasync handle)
  | RReleasedir i handle => done_ (releasedir true fs i handle)
  | RAccess ctx i mask => done_ (access true os fs ctx i mask)
  | RLseek i handle offset whence => done_ (lseek os i handle offset whence)
  | RCopyFileRange ii hi oi io ho oo len fl =>
      done_ (copyfilerange true os rounds ii hi oi io ho oo len fl)
  | RSyncfs i => done_ (syncfs true os fs i)
  end.

(** The state, the references the guest holds, and how many of its CREATEs have
    failed. *)
Record session := { fs_state : state; holds : Z -> Z; failed_creates : nat }.

Definition is_create (r : request) : bool := match r with RCreate _ _ _ _ _ _ _ _ => true | _ => false end.

(** The guest gives back no more than it holds. *)
Definition honest (h : Z -> Z) (l : list (Z * Z)) : Prop :=
  Forall (fun r => 0 <= r.2) l /\ forall j, owed l j <= h j.

Inductive guest_step : session -> session -> Prop :=
| step_ok r s s' h n l :
    honest h (given_back r) -> serve r s = (s', Ok l) ->
    guest_step {| fs_state := s; holds := h; failed_creates := n |}
      {| fs_state := s'; holds := fun j => h j - owed (given_back r) j + occ l j;
         failed_creates := n |}
| step_err r s s' h n err :
    honest h (given_back r) -> serve r s = (s', Err err) ->
    guest_step {| fs_state := s; holds := h; failed_creates := n |}
      {| fs_state := s'; holds := fun j => h j - owed (given_back r) j;
         failed_creates := if is_create r then S n else n |}.

Local Notation spends := (spends true fs 0).
Local Notation neutral := (neutral true fs 0).

(** *** Requests that give nothing back *)

Lemma spends_done {A} (m : IO A) : neutral m -> spends nothing (done_ m) refs_of nothing.
Proof.
  intros Hm. apply (spends_bind _ _ 0 0 _ _ _ (fun _ => nothing)); [done|done|].
  intros _. by intros n s b Hn Hb Hs.
Qed.

Lemma spends_entered m :
  spends nothing m (fun e => ref (entry_inode e)) nothing ->
  spends nothing (entered m) refs_of nothing.
Proof.
  intros Hm. eapply (spends_bind _ _ 0 0); [done|exact Hm|]. intros e. by intros n s b Hn Hb Hs.
Qed.

#[local] Hint Resolve neutral_setattr neutral_readlink neutral_do_unlink neutral_rename
  neutral_write neutral_access neutral_setxattr neutral_getxattr neutral_listxattr
  neutral_removexattr neutral_readdir neutral_copyfilerange quiet_read : eff.

Lemma spends_serve r :
  is_create r = false -> (match r with RForget _ _ | RBatchForget _ => false | _ => true end) = true ->
  spends nothing (serve r) refs_of nothing.
Proof.
  intros Hc Hf. destruct r; try done; cbn [serve];
    first [apply spends_entered | apply spends_done].
  all: try (eapply free, spends_do_lookup).
  all: try (apply spends_link).
  all: try (apply spends_make_node; intros fd; settle).
  all: unfold getattr, unlink, rmdir, open, opendir, release, releasedir, fsyncdir, flush, fsync,
    fallocate, statfs, lseek, syncfs; settle.
Qed.

(** *** Forgetting *)

Lemma owed_nonneg l j : Forall (fun r => 0 <= r.2) l -> 0 <= owed l j.
Proof.
  induction 1 as [|[i c] l Hc Hl IH]; simpl in *; [done|]. case_decide; lia.
Qed.

Lemma rc_inv_forget_many st h l :
  rc_inv st h -> honest h l -> rc_inv (forget_many st l) (fun j => h j - owed l j).
Proof.
  intros Hrc [Hpos Ho]. revert st h Hrc Ho. induction Hpos as [|[i c] l Hc Hl IH];
    intros st h Hrc Ho; simpl in *.
  - eapply rc_inv_ext, Hrc. intros j. lia.
  - pose proof (owed_nonneg l i Hl). pose proof (Ho i) as Hi. rewrite decide_True in Hi by done.
    eapply rc_inv_ext; [|apply IH; [apply (rc_inv_forget_one _ h i c Hrc); lia|]].
    + intros j. simpl. case_decide; lia.
    + intros j. specialize (Ho j). cbv beta. repeat case_decide; subst; lia || done.
Qed.

Lemma forget_many_inv (P : InodeStoreInner -> Prop) st l :
  (forall st i c, P st -> 0 <= c -> P (forget_one st i c)) -> P st ->
  Forall (fun r => 0 <= r.2) l -> P (forget_many st l).
Proof.
  intros HP Hst Hl. revert st Hst. induction Hl as [|[i c] l Hc Hl IH]; intros st Hst; simpl; auto.
Qed.

Lemma forget_books s b l (rest : IO unit) :
  books true fs 0 s b -> honest (held b) l -> respects untouched rest ->
  match (change_store true fs (forget_many (inodes s) l);; rest) s with
  | (s', Ok _) | (s', Err _) =>
      books true fs 0 s' {| held := fun j => held b j - owed l j; loose := loose b |}
  | (_, Panic) => True
  end.
Proof.
  intros (Hw & Hrc & Hr & Hs) Hh Hq. pose proof Hh as [Hpos _].
  assert (Hsh : shrunk (inodes s) (forget_many (inodes s) l)).
  { apply (forget_many_inv (shrunk (inodes s))); [|reflexivity|done].
    intros st i c Hst Hc. etrans; [exact Hst|by apply shrunk_forget_one]. }
  assert (Hw' : store_wf (forget_many (inodes s) l)).
  { apply forget_many_inv; [|done..]. intros. by apply store_wf_forget_one. }
  pose proof (change_store_slots true fs _ s _ Hw (shrunk_thinned _ _ Hsh) Hs) as Hc.
  unfold mbind, eff_bind. destruct (change_store _ _ _ s) as [s1 [[]|?|]]; [|done..].
  destruct Hc as [Hi Hs1].
  assert (Hb1 : books true fs 0 s1 {| held := fun j => held b j - owed l j; loose := loose b |}).
  { unfold books. simpl. rewrite Hi. split_and!; try done; [by apply rc_inv_forget_many|by left]. }
  specialize (Hq s1). by destruct (rest s1) as [s2 [[]|?|]]; try done; eapply books_untouched.
Qed.

Lemma quiet_forget_dentries i : respects untouched (forget_dentries (W := W) i).
Proof. unfold forget_dentries. respect. Qed.
#[local] Hint Resolve quiet_forget_dentries : eff.

(** The store's part of FORGET and BATCH_FORGET. *)
Lemma serve_forget r s b :
  books true fs 0 s b -> honest (held b) (given_back r) ->
  (match r with RForget _ _ | RBatchForget _ => true | _ => false end) = true ->
  match serve r s with
  | (s', Ok l) =>
      l = [] /\ books true fs 0 s' {| held := fun j => held b j - owed (given_back r) j; loose := loose b |}
  | (s', Err _) =>
      books true fs 0 s' {| held := fun j => held b j - owed (given_back r) j; loose := loose b |}
  | (_, Panic) => True
  end.
Proof.
  intros Hb Hh Hr. destruct r as [| i c| l | | | | | | | | | | | | | | | | | | | | | | | | | | | | | | |];
    try done; cbn [serve given_back] in *; unfold done_, forget, batch_forget.
  - pose proof (forget_books s b [(i, c)] (forget_dentries i) Hb Hh (quiet_forget_dentries i)) as Hf.
    revert Hf. unfold gets, mbind, eff_bind. simpl.
    destruct (change_store _ _ _ s) as [s1 [[]|?|]]; [|done..].
    by destruct (forget_dentries i s1) as [s2 [[]|?|]].
  - assert (Hq : respects untouched (each (forget_dentries (W := W)) l.*1)) by respect.
    pose proof (forget_books s b l _ Hb Hh Hq) as Hf.
    revert Hf. unfold gets, mbind, eff_bind. simpl.
    destruct (change_store _ _ _ s) as [s1 [[]|?|]]; [|done..].
    by destruct (each _ _ s1) as [s2 [[]|?|]].
Qed.

(** *** All requests *)

Lemma books_ext k (s : state) b b' :
  (forall j, held b j = held b' j) -> loose b = loose b' ->
  books true fs k s b -> books true fs k s b'.
Proof.
  intros Hh Hl (Hw & Hrc & Hr & Hs). split_and!; try done; [by eapply rc_inv_ext|by rewrite <- Hl].
Qed.

Definition after (b : owned) (back : list (Z * Z)) (l : list Z) : owned :=
  {| held := fun j => held b j - owed back j + occ l j; loose := loose b |}.

(** Only a CREATE that fails may lose a reference. *)
Definition served (r : request) (b : owned) (res : state * io (list Z)) : Prop :=
  match res with
  | (s, Ok l) => books true fs 0 s (after b (given_back r) l)
  | (s, Err _) =>
      exists lost, (is_create r = false -> lost = []) /\
        books true fs 0 s (after b (given_back r) lost)
  | (_, Panic) => True
  end.

Lemma served_create ctx parent name mode kp fl umask ext s b :
  nonneg b -> books true fs 0 s b ->
  served (RCreate ctx parent name mode kp fl umask ext) b
    (serve (RCreate ctx parent name mode kp fl umask ext) s).
Proof.
  intros Hnn Hb. apply (proj2 (books_nothing true fs 0 _ _)) in Hb.
  pose proof (create_leaves os fs ctx parent name mode kp fl umask ext s _ Hnn Hb) as Hl.
  unfold served, serve, mbind, eff_bind. destruct (create _ _ _ _ _ _ _ _ _ _ _ s) as [s1 [[[e fh] o]|?|]].
  - simpl in *. eapply books_ext, Hl; simpl; [|lia]. intros j. lia.
  - destruct Hl as (lost & HE & Hl). exists (refs lost). split; [done|].
    eapply books_ext, Hl; simpl; [intros j; lia|]. destruct HE as [->|[i ->]]; simpl; lia.
  - done.
Qed.

Lemma serve_books r s b :
  nonneg b -> books true fs 0 s b -> honest (held b) (given_back r) -> served r b (serve r s).
Proof.
  intros Hnn Hb Hh. destruct (is_create r) eqn:Hc; [by destruct r; try done; apply served_create|].
  destruct (match r with RForget _ _ | RBatchForget _ => true | _ => false end) eqn:Hf.
  - pose proof (serve_forget r s b Hb Hh Hf) as Hs. unfold served.
    destruct (serve r s) as [s' [l|?|]]; [destruct Hs as [-> Hs]| |done].
    + eapply books_ext, Hs; [|done]. intros j. simpl. rewrite occ_nil. lia.
    + exists []. split; [done|]. eapply books_ext, Hs; [|done]. intros j. simpl. rewrite occ_nil. lia.
  - apply (proj2 (books_nothing true fs 0 _ _)) in Hb.
    assert (Hs := spends_serve r Hc ltac:(by destruct r) 0 s b ltac:(done) Hnn Hb).
    assert (Ho : forall j, owed (given_back r) j = 0) by by destruct r. unfold served, balanced in *.
    destruct (serve r s) as [s' [l|?|]]; [|exists []; split; [done|]|done];
      (eapply books_ext, Hs; simpl; [|lia]); intros j; rewrite Ho; lia.
Qed.

(** *** The invariant of a session

    References that nobody holds any more are those of CREATEs that failed. *)

Definition session_with (c : session) (leaked : Z -> Z) : Prop :=
  (forall j, 0 <= leaked j) /\ (forall j, 0 <= holds c j) /\
  books true fs 0 (fs_state c) {| held := fun j => holds c j + leaked j; loose := 0 |} /\
  (failed_creates c = 0%nat -> forall j, leaked j = 0).

Definition session_ok (c : session) : Prop := exists leaked, session_with c leaked.

Lemma session_with_nonneg c leaked :
  session_with c leaked -> nonneg {| held := fun j => holds c j + leaked j; loose := 0 |}.
Proof.
  intros (Hl & Hh & _). split; [|done]. intros j. simpl. specialize (Hl j). specialize (Hh j). lia.
Qed.

(** What is lost stays lost. *)
Lemma session_step_with c c' leaked :
  session_with c leaked -> guest_step c c' ->
  exists leaked', session_with c' leaked' /\ forall j, leaked j <= leaked' j.
Proof.
  intros Hw Hstep. pose proof (session_with_nonneg _ _ Hw) as Hnn. destruct Hw as (Hl & Hh & Hb & Hz).
  assert (Hh' : forall r, honest (holds c) (given_back r) ->
    honest (fun j => holds c j + leaked j) (given_back r)).
  { intros r [Hp Hle]. split; [done|]. intros j. specialize (Hle j). specialize (Hl j). lia. }
  destruct Hstep as [r s s' h n l Hon Hserve|r s s' h n err Hon Hserve]; simpl in *;
    (assert (Hs := serve_books r s _ Hnn Hb (Hh' r Hon))); rewrite Hserve in Hs; destruct Hon as [_ Ho].
  - exists leaked. split; [|done].
    split_and!; [done| |eapply books_ext, Hs; [|done]|done]; intros j; simpl.
    + specialize (Ho j). pose proof (occ_nonneg l j). lia.
    + lia.
  - destruct Hs as (lost & Hlost & Hs). exists (fun j => leaked j + occ lost j).
    split; [|intros j; pose proof (occ_nonneg lost j); lia].
    split_and!; [| |eapply books_ext, Hs; [|done]|]; simpl.
    + intros j. specialize (Hl j). pose proof (occ_nonneg lost j). lia.
    + intros j. specialize (Ho j). lia.
    + intros j. simpl. lia.
    + destruct (is_create r); [done|]. intros Hn j. rewrite Hlost, Hz by done. done.
Qed.

Lemma session_steps_with c c' leaked :
  rtc guest_step c c' -> session_with c leaked ->
  exists leaked', session_with c' leaked' /\ forall j, leaked j <= leaked' j.
Proof.
  intros Hc. revert leaked. induction Hc as [c|c1 c2 c3 Hs _ IH]; intros leaked Hw.
  { exists leaked. split; [done|]. intros j. lia. }
  destruct (session_step_with _ _ _ Hw Hs) as (l1 & Hw1 & Hl1).
  destruct (IH _ Hw1) as (l2 & Hw2 & Hl2). exists l2. split; [done|]. intros j. etrans; eauto.
Qed.

Lemma session_step c c' : session_ok c -> guest_step c c' -> session_ok c'.
Proof. intros [leaked Hw] Hs. destruct (session_step_with _ _ _ Hw Hs) as (l & ? & _). by exists l. Qed.

Lemma session_steps c c' : rtc guest_step c c' -> session_ok c -> session_ok c'.
Proof. induction 1; eauto using session_step. Qed.

(** ** Mounting *)

Lemma root_info_references foh (s s' : state) mi :
  migration_info_new_root os fs foh s = (s', Ok mi) -> strong_references mi = [].
Proof.
  unfold migration_info_new_root, migration_info_internal. intros Hm.
  apply eff_bind_inv in Hm as [(s1 & h & _ & Hr)|[(? & _ & ?)|[_ ?]]]; [|done..].
  by injection Hr as <- <-.
Qed.

(** New data comes with all the references its count says. *)
Definition counted (d : InodeData) : loot := refs_of (replicate (Z.to_nat (refcount d)) (inode d)).

Lemma occ_replicate n i j : occ (replicate n i) j = if decide (i = j) then Z.of_nat n else 0.
Proof.
  induction n as [|n IH]; simpl; [by case_decide|]. rewrite occ_cons, IH. case_decide; lia.
Qed.

Lemma new_inode_books k (s : state) b d :
  0 <= k -> nonneg b -> 0 < refcount d -> data_references d = [] ->
  books true fs k s (gain b (files_of (file_count (file_or_handle d)))) ->
  let '(st', r) := new_inode (inodes s) d in
  match change_store true fs st' s with
  | (s1, Ok _) =>
      match r with
      | Ok _ => books true fs k s1 (gain b (counted d))
      | Err _ => books true fs k s1 (gain b (files_of (file_count (file_or_handle d))))
      | Panic => True
      end
  | (_, Err _) => False
  | (_, Panic) => True
  end.
Proof.
  intros Hk Hnn Hrc Hrefs Hb. pose proof Hb as (Hw & Hrcinv & Hr & Hs).
  pose proof (store_wf_new_inode (inodes s) d Hw) as Hw'. unfold new_inode in *.
  case_decide as Hin.
  - unfold drop_inode_data in *. rewrite Hrefs in *. simpl in *.
    by apply change_store_books.
  - apply eq_None_not_Some in Hin. destruct (insert_new (inodes s) d) as [st'|e|] eqn:Hn; simpl in *.
    2: { unfold insert_new in Hn. by rewrite Hin in Hn. }
    2: { unfold insert_new in Hn. by rewrite Hin in Hn. }
    assert (Hrc' := rc_inv_new_inode (inodes s) _ d st' Hrcinv Hrc Hrefs).
    unfold new_inode in Hrc'. rewrite decide_False, Hn in Hrc' by (rewrite Hin; by intros []).
    specialize (Hrc' eq_refl). unfold insert_new in Hn. rewrite Hin in Hn. simplify_eq.
    assert (Hg := change_store_grown true fs k b (counted d) d
      {| data := <[inode d := d]> (data (inodes s)); by_ids := <[ids d := inode d]> (by_ids (inodes s));
         by_handle := match handle_of d with Some h => <[h := inode d]> (by_handle (inodes s))
                                      | None => by_handle (inodes s) end |} s Hnn).
    apply Hg; try done; [simpl; by rewrite Z.add_0_r|by left|].
    eapply rc_inv_ext, Hrc'. intros j. simpl. rewrite occ_replicate, occ_nil.
    repeat case_decide; subst; lia || done.
Qed.

(** The root, with the two references it is born with. *)
Definition root_refs : loot := refs_of [ROOT_ID; ROOT_ID].

Lemma spends_insert_root st foh :
  spends (files_of (file_count foh)) (insert_root true os fs st foh) (fun _ => root_refs) nothing.
Proof.
  intros k s b Hk Hnn Hb. unfold insert_root, mbind, eff_bind, attempt at 1.
  pose proof (quiet_info_internal os fs RootNode foh s) as Hq.
  destruct (migration_info_new_root os fs foh s) as [s1 mi] eqn:Hm.
  change (migration_info_internal os fs RootNode foh s) with (migration_info_new_root os fs foh s) in Hq.
  rewrite Hm in Hq. simpl in Hq. assert (Hb1 := books_untouched _ _ _ _ _ _ Hq Hb).
  set (d := {| inode := ROOT_ID; file_or_handle := foh; refcount := 2; ids := ids_of st;
               mode := as_u32 (st_mode (Host.st st));
               migration_info := match mi with Ok mi => Some mi | _ => None end |}).
  assert (Hrefs : data_references d = []).
  { unfold data_references, d. simpl. destruct mi as [mi|?|]; [|done..]. by eapply root_info_references. }
  destruct mi as [mi|err|]; [| |done]; simpl;
    (pose proof (new_inode_books k s1 b d Hk Hnn ltac:(done) Hrefs Hb1) as Hr; fold d;
     destruct (new_inode (inodes s1) d) as [st' r]; simpl in *;
     destruct (change_store true fs st' s1) as [s2 [[]|?|]]; [|done..];
     unfold on_failure, lift; destruct r as [[]|e|]; [done| |]).
  2, 4: by destruct (drop_file_or_handle _ _ _ s2) as [s3 [[]|?|]].
  all: assert (Hd := spends_drop_foh true fs foh nothing k s2 b Hk Hnn Hr); unfold balanced in Hd;
    destruct (drop_file_or_handle _ _ _ s2) as [s3 [[]|?|]]; done.
Qed.

Lemma spends_open_root : spends nothing (open_root_node true os fs) (fun _ => root_refs) nothing.
Proof.
  apply spends_quiet_bind; [done|eauto with eff|]. intros fd.
  apply (spends_bind _ _ 0 0 _ _ _ (fun _ => nothing)); [done|apply neutral_quiet; respect|].
  intros [st [h|]].
  - apply (spends_finally _ _ 0 0 _ _ _ (fun _ => root_refs) _ nothing);
      [done| |intros; apply spends_close..|apply spends_close].
    apply spends_quiet_bind; [done|eauto with eff|]. intros openable.
    apply (spends_insert_root st (Handle openable)).
  - apply (spends_bind _ _ 0 0 _ _ _ (fun _ => files_of 1)); [done|apply spends_allocate|].
    intros _. apply (spends_insert_root st (File fd)).
Qed.

(** DESTROY empties the tables. *)
Definition same_handles (s s' : state) : Prop := handles s' = handles s.

#[local] Instance same_handles_preorder : PreOrder same_handles.
Proof. split; [done|]. unfold same_handles. intros ??? -> ->. done. Qed.

Lemma kept_hosted {A} (m : eff (world W) A) : respects same_handles (hosted m).
Proof. apply (respects_zoom _ (fun _ _ => True)); [by intros ?|done]. Qed.

Lemma kept_mounts {A} (m : eff (MountFds * world W) A) : respects same_handles (mounts m).
Proof. intros s. unfold mounts. destruct (mount_fds s); [|done]. by destruct (m _) as [[mf w] r]. Qed.

Lemma kept_modify f : (forall s, same_handles s (f s)) -> respects same_handles (modify f).
Proof. apply respects_modify. Qed.
#[local] Hint Resolve kept_hosted kept_mounts kept_modify : eff.

Lemma kept_file_drop checks fd : respects same_handles (guest_file_drop checks fs fd).
Proof. unfold guest_file_drop, guest_release. respect. done. Qed.
#[local] Hint Resolve kept_file_drop : eff.

Lemma kept_change_store checks st' : respects same_handles (change_store checks fs st').
Proof. unfold change_store, release_data, drop_file_or_handle, drop_mount_fd. respect; done. Qed.

(** All open files go. *)
Lemma drop_all_handles s n :
  slots fs s n ->
  match each (drop_handle true fs) (handles_in_order (handles s)) (set_handles ∅ s) with
  | (s', Ok _) => inodes s' = inodes s /\ handles s' = ∅ /\ slots fs s' n
  | (_, Err _) => False
  | (_, Panic) => True
  end.
Proof.
  intros Hs.
  assert (Hperm : handles_count (handles_in_order (handles s)) = open_files (handles s)).
  { unfold handles_in_order, open_files. by rewrite merge_sort_Permutation. }
  assert (Hs1 : slots fs (set_handles ∅ s) (handles_count (handles_in_order (handles s)) + n)).
  { rewrite Hperm. destruct Hs as (Ha & Hn & Hl & Hm). pose proof (open_files_nonneg (handles s)).
    unfold slots, guest_files in *. simpl. replace (open_files ∅) with 0 by done. lia. }
  assert (Hp : pays fs (handles_count (handles_in_order (handles s)))
                 (each (drop_handle true fs) (handles_in_order (handles s))) 0).
  { apply (pays_each _ _ handles_count); [intros; simpl; lia| |done|].
    - intros hd. apply handles_count_nonneg.
    - intros hd. simpl. rewrite Z.add_0_r. apply pays_drop_handle. }
  assert (Hk : respects same_handles (each (drop_handle true fs) (handles_in_order (handles s))))
    by (unfold drop_handle; respect).
  pose proof Hs as (_ & Hn & _).
  specialize (Hp _ n Hn Hs1). specialize (Hk (set_handles ∅ s)).
  destruct (each _ _ _) as [s1 [[]|?|]]; [|done..]. destruct Hp as [Hi Hs2]. done.
Qed.

(** All inodes go. *)
Lemma clear_store_slots s n :
  store_wf (inodes s) -> slots fs s n ->
  match change_store true fs (inode_clear (inodes s)) s with
  | (s', Ok _) => inodes s' = empty_store /\ handles s' = handles s /\ slots fs s' n
  | _ => False
  end.
Proof.
  intros Hw Hs.
  assert (Ht : thinned (data (inodes s)) (data (inode_clear (inodes s)))).
  { intros i d'. simpl. by rewrite lookup_empty. }
  pose proof (change_store_slots true fs _ s n Hw Ht Hs) as Hc.
  pose proof (kept_change_store true (inode_clear (inodes s)) s) as Hk.
  destruct (change_store _ _ _ s) as [s2 [[]|?|]]; [|done..]. destruct Hc as [-> ?]. done.
Qed.

Lemma destroy_books s n :
  store_wf (inodes s) -> slots fs s n ->
  match destroy true fs s with
  | (s', Ok _) =>
      inodes s' = empty_store /\ handles s' = ∅ /\ opts s' = nothing_negotiated /\ slots fs s' n
  | (_, Err _) => False
  | (_, Panic) => True
  end.
Proof.
  intros Hw Hs. unfold destroy, gets, modify, mbind, eff_bind. simpl.
  pose proof (drop_all_handles s n Hs) as Hd.
  destruct (each _ _ _) as [s1 [[]|?|]]; [|done..]. destruct Hd as (Hi & Hh & Hs1).
  rewrite <- Hi in Hw. pose proof (clear_store_slots s1 n Hw Hs1) as Hc.
  destruct (change_store _ _ _ s1) as [s2 [[]|?|]]; [|done..]. destruct Hc as (Hi2 & Hh2 & Hs3).
  split_and!; [done|simpl; congruence|done|done].
Qed.

Lemma init_books capable s s' o :
  store_wf (inodes s) -> slots fs s 0 -> init true os fs capable s = (s', Ok o) ->
  books true fs 0 s' {| held := fun j => if decide (j = ROOT_ID) then 2 else 0; loose := 0 |}.
Proof.
  intros Hw Hs Hinit. unfold init in Hinit. pose proof (destroy_books s 0 Hw Hs) as Hd.
  apply eff_bind_inv in Hinit as [(s1 & [] & Hd1 & Hinit)|[(? & _ & ?)|[_ ?]]]; [|done..].
  rewrite Hd1 in Hd. destruct Hd as (Hi & _ & _ & Hs1). set (b := {| held := fun _ => 0; loose := 0 |}).
  assert (Hb : books true fs 0 s1 (gain b nothing)).
  { apply books_nothing. unfold books. rewrite Hi. simpl. split_and!; [apply store_wf_empty| |by left|done].
    apply rc_inv_empty. }
  apply eff_bind_inv in Hinit as [(s2 & [] & Ho & Hinit)|[(? & _ & ?)|[_ ?]]]; [|done..].
  assert (Hr := spends_open_root 0 s1 b ltac:(done) ltac:(done) Hb). rewrite Ho in Hr. simpl in Hr.
  assert (Hq : respects untouched (negotiate_options (W := W) os fs capable)).
  { unfold negotiate_options, change_opts. respect; done. }
  specialize (Hq s2). rewrite Hinit in Hq. simpl in Hq.
  eapply books_ext; [| |eapply books_untouched; [exact Hq|exact Hr]]; [|done].
  intros j. simpl. rewrite !occ_cons, occ_nil. repeat case_decide; subst; lia || done.
Qed.

(** *** What holds in a session *)

Definition mounted (s : state) : session :=
  {| fs_state := s; holds := fun j => if decide (j = ROOT_ID) then 2 else 0; failed_creates := 0 |}.

Lemma session_from s0 capable s o c :
  store_wf (inodes s0) -> slots fs s0 0 -> init true os fs capable s0 = (s, Ok o) ->
  rtc guest_step (mounted s) c -> session_ok c.
Proof.
  intros Hw Hs Hinit Hc. eapply session_steps; [exact Hc|]. exists (fun _ => 0). split_and!; try done.
  { intros j. simpl. case_decide; lia. }
  eapply books_ext, init_books, Hinit; [|done..]. intros j. simpl. lia.
Qed.

Lemma empty_slots (s : state) :
  is_u64 (guest_fd_limit (cfg fs)) -> inodes s = empty_store -> handles s = ∅ -> unlinked s = [] ->
  available s = guest_fd_limit (cfg fs) -> slots fs s 0.
Proof.
  intros Hl Hi Hh Hu Ha. unfold is_u64 in Hl. unfold slots, guest_files. rewrite Hi, Hh, Hu, Ha. simpl.
  replace (stored_files ∅) with 0 by done. replace (open_files ∅) with 0 by done. lia.
Qed.

Lemma session_invariant mf w capable s o c :
  is_u64 (guest_fd_limit (cfg fs)) ->
  init true os fs capable (fresh_state (cfg fs) mf w) = (s, Ok o) ->
  rtc guest_step (mounted s) c -> session_ok c.
Proof. intros Hl. apply session_from; [apply store_wf_empty|by apply empty_slots]. Qed.

Lemma session_slots c :
  session_ok c ->
  0 <= guest_files (fs_state c) <= guest_fd_limit (cfg fs) /\
  available (fs_state c) = guest_fd_limit (cfg fs) - guest_files (fs_state c).
Proof.
  intros (leaked & _ & _ & (_ & _ & _ & Hs) & _).
  destruct Hs as (Ha & _ & Hsum & _). unfold guest_files in *. simpl in Hsum.
  pose proof (stored_files_nonneg (data (inodes (fs_state c)))).
  pose proof (files_in_nonneg (unlinked (fs_state c))).
  pose proof (open_files_nonneg (handles (fs_state c))). lia.
Qed.

(** C1: After mounting a fresh file system, whatever requests the guest makes and
    whatever the host answers, as long as the guest forgets no more than it has been
    given: an inode the guest holds references to is in the inode store with at least
    that count, so a request for it is not answered with EBADF for want of the inode;
    and if no CREATE has failed, every count is exactly what the guest holds plus what
    the migration paths of other inodes hold, so an inode nobody holds is gone. *)
Theorem session_references mf w capable s o c :
  is_u64 (guest_fd_limit (cfg fs)) ->
  init true os fs capable (fresh_state (cfg fs) mf w) = (s, Ok o) ->
  rtc guest_step (mounted s) c ->
  let m := data (inodes (fs_state c)) in
  (forall i, 0 < holds c i -> exists d, m !! i = Some d /\ holds c i + parents m i <= refcount d) /\
  (failed_creates c = 0%nat -> forall i,
     match m !! i with
     | Some d => 0 < refcount d /\ refcount d = holds c i + parents m i
     | None => holds c i = 0 /\ parents m i = 0
     end).
Proof.
  intros Hl Hinit Hc m.
  destruct (session_invariant _ _ _ _ _ _ Hl Hinit Hc) as (leaked & Hlk & Hh & (_ & Hrc & _) & Hz).
  simpl in Hrc. fold m in Hrc. split.
  - intros i Hi. specialize (Hrc i) as [_ Hi']. fold m in Hi'. specialize (Hlk i).
    destruct (m !! i) as [d|]; [|lia]. exists d. split; [done|lia].
  - intros Hf i. specialize (Hrc i) as [_ Hi']. fold m in Hi'. rewrite (Hz Hf i) in Hi'.
    destruct (m !! i); lia.
Qed.

(** C2: In such a session the descriptors the daemon keeps open for the guest - those
    of inodes, those of open files, and those of inodes that are gone but still in use -
    and the free slots always add up to the configured limit: the guest never makes the
    daemon exceed it, and no slot is lost. *)
Theorem session_descriptors mf w capable s o c :
  is_u64 (guest_fd_limit (cfg fs)) ->
  init true os fs capable (fresh_state (cfg fs) mf w) = (s, Ok o) ->
  rtc guest_step (mounted s) c ->
  0 <= guest_files (fs_state c) <= guest_fd_limit (cfg fs) /\
  available (fs_state c) = guest_fd_limit (cfg fs) - guest_files (fs_state c).
Proof. intros Hl Hinit Hc. eapply session_slots, session_invariant; done. Qed.

(** C37: A CREATE that fails after its lookup loses a reference for good.  In a session
    of a guest that forgets no more than it has been given, let a CREATE look its file up
    successfully and then fail, for want of a free descriptor slot or in opening a file
    that was there.  The guest gets an error instead of the inode.  From then on, whatever
    requests follow, the inode is in the store, with a count above what the guest holds
    and other inodes need; forgetting all it has ever been given does not release it. *)
Theorem create_loses_reference mf w capable s o c ctx parent name mode kp fl umask ext entry s' err c' :
  is_u64 (guest_fd_limit (cfg fs)) ->
  init true os fs capable (fresh_state (cfg fs) mf w) = (s, Ok o) ->
  rtc guest_step (mounted s) c ->
  (create_looked_up os fs ctx parent name mode fl umask ext (fs_state c)).2 = Ok entry ->
  create true os fs ctx parent name mode kp fl umask ext (fs_state c) = (s', Err err) ->
  rtc guest_step {| fs_state := s'; holds := holds c; failed_creates := S (failed_creates c) |} c' ->
  let m := data (inodes (fs_state c')) in let i := entry_inode entry in
  exists d, m !! i = Some d /\ holds c' i + parents m i < refcount d.
Proof.
  intros Hl Hinit Hc He Hcr Hc' m i.
  destruct (session_invariant _ _ _ _ _ _ Hl Hinit Hc) as [leaked Hw].
  pose proof (session_with_nonneg _ _ Hw) as Hnn. pose proof Hw as (Hlk & Hh & Hb & _).
  apply (proj2 (books_nothing true fs 0 _ _)) in Hb.
  pose proof (create_keeps_entry os fs ctx parent name mode kp fl umask ext _ _ Hnn Hb) as Hk.
  rewrite Hcr in Hk. unfold entry_kept in Hk.
  destruct (create_looked_up _ _ _ _ _ _ _ _ _ _) as [s1 r1]. simpl in He. subst r1.
  destruct (session_steps_with _ _ (fun j => leaked j + occ [i] j) Hc') as (leaked' & Hw' & Hle).
  { split_and!; simpl; [|done| |done].
    - intros j. specialize (Hlk j). pose proof (occ_nonneg [i] j). lia.
    - eapply books_ext, Hk; [|done]. intros j. simpl. unfold i. lia. }
  destruct Hw' as (_ & Hh' & (_ & Hrc & _) & _). specialize (Hrc i) as [_ Hi]. simpl in Hi. fold m in Hi.
  specialize (Hle i). specialize (Hlk i). specialize (Hh' i). rewrite occ_cons, occ_nil in Hle.
  rewrite decide_True in Hle by done.
  destruct (m !! i) as [d|]; [exists d; split; [done|lia]|lia].
Qed.
End Session.

(** ** An example

    A host with a directory whose files, "a" and "b" among them, have the inode numbers of
    their names and hold three bytes. *)

Record demo_world := { next_fd : Z; opened : list (Z * Z) }.

Definition demo_ino (path : bytes) : Z := match path with c :: _ => 100 + c | [] => 100 end.

Definition demo_open (path : bytes) (w : demo_world) : demo_world * outcome_of Z :=
  ({| next_fd := next_fd w + 1; opened := (next_fd w, demo_ino path) :: opened w |},
   inr (next_fd w)).

Definition demo_stat (fd : Z) (w : demo_world) : Stat64 :=
  {| st_dev := 1; st_ino := default 0 (snd <$> find (fun p => p.1 =? fd) (opened w));
     st_mode := Z.lor S_IFREG 420; st_nlink := 1; st_uid := 0; st_gid := 0; st_rdev := 0;
     st_size := 0; st_blksize := 512; st_blocks := 0; st_atime := 0; st_atime_nsec := 0;
     st_mtime := 0; st_mtime_nsec := 0; st_ctime := 0; st_ctime_nsec := 0 |}.

Definition demo_fs_run (A : Type) (c : Call A) : demo_world -> demo_world * outcome_of A :=
  match c in Call A return demo_world -> demo_world * outcome_of A with
  | SysOpenat _ path _ _ => demo_open path
  | SysStatx fd _ _ _ => fun w =>
      (w, inr {| stx_mask := 0x17ff; stx_stat := demo_stat fd w; stx_dev_major := 0;
                 stx_dev_minor := 1; stx_rdev_major := 0; stx_rdev_minor := 0; stx_mnt_id := 7 |})
  | SysClose _ => fun w => (w, inr tt)
  | SysLseek _ off _ => fun w => (w, inr off)
  | SysGetdents _ _ => fun w => (w, inr (records [demo_entry "a" 1; demo_entry "b" 2]))
  | SysPreadv _ len _ => fun w =>
      (w, if len <? 0 then inl EINVAL else inr (take (Z.to_nat len) [1; 2; 3]))
  | SysGeteuid => fun w => (w, inr 0)
  | SysGetegid => fun w => (w, inr 0)
  | _ => fun w => (w, inl 38)
  end.

#[export] Instance demo_fs_host : Host demo_world :=
  {| host_run := demo_fs_run; makedev := fun major minor => minor |}.
#[local] Existing Instance list_range_map.

Definition demo_os : HostOs := HostLinux X86_64.

Definition demo_setup : Setup (list (Z * Z * MapEntry)) :=
  {| cfg := config_default X86_64; uid_map := idmap_empty; gid_map := idmap_empty;
     proc_self_fd := 3; orig_wd_fd := 4; has_openat2 := false |}.

Definition demo_fresh : PassthroughFs demo_world :=
  fresh_state (cfg demo_setup) None {| host := {| next_fd := 5; opened := [] |}; history := [] |}.

Definition demo_mounted : PassthroughFs demo_world := (init true demo_os demo_setup 0 demo_fresh).1.

Lemma demo_init : exists o, init true demo_os demo_setup 0 demo_fresh = (demo_mounted, Ok o).
Proof. eexists. vm_compute. reflexivity. Qed.

Definition demo_step := guest_step (W := demo_world) demo_os demo_setup 0.

Lemma honest_nothing h : (forall j, 0 <= h j) -> honest h [].
Proof. intros Hh. split; [constructor|]. intros j. apply Hh. Qed.

(** Looking a file up and opening it, and forgetting the inode while it is open. *)
Lemma demo_session :
  exists c, rtc demo_step (mounted demo_mounted) c /\ holds c 1 = 2 /\ holds c 2 = 0 /\
    failed_creates c = 0%nat /\ data (inodes (fs_state c)) !! 2 = None /\
    guest_files (fs_state c) = 2.
Proof.
  eexists. split.
  - eapply rtc_l; [eapply (step_ok _ _ _ (RLookup 1 (text "a"))); [|vm_compute; reflexivity]|].
    { apply honest_nothing. intros j. case_decide; lia. }
    eapply rtc_l; [eapply (step_ok _ _ _ (ROpen 2 false 0)); [|vm_compute; reflexivity]|].
    { apply honest_nothing. intros j. simpl. pose proof (occ_nonneg [2] j). case_decide; lia. }
    eapply rtc_l; [eapply (step_ok _ _ _ (RForget 2 1)); [|vm_compute; reflexivity]|reflexivity].
    split; [by repeat constructor|]. intros j. simpl.
    rewrite occ_cons, !occ_nil. repeat case_decide; subst; lia || done.
  - vm_compute. done.
Qed.

Lemma session_references_witness :
  exists c, rtc demo_step (mounted demo_mounted) c /\ holds c 2 = 0 /\
    data (inodes (fs_state c)) !! 2 = None /\
    exists d, data (inodes (fs_state c)) !! 1 = Some d /\
      refcount d = 2 + parents (data (inodes (fs_state c))) 1.
Proof.
  destruct demo_session as (c & Hc & H1 & H2 & Hf & Hd & _). destruct demo_init as [o Ho].
  exists c. split_and!; [done..|].
  destruct (session_references demo_os demo_setup 0 None _ 0 _ o c ltac:(done) Ho Hc) as [Hh He].
  destruct (Hh 1) as (d & Hd1 & _); [lia|]. exists d. split; [done|].
  specialize (He Hf 1). rewrite Hd1 in He. lia.
Defined.

Lemma session_descriptors_witness :
  exists c, rtc demo_step (mounted demo_mounted) c /\ guest_files (fs_state c) = 2 /\
    available (fs_state c) = u64_max - 2.
Proof.
  destruct demo_session as (c & Hc & _ & _ & _ & _ & Hg). destruct demo_init as [o Ho].
  exists c. split_and!; [done..|].
  destruct (session_descriptors demo_os demo_setup 0 None _ 0 _ o c ltac:(done) Ho Hc) as [_ Ha].
  rewrite Ha, Hg. done.
Defined.

Definition known_count {W} (s : PassthroughFs W) (i : Z) : option Z :=
  refcount <$> data (inodes s) !! i.

(** With room for two descriptors: the root's and one more. *)
Definition tight_setup : Setup (list (Z * Z * MapEntry)) :=
  let c := cfg demo_setup in
  {| cfg := {| cfg_entry_timeout := cfg_entry_timeout c; cfg_attr_timeout := cfg_attr_timeout c;
               cache_policy := cache_policy c; cfg_writeback := false; root_dir := root_dir c;
               mountinfo_prefix := None; xattr := false; xattrmap := None;
               xattr_security_capability := None; proc_sfd_rawfd := None;
               proc_mountinfo_rawfd := None; cfg_announce_submounts := false;
               inode_file_handles := HandlesNever; readdirplus := true; allow_direct_io := false;
               guest_arch := X86_64; killpriv_v2 := false; cfg_posix_acl := NegNever;
               security_label := NegNever; clean_noatime := true; allow_mmap := false;
               migration_on_error := OnErrorAbort; migration_verify_handles := false;
               migration_confirm_paths := false; migration_mode := FindPaths; cfg_uid_map := None;
               cfg_gid_map := None; guest_fd_limit := 2 |};
     uid_map := idmap_empty; gid_map := idmap_empty; proc_self_fd := 3; orig_wd_fd := 4;
     has_openat2 := false |}.

Definition tight_init := Eval vm_compute in
  init true demo_os tight_setup 0
    (fresh_state (cfg tight_setup) None {| host := {| next_fd := 5; opened := [] |}; history := [] |}).

Definition tight_create := Eval vm_compute in
  create true demo_os tight_setup {| ctx_uid := 0; ctx_gid := 0; ctx_pid := 1 |} 1 (text "a") 420 false 0 0
    no_extensions tight_init.1.

(** A CREATE in a freshly mounted file system makes the file and looks it up, finds no
    slot for the open file and answers ENFILE. *)
Lemma create_loses_reference_witness :
  tight_create.2 = Err (Os ENFILE) /\ available tight_create.1 = 0 /\
  exists d, data (inodes tight_create.1) !! 2 = Some d /\
    0 + parents (data (inodes tight_create.1)) 2 < refcount d.
Proof.
  split; [reflexivity|]. split; [reflexivity|].
  assert (Hi : exists o, init true demo_os tight_setup 0
    (fresh_state (cfg tight_setup) None {| host := {| next_fd := 5; opened := [] |}; history := [] |})
    = (tight_init.1, Ok o)) by (eexists; vm_compute; reflexivity).
  destruct Hi as [o Ho].
  assert (He : exists e, (create_looked_up demo_os tight_setup {| ctx_uid := 0; ctx_gid := 0; ctx_pid := 1 |} 1
    (text "a") 420 0 0 no_extensions tight_init.1).2 = Ok e /\ entry_inode e = 2)
    by (eexists; vm_compute; split; reflexivity).
  destruct He as (e & He & Hi).
  pose proof (create_loses_reference demo_os tight_setup 0 None _ 0 tight_init.1 o (mounted tight_init.1)
    {| ctx_uid := 0; ctx_gid := 0; ctx_pid := 1 |} 1 (text "a") 420 false 0 0 no_extensions e tight_create.1
    (Os ENFILE) _ ltac:(done) Ho (rtc_refl _ _) He ltac:(vm_compute; reflexivity) (rtc_refl _ _)) as Hw.
  rewrite Hi in Hw. exact Hw.
Defined.
