(* ===== verification/Preserialization.v ===== *)
(** * Preparing a migration (src/passthrough/device_state/preserialization)

    Before the state of the file system can go to another host, every inode is given
    the location under which the destination will find it: a path below a parent, or a
    file handle.  The paths come from /proc/self/fd or, if that fails, from a walk
    through the shared directory.

    [cancel] tells whether the migration has been called off; another thread decides
    that, here as a function of the state, whose history shows how far the work is.
    Loops over the inode store and over directories take [rounds]; the store may grow
    and the directories are the host's.  Needing more is a panic here, as in
    [PassthroughOps].  Texts of messages are left out, but not the calls made for them
    ([identify]). *)

From S2P Require Import Prelude OpenFlags Libc FileHandle InodeStore DentryIndex FuseTypes.
From S2P Require Import FuseWire Descriptor SoftIdMap XattrMap FileSystem Host Credentials ReadDir.
From S2P Require Import Paths MountFds Passthrough PassthroughOps.

(** What a [Walker] is for: collecting paths, the check the user asked for, or the
    implicit check after preserialization. *)
Inductive Mode := ModeConstructor | ModeConfirmPaths | ModeImplicitPathCheck.

#[export] Instance Mode_eq_dec : EqDecision Mode.
Proof. solve_decision. Defined.

(** [.err_context(..)?] *)
Definition with_err_context {S A} (m : eff S A) : eff S A :=
  r ← attempt m; lift (map_err with_context r).

Section Preserialization.
Context {W M : Type} `{Host W} `{RangeMap M MapEntry}.
Context (checks : bool) (os : HostOs) (fs : Setup M) (rounds : nat).
Context (cancel : PassthroughFs W -> bool).

Local Notation state := (PassthroughFs W).
Local Notation IO := (eff state).

(** The data a strong reference refers to. *)
Definition referenced (i : Z) : IO InodeData :=
  d ← gets (fun s : state => store_get (inodes s) i);
  lift (unwrap d).

(** [StrongInodeReference::clone] unwraps the increment. *)
Definition clone_ref (i : Z) : IO Z := expect (strong_ref checks i).

(** [InodeData::identify], as far as it makes calls. *)
Definition identify (d : InodeData) : IO unit := ignore (get_path os fs d).

Definition handle_of_file (fd : Z) (path : bytes) : IO FileHandle :=
  r ← attempt (name_to_handle_at os fd path);
  lift (from_name_at_fail_hard r).

(** [self.inodes.clear_migration_info()] *)
Definition clear_infos : IO unit :=
  store ← gets inodes;
  change_store checks fs (clear_migration_info store).

(** ** Checking paths (find_paths.rs, mod.rs) *)

(** [InodePath::check_presence]. *)
Definition check_presence (parent : Z) (filename : bytes) (d : InodeData)
  (full_info : InodeMigrationInfo) : IO unit :=
  filename ← lift (ok_or (cstring_of filename) (Custom InvalidInput));
  p ← referenced parent;
  with_file os p (fun parent_fd =>
    st ← hosted (statx os parent_fd (Some filename));
    if negb (st_dev (Host.st st) =? dev (ids d)) then throw other_io_error
    else
      fh ← match mig_file_handle full_info with
           | Some fh => mret (Some fh)
           | None =>
               r ← attempt (serializable_handle os (file_or_handle d));
               mret match r with Ok fh => Some fh | _ => None end
           end;
      match fh with
      | Some fh =>
          actual_fh ← with_err_context (handle_of_file parent_fd filename);
          actual_fh ← lift (sfh_from actual_fh);
          lift (if require_equal_without_mount_id fh actual_fh then Ok tt else Err other_io_error)
      | None =>
          if negb (st_ino (Host.st st) =? ino (ids d)) then throw other_io_error else mret tt
      end).

Definition check_path_presence (mi : InodeMigrationInfo) (d : InodeData) : IO unit :=
  match location mi with
  | RootNode => mret tt
  | Path parent filename => check_presence parent filename d mi
  | ByFileHandle _ => mret tt
  end.

(** ** Walking the store (proc_paths.rs) *)

(** Whether the info of [d], which is in the store, is to be set from /proc/self/fd.  An
    info found wrong is dropped. *)
Definition should_update_inode (mode : Mode) (d : InodeData) : IO bool :=
  match mode, migration_info d with
  | ModeImplicitPathCheck, None | ModeConstructor, Some _ => mret false
  | ModeConfirmPaths, None | ModeConstructor, None => mret true
  | ModeConfirmPaths, Some mi | ModeImplicitPathCheck, Some mi =>
      r ← attempt (check_path_presence mi d);
      match r with
      | Err _ => put_migration_info checks fs (inode d) None;; mret true
      | r => lift r;; mret false
      end
  end.

(** What the walker makes of the result for one inode. *)
Definition walk_result (mode : Mode) (r : res WrappedError unit) : res WrappedError unit :=
  match mode, r with
  | ModeConstructor, Err (Fallback err) => Err (Fallback err)
  | _, _ => Ok tt
  end.

Fixpoint walk_inodes (fuel : nat) (mode : Mode) (stop : state -> bool) (last_inode : option Z)
  (shared_dir_path : bytes) : IO (res WrappedError unit) :=
  match fuel with
  | O => lift Panic
  | S fuel =>
      store ← gets inodes;
      next ← lift (iter_next checks store last_inode);
      match next with
      | None => mret (Ok tt)
      | Some (i, d) =>
          stopped ← gets stop;
          if stopped : bool then mret (Ok tt)
          else
            r ← pin checks fs i
              (update ← should_update_inode mode d;
               if negb update then mret (Ok tt)
               else
                 r ← set_path_migration_info_from_proc_self_fd checks os fs d shared_dir_path;
                 mret (walk_result mode r));
            match r with
            | Ok _ => walk_inodes fuel mode stop (Some i) shared_dir_path
            | r => mret r
            end
      end
  end.

Definition walker_run (mode : Mode) (stop : state -> bool) : IO (res WrappedError unit) :=
  root ← gets (fun s : state => store_get (inodes s) ROOT_ID);
  match root with
  | None =>
      empty ← gets (fun s : state => bool_decide (data (inodes s) = ∅));
      mret (if empty : bool then Ok tt else Err (Unrecoverable other_io_error))
  | Some root =>
      pin checks fs ROOT_ID
        (path ← get_path os fs root;
         match path with
         | Ok shared_dir_path => walk_inodes rounds mode stop None shared_dir_path
         | Err e => mret (Err (Fallback (with_context (io_of_inode_path_error e))))
         | Panic => lift Panic
         end)
  end.

(** [proc_paths::Constructor::execute]: whether to fall back to [find_paths]. *)
Definition proc_paths_execute : IO bool :=
  r ← walker_run ModeConstructor cancel;
  match r with
  | Ok _ => mret false
  | Err (Fallback _) => mret true
  | Err (Unrecoverable _) => mret false
  | Panic => lift Panic
  end.

Definition confirm_paths : IO unit :=
  r ← walker_run ModeConfirmPaths (fun _ => false);
  lift (map_err wrapped_into_inner r).

(** [ImplicitPathCheck::check_paths]. *)
Definition check_paths : IO unit :=
  r ← walker_run ModeImplicitPathCheck cancel;
  match r with Panic => lift Panic | _ => mret tt end.

(** ** File handles (file_handles.rs) *)

Definition set_handle_info (d : InodeData) : IO unit :=
  handle ← match file_or_handle d with
           | File fd =>
               fh ← with_err_context (handle_of_file fd []);
               lift (sfh_from fh)
           | Handle h => lift (sfh_from (inner h))
           | Invalid err => throw (with_context err)
           end;
  put_migration_info checks fs (inode d)
    (Some {| location := ByFileHandle handle;
             mig_file_handle := if migration_verify_handles (cfg fs) then Some handle else None |}).

Fixpoint collect_handles (fuel : nat) (last_inode : option Z) : IO unit :=
  match fuel with
  | O => lift Panic
  | S fuel =>
      store ← gets inodes;
      next ← lift (iter_next checks store last_inode);
      match next with
      | None => mret tt
      | Some (i, d) =>
          stopped ← gets cancel;
          if stopped : bool then mret tt
          else
            pin checks fs i
              (match migration_info d with
               | Some _ => mret tt
               | None =>
                   r ← attempt (set_handle_info d);
                   match r with Err _ => identify d | r => lift r end
               end);;
            collect_handles fuel (Some i)
      end
  end.

Definition file_handles_execute : IO unit := collect_handles rounds None.

(** ** Walking the shared directory (find_paths.rs) *)

(** [InodeMigrationInfo::new_internal] for a path below [parent], to which it takes a
    reference of its own. *)
Definition path_info (parent : Z) (name : bytes) (file_handle_fn : IO SerializableFileHandle)
  : IO InodeMigrationInfo :=
  parent_ref ← clone_ref parent;
  on_failure
    (file_handle ←
       (if migration_verify_handles (cfg fs)
        then h ← file_handle_fn; mret (Some h)
        else mret None);
     mret {| location := Path parent_ref name; mig_file_handle := file_handle |})
    (drop_ref checks fs parent_ref).

(** The entry names the inode [i] of the store; [i] is a reference. *)
Definition discovered (parent : Z) (name : bytes) (path_fd : Z) (handle : option FileHandle)
  (is_directory : bool) (i : Z) : IO (option Z) :=
  on_failure
    (mi ← path_info parent name
            (match handle with
             | Some h => lift (sfh_from h)
             | None => fh ← handle_of_file path_fd []; lift (sfh_from fh)
             end);
     put_migration_info checks fs i (Some mi))
    (drop_ref checks fs i);;
  if is_directory then mret (Some i) else drop_ref checks fs i;; mret None.

(** A directory the store does not know. *)
Definition new_directory (parent : Z) (name : bytes) (st : StatExt) (foh : FileOrHandle)
  : IO (option Z) :=
  mi ← on_failure (path_info parent name (serializable_handle os foh))
         (drop_file_or_handle checks fs foh);
  i ← new_inode_id;
  found ← store_get_or_insert checks fs
    {| inode := i; file_or_handle := foh; refcount := 1; ids := ids_of st;
       mode := as_u32 (st_mode (Host.st st)); migration_info := Some mi |};
  mret (Some found).

(** A reference to the inode of an entry if it is a directory. *)
Definition discover (parent parent_fd : Z) (name : bytes) : IO (option Z) :=
  if negb (is_utf8 name) then throw other_io_error
  else if decide (name = text "." \/ name = text "..") then mret None
  else
    path_fd ← open_relative_to os fs parent_fd name (O_PATH_OR_RDONLY os) None;
    '(st, handle, claimed) ← on_failure
      (st ← hosted (statx os path_fd None);
       handle ← get_file_handle_opt os fs path_fd st;
       claimed ← claim checks handle (ids_of st);
       mret (st, handle, claimed))
      (hosted (close path_fd));
    let is_directory := Z.land (st_mode (Host.st st)) S_IFMT =? S_IFDIR in
    match claimed with
    | Some i =>
        finally (discovered parent name path_fd handle is_directory i) (hosted (close path_fd))
    | None =>
        if negb is_directory then hosted (close path_fd);; mret None
        else
          match handle with
          | Some h =>
              finally
                (openable ← make_file_handle_openable os fs h;
                 new_directory parent name st (Handle openable))
                (hosted (close path_fd))
          | None => guest_allocate path_fd;; new_directory parent name st (File path_fd)
          end
    end.

(** The entries in a buffer.  [dirs] are the references to the directories still to be
    visited, the last one first; the result also says whether the work was cancelled. *)
Fixpoint discover_entries (fuel : nat) (dir_ref dirfd : Z) (rd : ReadDir) (dirs : list Z)
  : IO (bool * list Z) :=
  match fuel with
  | O => lift Panic
  | S fuel =>
      let '(rd, next) := readdir_next checks rd in
      next ← expect (lift next);
      match next with
      | None => mret (false, dirs)
      | Some entry =>
          stopped ← gets cancel;
          if stopped : bool then mret (true, dirs)
          else
            r ← attempt (discover dir_ref dirfd (de_name entry));
            match r with
            | Ok (Some i) => discover_entries fuel dir_ref dirfd rd (i :: dirs)
            | Ok None => discover_entries fuel dir_ref dirfd rd dirs
            | Err _ =>
                d ← referenced dir_ref;
                identify d;;
                discover_entries fuel dir_ref dirfd rd dirs
            | Panic => lift Panic
            end
      end
  end.

(** [ReadDir::new_no_seek] with a buffer of 1024 bytes. *)
Definition read_some (dirfd : Z) : IO ReadDir :=
  match os with
  | HostLinux _ =>
      rd ← hosted (linux_new_no_seek dirfd (replicate 1024 0)); mret (ReadLinux rd)
  | HostMacos =>
      rd ← hosted (mac_new_no_seek rounds dirfd); rd ← lift (unwrap rd); mret (ReadMacos rd)
  end.

Definition rd_remaining (rd : ReadDir) : nat :=
  match rd with
  | ReadLinux rd => linux_remaining rd
  | ReadMacos rd => mrd_end rd - mrd_current rd
  end.

Fixpoint read_directory (fuel : nat) (dir_ref dirfd : Z) (dirs : list Z) : IO (bool * list Z) :=
  match fuel with
  | O => lift Panic
  | S fuel =>
      r ← attempt (read_some dirfd);
      match r with
      | Ok rd =>
          if (rd_remaining rd =? 0)%nat then mret (false, dirs)
          else
            '(stopped, dirs) ← discover_entries (S (rd_remaining rd)) dir_ref dirfd rd dirs;
            if stopped : bool then mret (true, dirs) else read_directory fuel dir_ref dirfd dirs
      | Err _ =>
          d ← referenced dir_ref;
          identify d;;
          mret (false, dirs)
      | Panic => lift Panic
      end
  end.

(** [recurse_from]: [dirs] are references. *)
Fixpoint recurse (fuel : nat) (dirs : list Z) : IO unit :=
  match dirs with
  | [] => mret tt
  | dir_ref :: dirs =>
      match fuel with
      | O => lift Panic
      | S fuel =>
          d ← referenced dir_ref;
          r ← attempt (open_file os fs d (Z.lor (Z.lor O_RDONLY (O_NOFOLLOW os)) (O_CLOEXEC os)));
          match r with
          | Ok dirfd =>
              '(stopped, dirs) ← read_directory rounds dir_ref dirfd dirs;
              hosted (close dirfd);;
              drop_ref checks fs dir_ref;;
              if stopped : bool then each (drop_ref checks fs) (rev dirs) else recurse fuel dirs
          | Err _ =>
              identify d;;
              drop_ref checks fs dir_ref;;
              recurse fuel dirs
          | Panic => lift Panic
          end
      end
  end.

Definition find_paths_execute : IO unit :=
  root ← attempt (strong_ref checks ROOT_ID);
  match root with
  | Ok root => recurse rounds [root]
  | Err _ => mret tt
  | Panic => lift Panic
  end.

(** ** All of it (device_state/mod.rs) *)

Definition prepare_serialization : IO unit :=
  clear_infos;;
  modify (set_track_migration_info true);;
  match migration_mode (cfg fs) with
  | FindPaths =>
      fall_back ← proc_paths_execute;
      when_ fall_back find_paths_execute
  | FileHandles => file_handles_execute
  end;;
  check_paths.
End Preserialization.
