(* ===== verification/Migration.v ===== *)
(** * Live migration (src/passthrough/device_state)

    The state that goes from one daemon to another: every inode with its reference count
    and the location prepared for it ([Preserialization]), every open file with the flags
    to open it again, and what was negotiated with the guest.  The source serializes it,
    the destination opens everything anew and takes the counts over.  An inode given by
    its path owns a reference to its parent in the stream, which the destination drops
    once it has found the inode.

    The encoding is the postcard crate's, here a class with its round trip.  The pipe
    between the daemons is left out: [serialize] returns the bytes written to it and
    [deserialize_and_apply] takes those read from it.  [hash_order] is the order in which
    a [HashMap] or [HashSet] yields its keys. *)

From S2P Require Import Prelude OpenFlags Libc FileHandle InodeStore DentryIndex FuseTypes.
From S2P Require Import FuseWire Descriptor SoftIdMap XattrMap FileSystem Host Credentials ReadDir.
From S2P Require Import Paths MountFds Passthrough PassthroughOps Preserialization.

(** ** The serialized state (serialized.rs) *)

Inductive SerLocation :=
| SerRootNode
| SerPath (parent : Z) (filename : bytes)
| SerInvalid
| SerFullPath (filename : bytes)
| SerFileHandle (handle : SerializableFileHandle).

Record SerInode := {
  si_id : Z;
  si_refcount : Z;
  si_location : SerLocation;
  si_file_handle : option SerializableFileHandle;
}.

Inductive HandleSource := SerOpenInode (flags : Z).

Record SerHandle := {
  sh_id : Z;
  sh_inode : Z;
  sh_source : HandleSource;
}.

Record PassthroughFsV1 := {
  v1_inodes : list SerInode;
  v1_next_inode : Z;
  v1_handles : list SerHandle;
  v1_next_handle : Z;
  v1_negotiated_opts : NegotiatedOpts;
}.

Record PassthroughFsV2 := {
  v1 : PassthroughFsV1;
  mount_paths : gmap Z bytes;
}.

Inductive SerPassthroughFs := V1 (state : PassthroughFsV1) | V2 (state : PassthroughFsV2).

(** [postcard::to_stdvec] and [postcard::from_bytes]. *)
Class Postcard (A : Type) := {
  to_stdvec : A -> io bytes;
  from_bytes : bytes -> io A;
  postcard_roundtrip a b : to_stdvec a = Ok b -> from_bytes b = Ok a;
}.

(** The order of a hash table. *)
Class HashOrder := {
  hash_order : gset Z -> list Z;
  hash_order_elements X : hash_order X ≡ₚ elements X;
}.

(** [assert!] *)
Definition assert_ (b : bool) : io unit := if b then Ok tt else Panic.

(** ** Serialization (serialization.rs) *)

(** [InodeMigrationInfo::as_serialized]. *)
Definition serialize_location (l : InodeLocation) : SerLocation :=
  match l with
  | RootNode => SerRootNode
  | Path parent filename => SerPath parent filename
  | ByFileHandle handle => SerFileHandle handle
  end.

Definition is_root_node (l : InodeLocation) : bool :=
  match l with RootNode => true | _ => false end.

(** [InodeData::as_serialized]. *)
Definition serialize_inode (verify_handles : bool) (d : InodeData) : io SerInode :=
  mi ← ok_or (migration_info d) other_io_error;
  if negb (Bool.eqb (inode d =? ROOT_ID) (is_root_node (location mi))) then Panic
  else
    file_handle ←
      (if verify_handles
       then h ← ok_or (mig_file_handle mi) other_io_error; Ok (Some h)
       else Ok None);
    Ok {| si_id := inode d; si_refcount := refcount d;
          si_location := serialize_location (location mi); si_file_handle := file_handle |}.

(** An inode that cannot be serialized is marked as invalid. *)
Definition serialize_or_invalid (verify_handles : bool) (d : InodeData) : io SerInode :=
  match serialize_inode verify_handles d with
  | Err _ => Ok {| si_id := inode d; si_refcount := refcount d; si_location := SerInvalid;
                   si_file_handle := None |}
  | r => r
  end.

(** [fs.inodes.iter().map(..).collect()] *)
Definition serialize_inodes (checks verify_handles : bool) (store : InodeStoreInner)
  : io (list SerInode) :=
  ids ← iter_all checks (S (size (data store))) store None;
  map_collect (fun i => d ← unwrap (store_get store i); serialize_or_invalid verify_handles d) ids.

Definition serialize_source (mi : HandleMigrationInfo) : HandleSource :=
  match mi with OpenInode flags => SerOpenInode flags end.

Definition serialize_handle (h : Z) (hd : HandleData) : SerHandle :=
  {| sh_id := h; sh_inode := hd_inode hd; sh_source := serialize_source (hd_migration_info hd) |}.

Definition serialize_handles (m : gmap Z HandleData) : list SerHandle :=
  (fun e => serialize_handle e.1 e.2) <$> merge_sort fh_le (map_to_list m).

(** The mounts the serialized inodes are on. *)
Definition mount_ids (inodes : list SerInode) : gset Z :=
  list_to_set (omap (fun si => match si_location si with
                               | SerFileHandle handle => Some (sfh_mnt_id handle)
                               | _ => None
                               end) inodes).

Section Serialization.
Context {W M : Type} `{Host W} `{RangeMap M MapEntry} `{Postcard SerPassthroughFs} `{HashOrder}.
Context (checks : bool) (os : HostOs) (fs : Setup M) (rounds : nat).

Local Notation state := (PassthroughFs W).
Local Notation IO := (eff state).

(** [MountPathsBuilder::new]: the path of the shared directory. *)
Definition shared_dir_path : IO bytes :=
  lift (assert_ (bool_decide (migration_mode (cfg fs) = FileHandles)));;
  present ← gets (fun s : state => bool_decide (is_Some (mount_fds s)));
  if negb present then throw other_io_error
  else
    root ← gets (fun s : state => store_get (inodes s) ROOT_ID);
    match root with
    | None =>
        empty ← gets (fun s : state => bool_decide (data (inodes s) = ∅));
        if empty : bool then mret [] else throw other_io_error
    | Some root =>
        path ← get_path os fs root;
        lift (map_err (fun e => with_context (io_of_inode_path_error e)) path)
    end.

Definition get_mount_path (shared_dir_path : bytes) (mnt_id : Z) : IO bytes :=
  path ← attempt (mounts (get_mount_root mnt_id));
  path ← lift (map_err (fun _ => other_io_error) path);
  c_path ← lift (ok_or (cstring_of (utf8_encode path)) other_io_error);
  match relative_path c_path shared_dir_path with
  | Ok relative_path =>
      if negb (is_utf8 relative_path) then throw other_io_error
      else mret (if decide (relative_path = []) then text "." else relative_path)
  | _ => mret (text ".")
  end.

(** [MountPathsBuilder::build]: a mount whose path is not found is left out. *)
Fixpoint build_mount_paths (shared_dir_path : bytes) (ids : list Z) (map : gmap Z bytes)
  : IO (gmap Z bytes) :=
  match ids with
  | [] => mret map
  | mount_id :: ids =>
      path ← attempt (get_mount_path shared_dir_path mount_id);
      match path with
      | Ok path => build_mount_paths shared_dir_path ids (<[mount_id := path]> map)
      | Err _ => build_mount_paths shared_dir_path ids map
      | Panic => lift Panic
      end
  end.

Definition collect_mount_paths (inodes : list SerInode) : IO (gmap Z bytes) :=
  if decide (migration_mode (cfg fs) = FileHandles) then
    path ← attempt shared_dir_path;
    match path with
    | Ok path => build_mount_paths path (hash_order (mount_ids inodes)) ∅
    | Err _ => mret ∅
    | Panic => lift Panic
    end
  else mret ∅.

(** [From<&PassthroughFs> for serialized::PassthroughFsV2]. *)
Definition serialize_fs : IO PassthroughFsV2 :=
  s ← gets id;
  inodes ← lift (serialize_inodes checks (migration_verify_handles (cfg fs)) (inodes s));
  mount_paths ← collect_mount_paths inodes;
  mret {| v1 := {| v1_inodes := inodes; v1_next_inode := next_inode s;
                   v1_handles := serialize_handles (handles s);
                   v1_next_handle := next_handle s; v1_negotiated_opts := opts s |};
          mount_paths := mount_paths |}.

Definition serialize : IO bytes :=
  modify (set_track_migration_info false);;
  (if migration_confirm_paths (cfg fs) then
     r ← attempt (confirm_paths checks os fs rounds);
     match r with
     | Err err => clear_infos checks fs;; throw err
     | r => lift r
     end
   else mret tt);;
  st ← serialize_fs;
  clear_infos checks fs;;
  lift (to_stdvec (V2 st)).
End Serialization.

(** ** Deserialization (deserialization.rs) *)

(** [Vec::swap_remove]: the last element takes the place of the removed one. *)
Definition swap_remove {A} (i : nat) (l : list A) : list A :=
  match last l with
  | Some x => take (pred (length l)) (<[i := x]> l)
  | None => l
  end.

Section Deserialization.
Context {W M : Type} `{Host W} `{RangeMap M MapEntry} `{Postcard SerPassthroughFs} `{HashOrder}.
Context (checks : bool) (os : HostOs) (fs : Setup M).

Local Notation state := (PassthroughFs W).
Local Notation IO := (eff state).

(** *** Options *)

Definition store_opts (f : NegotiatedOpts -> NegotiatedOpts) : IO unit :=
  modify (fun s : state => set_opts (f (opts s)) s).

(** [NegotiatedOpts::apply]. *)
Definition apply_opts (o : NegotiatedOpts) : IO unit :=
  if negb (cfg_writeback (cfg fs)) && writeback o then throw other_io_error
  else
    store_opts (fun c => {| writeback := writeback o; announce_submounts := announce_submounts c;
                            posix_acl := posix_acl c; sup_group_extension := sup_group_extension c |});;
    if negb (cfg_announce_submounts (cfg fs)) && announce_submounts o then throw other_io_error
    else
      store_opts (fun c => {| writeback := writeback c; announce_submounts := announce_submounts o;
                              posix_acl := posix_acl c; sup_group_extension := sup_group_extension c |});;
      if bool_decide (cfg_posix_acl (cfg fs) = NegNever) && posix_acl o then throw other_io_error
      else
        store_opts (fun c => {| writeback := writeback c; announce_submounts := announce_submounts c;
                                posix_acl := posix_acl o;
                                sup_group_extension := sup_group_extension o |}).

(** *** Mounts *)

(** [MountFd::new] (src/passthrough/mount_fd.rs). *)
Definition mount_fd_new (dir : Z) (path : bytes) : IO MountFd :=
  file ← with_err_context (hosted (util_openat dir path O_RDONLY));
  st ← on_failure (with_err_context (hosted (statx os file None))) (hosted (close file));
  let id := st_mnt_id st in
  present ← gets mount_fds;
  match present with
  | Some mf =>
      match mount_map mf !! id with
      | Some (fd, count) =>
          modify (set_mount_fds (Some (set_mount_map (<[id := (fd, count + 1)]>) mf)));;
          hosted (close file);;
          mret {| mount_id := id; mount_file := fd |}
      | None =>
          modify (set_mount_fds (Some (set_mount_map (<[id := (file, 1)]>) mf)));;
          mret {| mount_id := id; mount_file := file |}
      end
  | None => mret {| mount_id := id; mount_file := file |}
  end.

(** [Arc::clone] for a descriptor of the table. *)
Definition clone_mount_fd (mfd : MountFd) : IO unit :=
  modify (fun s : state =>
    set_mount_fds
      (set_mount_map (alter (fun e => (e.1, e.2 + 1)) (mount_id mfd)) <$> mount_fds s) s).

(** The descriptors of the map [deserialize] works with; outside the table of mounts
    they are its own. *)
Definition release_mount_fd (mfd : MountFd) : IO unit :=
  present ← gets mount_fds;
  match present with
  | Some _ => mounts (mount_fd_drop mfd)
  | None => hosted (close (mount_file mfd))
  end.

Fixpoint open_mount_fds (dir : Z) (ids : list Z) (paths : gmap Z bytes) (map : gmap Z MountFd)
  : IO (gmap Z MountFd) :=
  match ids with
  | [] => mret map
  | mount_id :: ids =>
      match paths !! mount_id with
      | Some path =>
          mfd ← attempt (mount_fd_new dir path);
          match mfd with
          | Ok mfd => open_mount_fds dir ids paths (<[mount_id := mfd]> map)
          | Err _ => open_mount_fds dir ids paths map
          | Panic => lift Panic
          end
      | None => open_mount_fds dir ids paths map
      end
  end.

Definition release_mount_fds (map : gmap Z MountFd) : IO unit :=
  each (fun mount_id => match map !! mount_id with
                        | Some mfd => release_mount_fd mfd
                        | None => mret tt
                        end) (hash_order (dom map)).

(** *** Inodes *)

(** The data of an inode that was found. *)
Definition located (si : SerInode) (foh : FileOrHandle) (st : StatExt) : InodeData :=
  {| inode := si_id si; file_or_handle := foh; refcount := si_refcount si; ids := ids_of st;
     mode := as_u32 (st_mode (Host.st st)); migration_info := None |}.

Definition check_file_handle (si : SerInode) (foh : FileOrHandle) : IO unit :=
  match si_file_handle si with
  | None => mret tt
  | Some ref_fh =>
      is_fh ← serializable_handle os foh;
      lift (if require_equal_without_mount_id is_fh ref_fh then Ok tt else Err other_io_error)
  end.

(** [root_data.refcount.store(rc)] *)
Definition store_refcount (i rc : Z) : IO unit :=
  modify (fun s : state => set_inodes (set_data (alter (set_refcount rc) i) (inodes s)) s).

Definition deserialize_root_node (si : SerInode) : IO unit :=
  lift (assert_ (si_id si =? ROOT_ID));;
  match si_location si with
  | SerRootNode =>
      open_root_node checks os fs;;
      root_data ← referenced ROOT_ID;
      store_refcount ROOT_ID (si_refcount si);;
      check_file_handle si (file_or_handle root_data)
  | _ => throw other_io_error
  end.

Definition deserialize_flags : Z :=
  Z.lor (Z.lor (O_PATH_OR_RDONLY os) (O_NOFOLLOW os)) (O_CLOEXEC os).

(** The file of an inode below the directory [parent_fd]. *)
Definition find_below (parent_fd : Z) (filename : bytes) : IO (FileOrHandle * StatExt) :=
  fd ← attempt (hosted (util_openat parent_fd filename deserialize_flags));
  fd ← match fd with
       | Err err =>
           r ← hosted (get_path_by_fd os parent_fd (proc_self_fd fs));
           throw (with_context err)
       | fd => lift fd
       end;
  '(st, handle) ← on_failure
    (st ← hosted (statx os fd None);
     handle ← get_file_handle_opt os fs fd st;
     mret (st, handle))
    (hosted (close fd));
  match handle with
  | Some h =>
      finally
        (openable ← make_file_handle_openable os fs h;
         mret (Handle openable, st))
        (hosted (close fd))
  | None => guest_allocate fd;; mret (File fd, st)
  end.

(** [parent] is a reference, which is dropped. *)
Definition deserialize_path (si : SerInode) (parent : Z) (filename : bytes) : IO InodeData :=
  '(foh, st) ← finally
    (p ← referenced parent;
     with_file os p (fun parent_fd => find_below parent_fd filename))
    (drop_ref checks fs parent);
  mret (located si foh st).

Definition deserialize_invalid_inode (si : SerInode) (err : io_error) : io InodeData :=
  match migration_on_error (cfg fs) with
  | OnErrorAbort => Err (with_context err)
  | OnErrorGuestError =>
      Ok {| inode := si_id si; file_or_handle := Invalid err; refcount := si_refcount si;
            ids := {| ino := 0; dev := 0; mnt_id := 0 |}; mode := 0; migration_info := None |}
  end.

(** [.or_else(|err| self.deserialize_invalid_inode(fs, err))] *)
Definition or_invalid (si : SerInode) (m : IO InodeData) : IO InodeData :=
  r ← attempt m;
  match r with
  | Err err => lift (deserialize_invalid_inode si err)
  | r => lift r
  end.

Definition deserialize_file_handle (si : SerInode) (mount_fds : gmap Z MountFd)
  (handle : SerializableFileHandle) : IO InodeData :=
  mfd ← lift (ok_or (mount_fds !! sfh_mnt_id handle) other_io_error);
  clone_mount_fd mfd;;
  '(fd, st, ofh) ← on_failure
    (ofh ← lift (sfh_to_openable handle mfd);
     fd ← with_err_context (openable_open os ofh (O_PATH_OR_RDONLY os));
     st ← on_failure (with_err_context (hosted (statx os fd None))) (hosted (close fd));
     mret (fd, st, ofh))
    (drop_mount_fd mfd);
  match inode_file_handles (cfg fs) with
  | HandlesNever =>
      finally (guest_allocate fd;; mret (located si (File fd) st)) (drop_mount_fd mfd)
  | HandlesMandatory | HandlesPrefer =>
      hosted (close fd);;
      mret (located si (Handle ofh) st)
  end.

(** [fs.inodes.new_inode(inode_data)?] *)
Definition insert_data (d : InodeData) : IO unit :=
  store ← gets inodes;
  let '(store', r) := new_inode store d in
  change_store checks fs store';;
  on_failure (lift r) (drop_file_or_handle checks fs (file_or_handle d)).

(** Whether the inode could be deserialized; [false] if it depends on one that has not
    been yet. *)
Definition deserialize_inode (si : SerInode) (mount_fds : gmap Z MountFd) : IO bool :=
  match si_location si with
  | SerRootNode =>
      if negb (si_id si =? ROOT_ID) then throw other_io_error
      else deserialize_root_node si;; mret true
  | SerPath parent filename =>
      if si_id si =? ROOT_ID then throw other_io_error
      else
        present ← gets (fun s : state => bool_decide (is_Some (store_get (inodes s) parent)));
        if negb present then mret false
        else
          d ← or_invalid si (deserialize_path si parent filename);
          matching ← attempt (check_file_handle si (file_or_handle d));
          match matching with
          | Ok _ => insert_data d
          | Err err =>
              finally
                (d' ← lift (deserialize_invalid_inode si err);
                 insert_data d')
                (drop_file_or_handle checks fs (file_or_handle d))
          | Panic => lift Panic
          end;;
          mret true
  | SerInvalid =>
      d ← lift (deserialize_invalid_inode si (Custom NotFound));
      insert_data d;;
      mret true
  | SerFullPath filename =>
      if si_id si =? ROOT_ID then throw other_io_error
      else
        shared_dir ← attempt (strong_ref checks ROOT_ID);
        match shared_dir with
        | Ok shared_dir =>
            d ← or_invalid si (deserialize_path si shared_dir filename);
            insert_data d;;
            mret true
        | Err _ => mret false
        | Panic => lift Panic
        end
  | SerFileHandle handle =>
      if si_id si =? ROOT_ID then throw other_io_error
      else
        d ← or_invalid si (deserialize_file_handle si mount_fds handle);
        insert_data d;;
        mret true
  end.

(** One round through the inodes that are left: whether any was processed, and the rest.
    Each step processes an inode or moves on, so the length of the list is fuel enough. *)
Fixpoint inodes_round (fuel : nat) (mount_fds : gmap Z MountFd) (i : nat) (processed_any : bool)
  (inodes : list SerInode) : IO (bool * list SerInode) :=
  match inodes !! i with
  | None => mret (processed_any, inodes)
  | Some si =>
      match fuel with
      | O => lift Panic
      | S fuel =>
          processed ← deserialize_inode si mount_fds;
          if processed : bool
          then inodes_round fuel mount_fds i true (swap_remove i inodes)
          else inodes_round fuel mount_fds (S i) processed_any inodes
      end
  end.

(** Every round processes an inode, or the loop ends. *)
Fixpoint inodes_rounds (fuel : nat) (mount_fds : gmap Z MountFd) (inodes : list SerInode)
  : IO unit :=
  match inodes with
  | [] => mret tt
  | _ =>
      match fuel with
      | O => lift Panic
      | S fuel =>
          '(processed_any, inodes) ←
            inodes_round (length inodes) mount_fds 0 false inodes;
          if negb processed_any then throw other_io_error
          else inodes_rounds fuel mount_fds inodes
      end
  end.

Definition deserialize_inodes (mount_fds : gmap Z MountFd) (inodes : list SerInode) : IO unit :=
  inodes_rounds (length inodes) mount_fds inodes.

(** *** Open files *)

(** The file of a handle, opened again. *)
Definition reopen_handle (d : InodeData) (flags : Z) : IO HandleDataFile :=
  f ← attempt (open_file os fs d flags);
  match f with
  | Ok fd => guest_allocate fd;; mret (HandleFile fd)
  | Err err => r ← get_path os fs d; throw (with_context err)
  | Panic => lift Panic
  end.

Definition deserialize_handle (sh : SerHandle) : IO unit :=
  d ← gets (fun s : state => store_get (inodes s) (sh_inode sh));
  match d with
  | None => throw other_io_error
  | Some d =>
      pin checks fs (sh_inode sh)
        (let '(SerOpenInode flags) := sh_source sh in
         f ← attempt (reopen_handle d flags);
         f ← match f with
             | Err err =>
                 match migration_on_error (cfg fs) with
                 | OnErrorAbort => throw err
                 | OnErrorGuestError => mret (HandleInvalid err)
                 end
             | f => lift f
             end;
         insert_handle checks fs (sh_id sh)
           {| hd_inode := sh_inode sh; hd_file := f; hd_file_type := file_type_from_mode (mode d);
              hd_migration_info := OpenInode flags |})
  end.

(** [*fs.handles.write() = BTreeMap::new()] *)
Definition clear_handles : IO unit :=
  hs ← gets handles;
  modify (set_handles ∅);;
  each (drop_handle checks fs) (handles_in_order hs).

(** *** The whole state *)

(** The root comes first when mounts have to be opened below it. *)
Definition deserialize_mounts (inodes : list SerInode) (mount_paths : gmap Z bytes)
  : IO (list SerInode * gmap Z MountFd) :=
  if decide (inodes = [] \/ mount_paths = ∅) then mret (inodes, ∅)
  else
    match list_find (fun si => si_id si = ROOT_ID) inodes with
    | None => throw other_io_error
    | Some (root_index, root) =>
        deserialize_root_node root;;
        root_node ← referenced ROOT_ID;
        f ← with_err_context (get_file os root_node);
        map ← finally
          (open_mount_fds (raw_fd f) (hash_order (dom mount_paths)) mount_paths ∅)
          (inode_file_drop f);
        mret (swap_remove root_index inodes, map)
    end.

Definition apply_with_mount_paths (st : PassthroughFsV1) (mount_paths : gmap Z bytes) : IO unit :=
  apply_opts (v1_negotiated_opts st);;
  store ← gets inodes;
  change_store checks fs (inode_clear store);;
  '(inodes, mount_fds) ← deserialize_mounts (v1_inodes st) mount_paths;
  finally
    (deserialize_inodes mount_fds inodes;;
     modify (set_next_inode (v1_next_inode st));;
     clear_handles;;
     each deserialize_handle (v1_handles st);;
     modify (set_next_handle (v1_next_handle st)))
    (release_mount_fds mount_fds).

Definition deserialize_and_apply (serialized : bytes) : IO unit :=
  st ← lift (from_bytes serialized);
  match st with
  | V1 st => apply_with_mount_paths st ∅
  | V2 st => apply_with_mount_paths (v1 st) (mount_paths st)
  end.
End Deserialization.
