(* ===== verification/SerializationSpec.v ===== *)
(** * The source of a migration

    Preparing and serializing: whatever the host answers, and whether or not the
    migration is called off, the books stay as they were - the references the guest
    holds, the counts, the descriptors. *)

From S2P Require Import Prelude OpenFlags Libc FileHandle InodeStore DentryIndex FuseTypes.
From S2P Require Import FuseWire Descriptor SoftIdMap XattrMap FileSystem Host Credentials ReadDir.
From S2P Require Import Paths MountFds Passthrough Ownership PassthroughOps PassthroughSpec.
From S2P Require Import Preserialization Migration.

Section Books.
Context {W M : Type} `{Host W} `{RangeMap M MapEntry} `{Postcard SerPassthroughFs} `{HashOrder}.
Context (os : HostOs) (fs : Setup M) (rounds : nat).
Context (cancel : PassthroughFs W -> bool).

Local Notation state := (PassthroughFs W).
Local Notation IO := (eff state).
Local Notation quiet := (respects untouched).
Local Notation spends := (spends true fs 0).
Local Notation neutral := (neutral true fs 0).

Lemma quiet_referenced i : quiet (referenced (W := W) i).
Proof. unfold referenced. respect. Qed.

Lemma quiet_identify d : quiet (identify (W := W) os fs d).
Proof. unfold identify. respect. Qed.

Lemma quiet_handle_of_file fd path : quiet (handle_of_file (W := W) os fd path).
Proof. unfold handle_of_file, name_to_handle_at. respect. Qed.

Lemma quiet_err_context {A} (m : IO A) : quiet m -> quiet (with_err_context m).
Proof. intros Hm. unfold with_err_context. respect. Qed.
#[local] Hint Resolve quiet_referenced quiet_identify quiet_handle_of_file quiet_err_context : eff.

Lemma quiet_check_path mi d : quiet (check_path_presence (W := W) os mi d).
Proof. unfold check_path_presence, check_presence, with_file. respect. Qed.
#[local] Hint Resolve quiet_check_path : eff.

Lemma spends_clone_ref i : spends nothing (clone_ref (W := W) true i) ref nothing.
Proof. eapply spends_expect, free, spends_strong_ref. Qed.

(** *** Clearing the infos *)

Lemma shrunk_clear_infos st : shrunk st (clear_migration_info st).
Proof.
  etrans; [|apply shrunk_drop_references]. intros i d'. simpl. rewrite lookup_fmap_Some.
  intros (d & <- & Hd). exists d. unfold without_migration_info. by case_match.
Qed.

Lemma neutral_clear_infos : neutral (clear_infos true fs).
Proof.
  apply spends_gets. intros k s b Hk Hb Hs. pose proof Hs as (Hw & Hrc & _).
  eapply balanced_change; [exact Hs|done|apply shrunk_clear_infos
    |by apply store_wf_clear_migration_info|].
  apply rc_inv_clear_migration_info. eapply rc_inv_ext, Hrc. intros j. simpl. rewrite occ_nil. lia.
Qed.

Lemma neutral_put_none i : neutral (put_migration_info true fs i None).
Proof. apply (spends_put true fs i None). Qed.

(** *** Walking the store *)

Lemma neutral_should_update mode d : neutral (should_update_inode true os fs mode d).
Proof.
  unfold should_update_inode. destruct mode, (migration_info d); try apply neutral_ret.
  all: apply neutral_bind; [apply neutral_quiet; respect|]; intros [?|?|];
    apply neutral_bind; intros; try apply neutral_ret; try apply neutral_lift;
    apply neutral_put_none.
Qed.

Lemma neutral_pin {A} i (m : IO A) : neutral m -> neutral (pin true fs i m).
Proof. intros Hm. by apply spends_pin. Qed.

Lemma neutral_walk_inodes fuel mode stop last shared :
  neutral (walk_inodes true os fs fuel mode stop last shared).
Proof.
  revert last. induction fuel as [|fuel IH]; intros last; cbn [walk_inodes]; [apply neutral_lift|].
  apply neutral_gets. intros store. apply neutral_bind; [apply neutral_lift|]. intros [[i d]|];
    [|apply neutral_ret]. apply neutral_gets. intros [|]; [apply neutral_ret|].
  apply neutral_bind; [|intros [?|?|]; [apply IH|apply neutral_ret..]].
  apply neutral_pin, neutral_bind; [apply neutral_should_update|]. intros [|]; simpl;
    [|apply neutral_ret]. apply neutral_bind; [apply neutral_set_path|]. intros r. apply neutral_ret.
Qed.

Lemma neutral_walker_run mode stop : neutral (walker_run true os fs rounds mode stop).
Proof.
  apply neutral_gets. intros [root|]; [|apply neutral_gets; intros; apply neutral_ret].
  apply neutral_pin, neutral_bind; [apply neutral_quiet; eauto with eff|].
  intros [path|e|]; [apply neutral_walk_inodes|apply neutral_ret|apply neutral_lift].
Qed.

Lemma neutral_confirm_paths : neutral (confirm_paths true os fs rounds).
Proof. apply neutral_bind; [apply neutral_walker_run|]. intros. apply neutral_lift. Qed.

Lemma neutral_check_paths : neutral (check_paths true os fs rounds cancel).
Proof.
  apply neutral_bind; [apply neutral_walker_run|]. intros [?|?|];
    [apply neutral_ret..|apply neutral_lift].
Qed.

Lemma neutral_proc_paths : neutral (proc_paths_execute true os fs rounds cancel).
Proof.
  apply neutral_bind; [apply neutral_walker_run|]. intros [?|[?|?]|];
    [apply neutral_ret..|apply neutral_lift].
Qed.

(** *** File handles *)

Lemma neutral_set_handle_info d : neutral (set_handle_info true os fs d).
Proof.
  apply neutral_bind; [apply neutral_quiet; respect|]. intros h.
  apply (spends_put true fs (inode d)
    (Some {| location := ByFileHandle h; mig_file_handle := _ |})).
Qed.

Lemma neutral_collect_handles fuel last : neutral (collect_handles true os fs cancel fuel last).
Proof.
  revert last. induction fuel as [|fuel IH]; intros last; cbn [collect_handles];
    [apply neutral_lift|].
  apply neutral_gets. intros store. apply neutral_bind; [apply neutral_lift|]. intros [[i d]|];
    [|apply neutral_ret]. apply neutral_gets. intros [|]; [apply neutral_ret|].
  apply neutral_bind; [|intros; apply IH]. apply neutral_pin. case_match; [apply neutral_ret|].
  apply neutral_bind; [apply neutral_attempt, neutral_set_handle_info|].
  intros [?|?|]; [apply neutral_lift|apply neutral_quiet; eauto with eff|apply neutral_lift].
Qed.

(** *** Walking the shared directory *)

Lemma spends_path_info parent name fn :
  quiet fn ->
  spends nothing (path_info true fs parent name fn) (fun mi => refs_of (strong_references mi)) nothing.
Proof.
  intros Hfn. apply (spends_bind _ _ 0 0 _ _ _ ref); [done|apply spends_clone_ref|]. intros p.
  apply (spends_on_failure _ _ 0 0 _ _ _ _ (ref p)); [done| |apply spends_drop_ref].
  apply spends_quiet_bind; [done|respect|]. intros h. by intros n s b Hn Hb Hs.
Qed.

Lemma spends_discovered parent name fd handle (dir : bool) i :
  spends (ref i) (discovered true os fs parent name fd handle dir i) found nothing.
Proof.
  apply (spends_bind _ _ 0 0 _ _ _ (fun _ => ref i)); [done| |].
  - apply (spends_on_failure _ _ 0 0 _ _ _ _ (ref i)); [done| |apply spends_drop_ref].
    eapply (spends_bind _ _ 0 0); [done| |].
    + eapply spends_weaken; [apply (spends_frame _ _ (ref i)); [done|];
        apply spends_path_info; respect|done|balance|reflexivity|balance].
    + intros mi. pose proof (spends_put true fs i (Some mi) nothing) as Hp.
      change (info_references (Some mi)) with (strong_references mi) in Hp.
      eapply spends_weaken; [apply (spends_frame _ _ (ref i)); [done|exact Hp]
        |done|balance|intros ?; balance|balance].
  - intros _. destruct dir; [by intros n s b Hn Hb Hs|].
    eapply (spends_then _ _ nothing 0 0 (ref i)); [apply infallible_drop_ref|done..| |balance|].
    + apply (spends_drop_ref _ _ i nothing).
    + by intros n s b Hn Hb Hs.
Qed.

Lemma spends_new_directory parent name st foh :
  spends (files_of (file_count foh)) (new_directory true os fs parent name st foh) found nothing.
Proof.
  set (f := files_of (file_count foh)).
  apply (spends_bind _ _ 0 0 _ _ _ (fun mi => both f (refs_of (strong_references mi)))); [done| |].
  - apply (spends_on_failure _ _ 0 0 _ _ _ _ f); [done| |apply spends_drop_foh].
    eapply spends_weaken; [apply (spends_frame _ _ f); [apply file_count_nonneg|];
      apply spends_path_info; eauto with eff|done|balance|done|balance].
  - intros mi. apply (spends_bind _ _ 0 0 _ _ _ (fun _ => both f (refs_of (strong_references mi))));
      [done| |].
    + eapply spends_infallible; [|apply spends_quiet, quiet_new_id]. done.
    + intros i. apply (spends_bind _ _ 0 0 _ _ _ ref); [done| |by intros j n s b Hn Hb Hs].
      eapply spends_weaken; [eapply free, spends_store_get_or_insert|done| |done..].
      unfold f, given, data_references. cbn [migration_info file_or_handle]. balance.
Qed.

Lemma spends_discover parent fd name :
  spends nothing (discover true os fs parent fd name) found nothing.
Proof.
  unfold discover. case_match; [apply spends_throw|].
  destruct (decide _) as [Hdots|Hdots]; [by intros n s b Hn Hb Hs|].
  apply spends_quiet_bind; [done|eauto with eff|]. intros path_fd.
  apply (spends_bind _ _ 0 0 _ _ _ (fun r => found r.2)); [done| |].
  - apply (spends_on_failure _ _ 0 0 _ _ _ _ nothing); [done| |apply spends_close].
    apply spends_quiet_bind; [done|eauto with eff|]. intros st.
    apply spends_quiet_bind; [done|eauto with eff|]. intros handle.
    apply (spends_bind _ _ 0 0 _ _ _ found); [done|eapply free, spends_claim|]. intros o.
    by intros k s b Hn Hb Hs.
  - intros [[st handle] [i|]]; cbn [snd found from_option].
    + apply (spends_finally _ _ 0 0 _ _ _ found _ nothing);
        [done|apply spends_discovered|intros; apply spends_close|apply spends_close].
    + destruct (negb (Z.land _ _ =? _)).
      { apply (spends_bind _ _ 0 0 _ _ _ (fun _ => nothing)); [done|apply spends_close|].
        intros _. by intros n s b Hn Hb Hs. }
      destruct handle as [h|].
      * apply (spends_finally _ _ 0 0 _ _ _ found _ nothing);
          [done| |intros; apply spends_close|apply spends_close].
        apply spends_quiet_bind; [done|eauto with eff|]. intros openable.
        apply (spends_new_directory parent name st (Handle openable)).
      * apply (spends_bind _ _ 0 0 _ _ _ (fun _ => files_of 1)); [done|apply spends_allocate|].
        intros _. apply (spends_new_directory parent name st (File path_fd)).
Qed.

(** A step that keeps everything and cannot fail, then the rest. *)
Lemma spends_keep {A B} g (m : IO A) (c : A -> IO B) t e :
  infallible m -> quiet m -> (forall a, spends g (c a) t e) -> spends g (a ← m; c a) t e.
Proof.
  intros Hi Hq Hc. apply (spends_bind _ _ 0 0 _ _ _ (fun _ => g)); [done| |done].
  eapply spends_infallible; [done|]. by apply spends_quiet.
Qed.

Lemma infallible_referenced i : infallible (referenced (W := W) i).
Proof. intros s. unfold referenced, gets, mbind, eff_bind, lift. simpl. by destruct (store_get _ _). Qed.

Lemma infallible_identify d : infallible (identify (W := W) os fs d).
Proof. apply infallible_ignore. Qed.

Lemma infallible_expect {A} (m : IO A) : infallible (expect m).
Proof. intros s. unfold expect. by destruct (m s) as [s' [a|?|]]. Qed.
#[local] Hint Resolve infallible_referenced infallible_identify infallible_expect infallible_attempt
  infallible_close infallible_drop_ref : eff.

(** Whatever the books would be after an error: there is none. *)
Lemma spends_frame_any {A} f g (m : IO A) t e :
  0 <= files f -> (forall e, spends g m t e) -> spends (both f g) m (fun a => both f (t a)) e.
Proof.
  intros Hf Hm n s b Hn Hb Hs. apply books_assoc in Hs.
  assert (Hnn := nonneg_gain _ _ Hb Hf).
  pose proof (Hm nothing n s _ Hn Hnn Hs) as H3. pose proof (Hm (files_of 1) n s _ Hn Hnn Hs) as H4.
  unfold balanced in *. destruct (m s) as [s' [a|err|]]; [by apply books_assoc| |done].
  destruct H3 as (_ & _ & _ & _ & _ & H3 & _), H4 as (_ & _ & _ & _ & _ & H4 & _).
  simpl in *. lia.
Qed.

(** The references to the directories still to be visited. *)
Definition visited (r : bool * list Z) : loot := refs_of r.2.

Lemma spends_discover_entries fuel dir fd rd dirs e :
  spends (refs_of dirs) (discover_entries true os fs cancel fuel dir fd rd dirs) visited e.
Proof.
  revert rd dirs. induction fuel as [|fuel IH]; intros rd dirs; cbn [discover_entries];
    [apply spends_panic|]. destruct (readdir_next true rd) as [rd' next].
  apply spends_keep; [apply infallible_expect|respect|]. intros [entry|];
    [|by intros n s b Hn Hb Hs]. apply spends_gets_any. intros [|]; [by intros n s b Hn Hb Hs|].
  eapply (spends_bind _ _ 0 0); [done| |].
  - apply spends_attempt. eapply spends_weaken; [apply (spends_frame _ _ (refs_of dirs)); [done|];
      apply spends_discover|done|balance|reflexivity..].
  - intros [[i|]|err|]; cbv beta iota; cbn [found from_option].
    + eapply spends_weaken; [apply (IH rd' (i :: dirs))|done|balance|done..].
    + eapply spends_weaken; [apply (IH rd' dirs)|done|balance|done..].
    + eapply spends_weaken; [|done| |reflexivity..].
      * apply spends_keep; [eauto with eff..|]. intros d.
        apply spends_keep; [eauto with eff..|]. intros _. apply IH.
      * balance.
    + apply spends_panic.
Qed.

Lemma spends_read_directory fuel dir fd dirs e :
  spends (refs_of dirs) (read_directory true os fs rounds cancel fuel dir fd dirs) visited e.
Proof.
  revert dirs. induction fuel as [|fuel IH]; intros dirs; cbn [read_directory]; [apply spends_panic|].
  apply spends_keep; [apply infallible_attempt|unfold read_some; respect|]. intros [rd|err|].
  - case_match; [by intros n s b Hn Hb Hs|].
    apply (spends_bind _ _ 0 0 _ _ _ visited); [done|apply spends_discover_entries|].
    intros [[|] dirs']; [by intros n s b Hn Hb Hs|apply IH].
  - apply spends_keep; [eauto with eff..|]. intros d.
    apply spends_keep; [eauto with eff..|]. intros _. by intros n s b Hn Hb Hs.
  - apply spends_panic.
Qed.

Lemma spends_recurse fuel dirs e :
  spends (refs_of dirs) (recurse true os fs rounds cancel fuel dirs) (fun _ => nothing) e.
Proof.
  revert dirs. induction fuel as [|fuel IH]; intros [|dir dirs]; cbn [recurse];
    try apply spends_panic; try by intros n s b Hn Hb Hs.
  apply spends_keep; [eauto with eff..|]. intros d.
  apply spends_keep; [eauto with eff|respect|]. intros [dirfd|err|]; [| |apply spends_panic].
  - apply (spends_bind _ _ 0 0 _ _ _ (fun r => both (ref dir) (visited r))); [done| |].
    + eapply spends_weaken; [apply (spends_frame_any (ref dir)); [done|]; intros e';
        apply (spends_read_directory rounds dir dirfd dirs e')|done|balance|reflexivity..].
    + intros [stopped dirs']. apply spends_keep; [eauto with eff..|]. intros _.
      eapply (spends_then _ _ (refs_of dirs') 0 0 (ref dir));
        [apply infallible_drop_ref|done..|apply (spends_drop_ref _ _ dir nothing)
        |unfold visited; cbn [snd]; balance|]. destruct stopped; [|apply IH].
      eapply spends_weaken; [apply (spends_each_drop true fs (rev dirs'))|done| |done..].
      split; [|done]. intros p. apply occ_perm, Permutation_rev.
  - apply spends_keep; [eauto with eff..|]. intros _.
    eapply (spends_then _ _ (refs_of dirs) 0 0 (ref dir));
      [apply infallible_drop_ref|done..|apply (spends_drop_ref _ _ dir nothing)|balance|apply IH].
Qed.

Lemma neutral_find_paths : neutral (find_paths_execute true os fs rounds cancel).
Proof.
  eapply (spends_bind _ _ 0 0); [done|eapply spends_attempt, free, spends_strong_ref|].
  intros [root|err|]; cbv beta iota; [|apply neutral_ret|apply neutral_lift].
  apply (spends_recurse rounds [root]).
Qed.

Lemma neutral_prepare : neutral (prepare_serialization true os fs rounds cancel).
Proof.
  apply neutral_bind; [apply neutral_clear_infos|]. intros _.
  apply neutral_bind; [apply neutral_quiet, quiet_modify; done|]. intros _.
  apply neutral_bind; [|intros; apply neutral_check_paths].
  destruct (migration_mode _); [|apply neutral_collect_handles].
  apply neutral_bind; [apply neutral_proc_paths|]. intros fb. apply neutral_when, neutral_find_paths.
Qed.

(** *** Serialization *)

Lemma quiet_mount_path path id : quiet (get_mount_path (W := W) path id).
Proof. unfold get_mount_path. respect. Qed.
#[local] Hint Resolve quiet_mount_path : eff.

Lemma quiet_build_mount_paths path l m : quiet (build_mount_paths (W := W) path l m).
Proof. revert m. induction l; intros m; cbn [build_mount_paths]; respect. Qed.
#[local] Hint Resolve quiet_build_mount_paths : eff.

Lemma quiet_serialize_fs : quiet (serialize_fs (W := W) true os fs).
Proof. unfold serialize_fs, collect_mount_paths, shared_dir_path. respect. Qed.

Lemma neutral_serialize : neutral (serialize true os fs rounds).
Proof.
  apply neutral_bind; [apply neutral_quiet, quiet_modify; done|]. intros _.
  apply neutral_bind.
  - case_match; [|apply neutral_ret].
    apply neutral_bind; [apply neutral_attempt, neutral_confirm_paths|]. intros [?|?|];
      [apply neutral_lift| |apply neutral_lift].
    apply neutral_bind; [apply neutral_clear_infos|]. intros _. apply neutral_throw.
  - intros _. apply neutral_bind; [apply neutral_quiet, quiet_serialize_fs|]. intros st.
    apply neutral_bind; [apply neutral_clear_infos|]. intros _. apply neutral_lift.
Qed.
End Books.

#[export] Hint Resolve quiet_referenced quiet_identify quiet_handle_of_file quiet_err_context
  quiet_check_path : eff.

(** ** Infos that can be serialized

    With [--migration-verify-handles] an info without a file handle would make its inode
    invalid on the destination, although its parent's count includes it.  No info is made
    that way, and inode IDs are unsigned. *)

Section Migratable.
Context {W M : Type} `{Host W} `{RangeMap M MapEntry}.
Context (fs : Setup M).

Local Notation state := (PassthroughFs W).
Local Notation IO := (eff state).

Definition info_complete (mi : option InodeMigrationInfo) : Prop :=
  migration_verify_handles (cfg fs) = true -> forall m, mi = Some m -> is_Some (mig_file_handle m).

Definition entries_complete (st : InodeStoreInner) : Prop :=
  forall i d, data st !! i = Some d -> inode d = i /\ 0 <= i /\ info_complete (migration_info d).

Definition migratable (s : state) : Prop := 0 <= next_inode s /\ entries_complete (inodes s).

Definition keeps (s s' : state) : Prop := migratable s -> migratable s'.

#[export] Instance keeps_preorder : PreOrder keeps.
Proof. split; [by intros ??|]. intros s1 s2 s3 H1 H2 Hm. auto. Qed.

Lemma keeps_same s s' : inodes s' = inodes s -> next_inode s' = next_inode s -> keeps s s'.
Proof. intros Hi Hn [? ?]. unfold migratable. by rewrite Hi, Hn. Qed.

Lemma keeps_store st s : (entries_complete (inodes s) -> entries_complete st) -> keeps s (set_inodes st s).
Proof. intros Hs [? ?]. split; simpl; auto. Qed.

(** [m] goes on with [k a] only for results [a] it can have. *)
Lemma respects_bind_post {S A B} (R : S -> S -> Prop) `{!PreOrder R} (P : A -> Prop)
  (m : eff S A) (k : A -> eff S B) :
  respects R m -> (forall s s' a, m s = (s', Ok a) -> P a) -> (forall a, P a -> respects R (k a)) ->
  respects R (a ← m; k a).
Proof.
  intros Hm Hp Hk s. specialize (Hm s). specialize (Hp s). unfold mbind, eff_bind.
  destruct (m s) as [s1 [a|e|]]; cbn in *; [|done..]. etrans; [done|]. by apply Hk, (Hp s1).
Qed.

(** The first step is only made from the state at hand. *)
Lemma respects_bind_at {S A B} (R : S -> S -> Prop) `{!PreOrder R} (m : eff S A) (k : A -> eff S B) s :
  R s (m s).1 -> (forall a, respects R (k a)) -> R s ((a ← m; k a) s).1.
Proof.
  intros Hm Hk. unfold mbind, eff_bind. destruct (m s) as [s1 [a|e|]]; cbn in *; [|done..].
  etrans; [done|apply Hk].
Qed.

Notation safe m := (respects keeps m).

Lemma safe_hosted {A} (m : eff (world W) A) : safe (hosted m).
Proof. apply (respects_zoom _ (fun _ _ => True)); [by intros ?|]. intros. by apply keeps_same. Qed.

Lemma safe_mounts {A} (m : eff (MountFds * world W) A) : safe (mounts m).
Proof.
  intros s. unfold mounts. destruct (mount_fds s); [|by intros ?].
  destruct (m _) as [[mf w] r]. by apply keeps_same.
Qed.

Lemma safe_modify f :
  (forall s, inodes (f s) = inodes s /\ next_inode (f s) = next_inode s) -> safe (modify f).
Proof. intros Hf. apply respects_modify. intros s. destruct (Hf s). by apply keeps_same. Qed.

Lemma safe_sysc {A} (c : Call A) : safe (sysc c).
Proof. apply safe_hosted. Qed.
#[local] Hint Resolve safe_hosted safe_mounts safe_sysc : eff.
#[local] Hint Extern 2 (respects _ (modify _)) => (apply safe_modify; intros; done) : eff.

(** *** The store *)

Lemma entries_complete_thin st st' :
  (forall i d', data st' !! i = Some d' -> exists d, data st !! i = Some d /\
     inode d' = inode d /\ migration_info d' = migration_info d) ->
  entries_complete st -> entries_complete st'.
Proof.
  intros Ht Hc i d' Hd'. destruct (Ht _ _ Hd') as (d & Hd & -> & ->). by apply Hc.
Qed.

Lemma entries_complete_forget st i c : entries_complete st -> entries_complete (forget_one st i c).
Proof.
  apply forget_one_ind; clear.
  - intros st i d Hc _. eapply entries_complete_thin, Hc. simpl.
    intros j e [_ He]%lookup_delete_Some. eauto.
  - intros st i d rc Hc Hd. eapply entries_complete_thin, Hc. simpl. intros j e.
    rewrite lookup_insert. case_decide; [|eauto]. intros [= <-]. subst. eauto.
Qed.

Lemma entries_complete_drop st l : entries_complete st -> entries_complete (drop_references st l).
Proof.
  intros Hc. apply (fold_left_inv entries_complete); [done|]. intros. by apply entries_complete_forget.
Qed.

Lemma entries_complete_insert st d :
  0 <= inode d -> info_complete (migration_info d) -> entries_complete st ->
  entries_complete (set_data (<[inode d := d]>) st).
Proof.
  intros Hi Hm Hc j e. simpl. rewrite lookup_insert. case_decide; [|apply Hc].
  by intros [= <-]; subst.
Qed.

(** A found entry is counted up. *)
Lemma entries_complete_strong checks st i d st' j :
  entries_complete st -> data st !! i = Some d -> new_with_data checks st d = Ok (st', j) ->
  entries_complete st'.
Proof.
  intros Hc Hd Hn. apply new_with_data_inv in Hn as (_ & _ & rc & Hst & _). simpl in Hst. subst st'.
  destruct (Hc _ _ Hd) as (Hi & ? & ?). subst i.
  apply (entries_complete_insert _ (set_refcount rc d)); done.
Qed.

Lemma find_claimable_stored st handle k d :
  find_claimable st handle k = Ok (Some d) -> exists i, data st !! i = Some d.
Proof.
  assert (Hh : forall h o, get_by_handle st h = Ok (Some o) -> exists i, data st !! i = Some o).
  { unfold get_by_handle, store_get. intros h o. destruct (inode_by_handle st h) as [i|]; [|done].
    destruct (data st !! i) eqn:Hd; intros; simplify_eq/=. eauto. }
  assert (Hk : forall o, get_by_ids st k = Ok (Some o) -> exists i, data st !! i = Some o).
  { unfold get_by_ids, store_get. intros o. destruct (inode_by_ids st k) as [i|]; [|done].
    destruct (data st !! i) eqn:Hd; intros; simplify_eq/=. eauto. }
  unfold find_claimable. intros Hf.
  destruct (match handle with Some h => get_by_handle st h | None => Ok None end)
    as [[o|]|?|] eqn:Hbh; simplify_eq/=.
  - destruct handle; [eauto|done].
  - destruct (get_by_ids st k) as [[o|]|?|]; simplify_eq/=. case_match; simplify_eq. eauto.
Qed.

Lemma entries_complete_claim checks st handle k st' j :
  entries_complete st -> claim_inode checks st handle k = Ok (st', j) -> entries_complete st'.
Proof.
  intros Hc Hn. unfold claim_inode in Hn.
  destruct (find_claimable st handle k) as [[d|]|?|] eqn:Hf; simplify_eq/=.
  apply find_claimable_stored in Hf as [i Hi]. by eapply entries_complete_strong.
Qed.

Lemma entries_complete_get_or_insert checks st d :
  0 <= inode d -> info_complete (migration_info d) -> entries_complete st ->
  entries_complete (get_or_insert checks st d).1.
Proof.
  intros Hi Hm Hc. unfold get_or_insert. destruct (claim_inode _ _ _ _) as [[st' j]|e|] eqn:Hcl; [| |done].
  - by eapply entries_complete_drop, entries_complete_claim.
  - case_decide; [by apply entries_complete_drop|]. unfold insert_new. simpl.
    destruct (data st !! inode d); [done|]. by apply (entries_complete_insert _ (set_refcount 1 d)).
Qed.

Lemma safe_drop_foh checks foh : safe (drop_file_or_handle checks fs foh).
Proof.
  destruct foh; unfold drop_file_or_handle, guest_file_drop, guest_release, drop_mount_fd; respect.
Qed.
#[local] Hint Resolve safe_drop_foh : eff.

Lemma safe_change_store checks st' (s : state) :
  keeps s (set_inodes st' s) -> keeps s (change_store checks fs st' s).1.
Proof.
  intros Hk. unfold change_store, gets, modify, mbind, eff_bind. simpl.
  assert (Hr : safe (each (release_data checks fs) (removed (inodes s) st'))).
  { unfold release_data. respect. }
  etrans; [exact Hk|apply Hr].
Qed.

(** *** What the walker calls *)

Lemma safe_drop_ref checks i : safe (drop_ref checks fs i).
Proof.
  intros s. apply safe_change_store, keeps_store, entries_complete_forget.
Qed.

Lemma safe_strong_ref checks i : safe (strong_ref checks i).
Proof.
  intros s. unfold strong_ref, gets, lift, modify, mbind, eff_bind. simpl.
  destruct (get_strong checks (inodes s) i) as [[st' j]|?|] eqn:Hg; simpl; [|by intros ?..].
  apply keeps_store. intros Hc. unfold get_strong, store_get in Hg.
  destruct (data (inodes s) !! i) as [d|] eqn:Hd; simplify_eq/=. by eapply entries_complete_strong.
Qed.

Lemma safe_claim checks handle k : safe (claim checks handle k).
Proof.
  intros s. unfold claim, gets, lift, modify, mbind, eff_bind. simpl.
  destruct (claim_inode checks (inodes s) handle k) as [[st' j]|?|] eqn:Hg; simpl; [|by intros ?..].
  apply keeps_store. intros Hc. by eapply entries_complete_claim.
Qed.
#[local] Hint Resolve safe_drop_ref safe_strong_ref safe_claim : eff.

Lemma safe_pin {A} checks i (m : IO A) : safe m -> safe (pin checks fs i m).
Proof. intros Hm. unfold pin, unpin. respect. Qed.

Lemma safe_with_inode {A} checks i (k : InodeData -> IO A) :
  (forall d, safe (k d)) -> safe (with_inode checks fs i k).
Proof. intros Hk. unfold with_inode. respect. by apply safe_pin. Qed.

Lemma safe_get_file os d : safe (get_file os d).
Proof. unfold get_file, openable_open, open_by_handle_at. respect. Qed.

Lemma safe_file_drop f : safe (inode_file_drop f).
Proof. unfold inode_file_drop. respect. Qed.
#[local] Hint Resolve safe_get_file safe_file_drop : eff.

Lemma safe_get_path os d : safe (get_path os fs d).
Proof. unfold get_path. respect. Qed.

Lemma safe_with_file {A} os d (k : Z -> IO A) : (forall fd, safe (k fd)) -> safe (with_file os d k).
Proof. intros Hk. unfold with_file. respect. Qed.

Lemma safe_serializable os foh : safe (serializable_handle os foh).
Proof. unfold serializable_handle, name_to_handle_at. respect. Qed.
#[local] Hint Resolve safe_get_path safe_serializable : eff.

Lemma safe_info_internal os l foh : safe (migration_info_internal os fs l foh).
Proof. unfold migration_info_internal. respect. Qed.
#[local] Hint Resolve safe_info_internal : eff.

Lemma safe_info_new checks os p name foh : safe (migration_info_new checks os fs p name foh).
Proof. unfold migration_info_new. respect. Qed.

Lemma info_internal_complete os l foh (s s' : state) mi :
  migration_info_internal os fs l foh s = (s', Ok mi) -> info_complete (Some mi).
Proof.
  unfold migration_info_internal. intros Hm. 
  apply eff_bind_inv in Hm as [(s1 & h & Hh & Hr)|[(? & _ & ?)|[_ ?]]]; [|done..].
  injection Hr as <- <-. intros Hv m [= <-]. simpl. rewrite Hv in Hh.
  apply eff_bind_inv in Hh as [(s2 & h' & _ & Hr)|[(? & _ & ?)|[_ ?]]]; [|done..].
  injection Hr as <- <-. eauto.
Qed.

Lemma finally_inv {A} (m : IO A) c s s' a :
  finally m c s = (s', Ok a) -> exists s1, m s = (s1, Ok a).
Proof.
  unfold finally. destruct (m s) as [s1 r]. destruct (c s1) as [s2 rc]. intros Hf.
  destruct rc; simplify_eq; eauto.
Qed.

Lemma on_failure_inv {A} (m : IO A) c s s' a :
  on_failure m c s = (s', Ok a) -> m s = (s', Ok a).
Proof.
  unfold on_failure. destruct (m s) as [s1 [?|?|]]; [done|..]; destruct (c s1) as [s2 rc]; intros Hf;
    destruct rc; simplify_eq.
Qed.

Lemma info_new_complete checks os p name foh (s s' : state) mi :
  migration_info_new checks os fs p name foh s = (s', Ok mi) -> info_complete (Some mi).
Proof.
  unfold migration_info_new. destruct (migration_mode _); intros Hm.
  - apply on_failure_inv in Hm. case_match; [by eapply info_internal_complete|done].
  - apply finally_inv in Hm as [s1 Hm].
    apply eff_bind_inv in Hm as [(s2 & h & _ & Hm)|[(? & _ & ?)|[_ ?]]]; [|done..].
    apply eff_bind_inv in Hm as [(s3 & h' & _ & Hm)|[(? & _ & ?)|[_ ?]]]; [|done..].
    by eapply info_internal_complete.
Qed.
#[local] Hint Resolve safe_info_new : eff.

Lemma safe_put checks i mi : info_complete mi -> safe (put_migration_info checks fs i mi).
Proof.
  intros Hm. unfold put_migration_info. apply respects_bind; [exact _| |intros; respect].
  intros s. unfold swap_migration_info, gets, modify, mbind, eff_bind. simpl. unfold store_get.
  destruct (data (inodes s) !! i) as [d|] eqn:Hd; simpl; [|by intros ?].
  apply keeps_store. intros Hc. destruct (Hc _ _ Hd) as (? & ? & ?). subst i.
  by apply (entries_complete_insert _ (set_migration_info mi d)).
Qed.

Lemma safe_store_get_or_insert checks d :
  0 <= inode d -> info_complete (migration_info d) -> safe (store_get_or_insert checks fs d).
Proof.
  intros Hi Hm s. unfold store_get_or_insert, gets, mbind at 1, eff_bind at 1.
  pose proof (entries_complete_get_or_insert checks (inodes s) d Hi Hm) as Hc.
  destruct (get_or_insert checks (inodes s) d) as [st' r]. simpl in Hc.
  apply respects_bind_at; [exact _| |respect]. by apply safe_change_store, keeps_store.
Qed.

(** IDs are unsigned; [k] is given one. *)
Lemma safe_new_id {A} (k : Z -> IO A) :
  (forall i, 0 <= i -> safe (k i)) -> safe (i ← new_inode_id; k i).
Proof.
  intros Hk s. unfold new_inode_id, gets, modify, mbind, eff_bind, mret, eff_ret. simpl.
  intros [Hn Hc]. apply (Hk _ Hn). split; simpl; [|done]. by apply Z.mod_pos.
Qed.

Lemma safe_insert_inode checks os parent name st foh :
  safe (insert_inode checks os fs parent name st foh).
Proof.
  unfold insert_inode. apply respects_bind; [exact _|respect|]. intros tracked.
  apply (respects_bind_post _ info_complete); [respect| |].
  - intros s s' mi Hm. apply on_failure_inv in Hm. destruct tracked; [|by injection Hm as <- <-].
    apply eff_bind_inv in Hm as [(s1 & p & _ & Hm)|[(? & _ & ?)|[_ ?]]]; [|done..].
    apply eff_bind_inv in Hm as [(s2 & m & Hm & Hr)|[(? & _ & ?)|[_ ?]]]; [|done..].
    injection Hr as <- <-. by eapply info_new_complete.
  - intros mi Hm. apply safe_new_id. intros i Hi. by apply safe_store_get_or_insert.
Qed.
#[local] Hint Resolve safe_insert_inode : eff.

Lemma safe_handle_opt os fd st : safe (get_file_handle_opt os fs fd st).
Proof. unfold get_file_handle_opt, name_to_handle_at. respect. Qed.

Lemma safe_openable os fh : safe (make_file_handle_openable os fs fh).
Proof. unfold make_file_handle_openable. respect. Qed.

Lemma safe_open_relative os dir p fl mode : safe (open_relative_to os fs dir p fl mode).
Proof. unfold open_relative_to, do_open_relative_to. respect. Qed.

Lemma safe_allocate fd : safe (guest_allocate fd).
Proof. unfold guest_allocate. respect. Qed.
#[local] Hint Resolve safe_handle_opt safe_openable safe_open_relative safe_allocate : eff.

Lemma safe_do_lookup checks os parent name : safe (do_lookup checks os fs parent name).
Proof.
  apply safe_with_inode. intros p. apply respects_bind; [exact _| |].
  - apply safe_with_file. intros fd. respect.
  - unfold lookup_entry, dentry_index_insert, update_dentries. respect.
Qed.
#[local] Hint Resolve safe_do_lookup : eff.

Lemma safe_walk_path checks os parent l : safe (walk_path checks os fs parent l).
Proof.
  revert parent. induction l as [|e l IH]; intros parent; cbn [walk_path]; [respect|].
  apply respects_bind; [exact _|respect|]. intros [entry|?|]; [|respect..].
  apply respects_bind; [exact _|respect|]. intros [d|]; [|respect].
  destruct (migration_info d); [respect; apply IH|].
  apply (respects_bind_post _ (fun r => forall mi, r = Ok mi -> info_complete (Some mi))); [respect| |].
  - unfold attempt. intros s s' r Hr mi ->.
    destruct (migration_info_new _ _ _ _ _ _ s) as [s1 [?|?|]] eqn:Hm; simplify_eq.
    by eapply info_new_complete.
  - intros [mi|?|] Hmi; [|respect..]. apply respects_bind; [exact _| |intros; apply IH].
    apply safe_put. by apply Hmi.
Qed.
#[local] Hint Resolve safe_walk_path : eff.

Lemma safe_more_links os n d : safe (more_links_than os n d).
Proof. unfold more_links_than, link_count, with_file. respect. Qed.
#[local] Hint Resolve safe_more_links : eff.

Lemma safe_set_path checks os d shared :
  safe (set_path_migration_info_from_proc_self_fd checks os fs d shared).
Proof. unfold set_path_migration_info_from_proc_self_fd, path_error_fall_back. respect. Qed.
#[local] Hint Resolve safe_set_path : eff.

Lemma safe_check_path os mi d : safe (check_path_presence os mi d).
Proof.
  unfold check_path_presence, check_presence, with_file, referenced, with_err_context, handle_of_file,
    name_to_handle_at. respect.
Qed.
#[local] Hint Resolve safe_check_path : eff.

Lemma safe_should_update checks os mode d : safe (should_update_inode checks os fs mode d).
Proof.
  unfold should_update_inode. destruct mode, (migration_info d); try by respect.
  all: apply respects_bind; [exact _|respect|]; intros [?|?|]; [respect| |respect];
    (apply respects_bind; [exact _| |respect]; by apply safe_put).
Qed.
#[local] Hint Resolve safe_should_update : eff.

Lemma safe_walk_inodes checks os fuel mode stop last shared :
  safe (walk_inodes checks os fs fuel mode stop last shared).
Proof.
  revert last. induction fuel as [|fuel IH]; intros last; cbn [walk_inodes]; [respect|].
  respect. by apply safe_pin; respect.
Qed.
#[local] Hint Resolve safe_walk_inodes : eff.

Lemma safe_confirm_paths checks os rounds : safe (confirm_paths checks os fs rounds).
Proof. unfold confirm_paths, walker_run. respect. apply safe_pin. respect. Qed.

(** *** Preparation *)

Lemma safe_clear_infos checks : safe (clear_infos checks fs).
Proof.
  intros s. unfold clear_infos, gets, mbind, eff_bind. apply safe_change_store, keeps_store.
  intros Hc. unfold clear_migration_info. apply entries_complete_drop.
  intros i d. simpl. rewrite lookup_fmap, fmap_Some. intros (d' & Hd' & ->).
  destruct (Hc _ _ Hd') as (? & ? & ?). unfold without_migration_info. by case_match.
Qed.

Lemma safe_identify os d : safe (identify os fs d).
Proof. unfold identify. respect. Qed.

Lemma safe_handle_of_file os fd path : safe (handle_of_file os fd path).
Proof. unfold handle_of_file, name_to_handle_at. respect. Qed.
#[local] Hint Resolve safe_clear_infos safe_identify safe_handle_of_file : eff.

Lemma safe_set_handle_info checks os d : safe (set_handle_info checks os fs d).
Proof.
  unfold set_handle_info, with_err_context. apply respects_bind; [exact _|respect|]. intros h.
  apply safe_put. intros Hv m [= <-]. simpl. rewrite Hv. eauto.
Qed.
#[local] Hint Resolve safe_set_handle_info : eff.

Lemma safe_collect_handles checks os cancel fuel last :
  safe (collect_handles checks os fs cancel fuel last).
Proof.
  revert last. induction fuel as [|fuel IH]; intros last; cbn [collect_handles]; [respect|].
  respect. by apply safe_pin; respect.
Qed.

Lemma safe_path_info checks parent name fn : safe fn -> safe (path_info checks fs parent name fn).
Proof. intros Hf. unfold path_info, clone_ref. respect. Qed.

Lemma path_info_complete checks parent name fn (s s' : state) mi :
  path_info checks fs parent name fn s = (s', Ok mi) -> info_complete (Some mi).
Proof.
  unfold path_info. intros Hm.
  apply eff_bind_inv in Hm as [(s1 & p & _ & Hm)|[(? & _ & ?)|[_ ?]]]; [|done..].
  apply on_failure_inv in Hm.
  apply eff_bind_inv in Hm as [(s2 & h & Hh & Hm)|[(? & _ & ?)|[_ ?]]]; [|done..].
  injection Hm as <- <-. intros Hv m [= <-]. simpl. rewrite Hv in Hh.
  apply eff_bind_inv in Hh as [(s3 & h' & _ & Hh)|[(? & _ & ?)|[_ ?]]]; [|done..].
  injection Hh as _ <-. eauto.
Qed.

Lemma safe_discovered checks os parent name fd handle (dir : bool) i :
  safe (discovered checks os fs parent name fd handle dir i).
Proof.
  unfold discovered. apply respects_bind; [exact _| |respect]. apply respects_on_failure; [exact _| |respect].
  apply (respects_bind_post _ (fun mi => info_complete (Some mi))).
  - apply safe_path_info. respect.
  - intros s s' mi. apply path_info_complete.
  - intros mi Hmi. by apply safe_put.
Qed.

Lemma safe_new_directory checks os parent name st foh :
  safe (new_directory checks os fs parent name st foh).
Proof.
  unfold new_directory. apply (respects_bind_post _ (fun mi => info_complete (Some mi))).
  - apply respects_on_failure; [exact _|apply safe_path_info; respect|respect].
  - intros s s' mi Hm. apply on_failure_inv in Hm. by eapply path_info_complete.
  - intros mi Hmi. apply safe_new_id. intros i Hi. apply respects_bind; [exact _| |respect].
    by apply safe_store_get_or_insert.
Qed.
#[local] Hint Resolve safe_discovered safe_new_directory : eff.

Lemma safe_discover checks os parent fd name : safe (discover checks os fs parent fd name).
Proof. unfold discover. respect. Qed.
#[local] Hint Resolve safe_discover : eff.

Lemma safe_discover_entries checks os cancel fuel dir fd : forall rd dirs,
  safe (discover_entries checks os fs cancel fuel dir fd rd dirs).
Proof. induction fuel as [|fuel IH]; intros rd dirs; cbn [discover_entries]; unfold referenced; respect. Qed.
#[local] Hint Resolve safe_discover_entries : eff.

Lemma safe_read_directory checks os rounds cancel fuel dir fd : forall dirs,
  safe (read_directory checks os fs rounds cancel fuel dir fd dirs).
Proof.
  induction fuel as [|fuel IH]; intros dirs; cbn [read_directory]; unfold read_some, referenced; respect.
Qed.
#[local] Hint Resolve safe_read_directory : eff.

Lemma safe_open_file os d fl : safe (open_file os fs d fl).
Proof. unfold open_file, openable_open, open_by_handle_at. respect. Qed.
#[local] Hint Resolve safe_open_file : eff.

Lemma safe_recurse checks os rounds cancel fuel : forall dirs,
  safe (recurse checks os fs rounds cancel fuel dirs).
Proof.
  induction fuel as [|fuel IH]; intros [|dir dirs]; cbn [recurse]; unfold referenced; respect.
Qed.
#[local] Hint Resolve safe_collect_handles safe_recurse : eff.

Lemma safe_walker_run checks os rounds mode stop : safe (walker_run checks os fs rounds mode stop).
Proof. unfold walker_run. respect. apply safe_pin. respect. Qed.
#[local] Hint Resolve safe_walker_run : eff.

Lemma safe_prepare checks os rounds cancel : safe (prepare_serialization checks os fs rounds cancel).
Proof.
  unfold prepare_serialization, proc_paths_execute, find_paths_execute, file_handles_execute,
    check_paths. respect.
Qed.
End Migratable.

(** ** What the stream holds *)

(** The inodes to which an inode's serialized location owns a reference. *)
Definition si_parents (si : SerInode) : list Z :=
  match si_location si with SerPath parent _ => [parent] | _ => [] end.

Definition pending (l : list SerInode) : list Z := flat_map si_parents l.

Definition ids_in (l : list SerInode) : list Z := si_id <$> l.

(** The counts of the stream are the references [g] held outside of it and those the
    paths in it own. *)
Record stream_ok (g : Z -> Z) (l : list SerInode) : Prop := {
  stream_ids : NoDup (ids_in l);
  stream_counts si : si ∈ l ->
    0 < si_refcount si /\ si_refcount si = g (si_id si) + occ (pending l) (si_id si);
  stream_absent i : i ∉ ids_in l -> g i = 0 /\ occ (pending l) i = 0;
  stream_nonneg i : 0 <= g i;
  stream_relative si filename : si ∈ l -> si_location si <> SerFullPath filename;
}.

Lemma iter_all_ok_from st l2 : forall l1 a fuel r,
  entries (data st) = l1 ++ a :: l2 -> (length l2 < fuel)%nat ->
  iter_all true fuel st (Some a.1) = Ok r -> r = l2.*1.
Proof.
  induction l2 as [|b l2 IH]; intros l1 a [|fuel] r He Hf; simpl in Hf; try lia;
    simpl; unfold iter_next, lower_bound; intros Hr;
    (destruct (plain_add true u64_max a.1 1) as [lb|?|] eqn:Ha; [|done..]);
    apply plain_add_exact in Ha as ->; [|by left| |by left];
    simpl in Hr; unfold range_next in Hr;
    pose proof (entries_sorted (data st)) as Hs; rewrite He in Hs;
    rewrite He, filter_after in Hr by done; simpl in Hr; [by simplify_eq|].
  destruct b as [k d]; simpl in *.
  destruct (iter_all true fuel st (Some k)) as [r'|?|] eqn:Hk; simplify_eq/=. f_equal.
  apply (IH (l1 ++ [a]) (k, d) fuel); [by rewrite He, <- app_assoc|lia|done].
Qed.

(** An iteration over a store with unsigned IDs that does not overflow. *)
Lemma iter_all_ok st r :
  (forall i d, data st !! i = Some d -> 0 <= i) ->
  iter_all true (S (size (data st))) st None = Ok r -> r = (entries (data st)).*1.
Proof.
  intros Hk Hr. assert (Hlen : length (entries (data st)) = size (data st))
    by (rewrite entries_perm; apply length_map_to_list).
  simpl in Hr. unfold iter_next in Hr. simpl in Hr. unfold range_next in Hr.
  rewrite filter_all in Hr.
  2: { apply Forall_forall. intros [k d]. rewrite entries_perm, elem_of_map_to_list. apply Hk. }
  destruct (entries (data st)) as [|[k d] l] eqn:He; simpl in *; [by simplify_eq|].
  destruct (iter_all true _ st (Some k)) as [r'|?|] eqn:Hi; simplify_eq/=. f_equal.
  apply (iter_all_ok_from st l [] (k, d) (size (data st))); [done|lia|done].
Qed.

Lemma Forall2_impl_l {A B} (P Q : A -> B -> Prop) l k :
  Forall2 P l k -> (forall a b, a ∈ l -> P a b -> Q a b) -> Forall2 Q l k.
Proof. induction 1; constructor; set_solver. Qed.

Lemma Forall2_elem_r {A B} (P : A -> B -> Prop) l k b :
  Forall2 P l k -> b ∈ k -> exists a, a ∈ l /\ P a b.
Proof. induction 1; [by intros ?%elem_of_nil|]. intros [->|?]%elem_of_cons; set_solver. Qed.

Section Stream.
Context {M : Type} (fs : Setup M).

Lemma serialize_or_invalid_ok d si :
  info_complete fs (migration_info d) ->
  serialize_or_invalid (migration_verify_handles (cfg fs)) d = Ok si ->
  si_id si = inode d /\ si_refcount si = refcount d /\ si_parents si = data_references d /\
  forall filename, si_location si <> SerFullPath filename.
Proof.
  intros Hc. unfold serialize_or_invalid, serialize_inode, data_references.
  destruct (migration_info d) as [mi|]; simpl; [|by intros [= <-]].
  destruct (negb (Bool.eqb _ _)); [done|]. destruct (migration_verify_handles (cfg fs)) eqn:Hv.
  - destruct (Hc Hv mi eq_refl) as [h ->]. simpl. intros [= <-]. simpl. split_and!; try done.
    all: unfold si_parents, strong_references; simpl; by destruct (location mi).
  - intros [= <-]. split_and!; try done.
    all: unfold si_parents, strong_references; simpl; by destruct (location mi).
Qed.

(** The serialized inodes match the entries of the store one by one. *)
Lemma serialize_inodes_matches st l :
  entries_complete fs st ->
  serialize_inodes true (migration_verify_handles (cfg fs)) st = Ok l ->
  Forall2 (fun e si => data st !! e.1 = Some e.2 /\ si_id si = e.1 /\ si_refcount si = refcount e.2 /\
    si_parents si = data_references e.2 /\ forall filename, si_location si <> SerFullPath filename)
    (entries (data st)) l.
Proof.
  intros Hc Hl. unfold serialize_inodes in Hl.
  destruct (iter_all true (S (size (data st))) st None) as [ids|?|] eqn:Hi; simplify_eq/=.
  apply iter_all_ok in Hi as ->; [|intros i d Hd; by apply (Hc i d)].
  apply map_collect_Forall2 in Hl. apply Forall2_fmap_l in Hl.
  eapply Forall2_impl_l; [exact Hl|]. intros [i d] si Hin Hsi. simpl in *.
  rewrite entries_perm, elem_of_map_to_list in Hin. split; [done|]. unfold store_get in Hsi.
  rewrite Hin in Hsi. simpl in Hsi. destruct (Hc _ _ Hin) as (<- & _ & Hm).
  by apply serialize_or_invalid_ok.
Qed.

Lemma serialize_inodes_stream st g l :
  rc_inv st g -> entries_complete fs st ->
  serialize_inodes true (migration_verify_handles (cfg fs)) st = Ok l -> stream_ok g l.
Proof.
  intros Hrc Hc Hl. apply serialize_inodes_matches in Hl; [|done].
  assert (Hids : ids_in l = (entries (data st)).*1).
  { unfold ids_in. clear -Hl. induction Hl as [|[i d] si es l (_ & Hi & _) Hl IH]; csimpl; [done|].
    by rewrite Hi, IH. }
  assert (Hp : forall i, occ (pending l) i = parents (data st) i).
  { intros i. unfold parents, references. rewrite <- (occ_perm _ _ _ (Permutation_flat_map _ (entries_perm (data st)))).
    f_equal. unfold pending. clear -Hl.
    induction Hl as [|e si es l (_ & _ & _ & Hp & _) Hl IH]; simpl; [done|]. by rewrite Hp, IH. }
  assert (Hin : forall i, i ∈ ids_in l <-> is_Some (data st !! i)).
  { intros i. rewrite Hids, list_elem_of_fmap. split.
    - intros ([k d] & -> & He). rewrite entries_perm, elem_of_map_to_list in He. eauto.
    - intros [d Hd]. exists (i, d). split; [done|]. by rewrite entries_perm, elem_of_map_to_list. }
  split.
  - rewrite Hids, entries_perm. apply NoDup_fst_map_to_list.
  - intros si Hsi. destruct (Forall2_elem_r _ _ _ _ Hl Hsi) as ([i d] & _ & Hd & Hi & Hr & _).
    simpl in *. specialize (Hrc i) as [_ Hrc]. rewrite Hd in Hrc. rewrite Hi, Hr, Hp. lia.
  - intros i Hi. specialize (Hrc i) as [_ Hrc]. rewrite Hp.
    destruct (data st !! i) eqn:Hd; [|done]. exfalso. apply Hi, Hin. eauto.
  - intros i. apply Hrc.
  - intros si f Hsi. destruct (Forall2_elem_r _ _ _ _ Hl Hsi) as (e & _ & _ & _ & _ & _ & Hf). apply Hf.
Qed.
End Stream.
