(* ===== verification/DeserializationSpec.v ===== *)
(** * The destination of a migration

    The inodes of a stream are opened in whatever order their parents allow.  While they
    are, the store's counts are the references of the guest and those that the paths still
    to be opened own; at the end they are the guest's alone. *)

From S2P Require Import Prelude OpenFlags Libc FileHandle InodeStore DentryIndex FuseTypes.
From S2P Require Import FuseWire Descriptor SoftIdMap XattrMap FileSystem Host Credentials ReadDir.
From S2P Require Import Paths MountFds Passthrough Ownership PassthroughOps PassthroughSpec Session.
From S2P Require Import Preserialization Migration SerializationSpec.

(** ** Resources *)

Section Resources.
Context {W M : Type} `{Host W} `{RangeMap M MapEntry} `{HashOrder}.
Context (os : HostOs) (fs : Setup M).

Local Notation state := (PassthroughFs W).
Local Notation IO := (eff state).
Local Notation quiet := (respects untouched).
Local Notation spends := (spends true fs 0).
Local Notation neutral := (neutral true fs 0).
Local Notation books := (books true fs 0).

(** What a computation that succeeds makes of what it is given; after an error there is
    nobody left to care. *)
Definition earns {A} (g : loot) (m : IO A) (t : A -> loot) : Prop :=
  forall s b s' a, nonneg b -> books s (gain b g) -> m s = (s', Ok a) -> books s' (gain b (t a)).

Lemma earns_spends {A} g (m : IO A) t e : spends g m t e -> earns g m t.
Proof.
  intros Hm s b s' a Hb Hs Hr. specialize (Hm 0 s b ltac:(done) Hb Hs).
  unfold balanced in Hm. by rewrite Hr in Hm.
Qed.

Lemma earns_bind {A B} (P : A -> Prop) g (m : IO A) (c : A -> IO B) t t' :
  earns g m t -> (forall s s' a, m s = (s', Ok a) -> P a) ->
  (forall a, P a -> earns (t a) (c a) t') -> earns g (a ← m; c a) t'.
Proof.
  intros Hm Hp Hc s b s' r Hb Hs Hr.
  apply eff_bind_inv in Hr as [(s1 & a & Ha & Hr)|[(? & _ & ?)|[_ ?]]]; [|done..].
  eapply Hc; [by eapply Hp|done|by eapply Hm|done].
Qed.

Lemma earns_then {A B} g (m : IO A) (c : A -> IO B) t t' :
  earns g m t -> (forall a, earns (t a) (c a) t') -> earns g (a ← m; c a) t'.
Proof. intros Hm Hc. by apply (earns_bind (fun _ => True) _ _ _ t). Qed.

Lemma earns_quiet {A} g (m : IO A) : quiet m -> earns g m (fun _ => g).
Proof. intros Hm. eapply earns_spends. by apply spends_quiet. Qed.

Lemma earns_same {A} g g' (m : IO A) t t' :
  same g' g -> (forall a, same (t a) (t' a)) -> earns g m t -> earns g' m t'.
Proof.
  intros Hg Ht Hm s b s' a Hb Hs Hr. eapply books_same; [apply Ht|]. eapply Hm; [done| |done].
  by eapply books_same.
Qed.

Lemma earns_frame {A} f g (m : IO A) t :
  0 <= files f -> earns g m t -> earns (both f g) m (fun a => both f (t a)).
Proof.
  intros Hf Hm s b s' a Hb Hs Hr. apply books_assoc. apply books_assoc in Hs.
  by eapply Hm; [apply nonneg_gain| |].
Qed.

Lemma earns_finally {A} g (m : IO A) c t t' :
  earns g m t -> infallible c -> (forall a, earns (t a) c (fun _ => t' a)) ->
  earns g (finally m c) t'.
Proof.
  intros Hm Hi Hc s b s' a Hb Hs Hr. unfold finally in Hr. destruct (m s) as [s1 r] eqn:Hms.
  destruct (c s1) as [s2 rc] eqn:Hcs. specialize (Hi s1). rewrite Hcs in Hi.
  destruct rc as [[]|?|]; [|by simpl in Hi|done]. simplify_eq.
  eapply Hc; [done|by eapply Hm|exact Hcs].
Qed.

(** *** Opening *)

Lemma spends_find_below fd name :
  spends nothing (find_below os fs fd name) (fun r => files_of (file_count r.1)) nothing.
Proof.
  apply spends_quiet_bind; [done|respect|]. intros r.
  apply spends_quiet_bind; [done|respect|]. intros fd'.
  apply (spends_bind _ _ 0 0 _ _ _ (fun _ => nothing)); [done|apply neutral_quiet; respect|].
  intros [st [h|]].
  - eapply (spends_finally _ _ 0 0 _ _ _ (fun r => files_of (file_count r.1)) _ nothing);
      [done| |intros; apply spends_close|apply spends_close].
    apply spends_quiet_bind; [done|eauto with eff|]. intros openable. by intros n s b Hn Hb Hs.
  - apply (spends_bind _ _ 0 0 _ _ _ (fun _ => files_of 1)); [done|apply spends_allocate|].
    intros _. by intros n s b Hn Hb Hs.
Qed.

Lemma spends_deserialize_path si parent name :
  spends (ref parent) (deserialize_path true os fs si parent name) given nothing.
Proof.
  apply (spends_bind _ _ 0 0 _ _ _ (fun r => files_of (file_count r.1))); [done| |].
  - eapply (spends_finally _ _ 0 0 _ _ _
      (fun r => both (ref parent) (files_of (file_count r.1))) _ (ref parent)); [done|..].
    + apply spends_quiet_bind; [done|eauto with eff|]. intros p.
      apply spends_with_file; [done|]. intros fd.
      eapply spends_weaken; [apply (spends_frame _ _ (ref parent)); [done|];
        apply spends_find_below|done|balance|reflexivity|balance].
    + intros [foh st]. cbn [fst]. eapply spends_weaken;
        [apply (spends_frame _ _ (files_of (file_count foh))); [apply file_count_nonneg|];
         apply (spends_drop_ref _ _ parent nothing)|done|balance|intros ?; balance|balance].
    + apply spends_drop_ref.
  - intros [foh st]. by intros n s b Hn Hb Hs.
Qed.

Lemma quiet_clone_mount mfd : quiet (clone_mount_fd (W := W) mfd).
Proof. apply quiet_modify. done. Qed.

Lemma quiet_drop_mount mfd : quiet (drop_mount_fd (W := W) mfd).
Proof. unfold drop_mount_fd. respect. Qed.
#[local] Hint Resolve quiet_clone_mount quiet_drop_mount : eff.

Lemma spends_deserialize_file_handle si mfds h :
  spends nothing (deserialize_file_handle os fs si mfds h) given nothing.
Proof.
  apply spends_quiet_bind; [done|respect|]. intros mfd.
  apply spends_quiet_bind; [done|eauto with eff|]. intros _.
  apply spends_quiet_bind; [done|respect|]. intros [[fd st] ofh].
  destruct (inode_file_handles _).
  - eapply (spends_finally _ _ 0 0 _ _ _ given _ nothing); [done| | |].
    + apply (spends_bind _ _ 0 0 _ _ _ (fun _ => files_of 1)); [done|apply spends_allocate|].
      intros _. by intros n s b Hn Hb Hs.
    + intros d. eapply spends_infallible; [|apply spends_quiet; eauto with eff].
      apply (infallible_drop_foh true fs (Handle {| inner := inner ofh; mount_fd := mfd |})).
    + apply spends_quiet. eauto with eff.
  - apply (spends_bind _ _ 0 0 _ _ _ (fun _ => nothing)); [done|apply spends_close|].
    intros _. by intros n s b Hn Hb Hs.
  - apply (spends_bind _ _ 0 0 _ _ _ (fun _ => nothing)); [done|apply spends_close|].
    intros _. by intros n s b Hn Hb Hs.
Qed.

(** *** What comes out *)

(** The data stands for the serialized inode. *)
Definition stands_for (si : SerInode) (d : InodeData) : Prop :=
  inode d = si_id si /\ refcount d = si_refcount si /\ migration_info d = None.

Lemma stands_for_references si d : stands_for si d -> data_references d = [].
Proof. intros (_ & _ & Hm). unfold data_references. by rewrite Hm. Qed.

Lemma invalid_stands_for si err d :
  deserialize_invalid_inode fs si err = Ok d -> stands_for si d /\ given d = nothing.
Proof. unfold deserialize_invalid_inode. destruct (migration_on_error _); [done|]. by intros [= <-]. Qed.

Lemma or_invalid_stands_for si (m : IO InodeData) :
  (forall s s' d, m s = (s', Ok d) -> stands_for si d) ->
  forall s s' d, or_invalid fs si m s = (s', Ok d) -> stands_for si d.
Proof.
  intros Hm s s' d Hr.
  apply eff_bind_inv in Hr as [(s1 & r & Ha & Hr)|[(? & _ & ?)|[_ ?]]]; [|done..].
  unfold attempt in Ha. destruct (m s) as [s2 [d'|err|]] eqn:Hd; simplify_eq/=.
  - unfold lift in Hr. simplify_eq. by eapply Hm.
  - unfold lift in Hr. simplify_eq. by eapply invalid_stands_for.
Qed.

Lemma spends_or_invalid si g (m : IO InodeData) :
  spends g m given nothing -> spends g (or_invalid fs si m) given nothing.
Proof.
  intros Hm. eapply (spends_bind _ _ 0 0); [done|by apply spends_attempt|].
  intros [d|err|]; cbv beta iota; [|..|apply spends_panic].
  - by intros n s b Hn Hb Hs.
  - intros n s b Hn Hb Hs. unfold lift, balanced.
    destruct (deserialize_invalid_inode fs si err) as [d|?|] eqn:Hd; [|done..].
    apply invalid_stands_for in Hd as [_ ->]. done.
Qed.

Lemma path_stands_for checks si p name s s' d :
  deserialize_path checks os fs si p name s = (s', Ok d) -> stands_for si d.
Proof.
  intros Hr. apply eff_bind_inv in Hr as [(s1 & [foh st] & _ & Hr)|[(? & _ & ?)|[_ ?]]]; [|done..].
  by injection Hr as <- <-.
Qed.

Lemma file_handle_stands_for si mfds h s s' d :
  deserialize_file_handle os fs si mfds h s = (s', Ok d) -> stands_for si d.
Proof.
  intros Hr. do 2 (apply eff_bind_inv in Hr as [(? & ? & _ & Hr)|[(? & _ & ?)|[_ ?]]]; [|done..]).
  apply eff_bind_inv in Hr as [(? & [[fd st] ofh] & _ & Hr)|[(? & _ & ?)|[_ ?]]]; [|done..].
  destruct (inode_file_handles _); [apply finally_inv in Hr as [? Hr]|..];
    (apply eff_bind_inv in Hr as [(? & ? & _ & Hr)|[(? & _ & ?)|[_ ?]]]; [|done..]);
    by injection Hr as <- <-.
Qed.

(** *** Inserting *)

Definition counted_si (si : SerInode) : loot :=
  refs_of (replicate (Z.to_nat (si_refcount si)) (si_id si)).

Lemma spends_insert_data d :
  0 < refcount d -> data_references d = [] ->
  spends (files_of (file_count (file_or_handle d))) (insert_data true fs d) (fun _ => counted d) nothing.
Proof.
  intros Hrc Hrefs k s b Hk Hnn Hb. unfold insert_data, gets, mbind, eff_bind. simpl.
  pose proof (new_inode_books fs k s b d Hk Hnn Hrc Hrefs Hb) as Hr.
  destruct (new_inode (inodes s) d) as [st' r]. simpl in *.
  destruct (change_store true fs st' s) as [s1 [[]|?|]]; [|done..].
  unfold on_failure, lift. destruct r as [[]|e|]; [done| |].
  - assert (Hd := spends_drop_foh true fs (file_or_handle d) nothing k s1 b Hk Hnn Hr).
    unfold balanced in Hd. by destruct (drop_file_or_handle _ _ _ s1) as [s2 [[]|?|]].
  - by destruct (drop_file_or_handle _ _ _ s1) as [s2 [[]|?|]].
Qed.

Lemma spends_insert_si si d :
  0 < si_refcount si -> stands_for si d ->
  spends (given d) (insert_data true fs d) (fun _ => counted_si si) nothing.
Proof.
  intros Hrc Hd. pose proof (stands_for_references _ _ Hd) as Hrefs. destruct Hd as (Hi & Hr & Hm).
  eapply spends_weaken; [apply (spends_insert_data d); [lia|done]|done| | |reflexivity].
  - unfold given. rewrite Hrefs. reflexivity.
  - intros ?. cbv beta. unfold counted, counted_si. by rewrite Hi, Hr.
Qed.
End Resources.

(** ** What stays as it is *)

Lemma respects_bind_assoc {S A B C} (R : S -> S -> Prop) (m : eff S A) (k : A -> eff S B)
  (h : B -> eff S C) :
  respects R (b ← (a ← m; k a); h b) -> respects R (a ← m; b ← k a; h b).
Proof.
  intros Hr s. specialize (Hr s). revert Hr. unfold mbind, eff_bind. by destruct (m s) as [s1 [a|e|]].
Qed.

Section Frame.
Context {W M : Type} `{Host W} `{RangeMap M MapEntry} `{HashOrder}.
Context (fs : Setup M).

Local Notation state := (PassthroughFs W).
Local Notation IO := (eff state).

(** The inode [j] does not appear, and the rest of the state that is migrated stays. *)
Definition frame (j : Z) (s s' : state) : Prop :=
  (data (inodes s) !! j = None -> data (inodes s') !! j = None) /\
  opts s' = opts s /\ handles s' = handles s /\ next_handle s' = next_handle s.

#[export] Instance frame_preorder j : PreOrder (frame j).
Proof.
  split; [done|]. intros s1 s2 s3 (? & ? & ? & ?) (? & ? & ? & ?). split_and!; congruence || auto.
Qed.

Notation framed j m := (respects (frame j) m).

Lemma framed_hosted {A} j (m : eff (world W) A) : framed j (hosted m).
Proof. apply (respects_zoom _ (fun _ _ => True)); [by intros ?|done]. Qed.

Lemma framed_mounts {A} j (m : eff (MountFds * world W) A) : framed j (mounts m).
Proof.
  intros s. unfold mounts. destruct (mount_fds s); [|done]. by destruct (m _) as [[mf w] r].
Qed.

Lemma framed_modify j f : (forall s, frame j s (f s)) -> framed j (modify f).
Proof. apply respects_modify. Qed.

Lemma framed_sysc {A} j (c : Call A) : framed j (sysc c).
Proof. apply framed_hosted. Qed.
#[local] Hint Resolve framed_hosted framed_mounts framed_sysc : eff.
#[local] Hint Extern 2 (respects (frame _) (modify _)) => (apply framed_modify; intros; done) : eff.

Lemma framed_drop_foh checks j foh : framed j (drop_file_or_handle checks fs foh).
Proof.
  destruct foh; unfold drop_file_or_handle, guest_file_drop, guest_release, drop_mount_fd; respect.
Qed.
#[local] Hint Resolve framed_drop_foh : eff.

Lemma framed_change_store checks j st' (s : state) :
  (data (inodes s) !! j = None -> data st' !! j = None) ->
  frame j s (change_store checks fs st' s).1.
Proof.
  intros Hk. unfold change_store, gets, modify, mbind, eff_bind. simpl.
  assert (Hr : framed j (each (release_data checks fs) (removed (inodes s) st'))).
  { unfold release_data. respect. }
  etrans; [|apply Hr]. done.
Qed.

Lemma forget_one_absent st i c j : data st !! j = None -> data (forget_one st i c) !! j = None.
Proof.
  apply (forget_one_ind (fun st => data st !! j = None)); clear.
  - intros st i d Hj _. simpl. rewrite lookup_delete. by case_decide.
  - intros st i d rc Hj Hd. simpl. rewrite lookup_insert_ne; [done|]. congruence.
Qed.

Lemma framed_drop_ref checks j i : framed j (drop_ref checks fs i).
Proof. intros s. apply framed_change_store, forget_one_absent. Qed.

#[local] Hint Resolve framed_drop_ref : eff.

Lemma framed_pin {A} checks j i (m : IO A) : framed j m -> framed j (pin checks fs i m).
Proof. intros Hm. unfold pin, unpin. respect. Qed.

Lemma framed_allocate j fd : framed j (guest_allocate fd).
Proof. unfold guest_allocate. respect. Qed.

Lemma framed_openable_open j os h fl : framed j (openable_open os h fl).
Proof. unfold openable_open, open_by_handle_at. respect. Qed.
#[local] Hint Resolve framed_openable_open : eff.

Lemma framed_get_file j os d : framed j (get_file os d).
Proof. unfold get_file. respect. Qed.

Lemma framed_file_drop j f : framed j (inode_file_drop f).
Proof. unfold inode_file_drop. respect. Qed.

Lemma framed_handle_opt j os fd st : framed j (get_file_handle_opt os fs fd st).
Proof. unfold get_file_handle_opt, name_to_handle_at. respect. Qed.

Lemma framed_serializable j os foh : framed j (serializable_handle os foh).
Proof. unfold serializable_handle, name_to_handle_at. respect. Qed.
#[local] Hint Resolve framed_allocate framed_get_file framed_file_drop framed_handle_opt
  framed_serializable : eff.

Lemma framed_check_handle j os si foh : framed j (check_file_handle os si foh).
Proof. unfold check_file_handle. respect. Qed.

Lemma framed_err_context {A} j (m : IO A) : framed j m -> framed j (with_err_context m).
Proof. intros Hm. unfold with_err_context. respect. Qed.
#[local] Hint Resolve framed_check_handle framed_err_context : eff.

Lemma framed_insert_data checks j d : inode d <> j -> framed j (insert_data checks fs d).
Proof.
  intros Hj s. unfold insert_data, gets, mbind at 1, eff_bind at 1.
  assert (Hn : data (inodes s) !! j = None -> data (new_inode (inodes s) d).1 !! j = None).
  { intros Ha. unfold new_inode, insert_new. case_decide; simpl.
    - unfold drop_inode_data. apply (fold_left_inv (fun st => data st !! j = None)); [done|].
      intros. by apply forget_one_absent.
    - destruct (data (inodes s) !! inode d); simpl; [done|]. by rewrite lookup_insert_ne. }
  destruct (new_inode (inodes s) d) as [st' r]. simpl in Hn.
  apply respects_bind_at; [exact _|by apply framed_change_store|]. respect.
Qed.

Lemma framed_insert_root checks os j st foh : j <> ROOT_ID -> framed j (insert_root checks os fs st foh).
Proof.
  intros Hj. unfold insert_root. apply respects_bind; [exact _| |].
  { unfold migration_info_new_root, migration_info_internal. respect. }
  intros mi. apply (framed_insert_data checks j {| inode := ROOT_ID; file_or_handle := foh;
    refcount := 2; ids := ids_of st; mode := as_u32 (st_mode (Host.st st));
    migration_info := match mi with Ok mi => Some mi | _ => None end |}). done.
Qed.

Lemma framed_open_root checks os j : j <> ROOT_ID -> framed j (open_root_node checks os fs).
Proof.
  intros Hj. unfold open_root_node, make_file_handle_openable. respect; by apply framed_insert_root.
Qed.

Lemma framed_root_node checks os j si : j <> ROOT_ID -> framed j (deserialize_root_node checks os fs si).
Proof.
  intros Hj. unfold deserialize_root_node, referenced, store_refcount.
  respect; try by apply framed_open_root. apply framed_modify. intros s. split_and!; try done. simpl.
  intros Hn. rewrite lookup_alter. by case_decide; [|rewrite Hn].
Qed.

Lemma framed_deserialize_path checks os j si p name :
  framed j (deserialize_path checks os fs si p name).
Proof.
  unfold deserialize_path, referenced, with_file, find_below, make_file_handle_openable. respect.
Qed.

Lemma framed_deserialize_handle_file os j si mfds h :
  framed j (deserialize_file_handle os fs si mfds h).
Proof.
  unfold deserialize_file_handle, clone_mount_fd, drop_mount_fd.
  respect.
Qed.

Lemma framed_or_invalid j si m : framed j m -> framed j (or_invalid fs si m).
Proof. intros Hm. unfold or_invalid. respect. Qed.
#[local] Hint Resolve framed_deserialize_path framed_deserialize_handle_file framed_or_invalid : eff.

Lemma framed_insert_invalid checks j si err :
  si_id si <> j -> framed j (d ← lift (deserialize_invalid_inode fs si err); insert_data checks fs d).
Proof.
  intros Hj. apply (respects_bind_post _ (stands_for si)); [respect| |].
  - intros s s' d Hd. unfold lift in Hd. simplify_eq. by eapply invalid_stands_for.
  - intros d (Hi & _). apply framed_insert_data. congruence.
Qed.

Lemma framed_deserialize_inode checks os j si mfds :
  si_id si <> j -> (forall f, si_location si <> SerFullPath f) ->
  framed j (deserialize_inode checks os fs si mfds).
Proof.
  intros Hj Hf. unfold deserialize_inode. destruct (si_location si) as [|p name| |name|h] eqn:Hl.
  - destruct (Z.eqb_spec (si_id si) ROOT_ID); simpl; [|respect].
    apply respects_bind; [exact _|apply framed_root_node; congruence|respect].
  - destruct (si_id si =? ROOT_ID); [respect|]. apply respects_bind; [exact _|respect|].
    intros [|]; simpl; [|respect].
    apply (respects_bind_post _ (stands_for si)); [respect| |].
    { apply or_invalid_stands_for. intros. by eapply path_stands_for. }
    intros d (Hi & _). apply respects_bind; [exact _|respect|].
    intros r. apply respects_bind; [exact _| |respect]. destruct r; [|..|respect].
    + apply framed_insert_data. congruence.
    + apply respects_finally; [exact _| |respect]. by apply framed_insert_invalid.
  - apply respects_bind_assoc. apply respects_bind; [exact _| |respect]. by apply framed_insert_invalid.
  - by destruct (Hf name).
  - destruct (si_id si =? ROOT_ID); [respect|].
    apply (respects_bind_post _ (stands_for si)); [respect| |].
    { apply or_invalid_stands_for. intros. by eapply file_handle_stands_for. }
    intros d (Hi & _). apply respects_bind; [exact _| |respect].
    apply framed_insert_data. congruence.
Qed.
End Frame.

(** ** Parts of the state *)

Section Stays.
Context {W M : Type} `{Host W} `{RangeMap M MapEntry}.
Context (fs : Setup M).

Local Notation state := (PassthroughFs W).
Local Notation IO := (eff state).

(** What [f] reads stays. *)
Definition stays {X} (f : state -> X) (s s' : state) : Prop := f s' = f s.

#[export] Instance stays_preorder {X} (f : state -> X) : PreOrder (stays f).
Proof. split; [done|]. intros s1 s2 s3. unfold stays. congruence. Qed.

(** [f] does not look at the host, the mounts, the count of descriptors and the data held
    by requests in progress. *)
Class Inner {X} (f : state -> X) := {
  inner_world w s : f (set_fs_world w s) = f s;
  inner_mounts m s : f (set_mount_fds m s) = f s;
  inner_available n s : f (set_available n s) = f s;
  inner_pinned l s : f (set_pinned l s) = f s;
  inner_unlinked l s : f (set_unlinked l s) = f s;
}.

Context {X} (f : state -> X) `{!Inner f}.

Lemma stays_hosted {A} (m : eff (world W) A) : respects (stays f) (hosted m).
Proof. apply (respects_zoom _ (fun _ _ => True)); [by intros ?|]. intros s w _. apply inner_world. Qed.

Lemma stays_mounts {A} (m : eff (MountFds * world W) A) : respects (stays f) (mounts m).
Proof.
  intros s. unfold mounts, stays. destruct (mount_fds s); [|done]. destruct (m _) as [[mf w] r]. simpl.
  by rewrite inner_mounts, inner_world.
Qed.

Lemma stays_sysc {A} (c : Call A) : respects (stays f) (sysc c).
Proof. apply stays_hosted. Qed.

Lemma stays_modify g : (forall s, f (g s) = f s) -> respects (stays f) (modify g).
Proof. apply (respects_modify (stays f)). Qed.
#[local] Hint Resolve stays_hosted stays_mounts stays_sysc inner_world inner_mounts inner_available
  inner_pinned inner_unlinked : eff.
#[local] Hint Extern 2 (respects (stays f) (modify _)) => (apply stays_modify; intros; eauto with eff) : eff.

Lemma stays_drop_foh checks foh : respects (stays f) (drop_file_or_handle checks fs foh).
Proof.
  destruct foh; unfold drop_file_or_handle, guest_file_drop, guest_release, drop_mount_fd; respect.
Qed.
#[local] Hint Resolve stays_drop_foh : eff.

Lemma stays_change_store checks st' s :
  f (set_inodes st' s) = f s -> stays f s (change_store checks fs st' s).1.
Proof.
  intros Hk. unfold change_store, gets, modify, mbind, eff_bind. simpl.
  assert (Hr : respects (stays f) (each (release_data checks fs) (removed (inodes s) st'))).
  { unfold release_data. respect. }
  etrans; [exact Hk|apply Hr].
Qed.

Lemma stays_pin {A} checks i (m : IO A) : respects (stays f) m -> respects (stays f) (pin checks fs i m).
Proof. intros Hm. unfold pin, unpin. respect. Qed.

Lemma stays_drop_handle checks hd : respects (stays f) (drop_handle checks fs hd).
Proof. unfold drop_handle, guest_file_drop, guest_release. respect. Qed.

Lemma stays_allocate fd : respects (stays f) (guest_allocate fd).
Proof. unfold guest_allocate. respect. Qed.

Lemma stays_openable_open os h fl : respects (stays f) (openable_open os h fl).
Proof. unfold openable_open, open_by_handle_at. respect. Qed.
#[local] Hint Resolve stays_openable_open : eff.

Lemma stays_open_file os d fl : respects (stays f) (open_file os fs d fl).
Proof. unfold open_file. respect. Qed.

Lemma stays_get_file os d : respects (stays f) (get_file os d).
Proof. unfold get_file. respect. Qed.

Lemma stays_file_drop d : respects (stays f) (inode_file_drop d).
Proof. unfold inode_file_drop. respect. Qed.
#[local] Hint Resolve stays_get_file stays_file_drop : eff.

Lemma stays_get_path os d : respects (stays f) (get_path os fs d).
Proof. unfold get_path. respect. Qed.
End Stays.

#[export] Hint Resolve stays_hosted stays_mounts stays_sysc stays_drop_foh stays_drop_handle
  stays_allocate stays_openable_open stays_open_file stays_get_file stays_file_drop
  stays_get_path inner_world inner_mounts
  inner_available inner_pinned inner_unlinked : eff.
#[export] Hint Extern 2 (respects (stays _) (modify _)) =>
  (apply stays_modify; intros; first [done|eauto with eff]) : eff.
#[export] Hint Extern 1 (Inner _) => (exact _) : eff.
#[export] Hint Extern 5 (Inner _) => (by constructor) : typeclass_instances.

(** ** One inode *)

Section Root.
Context {W M : Type} `{Host W} `{RangeMap M MapEntry}.
Context (fs : Setup M).

Local Notation state := (PassthroughFs W).
Local Notation IO := (eff state).

Lemma change_store_inodes checks st' (s s' : state) r :
  change_store checks fs st' s = (s', r) -> inodes s' = st'.
Proof.
  unfold change_store, gets, modify, mbind, eff_bind. simpl. intros Hc.
  assert (Hr : respects (stays inodes) (each (release_data checks fs) (removed (inodes s) st'))).
  { unfold release_data. respect. }
  specialize (Hr (set_inodes st' s)). by rewrite Hc in Hr.
Qed.

(** A new root has two references. *)
Lemma insert_root_refcount checks os st foh (s s' : state) :
  insert_root checks os fs st foh s = (s', Ok tt) ->
  exists d, data (inodes s') !! ROOT_ID = Some d /\ refcount d = 2.
Proof.
  unfold insert_root. intros Hr.
  apply eff_bind_inv in Hr as [(s1 & mi & _ & Hr)|[(? & _ & ?)|[_ ?]]]; [|done..].
  apply eff_bind_inv in Hr as [(s2 & store & _ & Hr)|[(? & _ & ?)|[_ ?]]]; [|done..].
  match type of Hr with (let '(_, _) := new_inode _ ?d in _) _ = _ => set (root := d) in Hr end.
  destruct (new_inode store root) as [st' r] eqn:Hn.
  apply eff_bind_inv in Hr as [(s3 & [] & Hc & Hr)|[(? & _ & ?)|[_ ?]]]; [|done..].
  apply on_failure_inv in Hr. unfold lift in Hr. simplify_eq.
  apply change_store_inodes in Hc as ->. unfold new_inode, insert_new in Hn.
  case_decide; [done|]. destruct (data store !! inode root); simplify_eq/=.
  exists root. by rewrite lookup_insert_eq.
Qed.

Lemma open_root_refcount checks os (s s' : state) :
  open_root_node checks os fs s = (s', Ok tt) ->
  exists d, data (inodes s') !! ROOT_ID = Some d /\ refcount d = 2.
Proof.
  unfold open_root_node. intros Hr.
  apply eff_bind_inv in Hr as [(s1 & fd & _ & Hr)|[(? & _ & ?)|[_ ?]]]; [|done..].
  apply eff_bind_inv in Hr as [(s2 & [st [h|]] & _ & Hr)|[(? & _ & ?)|[_ ?]]]; [| |done..].
  - unfold finally in Hr. match type of Hr with (let '(_, _) := ?m s2 in _) = _ =>
      destruct (m s2) as [s3 r] eqn:Hm end.
    pose proof (stays_hosted inodes (close fd) s3) as Hc.
    destruct (hosted (close fd) s3) as [s4 rc]. cbn in Hc.
    assert (r = Ok tt /\ s4 = s') as [-> ->] by (destruct rc; by simplify_eq).
    apply eff_bind_inv in Hm as [(s5 & o & _ & Hm)|[(? & _ & ?)|[_ ?]]]; [|done..].
    unfold stays in Hc. rewrite Hc. by eapply insert_root_refcount.
  - apply eff_bind_inv in Hr as [(s3 & [] & _ & Hr)|[(? & _ & ?)|[_ ?]]]; [|done..].
    by eapply insert_root_refcount.
Qed.
End Root.

Section Inode.
Context {W M : Type} `{Host W} `{RangeMap M MapEntry} `{HashOrder}.
Context (os : HostOs) (fs : Setup M).

Local Notation state := (PassthroughFs W).
Local Notation IO := (eff state).
Local Notation quiet := (respects untouched).
Local Notation spends := (spends true fs 0).
Local Notation books := (books true fs 0).
Local Notation earns := (earns fs).

Lemma quiet_check_handle si foh : quiet (check_file_handle (W := W) os si foh).
Proof. unfold check_file_handle. respect. Qed.
#[local] Hint Resolve quiet_check_handle : eff.

Lemma store_refcount_books (s : state) b d rc :
  nonneg b -> 0 < rc -> data (inodes s) !! ROOT_ID = Some d -> refcount d = 2 ->
  books s (gain b root_refs) ->
  books (store_refcount ROOT_ID rc s).1
    (gain b (refs_of (replicate (Z.to_nat rc) ROOT_ID))).
Proof.
  intros [Hb _] Hrc Hd Hr (Hw & Hinv & _ & Hs). pose proof (Hinv ROOT_ID) as [_ Hroot].
  rewrite Hd in Hroot. simpl in Hroot. rewrite !occ_cons, occ_nil, !decide_True in Hroot by done.
  assert (0 <= parents (data (inodes s)) ROOT_ID) by apply occ_nonneg. specialize (Hb ROOT_ID).
  assert (Hset : alter (set_refcount rc) ROOT_ID (data (inodes s)) =
                 <[ROOT_ID := set_refcount rc d]> (data (inodes s))).
  { apply map_eq. intros j. rewrite lookup_alter, lookup_insert. case_decide; [by subst; rewrite Hd|done]. }
  unfold store_refcount, modify. simpl. unfold set_data. rewrite Hset.
  split_and!; simpl; [| |by left|].
  - eapply store_wf_update; eauto using set_refcount_same_keys.
  - eapply rc_inv_ext; [|apply (rc_inv_set_refcount _ _ _ _ rc Hinv Hd Hrc)]; simpl.
    + intros j. rewrite occ_replicate, Hr, !occ_cons, occ_nil. repeat case_decide; subst; try done; lia.
    + rewrite !occ_cons, occ_nil, !decide_True by done. lia.
  - revert Hs. unfold slots, guest_files. simpl.
    rewrite (stored_files_delete _ _ _ Hd), (stored_files_delete _ _ _ (lookup_insert_eq _ _ _)).
    rewrite delete_insert_eq. done.
Qed.

Lemma earns_root_node si :
  0 < si_refcount si ->
  earns nothing (deserialize_root_node true os fs si) (fun _ => counted_si si).
Proof.
  intros Hrc s b s' [] Hb Hs Hr. unfold deserialize_root_node in Hr.
  apply eff_bind_inv in Hr as [(s1 & [] & Ha & Hr)|[(? & _ & ?)|[_ ?]]]; [|done..].
  unfold lift, assert_ in Ha. destruct (Z.eqb_spec (si_id si) ROOT_ID) as [Hid|]; simplify_eq/=.
  destruct (si_location si); try done.
  apply eff_bind_inv in Hr as [(s2 & [] & Ho & Hr)|[(? & _ & ?)|[_ ?]]]; [|done..].
  pose proof (open_root_refcount _ _ _ _ _ Ho) as (d & Hd & Hd2).
  assert (Hs2 : books s2 (gain b root_refs)).
  { by eapply (earns_spends _ _ _ _ _ (spends_open_root _ _)). }
  apply eff_bind_inv in Hr as [(s3 & d' & Hr' & Hr)|[(? & _ & ?)|[_ ?]]]; [|done..].
  assert (s3 = s2) as -> by (unfold referenced, gets, lift, mbind, eff_bind in Hr'; congruence).
  apply eff_bind_inv in Hr as [(s4 & [] & Hst & Hr)|[(? & _ & ?)|[_ ?]]]; [|done..].
  pose proof (store_refcount_books _ _ _ _ Hb Hrc Hd Hd2 Hs2) as Hs4. rewrite Hst in Hs4.
  unfold counted_si. rewrite Hid.
  eapply (earns_quiet fs _ (check_file_handle os si _)); [eauto with eff|exact Hb|exact Hs4|exact Hr].
Qed.

Lemma earns_insert_si si d :
  0 < si_refcount si -> stands_for si d ->
  earns (given d) (insert_data true fs d) (fun _ => counted_si si).
Proof. intros ? ?. eapply earns_spends. by apply spends_insert_si. Qed.

Lemma earns_insert_invalid si err :
  0 < si_refcount si ->
  earns nothing (d ← lift (deserialize_invalid_inode fs si err); insert_data true fs d)
    (fun _ => counted_si si).
Proof.
  intros Hrc. apply (earns_bind _ (fun d => stands_for si d /\ given d = nothing) _ _ _ (fun _ => nothing)).
  - apply earns_quiet. respect.
  - intros s s' d Hd. unfold lift in Hd. simplify_eq. by eapply invalid_stands_for.
  - intros d [Hd <-]. by apply earns_insert_si.
Qed.

(** What an inode is worth before and after its turn. *)
Definition si_worth (si : SerInode) (processed : bool) : loot :=
  if processed then counted_si si else refs_of (si_parents si).

Lemma earns_true {A} g (m : IO A) si :
  earns g m (fun _ => counted_si si) -> earns g (m;; mret true) (si_worth si).
Proof.
  intros Hm. eapply earns_then; [exact Hm|]. intros _ s b s' r Hb Hs Hr.
  by injection Hr as <- <-.
Qed.

Lemma earns_deserialize_inode si mfds :
  0 < si_refcount si -> (forall f, si_location si <> SerFullPath f) ->
  earns (refs_of (si_parents si)) (deserialize_inode true os fs si mfds) (si_worth si).
Proof.
  intros Hrc Hf. unfold deserialize_inode, si_worth at 1, si_parents at 1.
  destruct (si_location si) as [|p name| |name|h] eqn:Hl.
  - destruct (negb _); [done|]. by apply earns_true, earns_root_node.
  - destruct (_ =? _); [done|]. eapply earns_then; [apply earns_quiet; respect|].
    intros [|]; cbn [negb].
    2:{ intros s b s' r Hb Hs Hr. injection Hr as <- <-. unfold si_worth, si_parents. by rewrite Hl. }
    apply (earns_bind _ (stands_for si) _ _ _ given).
    + eapply earns_spends. apply spends_or_invalid, spends_deserialize_path.
    + apply or_invalid_stands_for. intros. by eapply path_stands_for.
    + intros d Hd. eapply earns_then; [apply earns_quiet; respect|].
      intros r. apply earns_true. destruct r as [[]|err|]; [by apply earns_insert_si| |done].
      eapply (earns_finally _ _ _ _ (fun _ => both (given d) (counted_si si)));
        [|apply infallible_drop_foh|].
      * eapply earns_same; [| |apply (earns_frame _ (given d)), earns_insert_invalid; [|done]];
          [balance|done|apply file_count_nonneg].
      * intros _. eapply earns_same; [| |apply (earns_frame _ (counted_si si)); [|];
          [done|eapply earns_spends, (spends_drop_foh true fs _ nothing)]]; [|intros ?; cbv beta; balance].
        unfold given. rewrite (stands_for_references _ _ Hd). balance.
  - eapply (earns_same _ _ _ _ _ (si_worth si)); [reflexivity|done|].
    apply (earns_bind _ (fun d => stands_for si d /\ given d = nothing) _ _ _ (fun _ => nothing)).
    + apply earns_quiet. respect.
    + intros s s' d Hd. unfold lift in Hd. simplify_eq. by eapply invalid_stands_for.
    + intros d [Hd <-]. by apply earns_true, earns_insert_si.
  - by destruct (Hf name).
  - destruct (_ =? _); [done|].
    apply (earns_bind _ (stands_for si) _ _ _ given).
    + eapply earns_spends. apply spends_or_invalid, spends_deserialize_file_handle.
    + apply or_invalid_stands_for. intros. by eapply file_handle_stands_for.
    + intros d Hd. by apply earns_true, earns_insert_si.
Qed.
End Inode.

(** ** The loop *)

Lemma swap_remove_perm {A} i (l : list A) x : l !! i = Some x -> l ≡ₚ x :: swap_remove i l.
Proof.
  intros Hi. unfold swap_remove. destruct (last l) as [y|] eqn:Hl; [|by apply last_None in Hl; subst].
  apply last_Some in Hl as [k ->]. rewrite length_app. simpl.
  replace (pred (length k + 1)) with (length k) by lia.
  destruct (decide (i < length k)%nat) as [Hlt|Hge].
  - rewrite lookup_app_l in Hi by done. rewrite insert_app_l, take_app_length' by (rewrite ?length_insert; done).
    rewrite (insert_take_drop _ _ _ Hlt). rewrite <- (take_drop_middle _ _ _ Hi) at 1.
    rewrite <- app_assoc. simpl. rewrite <- Permutation_middle. constructor.
    by rewrite (Permutation_app_comm _ [y]).
  - rewrite lookup_app_r in Hi by lia. apply list_lookup_singleton_Some in Hi as [? <-].
    rewrite insert_app_r_alt, take_app_length by lia. by rewrite Permutation_app_comm.
Qed.

Lemma occ_not_elem l i : i ∉ l -> occ l i = 0.
Proof.
  induction l as [|a l IH]; [done|]. intros Hi. rewrite occ_cons, decide_False, IH; set_solver.
Qed.

Section Loading.
Context {W M : Type} `{Host W} `{RangeMap M MapEntry} `{HashOrder}.
Context (os : HostOs) (fs : Setup M) (g : Z -> Z) (stream : list SerInode).
Hypothesis stream_good : stream_ok g stream.

Local Notation state := (PassthroughFs W).
Local Notation IO := (eff state).
Local Notation books := (books true fs 0).

(** The references while the inodes [l] have not been opened yet. *)
Definition outstanding (l : list SerInode) : owned :=
  {| held := fun i => if decide (i ∈ ids_in l) then 0 else g i + occ (pending l) i; loose := 0 |}.

Record loading (l : list SerInode) (s : state) : Prop := {
  loading_ids : NoDup (ids_in l);
  loading_stream si : si ∈ l -> si ∈ stream;
  loading_books : books s (outstanding l);
  loading_absent i : i ∈ ids_in l -> data (inodes s) !! i = None;
  loading_pending i : i ∈ ids_in l -> occ (pending l) i = occ (pending stream) i;
}.

Lemma loading_perm l l' s : l ≡ₚ l' -> loading l s -> loading l' s.
Proof.
  intros Hp [Hids0 Hsub Hbooks Habs Hpend].
  assert (Hids : ids_in l ≡ₚ ids_in l') by by apply fmap_Permutation.
  assert (Hocc : forall i, occ (pending l) i = occ (pending l') i)
    by (intros i; by apply occ_perm, Permutation_flat_map).
  split.
  - by rewrite <- Hids.
  - intros si. rewrite <- Hp. apply Hsub.
  - eapply books_ext, Hbooks; [|done]. intros i. simpl. rewrite Hocc.
    by destruct (decide (i ∈ ids_in l)) as [Hi|Hi]; rewrite Hids in Hi;
      [rewrite decide_True|rewrite decide_False].
  - intros i. rewrite <- Hids. apply Habs.
  - intros i. rewrite <- Hids, <- Hocc. apply Hpend.
Qed.

Lemma loading_end s : loading [] s -> books s {| held := g; loose := 0 |}.
Proof.
  intros Hl. eapply books_ext, (loading_books _ _ Hl); [|done]. intros i. simpl.
  rewrite occ_nil. lia.
Qed.

(** An inode that has its turn is absent, and its parent is there. *)
Lemma deserialize_inode_parent si mfds (s s' : state) i :
  deserialize_inode true os fs si mfds s = (s', Ok true) -> i ∈ si_parents si ->
  is_Some (data (inodes s) !! i).
Proof.
  unfold deserialize_inode, si_parents. destruct (si_location si) as [|p name| | |];
    intros Hr Hi; try by apply elem_of_nil in Hi.
  apply list_elem_of_singleton in Hi as ->. destruct (_ =? _); [done|].
  unfold gets, mbind at 1, eff_bind at 1 in Hr. unfold store_get in Hr.
  by destruct (data (inodes s) !! p).
Qed.

Lemma loading_step si l mfds s s' :
  loading (si :: l) s -> deserialize_inode true os fs si mfds s = (s', Ok true) -> loading l s'.
Proof.
  intros [Hids0 Hsub Hbooks Habs Hpend] Hr.
  destruct (stream_counts _ _ stream_good si ltac:(apply Hsub; left)) as [Hpos Hcount].
  assert (Hrel : forall f, si_location si <> SerFullPath f)
    by (intros f; apply (stream_relative _ _ stream_good); apply Hsub; left).
  apply NoDup_cons in Hids0 as [Hnew Hids0]. fold (ids_in l) in Hnew, Hids0.
  assert (Hpar : forall i, i ∈ ids_in (si :: l) -> occ (si_parents si) i = 0).
  { intros i Hi. pose proof (occ_nonneg (si_parents si) i).
    destruct (decide (i ∈ si_parents si)) as [Hp|Hp]; [|by apply occ_not_elem].
    destruct (deserialize_inode_parent _ _ _ _ _ Hr Hp) as [d Hd]. by rewrite (Habs i Hi) in Hd. }
  split; [done|by intros; apply Hsub; right| | |].
  - assert (Hs' : books s' (gain {| held := fun i => if decide (i ∈ ids_in (si :: l)) then 0 else
        g i + occ (pending l) i; loose := 0 |} (si_worth si true))).
    { eapply (earns_deserialize_inode os fs si mfds); [done|done| | |exact Hr].
      - split; [|done]. intros i. simpl. pose proof (stream_nonneg _ _ stream_good i).
        pose proof (occ_nonneg (pending l) i). case_decide; lia.
      - eapply books_ext, Hbooks; [|done]. intros i. simpl. case_decide as Hi; [by rewrite (Hpar i Hi)|].
        rewrite occ_app. lia. }
    eapply books_ext, Hs'; [|done]. intros i. simpl. rewrite occ_replicate. unfold ids_in at 1. simpl.
    destruct (decide (si_id si = i)) as [<-|Hne].
    + rewrite decide_True by (by left). rewrite decide_False by done.
      rewrite Z2Nat.id by lia. rewrite Hcount, <- Hpend by (by left). simpl.
      rewrite occ_app, Hpar by (by left). lia.
    + destruct (decide (i ∈ ids_in l)) as [Hi|Hi];
        [by rewrite decide_True by (by right)|].
      rewrite decide_False; [lia|]. by intros [?|?]%elem_of_cons.
  - intros i Hi. assert (Hne : si_id si <> i) by (intros Heq; by rewrite Heq in Hnew).
    pose proof (framed_deserialize_inode fs true os i si mfds Hne Hrel s) as Hfr. rewrite Hr in Hfr.
    apply Hfr, Habs. by right.
  - intros i Hi. rewrite <- Hpend by (by right). simpl. rewrite occ_app, Hpar by (by right). lia.
Qed.

(** The rest of the state that is migrated. *)
Definition settled (s s' : state) : Prop :=
  opts s' = opts s /\ handles s' = handles s /\ next_handle s' = next_handle s.

#[local] Instance settled_preorder : PreOrder settled.
Proof. split; [done|]. intros s1 s2 s3 (?&?&?) (?&?&?). split_and!; congruence. Qed.

Lemma settled_inode si mfds s : si ∈ stream -> settled s (deserialize_inode true os fs si mfds s).1.
Proof.
  intros Hsi. apply (framed_deserialize_inode fs true os (si_id si + 1)); [lia|].
  intros f. by apply (stream_relative _ _ stream_good).
Qed.

(** A computation that does not say "not yet". *)
Definition decisive (m : IO bool) : Prop := forall s s', m s <> (s', Ok false).

Lemma decisive_bind {A} (m : IO A) c : (forall a, decisive (c a)) -> decisive (a ← m; c a).
Proof.
  intros Hc s s' Hm. apply eff_bind_inv in Hm as [(? & ? & _ & ?)|[(? & _ & ?)|[_ ?]]]; [|done..].
  by eapply Hc.
Qed.

Lemma decisive_true : decisive (mret true).
Proof. by intros s s' ?. Qed.

Local Ltac decisive H := exfalso; eapply decisive_bind, H;
  intros ?; repeat (apply decisive_bind; intros ?); apply decisive_true.

(** An inode that has to wait changes nothing, and its parent is not there yet. *)
Lemma deserialize_inode_waits si mfds (s s' : state) :
  deserialize_inode true os fs si mfds s = (s', Ok false) -> si ∈ stream ->
  s' = s /\ exists p, p ∈ si_parents si /\ data (inodes s) !! p = None.
Proof.
  intros Hr Hsi. unfold si_parents. pose proof (stream_relative _ _ stream_good si) as Hrel.
  revert Hr. unfold deserialize_inode. destruct (si_location si) as [|p name| |name|h]; intros Hr.
  - destruct (negb _); [done|]. by decisive Hr.
  - destruct (_ =? _); [done|]. unfold gets, mbind at 1, eff_bind at 1 in Hr. unfold store_get in Hr.
    destruct (data (inodes s) !! p) eqn:Hp; simpl in Hr.
    + by decisive Hr.
    + injection Hr as <-. split; [done|]. exists p. split; [by left|done].
  - by decisive Hr.
  - by destruct (Hrel name Hsi).
  - destruct (_ =? _); [done|]. by decisive Hr.
Qed.

Lemma inodes_round_loading mfds fuel : forall i any l s s' r,
  loading l s -> inodes_round true os fs fuel mfds i any l s = (s', Ok r) ->
  loading r.2 s' /\ settled s s'.
Proof.
  induction fuel as [|fuel IH]; intros i any l s s' r Hl Hr; simpl in Hr;
    (destruct (l !! i) as [si|] eqn:Hi; [|by simplify_eq/=; injection Hr as <- <-]); [done|].
  assert (Hsi : si ∈ stream) by (eapply loading_stream, list_elem_of_lookup_2; eauto).
  pose proof (settled_inode si mfds s Hsi) as Hst.
  apply eff_bind_inv in Hr as [(s1 & [] & Ha & Hr)|[(? & _ & ?)|[_ ?]]]; [| |done..];
    rewrite Ha in Hst; simpl in Hst; apply IH in Hr as [Hr Hr'];
    [by split; [|etrans]|..|by split; [|etrans]|].
  - eapply loading_step; [|exact Ha]. eapply loading_perm; [|exact Hl]. by apply swap_remove_perm.
  - apply deserialize_inode_waits in Ha as [-> _]; done.
Qed.

Lemma inodes_rounds_loading mfds fuel : forall l s s',
  loading l s -> inodes_rounds true os fs fuel mfds l s = (s', Ok tt) ->
  loading [] s' /\ settled s s'.
Proof.
  induction fuel as [|fuel IH]; intros [|si l] s s' Hl Hr; try done;
    try by injection Hr as <-.
  unfold inodes_rounds in Hr. fold (inodes_rounds (M := M)) in Hr.
  apply eff_bind_inv in Hr as [(s1 & [any l'] & Ha & Hr)|[(? & _ & ?)|[_ ?]]]; [|done..].
  apply inodes_round_loading in Ha as [Ha Hst]; [|done]. destruct any; [|done].
  apply IH in Hr as [? ?]; [|done]. split; [done|by etrans].
Qed.
End Loading.

(** ** The loop ends

    The loop as it is written, without a bound: [run] is the state it leaves and what it
    returns. *)

Section Termination.
Context {W M : Type} `{Host W} `{RangeMap M MapEntry} `{HashOrder}.
Context (checks : bool) (os : HostOs) (fs : Setup M) (mount_fds : gmap Z MountFd).

Local Notation state := (PassthroughFs W).
Local Notation deserialize_inode := (deserialize_inode checks os fs).

(** [while i < inodes.len()] *)
Inductive round_runs :
  nat -> bool -> list SerInode -> state -> state * io (bool * list SerInode) -> Prop :=
  | round_end i any l s : l !! i = None -> round_runs i any l s (s, Ok (any, l))
  | round_processed i any l s si s1 run :
      l !! i = Some si -> deserialize_inode si mount_fds s = (s1, Ok true) ->
      round_runs i true (swap_remove i l) s1 run -> round_runs i any l s run
  | round_waiting i any l s si s1 run :
      l !! i = Some si -> deserialize_inode si mount_fds s = (s1, Ok false) ->
      round_runs (S i) any l s1 run -> round_runs i any l s run
  | round_failed i any l s si s1 err :
      l !! i = Some si -> deserialize_inode si mount_fds s = (s1, Err err) ->
      round_runs i any l s (s1, Err err)
  | round_panicked i any l s si s1 :
      l !! i = Some si -> deserialize_inode si mount_fds s = (s1, Panic) ->
      round_runs i any l s (s1, Panic).

(** [while !inodes.is_empty()] *)
Inductive loop_runs : list SerInode -> state -> state * io unit -> Prop :=
  | loop_end s : loop_runs [] s (s, Ok tt)
  | loop_progress l s s1 l' run :
      l <> [] -> round_runs 0 false l s (s1, Ok (true, l')) -> loop_runs l' s1 run ->
      loop_runs l s run
  | loop_stuck l s s1 l' :
      l <> [] -> round_runs 0 false l s (s1, Ok (false, l')) ->
      loop_runs l s (s1, Err other_io_error)
  | loop_failed l s s1 err :
      l <> [] -> round_runs 0 false l s (s1, Err err) -> loop_runs l s (s1, Err err)
  | loop_panicked l s s1 :
      l <> [] -> round_runs 0 false l s (s1, Panic) -> loop_runs l s (s1, Panic).

Lemma swap_remove_length {A} i (l : list A) x :
  l !! i = Some x -> length l = S (length (swap_remove i l)).
Proof. intros Hi. by rewrite (swap_remove_perm _ _ _ Hi) at 1. Qed.

Lemma inodes_round_runs fuel : forall i any l s,
  (length l - i <= fuel)%nat ->
  round_runs i any l s (inodes_round checks os fs fuel mount_fds i any l s).
Proof.
  induction fuel as [|fuel IH]; intros i any l s Hf; simpl; destruct (l !! i) as [si|] eqn:Hi;
    try by apply round_end.
  - apply lookup_lt_Some in Hi. lia.
  - pose proof (lookup_lt_Some _ _ _ Hi). pose proof (swap_remove_length _ _ _ Hi).
    unfold mbind, eff_bind. destruct (deserialize_inode si mount_fds s) as [s1 [[]|err|]] eqn:Hd.
    + eapply round_processed; [done..|]. apply IH. lia.
    + eapply round_waiting; [done..|]. apply IH. lia.
    + by eapply round_failed.
    + by eapply round_panicked.
Qed.

Lemma round_runs_length i any l s run :
  round_runs i any l s run -> forall s' any' l', run = (s', Ok (any', l')) ->
  (length l' <= length l)%nat /\ (any' = true -> any = true \/ (length l' < length l)%nat).
Proof.
  induction 1 as [|i any l s si s1 run Hi _ _ IH| | |]; intros s' any' l' Hr; simplify_eq; eauto.
  pose proof (swap_remove_length _ _ _ Hi). destruct (IH _ _ _ eq_refl). split; [lia|]. intros _. right. lia.
Qed.

Lemma inodes_rounds_run fuel : forall l s,
  (length l <= fuel)%nat -> loop_runs l s (inodes_rounds checks os fs fuel mount_fds l s).
Proof.
  induction fuel as [|fuel IH]; intros [|si l] s Hf; simpl in Hf; try lia; try by apply loop_end.
  pose proof (inodes_round_runs (length (si :: l)) 0 false (si :: l) s ltac:(lia)) as Hr.
  change (inodes_rounds checks os fs (S fuel) mount_fds (si :: l)) with
    ('(any, l') ← inodes_round checks os fs (length (si :: l)) mount_fds 0 false (si :: l);
     if negb any then throw other_io_error else inodes_rounds checks os fs fuel mount_fds l').
  unfold mbind, eff_bind.
  destruct (inodes_round _ _ _ _ _ _ _ _ s) as [s1 [[[] l']|err|]] eqn:He.
  - eapply loop_progress; [done..|]. apply IH.
    destruct (round_runs_length _ _ _ _ _ Hr _ _ _ eq_refl) as [? [?|?]]; simpl in *; [done..|lia].
  - by eapply loop_stuck.
  - by eapply loop_failed.
  - by eapply loop_panicked.
Qed.

(** C15: the loop that opens the inodes of a migration stream ends, whatever the stream and
    whatever the host answers: the bounds of the model, the number of inodes for a round and
    for the rounds, never cut a run short.  The unbounded loop, with its [swap_remove] and
    its rounds, reaches what [deserialize_inodes] returns. *)
Theorem deserialize_inodes_terminates (l : list SerInode) (s : state) :
  loop_runs l s (deserialize_inodes checks os fs mount_fds l s).
Proof. by apply inodes_rounds_run. Qed.
End Termination.

(** ** The loop gets on

    Paths that lead to the root one after the other, in whatever order they are in the
    stream, are all opened. *)

Section Progress.
Context {W M : Type} `{Host W} `{RangeMap M MapEntry} `{HashOrder}.
Context (os : HostOs) (fs : Setup M) (mount_fds : gmap Z MountFd).

Local Notation state := (PassthroughFs W).
Local Notation books := (books true fs 0).

(** No path leads back to itself. *)
Definition ranked (l : list SerInode) : Prop :=
  exists rank : Z -> nat, forall si p, si ∈ l -> p ∈ si_parents si -> (rank p < rank (si_id si))%nat.

Context (g : Z -> Z) (stream : list SerInode).
Hypothesis stream_good : stream_ok g stream.

Lemma loading_start (s : state) :
  data (inodes s) = ∅ -> books s {| held := fun _ => 0; loose := 0 |} ->
  loading fs g stream stream s.
Proof.
  intros Hd Hs. split; [apply (stream_ids _ _ stream_good)|done| | |done].
  - eapply books_ext, Hs; [|done]. intros i. simpl. case_decide as Hi; [done|].
    by destruct (stream_absent _ _ stream_good i Hi) as [-> ->].
  - intros i _. by rewrite Hd.
Qed.

Lemma round_runs_any i any l (s : state) run :
  round_runs true os fs mount_fds i any l s run ->
  forall s' l', run = (s', Ok (false, l')) -> any = false.
Proof. induction 1; intros s' l' Hr; simplify_eq; eauto. by specialize (IHround_runs _ _ eq_refl). Qed.

(** When nothing could be opened, everything waits. *)
Lemma round_runs_stuck i any l (s : state) run :
  round_runs true os fs mount_fds i any l s run -> (forall si, si ∈ l -> si ∈ stream) ->
  forall s' l', run = (s', Ok (false, l')) ->
  forall j si, (i <= j)%nat -> l !! j = Some si ->
  exists p, p ∈ si_parents si /\ data (inodes s) !! p = None.
Proof.
  induction 1 as [i any l s Hi|i any l s si s1 run Hi Hd Hr IH|i any l s si s1 run Hi Hd Hr IH| |];
    intros Hsub s' l' Hrun j sj Hj Hsj; simplify_eq.
  - apply lookup_lt_Some in Hsj. apply lookup_ge_None in Hi. lia.
  - by specialize (round_runs_any _ _ _ _ _ Hr _ _ eq_refl).
  - apply (deserialize_inode_waits os fs g stream stream_good) in Hd as [-> Hp].
    + destruct (decide (i = j)) as [->|]; [by simplify_eq|]. apply (IH Hsub _ _ eq_refl j); [lia|done].
    + by eapply Hsub, list_elem_of_lookup_2.
Qed.

(** Somebody comes first. *)
Lemma first_of {A} (rank : A -> nat) (l : list A) :
  l <> [] -> exists x, x ∈ l /\ forall y, y ∈ l -> (rank x <= rank y)%nat.
Proof.
  induction l as [|x l IH]; [done|]. intros _. destruct l as [|y l].
  - exists x. split; [by left|]. by intros z ->%list_elem_of_singleton.
  - destruct IH as (m & Hm & Hmin); [done|]. destruct (decide (rank x <= rank m)%nat).
    + exists x. split; [by left|]. intros z [->|Hz]%elem_of_cons; [done|]. etrans; [done|auto].
    + exists m. split; [by right|]. intros z [->|Hz]%elem_of_cons; [lia|auto].
Qed.

Lemma not_stuck l s s' l' :
  ranked stream -> loading fs g stream l s -> l <> [] ->
  ~ round_runs true os fs mount_fds 0 false l s (s', Ok (false, l')).
Proof.
  intros [rank Hrank] [Hids Hsub Hbooks Habs Hpend] Hl Hr.
  destruct (first_of (fun si => rank (si_id si)) l Hl) as (si & Hsi & Hmin).
  apply list_elem_of_lookup in Hsi as [j Hj].
  destruct (round_runs_stuck _ _ _ _ _ Hr Hsub _ _ eq_refl j si ltac:(lia) Hj) as (p & Hp & Hd).
  apply list_elem_of_lookup_2 in Hj. specialize (Hrank si p (Hsub _ Hj) Hp).
  destruct Hbooks as (_ & Hinv & _). specialize (Hinv p) as [_ Hinv]. rewrite Hd in Hinv.
  destruct Hinv as [Hheld _]. simpl in Hheld. case_decide as Hin.
  - apply list_elem_of_fmap in Hin as (sp & -> & Hsp). specialize (Hmin sp Hsp). lia.
  - pose proof (stream_nonneg _ _ stream_good p).
    assert (Hin' : In p (pending l)).
    { apply in_flat_map. exists si. by rewrite <- !list_elem_of_In. }
    apply (count_occ_In Z.eq_dec) in Hin'. unfold occ in Hheld. lia.
Qed.

Lemma loading_round_runs i any l (s : state) run :
  round_runs true os fs mount_fds i any l s run -> loading fs g stream l s ->
  forall s' r, run = (s', Ok r) -> loading fs g stream r.2 s'.
Proof.
  induction 1 as [|i any l s si s1 run Hi Hd _ IH|i any l s si s1 run Hi Hd _ IH| |];
    intros Hl s' r Hr; simplify_eq; [done|..].
  - apply (IH) with (s' := s'); [|done]. eapply loading_step; [done| |exact Hd].
    eapply loading_perm, Hl. by apply swap_remove_perm.
  - apply (IH) with (s' := s'); [|done].
    apply (deserialize_inode_waits os fs g stream stream_good) in Hd as [-> _]; [done|].
    eapply loading_stream, list_elem_of_lookup_2; eauto.
Qed.

(** The inode [si] fails in its turn. *)
Definition fails_at (s' : state) (e : io_error) : Prop :=
  exists l s si, loading fs g stream l s /\ si ∈ l /\
    deserialize_inode true os fs si mount_fds s = (s', Err e).

Lemma round_runs_err i any l (s : state) run :
  round_runs true os fs mount_fds i any l s run -> loading fs g stream l s ->
  forall s' e, run = (s', Err e) -> fails_at s' e.
Proof.
  induction 1 as [|i any l s si s1 run Hi Hd _ IH|i any l s si s1 run Hi Hd _ IH
                 |i any l s si s1 e' Hi Hd|]; intros Hl s' e He; simplify_eq.
  - apply (IH) with (s' := s'); [|done]. eapply loading_step; [done| |exact Hd].
    eapply loading_perm, Hl. by apply swap_remove_perm.
  - apply (IH) with (s' := s'); [|done].
    apply (deserialize_inode_waits os fs g stream stream_good) in Hd as [-> _]; [done|].
    eapply loading_stream, list_elem_of_lookup_2; eauto.
  - exists l, s, si. split_and!; [done|by eapply list_elem_of_lookup_2|done].
Qed.

Lemma loop_runs_err l (s : state) run :
  loop_runs true os fs mount_fds l s run -> ranked stream -> loading fs g stream l s ->
  forall s' e, run = (s', Err e) -> fails_at s' e.
Proof.
  induction 1 as [|l s s1 l' run Hne Hr _ IH|l s s1 l' Hne Hr|l s s1 err Hne Hr|];
    intros Hrank Hl s' e He; simplify_eq.
  - eapply IH; [done| |done]. by eapply (loading_round_runs _ _ _ _ _ Hr Hl _ _ eq_refl).
  - by apply not_stuck in Hr.
  - by eapply (round_runs_err _ _ _ _ _ Hr Hl).
Qed.
End Progress.
