(* ===== verification/MigrationSpec.v ===== *)
(** * Migration from end to end

    What the destination of a migration has is what the source had: the guest's references
    to every inode, the open files with the inodes and flags they stand for, the next IDs
    and what was negotiated. *)

From S2P Require Import Prelude OpenFlags Libc FileHandle InodeStore DentryIndex FuseTypes.
From S2P Require Import FuseWire Descriptor SoftIdMap XattrMap FileSystem Host Credentials ReadDir.
From S2P Require Import Paths MountFds Passthrough Ownership PassthroughOps PassthroughSpec Session.
From S2P Require Import Preserialization Migration SerializationSpec DeserializationSpec.

(** What the guest has been told, the inodes apart. *)
Definition promised {W} (s : PassthroughFs W) : NegotiatedOpts * gmap Z HandleData * Z * Z :=
  (opts s, handles s, next_handle s, next_inode s).

(** ** The source *)

Section Source.
Context {W M : Type} `{Host W} `{RangeMap M MapEntry} `{Postcard SerPassthroughFs} `{HashOrder}.
Context (os : HostOs) (fs : Setup M) (rounds : nat).

Local Notation state := (PassthroughFs W).
Local Notation IO := (eff state).
Local Notation books := (books true fs 0).

Lemma stays_clear_infos checks : respects (stays promised) (clear_infos (W := W) checks fs).
Proof. intros s. by apply stays_change_store. Qed.

(** What the source writes. *)
Definition written (s : state) (l : list SerInode) (paths : gmap Z bytes) : SerPassthroughFs :=
  V2 {| v1 := {| v1_inodes := l; v1_next_inode := next_inode s;
                 v1_handles := serialize_handles (handles s); v1_next_handle := next_handle s;
                 v1_negotiated_opts := opts s |};
        mount_paths := paths |}.

Lemma serialize_fs_inv (s s' : state) st :
  serialize_fs true os fs s = (s', Ok st) ->
  exists l, serialize_inodes true (migration_verify_handles (cfg fs)) (inodes s) = Ok l /\
    V2 st = written s l (mount_paths st).
Proof.
  intros Hr. unfold serialize_fs, gets, mbind at 1, eff_bind at 1 in Hr.
  apply eff_bind_inv in Hr as [(s1 & l & Hl & Hr)|[(? & _ & ?)|[_ ?]]]; [|done..].
  apply eff_bind_inv in Hr as [(s2 & paths & _ & Hr)|[(? & _ & ?)|[_ ?]]]; [|done..].
  unfold lift in Hl. injection Hl as <- Hl. injection Hr as <- <-. eauto.
Qed.

Lemma stays_serialize_fs : respects (stays promised) (serialize_fs (W := W) true os fs).
Proof.
  assert (Hp : forall path id, respects (stays promised) (get_mount_path (W := W) path id))
    by (intros; unfold get_mount_path; respect).
  assert (Hb : forall path l m, respects (stays promised) (build_mount_paths (W := W) path l m)).
  { intros path l. induction l; intros m; cbn [build_mount_paths]; respect. }
  unfold serialize_fs, collect_mount_paths, shared_dir_path. respect.
Qed.

Lemma neutral_books {A} (m : IO A) s s' a b :
  neutral true fs 0 m -> books s b -> m s = (s', Ok a) -> books s' b.
Proof.
  intros Hm Hs Hr. assert (Hb : nonneg b).
  { destruct Hs as (_ & Hrc & _ & _ & Hn & _). split; [intros j; apply Hrc|done]. }
  apply books_nothing in Hs. specialize (Hm 0 s b ltac:(done) Hb Hs). rewrite Hr in Hm.
  by apply books_nothing.
Qed.

(** The optional confirmation of the paths. *)
Lemma confirmed_inv (s s' : state) :
  (if migration_confirm_paths (cfg fs) then
     r ← attempt (confirm_paths true os fs rounds);
     match r with
     | Err err => clear_infos true fs;; throw err
     | r => lift r
     end
   else mret tt) s = (s', Ok tt) ->
  s' = s \/ confirm_paths true os fs rounds s = (s', Ok tt).
Proof.
  destruct (migration_confirm_paths (cfg fs)); [|by intros [= <-]; left].
  intros Hr. apply eff_bind_inv in Hr as [(s1 & r & Ha & Hr)|[(? & _ & ?)|[_ ?]]]; [|done..].
  unfold attempt in Ha. destruct (confirm_paths _ _ _ _ s) as [s2 [[]|err|]]; simplify_eq/=.
  - right. by injection Hr as <-.
  - by apply eff_bind_inv in Hr as [(? & ? & _ & ?)|[(? & _ & ?)|[_ ?]]].
Qed.

Lemma serialize_inv (s s' : state) bytes h :
  books s {| held := h; loose := 0 |} -> migratable fs s ->
  serialize true os fs rounds s = (s', Ok bytes) ->
  exists l paths, to_stdvec (written s' l paths) = Ok bytes /\ stream_ok h l.
Proof.
  intros Hs Hm Hr. unfold serialize in Hr.
  apply eff_bind_inv in Hr as [(s1 & [] & Hs1 & Hr)|[(? & _ & ?)|[_ ?]]]; [|done..].
  injection Hs1 as Hs1.
  assert (Hb1 : books s1 {| held := h; loose := 0 |}) by (by rewrite <- Hs1).
  assert (Hm1 : migratable fs s1) by (by rewrite <- Hs1).
  apply eff_bind_inv in Hr as [(s2 & [] & Hs2 & Hr)|[(? & _ & ?)|[_ ?]]]; [|done..].
  assert (books s2 {| held := h; loose := 0 |} /\ migratable fs s2) as [Hb2 Hm2].
  { apply confirmed_inv in Hs2 as [->|Hc]; [done|]. split.
    - eapply neutral_books; [apply neutral_confirm_paths|done|exact Hc].
    - pose proof (safe_confirm_paths fs true os rounds s1) as Hk. rewrite Hc in Hk. by apply Hk. }
  apply eff_bind_inv in Hr as [(s3 & st & Hs3 & Hr)|[(? & _ & ?)|[_ ?]]]; [|done..].
  pose proof (stays_serialize_fs s2) as Hk3. rewrite Hs3 in Hk3. simpl in Hk3.
  apply serialize_fs_inv in Hs3 as (l & Hl & Hst).
  apply eff_bind_inv in Hr as [(s4 & [] & Hs4 & Hr)|[(? & _ & ?)|[_ ?]]]; [|done..].
  pose proof (stays_clear_infos true s3) as Hk4. rewrite Hs4 in Hk4. simpl in Hk4.
  unfold lift in Hr. injection Hr as <- Hr. rewrite Hst in Hr.
  exists l, (mount_paths st). split.
  - rewrite <- Hr. unfold stays, promised, written in *. do 3 f_equal; congruence.
  - destruct Hb2 as (_ & Hrc & _). destruct Hm2 as [_ Hc]. by eapply serialize_inodes_stream.
Qed.
End Source.

(** ** The destination *)

Section Destination.
Context {W M : Type} `{Host W} `{RangeMap M MapEntry} `{Postcard SerPassthroughFs} `{HashOrder}.
Context (os : HostOs) (fs : Setup M).

Local Notation state := (PassthroughFs W).
Local Notation IO := (eff state).
Local Notation quiet := (respects untouched).
Local Notation books := (books true fs 0).
Local Notation spends := (spends true fs 0).

(** *** Options *)

Lemma quiet_apply_opts o : quiet (apply_opts (W := W) fs o).
Proof. unfold apply_opts, store_opts. respect; apply quiet_modify; done. Qed.

Lemma apply_opts_inv o (s s' : state) : apply_opts fs o s = (s', Ok tt) -> opts s' = o.
Proof.
  unfold apply_opts, store_opts, modify, mbind, eff_bind.
  repeat (match goal with |- context [if ?c then throw _ else _] => destruct c; [done|] end; simpl).
  intros [= <-]. by destruct o.
Qed.

(** *** Open files *)

(** What a handle stands for: its inode and the flags it was opened with. *)
Definition stands_for_file (hd : HandleData) : Z * HandleMigrationInfo :=
  (hd_inode hd, hd_migration_info hd).

Definition file_slots (f : HandleDataFile) : Z :=
  match f with HandleFile _ => 1 | HandleInvalid _ => 0 end.

Lemma spends_reopen d flags :
  spends nothing (reopen_handle (W := W) os fs d flags) (fun f => files_of (file_slots f)) nothing.
Proof.
  apply spends_quiet_bind; [done|respect|]. intros [fd|err|]; [|..|apply spends_panic].
  - apply (spends_bind _ _ 0 0 _ _ _ (fun _ => files_of 1)); [done|apply spends_allocate|].
    intros _. by intros n s b Hn Hb Hs.
  - apply spends_quiet_bind; [done|respect|]. intros r. apply spends_throw.
Qed.

Lemma neutral_deserialize_handle sh : neutral true fs 0 (deserialize_handle (W := W) true os fs sh).
Proof.
  apply spends_quiet_bind; [done|respect|]. intros [d|]; [|apply neutral_throw].
  apply neutral_pin. destruct (sh_source sh) as [flags].
  eapply (spends_bind _ _ 0 0); [done|apply spends_attempt, spends_reopen|]. intros r.
  apply (spends_bind _ _ 0 0 _ _ _ (fun f => files_of (file_slots f))); [done| |].
  - destruct r as [f|err|]; [by intros n s b Hn Hb Hs| |apply spends_panic].
    destruct (migration_on_error _); [apply spends_throw|by intros n s b Hn Hb Hs].
  - intros f. eapply spends_weaken; [apply (spends_insert_handle true fs)|done|..]; [|reflexivity..].
    unfold handle_count. simpl. by destruct f.
Qed.

Lemma pin_inv {A X} (f : state -> X) `{!Inner f} i (m : IO A) s s' a :
  pin true fs i m s = (s', Ok a) ->
  exists s1 s2, m s1 = (s2, Ok a) /\ f s1 = f s /\ f s' = f s2.
Proof.
  unfold pin, modify, mbind, eff_bind, finally. destruct (m _) as [s2 r] eqn:Hm.
  assert (Hu : respects (stays f) (unpin true fs i)) by (unfold unpin; respect).
  specialize (Hu s2). destruct (unpin true fs i s2) as [s3 rc]. intros Hr.
  assert (r = Ok a /\ s3 = s') as [-> ->] by (destruct rc; by simplify_eq).
  do 2 eexists. split_and!; [exact Hm|apply inner_pinned|exact Hu].
Qed.

Lemma insert_handle_inv h hd (s s' : state) :
  insert_handle true fs h hd s = (s', Ok tt) -> handles s' = <[h := hd]> (handles s).
Proof.
  unfold insert_handle, gets, modify, mbind, eff_bind. destruct (handles s !! h) as [old|].
  - intros Hr. pose proof (stays_drop_handle fs handles true old) as Hd.
    specialize (Hd (set_handles (<[h := hd]> (handles s)) s)). by rewrite Hr in Hd.
  - by intros [= <-].
Qed.

Definition file_of (sh : SerHandle) : Z * HandleMigrationInfo :=
  (sh_inode sh, match sh_source sh with SerOpenInode flags => OpenInode flags end).

Lemma deserialize_handle_inv sh (s s' : state) :
  deserialize_handle true os fs sh s = (s', Ok tt) ->
  stands_for_file <$> handles s' = <[sh_id sh := file_of sh]> (stands_for_file <$> handles s).
Proof.
  intros Hr. unfold deserialize_handle, gets, mbind at 1, eff_bind at 1 in Hr.
  destruct (store_get _ _) as [d|]; [|done].
  apply (pin_inv handles) in Hr as (s1 & s2 & Hr & <- & ->).
  unfold file_of. destruct (sh_source sh) as [flags].
  apply eff_bind_inv in Hr as [(s3 & r & H3 & Hr)|[(? & _ & ?)|[_ ?]]]; [|done..].
  apply eff_bind_inv in Hr as [(s4 & f & H4 & Hr)|[(? & _ & ?)|[_ ?]]]; [|done..].
  apply insert_handle_inv in Hr as ->. rewrite fmap_insert.
  assert (Hre : respects (stays handles) (attempt (reopen_handle (W := W) os fs d flags)))
    by (unfold reopen_handle; respect).
  specialize (Hre s1). rewrite H3 in Hre. unfold stays in Hre. simpl in Hre.
  assert (s4 = s3) as ->; [|by rewrite Hre].
  destruct r; [by injection H4 as ->| |done].
  destruct (migration_on_error _); [done|by injection H4 as ->].
Qed.

Definition add_file (m : gmap Z (Z * HandleMigrationInfo)) (sh : SerHandle) :=
  <[sh_id sh := file_of sh]> m.

Lemma deserialize_handles_inv l : forall s s' : state,
  each (deserialize_handle true os fs) l s = (s', Ok tt) ->
  stands_for_file <$> handles s' = foldl add_file (stands_for_file <$> handles s) l.
Proof.
  induction l as [|sh l IH]; intros s s' Hr; simpl in Hr; [by injection Hr as <-|].
  apply eff_bind_inv in Hr as [(s1 & [] & Hd & Hr)|[(? & _ & ?)|[_ ?]]]; [|done..].
  simpl. unfold add_file at 2. rewrite <- (deserialize_handle_inv _ _ _ Hd). by apply IH.
Qed.

Lemma foldl_add_file (l : list (Z * HandleData)) : forall m,
  NoDup l.*1 ->
  foldl add_file m ((fun e => serialize_handle e.1 e.2) <$> l) =
  (stands_for_file <$> list_to_map l) ∪ m.
Proof.
  induction l as [|[h hd] l IH]; intros m Hnd; csimpl.
  - by rewrite fmap_empty, (left_id_L ∅ (∪)).
  - apply NoDup_cons in Hnd as [Hh Hnd]. rewrite IH by done. unfold add_file. simpl.
    rewrite fmap_insert, <- insert_union_l, insert_union_r.
    + unfold file_of, stands_for_file. simpl. by destruct (hd_migration_info hd).
    + rewrite lookup_fmap, not_elem_of_list_to_map_1; done.
Qed.

(** The files of the source. *)
Lemma serialize_handles_files (m : gmap Z HandleData) :
  foldl add_file ∅ (serialize_handles m) = stands_for_file <$> m.
Proof.
  unfold serialize_handles.
  assert (Hp : merge_sort fh_le (map_to_list m) ≡ₚ map_to_list m) by apply merge_sort_Permutation.
  assert (Hnd : NoDup (merge_sort fh_le (map_to_list m)).*1).
  { rewrite Hp. apply NoDup_fst_map_to_list. }
  rewrite foldl_add_file, (right_id_L ∅ (∪)) by done. f_equal.
  rewrite (list_to_map_proper _ _ Hnd Hp). apply list_to_map_to_list.
Qed.

(** *** Mounts *)

Lemma quiet_mount_new dir path : quiet (mount_fd_new (W := W) os dir path).
Proof. unfold mount_fd_new. respect. Qed.
#[local] Hint Resolve quiet_mount_new : eff.

Lemma quiet_open_mounts dir l paths : forall map, quiet (open_mount_fds (W := W) os dir l paths map).
Proof. induction l; intros map; cbn [open_mount_fds]; respect. Qed.

Lemma quiet_release_mounts map : quiet (release_mount_fds (W := W) map).
Proof. unfold release_mount_fds, release_mount_fd. respect. Qed.

Lemma stays_err_context {A X} (f : state -> X) (m : IO A) :
  respects (stays f) m -> respects (stays f) (with_err_context m).
Proof. intros Hm. unfold with_err_context. respect. Qed.
#[local] Hint Resolve stays_err_context : eff.

Lemma stays_mount_new {X} (f : state -> X) `{!Inner f} dir path :
  respects (stays f) (mount_fd_new os dir path).
Proof. unfold mount_fd_new. respect. Qed.
#[local] Hint Resolve stays_mount_new : eff.

Lemma stays_open_mounts {X} (f : state -> X) `{!Inner f} dir l paths :
  forall map, respects (stays f) (open_mount_fds os dir l paths map).
Proof. induction l; intros map; cbn [open_mount_fds]; respect. Qed.

Lemma stays_release_mounts {X} (f : state -> X) `{!Inner f} map :
  respects (stays f) (release_mount_fds map).
Proof. unfold release_mount_fds, release_mount_fd. respect. Qed.
#[local] Hint Resolve quiet_open_mounts stays_open_mounts : eff.

Context (g : Z -> Z) (stream : list SerInode).
Hypothesis stream_good : stream_ok g stream.

Definition negotiated (s : state) := (opts s, next_handle s).

Lemma loading_untouched l (s s' : state) :
  untouched s s' -> loading fs g stream l s -> loading fs g stream l s'.
Proof.
  intros Hu [? ? ? Habs ?]. split; try done; [by eapply books_untouched|].
  intros i Hi. destruct Hu as (-> & _). by apply Habs.
Qed.

(** The root by itself is the root in its turn. *)
Lemma root_node_turn root mfds (s s' : state) :
  deserialize_root_node true os fs root s = (s', Ok tt) ->
  deserialize_inode true os fs root mfds s = (s', Ok true).
Proof.
  intros Hr. unfold deserialize_inode. pose proof Hr as Hr'. unfold deserialize_root_node in Hr'.
  apply eff_bind_inv in Hr' as [(s1 & [] & Ha & Hr')|[(? & _ & ?)|[_ ?]]]; [|done..].
  destruct (si_location root); try done. unfold assert_, lift in Ha.
  destruct (si_id root =? ROOT_ID); [|done]. simpl. by rewrite (eff_bind_ok _ _ _ _ _ Hr).
Qed.

Lemma deserialize_mounts_inv paths (s s' : state) l mfds :
  loading fs g stream stream s ->
  deserialize_mounts true os fs stream paths s = (s', Ok (l, mfds)) ->
  loading fs g stream l s' /\ negotiated s' = negotiated s.
Proof.
  intros Hl. unfold deserialize_mounts. case_decide as Hempty; [by intros [= <- <- <-]|].
  destruct (list_find _ stream) as [[i root]|] eqn:Hroot; [|done]. intros Hr.
  apply list_find_Some in Hroot as (Hi & _ & _).
  apply eff_bind_inv in Hr as [(s1 & [] & Hn & Hr)|[(? & _ & ?)|[_ ?]]]; [|done..].
  apply (root_node_turn root ∅) in Hn.
  pose proof (settled_inode os fs g stream stream_good root ∅ s) as Hs.
  rewrite Hn in Hs. destruct Hs as (Ho & _ & Hh); [by eapply list_elem_of_lookup_2|].
  assert (Hl1 : loading fs g stream (swap_remove i stream) s1).
  { eapply loading_step; [done| |exact Hn]. eapply loading_perm, Hl. by apply swap_remove_perm. }
  match type of Hr with ?m s1 = _ =>
    assert (Hq : quiet m) by respect; assert (Hk : respects (stays negotiated) m)
  end.
  { unfold referenced. respect. }
  specialize (Hq s1). specialize (Hk s1). rewrite Hr in Hq, Hk. simpl in Hq, Hk.
  apply eff_bind_inv in Hr as [(s2 & d & _ & Hr)|[(? & _ & ?)|[_ ?]]]; [|done..].
  apply eff_bind_inv in Hr as [(s3 & f & _ & Hr)|[(? & _ & ?)|[_ ?]]]; [|done..].
  apply eff_bind_inv in Hr as [(s4 & m & _ & Hr)|[(? & _ & ?)|[_ ?]]]; [|done..].
  injection Hr as _ <- <-. split; [by eapply loading_untouched|].
  unfold stays, negotiated in *. simpl in *. congruence.
Qed.

(** *** The whole state *)

Lemma clear_handles_inv (s s' : state) b :
  books s b -> clear_handles true fs s = (s', Ok tt) -> books s' b /\ handles s' = ∅.
Proof.
  intros (Hw & Hrc & Hroom & Hs) Hr. unfold clear_handles, gets, modify, mbind, eff_bind in Hr.
  pose proof (drop_all_handles fs s _ Hs) as Hd. simpl in Hr. rewrite Hr in Hd.
  destruct Hd as (Hi & Hh & Hs'). unfold books. by rewrite Hi.
Qed.

Lemma handles_books l (s s' : state) b :
  books s b -> each (deserialize_handle true os fs) l s = (s', Ok tt) -> books s' b.
Proof.
  apply neutral_books. induction l as [|sh l IH]; simpl; [apply neutral_ret|].
  apply neutral_bind; [apply neutral_deserialize_handle|done].
Qed.

Lemma stays_handles l : respects (stays (fun s => (opts s, next_inode s)))
  (each (deserialize_handle (W := W) true os fs) l).
Proof.
  assert (Hh : forall sh, respects (stays (fun s => (opts s, next_inode s)))
    (deserialize_handle (W := W) true os fs sh)); [|respect].
  intros sh. unfold deserialize_handle, insert_handle, reopen_handle. respect.
  apply stays_pin; [exact _|]. respect.
Qed.

(** Everything but the mounts, once the inodes are being opened. *)
Lemma reopen_inv st l mfds (s s' : state) :
  loading fs g stream l s ->
  (deserialize_inodes true os fs mfds l;;
   modify (set_next_inode (v1_next_inode st));;
   clear_handles true fs;;
   each (deserialize_handle true os fs) (v1_handles st);;
   modify (set_next_handle (v1_next_handle st))) s = (s', Ok tt) ->
  books s' {| held := g; loose := 0 |} /\ opts s' = opts s /\
  next_inode s' = v1_next_inode st /\ next_handle s' = v1_next_handle st /\
  stands_for_file <$> handles s' = foldl add_file ∅ (v1_handles st).
Proof.
  intros Hl Hr.
  apply eff_bind_inv in Hr as [(s1 & [] & Hi & Hr)|[(? & _ & ?)|[_ ?]]]; [|done..].
  apply (inodes_rounds_loading os fs g stream stream_good) in Hi as [Hend (Ho & _ & _)]; [|done].
  apply loading_end in Hend.
  unfold modify, mbind at 1, eff_bind at 1 in Hr.
  apply eff_bind_inv in Hr as [(s2 & [] & Hc & Hr)|[(? & _ & ?)|[_ ?]]]; [|done..].
  assert (Hk : respects (stays (fun s => (opts s, next_inode s))) (clear_handles (W := W) true fs)).
  { unfold clear_handles. respect. }
  specialize (Hk (set_next_inode (v1_next_inode st) s1)). rewrite Hc in Hk. simpl in Hk.
  apply (clear_handles_inv _ _ {| held := g; loose := 0 |}) in Hc as [Hb2 Hh2]; [|done].
  apply eff_bind_inv in Hr as [(s3 & [] & He & Hr)|[(? & _ & ?)|[_ ?]]]; [|done..].
  pose proof (handles_books _ _ _ _ Hb2 He) as Hb3.
  pose proof (stays_handles (v1_handles st) s2) as Hk3. rewrite He in Hk3. simpl in Hk3.
  apply deserialize_handles_inv in He. rewrite Hh2, fmap_empty in He.
  injection Hr as <-. unfold stays in *. simpl in *. split_and!; try done; congruence.
Qed.

Lemma apply_inv st paths (s s' : state) :
  v1_inodes st = stream -> store_wf (inodes s) -> slots fs s 0 ->
  apply_with_mount_paths true os fs st paths s = (s', Ok tt) ->
  books s' {| held := g; loose := 0 |} /\ opts s' = v1_negotiated_opts st /\
  next_inode s' = v1_next_inode st /\ next_handle s' = v1_next_handle st /\
  stands_for_file <$> handles s' = foldl add_file ∅ (v1_handles st).
Proof.
  intros Hst Hw Hs Hr. unfold apply_with_mount_paths in Hr. rewrite Hst in Hr.
  apply eff_bind_inv in Hr as [(s1 & [] & Ho & Hr)|[(? & _ & ?)|[_ ?]]]; [|done..].
  pose proof (quiet_apply_opts (v1_negotiated_opts st) s) as Hq. rewrite Ho in Hq.
  apply apply_opts_inv in Ho. pose proof (slots_untouched _ _ _ _ Hq Hs) as Hs1.
  destruct Hq as (Hi & _). simpl in Hi. rewrite <- Hi in Hw.
  unfold gets, mbind at 1, eff_bind at 1 in Hr.
  apply eff_bind_inv in Hr as [(s2 & [] & Hc & Hr)|[(? & _ & ?)|[_ ?]]]; [|done..].
  pose proof (clear_store_slots fs s1 0 Hw Hs1) as Hcl. rewrite Hc in Hcl. destruct Hcl as (Hi2 & _ & Hs2).
  pose proof (stays_change_store fs opts true (inode_clear (inodes s1)) s1 eq_refl) as Ho2.
  rewrite Hc in Ho2. unfold stays in Ho2. simpl in Ho2.
  assert (Hb2 : books s2 {| held := fun _ => 0; loose := 0 |}).
  { split_and!; [by rewrite Hi2; apply store_wf_empty|by rewrite Hi2; apply rc_inv_empty|by left|done]. }
  apply (loading_start fs g stream stream_good) in Hb2; [|by rewrite Hi2].
  apply eff_bind_inv in Hr as [(s3 & [l mfds] & Hm & Hr)|[(? & _ & ?)|[_ ?]]]; [|done..].
  apply deserialize_mounts_inv in Hm as [Hl Hn]; [|done].
  unfold finally in Hr.
  match type of Hr with (let '(_, _) := ?m s3 in _) = _ => destruct (m s3) as [s4 r] eqn:He end.
  pose proof (quiet_release_mounts mfds s4) as Hq4.
  pose proof (stays_release_mounts promised mfds s4) as Hp4.
  destruct (release_mount_fds mfds s4) as [s5 rc]. simpl in Hq4, Hp4.
  assert (r = Ok tt /\ s5 = s') as [-> ->] by (destruct rc; by simplify_eq).
  apply reopen_inv in He as (Hb & Ho4 & Hni & Hnh & Hh); [|done].
  unfold stays, promised, negotiated in *. split_and!; [by eapply books_untouched|congruence..].
Qed.
End Destination.

(** ** The loop over the inodes *)

Section Liveness.
Context {W M : Type} `{Host W} `{RangeMap M MapEntry} `{HashOrder}.

(** the destination of a migration never gives up on a stream for want of parents.  In a
    stream whose counts add up and in which no path leads back to itself, whatever its
    order, every round opens an inode: the loop opens them all, and the store's counts are
    then the references [g] held from outside, or an inode whose turn it was failed and
    that is the error returned. *)
Theorem deserialize_inodes_progress (os : HostOs) (fs : Setup M) (mount_fds : gmap Z MountFd)
  (g : Z -> Z) (stream : list SerInode) (s : PassthroughFs W) :
  stream_ok g stream -> ranked stream ->
  data (inodes s) = ∅ -> books true fs 0 s {| held := fun _ => 0; loose := 0 |} ->
  match deserialize_inodes true os fs mount_fds stream s with
  | (s', Ok _) => books true fs 0 s' {| held := g; loose := 0 |}
  | (s', Err e) => fails_at os fs mount_fds g stream s' e
  | (_, Panic) => True
  end.
Proof.
  intros Hok Hrank Hd Hs. pose proof (loading_start fs g stream Hok s Hd Hs) as Hl.
  pose proof (inodes_rounds_run true os fs mount_fds (length stream) stream s ltac:(done)) as Hruns.
  destruct (deserialize_inodes true os fs mount_fds stream s) as [s' [[]|e|]] eqn:Hr; [| |done].
  - destruct (inodes_rounds_loading os fs g stream Hok _ _ _ _ _ Hl Hr) as [Hend _].
    by eapply loading_end.
  - by eapply (loop_runs_err os fs mount_fds g stream Hok _ _ _ Hruns).
Qed.
End Liveness.

(** ** Preparing and serializing *)

Section Preparing.
Context {W M : Type} `{Host W} `{RangeMap M MapEntry} `{Postcard SerPassthroughFs} `{HashOrder}.

(** C14: preparing a migration, and serializing the state, are invisible to the guest.  However
    they end - by finding every inode's path, by giving up, by being cancelled at any point -
    and however often inodes are looked up, claimed and dropped on the way, the references
    of the guest and the descriptor accounting are afterwards what they were. *)
Theorem source_keeps_references (os : HostOs) (fs : Setup M) (rounds : nat)
  (cancel : PassthroughFs W -> bool) (s : PassthroughFs W) (h : Z -> Z) :
  let b := {| held := h; loose := 0 |} in
  books true fs 0 s b ->
  match prepare_serialization true os fs rounds cancel s with
  | (s', Ok _) | (s', Err _) => books true fs 0 s' b
  | (_, Panic) => True
  end /\
  match serialize true os fs rounds s with
  | (s', Ok _) | (s', Err _) => books true fs 0 s' b
  | (_, Panic) => True
  end.
Proof.
  intros b Hs. pose proof (neutral_prepare os fs rounds cancel) as Hp.
  pose proof (neutral_serialize os fs rounds) as Hz.
  assert (Hb : nonneg b) by (split; [intros j; by apply Hs|done]).
  apply books_nothing in Hs. specialize (Hp 0 s b ltac:(done) Hb Hs). specialize (Hz 0 s b ltac:(done) Hb Hs).
  unfold balanced in *. split.
  - destruct (prepare_serialization _ _ _ _ _ s) as [s' [?|?|]]; try done; by apply books_nothing.
  - destruct (serialize _ _ _ _ s) as [s' [?|?|]]; try done; by apply books_nothing.
Qed.
End Preparing.

(** ** From end to end *)

Section EndToEnd.
Context {W1 W2 M1 M2 : Type} `{Host W1} `{Host W2} `{RangeMap M1 MapEntry} `{RangeMap M2 MapEntry}.
Context `{Postcard SerPassthroughFs} `{HashOrder}.

Lemma hands_over (os1 os2 : HostOs) (fs1 : Setup M1) (fs2 : Setup M2) (rounds : nat)
  (s s' : PassthroughFs W1) (t t' : PassthroughFs W2) (h : Z -> Z) (stream : bytes) :
  books true fs1 0 s {| held := h; loose := 0 |} -> migratable fs1 s ->
  store_wf (inodes t) -> slots fs2 t 0 ->
  serialize true os1 fs1 rounds s = (s', Ok stream) ->
  deserialize_and_apply true os2 fs2 stream t = (t', Ok tt) ->
  books true fs2 0 t' {| held := h; loose := 0 |} /\
  opts t' = opts s' /\ next_inode t' = next_inode s' /\ next_handle t' = next_handle s' /\
  stands_for_file <$> handles t' = stands_for_file <$> handles s'.
Proof.
  intros Hs Hm Hw Ht Hser Hde.
  destruct (serialize_inv os1 fs1 rounds s s' stream h Hs Hm Hser) as (l & paths & Hb & Hl).
  apply postcard_roundtrip in Hb. unfold deserialize_and_apply in Hde. rewrite Hb in Hde.
  unfold written, lift, mbind, eff_bind in Hde.
  eapply (apply_inv os2 fs2 h l Hl) in Hde as (? & ? & ? & ? & Hh); [|done..]. simpl in *.
  split_and!; try done. rewrite Hh. apply serialize_handles_files.
Qed.

(** C3: a migration hands the guest's state over unchanged.  When the source's counts are
    the guest's references [h], and the destination applies what the source wrote, then the
    destination's counts are the same references, its descriptor accounting is exact, and the
    options, the next IDs and the open files with their inodes and flags are the source's;
    whatever the two hosts answered, whatever the destination's state was and in whatever
    order the paths of the stream could be opened. *)
Theorem migration_hands_over (os1 os2 : HostOs) (fs1 : Setup M1) (fs2 : Setup M2) (rounds : nat)
  (s s' : PassthroughFs W1) (t t' : PassthroughFs W2) (h : Z -> Z) (stream : bytes) :
  books true fs1 0 s {| held := h; loose := 0 |} -> migratable fs1 s ->
  store_wf (inodes t) -> slots fs2 t 0 ->
  serialize true os1 fs1 rounds s = (s', Ok stream) ->
  deserialize_and_apply true os2 fs2 stream t = (t', Ok tt) ->
  books true fs2 0 t' {| held := h; loose := 0 |} /\
  opts t' = opts s' /\ next_inode t' = next_inode s' /\ next_handle t' = next_handle s' /\
  stands_for_file <$> handles t' = stands_for_file <$> handles s'.
Proof. apply hands_over. Qed.
End EndToEnd.

(** ** An example

    An encoding, a hash table that is a sorted one, and the hosts of [Session]. *)

#[export] Instance opts_eq_dec : EqDecision NegotiatedOpts.
Proof. solve_decision. Defined.
#[export] Instance sfh_eq_dec : EqDecision SerializableFileHandle.
Proof. solve_decision. Defined.
#[export] Instance ser_location_eq_dec : EqDecision SerLocation.
Proof. solve_decision. Defined.
#[export] Instance ser_inode_eq_dec : EqDecision SerInode.
Proof. solve_decision. Defined.
#[export] Instance handle_source_eq_dec : EqDecision HandleSource.
Proof. solve_decision. Defined.
#[export] Instance ser_handle_eq_dec : EqDecision SerHandle.
Proof. solve_decision. Defined.
#[export] Instance fs_v1_eq_dec : EqDecision PassthroughFsV1.
Proof. solve_decision. Defined.
#[export] Instance fs_v2_eq_dec : EqDecision PassthroughFsV2.
Proof. solve_decision. Defined.
#[export] Instance ser_fs_eq_dec : EqDecision SerPassthroughFs.
Proof. solve_decision. Defined.

#[export] Instance opts_countable : Countable NegotiatedOpts.
Proof.
  apply (inj_countable' (fun o => (writeback o, announce_submounts o, posix_acl o, sup_group_extension o))
    (fun '(a, b, c, d) => Build_NegotiatedOpts a b c d)). by intros [].
Defined.

#[export] Instance sfh_countable : Countable SerializableFileHandle.
Proof.
  apply (inj_countable' (fun h => (sfh_mnt_id h, sfh_handle_type h, sfh_handle h))
    (fun '(a, b, c) => Build_SerializableFileHandle a b c)). by intros [].
Defined.

#[export] Instance ser_location_countable : Countable SerLocation.
Proof.
  apply (inj_countable'
    (fun l => match l with
              | SerRootNode => inl false
              | SerInvalid => inl true
              | SerPath p name => inr (inl (p, name))
              | SerFullPath name => inr (inr (inl name))
              | SerFileHandle h => inr (inr (inr h))
              end)
    (fun x => match x with
              | inl false => SerRootNode
              | inl true => SerInvalid
              | inr (inl (p, name)) => SerPath p name
              | inr (inr (inl name)) => SerFullPath name
              | inr (inr (inr h)) => SerFileHandle h
              end)). by intros [].
Defined.

#[export] Instance ser_inode_countable : Countable SerInode.
Proof.
  apply (inj_countable' (fun i => (si_id i, si_refcount i, si_location i, si_file_handle i))
    (fun '(a, b, c, d) => Build_SerInode a b c d)). by intros [].
Defined.

#[export] Instance ser_handle_countable : Countable SerHandle.
Proof.
  apply (inj_countable' (fun h => (sh_id h, sh_inode h, match sh_source h with SerOpenInode f => f end))
    (fun '(a, b, c) => Build_SerHandle a b (SerOpenInode c))). by intros [? ? []].
Defined.

#[export] Instance fs_v1_countable : Countable PassthroughFsV1.
Proof.
  apply (inj_countable' (fun v => (v1_inodes v, v1_next_inode v, v1_handles v, v1_next_handle v,
                                   v1_negotiated_opts v))
    (fun '(a, b, c, d, e) => Build_PassthroughFsV1 a b c d e)). by intros [].
Defined.

#[export] Instance ser_fs_countable : Countable SerPassthroughFs.
Proof.
  apply (inj_countable' (fun v => match v with V1 st => inl st | V2 st => inr (v1 st, mount_paths st) end)
    (fun x => match x with inl st => V1 st | inr (a, b) => V2 (Build_PassthroughFsV2 a b) end)).
  by intros [|[]].
Defined.

(** The bits of the encoded state, one to a byte. *)
Fixpoint bits_of (p : positive) : bytes :=
  match p with xH => [] | xO p => 0 :: bits_of p | xI p => 1 :: bits_of p end.

Fixpoint of_bits (l : bytes) : positive :=
  match l with [] => xH | b :: l => if b =? 0 then xO (of_bits l) else xI (of_bits l) end.

Lemma of_bits_of p : of_bits (bits_of p) = p.
Proof. induction p; simpl; congruence. Qed.

#[local] Program Instance bit_encoding : Postcard SerPassthroughFs :=
  {| to_stdvec st := Ok (bits_of (encode st));
     from_bytes l := match decode (of_bits l) with Some st => Ok st | None => Err other_io_error end |}.
Next Obligation. intros st l [= <-]. by rewrite of_bits_of, decode_encode. Qed.

#[local] Instance sorted_table : HashOrder := {| hash_order := elements; hash_order_elements X := reflexivity _ |}.
#[local] Existing Instance list_range_map.

(** A guest that has looked up a file and opened it while the paths are kept. *)
Definition demo_requests : list request := [RLookup 1 (text "a"); ROpen 2 false 0].

Definition demo_source : PassthroughFs demo_world :=
  (each (fun r => serve demo_os demo_setup 0 r;; mret tt) demo_requests
     (set_track_migration_info true demo_mounted)).1.

Definition demo_written := serialize true demo_os demo_setup 0 demo_source.

Definition demo_holds (j : Z) : Z := (if decide (j = ROOT_ID) then 2 else 0) + occ [2] j.

(** A request that is served without anything being given back. *)
Lemma serve_step r (s s' : PassthroughFs demo_world) l h h' :
  given_back r = [] -> (forall j, h j + occ l j = h' j) ->
  serve demo_os demo_setup 0 r s = (s', Ok l) ->
  books true demo_setup 0 s {| held := h; loose := 0 |} ->
  books true demo_setup 0 s' {| held := h'; loose := 0 |}.
Proof.
  intros Hg Hh Hr Hb. assert (Hnn : forall j, 0 <= h j) by (destruct Hb as (_ & Hrc & _); apply Hrc).
  pose proof (serve_books demo_os demo_setup 0 r s {| held := h; loose := 0 |} (conj Hnn (Z.le_refl 0)) Hb) as Hs.
  rewrite Hg in Hs. specialize (Hs (honest_nothing _ Hnn)). unfold served in Hs. rewrite Hr, Hg in Hs.
  eapply books_ext, Hs; [|done]. intros j. simpl. rewrite <- Hh. lia.
Qed.

Lemma fresh_slots : slots demo_setup demo_fresh 0.
Proof. vm_compute. done. Qed.

Lemma untouched_track (s : PassthroughFs demo_world) : untouched s (set_track_migration_info true s).
Proof. done. Qed.

Lemma demo_source_books : books true demo_setup 0 demo_source {| held := demo_holds; loose := 0 |}.
Proof.
  destruct demo_init as [o Ho].
  pose proof (init_books demo_os demo_setup 0 demo_fresh _ _ store_wf_empty fresh_slots Ho) as Hb.
  set (s0 := set_track_migration_info true demo_mounted).
  set (s1 := (serve demo_os demo_setup 0 (RLookup 1 (text "a")) s0).1).
  assert (Hs1 : serve demo_os demo_setup 0 (RLookup 1 (text "a")) s0 = (s1, Ok [2]))
    by (vm_compute; reflexivity).
  assert (Hs2 : serve demo_os demo_setup 0 (ROpen 2 false 0) s1 = (demo_source, Ok []))
    by (vm_compute; reflexivity).
  apply (serve_step (ROpen 2 false 0) s1 demo_source [] demo_holds demo_holds);
    [done|intros j; rewrite occ_nil; lia|exact Hs2|].
  apply (serve_step (RLookup 1 (text "a")) s0 s1 [2] (fun j => if decide (j = ROOT_ID) then 2 else 0));
    [done|done|exact Hs1|].
  apply (books_untouched _ _ _ demo_mounted); [by apply untouched_track|exact Hb].
Qed.

Lemma demo_source_migratable : migratable demo_setup demo_source.
Proof.
  split; [vm_compute; done|]. intros i d Hd. apply elem_of_map_to_list in Hd.
  assert (Hall : Forall (fun e => inode e.2 = e.1 /\ 0 <= e.1) (map_to_list (data (inodes demo_source))))
    by (vm_compute; repeat constructor; done).
  rewrite Forall_forall in Hall. destruct (Hall _ Hd). done.
Qed.

(** The stream of the example. *)
Definition demo_stream : bytes := match demo_written.2 with Ok b => b | _ => [] end.

Definition demo_taken := deserialize_and_apply true demo_os demo_setup demo_stream demo_fresh.

Lemma migration_hands_over_witness :
  demo_taken.2 = Ok tt /\
  books true demo_setup 0 demo_taken.1 {| held := demo_holds; loose := 0 |} /\
  known_count demo_source 1 = Some 3 /\ known_count demo_taken.1 1 = Some 2 /\
  (stands_for_file <$> handles demo_taken.1) !! 0 = Some (2, OpenInode 0).
Proof.
  assert (Hw : serialize true demo_os demo_setup 0 demo_source = (demo_written.1, Ok demo_stream))
    by (vm_compute; reflexivity).
  assert (Ht : demo_taken.2 = Ok tt) by (vm_compute; reflexivity).
  assert (Hd : deserialize_and_apply true demo_os demo_setup demo_stream demo_fresh =
    (demo_taken.1, Ok tt)) by (rewrite <- Ht; unfold demo_taken; by destruct (deserialize_and_apply _ _ _ _ _)).
  destruct (migration_hands_over demo_os demo_os demo_setup demo_setup 0 _ _ demo_fresh _ demo_holds _
    demo_source_books demo_source_migratable store_wf_empty fresh_slots Hw Hd) as (Hb & _ & _ & _ & Hh).
  split_and!; [done|done|vm_compute; reflexivity..|]. rewrite Hh. vm_compute. reflexivity.
Defined.

Lemma source_keeps_references_witness :
  let s' := (prepare_serialization true demo_os demo_setup 30 (fun _ => true) demo_source).1 in
  books true demo_setup 0 s' {| held := demo_holds; loose := 0 |} /\
  known_count demo_source 1 = Some 3 /\ known_count s' 1 = Some 2.
Proof.
  cbv zeta. destruct (source_keeps_references demo_os demo_setup 30 (fun _ => true) demo_source demo_holds
    demo_source_books) as [Hp _].
  assert (Hr : (prepare_serialization true demo_os demo_setup 30 (fun _ => true) demo_source).2 = Ok tt)
    by (vm_compute; reflexivity).
  split_and!; [|vm_compute; reflexivity..].
  destruct (prepare_serialization _ _ _ _ _ _) as [s' r]. simpl in Hr. by subst r.
Defined.

(** The inodes of the example, the child first. *)
Definition demo_inodes : list SerInode :=
  [{| si_id := 2; si_refcount := 1; si_location := SerPath 1 (text "a"); si_file_handle := None |};
   {| si_id := 1; si_refcount := 3; si_location := SerRootNode; si_file_handle := None |}].

Lemma demo_inodes_ok : stream_ok demo_holds demo_inodes.
Proof.
  split.
  - apply NoDup_cons. split; [|apply NoDup_singleton]. by intros ?%list_elem_of_singleton.
  - intros si Hsi. repeat (apply elem_of_cons in Hsi as [->|Hsi]; [done|]). by apply elem_of_nil in Hsi.
  - intros i Hi. unfold demo_holds. rewrite !occ_not_elem; [|set_solver..].
    case_decide; [subst; set_solver|done].
  - intros i. unfold demo_holds. pose proof (occ_nonneg [2] i). case_decide; lia.
  - intros si f Hsi. repeat (apply elem_of_cons in Hsi as [->|Hsi]; [done|]). by apply elem_of_nil in Hsi.
Qed.

Lemma demo_inodes_ranked : ranked demo_inodes.
Proof.
  exists Z.to_nat. intros si p Hsi Hp. repeat (apply elem_of_cons in Hsi as [->|Hsi]).
  - apply list_elem_of_singleton in Hp as ->. simpl. lia.
  - by apply elem_of_nil in Hp.
  - by apply elem_of_nil in Hsi.
Qed.

Lemma deserialize_inodes_progress_witness :
  let r := deserialize_inodes true demo_os demo_setup ∅ demo_inodes demo_fresh in
  r.2 = Ok tt /\ books true demo_setup 0 r.1 {| held := demo_holds; loose := 0 |} /\
  known_count r.1 2 = Some 1 /\ known_count r.1 1 = Some 2.
Proof.
  cbv zeta.
  assert (Hr : (deserialize_inodes true demo_os demo_setup ∅ demo_inodes demo_fresh).2 = Ok tt)
    by (vm_compute; reflexivity).
  assert (Hb : books true demo_setup 0 demo_fresh {| held := fun _ => 0; loose := 0 |})
    by (split_and!; [apply store_wf_empty|apply rc_inv_empty|by left|apply fresh_slots]).
  pose proof (deserialize_inodes_progress demo_os demo_setup ∅ demo_holds demo_inodes demo_fresh
    demo_inodes_ok demo_inodes_ranked eq_refl Hb) as Hp.
  split_and!; [done| |vm_compute; reflexivity..].
  destruct (deserialize_inodes _ _ _ _ _ _) as [s' r]. simpl in Hr. by subst r.
Defined.
