(* ===== verification/Contract.v ===== *)
(** * What the FUSE server may expect of the passthrough file system

    The contracts of [FileSystem] - lookups are counted, forgetting cannot fail, reads
    store what they report - discharged for the passthrough file system on any host. *)

From S2P Require Import Prelude OpenFlags Libc FileHandle InodeStore DentryIndex FuseTypes.
From S2P Require Import FuseWire Descriptor SoftIdMap XattrMap FileSystem Host Credentials ReadDir.
From S2P Require Import Paths MountFds Passthrough Ownership PassthroughOps PassthroughSpec Session.

Section Ids.
Context {W M : Type} `{Host W} `{RangeMap M MapEntry}.
Context (checks : bool) (os : HostOs) (fs : Setup M).

Local Notation state := (PassthroughFs W).
Local Notation IO := (eff state).

(** ** Which inode IDs are in use *)

Definition known (s : state) (i : Z) : Prop := is_Some (data (inodes s) !! i).

(** No ID comes into use. *)
Definition no_new_ids (s s' : state) : Prop :=
  store_wf (inodes s) -> store_wf (inodes s') /\
  next_inode s' = next_inode s /\ forall i, known s' i -> known s i.

#[local] Instance no_new_ids_preorder : PreOrder no_new_ids.
Proof.
  split; [done|]. intros s1 s2 s3 H1 H2 Hw. destruct (H1 Hw) as (Hw2 & Hn & Hk).
  destruct (H2 Hw2) as (Hw3 & Hn' & Hk'). split_and!; [done|congruence|eauto].
Qed.

(** At most one does, the next in line. *)
Definition one_new_id (s s' : state) : Prop :=
  no_new_ids s s' \/
  (store_wf (inodes s) -> store_wf (inodes s') /\
   next_inode s' = (next_inode s + 1) mod 2 ^ 64 /\
   forall i, known s' i -> known s i \/ i = next_inode s).

Lemma one_after s1 s2 s3 : no_new_ids s1 s2 -> one_new_id s2 s3 -> one_new_id s1 s3.
Proof.
  intros Ha [Ho|Ho]; [left; by etrans|right]. intros Hw. destruct (Ha Hw) as (Hw2 & Hn & Hk).
  destruct (Ho Hw2) as (Hw3 & Hn' & Hk'). rewrite Hn in *. split_and!; [done..|].
  intros i Hi. destruct (Hk' i Hi); auto.
Qed.

Lemma one_before s1 s2 s3 : one_new_id s1 s2 -> no_new_ids s2 s3 -> one_new_id s1 s3.
Proof.
  intros [Ho|Ho] Hb; [left; by etrans|right]. intros Hw. destruct (Ho Hw) as (Hw2 & Hn & Hk).
  destruct (Hb Hw2) as (Hw3 & Hn' & Hk'). split_and!; [done|congruence|]. auto.
Qed.

Lemma ids_hosted {A} (m : eff (world W) A) : respects no_new_ids (hosted m).
Proof. apply (respects_zoom _ (fun _ _ => True)); [by intros ?|done]. Qed.

Lemma ids_mounts {A} (m : eff (MountFds * world W) A) : respects no_new_ids (mounts m).
Proof. intros s. unfold mounts. destruct (mount_fds s); [|done]. by destruct (m _) as [[mf w] r]. Qed.

Lemma ids_modify f : (forall s, no_new_ids s (f s)) -> respects no_new_ids (modify f).
Proof. apply respects_modify. Qed.
#[local] Hint Resolve ids_hosted ids_mounts ids_modify : eff.

Lemma ids_sysc {A} (c : Call A) : respects no_new_ids (sysc c).
Proof. apply ids_hosted. Qed.
#[local] Hint Resolve ids_sysc : eff.

Lemma ids_drop_foh foh : respects no_new_ids (drop_file_or_handle (W := W) checks fs foh).
Proof.
  unfold drop_file_or_handle, guest_file_drop, guest_release, drop_mount_fd. respect. done.
Qed.
#[local] Hint Resolve ids_drop_foh : eff.

Lemma ids_release_data d : respects no_new_ids (release_data (W := W) checks fs d).
Proof. unfold release_data. respect. done. Qed.
#[local] Hint Resolve ids_release_data : eff.

Lemma ids_change_store s st' :
  (store_wf (inodes s) -> store_wf st') -> (forall i, is_Some (data st' !! i) -> known s i) ->
  no_new_ids s (change_store checks fs st' s).1.
Proof.
  intros Hw Hst. unfold change_store, gets, modify, mbind, eff_bind. simpl.
  assert (Hr : respects no_new_ids (each (release_data (W := W) checks fs) (removed (inodes s) st')))
    by respect.
  specialize (Hr (set_inodes st' s)). etrans; [|exact Hr]. intros Hwf. by split; [apply Hw|].
Qed.

Lemma shrunk_keys st st' i : shrunk st st' -> is_Some (data st' !! i) -> is_Some (data st !! i).
Proof. intros Hs [d Hd]. destruct (Hs _ _ Hd) as (? & ? & _). eauto. Qed.

Lemma ids_drop_ref i : respects no_new_ids (drop_ref (W := W) checks fs i).
Proof.
  intros s. apply ids_change_store; [apply store_wf_forget_one|].
  intros j. apply shrunk_keys. by apply shrunk_forget_one.
Qed.
#[local] Hint Resolve ids_drop_ref : eff.

Lemma ids_unpin i : respects no_new_ids (unpin (W := W) checks fs i).
Proof. unfold unpin. respect; done. Qed.
#[local] Hint Resolve ids_unpin : eff.

Lemma ids_count_up s d st' i :
  data (inodes s) !! inode d = Some d -> new_with_data checks (inodes s) d = Ok (st', i) ->
  no_new_ids s (set_inodes st' s).
Proof.
  intros Hd Hn Hw. apply new_with_data_inv in Hn as (_ & _ & rc & Hst & _). simpl in Hst. subst st'.
  split_and!; [eapply store_wf_update; eauto using set_refcount_same_keys|done|].
  intros k. unfold known. simpl. rewrite lookup_insert. case_decide; [|done]. subst. eauto.
Qed.

Lemma ids_strong_ref i : respects no_new_ids (strong_ref (W := W) checks i).
Proof.
  intros s. unfold strong_ref, gets, lift, modify, mbind, eff_bind. simpl.
  destruct (get_strong checks (inodes s) i) as [[st' j]|?|] eqn:Hg; [|done..]. simpl.
  unfold get_strong, store_get in Hg. destruct (data (inodes s) !! i) as [d|] eqn:Hd; [|done].
  intros Hw. simpl in Hg. pose proof (proj1 Hw _ _ Hd). subst i. by eapply ids_count_up.
Qed.

Lemma ids_claim handle ids : respects no_new_ids (claim (W := W) checks handle ids).
Proof.
  intros s. unfold claim, gets, modify, mbind, eff_bind. simpl. intros Hw.
  destruct (claim_inode checks (inodes s) handle ids) as [[st' j]|?|] eqn:Hg; [|done..]. simpl.
  unfold claim_inode in Hg. destruct (find_claimable_wf (inodes s) handle ids Hw) as (o & Ho & Hc).
  rewrite Ho in Hg. simpl in Hg. destruct o as [d|]; [|done]. destruct (Hc d eq_refl) as [Hd _].
  by eapply ids_count_up.
Qed.
#[local] Hint Resolve ids_strong_ref ids_claim : eff.

Lemma ids_info_new p name foh :
  respects no_new_ids (migration_info_new (W := W) checks os fs p name foh).
Proof.
  unfold migration_info_new, migration_info_internal, serializable_handle, name_to_handle_at. respect.
Qed.

Lemma ids_try_lookup_impl p name :
  respects no_new_ids (try_lookup_implementation (W := W) checks os fs p name).
Proof.
  unfold try_lookup_implementation, with_file, get_file, inode_file_drop, openable_open,
    open_by_handle_at, open_relative_to, do_open_relative_to, get_file_handle_opt, name_to_handle_at.
  respect.
Qed.

Lemma ids_lookup_entry parent name fl st i :
  respects no_new_ids (lookup_entry (W := W) checks fs parent name fl st i).
Proof. unfold lookup_entry, dentry_index_insert, update_dentries. respect. done. Qed.
#[local] Hint Resolve ids_info_new ids_try_lookup_impl ids_lookup_entry : eff.

(** *** A new inode *)

Lemma one_bind {A B} (m : IO A) (c : A -> IO B) :
  respects one_new_id m -> (forall a, respects no_new_ids (c a)) -> respects one_new_id (a ← m; c a).
Proof.
  intros Hm Hc s. specialize (Hm s). unfold mbind, eff_bind.
  destruct (m s) as [s1 [a|?|]]; [|done..]. eapply one_before; [exact Hm|apply Hc].
Qed.

Lemma bind_one {A B} (m : IO A) (c : A -> IO B) :
  respects no_new_ids m -> (forall a, respects one_new_id (c a)) -> respects one_new_id (a ← m; c a).
Proof.
  intros Hm Hc s. specialize (Hm s). unfold mbind, eff_bind.
  destruct (m s) as [s1 [a|?|]]; [|by left..]. eapply one_after; [exact Hm|apply Hc].
Qed.

Lemma one_finally {A} (m : IO A) c :
  respects one_new_id m -> respects no_new_ids c -> respects one_new_id (finally m c).
Proof.
  intros Hm Hc s. specialize (Hm s). unfold finally. destruct (m s) as [s1 r]. specialize (Hc s1).
  destruct (c s1) as [s2 rc]. simpl in *. by eapply one_before.
Qed.

Lemma one_none {A} (m : IO A) : respects no_new_ids m -> respects one_new_id m.
Proof. intros Hm s. by left. Qed.

Lemma get_or_insert_keys st d i :
  store_wf st -> is_Some (data (get_or_insert checks st d).1 !! i) ->
  is_Some (data st !! i) \/ i = inode d.
Proof.
  intros Hw. unfold get_or_insert. destruct (claim_inode _ _ _ _) as [[st' j]|?|] eqn:Hc; simpl.
  - apply claim_inode_inv in Hc as (e & [He _] & <- & _ & rc & -> & _); [|done].
    intros Hi. apply (shrunk_keys _ _ _ (shrunk_drop_references _ _)) in Hi. revert Hi. simpl.
    rewrite lookup_insert. case_decide; [|auto]. subst. eauto.
  - case_decide; simpl.
    + intros Hi. left. eapply shrunk_keys, Hi. apply shrunk_drop_references.
    + unfold insert_new. simpl. destruct (data st !! inode d); simpl; [auto|].
      rewrite lookup_insert. case_decide; auto.
  - auto.
Qed.

(** What follows the change of the store. *)
Lemma change_store_then {A} st' (c : IO A) (s : state) :
  respects no_new_ids c -> no_new_ids (set_inodes st' s) ((change_store checks fs st';; c) s).1.
Proof.
  intros Hc.
  assert (Hr : respects no_new_ids
    (each (release_data (W := W) checks fs) (removed (inodes s) st');; c)) by (respect; auto).
  specialize (Hr (set_inodes st' s)). revert Hr.
  unfold change_store, gets, modify, mbind, eff_bind. simpl.
  by destruct (each _ _ (set_inodes st' s)) as [s1 [[]|?|]].
Qed.

Definition only_new (j : Z) (s s' : state) : Prop :=
  store_wf (inodes s') /\ next_inode s' = next_inode s /\
  forall i, known s' i -> known s i \/ i = j.

Lemma store_get_or_insert_ids d s :
  store_wf (inodes s) -> only_new (inode d) s (store_get_or_insert (W := W) checks fs d s).1.
Proof.
  intros Hw. unfold store_get_or_insert, gets, mbind at 1, eff_bind at 1. simpl.
  pose proof (store_wf_get_or_insert checks (inodes s) d Hw) as Hw'.
  pose proof (fun i => get_or_insert_keys (inodes s) d i Hw) as Hk.
  destruct (get_or_insert checks (inodes s) d) as [st' r]. simpl in Hw', Hk.
  match goal with |- context [(change_store checks fs st';; ?c) s] =>
    assert (Hc : respects no_new_ids c) by respect;
    pose proof (change_store_then st' c s Hc) as Hn end.
  destruct (Hn Hw') as (Hw2 & Hn2 & Hk2). split; [exact Hw2|]. split; [exact Hn2|].
  intros i Hi. by apply Hk, Hk2.
Qed.

Lemma one_insert (d : Z -> InodeData) :
  (forall i, inode (d i) = i) ->
  respects one_new_id (i ← new_inode_id; store_get_or_insert (W := W) checks fs (d i)).
Proof.
  intros Hd s. right. intros Hw.
  destruct (store_get_or_insert_ids (d (next_inode s))
              (set_next_inode ((next_inode s + 1) mod 2 ^ 64) s) Hw) as (Hw' & Hn & Hk).
  rewrite Hd in Hk. done.
Qed.

Lemma one_insert_inode parent name st foh :
  respects one_new_id (insert_inode (W := W) checks os fs parent name st foh).
Proof.
  unfold insert_inode. apply bind_one; [respect|]. intros tracked. apply bind_one; [respect|].
  intros mi. by apply one_insert.
Qed.

Lemma one_do_lookup parent name : respects one_new_id (do_lookup (W := W) checks os fs parent name).
Proof.
  unfold do_lookup, with_inode. apply bind_one; [respect|]. intros [p|]; [|apply one_none; respect].
  unfold pin. apply bind_one; [by respect|]. intros _. apply one_finally; [|apply ids_unpin].
  apply bind_one; [respect|]. intros [[[o fd] st] h]. apply bind_one; [respect|]. intros announce.
  destruct o as [i|]; [|destruct h as [h|]].
  - apply one_none. respect.
  - apply one_finally; [|respect]. apply bind_one; [unfold make_file_handle_openable; respect|].
    intros openable. apply one_bind; [apply one_insert_inode|]. respect.
  - apply bind_one; [unfold guest_allocate; respect; done|]. intros _.
    apply one_bind; [apply one_insert_inode|]. respect.
Qed.

Lemma ids_forget i c : 0 <= c -> respects no_new_ids (forget (W := W) checks fs i c).
Proof.
  intros Hc s. unfold forget, gets, mbind at 1, eff_bind at 1. simpl.
  etrans; [|apply change_store_then].
  - intros Hw. split_and!; [by apply store_wf_forget_one|done|].
    intros j. by apply shrunk_keys, shrunk_forget_one.
  - unfold forget_dentries, dentry_index_forget, update_dentries. respect. done.
Qed.

Lemma ids_readdir rounds i h size off :
  respects no_new_ids (readdir (W := W) checks os rounds i h size off).
Proof. unfold readdir, handle_fd, find_handle. respect. Qed.
End Ids.

(** ** Lookups are counted *)

Section Counts.
Context {W M : Type} `{Host W} `{RangeMap M MapEntry}.
Context (checks : bool) (os : HostOs) (fs : Setup M) (rounds : nat).

Local Notation state := (PassthroughFs W).

(** What the guest holds: the count less what migration paths hold. *)
Definition guest_count (s : state) (i : Z) : Z :=
  match data (inodes s) !! i with Some d => refcount d | None => 0 end
  - parents (data (inodes s)) i.

Lemma books_count k (s : state) b i : books checks fs k s b -> guest_count s i = held b i.
Proof.
  intros (_ & Hrc & _). specialize (Hrc i) as [_ Hi]. unfold guest_count.
  destruct (data (inodes s) !! i); lia.
Qed.

(** The books balance, with room for [n] lookups in the counts and IDs. *)
Definition passthrough_ok (n : nat) (s : state) : Prop :=
  (exists b, loose b = 0 /\ books checks fs (3 * Z.of_nat n) s b) /\
  ~ known s 0 /\ 0 < next_inode s /\ next_inode s + Z.of_nat n <= u64_max.

Lemma books_nonneg k (s : state) b : books checks fs k s b -> nonneg b.
Proof. intros (_ & Hrc & _ & _ & Hn & _). split; [intros j; apply Hrc|done]. Qed.

Lemma passthrough_ok_le m n s : (n <= m)%nat -> passthrough_ok m s -> passthrough_ok n s.
Proof.
  intros Hle ((b & Hl & Hb) & H0' & Hn & Hm). split_and!; [|done|done|lia].
  exists b. split; [done|]. eapply books_le, Hb. lia.
Qed.

Lemma passthrough_ok_next n s s' :
  passthrough_ok (S n) s -> one_new_id s s' ->
  ~ known s' 0 /\ 0 < next_inode s' /\ next_inode s' + Z.of_nat n <= u64_max.
Proof.
  intros ((b & _ & (Hw & _)) & H0' & Hn & Hm) [Ho|Ho]; destruct (Ho Hw) as (_ & Hn' & Hk).
  - rewrite Hn'. split_and!; [by intros ?%Hk|done|lia].
  - unfold u64_max in *. rewrite Z.mod_small in Hn' by lia. rewrite Hn'.
    split_and!; [|lia|lia]. intros [?|?]%Hk; [done|lia].
Qed.

Lemma passthrough_lookup n s parent name s' r :
  passthrough_ok (S n) s -> lookup checks os fs parent name s = (s', r) ->
  match r with
  | Ok e => passthrough_ok n s' /\
      forall i, guest_count s' i = guest_count s i + (if decide (i = entry_inode e) then 1 else 0)
  | Err _ => passthrough_ok n s' /\ forall i, guest_count s' i = guest_count s i
  | Panic => True
  end.
Proof.
  intros Hok Hr. pose proof (one_do_lookup checks os fs parent name s) as Hid.
  unfold lookup in Hr. rewrite Hr in Hid. pose proof (passthrough_ok_next n s s' Hok Hid) as Hn.
  destruct Hok as ((b & Hl & Hb) & _).
  replace (3 * Z.of_nat (S n)) with (3 + 3 * Z.of_nat n) in Hb by lia.
  pose proof (spends_do_lookup checks os fs parent name (3 * Z.of_nat n) s b ltac:(lia)
    (books_nonneg _ _ _ Hb) (proj2 (books_nothing _ _ _ _ _) Hb)) as Hs.
  rewrite Hr in Hs. destruct r as [e|err|]; simpl in Hs; [| |done].
  - split; [split; [|done]; eexists; split; [|exact Hs]; simpl; lia|].
    intros i. rewrite (books_count _ _ _ i Hs), (books_count _ _ _ i Hb). simpl.
    rewrite occ_cons, occ_nil. repeat case_decide; subst; lia || done.
  - apply (proj1 (books_nothing _ _ _ _ _)) in Hs. split; [split; [eauto|done]|].
    intros i. by rewrite (books_count _ _ _ i Hs), (books_count _ _ _ i Hb).
Qed.

Lemma forget_dentries_ok i (s : state) :
  exists s', forget_dentries i s = (s', Ok tt) /\ untouched s s' /\ next_inode s' = next_inode s.
Proof.
  unfold forget_dentries, gets, when_, mbind, eff_bind. simpl. case_bool_decide; simpl;
    (eexists; split; [reflexivity|done]).
Qed.

(** FORGET changes the store and succeeds. *)
Lemma forget_runs k s b i c h' :
  books checks fs k s b -> let st' := forget_one (inodes s) i c in
  shrunk (inodes s) st' -> store_wf st' -> rc_inv st' h' ->
  exists s', forget checks fs i c s = (s', Ok tt) /\ next_inode s' = next_inode s /\
    (forall j, known s' j -> known s j) /\
    books checks fs k s' {| held := h'; loose := loose b |}.
Proof.
  intros (Hw & Hrc & Hr & Hs) st' Hsh Hw' Hrc'.
  pose proof (change_store_slots checks fs st' s _ Hw (shrunk_thinned _ _ Hsh) Hs) as Hc.
  assert (Hid := ids_change_store checks fs s st' (fun _ => Hw') (fun j => shrunk_keys _ _ j Hsh)).
  unfold forget, gets, mbind, eff_bind. simpl. fold st'.
  destruct (change_store checks fs st' s) as [s1 [[]|?|]]; [|done..]. destruct Hc as [Hi Hs1].
  destruct (Hid Hw) as (_ & Hn1 & Hk1). simpl in *.
  destruct (forget_dentries_ok i s1) as (s2 & -> & Hu & Hn2). exists s2.
  pose proof Hu as (Hi2 & _). split_and!; [done|congruence| |].
  - intros j Hj. apply Hk1. unfold known in *. by rewrite <- Hi2.
  - eapply books_untouched; [exact Hu|]. unfold books. rewrite Hi. split_and!; try done.
    by eapply shrunk_room.
Qed.

Lemma passthrough_forget n s i c :
  passthrough_ok n s -> 0 <= c <= guest_count s i ->
  exists s', forget checks fs i c s = (s', Ok tt) /\ passthrough_ok n s' /\
    forall j, guest_count s' j = guest_count s j - (if decide (j = i) then c else 0).
Proof.
  intros ((b & Hl & Hb) & H0' & Hn & Hm) Hc. rewrite (books_count _ _ _ i Hb) in Hc.
  pose proof Hb as (Hw & Hrc & _).
  destruct (forget_runs _ s b i c _ Hb (shrunk_forget_one _ i c (proj1 Hc))
    (store_wf_forget_one _ i c Hw) (rc_inv_forget_one _ _ i c Hrc Hc))
    as (s' & Hf & Hn' & Hk' & Hb'). exists s'. split_and!; [done| |].
  - split_and!; [by eexists; split; [|exact Hb']|by intros ?%Hk'|lia..].
  - intros j. rewrite (books_count _ _ _ j Hb'), (books_count _ _ _ j Hb). simpl. case_decide; lia.
Qed.

Lemma passthrough_forget_none n s c :
  passthrough_ok n s ->
  exists s', forget checks fs 0 c s = (s', Ok tt) /\ passthrough_ok n s' /\
    forall j, guest_count s' j = guest_count s j.
Proof.
  intros ((b & Hl & Hb) & H0' & Hn & Hm). pose proof Hb as (Hw & Hrc & _).
  assert (Hst : forget_one (inodes s) 0 c = inodes s).
  { rewrite forget_one_eq. unfold known in H0'. destruct (data (inodes s) !! 0); [|done].
    exfalso. eauto. }
  destruct (forget_runs _ s b 0 c (held b) Hb) as (s' & Hf & Hn' & Hk' & Hb'); rewrite ?Hst; try done.
  exists s'. split_and!; [done| |].
  - split_and!; [by eexists; split; [|exact Hb']|by intros ?%Hk'|lia..].
  - intros j. by rewrite (books_count _ _ _ j Hb'), (books_count _ _ _ j Hb).
Qed.

Lemma passthrough_readdir n s i handle size offset :
  passthrough_ok n s ->
  passthrough_ok n (readdir checks os rounds i handle size offset s).1 /\
  forall j, guest_count (readdir checks os rounds i handle size offset s).1 j = guest_count s j.
Proof.
  intros ((b & Hl & Hb) & H0' & Hn & Hm).
  assert (Hq : respects untouched (readdir (W := W) checks os rounds i handle size offset))
    by (unfold readdir; respect).
  pose proof (Hq s) as Hu. pose proof (ids_readdir checks os rounds i handle size offset s) as Hid.
  destruct (Hid (proj1 Hb)) as (_ & Hn' & Hk').
  pose proof (books_untouched _ _ _ _ _ _ Hu Hb) as Hb'. split.
  - split_and!; [by eexists; split; [|exact Hb']|by intros ?%Hk'|lia..].
  - intros j. by rewrite (books_count _ _ _ j Hb'), (books_count _ _ _ j Hb).
Qed.

#[export] Instance passthrough_counts :
  LookupCounts (PassthroughFs W) ReadDir (H := passthrough_fs checks os fs rounds).
Proof.
  refine {| fs_ok := passthrough_ok; lookup_count := guest_count |}.
  - apply passthrough_ok_le.
  - intros n s ctx parent name s' r. apply passthrough_lookup.
  - intros n s ctx i c Hok Hc. destruct (passthrough_forget n s i c Hok Hc) as (s' & Hf & Hr).
    exists s'. split; [|done]. simpl. unfold no_errors. by rewrite Hf.
  - intros n s ctx c Hok. destruct (passthrough_forget_none n s c Hok) as (s' & Hf & Hr).
    exists s'. split; [|done]. simpl. unfold no_errors. by rewrite Hf.
  - intros n s ctx i handle size offset s' r Hok Hr. cbn [fs_readdir passthrough_fs] in Hr.
    pose proof (passthrough_readdir n s i handle size offset Hok) as Hp. by rewrite Hr in Hp.
  - intros n s i ((b & _ & Hb) & _). rewrite (books_count _ _ _ i Hb). apply (books_nonneg _ _ _ Hb).
Defined.
End Counts.

(** ** Reads *)

(** [preadv] stores no more than it is given room for. *)
Class PreadHost (W : Type) `{Host W} : Prop := {
  preadv_fits fd len off w w' data :
    host_run (SysPreadv fd len off) w = (w', inr data) -> blen data <= len;
}.

Section Reads.
Context {W M : Type} `{PreadHost W} `{RangeMap M MapEntry}.
Context (checks : bool) (os : HostOs) (fs : Setup M) (rounds : nat).

Local Notation state := (PassthroughFs W).

Lemma preadv_inv fd s bufs off s' n :
  xfer (VectoredFile := preadv_file (W := W) fd) s bufs off = (s', Ok n) ->
  blen s'.2 = blen s.2 + n /\ 0 <= n <= total_len bufs.
Proof.
  destruct s as [w stored]. simpl. unfold sys.
  destruct (host_run (SysPreadv fd (total_len bufs) off) (host w)) as [h [e|data]] eqn:Hr; [done|].
  intros [= <- <-]. simpl. rewrite blen_app. apply preadv_fits in Hr.
  pose proof (blen_nonneg data). lia.
Qed.

#[export] Instance preadv_laws fd : VectoredFileLaws (world W * bytes) (H := preadv_file fd).
Proof. split. intros s bufs off s' n Hx. by apply preadv_inv in Hx as [_ ?]. Qed.

(** What a read has moved is what it has stored, and what a write has moved is what the
    calls have returned. *)
#[export] Instance preadv_counted fd : CountedFile (world W * bytes) (H := preadv_file fd).
Proof.
  refine {| moved := fun p : world W * bytes => blen p.2 |}. intros [w stored] bufs off. simpl. unfold sys.
  destruct (host_run (SysPreadv fd (total_len bufs) off) (host w)) as [h [e|data]]; simpl; [done|].
  apply blen_app.
Defined.

Definition event_written (e : event) : Z :=
  match e with
  | Event c r =>
      match c in Call A return outcome_of A -> Z with
      | SysPwritev _ _ _ _ => fun r => match r with inr n => n | inl _ => 0 end
      | _ => fun _ => 0
      end r
  end.

#[export] Instance pwritev_counted fd fl : CountedFile (world W) (H := pwritev_file os fd fl).
Proof.
  refine {| moved := fun w : world W => foldr Z.add 0 (map event_written (history w)) |}.
  intros w bufs off. simpl. unfold sys.
  destruct (host_run (SysPwritev fd (concat bufs) off _) (host w)) as [h r] eqn:Hr. simpl.
  assert (Hs : forall l z, foldr Z.add 0 (l ++ [z]) = foldr Z.add 0 l + z)
    by (induction l as [|x l IH]; intros z; simpl; [lia|rewrite IH; lia]).
  rewrite map_app. destruct r; simpl; rewrite Hs; simpl; lia.
Defined.

Lemma read_reports s i handle w size offset s' w' n :
  chain_ok (w_chain w) -> read (W := W) i handle w size offset s = (s', w', Ok n) ->
  exists data, w_out w' = w_out w ++ data /\ blen data = n /\ (length data <= room w)%nat /\
    (0 <= size -> n <= size).
Proof.
  intros Hok. unfold read. destruct (handle_fd handle i s) as [s1 [fd|e|]]; [|done..].
  unfold zc_transfer.
  destruct (zc_loop _ _ _ _ _) as [[wd stored] [[off' c']|e|]] eqn:Hz; [|done..].
  intros [= <- <- <-]. simpl.
  pose proof (zc_loop_measure (H := preadv_file fd) (fun p => blen p.2) _
    (fun s bufs off s' n Hx => proj1 (preadv_inv fd s bufs off s' n Hx)) _ _ _ _ _ _ _ Hz) as Hm.
  simpl in Hm. exists stored. split; [done|]. split; [rewrite Hm; unfold blen; simpl; lia|].
  destruct (decide (0 <= size)) as [Hs|Hs].
  - apply (zc_loop_bound (H := preadv_file fd)) in Hz as (Hn & Hv & _); [|done..].
    unfold room, blen in *. simpl in Hm. split; [lia|lia].
  - replace (Z.to_nat size) with 0%nat in Hz by lia. cbn [zc_loop] in Hz.
    rewrite (proj2 (Z.eqb_neq size 0)) in Hz by lia. injection Hz as <- <- <- <-.
    split; [simpl; lia|lia].
Qed.

#[export] Instance passthrough_reads :
  ReadContract (PassthroughFs W) ReadDir (H := passthrough_fs checks os fs rounds).
Proof. split. intros s ctx i handle w size offset owner fl s' w' n. apply read_reports. Qed.
End Reads.
