(* ===== verification/ReadOnly.v ===== *)
(** * The read-only share (src/passthrough/read_only.rs)

    [PassthroughFsRo] wraps the passthrough file system and lets no operation through
    that would modify the shared directory.  The theorem at the end says so of the calls
    the daemon makes: whatever the guest asks for, none of them can modify a file system.

    The wrapper has no state of its own; the methods of [SerializableFileSystem] only
    forward. *)

From S2P Require Import Prelude OpenFlags Libc FileHandle InodeStore DentryIndex FuseTypes.
From S2P Require Import FuseWire Descriptor SoftIdMap XattrMap FileSystem Host Credentials ReadDir.
From S2P Require Import Paths MountFds Passthrough Ownership PassthroughOps PassthroughSpec Session.
From S2P Require Import Contract.

(** ** Opening *)

(** What a read-only share does with an open the guest asked for. *)
Inductive ReadOnlyOpen := Open (flags : Z) | OpenExisting (flags : Z).

#[export] Instance ReadOnlyOpen_eq_dec : EqDecision ReadOnlyOpen.
Proof. solve_decision. Defined.

Definition HOST_KEEPS_O_PATH (os : HostOs) : bool :=
  match os with HostLinux _ => true | HostMacos => false end.

Definition read_only_open (flags : Z) (host_keeps_o_path : bool) : io ReadOnlyOpen :=
  if 2 ^ 31 - 1 <? flags then Err (Custom InvalidInput)
  else if host_keeps_o_path && has_any flags linux_O_PATH then Ok (Open flags)
  else if negb (Z.land flags linux_O_ACCMODE =? linux_O_RDONLY) then Err erofs
  else if has_any flags linux_O_EXCL then Err erofs
  else if has_any flags linux___O_TMPFILE then Err einval
  else if has_any flags linux_O_TRUNC then Err einval
  else if negb (has_any flags linux_O_CREAT) then Ok (Open flags)
  else Ok (OpenExisting (Z.ldiff flags linux_O_CREAT)).

(** [.map_err(|err| if err.kind() == NotFound { erofs() } else { err })] *)
Definition missing_is_erofs {S A} (m : eff S A) : eff S A := fun s =>
  match m s with
  | (s', Err e) => (s', Err (if bool_decide (error_kind_of e = NotFound) then erofs else e))
  | r => r
  end.

Section ReadOnly.
Context {W M : Type} `{Host W} `{RangeMap M MapEntry}.
Context (checks : bool) (os : HostOs) (fs : Setup M) (rounds : nat).

Local Notation state := (PassthroughFs W).
Local Notation IO := (eff state).

Definition rofs_open {A} (flags : Z) (open_fn : Z -> IO A) : IO A :=
  o ← lift (read_only_open flags (HOST_KEEPS_O_PATH os));
  match o with
  | Open flags => open_fn flags
  | OpenExisting flags => missing_is_erofs (open_fn flags)
  end.

(** ** The operations *)

Definition ro_open (i : Z) (kill_priv : bool) (fl : Z) : IO (option Z * Z) :=
  rofs_open fl (fun fl => PassthroughOps.open checks os fs i kill_priv fl).

Definition ro_create (parent : Z) (name : bytes) (kill_priv : bool) (fl : Z)
  : IO (Entry * option Z * Z) :=
  entry ← missing_is_erofs (lookup checks os fs parent name);
  '(handle, options) ← ro_open (entry_inode entry) kill_priv fl;
  mret (entry, handle, options).

Definition ro_opendir (i fl : Z) : IO (option Z * Z) :=
  rofs_open fl (fun fl => opendir checks os fs i fl).

Definition ro_access (ctx : Context) (i mask : Z) : IO unit :=
  if has_any mask W_OK then throw erofs else access checks os fs ctx i mask.

(** [ops_forbid!] *)
Definition forbidden {A} (s : state) : state * io A := (s, Err erofs).

(** Methods that are not mentioned are those of the passthrough file system or, for the
    last ones, the defaults of the trait. *)
Definition read_only_fs : FileSystem (PassthroughFs W) ReadDir :=
  let inner := passthrough_fs checks os fs rounds in {|
  dir_next := @dir_next _ _ inner;
  fs_init := @fs_init _ _ inner;
  fs_destroy := @fs_destroy _ _ inner;
  fs_lookup := @fs_lookup _ _ inner;
  fs_forget := @fs_forget _ _ inner;
  fs_batch_forget := @fs_batch_forget _ _ inner;
  fs_getattr := @fs_getattr _ _ inner;
  fs_readlink := @fs_readlink _ _ inner;
  fs_read := @fs_read _ _ inner;
  fs_flush := @fs_flush _ _ inner;
  fs_fsync := @fs_fsync _ _ inner;
  fs_release := @fs_release _ _ inner;
  fs_statfs := @fs_statfs _ _ inner;
  fs_getxattr := @fs_getxattr _ _ inner;
  fs_listxattr := @fs_listxattr _ _ inner;
  fs_readdir := @fs_readdir _ _ inner;
  fs_fsyncdir := @fs_fsyncdir _ _ inner;
  fs_releasedir := @fs_releasedir _ _ inner;
  fs_lseek := @fs_lseek _ _ inner;
  fs_syncfs := @fs_syncfs _ _ inner;
  fs_setattr s _ _ _ _ _ := forbidden s;
  fs_symlink s _ _ _ _ _ := forbidden s;
  fs_mknod s _ _ _ _ _ _ _ := forbidden s;
  fs_mkdir s _ _ _ _ _ _ := forbidden s;
  fs_unlink s _ _ _ := forbidden s;
  fs_rmdir s _ _ _ := forbidden s;
  fs_rename s _ _ _ _ _ _ := forbidden s;
  fs_link s _ _ _ _ := forbidden s;
  fs_write s _ _ _ _ _ _ _ _ _ _ := forbidden s;
  fs_fallocate s _ _ _ _ _ _ := forbidden s;
  fs_setxattr s _ _ _ _ _ _ := forbidden s;
  fs_removexattr s _ _ _ := forbidden s;
  fs_copyfilerange s _ _ _ _ _ _ _ _ _ := forbidden s;
  fs_open s _ i kill_priv fl := ro_open i kill_priv fl s;
  fs_create s _ parent name _ kill_priv fl _ _ := ro_create parent name kill_priv fl s;
  fs_opendir s _ i fl := ro_opendir i fl s;
  fs_access s ctx i mask := ro_access ctx i mask s;
  fs_getlk := @fs_getlk _ _ inner;
  fs_setlk := @fs_setlk _ _ inner;
  fs_setlkw := @fs_setlkw _ _ inner;
  fs_ioctl := @fs_ioctl _ _ inner;
  fs_bmap := @fs_bmap _ _ inner;
  fs_poll := @fs_poll _ _ inner;
  fs_notify_reply := @fs_notify_reply _ _ inner;
  fs_tmpfile := @fs_tmpfile _ _ inner;
|}.
End ReadOnly.

(** ** Calls that can modify a file system *)

(** Flags that open a file for writing, create it or truncate it.  Linux ignores all of
    them when O_PATH is given (open(2)). *)
Definition opens_to_write (os : HostOs) (flags : Z) : bool :=
  negb (HOST_KEEPS_O_PATH os && has_any flags linux_O_PATH) &&
  (has_any flags O_ACCMODE || has_any flags (O_CREAT os) || has_any flags (O_TRUNC os)).

Definition modifies (os : HostOs) {A} (c : Call A) : bool :=
  match c with
  | SysOpenat _ _ flags _ => opens_to_write os flags
  | SysOpenat2 _ _ flags _ _ => opens_to_write os flags
  | SysOpen _ flags => opens_to_write os flags
  | SysOpenByHandleAt _ _ flags => opens_to_write os flags
  | SysUnlinkat _ _ _ | SysMkdirat _ _ _ | SysMknodat _ _ _ _ | SysSymlinkat _ _ _ => true
  | SysLinkat _ _ _ _ _ | SysRenameat _ _ _ _ | SysRenameat2 _ _ _ _ _ => true
  | SysRenameatxNp _ _ _ _ _ => true
  | SysFchmod _ _ | SysFchmodat _ _ _ _ | SysFchown _ _ _ | SysFchownat _ _ _ _ _ => true
  | SysFtruncate _ _ | SysFutimens _ _ _ | SysUtimensat _ _ _ _ _ => true
  | SysFsetxattr _ _ _ _ | SysSetxattr _ _ _ _ | SysFremovexattr _ _ | SysRemovexattr _ _ => true
  | SysFallocate _ _ _ _ | SysPreallocate _ _ _ | SysCopyFileRange _ _ _ _ _ _ => true
  | SysPwrite _ _ _ | SysPwritev _ _ _ _ => true
  | _ => false
  end.

Definition event_modifies (os : HostOs) (e : event) : bool :=
  match e with Event c _ => modifies os c end.

(** The descriptor a call has opened, with the flags it has given. *)
Definition opened {A} (c : Call A) : outcome_of A -> option (Z * Z) :=
  match c in Call A return outcome_of A -> option (Z * Z) with
  | SysOpenat _ _ fl _ | SysOpenat2 _ _ fl _ _ | SysOpen _ fl | SysOpenByHandleAt _ _ fl =>
      fun r => match r with inr fd => Some (fd, fl) | inl _ => None end
  | SysDup _ => fun r => match r with inr fd => Some (fd, 0) | inl _ => None end
  | _ => fun _ => None
  end.

(** The descriptors that stand for a place in the file system only: those that are open
    and that a call with O_PATH has returned. *)
Definition path_fds_step (os : HostOs) (fds : gset Z) (e : event) : gset Z :=
  match e with
  | Event c r =>
      match opened c r with
      | Some (fd, fl) =>
          if HOST_KEEPS_O_PATH os && has_any fl linux_O_PATH then {[fd]} ∪ fds else fds ∖ {[fd]}
      | None => match c with SysClose fd => fds ∖ {[fd]} | _ => fds end
      end
  end.

Definition path_fds (os : HostOs) (h : list event) : gset Z := fold_left (path_fds_step os) h ∅.

(** An attribute of the file behind such a descriptor cannot be removed: the call fails
    with EBADF (open(2), on O_PATH). *)
Definition bound_to_fail (os : HostOs) (name : bytes) (h : list event) (e : event) : Prop :=
  exists fd r, e = Event (SysFremovexattr fd name) r /\ fd ∈ path_fds os h.

Definition harmless (os : HostOs) (cap : option bytes) (h : list event) (e : event) : Prop :=
  event_modifies os e = false \/ exists name, cap = Some name /\ bound_to_fail os name h e.

(** ** What the server can do

    A call of any method, whatever its outcome. *)

Inductive fs_call {F D} `{FileSystem F D} (s : F) : F -> Prop :=
| call_init capable : fs_call s (fs_init s capable).1
| call_destroy : fs_call s (fs_destroy s).1
| call_lookup ctx parent name : fs_call s (fs_lookup s ctx parent name).1
| call_forget ctx i count : fs_call s (fs_forget s ctx i count).1
| call_batch_forget ctx requests : fs_call s (fs_batch_forget s ctx requests).1
| call_getattr ctx i handle : fs_call s (fs_getattr s ctx i handle).1
| call_setattr ctx i attr handle valid : fs_call s (fs_setattr s ctx i attr handle valid).1
| call_readlink ctx i : fs_call s (fs_readlink s ctx i).1
| call_symlink ctx linkname parent name ext : fs_call s (fs_symlink s ctx linkname parent name ext).1
| call_mknod ctx parent name mode rdev umask ext :
    fs_call s (fs_mknod s ctx parent name mode rdev umask ext).1
| call_mkdir ctx parent name mode umask ext : fs_call s (fs_mkdir s ctx parent name mode umask ext).1
| call_unlink ctx parent name : fs_call s (fs_unlink s ctx parent name).1
| call_rmdir ctx parent name : fs_call s (fs_rmdir s ctx parent name).1
| call_rename ctx olddir oldname newdir newname fl :
    fs_call s (fs_rename s ctx olddir oldname newdir newname fl).1
| call_link ctx i newparent newname : fs_call s (fs_link s ctx i newparent newname).1
| call_open ctx i kill_priv fl : fs_call s (fs_open s ctx i kill_priv fl).1
| call_create ctx parent name mode kill_priv fl umask ext :
    fs_call s (fs_create s ctx parent name mode kill_priv fl umask ext).1
| call_read ctx i handle w size offset owner fl :
    fs_call s (fs_read s ctx i handle w size offset owner fl).1.1
| call_write ctx i handle r size offset owner delayed kill_priv fl :
    fs_call s (fs_write s ctx i handle r size offset owner delayed kill_priv fl).1
| call_flush ctx i handle owner : fs_call s (fs_flush s ctx i handle owner).1
| call_fsync ctx i datasync handle : fs_call s (fs_fsync s ctx i datasync handle).1
| call_fallocate ctx i handle mode offset length :
    fs_call s (fs_fallocate s ctx i handle mode offset length).1
| call_release ctx i fl handle flush flock owner :
    fs_call s (fs_release s ctx i fl handle flush flock owner).1
| call_statfs ctx i : fs_call s (fs_statfs s ctx i).1
| call_setxattr ctx i name value fl extra : fs_call s (fs_setxattr s ctx i name value fl extra).1
| call_getxattr ctx i name size : fs_call s (fs_getxattr s ctx i name size).1
| call_listxattr ctx i size : fs_call s (fs_listxattr s ctx i size).1
| call_removexattr ctx i name : fs_call s (fs_removexattr s ctx i name).1
| call_opendir ctx i fl : fs_call s (fs_opendir s ctx i fl).1
| call_readdir ctx i handle size offset : fs_call s (fs_readdir s ctx i handle size offset).1
| call_fsyncdir ctx i datasync handle : fs_call s (fs_fsyncdir s ctx i datasync handle).1
| call_releasedir ctx i fl handle : fs_call s (fs_releasedir s ctx i fl handle).1
| call_access ctx i mask : fs_call s (fs_access s ctx i mask).1
| call_lseek ctx i handle offset whence : fs_call s (fs_lseek s ctx i handle offset whence).1
| call_copyfilerange ctx i_in h_in off_in i_out h_out off_out len fl :
    fs_call s (fs_copyfilerange s ctx i_in h_in off_in i_out h_out off_out len fl).1
| call_syncfs ctx i : fs_call s (fs_syncfs s ctx i).1
| call_getlk : fs_call s (fs_getlk s).1
| call_setlk : fs_call s (fs_setlk s).1
| call_setlkw : fs_call s (fs_setlkw s).1
| call_ioctl : fs_call s (fs_ioctl s).1
| call_bmap : fs_call s (fs_bmap s).1
| call_poll : fs_call s (fs_poll s).1
| call_notify_reply : fs_call s (fs_notify_reply s).1
| call_tmpfile : fs_call s (fs_tmpfile s).1.

(** ** Flags *)

(** The bits of open flags that matter. *)
Definition flag_bits (os : HostOs) : list Z :=
  match os with HostLinux _ => [0; 1; 6; 9; 21] | HostMacos => [0; 1; 9; 10] end.

Lemma has_any_lor f a b : has_any f (Z.lor a b) = has_any f a || has_any f b.
Proof.
  unfold has_any. rewrite Z.land_lor_distr_r.
  destruct (Z.eqb_spec (Z.land f a) 0) as [->|Ha]; [by rewrite Z.lor_0_l|].
  destruct (Z.eqb_spec (Z.lor (Z.land f a) (Z.land f b)) 0) as [Hz|]; [|done].
  by apply Z.lor_eq_0_iff in Hz as [? _].
Qed.

Lemma opens_to_write_bits os f :
  opens_to_write os f =
  match os with
  | HostLinux _ => negb (Z.testbit f 21) &&
      (Z.testbit f 0 || Z.testbit f 1 || Z.testbit f 6 || Z.testbit f 9)
  | HostMacos => Z.testbit f 0 || Z.testbit f 1 || Z.testbit f 9 || Z.testbit f 10
  end.
Proof.
  unfold opens_to_write. change O_ACCMODE with (Z.lor (2 ^ 0) (2 ^ 1)).
  rewrite has_any_lor, !has_any_bit by lia. destruct os; simpl.
  - change linux_O_PATH with (2 ^ 21). change linux_O_CREAT with (2 ^ 6).
    change linux_O_TRUNC with (2 ^ 9). by rewrite !has_any_bit by lia.
  - change darwin_O_CREAT with (2 ^ 9). change darwin_O_TRUNC with (2 ^ 10).
    by rewrite !has_any_bit by lia.
Qed.

(** Changes of flags that leave these bits alone. *)
Definition same_flags (os : HostOs) (f f' : Z) : Prop :=
  Forall (fun k => Z.testbit f' k = Z.testbit f k) (flag_bits os).

Lemma same_flags_opens os f f' :
  same_flags os f f' -> opens_to_write os f = false -> opens_to_write os f' = false.
Proof.
  intros Hs. rewrite !opens_to_write_bits. unfold same_flags in Hs.
  destruct os; simpl in Hs; rewrite !Forall_cons in Hs; destruct_and?; congruence.
Qed.

(** A constant without any of the bits. *)
Definition avoids (os : HostOs) (c : Z) : bool :=
  forallb (fun k => negb (Z.testbit c k)) (flag_bits os).

Lemma avoids_bit os c k : avoids os c = true -> k ∈ flag_bits os -> Z.testbit c k = false.
Proof.
  unfold avoids. rewrite forallb_forall. intros Hc Hk. apply negb_true_iff, Hc.
  by apply list_elem_of_In.
Qed.

Lemma flag_bits_range os k : k ∈ flag_bits os -> 0 <= k < 31.
Proof. destruct os; simpl; rewrite !elem_of_cons, elem_of_nil; lia. Qed.

Lemma same_flags_refl os f : same_flags os f f.
Proof. by apply Forall_true. Qed.

Lemma same_flags_trans os f f' f'' : same_flags os f f' -> same_flags os f' f'' -> same_flags os f f''.
Proof.
  unfold same_flags. rewrite !Forall_forall. intros H1 H2 k Hk. by rewrite H2, H1.
Qed.

Lemma same_flags_lor os f c : avoids os c = true -> same_flags os f (Z.lor f c).
Proof.
  intros Hc. apply Forall_forall. intros k Hk.
  by rewrite Z.lor_spec, (avoids_bit os c k), orb_false_r.
Qed.

Lemma same_flags_ldiff os f c : avoids os c = true -> same_flags os f (Z.ldiff f c).
Proof.
  intros Hc. apply Forall_forall. intros k Hk. pose proof (flag_bits_range _ _ Hk).
  by rewrite Z.ldiff_spec, (avoids_bit os c k), andb_true_r.
Qed.

Lemma same_flags_u32 os f : same_flags os f (as_u32 f).
Proof.
  apply Forall_forall. intros k Hk. pose proof (flag_bits_range _ _ Hk).
  unfold as_u32. apply Z.mod_pow2_bits_low. lia.
Qed.

Lemma as_i32_shift f : exists q, as_i32 f = f + q * 2 ^ 31.
Proof.
  unfold as_i32. pose proof (Z_div_mod_eq_full f (2 ^ 32)) as Hd. revert Hd.
  change (2 ^ 32) with 4294967296. change (2 ^ 31) with 2147483648. intros Hd.
  destruct (_ <? _); [exists (- 2 * (f / 4294967296))|exists (- 2 * (f / 4294967296) - 2)]; lia.
Qed.

Lemma as_i32_bit f k : 0 <= k < 31 -> Z.testbit (as_i32 f) k = Z.testbit f k.
Proof.
  intros Hk. destruct (as_i32_shift f) as [q ->].
  rewrite <- (Z.mod_pow2_bits_low (f + _) 31 k), <- (Z.mod_pow2_bits_low f 31 k) by lia.
  by rewrite Z.mod_add by done.
Qed.

Lemma same_flags_i32 os f : same_flags os f (as_i32 f).
Proof.
  apply Forall_forall. intros k Hk. apply as_i32_bit. by apply flag_bits_range in Hk.
Qed.

(** Flags of a guest that only reads: O_PATH where the host has it, or none of the access
    mode, O_CREAT and O_TRUNC. *)
Definition guest_reads (os : HostOs) (f : Z) : Prop :=
  HOST_KEEPS_O_PATH os = true /\ Z.testbit f 21 = true \/
  Forall (fun k => Z.testbit f k = false) [0; 1; 6; 9].

Lemma read_only_open_reads os f o :
  read_only_open f (HOST_KEEPS_O_PATH os) = Ok o ->
  match o with Open f' | OpenExisting f' => guest_reads os f' end.
Proof.
  unfold read_only_open. destruct (_ <? _); [done|].
  change linux_O_PATH with (2 ^ 21). rewrite has_any_bit by lia.
  destruct (HOST_KEEPS_O_PATH os && Z.testbit f 21) eqn:Hp.
  { intros [= <-]. left. by apply andb_true_iff in Hp. }
  destruct (Z.eqb_spec (Z.land f linux_O_ACCMODE) linux_O_RDONLY) as [Ha|]; [|done]. simpl.
  assert (Hacc : forall k, 0 <= k < 2 -> Z.testbit f k = false).
  { intros k Hk. apply (f_equal (fun z => Z.testbit z k)) in Ha. change linux_O_ACCMODE with (Z.ones 2) in Ha.
    by rewrite Z.land_spec, Z.ones_spec_low, andb_true_r, Z.bits_0 in Ha by lia. }
  destruct (has_any f linux_O_EXCL); [done|]. destruct (has_any f linux___O_TMPFILE); [done|].
  change linux_O_TRUNC with (2 ^ 9). rewrite has_any_bit by lia.
  destruct (Z.testbit f 9) eqn:Ht; [done|]. change linux_O_CREAT with (2 ^ 6). rewrite has_any_bit by lia.
  destruct (Z.testbit f 6) eqn:Hc; intros [= <-]; right; repeat apply Forall_cons_2; try done;
    rewrite ?Z.ldiff_spec, ?Hc, ?Ht, ?Hacc by lia; done.
Qed.

(** A translated open of such a guest does not write. *)
Lemma guest_reads_translated os f g :
  guest_reads os f -> opens_to_write os (flags (translate_linux_open_flags os f g)) = false.
Proof.
  intros Hf. rewrite opens_to_write_bits.
  destruct os as [a|]; cbn [translate_linux_open_flags flags].
  - assert (Hb : forall k, k ∈ flag_bits (HostLinux a) ->
      Z.testbit (linux_to_linux_open_flags f g a) k = Z.testbit f k).
    { intros k Hk. destruct (decide (g = a)) as [->|Hne].
      - unfold linux_to_linux_open_flags. by rewrite bool_decide_eq_true_2.
      - pose proof (flag_bits_range _ _ Hk). rewrite testbit_linux_to_linux by (lia || done).
        simpl in Hk. rewrite !elem_of_cons, elem_of_nil in Hk. by destruct_or!; subst k. }
    rewrite !Hb by set_solver. destruct Hf as [[_ ->]|Hf]; [done|].
    rewrite !Forall_cons in Hf. destruct Hf as (-> & -> & -> & -> & _). apply andb_false_r.
  - destruct Hf as [[? _]|Hf]; [done|]. rewrite !Forall_cons in Hf. destruct Hf as (H0 & H1 & H6 & H9 & _).
    assert (Ha : darwin_access f = 0).
    { unfold darwin_access. replace (Z.land f linux_O_ACCMODE) with 0; [done|]. symmetry.
      change linux_O_ACCMODE with (Z.ones 2). apply Z.bits_inj'. intros k Hk.
      rewrite Z.land_spec, Z.bits_0. destruct (decide (k < 2)).
      - assert (k = 0 \/ k = 1) as [-> | ->] by lia; rewrite ?H0, ?H1; done.
      - rewrite Z.ones_spec_high by lia. apply andb_false_r. }
    rewrite !testbit_linux_to_darwin, Ha. change linux_O_CREAT with (2 ^ 6) in *.
    cbn -[has_all]. change linux_O_CREAT with (2 ^ 6). change linux_O_TRUNC with (2 ^ 9).
    rewrite !(has_all_bit f 6), !(has_all_bit f 9), H6, H9 by lia.
    destruct g; cbn -[has_all]; by rewrite ?andb_false_r.
Qed.

(** [f] with more of the same: the way flags take to the call. *)
Lemma opens_lor os f c :
  avoids os c = true -> opens_to_write os f = false -> opens_to_write os (Z.lor f c) = false.
Proof. intros Hc. by apply same_flags_opens, same_flags_lor. Qed.

Lemma opens_ldiff os f c :
  avoids os c = true -> opens_to_write os f = false -> opens_to_write os (Z.ldiff f c) = false.
Proof. intros Hc. by apply same_flags_opens, same_flags_ldiff. Qed.

Lemma opens_i32 os f : opens_to_write os f = false -> opens_to_write os (as_i32 f) = false.
Proof. apply same_flags_opens, same_flags_i32. Qed.

Lemma opens_u32 os f : opens_to_write os f = false -> opens_to_write os (as_u32 f) = false.
Proof. apply same_flags_opens, same_flags_u32. Qed.

Lemma avoids_constants os :
  avoids os (O_APPEND os) = true /\ avoids os (O_DIRECT os) = true /\
  avoids os (O_CLOEXEC os) = true /\ avoids os (O_NOATIME os) = true /\
  avoids os (O_DIRECTORY os) = true /\ avoids os (O_NOFOLLOW os) = true.
Proof. by destruct os as [[]|]. Qed.

(** Write-back caching widens write-only to read-write, and nothing else. *)
Lemma opens_writeback os f :
  opens_to_write os f = false -> Z.land f O_ACCMODE = O_WRONLY ->
  opens_to_write os (Z.lor (Z.ldiff f O_ACCMODE) O_RDWR) = false.
Proof.
  rewrite !opens_to_write_bits. intros Hf Ha.
  assert (H0 : Z.testbit f 0 = true).
  { apply (f_equal (fun z => Z.testbit z 0)) in Ha. rewrite Z.land_spec in Ha.
    by apply andb_true_iff in Ha as [? _]. }
  rewrite H0 in Hf. destruct os; [|done]. cbn [orb] in Hf.
  rewrite andb_true_r in Hf. apply negb_false_iff in Hf.
  by rewrite Z.lor_spec, Z.ldiff_spec, Hf by lia.
Qed.

Lemma opens_inode_flags {M} os (fs : Setup M) wb f :
  opens_to_write os f = false -> opens_to_write os (open_inode_flags os fs wb f) = false.
Proof.
  destruct (avoids_constants os) as (Happ & Hdir & Hclo & _). intros Hf. unfold open_inode_flags.
  apply opens_lor; [done|].
  assert (Hf1 : opens_to_write os
    (if wb && (Z.land f O_ACCMODE =? O_WRONLY) then Z.lor (Z.ldiff f O_ACCMODE) O_RDWR else f) = false).
  { destruct wb, (Z.eqb_spec (Z.land f O_ACCMODE) O_WRONLY); simpl; try done. by apply opens_writeback. }
  set (f1 := if wb && (Z.land f O_ACCMODE =? O_WRONLY) then _ else f) in *.
  assert (Hf2 : opens_to_write os
    (if wb && has_any f1 (O_APPEND os) then Z.ldiff f1 (O_APPEND os) else f1) = false)
    by (destruct (wb && has_any f1 (O_APPEND os)); [by apply opens_ldiff|done]).
  set (f2 := if wb && has_any f1 (O_APPEND os) then _ else f1) in *.
  destruct (negb _ && has_any f2 (O_DIRECT os)); [by apply opens_ldiff|done].
Qed.

Lemma opens_kept {M} os (fs : Setup M) f :
  opens_to_write os f = false -> opens_to_write os (kept_open_flags os fs f) = false.
Proof.
  destruct (avoids_constants os) as (Happ & _ & _ & Hnoa & _). intros Hf. unfold kept_open_flags.
  destruct (clean_noatime (cfg fs)); repeat (apply opens_ldiff; [done|]); by apply opens_u32.
Qed.

(** ** Computations that make no modifying call

    [cap] is the attribute the capabilities of a file are kept in, where it is not their
    own. *)

Lemma list_singleton_split {A} (x y : A) l k : [x] = l ++ y :: k -> l = [] /\ y = x /\ k = [].
Proof. destruct l as [|? [|? l]]; by intros [=]. Qed.

Definition clean {W} (cap : option bytes) (os : HostOs) (w w' : world W) : Prop :=
  exists evs, history w' = history w ++ evs /\
    forall before e after, evs = before ++ e :: after -> harmless os cap (history w ++ before) e.

#[export] Instance clean_preorder {W} cap os : PreOrder (clean (W := W) cap os).
Proof.
  split; [exists []; rewrite app_nil_r; split; [done|by intros [] ? ?]|].
  intros w1 w2 w3 (e1 & H1 & F1) (e2 & H2 & F2).
  exists (e1 ++ e2). rewrite H2, H1, app_assoc. split; [done|]. intros b e a Hs.
  apply app_eq_app in Hs as [l [[-> Hl]|[-> ->]]].
  - destruct l as [|e' l]; simplify_eq/=.
    + rewrite app_nil_r in *. specialize (F2 [] e a eq_refl). by rewrite app_nil_r, H1 in F2.
    + by eapply F1.
  - rewrite app_assoc, <- H1. by eapply F2.
Qed.

#[local] Hint Extern 1 (modifies _ _ = false) => reflexivity : eff.

Section World.
Context {W : Type} `{Host W} {cap : option bytes}.

Local Notation calm os := (respects (clean (W := W) cap os)).

Lemma calm_sys {A} os (c : Call A) : modifies os c = false -> calm os (sys c).
Proof.
  intros Hc w. unfold sys. destruct (host_run c (host w)) as [h r]. simpl.
  exists [Event c r]. split; [done|]. intros b e a Hs. apply list_singleton_split in Hs as (-> & -> & ->). by left.
Qed.
#[local] Hint Resolve calm_sys : eff.

Lemma calm_raw {A} os (c : Call A) : modifies os c = false -> calm os (raw c).
Proof. intros Hc. unfold raw. respect. Qed.

Lemma calm_close os fd : calm os (close fd).
Proof. unfold close. respect. Qed.

Lemma calm_last_error os : calm os last_os_error.
Proof. unfold last_os_error. respect. Qed.

Lemma calm_statx os fd path : calm os (statx os fd path).
Proof. unfold statx, get_mount_id. respect. Qed.

Lemma calm_openat os dir path fl : opens_to_write os fl = false -> calm os (util_openat dir path fl).
Proof. intros Hf. unfold util_openat. respect. Qed.

Lemma calm_getpath os fd : calm os (getpath_buf os fd).
Proof. unfold getpath_buf. respect. Qed.
#[local] Hint Resolve calm_raw calm_close calm_openat calm_getpath : eff.

Lemma calm_reopen os fd fl p : opens_to_write os fl = false -> calm os (reopen_fd_through_proc os fd fl p).
Proof.
  intros Hf. destruct (avoids_constants os) as (_ & _ & _ & _ & _ & Hn).
  assert (Hl : opens_to_write os (Z.ldiff fl (O_NOFOLLOW os)) = false) by (by apply opens_ldiff).
  unfold reopen_fd_through_proc. destruct os; respect.
Qed.

Lemma calm_get_path os fd p : calm os (get_path_by_fd os fd p).
Proof. unfold get_path_by_fd. respect. Qed.

Lemma calm_drop_cap os name : calm os (drop_effective_cap os name).
Proof. unfold drop_effective_cap, scoped_caps_new. respect. Qed.

Lemma calm_restore_cap os o : calm os (drop_option scoped_caps_drop o).
Proof. unfold drop_option, scoped_caps_drop. respect. Qed.

Lemma calm_new_no_seek os dir buf : calm os (linux_new_no_seek dir buf).
Proof. unfold linux_new_no_seek. respect. Qed.
#[local] Hint Resolve calm_new_no_seek : eff.

Lemma calm_walk os checks fuel dir off buf : calm os (walk_loop checks fuel dir off buf).
Proof. revert buf. induction fuel as [|fuel IH]; intros buf; simpl; respect. Qed.
#[local] Hint Resolve calm_walk : eff.

Lemma calm_chunks os fuel dir acc : calm os (read_chunks fuel dir acc).
Proof. revert acc. induction fuel as [|fuel IH]; intros acc; simpl; respect. Qed.
#[local] Hint Resolve calm_chunks : eff.

Lemma calm_readdir os checks fuel dir off size : calm os (readdir_new checks os fuel dir off size).
Proof.
  unfold readdir_new, linux_readdir_new, new_walk_to, mac_readdir_new, mac_new_no_seek. respect.
Qed.
End World.
#[export] Hint Resolve calm_sys calm_raw calm_close calm_last_error calm_statx calm_getpath
  calm_get_path calm_drop_cap calm_restore_cap calm_readdir : eff.

(** Flags the daemon itself opens files with. *)
Lemma opens_path os : opens_to_write os (O_PATH_OR_RDONLY os) = false.
Proof. by destruct os. Qed.

Lemma opens_rdonly os : opens_to_write os O_RDONLY = false.
Proof. by destruct os. Qed.

#[local] Hint Resolve opens_path opens_rdonly : eff.

(** *** Mount descriptors *)

Definition mounts_clean {W} (cap : option bytes) (os : HostOs) (s s' : MountFds * world W) : Prop :=
  clean cap os s.2 s'.2.

Section Mounts.
Context {W : Type} `{Host W} {cap : option bytes}.

#[local] Instance mounts_clean_preorder os : PreOrder (mounts_clean (W := W) cap os).
Proof. split; [intros ?; unfold mounts_clean; reflexivity|]. intros ???. unfold mounts_clean. apply transitivity. Qed.

Local Notation calm os := (respects (mounts_clean (W := W) cap os)).

Lemma calm_on_world {A} os (m : eff (world W) A) : respects (clean cap os) m -> calm os (on_world m).
Proof. intros Hm. by apply (respects_zoom _ (clean cap os)). Qed.

Lemma calm_mount_modify os f : (forall s : MountFds * world W, (f s).2 = s.2) -> calm os (modify f).
Proof. intros Hf. apply respects_modify. intros s. unfold mounts_clean. rewrite Hf. reflexivity. Qed.
#[local] Hint Resolve calm_on_world calm_mount_modify : eff.

Lemma calm_error_nolookup os id : calm os (error_for_nolookup id).
Proof. unfold error_for_nolookup. respect. Qed.
#[local] Hint Resolve calm_error_nolookup : eff.

Lemma calm_mount_root os id : calm os (get_mount_root id).
Proof. unfold get_mount_root. respect. apply calm_on_world. respect. Qed.
#[local] Hint Resolve calm_mount_root : eff.

Lemma calm_error_for os id : calm os (error_for id).
Proof. unfold error_for. respect. Qed.
#[local] Hint Resolve calm_error_for : eff.

Lemma calm_or_error {A} os id (m : eff (MountFds * world W) A) : calm os m -> calm os (or_error_for id m).
Proof. intros Hm. unfold or_error_for. respect. Qed.

Lemma calm_open_mount os reopen id p :
  (forall fd fl, opens_to_write os fl = false -> calm os (reopen fd fl)) ->
  calm os (open_mount os reopen id p).
Proof.
  intros Hr. unfold open_mount. respect; apply calm_or_error; respect.
  apply Hr. by destruct os as [[]|].
Qed.

Lemma calm_mount_get os reopen id :
  (forall fd fl, opens_to_write os fl = false -> calm os (reopen fd fl)) ->
  calm os (mount_fds_get os reopen id).
Proof.
  intros Hr. unfold mount_fds_get. respect; [apply calm_or_error; respect..|].
  by apply calm_open_mount.
Qed.

Lemma calm_mount_drop os mfd : calm os (mount_fd_drop mfd).
Proof. unfold mount_fd_drop. respect. Qed.
End Mounts.

(** *** The file system *)

Definition cleans {W} (cap : option bytes) (os : HostOs) (s s' : PassthroughFs W) : Prop :=
  clean cap os (fs_world s) (fs_world s').

#[local] Instance cleans_preorder {W} cap os : PreOrder (cleans (W := W) cap os).
Proof.
  split; [intros ?; unfold cleans; reflexivity|]. intros ???. unfold cleans. apply transitivity.
Qed.

Section Calm.
Context {W M : Type} `{Host W} `{RangeMap M MapEntry}.
Context (checks : bool) (fs : Setup M).

Local Notation state := (PassthroughFs W).
Local Notation IO := (eff state).
Local Notation cap := (xattr_security_capability (cfg fs)).
Local Notation calm os := (respects (cleans (W := W) cap os)).

Lemma calm_hosted {A} os (m : eff (world W) A) : respects (clean cap os) m -> calm os (hosted m).
Proof. intros Hm. by apply (respects_zoom _ (clean cap os)). Qed.

Lemma calm_sysc {A} os (c : Call A) : modifies os c = false -> calm os (sysc c).
Proof. intros Hc. apply calm_hosted. by apply calm_sys. Qed.

Lemma calm_mounts {A} os (m : eff (MountFds * world W) A) :
  respects (mounts_clean cap os) m -> calm os (mounts m).
Proof.
  intros Hm s. unfold mounts. destruct (mount_fds s) as [mf|]; [|reflexivity].
  specialize (Hm (mf, fs_world s)). by destruct (m _) as [[mf' w] r].
Qed.

Lemma calm_modify os (f : state -> state) : (forall s, fs_world (f s) = fs_world s) -> calm os (modify f).
Proof. intros Hf. apply respects_modify. intros s. unfold cleans. rewrite Hf. reflexivity. Qed.
#[local] Hint Resolve calm_hosted calm_sysc calm_mounts calm_modify calm_mount_drop calm_error_for : eff.
#[local] Hint Extern 1 (forall s, fs_world _ = fs_world s) => reflexivity : eff.

Lemma calm_check_last {A} os (r : option A) : calm os (check_last r).
Proof. unfold check_last. respect. Qed.

Lemma calm_allocate os fd : calm os (guest_allocate fd).
Proof. unfold guest_allocate. respect. Qed.

Lemma calm_file_drop os fd : calm os (guest_file_drop checks fs fd).
Proof. unfold guest_file_drop, guest_release. respect. Qed.
#[local] Hint Resolve calm_file_drop : eff.

Lemma calm_drop_foh os foh : calm os (drop_file_or_handle checks fs foh).
Proof. unfold drop_file_or_handle, drop_mount_fd. respect. Qed.
#[local] Hint Resolve calm_drop_foh : eff.

Lemma calm_change_store os st' : calm os (change_store checks fs st').
Proof. unfold change_store, release_data. respect. Qed.
#[local] Hint Resolve calm_change_store : eff.

Lemma calm_drop_ref os i : calm os (drop_ref checks fs i).
Proof. unfold drop_ref. respect. Qed.

Lemma calm_with_inode {A} os i (k : InodeData -> IO A) :
  (forall d, calm os (k d)) -> calm os (with_inode checks fs i k).
Proof. intros Hk. unfold with_inode, pin, unpin. respect. Qed.

Lemma calm_strong_ref os i : calm os (strong_ref checks i).
Proof. unfold strong_ref. respect. Qed.

Lemma calm_openable_open os h fl : opens_to_write os fl = false -> calm os (openable_open os h fl).
Proof. intros Hf. unfold openable_open, open_by_handle_at. destruct os; respect. Qed.
#[local] Hint Resolve calm_check_last calm_allocate calm_drop_ref calm_strong_ref calm_openable_open : eff.

Lemma calm_get_file os d : calm os (get_file os d).
Proof. unfold get_file. respect. Qed.

Lemma calm_inode_file_drop os f : calm os (inode_file_drop f).
Proof. unfold inode_file_drop. respect. Qed.
#[local] Hint Resolve calm_get_file calm_inode_file_drop : eff.

Lemma calm_with_file {A} os d (k : Z -> IO A) : (forall fd, calm os (k fd)) -> calm os (with_file os d k).
Proof. intros Hk. unfold with_file. respect. Qed.

Lemma calm_open_file os d fl : opens_to_write os fl = false -> calm os (open_file os fs d fl).
Proof. intros Hf. unfold open_file. respect. apply calm_hosted. by apply calm_reopen. Qed.

Lemma calm_open_inode os d fl : opens_to_write os fl = false -> calm os (open_inode os fs d fl).
Proof. intros Hf. unfold open_inode. respect. by apply calm_open_file, opens_inode_flags. Qed.

Lemma calm_in_proc {A} os (m : IO A) : calm os m -> calm os (in_proc_self_fd fs m).
Proof. intros Hm. unfold in_proc_self_fd. respect. Qed.

Lemma calm_find_handle os h i : calm os (find_handle h i).
Proof. unfold find_handle. respect. Qed.

Lemma calm_dentries os f : calm os (update_dentries f).
Proof. unfold update_dentries. respect. Qed.

Lemma calm_open_relative os dir p mode :
  calm os (open_relative_to os fs dir p (O_PATH_OR_RDONLY os) mode).
Proof.
  unfold open_relative_to, do_open_relative_to. destruct os as [[]|]; respect.
Qed.

Lemma calm_name_to_handle os dir p : calm os (name_to_handle_at os dir p).
Proof. unfold name_to_handle_at. respect. Qed.
#[local] Hint Resolve calm_find_handle calm_dentries calm_open_relative calm_name_to_handle : eff.

Lemma calm_handle_opt os fd st : calm os (get_file_handle_opt os fs fd st).
Proof. unfold get_file_handle_opt. respect. Qed.

Lemma calm_openable os fh : calm os (make_file_handle_openable os fs fh).
Proof.
  unfold make_file_handle_openable. respect. apply calm_mounts, calm_mount_get.
  intros fd fl Hf. apply calm_on_world. by apply calm_reopen.
Qed.
#[local] Hint Resolve calm_handle_opt calm_openable : eff.

Lemma calm_info_internal os l foh : calm os (migration_info_internal os fs l foh).
Proof. unfold migration_info_internal, serializable_handle. respect. Qed.
#[local] Hint Resolve calm_info_internal : eff.

Lemma calm_info_new os p name foh : calm os (migration_info_new checks os fs p name foh).
Proof. unfold migration_info_new, serializable_handle. respect. Qed.
#[local] Hint Resolve calm_info_new : eff.

Lemma calm_try_lookup os p name : calm os (try_lookup_implementation checks os fs p name).
Proof.
  unfold try_lookup_implementation, claim. apply calm_with_file. respect.
Qed.
#[local] Hint Resolve calm_try_lookup : eff.

Lemma calm_insert_inode os parent name st foh : calm os (insert_inode checks os fs parent name st foh).
Proof. unfold insert_inode, new_inode_id, store_get_or_insert. respect. Qed.
#[local] Hint Resolve calm_insert_inode : eff.

Lemma calm_do_lookup os parent name : calm os (do_lookup checks os fs parent name).
Proof.
  unfold do_lookup, lookup_entry, dentry_index_insert. apply calm_with_inode. respect.
Qed.
End Calm.

(** *** Transfers *)

Lemma zc_transfer_respects {S} `{VectoredFile S} (R : S -> S -> Prop) `{!PreOrder R} s c count off :
  (forall s bufs off, R s (xfer s bufs off).1) -> R s (zc_transfer s c count off).1.
Proof.
  intros Hx. assert (Hl : forall fuel s c count off, R s (zc_loop fuel s c count off).1).
  { induction fuel as [|fuel IH]; intros s0 c0 n o; cbn [zc_loop]; (destruct (n =? 0); [reflexivity|]);
      [reflexivity|].
    assert (Ht : R s0 (transfer_at s0 c0 n o).1).
    { unfold transfer_at. destruct (select_bufs (buffers c0) n 0) as [|b bufs]; [reflexivity|].
      assert (Hv : R s0 (vectored_at_volatile s0 (b :: bufs) o).1)
        by (unfold vectored_at_volatile; destruct (_ <=? _); [apply Hx|reflexivity]).
      by destruct (vectored_at_volatile s0 (b :: bufs) o). }
    destruct (transfer_at s0 c0 n o) as [s1 [[m c1]|e|]]; [|done..]. simpl in Ht.
    destruct (m =? 0); [done|]. destruct (checked_add _ _ _); [|done].
    destruct (checked_sub _ _); [|done]. etrans; [done|]. apply IH. }
  unfold zc_transfer. specialize (Hl (Z.to_nat count) s c count off).
  by destruct (zc_loop _ _ _ _ _) as [s1 [[m c1]|e|]].
Qed.

Section Operations.
Context {W M : Type} `{Host W} `{RangeMap M MapEntry}.
Context (checks : bool) (fs : Setup M) (rounds : nat).

Local Notation state := (PassthroughFs W).
Local Notation IO := (eff state).
Local Notation cap := (xattr_security_capability (cfg fs)).
Local Notation calm os := (respects (cleans (W := W) cap os)).

#[local] Hint Resolve calm_hosted calm_sysc calm_mounts calm_modify calm_check_last calm_allocate
  calm_file_drop calm_drop_foh calm_change_store calm_drop_ref calm_find_handle calm_dentries
  calm_handle_opt calm_openable calm_info_internal calm_do_lookup : eff.
#[local] Hint Extern 1 (forall s, fs_world _ = fs_world s) => reflexivity : eff.

Lemma calm_drop_handle os hd : calm os (drop_handle checks fs hd).
Proof. unfold drop_handle. respect. Qed.
#[local] Hint Resolve calm_drop_handle : eff.

Lemma calm_destroy os : calm os (destroy checks fs).
Proof. unfold destroy. respect. Qed.

Lemma calm_insert_root os st foh : calm os (insert_root checks os fs st foh).
Proof. unfold insert_root, migration_info_new_root. respect. Qed.
#[local] Hint Resolve calm_destroy calm_insert_root : eff.

Lemma calm_init os capable : calm os (init checks os fs capable).
Proof.
  unfold init, open_root_node, negotiate_options, change_opts. respect.
  apply calm_hosted, calm_openat. by destruct os as [[]|].
Qed.

Lemma calm_forget os i count : calm os (forget checks fs i count).
Proof. unfold forget, forget_dentries, dentry_index_forget. respect. Qed.

Lemma calm_batch_forget os l : calm os (batch_forget checks fs l).
Proof. unfold batch_forget, forget_dentries, dentry_index_forget. respect. Qed.

Lemma calm_release os i handle : calm os (release checks fs i handle).
Proof. unfold release, do_release. respect. Qed.

Lemma calm_getattr os i : calm os (getattr checks os fs i).
Proof. unfold getattr, do_getattr. apply calm_with_inode. intros d. apply calm_with_file. respect. Qed.

Lemma calm_statfs os i : calm os (statfs checks os fs i).
Proof. unfold statfs. apply calm_with_inode. intros d. apply calm_with_file. respect. Qed.

Lemma calm_readlink os i : calm os (readlink checks os fs i).
Proof. unfold readlink. apply calm_with_inode. intros d. apply calm_with_file. respect. Qed.

Lemma calm_access os ctx i mask : calm os (access checks os fs ctx i mask).
Proof. unfold access. apply calm_with_inode. intros d. apply calm_with_file. respect. Qed.

Lemma calm_handle_fd os handle i : calm os (handle_fd handle i).
Proof. unfold handle_fd. respect. Qed.
#[local] Hint Resolve calm_handle_fd : eff.

Lemma calm_readdir_op os i handle size off : calm os (readdir checks os rounds i handle size off).
Proof. unfold readdir. respect. Qed.

Lemma calm_flush os i handle : calm os (flush i handle).
Proof. unfold flush. respect. Qed.

Lemma calm_fsync os i datasync handle : calm os (fsync i datasync handle).
Proof. unfold fsync. respect. apply calm_sysc. by destruct datasync. Qed.

Lemma calm_lseek os i handle off whence : calm os (lseek os i handle off whence).
Proof. unfold lseek. respect. Qed.

Lemma calm_syncfs os i : calm os (syncfs checks os fs i).
Proof.
  unfold syncfs. apply calm_with_inode. respect.
  - apply calm_open_inode. by destruct os as [[]|].
  - apply calm_sysc. by destruct os.
Qed.

Lemma calm_block os name : calm os (block_xattr name).
Proof. unfold block_xattr. respect. Qed.
#[local] Hint Resolve calm_block : eff.

Lemma calm_client_name os name : calm os (map_client_xattrname os fs name).
Proof. unfold map_client_xattrname. respect. Qed.

Lemma calm_filter os names : calm os (filter_blocked names).
Proof. induction names as [|x l IH]; simpl; respect. Qed.
#[local] Hint Resolve calm_filter : eff.

Lemma calm_server_list os names : calm os (PassthroughOps.map_server_xattrlist fs names).
Proof. unfold PassthroughOps.map_server_xattrlist. respect. Qed.
#[local] Hint Resolve calm_client_name calm_server_list : eff.

Lemma calm_on_xattrs {A} os d (safe other : Z -> IO (option A)) :
  (forall fd, calm os (safe fd)) -> (forall fd, calm os (other fd)) ->
  calm os (on_xattrs os fs d safe other).
Proof.
  intros Hs Ho. unfold on_xattrs. respect; [|by apply calm_with_file].
  apply calm_open_inode. by destruct os as [[]|].
Qed.

Lemma calm_getxattr os i name size : calm os (getxattr checks os fs i name size).
Proof.
  unfold getxattr. respect. apply calm_with_inode. respect.
  apply calm_on_xattrs; [respect|]. intros fd. apply calm_in_proc. respect.
Qed.

Lemma calm_listxattr os i size : calm os (listxattr checks os fs i size).
Proof.
  unfold listxattr. respect. apply calm_with_inode. respect.
  apply calm_on_xattrs; [respect|]. intros fd. apply calm_in_proc. respect.
Qed.

Lemma calm_read os i handle w size off s : cleans cap os s (read i handle w size off s).1.1.
Proof.
  unfold read. pose proof (calm_handle_fd os handle i s) as Hf.
  destruct (handle_fd handle i s) as [s1 [fd|e|]]; [|done..]. simpl in Hf.
  assert (PreOrder (fun a b : world W * bytes => clean cap os a.1 b.1))
    by (split; [intros ?; reflexivity|intros ???; apply transitivity]).
  pose proof (zc_transfer_respects (H := preadv_file fd) (fun a b => clean cap os a.1 b.1)
    (fs_world s1, []) (w_chain w) size off) as Hz.
  destruct (zc_transfer _ _ _ _) as [[wd stored] r]. simpl.
  etrans; [exact Hf|]. apply Hz. intros [wd' st'] bufs o. simpl.
  pose proof (calm_sys (cap := xattr_security_capability (cfg fs)) os (SysPreadv fd (total_len bufs) o) eq_refl wd') as Hp.
  destruct (sys _ wd') as [w1 [data|e|]]; done.
Qed.

(** *** Truncating

    It clears the capabilities of a file.  Flags that do not open the file to write ask
    for it only together with O_PATH, and then on a descriptor of that kind. *)

Local Notation paths os s := (path_fds os (history (fs_world s))).

Lemma path_fds_snoc os h e : path_fds os (h ++ [e]) = path_fds_step os (path_fds os h) e.
Proof. unfold path_fds. by rewrite fold_left_app. Qed.

Lemma truncates_path os fl :
  opens_to_write os fl = false -> has_any fl (O_TRUNC os) = true ->
  exists a, os = HostLinux a /\ Z.testbit fl 21 = true.
Proof.
  rewrite opens_to_write_bits. destruct os as [a|]; simpl O_TRUNC.
  - change linux_O_TRUNC with (2 ^ 9). rewrite has_any_bit by lia. intros Hf Ht.
    exists a. rewrite Ht, orb_true_r, andb_true_r in Hf. by apply negb_false_iff in Hf.
  - change darwin_O_TRUNC with (2 ^ 10). rewrite has_any_bit by lia. intros Hf Ht.
    by rewrite Ht, orb_true_r in Hf.
Qed.

Lemma path_flag fl : Z.testbit fl 21 = true -> has_any fl linux_O_PATH = true.
Proof. change linux_O_PATH with (2 ^ 21). by rewrite has_any_bit by lia. Qed.

Lemma bit21_inode_flags a wb fl :
  Z.testbit fl 21 = true -> Z.testbit (open_inode_flags (HostLinux a) fs wb fl) 21 = true.
Proof.
  intros Hf. unfold open_inode_flags. cbv zeta.
  repeat match goal with |- context [if ?b then _ else _] => destruct b end;
    repeat first [rewrite Z.lor_spec|rewrite Z.ldiff_spec by lia]; rewrite Hf; by destruct a.
Qed.

(** What an open with O_PATH returns. *)
Lemma open_inode_path a d fl s s' fd :
  Z.testbit fl 21 = true -> open_inode (HostLinux a) fs d fl s = (s', Ok fd) ->
  fd ∈ paths (HostLinux a) s'.
Proof.
  intros Hf. unfold open_inode, gets, mbind at 1, eff_bind.
  set (fl' := open_inode_flags _ _ _ _).
  assert (Hf' : Z.testbit fl' 21 = true) by (by apply bit21_inode_flags).
  assert (Hn : has_any (Z.ldiff fl' (O_NOFOLLOW (HostLinux a))) linux_O_PATH = true).
  { apply path_flag. rewrite Z.ldiff_spec, Hf' by lia. by destruct a. }
  apply path_flag in Hf'. clearbody fl'. unfold open_file. destruct (file_or_handle d).
  all: try (destruct (negb _); [done|]).
  - unfold hosted, zoom, reopen_fd_through_proc, util_openat, lift, mbind, eff_bind, sys.
    destruct (ok_or (cstring_of _) _) as [name|e|]; [|done..].
    match goal with |- context [host_run ?c ?w] => destruct (host_run c w) as [h' [e|fd']] end; [done|].
    intros [<- [= <-]]%pair_eq. cbn [fs_world set_fs_world history].
    rewrite path_fds_snoc. cbn [path_fds_step opened HOST_KEEPS_O_PATH andb]. rewrite Hn. set_solver.
  - unfold openable_open, open_by_handle_at, sysc, hosted, zoom, sys. simpl.
    match goal with |- context [host_run ?c ?w] => destruct (host_run c w) as [h' [e|fd']] end; [done|].
    intros [<- [= <-]]%pair_eq. cbn [fs_world set_fs_world history].
    rewrite path_fds_snoc. cbn [path_fds_step opened HOST_KEEPS_O_PATH andb]. rewrite Hf'. set_solver.
  - done.
Qed.

(** Dropping and restoring a capability opens and closes nothing. *)
Definition keeps_paths os (w w' : world W) : Prop :=
  path_fds os (history w') = path_fds os (history w).

#[local] Instance keeps_paths_preorder os : PreOrder (keeps_paths os).
Proof. split; [by intros ?|]. intros ??? H1 H2. unfold keeps_paths in *. congruence. Qed.

Lemma keeps_paths_sys {A} os (c : Call A) :
  (forall fds r, path_fds_step os fds (Event c r) = fds) -> respects (keeps_paths os) (sys c).
Proof.
  intros Hc w. unfold sys. destruct (host_run c (host w)) as [h r]. unfold keeps_paths. simpl.
  by rewrite path_fds_snoc.
Qed.
#[local] Hint Resolve keeps_paths_sys : eff.
#[local] Hint Extern 1 (forall fds r, path_fds_step _ fds _ = fds) => reflexivity : eff.

Lemma killing_priv_path a d kill fl s s' fd :
  Z.testbit fl 21 = true ->
  killing_priv (HostLinux a) kill (open_inode (HostLinux a) fs d fl) s = (s', Ok fd) ->
  fd ∈ paths (HostLinux a) s'.
Proof.
  intros Hf. unfold killing_priv. destruct kill; [|by apply open_inode_path].
  unfold mbind, eff_bind. destruct (hosted _ s) as [s1 [guard|e|]]; [|done..].
  unfold finally. destruct (open_inode _ fs d fl s1) as [s2 [fd'|e|]] eqn:Ho.
  2,3: by destruct (hosted _ s2) as [? []].
  apply open_inode_path in Ho; [|done].
  assert (Hk : respects (keeps_paths (HostLinux a)) (drop_option scoped_caps_drop guard))
    by (unfold drop_option, scoped_caps_drop; respect).
  specialize (Hk (fs_world s2)). unfold hosted, zoom.
  destruct (drop_option _ guard (fs_world s2)) as [w rc]. unfold keeps_paths in Hk. simpl in Hk.
  destruct rc; intros [= <- <-]; simpl; by rewrite Hk.
Qed.

(** The attempt to remove the attribute. *)
Lemma calm_clear_path os fd file_type s :
  fd ∈ paths os s -> cleans cap os s (clear_file_capabilities os fs fd file_type false s).1.
Proof.
  intros Hp. unfold clear_file_capabilities. destruct cap as [name|] eqn:Hc; [|reflexivity].
  destruct (negb _); [reflexivity|].
  assert (Hr : cleans (Some name) os s (hosted (raw (SysFremovexattr fd name)) s).1).
  { unfold hosted, zoom, raw, mbind, eff_bind, attempt, sys.
    destruct (host_run (SysFremovexattr fd name) (host (fs_world s))) as [h r].
    assert (Hg : clean (Some name) os (fs_world s)
      {| host := h; history := history (fs_world s) ++ [Event (SysFremovexattr fd name) r] |}).
    { exists [Event (SysFremovexattr fd name) r]. split; [done|]. intros b e a Hs.
      apply list_singleton_split in Hs as (-> & -> & ->). right. exists name. split; [done|].
      exists fd, r. by rewrite app_nil_r. }
    destruct r; exact Hg. }
  set (m := hosted (raw _)) in *. unfold mbind, eff_bind.
  destruct (m s) as [s1 [res|e|]]; [|done..]. etrans; [exact Hr|].
  assert (Hk : calm os (match res with
    | Some _ => mret tt
    | None => eno ← hosted last_os_error;
        if bool_decide (raw_os_error eno = Some (host_ENODATA os) \/ raw_os_error eno = Some (host_ENOTSUP os))
        then mret tt else throw eno
    end)) by respect.
  rewrite Hc in Hk. apply (Hk s1).
Qed.

Lemma calm_truncated os d kill fl nc :
  opens_to_write os fl = false ->
  calm os (file ← killing_priv os kill (open_inode os fs d (as_i32 fl));
    on_failure
      (apply_nocache os fs file (is_regular_file (file_type_from_mode (mode d))) nc;;
       when_ (has_any fl (O_TRUNC os))
         (clear_file_capabilities os fs file (file_type_from_mode (mode d)) false))
      (hosted (close file));;
    mret file).
Proof.
  intros Hf. assert (Ho : calm os (open_inode os fs d (as_i32 fl))) by (by apply calm_open_inode, opens_i32).
  assert (Hk : calm os (killing_priv os kill (open_inode os fs d (as_i32 fl))))
    by (unfold killing_priv; respect).
  destruct (has_any fl (O_TRUNC os)) eqn:Ht; cbn [when_].
  2: { apply respects_bind; [exact _|done|]. intros file. unfold apply_nocache. respect. }
  destruct (truncates_path os fl Hf Ht) as (a & -> & Hb).
  intros s. specialize (Hk s). unfold mbind at 1, eff_bind at 1.
  destruct (killing_priv _ kill _ s) as [s1 [fd|e|]] eqn:Hm; [|done..]. etrans; [exact Hk|].
  apply killing_priv_path in Hm; [|by rewrite as_i32_bit by lia].
  pose proof (calm_clear_path (HostLinux a) fd (file_type_from_mode (mode d)) s1 Hm) as Hcl.
  assert (Hclose : calm (HostLinux a) (hosted (close fd))) by respect.
  unfold mbind, eff_bind, on_failure, apply_nocache. cbn [mret eff_ret].
  destruct (clear_file_capabilities _ _ fd _ _ s1) as [s2 [[]|e|]]; [done| |];
    simpl in Hcl; specialize (Hclose s2); destruct (hosted (close fd) s2) as [s3 [[]|e'|]];
    simpl in *; by etrans.
Qed.

Lemma calm_do_open os i kill_priv hf :
  opens_to_write os (flags hf) = false -> calm os (do_open checks os fs i kill_priv hf).
Proof.
  intros Hf. apply (opens_kept os fs) in Hf. unfold do_open. apply calm_with_inode. intros d s.
  pose proof (calm_truncated os d (killpriv_v2 (cfg fs) && kill_priv) _ (nocache hf) Hf s) as Ht.
  revert Ht. unfold mbind, eff_bind.
  destruct (killing_priv _ _ _ s) as [s1 [fd|e|]]; [|done..].
  destruct (on_failure _ _ s1) as [s2 [[]|e|]]; [|done..]. intros Ht. simpl in Ht. etrans; [exact Ht|].
  assert (Hh : calm os (hand_out checks os fs i fd (file_type_from_mode (mode d))
    (as_i32 (kept_open_flags os fs (flags hf))))) by (unfold hand_out, new_handle, insert_handle; respect).
  specialize (Hh s2). by destruct (hand_out _ _ _ _ _ _ _ s2) as [s3 [h|e|]].
Qed.

(** ** The wrapper *)

Lemma calm_missing {A} os (m : IO A) : calm os m -> calm os (missing_is_erofs m).
Proof. intros Hm s. specialize (Hm s). unfold missing_is_erofs. by destruct (m s) as [s' [a|e|]]. Qed.

Lemma calm_rofs_open {A} os fl (open_fn : Z -> IO A) :
  (forall fl', guest_reads os fl' -> calm os (open_fn fl')) -> calm os (rofs_open os fl open_fn).
Proof.
  intros Ho. unfold rofs_open, lift, mbind, eff_bind. intros s.
  destruct (read_only_open fl (HOST_KEEPS_O_PATH os)) as [o|e|] eqn:Hr; [|reflexivity..].
  apply read_only_open_reads in Hr. destruct o; [by apply Ho|]. by apply calm_missing, Ho.
Qed.

Lemma guest_reads_flags os fl :
  guest_reads os fl -> opens_to_write os (flags (guest_open_flags os fs fl)) = false.
Proof.
  intros Hf. apply guest_reads_translated. destruct Hf as [[Hk Hp]|Hf]; [left|right].
  - by rewrite as_i32_bit by lia.
  - rewrite Forall_forall in *. intros k Hk. rewrite as_i32_bit; [by apply Hf|].
    rewrite !elem_of_cons, elem_of_nil in Hk. lia.
Qed.

Lemma calm_ro_open os i kill_priv fl : calm os (ro_open checks os fs i kill_priv fl).
Proof. apply calm_rofs_open. intros fl' Hf. by apply calm_do_open, guest_reads_flags. Qed.

Lemma calm_ro_opendir os i fl : calm os (ro_opendir checks os fs i fl).
Proof.
  apply calm_rofs_open. intros fl' Hf. apply calm_do_open. simpl.
  apply opens_lor; [apply avoids_constants|by apply guest_reads_flags].
Qed.

Lemma calm_ro_create os parent name kill_priv fl :
  calm os (ro_create checks os fs parent name kill_priv fl).
Proof.
  unfold ro_create, lookup. respect; [by apply calm_missing; eauto with eff|].
  by apply calm_ro_open.
Qed.

Lemma calm_no_errors os (m : IO unit) s : calm os m -> cleans cap os s (no_errors m s).1.
Proof. intros Hm. specialize (Hm s). unfold no_errors. by destruct (m s) as [s' [a|e|]]. Qed.
End Operations.

Lemma call_calm {W M} `{Host W} `{RangeMap M MapEntry} checks os (fs : Setup M) rounds s s' :
  fs_call (H := read_only_fs (W := W) checks os fs rounds) s s' ->
  cleans (xattr_security_capability (cfg fs)) os s s'.
Proof.
  intros Hcall. destruct Hcall; simpl; try reflexivity.
  all: [> apply calm_init | apply calm_no_errors, calm_destroy | apply calm_do_lookup
    | apply calm_no_errors, calm_forget | apply calm_no_errors, calm_batch_forget
    | apply calm_getattr | apply calm_readlink | apply calm_ro_open
    | apply calm_ro_create | apply calm_read | apply calm_flush | apply calm_fsync
    | apply calm_release | apply calm_statfs | apply calm_getxattr | apply calm_listxattr
    | apply calm_ro_opendir | apply calm_readdir_op | apply calm_fsync | apply calm_release
    | unfold ro_access; destruct (has_any mask W_OK); [reflexivity|apply calm_access]
    | apply calm_lseek | apply calm_syncfs].
Qed.

(** C6: A read-only share is never modified.  Whatever methods the server calls on the
    read-only file system, in whatever order and with whatever arguments, and whatever the
    host answers: the daemon opens nothing to write, to create or to truncate, and makes no
    other call that could modify a file system.  There is one exception, which is bound to
    fail: where the configuration maps the capability attribute to another name, an open
    with O_PATH and O_TRUNC makes the daemon call fremovexattr with that name on the
    O_PATH descriptor it has just been given. *)
Theorem read_only_never_modifies {W M} `{Host W} `{RangeMap M MapEntry} checks os (fs : Setup M)
  rounds s s' :
  rtc (fs_call (H := read_only_fs checks os fs rounds)) s s' ->
  exists calls, history (fs_world s') = history (fs_world s) ++ calls /\
    forall before e after, calls = before ++ e :: after ->
      event_modifies os e = false \/
      exists name, xattr_security_capability (cfg fs) = Some name /\
        bound_to_fail os name (history (fs_world s) ++ before) e.
Proof.
  intros Hrtc. change (cleans (xattr_security_capability (cfg fs)) os s s').
  induction Hrtc as [|s1 s2 s3 Hcall _ IH]; [reflexivity|].
  etrans; [|exact IH]. by apply (call_calm checks os fs rounds).
Qed.

(** ** Contracts

    Lookups, forgetting, listings and reads are those of the passthrough file system, and
    so are the contracts with the server. *)

#[export] Instance read_only_counts {W M} `{Host W} `{RangeMap M MapEntry} checks os (fs : Setup M) rounds :
  LookupCounts (PassthroughFs W) ReadDir (H := read_only_fs checks os fs rounds).
Proof.
  pose (c := passthrough_counts (W := W) checks os fs rounds).
  refine (@Build_LookupCounts _ _ (read_only_fs checks os fs rounds) (fs_ok (LookupCounts := c))
    (lookup_count (LookupCounts := c)) _ _ _ _ _ _).
  - exact (fs_ok_le (LookupCounts := c)).
  - exact (lookup_counts (LookupCounts := c)).
  - exact (forget_counts (LookupCounts := c)).
  - exact (forget_none (LookupCounts := c)).
  - exact (readdir_counts (LookupCounts := c)).
  - exact (lookup_count_nonneg (LookupCounts := c)).
Defined.

#[export] Instance read_only_reads {W M} `{PreadHost W} `{RangeMap M MapEntry} checks os (fs : Setup M) rounds :
  ReadContract (PassthroughFs W) ReadDir (H := read_only_fs checks os fs rounds).
Proof.
  split. exact (read_stores (ReadContract := passthrough_reads checks os fs rounds)).
Qed.

(** ** Examples *)

#[local] Existing Instance list_range_map.

Definition demo_ro : FileSystem (PassthroughFs demo_world) ReadDir :=
  read_only_fs true demo_os demo_setup 4.

Definition nobody : Context := {| ctx_uid := 65534; ctx_gid := 65534; ctx_pid := 1 |}.

(** A file is opened to read; opening it to write is refused. *)
Lemma read_only_never_modifies_witness :
  let s1 := (fs_create (FileSystem := demo_ro) demo_mounted nobody 1 (text "a") 420 false linux_O_CREAT 0
               no_extensions).1 in
  let s2 := (fs_open (FileSystem := demo_ro) s1 nobody 2 false linux_O_RDWR).1 in
  open_files (handles s2) = 1 /\
  exists calls, history (fs_world s2) = history (fs_world demo_mounted) ++ calls /\
    Forall (fun e => event_modifies demo_os e = false) calls.
Proof.
  cbv zeta. split; [vm_compute; reflexivity|].
  edestruct (read_only_never_modifies true demo_os demo_setup 4 demo_mounted) as (calls & Hh & Hc);
    [|exists calls; split; [exact Hh|]; apply Forall_forall; intros e (b & a & Hs)%list_elem_of_split;
      destruct (Hc _ _ _ Hs) as [He|(name & Hn & _)]; [exact He|discriminate Hn]].
  eapply rtc_l; [apply (call_create (H := demo_ro))|]. eapply rtc_l; [apply (call_open (H := demo_ro))|].
  reflexivity.
Defined.
