(* ===== verification/Requests.v ===== *)
(** * Parsing request payloads

    The helpers of src/server.rs that take a request's bytes apart: NUL-terminated
    strings, structures and the request extensions (security context and
    supplementary groups), with the errors of src/lib.rs.

    Slicing out of range panics in Rust, and so it does here; the theorems show
    that no request can make it happen. *)

From S2P Require Import Prelude FuseTypes FuseWire Descriptor FileSystem.

(** [Error] of src/lib.rs. *)
Inductive Error :=
| DecodeMessage (e : io_error)
| EncodeMessage (e : io_error)
| FlushMessage (e : io_error)
| MissingParameter
| InvalidCString
| InvalidCString2
| InvalidHeaderLength
| InvalidXattrSize (size : Z) (len : nat)
| MissingExtension.

Definition einval : io_error := Os EINVAL.

(** [slice::split_at]. *)
Definition slice_split_at (data : bytes) (mid : nat) : res Error (bytes * bytes) :=
  if decide (mid <= length data)%nat then Ok (take mid data, drop mid data) else Panic.

(** The first item of [split_inclusive(|c| *c == 0)], and what follows it. *)
Fixpoint upto_nul (data : bytes) : bytes * bytes :=
  match data with
  | [] => ([], [])
  | c :: data' => if c =? 0 then ([c], data')
                  else let '(a, b) := upto_nul data' in (c :: a, b)
  end.

Definition next_component (data : bytes) : option (bytes * bytes) :=
  match data with [] => None | _ => Some (upto_nul data) end.

(** [CStr::from_bytes_with_nul] and [CString::from_vec_with_nul]: one NUL, at the
    end; the result is the string without it. *)
Definition strip_nul (buf : bytes) : option bytes :=
  match last buf with
  | Some 0 => if decide (0 ∈ removelast buf) then None else Some (removelast buf)
  | _ => None
  end.

Definition bytes_to_cstr (buf : bytes) : res Error bytes := ok_or (strip_nul buf) InvalidCString.

Definition take_object (A : Type) `{ByteValued A} (data : bytes) : res Error (A * bytes) :=
  if decide (length data < size_of A)%nat then Err (DecodeMessage einval)
  else
    '(object_bytes, remaining_bytes) ← slice_split_at data (size_of A);
    object ← unwrap (from_slice object_bytes);
    Ok (object, remaining_bytes).

(** [take_object::<u32>]. *)
Definition take_u32 (data : bytes) : res Error (Z * bytes) :=
  if decide (length data < 4)%nat then Err (DecodeMessage einval)
  else '(object_bytes, remaining_bytes) ← slice_split_at data 4;
       Ok (of_le object_bytes, remaining_bytes).

Definition parse_security_context (nr_secctx : Z) (data : bytes) : res Error (option SecContext) :=
  if 1 <? nr_secctx then Err (DecodeMessage einval)
  else if nr_secctx =? 0 then Ok None
  else
    '(secctx, data) ← take_object Secctx data;
    if secctx_size secctx =? 0 then Err (DecodeMessage einval)
    else
      '(name, _) ← ok_or (next_component data) MissingParameter;
      '(_, data) ← slice_split_at data (length name);
      if decide (length data < Z.to_nat (secctx_size secctx))%nat then Err (DecodeMessage einval)
      else
        '(remaining, _) ← slice_split_at data (Z.to_nat (secctx_size secctx));
        name ← ok_or (strip_nul name) InvalidCString2;
        Ok (Some {| secctx_name := name; secctx_value := remaining |}).

Definition LINUX_NRGROUPS_MAX : Z := 65536.

Definition next_multiple_of (n k : nat) : nat :=
  if decide (n mod k = 0)%nat then n else (n + (k - n mod k))%nat.

(** The [while] loop of [parse_sup_groups]: [n] groups. *)
Fixpoint take_groups (n : nat) (data : bytes) : res Error (list Z) :=
  match n with
  | O => Ok []
  | S n' => '(gid, data') ← take_u32 data; gs ← take_groups n' data'; Ok (gid :: gs)
  end.

Definition parse_sup_groups (data : bytes) : res Error (list Z) :=
  '(group_header, group_id_bytes) ← take_object SuppGroups data;
  let nr := supp_groups_nr_groups group_header in
  if (LINUX_NRGROUPS_MAX <? nr) ||
     negb (Nat.eqb (length data) (next_multiple_of (size_of SuppGroups + 4 * Z.to_nat nr) 8))
  then Err (DecodeMessage einval)
  else take_groups (Z.to_nat nr) group_id_bytes.

(** The loop of [get_extensions]; every round takes at least a header off. *)
Fixpoint extension_loop (fuel : nat) (options : Z) (buf : bytes) (secctx_received : bool)
  (extensions : Extensions) : res Error (bool * Extensions) :=
  match fuel, buf with
  | _, [] => Ok (secctx_received, extensions)
  | O, _ => Ok (secctx_received, extensions)
  | S f, _ =>
      '(extension_header, remaining_bytes) ← take_object ExtHeader buf;
      extension_size ←
        ok_or (checked_sub (ext_header_size extension_header) (Z.of_nat (size_of ExtHeader)))
          InvalidHeaderLength;
      if decide (length remaining_bytes < Z.to_nat extension_size)%nat
      then Err (DecodeMessage einval)
      else
        '(current, next) ← slice_split_at remaining_bytes (Z.to_nat extension_size);
        match ext_type_try_from (ext_header_ext_type extension_header) with
        | None => Err (DecodeMessage einval)
        | Some (SecCtx nr_secctx) =>
            if negb (has_all options FsOptions_SECURITY_CTX) || secctx_received
            then Err (DecodeMessage einval)
            else
              s ← parse_security_context nr_secctx current;
              extension_loop f options next true
                {| ext_secctx := s; ext_sup_gids := ext_sup_gids extensions |}
        | Some SupGroups =>
            if negb (has_all options FsOptions_CREATE_SUPP_GROUP) ||
               negb (Nat.eqb (length (ext_sup_gids extensions)) 0)
            then Err (DecodeMessage einval)
            else
              gs ← parse_sup_groups current;
              extension_loop f options next secctx_received
                {| ext_secctx := ext_secctx extensions; ext_sup_gids := gs |}
        end
  end.

Definition get_extensions (options : Z) (skip : nat) (request_bytes : bytes)
  : res Error Extensions :=
  if negb (has_all options FsOptions_SECURITY_CTX || has_all options FsOptions_CREATE_SUPP_GROUP)
  then Ok no_extensions
  else if decide (length request_bytes < skip)%nat then Err (DecodeMessage einval)
  else
    '(_, buf) ← slice_split_at request_bytes skip;
    '(secctx_received, extensions) ←
      extension_loop (length buf) options buf false no_extensions;
    if has_all options FsOptions_SECURITY_CTX && negb secctx_received then Err MissingExtension
    else Ok extensions.

(** ** No request panics the parser *)

Lemma from_slice_some (A : Type) `{ByteValuedLaws A} (l : bytes) :
  length l = size_of A -> exists a : A, from_slice l = Some a.
Proof.
  intros Hl. unfold from_slice. rewrite decide_True by done.
  apply of_fields_total, decode_fields_length.
Qed.

Lemma slice_split_at_ok data mid :
  (mid <= length data)%nat -> slice_split_at data mid = Ok (take mid data, drop mid data).
Proof. intros. unfold slice_split_at. by rewrite decide_True. Qed.

Lemma take_object_cases (A : Type) `{ByteValuedLaws A} (data : bytes) :
  (exists a, take_object A data = Ok (a, drop (size_of A) data) /\
     from_slice (take (size_of A) data) = Some a /\ (size_of A <= length data)%nat) \/
  (take_object A data = Err (DecodeMessage einval) /\ (length data < size_of A)%nat).
Proof.
  unfold take_object. case_decide; [by right|left].
  rewrite slice_split_at_ok by lia. cbn [mbind res_bind].
  destruct (from_slice_some A (take (size_of A) data)) as [a Ha]; [rewrite length_take; lia|].
  exists a. rewrite Ha. split_and!; [done..|lia].
Qed.

Lemma upto_nul_app data a b : upto_nul data = (a, b) -> data = a ++ b.
Proof.
  revert a b; induction data as [|c data IH]; intros a b; simpl; [by intros [= <- <-]|].
  case_match; [by intros [= <- <-]|].
  destruct (upto_nul data) as [a' b']. intros [= <- <-]. simpl. f_equal. by apply IH.
Qed.

Lemma take_u32_no_panic data : take_u32 data <> Panic.
Proof. unfold take_u32. case_decide; [done|]. by rewrite slice_split_at_ok by lia. Qed.

Lemma take_groups_no_panic n data : take_groups n data <> Panic.
Proof.
  revert data; induction n as [|n IH]; intros data; simpl; [done|].
  pose proof (take_u32_no_panic data). destruct (take_u32 data) as [[g data']|e|]; [|done..].
  cbn [mbind res_bind]. specialize (IH data'). by destruct (take_groups n data').
Qed.

Lemma parse_sup_groups_no_panic data : parse_sup_groups data <> Panic.
Proof.
  unfold parse_sup_groups. destruct (take_object_cases SuppGroups data) as [(h & -> & _)|[-> _]];
    cbn [mbind res_bind]; [|done].
  case_match; [done|]. apply take_groups_no_panic.
Qed.

Lemma parse_security_context_no_panic nr data : parse_security_context nr data <> Panic.
Proof.
  unfold parse_security_context. repeat case_match; try done.
  destruct (take_object_cases Secctx data) as [(h & -> & _)|[-> _]]; cbn [mbind res_bind]; [|done].
  case_match; [done|]. generalize (drop (size_of Secctx) data) as d. intros d.
  unfold next_component. destruct d as [|c d]; [done|]. cbn [ok_or mbind res_bind].
  destruct (upto_nul (c :: d)) as [name rest] eqn:Hn. apply upto_nul_app in Hn.
  rewrite slice_split_at_ok by (rewrite Hn, length_app; lia). cbn [mbind res_bind].
  case_decide; [done|]. rewrite slice_split_at_ok by lia. cbn [mbind res_bind].
  by destruct (strip_nul name).
Qed.

Lemma extension_loop_safe f1 : forall f2 options buf received ext,
  (length buf <= f1)%nat -> (length buf <= f2)%nat ->
  extension_loop f1 options buf received ext <> Panic /\
  extension_loop f1 options buf received ext = extension_loop f2 options buf received ext.
Proof.
  induction f1 as [|f1 IH]; intros f2 options buf received ext Hf1 Hf2.
  { destruct buf; [|simpl in Hf1; lia]. by destruct f2. }
  destruct buf as [|c buf]; [by destruct f2|]. destruct f2 as [|f2]; [simpl in Hf2; lia|].
  cbn [extension_loop].
  destruct (take_object_cases ExtHeader (c :: buf)) as [(h & -> & _ & Hsz)|[-> _]];
    cbn [mbind res_bind]; [|done].
  destruct (checked_sub _ _) as [sz|]; cbn [ok_or mbind res_bind]; [|done].
  case_decide; [done|]. rewrite slice_split_at_ok by lia. cbn [mbind res_bind].
  assert (Hnext : forall f, (length (c :: buf) <= S f)%nat ->
    (length (drop (Z.to_nat sz) (drop (size_of ExtHeader) (c :: buf))) <= f)%nat).
  { intros f Hf. rewrite !length_drop. change (size_of ExtHeader) with 8%nat. simpl in Hf |- *. lia. }
  destruct (ext_type_try_from _) as [[nr|]|]; [| |done].
  - case_match; [done|].
    pose proof (parse_security_context_no_panic nr
      (take (Z.to_nat sz) (drop (size_of ExtHeader) (c :: buf)))) as Hp.
    destruct (parse_security_context nr _); cbn [mbind res_bind]; [|done..].
    apply IH; by apply Hnext.
  - case_match; [done|].
    pose proof (parse_sup_groups_no_panic
      (take (Z.to_nat sz) (drop (size_of ExtHeader) (c :: buf)))) as Hp.
    destruct (parse_sup_groups _); cbn [mbind res_bind]; [|done..].
    apply IH; by apply Hnext.
Qed.

(** Whatever bytes a guest sends as request extensions, parsing them ends and
    does not panic: every slice taken is within the buffer, and a round of the loop
    for each byte is enough. *)
Theorem get_extensions_safe options skip request_bytes :
  get_extensions options skip request_bytes <> Panic /\
  (forall fuel received ext, (length request_bytes <= fuel)%nat ->
     extension_loop fuel options request_bytes received ext =
     extension_loop (length request_bytes) options request_bytes received ext).
Proof.
  split; [|intros fuel received ext Hf; by apply extension_loop_safe].
  unfold get_extensions. case_match; [done|]. case_decide; [done|].
  rewrite slice_split_at_ok by lia. cbn [mbind res_bind].
  destruct (extension_loop_safe (length (drop skip request_bytes)) (length (drop skip request_bytes))
    options (drop skip request_bytes) false no_extensions) as [Hp _]; [done..|].
  destruct (extension_loop _ _ _ _ _) as [[r e]|e|]; cbn [mbind res_bind]; [|done..].
  by case_match.
Qed.

(** ** Round trip: the extensions as the guest kernel lays them out *)

Definition extension_bytes (ext_type : Z) (payload : bytes) : bytes :=
  as_slice {| ext_header_size := Z.of_nat (8 + length payload); ext_header_ext_type := ext_type |}
  ++ payload.

Definition secctx_payload (s : SecContext) (padding : nat) : bytes :=
  as_slice {| secctx_size := blen (secctx_value s); secctx_padding := 0 |} ++
  (secctx_name s ++ [0]) ++ secctx_value s ++ replicate padding 0.

Definition groups_payload (gs : list Z) : bytes :=
  let raw := as_slice {| supp_groups_nr_groups := Z.of_nat (length gs) |} ++
             concat (map (le_bytes 4) gs) in
  raw ++ replicate (next_multiple_of (length raw) 8 - length raw) 0.

Lemma upto_nul_name name rest :
  0 ∉ name -> upto_nul (name ++ 0 :: rest) = (name ++ [0], rest).
Proof.
  induction name as [|c name IH]; intros Hn; simpl; [done|].
  rewrite (proj2 (Z.eqb_neq c 0)) by set_solver. by rewrite IH by set_solver.
Qed.

Lemma strip_nul_name name : 0 ∉ name -> strip_nul (name ++ [0]) = Some name.
Proof.
  intros Hn. unfold strip_nul. rewrite last_snoc, removelast_last. by rewrite decide_False.
Qed.

Lemma take_object_as_slice (A : Type) `{ByteValuedLaws A} (a : A) rest :
  in_range a -> take_object A (as_slice a ++ rest) = Ok (a, rest).
Proof.
  intros Hr. pose proof (as_slice_length a) as Hl.
  destruct (take_object_cases A (as_slice a ++ rest)) as [(a' & -> & Ha & _)|[_ Hlt]].
  - rewrite <- Hl, take_app_length in Ha. rewrite from_slice_as_slice in Ha by done.
    rewrite <- Hl, drop_app_length. congruence.
  - rewrite length_app in Hlt. lia.
Qed.

Lemma take_groups_spec gs rest :
  Forall is_u32 gs -> take_groups (length gs) (concat (map (le_bytes 4) gs) ++ rest) = Ok gs.
Proof.
  induction 1 as [|g gs Hg Hgs IH]; [done|]. cbn [length take_groups map concat].
  rewrite <- app_assoc. unfold take_u32.
  pose proof (le_bytes_length 4 g) as Hl.
  rewrite decide_False by (rewrite length_app; lia).
  rewrite slice_split_at_ok by (rewrite length_app; lia). cbn [mbind res_bind].
  rewrite take_app_length', drop_app_length' by done. rewrite IH. cbn [mbind res_bind].
  rewrite of_le_le_bytes; [done|]. unfold is_u32, u32_max in Hg. simpl Z.of_nat. lia.
Qed.

Lemma groups_length gs : length (concat (map (le_bytes 4) gs)) = (4 * length gs)%nat.
Proof.
  induction gs as [|g gs IH]; [done|]. cbn [map concat length].
  rewrite length_app, IH, le_bytes_length. lia.
Qed.

Lemma next_multiple_of_le n k : (n <= next_multiple_of n k)%nat.
Proof. unfold next_multiple_of. case_decide; lia. Qed.

Lemma parse_groups_payload gs :
  Forall is_u32 gs -> Z.of_nat (length gs) <= LINUX_NRGROUPS_MAX ->
  parse_sup_groups (groups_payload gs) = Ok gs.
Proof.
  intros Hgs Hn. unfold parse_sup_groups, groups_payload. cbn zeta.
  match goal with |- context [replicate ?k 0] => set (pad := replicate k 0);
    assert (Hpad : length pad = k) by apply length_replicate end.
  rewrite length_app, as_slice_length, groups_length in Hpad.
  change (size_of SuppGroups) with 4%nat in *.
  rewrite <- app_assoc, (take_object_as_slice SuppGroups); cycle 1.
  { unfold in_range. unfold LINUX_NRGROUPS_MAX in Hn. cbn. fields_in_range. }
  cbn [mbind res_bind supp_groups_nr_groups]. rewrite Nat2Z.id.
  rewrite (proj2 (Z.ltb_ge _ _)) by lia. rewrite !length_app, as_slice_length, groups_length, Hpad.
  pose proof (next_multiple_of_le (4 + 4 * length gs) 8).
  change (size_of SuppGroups) with 4%nat.
  rewrite (proj2 (Nat.eqb_eq _ _)) by lia. cbn [orb negb]. by apply take_groups_spec.
Qed.

Lemma parse_secctx_payload s padding :
  0 ∉ secctx_name s -> 0 < blen (secctx_value s) < 2 ^ 32 ->
  parse_security_context 1 (secctx_payload s padding) = Ok (Some s).
Proof.
  intros Hn Hv. unfold parse_security_context, secctx_payload. cbn [Z.ltb Z.eqb Z.compare Pos.compare].
  rewrite (take_object_as_slice Secctx) by (unfold in_range; cbn; fields_in_range).
  cbn [mbind res_bind secctx_size]. rewrite (proj2 (Z.eqb_neq _ _)) by lia.
  assert (Hne : forall x, next_component ((secctx_name s ++ [0]) ++ x) =
                          Some (secctx_name s ++ [0], x)).
  { intros x. rewrite <- app_assoc. cbn [app]. rewrite <- (upto_nul_name (secctx_name s) x Hn).
    unfold next_component. by destruct (secctx_name s). }
  rewrite Hne. cbn [ok_or mbind res_bind].
  rewrite slice_split_at_ok by (rewrite !length_app; lia). cbn [mbind res_bind].
  rewrite drop_app_length. assert (Hvl : Z.to_nat (blen (secctx_value s)) = length (secctx_value s))
    by (unfold blen; lia). rewrite Hvl.
  rewrite decide_False by (rewrite length_app; lia).
  rewrite slice_split_at_ok by (rewrite length_app; lia). cbn [mbind res_bind].
  rewrite take_app_length, strip_nul_name by done. by destruct s.
Qed.

Lemma groups_payload_length gs :
  Z.of_nat (length gs) <= LINUX_NRGROUPS_MAX ->
  Z.of_nat (8 + length (groups_payload gs)) < 2 ^ 32.
Proof.
  unfold LINUX_NRGROUPS_MAX, groups_payload. intros Hn. cbn zeta.
  rewrite length_app, length_replicate, length_app, as_slice_length, groups_length.
  change (size_of SuppGroups) with 4%nat. unfold next_multiple_of.
  case_decide; lia.
Qed.

(** One extension at the head of the buffer. *)
Lemma extension_loop_step fuel options ty payload rest received ext :
  0 <= ty < 2 ^ 32 -> Z.of_nat (8 + length payload) < 2 ^ 32 ->
  extension_loop (S fuel) options (extension_bytes ty payload ++ rest) received ext =
  match ext_type_try_from ty with
  | None => Err (DecodeMessage einval)
  | Some (SecCtx nr) =>
      if negb (has_all options FsOptions_SECURITY_CTX) || received then Err (DecodeMessage einval)
      else s ← parse_security_context nr payload;
           extension_loop fuel options rest true
             {| ext_secctx := s; ext_sup_gids := ext_sup_gids ext |}
  | Some SupGroups =>
      if negb (has_all options FsOptions_CREATE_SUPP_GROUP) ||
         negb (Nat.eqb (length (ext_sup_gids ext)) 0)
      then Err (DecodeMessage einval)
      else gs ← parse_sup_groups payload;
           extension_loop fuel options rest received
             {| ext_secctx := ext_secctx ext; ext_sup_gids := gs |}
  end.
Proof.
  intros Hty Hlen. unfold extension_bytes. rewrite <- app_assoc.
  match goal with |- context [as_slice ?x] => set (h := x) end.
  pose proof (as_slice_length h) as Hh.
  destruct (as_slice h ++ payload ++ rest) as [|c buf] eqn:Hb.
  { apply (f_equal length) in Hb. rewrite length_app, Hh in Hb. by vm_compute in Hb. }
  cbn [extension_loop]. rewrite <- Hb. rewrite (take_object_as_slice ExtHeader); cycle 1.
  { unfold in_range, h. cbn. fields_in_range. }
  cbn [mbind res_bind]. unfold checked_sub. change (Z.of_nat (size_of ExtHeader)) with 8.
  change (ext_header_size h) with (Z.of_nat (8 + length payload)).
  change (ext_header_ext_type h) with ty.
  rewrite (proj2 (Z.leb_le 8 _)) by lia.
  cbn [ok_or mbind res_bind].
  replace (Z.to_nat (Z.of_nat (8 + length payload) - 8)) with (length payload) by lia.
  rewrite decide_False by (rewrite length_app; lia).
  rewrite slice_split_at_ok by (rewrite length_app; lia). cbn [mbind res_bind].
  by rewrite take_app_length, drop_app_length.
Qed.

(** C29: The extensions of a request are understood as the guest sent them: with
    both extensions negotiated, a security context and a group list placed after
    the request's own bytes, in either order and padded as the guest kernel pads
    them, are returned exactly. *)
Theorem extensions_roundtrip options (body : bytes) s padding gs :
  has_all options FsOptions_SECURITY_CTX = true ->
  has_all options FsOptions_CREATE_SUPP_GROUP = true ->
  0 ∉ secctx_name s -> 0 < blen (secctx_value s) ->
  Z.of_nat (8 + length (secctx_payload s padding)) < 2 ^ 32 ->
  Forall is_u32 gs -> Z.of_nat (length gs) <= LINUX_NRGROUPS_MAX ->
  let a := extension_bytes 1 (secctx_payload s padding) in
  let b := extension_bytes EXT_SUP_GROUPS (groups_payload gs) in
  let result := Ok {| ext_secctx := Some s; ext_sup_gids := gs |} in
  get_extensions options (length body) (body ++ a ++ b) = result /\
  get_extensions options (length body) (body ++ b ++ a) = result.
Proof.
  intros Hsec Hgrp Hname Hval Hlen Hgs Hn a b result.
  assert (Hvl : blen (secctx_value s) < 2 ^ 32).
  { unfold secctx_payload in Hlen. rewrite !length_app in Hlen. unfold blen. lia. }
  pose proof (groups_payload_length gs Hn) as Hgl.
  assert (Hstart : forall buf, get_extensions options (length body) (body ++ buf) =
    '(received, ext) ← extension_loop (S (S (length buf))) options buf false no_extensions;
    if negb received then Err MissingExtension else Ok ext).
  { intros buf. unfold get_extensions. rewrite Hsec. cbn [orb negb].
    rewrite decide_False by (rewrite length_app; lia).
    rewrite slice_split_at_ok by (rewrite length_app; lia). cbn [mbind res_bind].
    rewrite drop_app_length. by rewrite (proj2 (extension_loop_safe (length buf)
      (S (S (length buf))) options buf false no_extensions ltac:(lia) ltac:(lia))). }
  assert (Hend : forall f r e, extension_loop f options [] r e = Ok (r, e)) by (by intros []).
  split; rewrite Hstart.
  - unfold a. rewrite extension_loop_step by lia. cbn [ext_type_try_from].
    change (ext_type_try_from 1) with (Some (SecCtx 1)). cbn match. rewrite Hsec. cbn [negb orb].
    rewrite parse_secctx_payload by done. cbn [mbind res_bind].
    rewrite <- (app_nil_r b). unfold b. rewrite extension_loop_step by (unfold EXT_SUP_GROUPS; lia).
    change (ext_type_try_from EXT_SUP_GROUPS) with (Some SupGroups). cbn match.
    rewrite Hgrp. cbn [negb orb no_extensions ext_sup_gids length Nat.eqb].
    rewrite parse_groups_payload by done. cbn [mbind res_bind]. by rewrite Hend.
  - unfold b. rewrite extension_loop_step by (unfold EXT_SUP_GROUPS; lia).
    change (ext_type_try_from EXT_SUP_GROUPS) with (Some SupGroups). cbn match.
    rewrite Hgrp. cbn [negb orb no_extensions ext_sup_gids length Nat.eqb].
    rewrite parse_groups_payload by done. cbn [mbind res_bind].
    rewrite <- (app_nil_r a). unfold a. rewrite extension_loop_step by lia.
    change (ext_type_try_from 1) with (Some (SecCtx 1)). cbn match. rewrite Hsec. cbn [negb orb].
    rewrite parse_secctx_payload by done. cbn [mbind res_bind]. by rewrite Hend.
Qed.

Lemma extensions_roundtrip_witness :
  get_extensions (Z.lor SECURITY_CTX CREATE_SUPP_GROUP) 2
    (text "f" ++ [0] ++
     extension_bytes 1 (secctx_payload {| secctx_name := text "selinux"; secctx_value := text "ctx" |} 5)
     ++ extension_bytes EXT_SUP_GROUPS (groups_payload [10; 20; 30])) =
  Ok {| ext_secctx := Some {| secctx_name := text "selinux"; secctx_value := text "ctx" |};
        ext_sup_gids := [10; 20; 30] |}.
Proof.
  apply (extensions_roundtrip (Z.lor SECURITY_CTX CREATE_SUPP_GROUP) (text "f" ++ [0])
    {| secctx_name := text "selinux"; secctx_value := text "ctx" |} 5 [10; 20; 30]);
    [by vm_compute|by vm_compute|apply (bool_decide_unpack _); by vm_compute|by vm_compute
    |by vm_compute| |by vm_compute].
  repeat constructor; by vm_compute.
Defined.
