(* ===== verification/Replies.v ===== *)
(** * Replies: the reply helpers of src/server.rs

    A reply goes to the guest's writable buffers through a [writer]; every helper
    returns the writer, since part of a reply may have been stored when an error
    shows up.  [checks] says whether the build has debug assertions. *)

From S2P Require Import Prelude OpenFlags Libc FuseTypes FuseWire Descriptor FileSystem Requests.

Definition FUSE_BUFFER_HEADER_SIZE : Z := 0x1000.
Definition MAX_BUFFER_SIZE : Z := 2 ^ 20.

(** [errno_to_linux]. *)
Definition errno_to_linux (os : HostOs) (errno : Z) : Z :=
  match os with
  | HostLinux _ => errno
  | HostMacos =>
      match errno with
      | 35 => 11 | 36 => 115 | 37 => 114 | 38 => 88 | 39 => 89 | 40 => 90 | 41 => 91
      | 42 => 92 | 43 => 93 | 44 => 94 | 45 => 95 | 46 => 96 | 47 => 97 | 48 => 98
      | 49 => 99 | 50 => 100 | 51 => 101 | 52 => 102 | 53 => 103 | 54 => 104 | 55 => 105
      | 56 => 106 | 57 => 107 | 58 => 108 | 59 => 109 | 60 => 110 | 61 => 111 | 62 => 40
      | 63 => 36 | 64 => 112 | 65 => 113 | 66 => 39 | 69 => 122 | 70 => 116 | 77 => 37
      | 78 => 38 | 84 => 75 | 89 => 125 | 90 => 43 | 91 => 42 | 92 => 84 | 93 => 61
      | 94 => 74 | 95 => 72 | 96 => 61 | 97 => 67 | 98 => 63 | 99 => 60 | 100 => 71
      | 101 => 62 | 102 => 95 | 104 => 131 | 105 => 130
      | _ => errno
      end
  end.

(** [Writer::bytes_written]. *)
Definition bytes_written (w : writer) : Z := bytes_consumed (w_chain w).

(** [w.write_all(data).map_err(Error::EncodeMessage)?] followed by the rest. *)
Definition write_then (w : writer) (data : bytes) (k : writer -> writer * res Error Z)
  : writer * res Error Z :=
  match write_all w data with
  | (w', Ok _) => k w'
  | (w', Err e) => (w', Err (EncodeMessage e))
  | (w', Panic) => (w', Panic)
  end.

Definition write_opt (w : writer) (data : option bytes) (k : writer -> writer * res Error Z)
  : writer * res Error Z :=
  match data with Some d => write_then w d k | None => k w end.

(** [debug_assert_eq!]. *)
Definition debug_assert_eq (checks : bool) (a b : Z) (w : writer) (r : res Error Z)
  : writer * res Error Z :=
  if checks && negb (a =? b) then (w, Panic) else (w, r).

Definition opt_len (o : option bytes) : Z := match o with Some l => blen l | None => 0 end.

Definition reply_readdir (len unique : Z) (w : writer) : writer * res Error Z :=
  let out := {| out_header_len := as_u32 (Z.of_nat (size_of OutHeader) + len);
                out_header_error := 0; out_header_unique := unique |} in
  write_then w (as_slice out) (fun w => (w, Ok (out_header_len out))).

(** [out] is given by its bytes. *)
Definition reply_ok (checks : bool) (out data : option bytes) (unique : Z) (w : writer)
  : writer * res Error Z :=
  let len := Z.of_nat (size_of OutHeader) + opt_len out + opt_len data in
  let header := {| out_header_len := as_u32 len; out_header_error := 0;
                   out_header_unique := unique |} in
  write_then w (as_slice header) (fun w =>
  write_opt w out (fun w =>
  write_opt w data (fun w =>
    debug_assert_eq checks len (bytes_written w) w (Ok (bytes_written w))))).

Definition reply_error (checks : bool) (os : HostOs) (e : io_error) (unique : Z) (w : writer)
  : writer * res Error Z :=
  let native_errno := default EIO (raw_os_error e) in
  let header := {| out_header_len := Z.of_nat (size_of OutHeader);
                   out_header_error := - errno_to_linux os native_errno;
                   out_header_unique := unique |} in
  write_then w (as_slice header) (fun w =>
    debug_assert_eq checks (out_header_len header) (bytes_written w) w (Ok (bytes_written w))).

(** ** Directory entries *)

(** [cursor.write_all(data)?] followed by the rest. *)
Definition cursor_then (w : writer) (data : bytes) (k : writer -> writer * io Z)
  : writer * io Z :=
  match write_all w data with
  | (w', Ok _) => k w'
  | (w', Err e) => (w', Err e)
  | (w', Panic) => (w', Panic)
  end.

(** The fixed part of an entry, its name and the padding. *)
Definition write_dirent (cursor : writer) (d : DirEntry)
  (dirent_len padded_dirent_len total_len : Z) : writer * io Z :=
  let dirent := {| dirent_ino := de_ino d; dirent_off := de_offset d;
                   dirent_namelen := as_u32 (blen (de_name d)); dirent_type_ := de_type d |} in
  cursor_then cursor (as_slice dirent) (fun w =>
  cursor_then w (de_name d) (fun w =>
    let padding := padded_dirent_len - dirent_len in
    if 0 <? padding
    then cursor_then w (replicate (Z.to_nat padding) 0) (fun w => (w, Ok total_len))
    else (w, Ok total_len))).

Definition add_dirent (os : HostOs) (cursor : writer) (max : Z) (d : DirEntry)
  (entry : option Entry)
  : writer * io Z :=
  let name := de_name d in
  if u32_max <? blen name then (cursor, Err (Os (host_EOVERFLOW os)))
  else
    match checked_add usize_max (Z.of_nat (size_of Dirent)) (blen name) with
    | None => (cursor, Err (Os (host_EOVERFLOW os)))
    | Some dirent_len =>
        match checked_add usize_max dirent_len 7 with
        | None => (cursor, Err (Os (host_EOVERFLOW os)))
        | Some l =>
            let padded_dirent_len := Z.land l (Z.lnot 7) in
            match (match entry with
                   | Some _ => checked_add usize_max padded_dirent_len
                                 (Z.of_nat (size_of EntryOut))
                   | None => Some padded_dirent_len
                   end) with
            | None => (cursor, Err (Os (host_EOVERFLOW os)))
            | Some total_len =>
                if max <? total_len then (cursor, Ok 0)
                else
                  match entry with
                  | Some e =>
                      cursor_then cursor (as_slice (entry_out_from e)) (fun w =>
                        write_dirent w d dirent_len padded_dirent_len total_len)
                  | None => write_dirent cursor d dirent_len padded_dirent_len total_len
                  end
            end
        end
    end.
