(* ===== verification/Server.v ===== *)
(** * The FUSE server: src/server.rs

    [Server] dispatches the requests of the guest to a [FileSystem].  A handler
    gets the request header, the rest of the request ([consumer]) and the reply
    buffers ([writer]) and yields the server, the bytes stored in the reply
    buffers (from their start, in order) and its result: the length of the reply,
    or an error the transport logs. *)

From S2P Require Import Prelude OpenFlags Libc FuseTypes.
From S2P Require Import FuseWire Descriptor FileSystem Requests Replies.

Record Server (F : Type) := { fs : F; options : Z }.
Arguments fs {F}.
Arguments options {F}.

Section Server.
Context {F D : Type} `{FileSystem F D} (checks : bool) (os : HostOs).

Definition server_new (f : F) : Server F := {| fs := f; options := 0 |}.

Definition outcome : Type := Server F * bytes * res Error Z.

Definition with_fs (s : Server F) (f : F) : Server F := {| fs := f; options := options s |}.

(** The [?] operator while a request is taken apart. *)
Definition try_ {A} (s : Server F) (w : writer) (q : res Error A) (k : A -> outcome) : outcome :=
  match q with
  | Ok a => k a
  | Err e => (s, w_out w, Err e)
  | Panic => (s, w_out w, Panic)
  end.

Definition finish (s : Server F) (r : writer * res Error Z) : outcome := (s, w_out r.1, r.2).

Definition fail (s : Server F) (e : io_error) (h : InHeader) (w : writer) : outcome :=
  finish s (reply_error checks os e (in_header_unique h) w).

(** [match self.fs.op(..) { Ok(a) => .., Err(e) => reply_error(e, ..) }] *)
Definition answer {A} (s : Server F) (h : InHeader) (w : writer) (r : F * io A)
  (ok : Server F -> A -> outcome) : outcome :=
  let s' := with_fs s r.1 in
  match r.2 with
  | Ok a => ok s' a
  | Err e => fail s' e h w
  | Panic => (s', w_out w, Panic)
  end.

Definition ok_empty (h : InHeader) (w : writer) (s : Server F) : outcome :=
  finish s (reply_ok checks None None (in_header_unique h) w).

Definition ok_obj {A} `{ByteValued A} (h : InHeader) (w : writer) (s : Server F) (out : A)
  : outcome := finish s (reply_ok checks (Some (as_slice out)) None (in_header_unique h) w).

Definition ok_data (h : InHeader) (w : writer) (s : Server F) (data : bytes) : outcome :=
  finish s (reply_ok checks None (Some data) (in_header_unique h) w).

Definition obj (A : Type) `{ByteValued A} (r : consumer) : res Error (A * consumer) :=
  map_err DecodeMessage (read_obj A r).

(** The bytes of a request after the header and [msg_size] bytes of structures:
    [in_header.len] says how many there are. *)
Definition payload (h : InHeader) (msg_size : nat) (r : consumer) : res Error bytes :=
  len ← ok_or (l ← checked_sub (in_header_len h) (Z.of_nat (size_of InHeader));
               checked_sub l (Z.of_nat msg_size)) InvalidHeaderLength;
  '(buf, _) ← map_err DecodeMessage (read_exact r (Z.to_nat len));
  Ok buf.

Definition ctx (h : InHeader) : Context := context_from h.
Definition nodeid (h : InHeader) : Z := in_header_nodeid h.
Definition options_of (s : Server F) : Z := from_bits_truncate FsOptions_members (options s).

Definition flag (flags mask : Z) : bool := negb (Z.land flags mask =? 0).

Definition when (b : bool) (v : Z) : option Z := if b then Some v else None.

Implicit Types (s : Server F) (h : InHeader) (r : consumer) (w : writer).

(** ** Handlers *)

Definition setupmapping s h w : outcome := fail s (Os (host_ENOSYS os)) h w.
Definition removemapping s h w : outcome := fail s (Os (host_ENOSYS os)) h w.

Definition lookup s h r w : outcome :=
  try_ s w (payload h 0 r) (fun buf =>
  try_ s w (bytes_to_cstr buf) (fun name =>
  answer s h w (fs_lookup (fs s) (ctx h) (nodeid h) name) (fun s e =>
    ok_obj h w s (entry_out_from e)))).

(** A request that is not answered. *)
Definition silent s w (r : F * res Empty_set unit) : outcome :=
  (with_fs s r.1, w_out w, match r.2 with Panic => Panic | _ => Ok 0 end).

Definition forget s h r w : outcome :=
  try_ s w (obj ForgetIn r) (fun '(i, _) =>
    silent s w (fs_forget (fs s) (ctx h) (nodeid h) (forget_in_nlookup i))).

Definition attr_out (a : Attr) (timeout : Duration) : AttrOut :=
  {| attr_out_attr_valid := as_secs timeout; attr_out_attr_valid_nsec := subsec_nanos timeout;
     attr_out_dummy := 0; attr_out_attr := a |}.

Definition getattr s h r w : outcome :=
  try_ s w (obj GetattrIn r) (fun '(i, _) =>
    let handle := when (flag (getattr_in_flags i) GETATTR_FH) (getattr_in_fh i) in
    answer s h w (fs_getattr (fs s) (ctx h) (nodeid h) handle) (fun s '(a, t) =>
      ok_obj h w s (attr_out a t))).

Definition setattr s h r w : outcome :=
  try_ s w (obj SetattrIn r) (fun '(i, _) =>
    let handle := when (flag (setattr_in_valid i) FATTR_FH) (setattr_in_fh i) in
    let valid := from_bits_truncate SetattrValid_members (setattr_in_valid i) in
    answer s h w (fs_setattr (fs s) (ctx h) (nodeid h) i handle valid) (fun s '(a, t) =>
      ok_obj h w s (attr_out a t))).

Definition readlink s h w : outcome :=
  answer s h w (fs_readlink (fs s) (ctx h) (nodeid h)) (fun s linkname =>
    ok_data h w s linkname).

Definition symlink s h r w : outcome :=
  try_ s w (payload h 0 r) (fun buf =>
  try_ s w (ok_or (next_component buf) MissingParameter) (fun '(name, rest) =>
  try_ s w (ok_or (next_component rest) MissingParameter) (fun '(linkname, _) =>
  try_ s w (get_extensions (options_of s) (length name + length linkname) buf) (fun extensions =>
  try_ s w (bytes_to_cstr linkname) (fun linkname =>
  try_ s w (bytes_to_cstr name) (fun name =>
  answer s h w (fs_symlink (fs s) (ctx h) linkname (nodeid h) name extensions) (fun s e =>
    ok_obj h w s (entry_out_from e)))))))).

Definition mknod s h r w : outcome :=
  try_ s w (obj MknodIn r) (fun '(i, r) =>
  try_ s w (payload h (size_of MknodIn) r) (fun buf =>
  try_ s w (ok_or (next_component buf) MissingParameter) (fun '(name, _) =>
  try_ s w (get_extensions (options_of s) (length name) buf) (fun extensions =>
  try_ s w (bytes_to_cstr name) (fun name =>
  answer s h w (fs_mknod (fs s) (ctx h) (nodeid h) name (mknod_in_mode i) (mknod_in_rdev i)
                  (mknod_in_umask i) extensions) (fun s e =>
    ok_obj h w s (entry_out_from e))))))).

Definition mkdir s h r w : outcome :=
  try_ s w (obj MkdirIn r) (fun '(i, r) =>
  try_ s w (payload h (size_of MkdirIn) r) (fun buf =>
  try_ s w (ok_or (next_component buf) MissingParameter) (fun '(name, _) =>
  try_ s w (get_extensions (options_of s) (length name) buf) (fun extensions =>
  try_ s w (bytes_to_cstr name) (fun name =>
  answer s h w (fs_mkdir (fs s) (ctx h) (nodeid h) name (mkdir_in_mode i) (mkdir_in_umask i)
                  extensions) (fun s e =>
    ok_obj h w s (entry_out_from e))))))).

Definition unlink s h r w : outcome :=
  try_ s w (payload h 0 r) (fun buf =>
  try_ s w (bytes_to_cstr buf) (fun name =>
  answer s h w (fs_unlink (fs s) (ctx h) (nodeid h) name) (fun s _ => ok_empty h w s))).

Definition rmdir s h r w : outcome :=
  try_ s w (payload h 0 r) (fun buf =>
  try_ s w (bytes_to_cstr buf) (fun name =>
  answer s h w (fs_rmdir (fs s) (ctx h) (nodeid h) name) (fun s _ => ok_empty h w s))).

(** A buffer cut after its first NUL. *)
Definition nul_split (buf : bytes) : option (bytes * bytes) :=
  if decide (0 ∈ buf) then Some (upto_nul buf) else None.

Definition do_rename s h (msg_size : nat) (newdir flags : Z) r w : outcome :=
  try_ s w (payload h msg_size r) (fun buf =>
  try_ s w (ok_or (nul_split buf) MissingParameter) (fun '(oldname, newname) =>
  try_ s w (bytes_to_cstr oldname) (fun oldname =>
  try_ s w (bytes_to_cstr newname) (fun newname =>
  answer s h w (fs_rename (fs s) (ctx h) (nodeid h) oldname newdir newname flags) (fun s _ =>
    ok_empty h w s))))).

Definition rename s h r w : outcome :=
  try_ s w (obj RenameIn r) (fun '(i, r) =>
    do_rename s h (size_of RenameIn) (rename_in_newdir i) 0 r w).

Definition RENAME_NOREPLACE : Z := 1.
Definition RENAME_EXCHANGE : Z := 2.
Definition RENAME_WHITEOUT : Z := 4.

Definition rename2 s h r w : outcome :=
  try_ s w (obj Rename2In r) (fun '(i, r) =>
    let flags := Z.land (rename2_in_flags i)
                   (Z.lor (Z.lor RENAME_EXCHANGE RENAME_NOREPLACE) RENAME_WHITEOUT) in
    do_rename s h (size_of Rename2In) (rename2_in_newdir i) flags r w).

Definition link s h r w : outcome :=
  try_ s w (obj LinkIn r) (fun '(i, r) =>
  try_ s w (payload h (size_of LinkIn) r) (fun buf =>
  try_ s w (bytes_to_cstr buf) (fun name =>
  answer s h w (fs_link (fs s) (ctx h) (link_in_oldnodeid i) (nodeid h) name) (fun s e =>
    ok_obj h w s (entry_out_from e))))).

Definition open_out (handle : option Z) (opts : Z) : OpenOut :=
  {| open_out_fh := default 0 handle; open_out_open_flags := opts; open_out_padding := 0 |}.

Definition open s h r w : outcome :=
  try_ s w (obj OpenIn r) (fun '(i, _) =>
    let kill_priv := flag (open_in_open_flags i) OPEN_KILL_SUIDGID in
    answer s h w (fs_open (fs s) (ctx h) (nodeid h) kill_priv (open_in_flags i))
      (fun s '(handle, opts) => ok_obj h w s (open_out handle opts))).

(** The first writer keeps the room for the header, the second gets the data. *)
Definition split_header w (k : writer -> writer -> outcome) (panic : outcome) : outcome :=
  match split_at (w_chain w) (Z.of_nat (size_of OutHeader)) with
  | Ok (a, b) => k {| w_chain := a; w_out := w_out w |} {| w_chain := b; w_out := [] |}
  | _ => panic
  end.

(** What both writers have stored, in the order of the guest's buffers. *)
Definition finish_split (data : writer) (o : outcome) : outcome :=
  let '(s, out, res) := o in (s, out ++ w_out data, res).

(** The header of a successful read is written as for a directory listing. *)
Definition read s h r w : outcome :=
  try_ s w (obj ReadIn r) (fun '(i, _) =>
    let owner := when (flag (read_in_read_flags i) READ_LOCKOWNER) (read_in_lock_owner i) in
    split_header w (fun w data_writer =>
      let '(f, data_writer, res) :=
        fs_read (fs s) (ctx h) (nodeid h) (read_in_fh i) data_writer (read_in_size i)
          (read_in_offset i) owner (read_in_flags i) in
      finish_split data_writer
        (answer s h w (f, res) (fun s count =>
           finish s (reply_readdir count (in_header_unique h) w))))
      (s, w_out w, Panic)).

Definition write s h r w : outcome :=
  try_ s w (obj WriteIn r) (fun '(i, r) =>
    let owner := when (flag (write_in_write_flags i) WRITE_LOCKOWNER) (write_in_lock_owner i) in
    let delayed_write := flag (write_in_write_flags i) WRITE_CACHE in
    let kill_priv := flag (write_in_write_flags i) WRITE_KILL_PRIV in
    answer s h w
      (fs_write (fs s) (ctx h) (nodeid h) (write_in_fh i) r (write_in_size i) (write_in_offset i)
         owner delayed_write kill_priv (write_in_flags i))
      (fun s count => ok_obj h w s {| write_out_size := as_u32 count; write_out_padding := 0 |})).

Definition statfs s h w : outcome :=
  answer s h w (fs_statfs (fs s) (ctx h) (nodeid h)) (fun s st =>
    ok_obj h w s (kstatfs_from st)).

Definition release s h r w : outcome :=
  try_ s w (obj ReleaseIn r) (fun '(i, _) =>
    let flush := flag (release_in_release_flags i) RELEASE_FLUSH in
    let flock_release := flag (release_in_release_flags i) RELEASE_FLOCK_UNLOCK in
    let lock_owner := when (flush || flock_release) (release_in_lock_owner i) in
    answer s h w
      (fs_release (fs s) (ctx h) (nodeid h) (release_in_flags i) (release_in_fh i) flush
         flock_release lock_owner)
      (fun s _ => ok_empty h w s)).

Definition fsync s h r w : outcome :=
  try_ s w (obj FsyncIn r) (fun '(i, _) =>
    answer s h w
      (fs_fsync (fs s) (ctx h) (nodeid h) (flag (fsync_in_fsync_flags i) 1) (fsync_in_fh i))
      (fun s _ => ok_empty h w s)).

Definition read_setxattr_in s r : res Error (SetxattrIn * nat * consumer) :=
  if has_all (options_of s) FsOptions_SETXATTR_EXT then
    '(i, r) ← obj SetxattrIn r; Ok (i, size_of SetxattrIn, r)
  else
    '(i, r) ← obj SetxattrInCompat r;
    Ok ({| setxattr_in_size := setxattr_in_compat_size i;
           setxattr_in_flags := setxattr_in_compat_flags i;
           setxattr_in_setxattr_flags := 0; setxattr_in_padding := 0 |},
        size_of SetxattrInCompat, r).

Definition setxattr s h r w : outcome :=
  try_ s w (read_setxattr_in s r) (fun '(i, setxattrin_size, r) =>
  try_ s w (payload h setxattrin_size r) (fun buf =>
  try_ s w (ok_or (nul_split buf) MissingParameter) (fun '(name, value) =>
    if setxattr_in_size i =? as_u32 (blen value) then
      try_ s w (bytes_to_cstr name) (fun name =>
      answer s h w
        (fs_setxattr (fs s) (ctx h) (nodeid h) name value (setxattr_in_flags i)
           (from_bits_truncate SetxattrFlags_members (setxattr_in_setxattr_flags i)))
        (fun s _ => ok_empty h w s))
    else (s, w_out w, Err (InvalidXattrSize (setxattr_in_size i) (length value)))))).

Definition getxattr_out (count : Z) : GetxattrOut :=
  {| getxattr_out_size := count; getxattr_out_padding := 0 |}.

Definition getxattr s h r w : outcome :=
  try_ s w (obj GetxattrIn r) (fun '(i, r) =>
  try_ s w (payload h (size_of GetxattrIn) r) (fun buf =>
    if MAX_BUFFER_SIZE <? getxattr_in_size i then fail s (Os ENOMEM) h w
    else
      try_ s w (bytes_to_cstr buf) (fun name =>
      answer s h w (fs_getxattr (fs s) (ctx h) (nodeid h) name (getxattr_in_size i))
        (fun s reply =>
           match reply with
           | Value val => ok_data h w s val
           | Count count => ok_obj h w s (getxattr_out count)
           end)))).

Definition listxattr s h r w : outcome :=
  try_ s w (obj GetxattrIn r) (fun '(i, _) =>
    if MAX_BUFFER_SIZE <? getxattr_in_size i then fail s (Os ENOMEM) h w
    else
      answer s h w (fs_listxattr (fs s) (ctx h) (nodeid h) (getxattr_in_size i))
        (fun s reply =>
           match reply with
           | Names val => ok_data h w s val
           | NamesCount count => ok_obj h w s (getxattr_out count)
           end)).

Definition removexattr s h r w : outcome :=
  try_ s w (payload h 0 r) (fun buf =>
  try_ s w (bytes_to_cstr buf) (fun name =>
  answer s h w (fs_removexattr (fs s) (ctx h) (nodeid h) name) (fun s _ => ok_empty h w s))).

Definition flush s h r w : outcome :=
  try_ s w (obj FlushIn r) (fun '(i, _) =>
    answer s h w (fs_flush (fs s) (ctx h) (nodeid h) (flush_in_fh i) (flush_in_lock_owner i))
      (fun s _ => ok_empty h w s)).

(** ** Session start: [init] *)

Definition version_out : InitOut :=
  {| init_out_major := KERNEL_VERSION; init_out_minor := KERNEL_MINOR_VERSION;
     init_out_max_readahead := 0; init_out_flags := 0;
     init_out_max_background := 0; init_out_congestion_threshold := 0; init_out_max_write := 0;
     init_out_time_gran := 0; init_out_max_pages := 0; init_out_map_alignment := 0;
     init_out_flags2 := 0; init_out_unused_0 := 0; init_out_unused_1 := 0; init_out_unused_2 := 0;
     init_out_unused_3 := 0; init_out_unused_4 := 0; init_out_unused_5 := 0;
     init_out_unused_6 := 0 |}.

(** The features the server supports by itself. *)
Definition supported : Z :=
  all_bits [FsOptions_ASYNC_READ; FsOptions_PARALLEL_DIROPS; FsOptions_BIG_WRITES;
    FsOptions_AUTO_INVAL_DATA; FsOptions_ASYNC_DIO; FsOptions_HAS_IOCTL_DIR;
    FsOptions_ATOMIC_O_TRUNC; FsOptions_MAX_PAGES; FsOptions_SUBMOUNTS; FsOptions_INIT_EXT;
    FsOptions_CREATE_SUPP_GROUP; FsOptions_ALLOW_IDMAP].

(** [flags2] of the extended part of the request, when the guest announces it. *)
Definition read_flags2 (flags : Z) r : res Error Z :=
  if has_all (from_bits_truncate FsOptions_members flags) FsOptions_INIT_EXT
  then '(i, _) ← obj InitInExt r; Ok (init_in_ext_flags2 i)
  else Ok 0.

Definition negotiated_out (max_readahead enabled max_pages : Z) : InitOut :=
  {| init_out_major := KERNEL_VERSION; init_out_minor := KERNEL_MINOR_VERSION;
     init_out_max_readahead := max_readahead; init_out_flags := as_u32 enabled;
     init_out_max_background := u16_max; init_out_congestion_threshold := (u16_max / 4) * 3;
     init_out_max_write := MAX_BUFFER_SIZE; init_out_time_gran := 1;
     init_out_max_pages := max_pages; init_out_map_alignment := 0;
     init_out_flags2 := as_u32 (Z.shiftr enabled 32);
     init_out_unused_0 := 0; init_out_unused_1 := 0; init_out_unused_2 := 0;
     init_out_unused_3 := 0; init_out_unused_4 := 0; init_out_unused_5 := 0;
     init_out_unused_6 := 0 |}.

(** [page_size] is what [sysconf(_SC_PAGESIZE)] returns. *)
Definition init (page_size : Z) s h r w : outcome :=
  try_ s w (obj InitInCompat r) (fun '(i, r) =>
  let flags := init_in_compat_flags i in
  try_ s w (read_flags2 flags r) (fun flags2 =>
    if init_in_compat_major i <? KERNEL_VERSION then fail s (Os (host_EPROTO os)) h w
    else if KERNEL_VERSION <? init_in_compat_major i then ok_obj h w s version_out
    else if init_in_compat_minor i <? MIN_KERNEL_MINOR_VERSION then fail s (Os (host_EPROTO os)) h w
    else
      let flags_64 := Z.lor (Z.shiftl flags2 32) flags in
      let capable := from_bits_truncate FsOptions_members flags_64 in
      let max_pages := (MAX_BUFFER_SIZE - 1) / page_size + 1 in
      answer s h w (fs_init (fs s) capable) (fun s want =>
        let enabled := Z.land capable (Z.lor want supported) in
        let s := {| fs := fs s; options := enabled |} in
        if max_pages <=? u16_max
        then ok_obj h w s (negotiated_out (init_in_compat_max_readahead i) enabled max_pages)
        else (s, w_out w, Panic)))).

Definition destroy s w : outcome :=
  let '(f, r) := fs_destroy (fs s) in
  match r with
  | Panic => (with_fs s f, w_out w, Panic)
  | _ => ({| fs := f; options := 0 |}, w_out w, Ok 0)
  end.

(** ** Directories *)

Definition opendir s h r w : outcome :=
  try_ s w (obj OpenIn r) (fun '(i, _) =>
    answer s h w (fs_opendir (fs s) (ctx h) (nodeid h) (open_in_flags i))
      (fun s '(handle, opts) => ok_obj h w s (open_out handle opts))).

(** The loop of [readdir].  Every entry that fits takes at least one byte of the
    [size] bytes, so [size + 1] rounds are enough. *)
Fixpoint readdir_loop (fuel : nat) (d : D) (cursor : writer) (size total_written : Z)
  : writer * io Z :=
  match fuel with
  | O => (cursor, Ok total_written)
  | S fuel' =>
      match dir_next d with
      | (_, Ok None) => (cursor, Ok total_written)
      | (_, Err e) => match e with end
      | (_, Panic) => (cursor, Panic)
      | (d', Ok (Some dirent)) =>
          let remaining := saturating_sub size total_written in
          match add_dirent os cursor remaining dirent None with
          | (cursor', Ok n) =>
              if n =? 0 then (cursor', Ok total_written)
              else readdir_loop fuel' d' cursor' size (total_written + n)
          | (cursor', Err e) => (cursor', Err e)
          | (cursor', Panic) => (cursor', Panic)
          end
      end
  end.

(** The replies of [readdir] and [readdirplus] once the loop has ended. *)
Definition reply_listing s h w (result : io Z) : outcome :=
  match result with
  | Ok total_written => finish s (reply_readdir total_written (in_header_unique h) w)
  | Err e => fail s e h w
  | Panic => (s, w_out w, Panic)
  end.

Definition readdir s h r w : outcome :=
  try_ s w (obj ReadIn r) (fun '(i, _) =>
    let size := Z.min (read_in_size i) MAX_BUFFER_SIZE in
    if available_bytes (w_chain w) <? size then fail s (Os ENOMEM) h w
    else
      split_header w (fun w cursor =>
        let '(f, entries) :=
          fs_readdir (fs s) (ctx h) (nodeid h) (read_in_fh i) size (read_in_offset i) in
        let s := with_fs s f in
        match entries with
        | Ok d =>
            let '(cursor, result) := readdir_loop (S (Z.to_nat size)) d cursor size 0 in
            finish_split cursor (reply_listing s h w result)
        | Err e => finish_split cursor (reply_listing s h w (Err e))
        | Panic => (s, w_out w, Panic)
        end)
        (s, w_out w, Panic)).

Definition dot_entry (d : DirEntry) : Entry :=
  {| entry_inode := 0; entry_generation := 0;
     entry_attr := {| attr_ino := de_ino d; attr_size := 0; attr_blocks := 0; attr_atime := 0;
       attr_mtime := 0; attr_ctime := 0; attr_atimensec := 0; attr_mtimensec := 0;
       attr_ctimensec := 0; attr_mode := as_u32 (Z.shiftl (de_type d) 12); attr_nlink := 0;
       attr_uid := 0; attr_gid := 0; attr_rdev := 0; attr_blksize := 0; attr_flags := 0 |};
     attr_timeout := from_secs 0; entry_timeout := from_secs 0 |}.

Definition is_dot (name : bytes) : bool :=
  bool_decide (name = text ".") || bool_decide (name = text "..").

Definition handle_dirent (f : F) h (d : DirEntry) : F * io Entry :=
  if is_dot (de_name d) then (f, Ok (dot_entry d))
  else fs_lookup f (ctx h) (nodeid h) (de_name d).

(** The end of the loop for an entry the guest does not get. *)
Definition forget_entry (f : F) h (e : Entry) (cursor : writer) (r : io Z) : F * writer * io Z :=
  let '(f, forgotten) := fs_forget f (ctx h) (entry_inode e) 1 in
  (f, cursor, match forgotten with Panic => Panic | _ => r end).

(** The loop of [readdirplus]: an entry that was looked up and not handed to the
    guest is forgotten again. *)
Fixpoint readdirplus_loop (fuel : nat) (f : F) h (d : D) (cursor : writer)
  (size total_written : Z) : F * writer * io Z :=
  match fuel with
  | O => (f, cursor, Ok total_written)
  | S fuel' =>
      match dir_next d with
      | (_, Ok None) => (f, cursor, Ok total_written)
      | (_, Err e) => match e with end
      | (_, Panic) => (f, cursor, Panic)
      | (d', Ok (Some dirent)) =>
          match handle_dirent f h dirent with
          | (f, Ok e) =>
              let remaining := saturating_sub size total_written in
              match add_dirent os cursor remaining dirent (Some e) with
              | (cursor', Ok n) =>
                  if n =? 0
                  then forget_entry f h e cursor' (Ok total_written)
                  else readdirplus_loop fuel' f h d' cursor' size (total_written + n)
              | (cursor', Err err) =>
                  forget_entry f h e cursor' (if total_written =? 0 then Err err else Ok total_written)
              | (cursor', Panic) => (f, cursor', Panic)
              end
          | (f, Err err) =>
              (f, cursor, if total_written =? 0 then Err err else Ok total_written)
          | (f, Panic) => (f, cursor, Panic)
          end
      end
  end.

Definition readdirplus s h r w : outcome :=
  try_ s w (obj ReadIn r) (fun '(i, _) =>
    let size := Z.min (read_in_size i) MAX_BUFFER_SIZE in
    if available_bytes (w_chain w) <? size then fail s (Os ENOMEM) h w
    else
      split_header w (fun w cursor =>
        let '(f, entries) :=
          fs_readdir (fs s) (ctx h) (nodeid h) (read_in_fh i) size (read_in_offset i) in
        match entries with
        | Ok d =>
            let '(f, cursor, result) :=
              readdirplus_loop (S (Z.to_nat size)) f h d cursor size 0 in
            finish_split cursor (reply_listing (with_fs s f) h w result)
        | Err e => finish_split cursor (reply_listing (with_fs s f) h w (Err e))
        | Panic => (with_fs s f, w_out w, Panic)
        end)
        (s, w_out w, Panic)).

Definition releasedir s h r w : outcome :=
  try_ s w (obj ReleaseIn r) (fun '(i, _) =>
    answer s h w
      (fs_releasedir (fs s) (ctx h) (nodeid h) (release_in_flags i) (release_in_fh i))
      (fun s _ => ok_empty h w s)).

Definition fsyncdir s h r w : outcome :=
  try_ s w (obj FsyncIn r) (fun '(i, _) =>
    answer s h w
      (fs_fsyncdir (fs s) (ctx h) (nodeid h) (flag (fsync_in_fsync_flags i) 1) (fsync_in_fh i))
      (fun s _ => ok_empty h w s)).

(** ** Locks, ioctls and other requests without a reply of their own *)

(** [if let Err(e) = self.fs.op() { reply_error(e, ..) } else { Ok(0) }] *)
Definition error_only s h w (r : F * io unit) : outcome :=
  answer s h w r (fun s _ => (s, w_out w, Ok 0)).

Definition getlk s h w : outcome := error_only s h w (fs_getlk (fs s)).
Definition setlk s h w : outcome := error_only s h w (fs_setlk (fs s)).
Definition setlkw s h w : outcome := error_only s h w (fs_setlkw (fs s)).
Definition bmap s h w : outcome := error_only s h w (fs_bmap (fs s)).
Definition ioctl s h w : outcome := error_only s h w (fs_ioctl (fs s)).
Definition poll s h w : outcome := error_only s h w (fs_poll (fs s)).
Definition notify_reply s h w : outcome := error_only s h w (fs_notify_reply (fs s)).

Definition access s h r w : outcome :=
  try_ s w (obj AccessIn r) (fun '(i, _) =>
    answer s h w (fs_access (fs s) (ctx h) (nodeid h) (access_in_mask i))
      (fun s _ => ok_empty h w s)).

Definition create s h r w : outcome :=
  try_ s w (obj CreateIn r) (fun '(i, r) =>
  try_ s w (payload h (size_of CreateIn) r) (fun buf =>
  try_ s w (ok_or (next_component buf) MissingParameter) (fun '(name, _) =>
  try_ s w (get_extensions (options_of s) (length name) buf) (fun extensions =>
  let kill_priv := flag (create_in_open_flags i) OPEN_KILL_SUIDGID in
  try_ s w (bytes_to_cstr name) (fun name =>
  answer s h w
    (fs_create (fs s) (ctx h) (nodeid h) name (create_in_mode i) kill_priv (create_in_flags i)
       (create_in_umask i) extensions)
    (fun s '(entry, handle, opts) =>
       finish s (reply_ok checks (Some (as_slice (entry_out_from entry)))
                   (Some (as_slice (open_out handle opts))) (in_header_unique h) w))))))).

Definition interrupt s w : outcome := (s, w_out w, Ok 0).

(** The loop of [batch_forget]. *)
Fixpoint read_forgets (count : nat) r : res Error (list (Z * Z)) :=
  match count with
  | O => Ok []
  | S n =>
      '(f, r) ← obj ForgetOne r;
      l ← read_forgets n r;
      Ok ((forget_one_nodeid f, forget_one_nlookup f) :: l)
  end.

Definition batch_forget s h r w : outcome :=
  try_ s w (obj BatchForgetIn r) (fun '(i, r) =>
    let size := batch_forget_in_count i * Z.of_nat (size_of ForgetOne) in
    if usize_max <? size then fail s (Os (host_EOVERFLOW os)) h w
    else if MAX_BUFFER_SIZE <? size then fail s (Os ENOMEM) h w
    else
      try_ s w (read_forgets (Z.to_nat (batch_forget_in_count i)) r) (fun requests =>
        silent s w (fs_batch_forget (fs s) (ctx h) requests))).

Definition fallocate s h r w : outcome :=
  try_ s w (obj FallocateIn r) (fun '(i, _) =>
    answer s h w
      (fs_fallocate (fs s) (ctx h) (nodeid h) (fallocate_in_fh i) (fallocate_in_mode i)
         (fallocate_in_offset i) (fallocate_in_length i))
      (fun s _ => ok_empty h w s)).

Definition lseek s h r w : outcome :=
  try_ s w (obj LseekIn r) (fun '(i, _) =>
    answer s h w
      (fs_lseek (fs s) (ctx h) (nodeid h) (lseek_in_fh i) (lseek_in_offset i) (lseek_in_whence i))
      (fun s offset => ok_obj h w s {| lseek_out_offset := offset |})).

Definition copyfilerange s h r w : outcome :=
  try_ s w (obj CopyfilerangeIn r) (fun '(i, _) =>
    answer s h w
      (fs_copyfilerange (fs s) (ctx h) (nodeid h) (copyfilerange_in_fh_in i)
         (copyfilerange_in_off_in i) (copyfilerange_in_nodeid_out i) (copyfilerange_in_fh_out i)
         (copyfilerange_in_off_out i) (copyfilerange_in_len i) (copyfilerange_in_flags i))
      (fun s count => ok_obj h w s {| write_out_size := as_u32 count; write_out_padding := 0 |})).

Definition syncfs s h w : outcome :=
  answer s h w (fs_syncfs (fs s) (ctx h) (nodeid h)) (fun s _ => ok_empty h w s).

(** A file system that implements [tmpfile] panics the server. *)
Definition tmpfile s h w : outcome :=
  answer s h w (fs_tmpfile (fs s)) (fun s _ => (s, w_out w, Panic)).

(** ** Dispatch *)

Definition dispatch (page_size : Z) (o : Opcode) s h r w : outcome :=
  match o with
  | OpLookup => lookup s h r w
  | OpForget => forget s h r w
  | OpGetattr => getattr s h r w
  | OpSetattr => setattr s h r w
  | OpReadlink => readlink s h w
  | OpSymlink => symlink s h r w
  | OpMknod => mknod s h r w
  | OpMkdir => mkdir s h r w
  | OpUnlink => unlink s h r w
  | OpRmdir => rmdir s h r w
  | OpRename => rename s h r w
  | OpLink => link s h r w
  | OpOpen => open s h r w
  | OpRead => read s h r w
  | OpWrite => write s h r w
  | OpStatfs => statfs s h w
  | OpRelease => release s h r w
  | OpFsync => fsync s h r w
  | OpSetxattr => setxattr s h r w
  | OpGetxattr => getxattr s h r w
  | OpListxattr => listxattr s h r w
  | OpRemovexattr => removexattr s h r w
  | OpFlush => flush s h r w
  | OpInit => init page_size s h r w
  | OpOpendir => opendir s h r w
  | OpReaddir => readdir s h r w
  | OpReleasedir => releasedir s h r w
  | OpFsyncdir => fsyncdir s h r w
  | OpGetlk => getlk s h w
  | OpSetlk => setlk s h w
  | OpSetlkw => setlkw s h w
  | OpAccess => access s h r w
  | OpCreate => create s h r w
  | OpInterrupt => interrupt s w
  | OpBmap => bmap s h w
  | OpDestroy => destroy s w
  | OpIoctl => ioctl s h w
  | OpPoll => poll s h w
  | OpNotifyReply => notify_reply s h w
  | OpBatchForget => batch_forget s h r w
  | OpFallocate => fallocate s h r w
  | OpReaddirplus => readdirplus s h r w
  | OpRename2 => rename2 s h r w
  | OpLseek => lseek s h r w
  | OpCopyFileRange => copyfilerange s h r w
  | OpSetupMapping => setupmapping s h w
  | OpRemoveMapping => removemapping s h w
  | OpSyncfs => syncfs s h w
  | OpTmpFile => tmpfile s h w
  end.

Definition handle_message (page_size : Z) s r w : outcome :=
  try_ s w (obj InHeader r) (fun '(h, r) =>
    if MAX_BUFFER_SIZE + FUSE_BUFFER_HEADER_SIZE <? in_header_len h then fail s (Os ENOMEM) h w
    else
      match opcode_try_from (in_header_opcode h) with
      | Some o => dispatch page_size o s h r w
      | None => fail s (Os (host_ENOSYS os)) h w
      end).
End Server.
