(* ===== verification/ServerSpec.v ===== *)
(** * What the FUSE server guarantees

    Theorems about src/server.rs: every reply is framed as the protocol asks, a
    directory listing holds exactly whole entries, [readdirplus] keeps the lookup
    counts of the guest and the file system equal, and a session enables only
    features both sides know. *)

From S2P Require Import Prelude OpenFlags Libc FuseTypes FuseWire.
From S2P Require Import Descriptor FileSystem Requests Replies Server.

#[local] Arguments as_slice : simpl never.

(** ** Writers whose counter is the number of bytes they have stored *)

Record tracked (w : writer) : Prop := {
  tracked_ok : chain_ok (w_chain w);
  tracked_out : bytes_written w = blen (w_out w);
}.

Lemma capacity_split w : tracked w -> capacity w = blen (w_out w) + Z.of_nat (room w).
Proof. intros [_ Ho]. unfold capacity. unfold bytes_written in Ho. lia. Qed.

Lemma write_all_tracked w d :
  tracked w ->
  let '(w', r) := write_all w d in
  tracked w' /\ capacity w' = capacity w /\ w_out w' = w_out w ++ take (room w) d /\
  (r = Ok tt /\ (length d <= room w)%nat /\ w_out w' = w_out w ++ d \/
   r = Err (Custom WriteZero)).
Proof.
  intros Hw. pose proof (capacity_split w Hw) as Hcs. destruct Hw as [Hok Ho].
  pose proof (write_all_spec w d Hok) as Hs. destruct (write_all w d) as [w' r].
  destruct Hs as (Hout & Hroom & Hok' & Hcap & ->). split_and!; [|done|done|].
  - split; [done|]. unfold capacity, bytes_written in *. rewrite Hout, blen_app, blen_take.
    unfold blen in *. lia.
  - case_decide; [left|by right]. split_and!; [done..|]. by rewrite Hout, take_ge by lia.
Qed.

Lemma write_then_inv w d k w' r :
  tracked w -> write_then w d k = (w', r) ->
  (exists w1, k w1 = (w', r) /\ tracked w1 /\ capacity w1 = capacity w /\
     w_out w1 = w_out w ++ d) \/
  (exists e, r = Err (EncodeMessage e)).
Proof.
  intros Hw. pose proof (write_all_tracked w d Hw) as Hs. unfold write_then.
  destruct (write_all w d) as [w1 q]. destruct Hs as (Hw1 & Hc & _ & [(-> & _ & Ho)| ->]).
  - intros Hk. left. eauto.
  - intros [= <- <-]. eauto.
Qed.

Lemma write_opt_inv w o k w' r :
  tracked w -> write_opt w o k = (w', r) ->
  (exists w1, k w1 = (w', r) /\ tracked w1 /\ capacity w1 = capacity w /\
     w_out w1 = w_out w ++ default [] o) \/
  (exists e, r = Err (EncodeMessage e)).
Proof.
  intros Hw. destruct o as [d|]; simpl; [by apply write_then_inv|].
  intros Hk. left. exists w. by rewrite app_nil_r.
Qed.

(** ** Frames *)

(** A reply of [n] bytes in [out]: a header with the request's id and the length
    [n], followed by at least the rest of the reply.  No reply at all is the
    result 0.  A request that cannot be decoded leaves the buffers untouched. *)
Definition framed (unique : Z) (out : bytes) (r : res Error Z) : Prop :=
  match r with
  | Ok n =>
      (n = 0 /\ out = []) \/
      exists hd rest, out = as_slice hd ++ rest /\ out_header_unique hd = unique /\
        out_header_len hd = n /\ 16 <= n <= blen out
  | Err (EncodeMessage _) => True
  | Err _ => out = []
  | Panic => True
  end.

(** The reply buffers of a request: nothing stored yet, less than 4 GiB. *)
Record fresh (w : writer) : Prop := {
  fresh_tracked : tracked w;
  fresh_out : w_out w = [];
  fresh_small : capacity w < 2 ^ 32;
}.

Lemma blen_header (h : OutHeader) : blen (as_slice h) = 16.
Proof. unfold blen. rewrite as_slice_length. done. Qed.

Lemma as_u32_small z : 0 <= z < 2 ^ 32 -> as_u32 z = z.
Proof. apply Z.mod_small. Qed.

Lemma opt_len_default o : opt_len o = blen (default [] o).
Proof. by destruct o. Qed.

Lemma reply_ok_framed checks out data unique w w' r :
  fresh w -> reply_ok checks out data unique w = (w', r) -> framed unique (w_out w') r.
Proof.
  intros [Hw Ho Hs]. unfold reply_ok. intros Hr.
  apply write_then_inv in Hr as [(w1 & Hr & Hw1 & Hc1 & Ho1)|[e ->]]; [|done..].
  apply write_opt_inv in Hr as [(w2 & Hr & Hw2 & Hc2 & Ho2)|[e ->]]; [|done..].
  apply write_opt_inv in Hr as [(w3 & Hr & Hw3 & Hc3 & Ho3)|[e ->]]; [|done..].
  rewrite Ho in Ho1. rewrite Ho1 in Ho2. rewrite Ho2 in Ho3. cbn [app] in Ho3.
  pose proof (capacity_split w3 Hw3) as Hcap. destruct Hw3 as [Hok3 Hbw].
  rewrite Ho3, !blen_app, blen_header in Hcap, Hbw. rewrite <- !opt_len_default in Hcap, Hbw.
  assert (0 <= opt_len out /\ 0 <= opt_len data) as [? ?].
  { rewrite !opt_len_default. split; apply blen_nonneg. }
  unfold debug_assert_eq in Hr. destruct (_ && _); simplify_eq; [done|]. right.
  rewrite <- app_assoc in Ho3. eexists _, _. split; [exact Ho3|]. split; [done|].
  cbn [out_header_len]. change (Z.of_nat (size_of OutHeader)) with 16 in *.
  rewrite as_u32_small by lia. rewrite Ho3, !blen_app, blen_header, <- !opt_len_default.
  split; lia.
Qed.

Lemma reply_error_framed checks os e unique w w' r :
  tracked w -> w_out w = [] -> reply_error checks os e unique w = (w', r) ->
  framed unique (w_out w') r /\ (is_ok r = true -> w_out w' <> []).
Proof.
  intros Hw Ho. unfold reply_error. intros Hr.
  apply write_then_inv in Hr as [(w1 & Hr & Hw1 & Hc1 & Ho1)|[e' ->]]; [|done..].
  rewrite Ho in Ho1. destruct Hw1 as [_ Hbw]. rewrite Ho1, blen_app, blen_header in Hbw.
  unfold debug_assert_eq in Hr. destruct (_ && _); simplify_eq; [done|]. cbn [app] in Ho1.
  change (blen []) with 0 in Hbw. split.
  - right. eexists _, []. rewrite app_nil_r. split; [exact Ho1|]. split; [done|].
    rewrite Ho1, blen_header. cbn [out_header_len]. change (Z.of_nat (size_of OutHeader)) with 16.
    lia.
  - intros _ Hn. rewrite Hn in Ho1. apply (f_equal blen) in Ho1. by rewrite blen_header in Ho1.
Qed.

(** A header written for [len] bytes that are in the second buffer. *)
Lemma reply_readdir_framed len unique w w' r (data : bytes) :
  tracked w -> w_out w = [] -> 0 <= len <= blen data -> 16 + blen data < 2 ^ 32 ->
  reply_readdir len unique w = (w', r) -> framed unique (w_out w' ++ data) r.
Proof.
  intros Hw Ho Hlen Hs. unfold reply_readdir. intros Hr.
  apply write_then_inv in Hr as [(w1 & Hr & Hw1 & Hc1 & Ho1)|[e' ->]]; [|done..].
  rewrite Ho in Ho1. cbn [app] in Ho1. simplify_eq. right. eexists _, data.
  rewrite Ho1. split; [done|]. split; [done|]. rewrite blen_app, blen_header. cbn [out_header_len].
  change (Z.of_nat (size_of OutHeader)) with 16. rewrite as_u32_small by lia. lia.
Qed.

Lemma framed_split_error unique out r (data : bytes) :
  framed unique out r -> (is_ok r = true -> out <> []) ->
  match r with Err (EncodeMessage _) | Ok _ | Panic => True | _ => False end ->
  framed unique (out ++ data) r.
Proof.
  intros Hf Hne Hr. destruct r as [n|e|]; [|by destruct e|done]. cbn [framed is_ok] in *.
  destruct Hf as [[_ ->]|(hd & rest & -> & Hu & Hl & Hn)]; [by destruct Hne|].
  right. exists hd, (rest ++ data). split; [by rewrite <- app_assoc|].
  rewrite (blen_app (as_slice hd ++ rest)). pose proof (blen_nonneg data). split_and!; try done; lia.
Qed.

(** ** Directory entries *)

(** The image of an entry in a listing: the entry data for [readdirplus], the
    fixed part, the name, and zeros up to a multiple of eight bytes. *)
Definition dirent_of (d : DirEntry) : Dirent :=
  {| dirent_ino := de_ino d; dirent_off := de_offset d;
     dirent_namelen := as_u32 (blen (de_name d)); dirent_type_ := de_type d |}.

Definition padding_of (d : DirEntry) : nat :=
  Z.to_nat (8 * ((24 + blen (de_name d) + 7) / 8) - (24 + blen (de_name d))).

Definition dirent_image (d : DirEntry) (e : option Entry) : bytes :=
  match e with Some e => as_slice (entry_out_from e) | None => [] end ++
  as_slice (dirent_of d) ++ de_name d ++ replicate (padding_of d) 0.

Lemma round_up_8 l : Z.land l (Z.lnot 7) = 8 * (l / 8).
Proof.
  rewrite <- Z.ldiff_land. change 7 with (Z.ones 3). rewrite Z.ldiff_ones_r by lia.
  rewrite Z.shiftr_div_pow2, Z.shiftl_mul_pow2 by lia. change (2 ^ 3) with 8. lia.
Qed.

Lemma dirent_image_length d e :
  blen (dirent_image d e) =
  8 * ((24 + blen (de_name d) + 7) / 8) + match e with Some _ => 128 | None => 0 end.
Proof.
  unfold dirent_image. rewrite !blen_app. unfold blen at 2 4. rewrite as_slice_length, length_replicate.
  change (size_of Dirent) with 24%nat. unfold padding_of.
  pose proof (blen_nonneg (de_name d)). pose proof (Z.div_mod (24 + blen (de_name d) + 7) 8).
  pose proof (Z.mod_pos_bound (24 + blen (de_name d) + 7) 8).
  destruct e as [e|]; [unfold blen at 1; rewrite as_slice_length; change (size_of EntryOut) with 128%nat
                      |change (blen []) with 0]; lia.
Qed.

Lemma cursor_then_inv w d k w' r :
  tracked w -> cursor_then w d k = (w', r) ->
  (exists w1, k w1 = (w', r) /\ tracked w1 /\ capacity w1 = capacity w /\
     w_out w1 = w_out w ++ d) \/
  (exists e junk, r = Err e /\ tracked w' /\ capacity w' = capacity w /\ w_out w' = w_out w ++ junk).
Proof.
  intros Hw. pose proof (write_all_tracked w d Hw) as Hs. unfold cursor_then.
  destruct (write_all w d) as [w1 q]. destruct Hs as (Hw1 & Hc & Ho1 & [(-> & _ & Ho)| ->]).
  - intros Hk. left. eauto.
  - intros [= <- <-]. right. eauto 8.
Qed.

(** What adding an entry does: nothing when it does not fit, its image when it
    does; a failing write leaves part of the image. *)
Definition added (cursor : writer) (max : Z) (image : bytes) (w' : writer) (r : io Z) : Prop :=
  tracked w' /\ capacity w' = capacity cursor /\
  match r with
  | Ok n => n = 0 /\ w' = cursor /\ max < blen image \/
            n = blen image /\ 0 < n <= max /\ w_out w' = w_out cursor ++ image
  | Err _ => exists junk, w_out w' = w_out cursor ++ junk
  | Panic => False
  end.

(** A failed write leaves a tracked cursor with part of the image. *)
Lemma added_junk cursor max image w' e junk :
  tracked w' -> capacity w' = capacity cursor -> w_out w' = w_out cursor ++ junk ->
  added cursor max image w' (Err e).
Proof. intros. split_and!; eauto. Qed.

Lemma write_dirent_spec cursor max d e w pre w' r :
  let len := 24 + blen (de_name d) in
  tracked w -> capacity w = capacity cursor -> w_out w = w_out cursor ++ pre ->
  dirent_image d e = pre ++ as_slice (dirent_of d) ++ de_name d ++ replicate (padding_of d) 0 ->
  0 < blen (dirent_image d e) <= max ->
  write_dirent w d len (8 * ((len + 7) / 8)) (blen (dirent_image d e)) = (w', r) ->
  added cursor max (dirent_image d e) w' r.
Proof.
  intros len Hw Hcap Hout Himg Hmax. unfold write_dirent. fold (dirent_of d). intros Hr.
  apply cursor_then_inv in Hr as [(w1 & Hr & Hw1 & Hc1 & Ho1)|(err & junk & -> & ? & ? & Ho1)];
    [| |done].
  2: { apply (added_junk _ _ _ _ _ (pre ++ junk)); [done|congruence|].
       by rewrite Ho1, Hout, app_assoc. }
  apply cursor_then_inv in Hr as [(w2 & Hr & Hw2 & Hc2 & Ho2)|(err & junk & -> & ? & ? & Ho2)];
    [| |done].
  2: { apply (added_junk _ _ _ _ _ (pre ++ as_slice (dirent_of d) ++ junk)); [done|congruence|].
       by rewrite Ho2, Ho1, Hout, <- !app_assoc. }
  assert (Hdone : w_out w2 ++ replicate (padding_of d) 0 = w_out cursor ++ dirent_image d e).
  { by rewrite Himg, Ho2, Ho1, Hout, <- !app_assoc. }
  unfold padding_of in Hdone. fold len in Hdone. cbn zeta in Hr.
  destruct (Z.ltb_spec 0 (8 * ((len + 7) / 8) - len)) as [Hpad|Hpad].
  - apply cursor_then_inv in Hr as [(w3 & Hr & Hw3 & Hc3 & Ho3)|(err & junk & -> & ? & ? & Ho3)];
      [| |done].
    2: { apply (added_junk _ _ _ _ _ (pre ++ as_slice (dirent_of d) ++ de_name d ++ junk));
           [done|congruence|]. by rewrite Ho3, Ho2, Ho1, Hout, <- !app_assoc. }
    simplify_eq. split_and!; [done|congruence|]. right. split_and!; [done|lia..|congruence].
  - replace (Z.to_nat (8 * ((len + 7) / 8) - len)) with 0%nat in Hdone by lia.
    rewrite app_nil_r in Hdone. simplify_eq. split_and!; [done|congruence|].
    right. split_and!; [done|lia..|congruence].
Qed.

Lemma add_dirent_spec os cursor max d e w' r :
  tracked cursor -> add_dirent os cursor max d e = (w', r) ->
  added cursor max (dirent_image d e) w' r.
Proof.
  intros Hw. pose proof (blen_nonneg (de_name d)) as Hn. unfold add_dirent.
  destruct (Z.ltb_spec u32_max (blen (de_name d))) as [Hbig|Hsmall].
  { intros [= <- <-]. apply (added_junk _ _ _ _ _ []); by rewrite ?app_nil_r. }
  change (Z.of_nat (size_of Dirent)) with 24. change (Z.of_nat (size_of EntryOut)) with 128.
  pose proof (Z.div_mod (24 + blen (de_name d) + 7) 8) as Hdm.
  pose proof (Z.mod_pos_bound (24 + blen (de_name d) + 7) 8) as Hmb.
  pose proof (dirent_image_length d e) as Hlen. unfold u32_max in Hsmall.
  rewrite (checked_add_spec _ 24), decide_True by (unfold usize_max, u64_max; lia).
  rewrite checked_add_spec, decide_True by (unfold usize_max, u64_max; lia).
  cbn zeta. rewrite round_up_8.
  assert (Htot : match e with
                 | Some _ => checked_add usize_max (8 * ((24 + blen (de_name d) + 7) / 8)) 128
                 | None => Some (8 * ((24 + blen (de_name d) + 7) / 8))
                 end = Some (blen (dirent_image d e))).
  { rewrite Hlen. destruct e; [|f_equal; lia].
    rewrite checked_add_spec, decide_True by (unfold usize_max, u64_max; lia). done. }
  rewrite Htot. destruct (Z.ltb_spec max (blen (dirent_image d e))) as [Hmax|Hmax].
  { intros [= <- <-]. split_and!; [done..|]. by left. }
  assert (0 < blen (dirent_image d e)) by (destruct e; lia).
  destruct e as [e|]; intros Hr.
  - apply cursor_then_inv in Hr as [(w1 & Hr & ? & ? & Ho1)|(err & junk & -> & ? & ? & Ho1)];
      [|by eapply added_junk|done].
    by eapply write_dirent_spec.
  - eapply (write_dirent_spec cursor max d None cursor []); try done. by rewrite app_nil_r.
Qed.

(** ** Listings *)

Section Listings.
Context {F D : Type} `{FileSystem F D} (os : HostOs).

(** The directory iterator [d] gives the entries [es] and becomes [d']. *)
Inductive yields : D -> list DirEntry -> D -> Prop :=
| yields_nil d : yields d [] d
| yields_cons d e d1 es d2 :
    dir_next d = (d1, Ok (Some e)) -> yields d1 es d2 -> yields d (e :: es) d2.

Definition listing (es : list DirEntry) : bytes := concat (map (fun d => dirent_image d None) es).

Definition listing_plus (es : list (DirEntry * Entry)) : bytes :=
  concat (map (fun x => dirent_image x.1 (Some x.2)) es).

(** The listing stops at the end of the directory or before an entry that does
    not fit into the [room] bytes that are left. *)
Definition stopped (d : D) (plus : bool) (room : Z) : Prop :=
  (dir_next d).2 = Ok None \/
  exists e, (dir_next d).2 = Ok (Some e) /\
    room < blen (dirent_image e None) + (if plus then 128 else 0).

Lemma readdir_loop_spec fuel : forall d cursor size total w' r,
  tracked cursor -> 0 <= total -> (0 < fuel)%nat -> size - total < Z.of_nat fuel ->
  readdir_loop os fuel d cursor size total = (w', r) ->
  tracked w' /\ capacity w' = capacity cursor /\
  match r with
  | Ok n => exists es d', yields d es d' /\ w_out w' = w_out cursor ++ listing es /\
              n = total + blen (listing es) /\ n <= Z.max total size /\
              stopped d' false (size - n)
  | Err _ => exists junk, w_out w' = w_out cursor ++ junk
  | Panic => exists es d', yields d es d' /\ (dir_next d').2 = Panic
  end.
Proof.
  induction fuel as [|fuel IH]; intros d cursor size total w' r Hw Ht Hf0 Hf; [lia|].
  cbn [readdir_loop]. destruct (dir_next d) as [d1 [[e|]|[]|]] eqn:Hd; cycle 2.
  { intros [= <- <-]. split_and!; [done..|]. exists [], d. rewrite Hd. split; [constructor|done]. }
  2: { intros [= <- <-]. split_and!; [done..|]. exists [], d. split; [constructor|].
    change (blen (listing [])) with 0. rewrite app_nil_r. split_and!; [done|lia|lia|].
    left. by rewrite Hd. }
  destruct (add_dirent os cursor (saturating_sub size total) e None) as [c1 [n|err|]] eqn:Ha;
    apply add_dirent_spec in Ha as (Hw1 & Hc1 & Hr); try done; cycle 1.
  { intros [= <- <-]. by split_and!. }
  rewrite saturating_sub_max in Hr. destruct Hr as [(-> & -> & Hbig)|(-> & Hn & Ho1)].
  - intros [= <- <-]. split_and!; [done..|]. exists [], d. split; [constructor|].
    change (blen (listing [])) with 0. rewrite app_nil_r. split_and!; [done|lia|lia|].
    right. exists e. rewrite Hd. split; [done|]. lia.
  - rewrite (proj2 (Z.eqb_neq _ _)) by lia. intros Hr.
    apply IH in Hr as (Hw2 & Hc2 & Hr); [|done|lia..]. split_and!; [done|congruence|].
    destruct r as [n|err|];
      [| |destruct Hr as (es & d' & Hy & Hp); exists (e :: es), d'; split; [by econstructor|done]].
    + destruct Hr as (es & d' & Hy & Ho & -> & Hle & Hstop). exists (e :: es), d'.
      unfold listing in *. cbn [map concat]. rewrite blen_app.
      split_and!; [by econstructor| |lia|lia|].
      * rewrite Ho, Ho1. by rewrite <- app_assoc.
      * match type of Hstop with stopped _ _ ?x =>
          match goal with |- stopped _ _ ?y => by replace y with x by lia end end.
    + destruct Hr as [junk Hj]. exists (dirent_image e None ++ junk).
      rewrite Hj, Ho1. by rewrite <- app_assoc.
Qed.

Context `{LC : !LookupCounts F D}.

(** How often the inode [i] is in the listing. *)
Definition occurrences (i : Z) (es : list (DirEntry * Entry)) : Z :=
  Z.of_nat (length (filter (fun x => entry_inode x.2 = i) es)).

(** The counts of [f'] are those of [f] plus one for each entry of [es].  (The
    entries for [.] and [..] carry inode 0, which stands for no inode.) *)
Definition counted (f f' : F) (es : list (DirEntry * Entry)) : Prop :=
  forall i, i <> 0 -> lookup_count f' i = lookup_count f i + occurrences i es.

Lemma handle_dirent_counts n f h d f' r :
  fs_ok (S n) f -> handle_dirent f h d = (f', r) ->
  match r with
  | Ok e => fs_ok n f' /\ counted f f' [(d, e)]
  | Err _ => fs_ok n f' /\ counted f f' []
  | Panic => True
  end.
Proof.
  intros Hf. unfold handle_dirent, counted, occurrences. destruct (is_dot (de_name d)).
  - intros [= <- <-]. split; [apply (fs_ok_le (S n)); [lia|done]|].
    intros i Hi. rewrite filter_cons_False by (simpl; congruence). simpl. lia.
  - intros Hl. pose proof (lookup_counts _ _ _ _ _ _ _ Hf Hl) as Hc.
    destruct r as [e|err|]; [| |done]; destruct Hc as [Hok Hc]; (split; [done|]); intros i Hi.
    + rewrite (Hc i). rewrite filter_cons. simpl.
      repeat case_decide; simpl; try congruence; lia.
    + rewrite (Hc i). simpl. lia.
Qed.

Lemma forget_uncounts n f f1 h d e cursor r :
  (forall i, 0 <= lookup_count f i) -> fs_ok n f1 -> counted f f1 [(d, e)] ->
  exists f2, forget_entry f1 h e cursor r = (f2, cursor, r) /\ fs_ok n f2 /\ counted f f2 [].
Proof.
  intros Hnn Hok Hc. unfold forget_entry.
  destruct (decide (entry_inode e = 0)) as [H0|H0].
  - rewrite H0. destruct (forget_none n f1 (ctx h) 1 Hok) as (f2 & -> & Hok2 & Hs).
    exists f2. split; [done|]. split; [done|]. intros i Hi. specialize (Hc i Hi). rewrite Hs, Hc.
    unfold occurrences. rewrite filter_cons_False by (simpl; congruence). done.
  - pose proof (Hc _ H0) as Hce. unfold occurrences in Hce.
    rewrite filter_cons_True in Hce by done. simpl in Hce. specialize (Hnn (entry_inode e)).
    destruct (forget_counts n f1 (ctx h) (entry_inode e) 1 Hok) as (f2 & -> & Hok2 & Hs); [lia|].
    exists f2. split; [done|]. split; [done|]. intros i Hi. rewrite Hs, (Hc i Hi).
    unfold occurrences. rewrite filter_cons. simpl. repeat case_decide; simpl; try congruence; lia.
Qed.

Lemma counted_app f f1 f2 es1 es2 :
  counted f f1 es1 -> counted f1 f2 es2 -> counted f f2 (es1 ++ es2).
Proof.
  intros H1 H2 i Hi. rewrite (H2 i Hi), (H1 i Hi). unfold occurrences.
  rewrite filter_app, length_app. lia.
Qed.

Lemma counted_nil f : counted f f [].
Proof. intros i Hi. unfold occurrences. simpl. lia. Qed.

Lemma forget_entry_inv f1 h e c r f2 w' r' :
  forget_entry f1 h e c r = (f2, w', r') ->
  r' = Panic \/
  (w' = c /\ r' = r /\
   forall n f d, fs_ok n f -> fs_ok n f1 -> counted f f1 [(d, e)] -> counted f f2 []).
Proof.
  intros Hf. assert (r' = Panic \/ (w' = c /\ r' = r)) as [->|[-> ->]]; [|by left|right].
  { unfold forget_entry in Hf. destruct (fs_forget _ _ _ _) as [f3 [[]|[]|]]; simplify_eq; auto. }
  do 2 (split; [done|]). intros n f d Hok Hok1 Hc.
  destruct (forget_uncounts n f f1 h d e c r) as (f3 & Hf3 & _ & Hc3); [|done..|].
  { intros i. by eapply lookup_count_nonneg. }
  rewrite Hf3 in Hf. by simplify_eq.
Qed.

(** The state of the loop when it ends with an entry that is not handed out. *)
Lemma loop_stopped f (d : D) cursor size total f' w' junk (P : Prop) :
  tracked w' -> capacity w' = capacity cursor -> w_out w' = w_out cursor ++ junk ->
  (P -> counted f f' []) ->
  tracked w' /\ capacity w' = capacity cursor /\ total <= Z.max total size /\
    exists es d' junk, yields d (es.*1) d' /\ (P -> counted f f' es) /\
      w_out w' = w_out cursor ++ listing_plus es ++ junk /\
      total = total + blen (listing_plus es).
Proof.
  intros ? ? ? ?. split_and!; [done..|lia|].
  exists [], d, junk. split_and!; [constructor|done|done|]. change (blen (listing_plus [])) with 0. lia.
Qed.

Lemma readdirplus_loop_spec fuel : forall f h d cursor size total f' w' r,
  tracked cursor -> 0 <= total -> (0 < fuel)%nat -> size - total < Z.of_nat fuel ->
  readdirplus_loop os fuel f h d cursor size total = (f', w', r) ->
  match r with
  | Ok n => tracked w' /\ capacity w' = capacity cursor /\ n <= Z.max total size /\
      exists es d' junk, yields d (es.*1) d' /\ (fs_ok fuel f -> counted f f' es) /\
        w_out w' = w_out cursor ++ listing_plus es ++ junk /\ n = total + blen (listing_plus es)
  | Err _ => total = 0 /\ tracked w' /\ capacity w' = capacity cursor /\
      (fs_ok fuel f -> counted f f' []) /\ exists junk, w_out w' = w_out cursor ++ junk
  | Panic => True
  end.
Proof.
  induction fuel as [|fuel IH]; intros f h d cursor size total f' w' r Hw Ht Hf0 Hf; [lia|].
  assert (Hdec : fs_ok (S fuel) f -> fs_ok fuel f) by (apply fs_ok_le; lia).
  cbn [readdirplus_loop]. destruct (dir_next d) as [d1 [[e|]|[]|]] eqn:Hd; cycle 2.
  { by intros [= <- <- <-]. }
  2: { intros [= <- <- <-]. apply (loop_stopped _ _ _ _ _ _ _ []); try done;
      [by rewrite app_nil_r|intros; apply counted_nil]. }
  destruct (handle_dirent f h e) as [f1 r1] eqn:He.
  pose proof (fun Hok => handle_dirent_counts fuel f h e f1 r1 Hok He) as Hcnt1. clear He.
  destruct r1 as [en|err|]; cycle 1.
  { assert (fs_ok (S fuel) f -> counted f f1 []) by (intros Hok; by apply Hcnt1).
    intros [= <- <- <-]. destruct (Z.eqb_spec total 0).
    - split_and!; [done..|]. exists []. by rewrite app_nil_r.
    - apply (loop_stopped _ _ _ _ _ _ _ []); try done. by rewrite app_nil_r. }
  { by intros [= <- <- <-]. }
  destruct (add_dirent os cursor (saturating_sub size total) e (Some en)) as [c1 [n|err|]] eqn:Ha;
    apply add_dirent_spec in Ha as (Hw1 & Hc1 & Hr); try done; cycle 1.
  { destruct Hr as [junk Hj]. intros Hg. apply forget_entry_inv in Hg as [->|(-> & -> & Hg)]; [done|].
    assert (fs_ok (S fuel) f -> counted f f' []).
    { intros Hok. destruct (Hcnt1 Hok). eapply (Hg fuel); eauto. }
    destruct (Z.eqb_spec total 0).
    - split_and!; eauto.
    - by apply (loop_stopped _ _ _ _ _ _ _ junk). }
  rewrite saturating_sub_max in Hr. destruct Hr as [(-> & -> & Hbig)|(-> & Hn & Ho1)].
  - intros Hg. cbn [Z.eqb] in Hg. apply forget_entry_inv in Hg as [->|(-> & -> & Hg)]; [done|].
    apply (loop_stopped _ _ _ _ _ _ _ []); try done; [by rewrite app_nil_r|].
    intros Hok. destruct (Hcnt1 Hok). eapply (Hg fuel); eauto.
  - rewrite (proj2 (Z.eqb_neq _ _)) by lia. intros Hr.
    apply IH in Hr; [|done|lia..]. destruct r as [n|err|]; [|destruct Hr; lia|done].
    destruct Hr as (Hw2 & Hc2 & Hle & es & d' & junk & Hy & Hcnt & Ho & ->).
    split_and!; [done|congruence|lia|]. exists ((e, en) :: es), d', junk.
    unfold listing_plus in *. cbn [map concat fst snd fmap list_fmap]. rewrite blen_app.
    split_and!; [by econstructor| | |lia].
    + intros Hok. destruct (Hcnt1 Hok). apply (counted_app f f1 f' [(e, en)] es); auto.
    + rewrite Ho, Ho1. by rewrite <- !app_assoc.
Qed.
End Listings.

(** ** Every reply is framed *)

Section Frames.
Context {F D : Type} `{FileSystem F D} (checks : bool) (os : HostOs).
Implicit Types (s : Server F) (h : InHeader) (w : writer).

Definition good h (o : outcome (F := F)) : Prop := framed (in_header_unique h) o.1.2 o.2.

Lemma good_stop h s w e : w_out w = [] -> good h (s, w_out w, Err e).
Proof. intros Ho. unfold good. simpl. by destruct e. Qed.

Lemma good_none h s w : w_out w = [] -> good h (s, w_out w, Ok 0).
Proof. intros Ho. left. done. Qed.

Lemma good_silent h s w r : w_out w = [] -> good h (silent s w r).
Proof. intros Ho. unfold silent. destruct (r.2); [by left| |done]. done. Qed.

Lemma good_try {A} h s w (q : res Error A) k :
  fresh w -> (forall a, good h (k a)) -> good h (try_ s w q k).
Proof.
  intros Hw Hk. unfold try_. destruct q as [a|e|]; [apply Hk| |done].
  apply good_stop, fresh_out, Hw.
Qed.

Lemma good_fail h s w e : fresh w -> good h (fail checks os s e h w).
Proof.
  intros [Hw Ho _]. unfold good, fail, finish. simpl.
  destruct (reply_error checks os e (in_header_unique h) w) as [w' r] eqn:Hr.
  by eapply reply_error_framed in Hr as [? _].
Qed.

Lemma good_ok h s w out data :
  fresh w -> good h (finish s (reply_ok checks out data (in_header_unique h) w)).
Proof.
  intros Hw. unfold good, finish. simpl.
  destruct (reply_ok checks out data (in_header_unique h) w) as [w' r] eqn:Hr.
  by eapply reply_ok_framed.
Qed.

Lemma good_answer {A} h s w (r : F * io A) ok :
  fresh w -> (forall s a, good h (ok s a)) -> good h (answer checks os s h w r ok).
Proof.
  intros Hw Hok. unfold answer. destruct (r.2); [apply Hok|by apply good_fail|done].
Qed.

Lemma good_error_only h s w (r : F * io unit) :
  fresh w -> good h (error_only checks os s h w r).
Proof. intros Hw. apply good_answer; [done|]. intros. apply good_none, fresh_out, Hw. Qed.

Lemma tracked_empty c :
  chain_ok c -> bytes_consumed c = 0 -> tracked {| w_chain := c; w_out := [] |}.
Proof. intros Hc Hb. by split. Qed.

(** The two writers of a split reply. *)
Lemma split_writers w a b :
  fresh w -> split_at (w_chain w) 16 = Ok (a, b) ->
  tracked {| w_chain := a; w_out := w_out w |} /\ tracked {| w_chain := b; w_out := [] |} /\
  16 + capacity {| w_chain := b; w_out := [] |} < 2 ^ 32.
Proof.
  intros [Hw Ho Hs] Hsp. pose proof (split_at_spec (w_chain w) 16 ltac:(lia)) as Hspec.
  rewrite Hsp in Hspec. destruct Hspec as (Hva & Hvb & Hca & Hcb & Hle).
  pose proof (capacity_split w Hw) as Hcap. destruct Hw as [[Hok1 Hok2] Hbw].
  unfold bytes_written in Hbw. rewrite Ho in *. change (blen []) with 0 in *.
  unfold room in Hcap. unfold blen in Hle, Hok2. split_and!.
  - apply tracked_empty; [|congruence]. split; [lia|]. unfold blen.
    rewrite Hva, length_take. lia.
  - apply tracked_empty; [|done]. split; [lia|]. unfold blen. rewrite Hvb, length_drop. lia.
  - unfold capacity, room. simpl. rewrite Hcb, Hvb, length_drop. lia.
Qed.

Lemma good_split h w k panic :
  fresh w -> good h panic ->
  (forall a b, tracked a -> w_out a = [] -> tracked b -> w_out b = [] ->
     16 + capacity b < 2 ^ 32 -> good h (k a b)) ->
  good h (split_header w k panic).
Proof.
  intros Hw Hp Hk. unfold split_header. change (Z.of_nat (size_of OutHeader)) with 16.
  destruct (split_at (w_chain w) 16) as [[a b]|e|] eqn:Hs; [|done..].
  apply split_writers in Hs as (Ha & Hb & Hc); [|done]. apply Hk; try done. apply Hw.
Qed.

(** An error reply next to whatever the data writer has stored. *)
Lemma good_split_fail h s w data e :
  tracked w -> w_out w = [] -> good h (finish_split data (fail checks os s e h w)).
Proof.
  intros Hw Ho. unfold good, finish_split, fail, finish. simpl.
  destruct (reply_error checks os e (in_header_unique h) w) as [w' r] eqn:Hr. simpl.
  pose proof Hr as Hr2. eapply reply_error_framed in Hr2 as [Hf Hne]; [|done..].
  apply framed_split_error; [done..|]. unfold reply_error in Hr.
  apply write_then_inv in Hr as [(w1 & Hr & _)|[e' ->]]; [|done..].
  unfold debug_assert_eq in Hr. by destruct (_ && _); simplify_eq.
Qed.

Lemma good_listing h s w data n :
  tracked w -> w_out w = [] -> 0 <= n <= blen (w_out data) -> 16 + blen (w_out data) < 2 ^ 32 ->
  good h (finish_split data (finish s (reply_readdir n (in_header_unique h) w))).
Proof.
  intros Hw Ho Hn Hs. unfold good, finish_split, finish. simpl.
  destruct (reply_readdir n (in_header_unique h) w) as [w' r] eqn:Hr. simpl.
  by eapply reply_readdir_framed.
Qed.

Ltac handler :=
  repeat match goal with
  | |- good _ (try_ _ _ _ _) => apply good_try; [done|intros ?]
  | |- good _ (answer _ _ _ _ _ _ _) => apply good_answer; [done|intros ? ?]
  | |- good _ (error_only _ _ _ _ _ _) => by apply good_error_only
  | |- good _ (fail _ _ _ _ _ _) => by apply good_fail
  | |- good _ (finish _ (reply_ok _ _ _ _ _)) => by apply good_ok
  | |- good _ (ok_obj _ _ _ _ _) => by apply good_ok
  | |- good _ (ok_data _ _ _ _ _) => by apply good_ok
  | |- good _ (ok_empty _ _ _ _) => by apply good_ok
  | |- good _ (silent _ _ _) => by apply good_silent, fresh_out
  | |- good _ (_, w_out _, Ok 0) => by apply good_none, fresh_out
  | |- good _ (_, w_out _, Err _) => by apply good_stop, fresh_out
  | |- good _ (_, _, Panic) => done
  | |- good _ (let '(_, _) := ?x in _) => destruct x
  | |- good _ (let _ := _ in _) => cbn zeta
  | |- good _ (if ?b then _ else _) => destruct b
  | |- good _ (match ?x with _ => _ end) => destruct x
  end.

Lemma do_rename_good s h size newdir flags r w :
  fresh w -> good h (do_rename checks os s h size newdir flags r w).
Proof. intros Hw. unfold do_rename. handler. Qed.

Context `{RC : !ReadContract F D}.

Lemma read_good s h r w : fresh w -> good h (read checks os s h r w).
Proof.
  intros Hw. unfold read. apply good_try; [done|]. intros [i r']. cbn zeta.
  apply good_split; [done|done|]. intros a b Ha Hoa Hb Hob Hcap.
  destruct (fs_read _ _ _ _ _ _ _ _ _) as [[f b'] res] eqn:Hread. unfold answer. cbn [fst snd].
  destruct res as [n|e|]; [|by apply good_split_fail|done].
  apply read_stores in Hread as (data & Ho & Hn & Hroom & Hsize); [|apply Hb].
  rewrite Hob in Ho. cbn [app] in Ho. pose proof (blen_nonneg data). subst n.
  pose proof (capacity_split b Hb) as Hcs. rewrite Hob in Hcs. change (blen []) with 0 in Hcs.
  apply good_listing; try done; rewrite Ho; [lia|]. unfold blen in *. lia.
Qed.

Lemma cursor_bound b b' :
  tracked b -> w_out b = [] -> tracked b' -> capacity b' = capacity b -> 16 + capacity b < 2 ^ 32 ->
  16 + blen (w_out b') < 2 ^ 32.
Proof. intros Hb Ho Hb' Hc Hs. rewrite <- Hc, (capacity_split b' Hb') in Hs. lia. Qed.

Lemma readdir_good s h r w : fresh w -> good h (readdir checks os s h r w).
Proof.
  intros Hw. unfold readdir. apply good_try; [done|]. intros [i r']. cbn zeta.
  destruct (_ <? _); [by apply good_fail|]. apply good_split; [done|done|].
  intros a b Ha Hoa Hb Hob Hcap. destruct (fs_readdir _ _ _ _ _ _) as [f [d|e|]];
    [|by apply good_split_fail|done].
  set (size := Z.min _ _). destruct (readdir_loop os _ d b size 0) as [b' res] eqn:Hl.
  apply readdir_loop_spec in Hl as (Hb' & Hc' & Hr); [|done|lia..].
  destruct res as [n|e|]; cbn [reply_listing]; [|by apply good_split_fail|done].
  destruct Hr as (es & d' & _ & Ho & -> & _). rewrite Hob in Ho. cbn [app] in Ho.
  pose proof (blen_nonneg (listing es)). apply good_listing; try done; [rewrite Ho; lia|].
  by apply (cursor_bound b b').
Qed.

Context `{LC : !LookupCounts F D}.

Lemma readdirplus_good s h r w : fresh w -> good h (readdirplus checks os s h r w).
Proof.
  intros Hw. unfold readdirplus. apply good_try; [done|]. intros [i r']. cbn zeta.
  destruct (_ <? _); [by apply good_fail|]. apply good_split; [done|done|].
  intros a b Ha Hoa Hb Hob Hcap. destruct (fs_readdir _ _ _ _ _ _) as [f [d|e|]];
    [|by apply good_split_fail|done].
  set (size := Z.min _ _). destruct (readdirplus_loop os _ f h d b size 0) as [[f' b'] res] eqn:Hl.
  apply (readdirplus_loop_spec os) in Hl; [|done|lia..].
  destruct res as [n|e|]; cbn [reply_listing]; [|by apply good_split_fail|done].
  destruct Hl as (Hb' & Hc' & _ & es & d' & junk & _ & _ & Ho & ->). rewrite Hob in Ho. cbn [app] in Ho.
  pose proof (blen_nonneg (listing_plus es)). pose proof (blen_nonneg junk).
  apply good_listing; try done; [rewrite Ho, blen_app; lia|]. by apply (cursor_bound b b').
Qed.

Lemma dispatch_good page_size o s h r w :
  fresh w -> good h (dispatch checks os page_size o s h r w).
Proof.
  intros Hw. destruct o; cbn [dispatch]; auto using read_good, readdir_good, readdirplus_good.
  all: try (unfold lookup, forget, getattr, setattr, readlink, symlink, mknod, mkdir, unlink, rmdir,
    link, open, write, statfs, release, fsync, setxattr, getxattr, listxattr, removexattr, flush,
    init, destroy, opendir, releasedir, fsyncdir, getlk, setlk, setlkw, access, create, interrupt, bmap,
    ioctl, poll, notify_reply, batch_forget, fallocate, lseek, copyfilerange, setupmapping,
    removemapping, syncfs, tmpfile, rename, rename2; handler).
  all: by apply do_rename_good.
Qed.

Lemma message_framed page_size s r w :
  fresh w ->
  let '(s', out, res) := handle_message checks os page_size s r w in
  match obj InHeader r with
  | Ok (h, _) => framed (in_header_unique h) out res
  | _ => out = [] /\ is_ok res = false
  end.
Proof.
  intros Hw. unfold handle_message, try_. destruct (obj InHeader r) as [[h r']|e|] eqn:Ho.
  - assert (Hg : good h (if MAX_BUFFER_SIZE + FUSE_BUFFER_HEADER_SIZE <? in_header_len h
      then fail checks os s (Os ENOMEM) h w
      else match opcode_try_from (in_header_opcode h) with
           | Some o => dispatch checks os page_size o s h r' w
           | None => fail checks os s (Os (host_ENOSYS os)) h w
           end)).
    { destruct (_ <? _); [by apply good_fail|].
      destruct (opcode_try_from _); [by apply dispatch_good|by apply good_fail]. }
    unfold good in Hg. revert Hg.
    match goal with |- framed _ ?o.1.2 ?o.2 -> _ => by destruct o as [[s' out] res] end.
  - split; [apply Hw|done].
  - split; [apply Hw|done].
Qed.

Lemma readdirplus_counts s h r w s' out n :
  fs_ok (Z.to_nat (MAX_BUFFER_SIZE + 1)) (fs s) ->
  fresh w -> readdirplus checks os s h r w = (s', out, Ok n) ->
  exists es, counted (fs s) (fs s') es /\
    (es = [] \/ exists hd junk, out = as_slice hd ++ listing_plus es ++ junk /\
       out_header_error hd = 0 /\ out_header_len hd = 16 + blen (listing_plus es)).
Proof.
  intros Hroom Hw. unfold readdirplus, try_.
  destruct (obj ReadIn r) as [[i r']|e|]; [|done..]. cbn zeta.
  assert (Hsame : forall f, (forall j, lookup_count f j = lookup_count (fs s) j) ->
    counted (fs s) f []) by (intros f Hf j _; rewrite Hf; unfold occurrences; simpl; lia).
  destruct (_ <? _).
  { intros Hf. exists []. split; [|by left]. unfold fail, finish in Hf. simplify_eq. by apply Hsame. }
  unfold split_header. change (Z.of_nat (size_of OutHeader)) with 16.
  destruct (split_at (w_chain w) 16) as [[a b]|e|] eqn:Hsp; [|done..].
  apply split_writers in Hsp as (Ha & Hcur & Hcap); [|done].
  destruct (fs_readdir _ _ _ _ _ _) as [f entries] eqn:Hrd.
  destruct (readdir_counts _ _ _ _ _ _ _ _ _ Hroom Hrd) as [Hokf Hcnt].
  assert (Hstart : counted (fs s) f []) by (by apply Hsame).
  destruct entries as [d|e|]; [| |done].
  2: { unfold finish_split, reply_listing, fail, finish. intros Hf. exists [].
       split; [|by left]. by simplify_eq. }
  set (size := Z.min _ _). assert (Hsize : fs_ok (S (Z.to_nat size)) f).
  { apply (fs_ok_le (Z.to_nat (MAX_BUFFER_SIZE + 1))); [|done].
    unfold size, MAX_BUFFER_SIZE. lia. }
  set (cur := {| w_chain := b; w_out := [] |}) in *.
  destruct (readdirplus_loop os _ f h d cur size 0) as [[f' b'] result] eqn:Hl.
  apply (readdirplus_loop_spec os) in Hl; [|done|lia..]. destruct result as [m|e|]; [| |done].
  - destruct Hl as (Hb' & Hc' & _ & es & d' & junk & _ & Hes & Ho & Hm).
    unfold finish_split, reply_listing, finish. intros Hr. exists es.
    split; [simplify_eq; apply (counted_app (fs s) f f' [] es); auto|]. right.
    destruct (reply_readdir m (in_header_unique h) _) as [w1 q] eqn:Hq. cbn [fst snd] in Hr.
    simplify_eq.
    unfold reply_readdir in Hq. apply write_then_inv in Hq as [(w2 & Hq & _ & _ & Ho2)|[e ?]];
      [|done..]. simplify_eq. cbn [w_out app fst snd cur] in *.
    rewrite (fresh_out _ Hw) in Ho2. cbn [app] in Ho2. rewrite Ho2, Ho.
    eexists _, junk. split; [done|]. split; [done|]. cbn [out_header_len].
    change (Z.of_nat (size_of OutHeader)) with 16. rewrite Z.add_0_l. apply as_u32_small.
    pose proof (cursor_bound cur b' Hcur eq_refl Hb' Hc' Hcap) as Hbound.
    rewrite Ho, blen_app in Hbound. pose proof (blen_nonneg (listing_plus es)).
    pose proof (blen_nonneg junk). lia.
  - destruct Hl as (_ & _ & _ & Hes & _). unfold finish_split, reply_listing, fail, finish.
    intros Hr. exists []. split; [|by left]. simplify_eq.
    apply (counted_app (fs s) f f' [] []); auto.
Qed.
(** Every request is answered in the protocol's frame, for every file system
    that keeps the contract of [read] and of the lookup counts.  If the header of
    the request can be read, the reply (if any) starts with a header that carries
    the request's unique id and the exact length of the reply, and that length is
    the one reported to the transport; a request that cannot be decoded writes
    nothing.  If the header cannot be read, nothing is written at all. *)
Theorem replies_framed page_size s r w :
  fresh w ->
  let '(s', out, res) := handle_message checks os page_size s r w in
  match obj InHeader r with
  | Ok (h, _) => framed (in_header_unique h) out res
  | _ => out = [] /\ is_ok res = false
  end.
Proof. apply message_framed. Qed.

(** [readdirplus] and the guest agree on the lookup counts, for every file
    system that counts as documented: a request answered at all leaves the count
    of every inode raised by exactly the number of times the inode appears in the
    entries handed to the guest.  The reply holds whole entries in directory order,
    and an entry that no longer fits, or could not be stored, is not counted.  (The
    file system's counters have room for the lookups of one request.) *)
Theorem readdirplus_lookup_counts s h r w s' out n :
  fs_ok (Z.to_nat (MAX_BUFFER_SIZE + 1)) (fs s) ->
  fresh w -> readdirplus checks os s h r w = (s', out, Ok n) ->
  exists es, counted (fs s) (fs s') es /\
    (es = [] \/ exists hd junk, out = as_slice hd ++ listing_plus es ++ junk /\
       out_header_error hd = 0 /\ out_header_len hd = 16 + blen (listing_plus es)).
Proof. apply readdirplus_counts. Qed.
End Frames.

(** ** Session start *)

Section Session.
Context {F D : Type} `{FileSystem F D} (checks : bool) (os : HostOs).

Lemma two_halves x :
  Z.land x (Z.ones 64) = x -> as_u32 x + 2 ^ 32 * as_u32 (Z.shiftr x 32) = x.
Proof.
  rewrite Z.land_ones by lia. intros Hx. unfold as_u32. rewrite Z.shiftr_div_pow2 by lia.
  pose proof (Z.mod_pos_bound x (2 ^ 64)). rewrite (Z.mod_small (x / 2 ^ 32)).
  - pose proof (Z.div_mod x (2 ^ 32)). lia.
  - split; [apply Z.div_pos; lia|apply Z.div_lt_upper_bound; lia].
Qed.

Lemma known_bits y z :
  let x := Z.land (from_bits_truncate FsOptions_members y) z in Z.land x (Z.ones 64) = x.
Proof.
  intros x. unfold x, from_bits_truncate.
  rewrite <- !Z.land_assoc. f_equal. rewrite (Z.land_comm z), !Z.land_assoc. f_equal.
Qed.

(** C27: A session is set up with features both sides know.  When [INIT] is
    answered for protocol version 7, the options in force are those bits that the
    guest offered, that the protocol defines, and that the file system asked for or
    the server supports; the two halves of the reply's flags carry exactly these
    options.  In every other case (an older or newer protocol version, an error) the
    options are left as they were. *)
Theorem init_negotiates page_size s h r w i r1 flags2 s' out n :
  fresh w ->
  obj InitInCompat r = Ok (i, r1) -> read_flags2 (init_in_compat_flags i) r1 = Ok flags2 ->
  init checks os page_size s h r w = (s', out, Ok n) ->
  let offered := Z.lor (Z.shiftl flags2 32) (init_in_compat_flags i) in
  options s' = options s /\
  (init_in_compat_major i <> KERNEL_VERSION \/
   init_in_compat_minor i < MIN_KERNEL_MINOR_VERSION \/
   exists f e, fs_init (fs s) (from_bits_truncate FsOptions_members offered) = (f, Err e)) \/
  init_in_compat_major i = KERNEL_VERSION /\ MIN_KERNEL_MINOR_VERSION <= init_in_compat_minor i /\
  exists want hd reply,
    fs_init (fs s) (from_bits_truncate FsOptions_members offered) = (fs s', Ok want) /\
    (forall b, Z.testbit (options s') b =
       Z.testbit offered b && Z.testbit (all_bits FsOptions_members) b &&
       (Z.testbit want b || Z.testbit supported b)) /\
    out = as_slice hd ++ as_slice reply /\ out_header_error hd = 0 /\
    init_out_flags reply + 2 ^ 32 * init_out_flags2 reply = options s'.
Proof.
  intros Hw Hi Hf Hinit offered. unfold init, try_ in Hinit. rewrite Hi in Hinit. cbn zeta in Hinit.
  rewrite Hf in Hinit. fold offered in Hinit.
  destruct (Z.ltb_spec (init_in_compat_major i) KERNEL_VERSION).
  { left. unfold fail, finish in Hinit. simplify_eq. split; [done|]. lia. }
  destruct (Z.ltb_spec KERNEL_VERSION (init_in_compat_major i)).
  { left. unfold ok_obj, finish in Hinit. simplify_eq. split; [done|]. lia. }
  destruct (Z.ltb_spec (init_in_compat_minor i) MIN_KERNEL_MINOR_VERSION).
  { left. unfold fail, finish in Hinit. simplify_eq. split; [done|]. lia. }
  unfold answer in Hinit. destruct (fs_init _ _) as [f [want|e|]] eqn:Hfs; cbn [fst snd] in Hinit;
    [| |done].
  2: { left. unfold fail, finish in Hinit. simplify_eq. split; [done|]. eauto. }
  right. destruct (_ <=? u16_max); [|done]. unfold ok_obj, finish in Hinit.
  destruct (reply_ok _ _ _ _ _) as [w' q] eqn:Hr. cbn [fst snd] in Hinit. simplify_eq.
  split; [lia|]. split; [done|].
  unfold reply_ok in Hr. apply write_then_inv in Hr as [(w1 & Hr & Hw1 & _ & Ho1)|[e ?]];
    [|done|apply Hw].
  apply write_opt_inv in Hr as [(w2 & Hr & Hw2 & _ & Ho2)|[e ?]]; [|done..].
  apply write_opt_inv in Hr as [(w3 & Hr & Hw3 & _ & Ho3)|[e ?]]; [|done..].
  unfold debug_assert_eq in Hr. destruct (_ && _); simplify_eq.
  eexists want, _, _. split; [done|]. split.
  { intros b. cbn [options fs with_fs]. unfold from_bits_truncate.
    by rewrite !Z.land_spec, Z.lor_spec. }
  split.
  { cbn [default] in Ho2, Ho3. rewrite app_nil_r in Ho3.
    rewrite Ho3, Ho2, Ho1, (fresh_out _ Hw). reflexivity. }
  split; [done|]. cbn [init_out_flags init_out_flags2 negotiated_out options].
  apply two_halves, known_bits.
Qed.

(** The reply buffers hold at least a reply header. *)
Definition header_fits (w : writer) : bool :=
  Z.of_nat (size_of OutHeader) <=? blen (view (w_chain w)).

(** A guest can panic the daemon with a [READ], [READDIR] or [READDIRPLUS]
    request whose reply buffers are too short for a reply header: the room for the
    header is set aside with an unchecked split.  (A directory listing must also ask
    for no more than the buffers hold, or it is refused first.) *)
Theorem short_reply_panics s h r w i r1 :
  obj ReadIn r = Ok (i, r1) -> header_fits w = false ->
  (read checks os s h r w).2 = Panic /\
  (Z.min (read_in_size i) MAX_BUFFER_SIZE <= available_bytes (w_chain w) ->
   (readdir checks os s h r w).2 = Panic /\ (readdirplus checks os s h r w).2 = Panic).
Proof.
  intros Hi Hlen. apply Z.leb_gt in Hlen. assert (Hs : forall k (p : outcome (F := F)), p.2 = Panic ->
    (split_header w k p).2 = Panic).
  { intros k p Hp. unfold split_header. change (Z.of_nat (size_of OutHeader)) with 16.
    pose proof (split_at_spec (w_chain w) 16 ltac:(lia)) as Hsp.
    destruct (split_at (w_chain w) 16) as [[a b]|e|]; [|done..]. destruct Hsp as (_ & _ & _ & _ & ?).
    change (Z.of_nat (size_of OutHeader)) with 16 in Hlen. lia. }
  unfold read, readdir, readdirplus, try_. rewrite Hi. cbn zeta. split; [by apply Hs|].
  intros Hav. rewrite (proj2 (Z.ltb_ge _ _)) by lia. split; by apply Hs.
Qed.
End Session.

(** ** A small file system

    One file, with inode 5 and the contents 1, 2, 3, behind every name, and one
    directory whose listing is fixed; the state is the lookup count of each inode. *)

Definition five (e : Attr) : Entry :=
  {| entry_inode := 5; entry_generation := 0; entry_attr := e;
     attr_timeout := from_secs 0; entry_timeout := from_secs 0 |}.

Definition nosys {A} (f : Z -> nat) : (Z -> nat) * io A := (f, Err (Os (host_ENOSYS HostMacos))).

Definition five_attr : Attr :=
  {| attr_ino := 5; attr_size := 3; attr_blocks := 1; attr_atime := 0; attr_mtime := 0;
     attr_ctime := 0; attr_atimensec := 0; attr_mtimensec := 0; attr_ctimensec := 0;
     attr_mode := 33188; attr_nlink := 1; attr_uid := 0; attr_gid := 0; attr_rdev := 0;
     attr_blksize := 512; attr_flags := 0 |}.

Definition five_dir : list DirEntry :=
  [{| de_ino := 5; de_offset := 1; de_type := 8; de_name := text "a" |};
   {| de_ino := 5; de_offset := 2; de_type := 8; de_name := text "b" |}].

Definition five_read (f : Z -> nat) (w : writer) (size : Z) : (Z -> nat) * writer * io Z :=
  let data := take (Nat.min (Z.to_nat size) (room w)) [1; 2; 3] in
  if size <? 0 then (f, w, Err (Os EINVAL))
  else (f, {| w_chain := w_chain w; w_out := w_out w ++ data |}, Ok (blen data)).

#[local] Instance FiveFs : FileSystem (Z -> nat) (list DirEntry) := {|
  dir_next l := match l with [] => ([], Ok None) | d :: l' => (l', Ok (Some d)) end;
  fs_init f _ := (f, Ok FsOptions_DO_READDIRPLUS);
  fs_destroy f := (f, Ok tt);
  fs_lookup f _ _ _ := (fun i => if decide (i = 5) then S (f i) else f i, Ok (five five_attr));
  fs_forget f _ i n := (fun j => if decide (j = i) then (f j - Z.to_nat n)%nat else f j, Ok tt);
  fs_batch_forget f _ _ := (f, Ok tt);
  fs_getattr f _ _ _ := (f, Ok (five_attr, from_secs 0));
  fs_setattr f _ _ _ _ _ := nosys f; fs_readlink f _ _ := nosys f;
  fs_symlink f _ _ _ _ _ := nosys f; fs_mknod f _ _ _ _ _ _ _ := nosys f;
  fs_mkdir f _ _ _ _ _ _ := nosys f; fs_unlink f _ _ _ := nosys f;
  fs_rmdir f _ _ _ := nosys f; fs_rename f _ _ _ _ _ _ := nosys f;
  fs_link f _ _ _ _ := nosys f; fs_open f _ _ _ _ := (f, Ok (Some 1, 0));
  fs_create f _ _ _ _ _ _ _ _ := nosys f;
  fs_read f _ _ _ w size _ _ _ := five_read f w size;
  fs_write f _ _ _ _ _ _ _ _ _ _ := nosys f; fs_flush f _ _ _ _ := nosys f;
  fs_fsync f _ _ _ _ := nosys f; fs_fallocate f _ _ _ _ _ _ := nosys f;
  fs_release f _ _ _ _ _ _ _ := nosys f; fs_statfs f _ _ := nosys f;
  fs_setxattr f _ _ _ _ _ _ := nosys f; fs_getxattr f _ _ _ _ := nosys f;
  fs_listxattr f _ _ _ := nosys f; fs_removexattr f _ _ _ := nosys f;
  fs_opendir f _ _ _ := (f, Ok (Some 2, 0)); fs_readdir f _ _ _ _ _ := (f, Ok five_dir);
  fs_fsyncdir f _ _ _ _ := nosys f; fs_releasedir f _ _ _ _ := nosys f;
  fs_access f _ _ _ := nosys f; fs_lseek f _ _ _ _ _ := nosys f;
  fs_copyfilerange f _ _ _ _ _ _ _ _ _ := nosys f; fs_syncfs f _ _ := nosys f;
  fs_getlk f := nosys f; fs_setlk f := nosys f; fs_setlkw f := nosys f;
  fs_ioctl f := nosys f; fs_bmap f := nosys f; fs_poll f := nosys f;
  fs_notify_reply f := nosys f; fs_tmpfile f := nosys f;
|}.

#[local] Instance FiveRead : ReadContract (Z -> nat) (list DirEntry).
Proof.
  split. intros s ? ? ? w size ? ? ? s' w' n _. unfold fs_read, FiveFs, five_read.
  destruct (Z.ltb_spec size 0); intros; simplify_eq. eexists. split; [done|].
  unfold blen. rewrite length_take. split; [done|]. lia.
Qed.

(** Inode 0 has no references. *)
#[local] Instance FiveCounts : LookupCounts (Z -> nat) (list DirEntry).
Proof.
  refine {| fs_ok _ (f : Z -> nat) := f 0 = 0%nat; lookup_count (f : Z -> nat) i := Z.of_nat (f i) |};
    [done|..]; simpl; intros; simplify_eq/=.
  - split; [done|]. intros. repeat case_decide; lia.
  - eexists. split; [done|]. split; [by case_decide; lia|]. intros. repeat case_decide; subst; lia.
  - eexists. split; [done|]. split; [case_decide; lia|]. intros. case_decide; subst; lia.
  - done.
  - lia.
Defined.

(** A chain of one zeroed buffer. *)
Definition room_for (n : nat) : writer :=
  {| w_chain := {| buffers := [replicate n 0]; bytes_consumed := 0 |}; w_out := [] |}.

Lemma room_for_fresh n : Z.of_nat n < 2 ^ 32 -> fresh (room_for n).
Proof.
  intros Hn. assert (Hv : view (w_chain (room_for n)) = replicate n 0) by apply app_nil_r.
  assert (Hl : blen (replicate n 0) = Z.of_nat n) by (unfold blen; by rewrite length_replicate).
  split; [split; [split; [done|]|done]|done|].
  - rewrite Hv, Hl. change (bytes_consumed _) with 0. change usize_max with (2 ^ 64 - 1). lia.
  - unfold capacity, room. rewrite Hv, length_replicate. change (bytes_consumed _) with 0. lia.
Qed.

Definition one_buffer (b : bytes) : consumer := {| buffers := [b]; bytes_consumed := 0 |}.

Definition read_request : ReadIn :=
  {| read_in_fh := 2; read_in_offset := 0; read_in_size := 200; read_in_read_flags := 0;
     read_in_lock_owner := 0; read_in_flags := 0; read_in_padding := 0 |}.

Definition header_of (op : Opcode) (len : Z) : InHeader :=
  {| in_header_len := len; in_header_opcode := opcode_value op; in_header_unique := 77;
     in_header_nodeid := 1; in_header_uid := 0; in_header_gid := 0; in_header_pid := 9;
     in_header_total_extlen := 0; in_header_padding := 0 |}.

Definition five_server : Server (Z -> nat) := server_new (fun _ => 0%nat).

Definition read_message : consumer :=
  one_buffer (as_slice (header_of OpRead 80) ++ as_slice read_request).

(** A [READ] of 200 bytes is answered with the three bytes of the file. *)
Lemma replies_framed_witness :
  let o := handle_message true HostMacos 4096 five_server read_message (room_for 300) in
  o.2 = Ok 19 /\ drop 16 o.1.2 = [1; 2; 3] /\ framed 77 o.1.2 o.2.
Proof.
  assert (Ho : exists r, obj InHeader read_message = Ok (header_of OpRead 80, r))
    by (eexists; vm_compute; reflexivity).
  pose proof (replies_framed true HostMacos 4096 five_server read_message (room_for 300)
    (room_for_fresh 300 ltac:(lia))) as Hf.
  destruct Ho as [r Ho]. rewrite Ho in Hf.
  split_and!; [vm_compute; reflexivity..|].
  destruct (handle_message _ _ _ _ _ _) as [[s' out] res]. exact Hf.
Defined.

(** Room for one entry of the two: one reference to inode 5 is left. *)
Lemma readdirplus_lookup_counts_witness :
  let o := readdirplus true HostMacos five_server (header_of OpReaddirplus 80)
             (one_buffer (as_slice read_request)) (room_for 300) in
  o.2 = Ok 176 /\ fs o.1.1 5 = 1%nat /\
  exists es, counted (fs five_server) (fs o.1.1) es /\
    (es = [] \/ exists hd junk, o.1.2 = as_slice hd ++ listing_plus es ++ junk /\
       out_header_error hd = 0 /\ out_header_len hd = 16 + blen (listing_plus es)).
Proof.
  assert (Hr : (readdirplus true HostMacos five_server (header_of OpReaddirplus 80)
             (one_buffer (as_slice read_request)) (room_for 300)).2 = Ok 176)
    by (vm_compute; reflexivity).
  split; [done|]. split; [vm_compute; reflexivity|].
  assert (Hok : fs_ok (Z.to_nat (MAX_BUFFER_SIZE + 1)) (fs five_server)) by reflexivity.
  apply (readdirplus_lookup_counts true HostMacos five_server (header_of OpReaddirplus 80)
    (one_buffer (as_slice read_request)) (room_for 300) _ _ 176 Hok
    (room_for_fresh 300 ltac:(lia))).
  rewrite <- Hr. by destruct (readdirplus _ _ _ _ _ _) as [[s' out] res].
Defined.

Definition init_request : InitInCompat :=
  {| init_in_compat_major := 7; init_in_compat_minor := 38; init_in_compat_max_readahead := 0;
     init_in_compat_flags := FsOptions_ASYNC_READ + FsOptions_DO_READDIRPLUS +
                             FsOptions_POSIX_LOCKS |}.

(** Three features offered: the file system wants one, the server supports another,
    nobody asks for the third. *)
Lemma init_negotiates_witness :
  let o := init true HostMacos 4096 five_server (header_of OpInit 56)
             (one_buffer (as_slice init_request)) (room_for 300) in
  let offered := Z.lor (Z.shiftl 0 32) (init_in_compat_flags init_request) in
  options o.1.1 = FsOptions_ASYNC_READ + FsOptions_DO_READDIRPLUS /\
  (options o.1.1 = options five_server /\
   (init_in_compat_major init_request <> KERNEL_VERSION \/
    init_in_compat_minor init_request < MIN_KERNEL_MINOR_VERSION \/
    exists f e, fs_init (fs five_server) (from_bits_truncate FsOptions_members offered) = (f, Err e))
   \/
   init_in_compat_major init_request = KERNEL_VERSION /\
   MIN_KERNEL_MINOR_VERSION <= init_in_compat_minor init_request /\
   exists want hd reply,
    fs_init (fs five_server) (from_bits_truncate FsOptions_members offered) = (fs o.1.1, Ok want) /\
    (forall b, Z.testbit (options o.1.1) b =
       Z.testbit offered b && Z.testbit (all_bits FsOptions_members) b &&
       (Z.testbit want b || Z.testbit supported b)) /\
    o.1.2 = as_slice hd ++ as_slice reply /\ out_header_error hd = 0 /\
    init_out_flags reply + 2 ^ 32 * init_out_flags2 reply = options o.1.1).
Proof.
  assert (Hi : exists r, obj InitInCompat (one_buffer (as_slice init_request)) =
                         Ok (init_request, r)) by (eexists; vm_compute; reflexivity).
  assert (Hr : (init true HostMacos 4096 five_server (header_of OpInit 56)
             (one_buffer (as_slice init_request)) (room_for 300)).2 = Ok 80)
    by (vm_compute; reflexivity).
  destruct Hi as [r Hi]. cbv zeta. split; [vm_compute; reflexivity|].
  apply (init_negotiates true HostMacos 4096 five_server (header_of OpInit 56)
    (one_buffer (as_slice init_request)) (room_for 300) init_request r 0 _ _ 80
    (room_for_fresh 300 ltac:(lia)) Hi).
  - reflexivity.
  - rewrite <- Hr. by destruct (init _ _ _ _ _ _ _) as [[s' out] res].
Defined.

(** Eight bytes of reply buffer. *)
Lemma short_reply_panics_witness :
  let r := one_buffer (as_slice read_request) in
  (read true HostMacos five_server (header_of OpRead 80) r (room_for 8)).2 = Panic.
Proof.
  assert (Hi : exists r1, obj ReadIn (one_buffer (as_slice read_request)) = Ok (read_request, r1))
    by (eexists; vm_compute; reflexivity).
  destruct Hi as [r1 Hi].
  apply (short_reply_panics true HostMacos five_server (header_of OpRead 80)
    (one_buffer (as_slice read_request)) (room_for 8) read_request r1 Hi). vm_compute. reflexivity.
Defined.
