(* ===== verification/Daemon.v ===== *)
(** * The daemon: the FUSE server on the passthrough file system

    src/server.rs over src/passthrough: what the server guarantees for every file system
    that keeps its contracts holds of the passthrough file system, read-only or not, on every
    host whose preadv(2) stores no more than it is given room for. *)

From S2P Require Import Prelude OpenFlags Libc FileHandle InodeStore DentryIndex FuseTypes.
From S2P Require Import FuseWire Descriptor SoftIdMap XattrMap FileSystem Host Credentials ReadDir.
From S2P Require Import Paths MountFds Passthrough Ownership PassthroughOps PassthroughSpec Session.
From S2P Require Import Contract ReadOnly Requests Replies Server ServerSpec.

(** [Server<PassthroughFs>]. *)
Definition daemon (W : Type) : Type := Server (PassthroughFs W).

Section Daemon.
Context {W M : Type} `{PreadHost W} `{RangeMap M MapEntry}.
Context (checks : bool) (os : HostOs) (setup : Setup M) (rounds : nat) (readonly : bool).

(** The file system that is shared: src/main.rs wraps it if asked to. *)
Definition share : FileSystem (PassthroughFs W) ReadDir :=
  if readonly then read_only_fs checks os setup rounds else passthrough_fs checks os setup rounds.

#[local] Instance share_counts : LookupCounts (PassthroughFs W) ReadDir (H := share).
Proof. unfold share. destruct readonly; [apply read_only_counts|apply passthrough_counts]. Qed.

#[local] Instance share_reads : ReadContract (PassthroughFs W) ReadDir (H := share).
Proof. unfold share. destruct readonly; [apply read_only_reads|apply passthrough_reads]. Qed.

Definition daemon_message (page_size : Z) (s : daemon W) (r : consumer) (w : writer)
  : daemon W * bytes * res Error Z :=
  handle_message (H := share) checks os page_size s r w.

Definition daemon_readdirplus (s : daemon W) (h : InHeader) (r : consumer) (w : writer)
  : daemon W * bytes * res Error Z :=
  Server.readdirplus (H := share) checks os s h r w.

(** C5: Whatever bytes the guest sends and whatever the host answers, the daemon's
    reply to a message is framed: it starts with a header that carries the request's
    unique id and the exact length of the reply, which is also the length reported to
    the transport; nothing is written for a request that cannot be decoded. *)
Theorem daemon_replies_framed page_size s r w :
  fresh w ->
  let '(s', out, res) := daemon_message page_size s r w in
  match obj InHeader r with
  | Ok (h, _) => framed (in_header_unique h) out res
  | _ => out = [] /\ is_ok res = false
  end.
Proof.
  apply (message_framed (H := share) checks os
    (RC := share_reads) (LC := share_counts)).
Qed.

(** C4: A READDIRPLUS answered by the daemon leaves the references the guest holds to
    every inode of the passthrough file system raised by exactly the number of times the
    inode is listed in the reply: entries that were looked up but did not fit have been
    forgotten again. *)
Theorem daemon_readdirplus_counts (s : daemon W) h r w s' out n :
  passthrough_ok checks setup (Z.to_nat (MAX_BUFFER_SIZE + 1)) (Server.fs s) ->
  fresh w -> daemon_readdirplus s h r w = (s', out, Ok n) ->
  exists es,
    (forall i, i <> 0 ->
       guest_count (Server.fs s') i = guest_count (Server.fs s) i + occurrences i es) /\
    (es = [] \/ exists hd junk, out = as_slice hd ++ listing_plus es ++ junk /\
       out_header_error hd = 0 /\ out_header_len hd = 16 + blen (listing_plus es)).
Proof.
  unfold daemon_readdirplus, share. destruct readonly.
  - apply (readdirplus_counts (H := read_only_fs checks os setup rounds) checks os
      (LC := read_only_counts checks os setup rounds)).
  - apply (readdirplus_counts (H := passthrough_fs checks os setup rounds) checks os
      (LC := passthrough_counts checks os setup rounds)).
Qed.
End Daemon.

(** ** An example: the host of [Session] *)

#[local] Existing Instance list_range_map.

#[local] Instance demo_pread : PreadHost demo_world.
Proof.
  split. intros fd len off w w' data Hr. simpl in Hr. destruct (Z.ltb_spec len 0); [done|].
  injection Hr as <- <-. unfold blen. rewrite length_take. lia.
Qed.

(** The root directory is open, as handle 0. *)
Definition demo_daemon : daemon demo_world :=
  server_new (PassthroughOps.opendir true demo_os demo_setup ROOT_ID 0 demo_mounted).1.

Definition demo_list : consumer :=
  one_buffer (as_slice {| read_in_fh := 0; read_in_offset := 0; read_in_size := 200;
    read_in_read_flags := 0; read_in_lock_owner := 0; read_in_flags := 0; read_in_padding := 0 |}).

Lemma demo_opened :
  exists c, rtc demo_step (mounted demo_mounted) c /\ fs_state c = Server.fs demo_daemon.
Proof.
  eexists. split.
  - eapply rtc_l; [eapply (step_ok _ _ _ (ROpendir ROOT_ID 0)); [|vm_compute; reflexivity]|reflexivity].
    apply honest_nothing. intros j. case_decide; lia.
  - vm_compute. reflexivity.
Qed.

Lemma demo_daemon_ok n :
  Z.of_nat n < 2 ^ 32 -> passthrough_ok true demo_setup n (Server.fs demo_daemon).
Proof.
  intros Hn. destruct demo_opened as (c & Hc & Heq). destruct demo_init as [o Ho].
  destruct (session_invariant demo_os demo_setup 0 None _ 0 _ o c ltac:(done) Ho Hc)
    as (leaked & _ & _ & Hb & _). rewrite Heq in Hb. split_and!.
  - eexists. split; [|destruct Hb as (? & ? & _ & ?); split_and!; [done..|by left|done]]. done.
  - vm_compute. by intros [? ?].
  - vm_compute. done.
  - change (next_inode (Server.fs demo_daemon)) with 2. unfold u64_max. lia.
Qed.

(** A listing with room for one of the two files: inode 2 stays with one reference, the
    other file has been forgotten. *)
Lemma daemon_readdirplus_counts_witness :
  let o := daemon_readdirplus true demo_os demo_setup 4 false demo_daemon (header_of OpReaddirplus 80)
             demo_list (room_for 300) in
  o.2 = Ok 176 /\ guest_count (Server.fs o.1.1) 2 = 1 /\ guest_count (Server.fs o.1.1) 3 = 0 /\
  exists es,
    (forall i, i <> 0 ->
       guest_count (Server.fs o.1.1) i = guest_count (Server.fs demo_daemon) i + occurrences i es) /\
    (es = [] \/ exists hd junk, o.1.2 = as_slice hd ++ listing_plus es ++ junk /\
       out_header_error hd = 0 /\ out_header_len hd = 16 + blen (listing_plus es)).
Proof.
  assert (Hr : (daemon_readdirplus true demo_os demo_setup 4 false demo_daemon (header_of OpReaddirplus 80)
             demo_list (room_for 300)).2 = Ok 176) by (vm_compute; reflexivity).
  assert (Hok : passthrough_ok true demo_setup (Z.to_nat (MAX_BUFFER_SIZE + 1))
    (Server.fs demo_daemon)) by (apply demo_daemon_ok; rewrite Z2Nat.id; done).
  split; [done|]. split; [vm_compute; reflexivity|]. split; [vm_compute; reflexivity|].
  apply (daemon_readdirplus_counts true demo_os demo_setup 4 false demo_daemon (header_of OpReaddirplus 80)
    demo_list (room_for 300) _ _ 176 Hok
    (room_for_fresh 300 ltac:(lia))).
  rewrite <- Hr. by destruct (daemon_readdirplus _ _ _ _ _ _ _ _ _) as [[s' out] res].
Defined.

Definition demo_lookup : consumer :=
  one_buffer (as_slice (header_of OpLookup 42) ++ text "a" ++ [0]).

(** Looking a file up in the root directory. *)
Lemma daemon_replies_framed_witness :
  let o := daemon_message true demo_os demo_setup 4 true 4096 demo_daemon demo_lookup (room_for 300) in
  o.2 = Ok 144 /\ guest_count (Server.fs o.1.1) 2 = 1 /\ framed 77 o.1.2 o.2.
Proof.
  assert (Ho : exists r, obj InHeader demo_lookup = Ok (header_of OpLookup 42, r))
    by (eexists; vm_compute; reflexivity).
  pose proof (daemon_replies_framed true demo_os demo_setup 4 true 4096 demo_daemon demo_lookup
    (room_for 300) (room_for_fresh 300 ltac:(lia))) as Hf.
  destruct Ho as [r Ho]. rewrite Ho in Hf.
  split_and!; [vm_compute; reflexivity..|].
  destruct (daemon_message _ _ _ _ _ _ _ _ _) as [[s' out] res]. exact Hf.
Defined.
