(* ===== verification/VhostUser.v ===== *)
(** * The vhost-user back end (src/vhost_user.rs)

    The daemon as the front end (QEMU, say) sees it: virtqueues with requests, a
    configuration space, the queue for notifications, and the messages that start, cancel
    and finish a migration.

    The queues and the guest's memory belong to other crates (virtio-queue, vm-memory,
    vhost-user-backend).  Here they are the class [VirtQueues] of operations on a guest.
    A thread is a computation that runs at once, at some time after it was started: when it
    is joined at the latest, earlier when [premigration_runs], [migration_runs] or [run_task]
    says so, and when [detached_runs] says so if nobody will join it. *)

From S2P Require Import Prelude OpenFlags Libc FileHandle InodeStore DentryIndex FuseTypes.
From S2P Require Import FuseWire Descriptor SoftIdMap XattrMap Notify FileSystem Host Credentials.
From S2P Require Import ReadDir Paths MountFds Passthrough Ownership PassthroughOps PassthroughSpec.
From S2P Require Import Session Preserialization Migration SerializationSpec DeserializationSpec.
From S2P Require Import MigrationSpec Contract ReadOnly Requests Replies Server ServerSpec Daemon.

(** ** Constants *)

Definition QUEUE_SIZE : Z := 32768.
Definition REQUEST_QUEUES : Z := 1.
Definition NUM_QUEUES_BASE : Z := REQUEST_QUEUES + 1.
Definition NUM_QUEUES_WITH_NOTIF : Z := REQUEST_QUEUES + 2.
Definition VIRTIO_FS_F_NOTIFICATION : Z := Z.shiftl 1 0.

Definition HIPRIO_QUEUE_EVENT : nat := 0.
Definition REQ_QUEUE_EVENT_NO_NOTIF : nat := 1.
Definition NOTIF_QUEUE_EVENT : nat := 1.
Definition REQ_QUEUE_EVENT_WITH_NOTIF : nat := 2.

Definition MAX_TAG_LEN : nat := 36.

(** Bits of the virtio and vhost-user protocols. *)
Definition VIRTIO_RING_F_INDIRECT_DESC : Z := 28.
Definition VIRTIO_RING_F_EVENT_IDX : Z := 29.
Definition VIRTIO_F_VERSION_1 : Z := 32.
Definition LOG_ALL : Z := Z.shiftl 1 26.
Definition PROTOCOL_FEATURES : Z := Z.shiftl 1 30.

Inductive VhostUserProtocolFeature :=
| MQ | LOG_SHMFD | REPLY_ACK | BACKEND_REQ | CONFIG | BACKEND_SEND_FD | RESET_DEVICE
| CONFIGURE_MEM_SLOTS | DEVICE_STATE.

Definition protocol_feature_bit (f : VhostUserProtocolFeature) : Z :=
  match f with
  | MQ => 0 | LOG_SHMFD => 1 | REPLY_ACK => 3 | BACKEND_REQ => 5 | CONFIG => 9
  | BACKEND_SEND_FD => 10 | RESET_DEVICE => 13 | CONFIGURE_MEM_SLOTS => 15 | DEVICE_STATE => 19
  end.

Definition bits_of_features (l : list VhostUserProtocolFeature) : Z :=
  fold_left (fun acc f => Z.lor acc (Z.shiftl 1 (protocol_feature_bit f))) l 0.

Inductive VError :=
| CreateKillEventFd (e : io_error)
| CreateThreadPool (e : io_error)
| HandleEventNotEpollIn
| HandleEventUnknownEvent
| IterateQueue
| NoMemoryConfigured
| ProcessQueue (e : Error)
| QueueReader (e : chain_error)
| QueueWriter (e : chain_error)
| UnshareCloneFs (e : io_error)
| InvalidTag.

(** How processing ends before its time: with an error, or the whole daemon with
    [process::exit]. *)
Inductive stop := Failed (e : VError) | Exited (e : VError).

(** ** The guest *)

(** The descriptors the device may read and those it may write, as addresses and lengths. *)
Record DescriptorChain := {
  head_index : Z;
  readable : list (Z * Z);
  writable : list (Z * Z);
}.

(** Rings are numbered; [None] and [false] stand for errors of the queue crates. *)
Class VirtQueues (G Mem : Type) := {
  (** [get_queue_mut().iter(mem)?], and all of it or the next chain. *)
  vq_collect : nat -> Mem -> G -> G * option (list DescriptorChain);
  vq_next : nat -> Mem -> G -> G * option (option DescriptorChain);
  (** The region of an address and its slice. *)
  find_slice : Mem -> G -> Z -> Z -> res chain_error slice;
  (** The bytes a writer stored go to the chain's writable descriptors. *)
  store_bytes : Mem -> DescriptorChain -> bytes -> G -> G;
  add_used : nat -> Z -> Z -> G -> G * bool;
  needs_notification : nat -> G -> G * option bool;
  signal_used_queue : nat -> G -> G * bool;
  disable_notification : nat -> G -> G * bool;
  enable_notification : nat -> G -> G * option bool;
}.

Definition Reader_new {G Mem} `{VirtQueues G Mem} (mem : Mem) (g : G) (chain : DescriptorChain)
  : res chain_error consumer :=
  consumer_new (find_slice mem g) (readable chain).

Definition Writer_new {G Mem} `{VirtQueues G Mem} (mem : Mem) (g : G) (chain : DescriptorChain)
  : res chain_error writer :=
  c ← consumer_new (find_slice mem g) (writable chain);
  Ok {| w_chain := c; w_out := [] |}.

(** ** Notifications to the guest *)

Record NotifierState (Mem : Type) := {
  enabled : bool;
  vring : option nat;
  ns_mem : option Mem;
  ns_event_idx : bool;
}.
Arguments enabled {Mem}.
Arguments vring {Mem}.
Arguments ns_mem {Mem}.
Arguments ns_event_idx {Mem}.

Definition notifier_state_new {Mem} (b : bool) : NotifierState Mem :=
  {| enabled := b; vring := None; ns_mem := None; ns_event_idx := false |}.

Definition notifier_set_event_idx {Mem} (b : bool) (n : NotifierState Mem) : NotifierState Mem :=
  {| enabled := enabled n; vring := vring n; ns_mem := ns_mem n; ns_event_idx := b |}.

Definition notifier_set_mem {Mem} (m : Mem) (n : NotifierState Mem) : NotifierState Mem :=
  {| enabled := enabled n; vring := vring n; ns_mem := Some m; ns_event_idx := ns_event_idx n |}.

(** What is there already stays. *)
Definition install {Mem} (q : nat) (m : Mem) (n : NotifierState Mem) : NotifierState Mem :=
  {| enabled := enabled n;
     vring := Some (default q (vring n)); ns_mem := Some (default m (ns_mem n));
     ns_event_idx := ns_event_idx n |}.

Section Notifying.
Context {G Mem : Type} `{VirtQueues G Mem}.

(** [NotifierState::send]. *)
Definition notifier_send (n : NotifierState Mem) (g : G) (notification : Notification)
  : G * res NotifierError unit :=
  if negb (enabled n) then (g, Err QueueNotNegotiated)
  else
    match vring n, ns_mem n with
    | Some q, Some mem =>
        let bytes := encode notification in
        match vq_next q mem g with
        | (g, None) | (g, Some None) => (g, Err QueueFull)
        | (g, Some (Some chain)) =>
            match Writer_new mem g chain with
            | Ok w =>
                let needed := blen bytes in
                let have := available_bytes (w_chain w) in
                if have <? needed then
                  let '(g, _) := add_used q (head_index chain) 0 g in
                  (g, Err (BufferTooSmall needed have))
                else
                  let '(w, r) := write_all w bytes in
                  let g := store_bytes mem chain (w_out w) g in
                  match r with
                  | Ok _ =>
                      match add_used q (head_index chain) (as_u32 needed) g with
                      | (g, false) => (g, Err (NotifierIo other_io_error))
                      | (g, true) =>
                          let '(g, must_signal) :=
                            if ns_event_idx n then
                              let '(g, b) := needs_notification q g in (g, default true b)
                            else (g, true) in
                          (if must_signal : bool then (signal_used_queue q g).1 else g, Ok tt)
                      end
                  | Err e => (g, Err (NotifierIo e))
                  | Panic => (g, Panic)
                  end
            | Err _ => (g, Err (NotifierIo (Custom InvalidInput)))
            | Panic => (g, Panic)
            end
        end
    | _, _ => (g, Err QueueNotNegotiated)
    end.

(** The notifier that is handed to the watcher. *)
#[export] Instance queue_notifier : Notifier (NotifierState Mem * G) :=
  {| send '(n, g) notification :=
       let '(g, r) := notifier_send n g notification in ((n, g), r) |}.
End Notifying.

(** ** Requests *)

Record PoolTask (Mem : Type) := {
  task_queue : nat;
  task_chain : DescriptorChain;
  task_mem : Mem;
  task_event_idx : bool;
}.
Arguments task_queue {Mem}.
Arguments task_chain {Mem}.
Arguments task_mem {Mem}.
Arguments task_event_idx {Mem}.

(** A thread pool is the list of tasks it has not run yet.  The channel for requests to the
    front end is only a descriptor here. *)
Record VhostUserFsThread (F Mem : Type) := {
  t_mem : option Mem;
  t_server : Server F;
  vu_req : option Z;
  event_idx : bool;
  pool : option (list (PoolTask Mem));
  t_notifier : NotifierState Mem;
}.
Arguments t_mem {F Mem}.
Arguments t_server {F Mem}.
Arguments vu_req {F Mem}.
Arguments event_idx {F Mem}.
Arguments pool {F Mem}.
Arguments t_notifier {F Mem}.

Section Fields.
Context {F Mem : Type}.
Implicit Types t : VhostUserFsThread F Mem.

Definition set_t_mem m t := Build_VhostUserFsThread F Mem m (t_server t) (vu_req t) (event_idx t) (pool t) (t_notifier t).
Definition set_t_server s t := Build_VhostUserFsThread F Mem (t_mem t) s (vu_req t) (event_idx t) (pool t) (t_notifier t).
Definition set_vu_req r t := Build_VhostUserFsThread F Mem (t_mem t) (t_server t) r (event_idx t) (pool t) (t_notifier t).
Definition set_t_event_idx b t := Build_VhostUserFsThread F Mem (t_mem t) (t_server t) (vu_req t) b (pool t) (t_notifier t).
Definition set_pool p t := Build_VhostUserFsThread F Mem (t_mem t) (t_server t) (vu_req t) (event_idx t) p (t_notifier t).
Definition set_t_notifier n t := Build_VhostUserFsThread F Mem (t_mem t) (t_server t) (vu_req t) (event_idx t) (pool t) n.
End Fields.

Section Requests.
Context {F D G Mem : Type} `{FileSystem F D} `{VirtQueues G Mem}.
Context (checks : bool) (os : HostOs) (page_size : Z) (rounds : nat).

Local Notation thread := (VhostUserFsThread F Mem).

(** [VhostUserFsThread::new].  [unshare] is the outcome of unshare(CLONE_FS) and [create]
    that of creating the pool, whose threads do the same. *)
Definition thread_new (fs : F) (thread_pool_size : Z) (unshare create : io unit)
  (n : NotifierState Mem) : res VError thread :=
  pool ← (if 0 <? thread_pool_size then
            _ ← map_err UnshareCloneFs unshare; _ ← map_err CreateThreadPool create; Ok (Some [])
          else Ok None);
  Ok {| t_mem := None; t_server := server_new fs; vu_req := None; event_idx := false;
        pool := pool; t_notifier := n |}.

(** [signal_used_queue().unwrap()] *)
Definition signal (q : nat) (g : G) : G * res stop unit :=
  match signal_used_queue q g with (g, true) => (g, Ok tt) | (g, false) => (g, Panic) end.

Definition return_descriptor (q : nat) (head : Z) (event_idx : bool) (len : Z) (g : G)
  : G * res stop unit :=
  if u32_max <? len then (g, Panic)
  else
    let '(g, _) := add_used q head len g in
    if event_idx then
      match needs_notification q g with
      | (g, None) => signal q g
      | (g, Some b) => if b : bool then signal q g else (g, Ok tt)
      end
    else signal q g.

Definition process_message (server : Server F) (mem : Mem) (chain : DescriptorChain) (g : G)
  : Server F * G * res VError Z :=
  match Reader_new mem g chain with
  | Ok reader =>
      match Writer_new mem g chain with
      | Ok writer =>
          let '(server, out, r) := handle_message checks os page_size server reader writer in
          (server, store_bytes mem chain out g, map_err ProcessQueue r)
      | Err e => (server, g, Err (QueueWriter e))
      | Panic => (server, g, Panic)
      end
  | Err e => (server, g, Err (QueueReader e))
  | Panic => (server, g, Panic)
  end.

(** One message and its return; an error ends the daemon. *)
Definition process_chain (q : nat) (mem : Mem) (event_idx : bool) (chain : DescriptorChain)
  (server : Server F) (g : G) : Server F * G * res stop unit :=
  match process_message server mem chain g with
  | (server, g, Ok len) =>
      let '(g, r) := return_descriptor q (head_index chain) event_idx len g in (server, g, r)
  | (server, g, Err e) => (server, g, Err (Exited e))
  | (server, g, Panic) => (server, g, Panic)
  end.

Fixpoint process_chains (q : nat) (mem : Mem) (event_idx : bool) (chains : list DescriptorChain)
  (server : Server F) (g : G) : Server F * G * res stop unit :=
  match chains with
  | [] => (server, g, Ok tt)
  | chain :: chains =>
      match process_chain q mem event_idx chain server g with
      | (server, g, Ok _) => process_chains q mem event_idx chains server g
      | r => r
      end
  end.

(** Whether there was anything to do. *)
Definition process_queue_serial (q : nat) (t : thread) (g : G) : thread * G * res stop bool :=
  match t_mem t with
  | None => (t, g, Err (Failed NoMemoryConfigured))
  | Some mem =>
      match vq_collect q mem g with
      | (g, None) => (t, g, Err (Failed IterateQueue))
      | (g, Some chains) =>
          let '(server, g, r) := process_chains q mem (event_idx t) chains (t_server t) g in
          (set_t_server server t, g, _ ← r; Ok (negb (bool_decide (chains = []))))
      end
  end.

(** [spawn_ok] *)
Definition spawn_task (task : PoolTask Mem) (t : thread) : thread * res stop unit :=
  match pool t with
  | Some tasks => (set_pool (Some (tasks ++ [task])) t, Ok tt)
  | None => (t, Panic)
  end.

(** Out of rounds is a panic that the code does not have: the guest keeps the queue full. *)
Fixpoint pool_loop (fuel : nat) (q : nat) (mem : Mem) (used_any : bool) (t : thread) (g : G)
  : thread * G * res stop bool :=
  match vq_next q mem g with
  | (g, None) => (t, g, Err (Failed IterateQueue))
  | (g, Some None) => (t, g, Ok used_any)
  | (g, Some (Some chain)) =>
      match fuel with
      | O => (t, g, Panic)
      | S fuel =>
          match spawn_task {| task_queue := q; task_chain := chain; task_mem := mem;
                              task_event_idx := event_idx t |} t with
          | (t, Ok _) => pool_loop fuel q mem true t g
          | (t, _) => (t, g, Panic)
          end
      end
  end.

Definition process_queue_pool (q : nat) (t : thread) (g : G) : thread * G * res stop bool :=
  match t_mem t with
  | None => (t, g, Err (Failed NoMemoryConfigured))
  | Some mem => pool_loop rounds q mem false t g
  end.

(** What a thread of the pool does with a task. *)
Definition run_task (i : nat) (t : thread) (g : G) : thread * G * res stop unit :=
  match pool t with
  | Some tasks =>
      match tasks !! i with
      | Some task =>
          let '(server, g, r) :=
            process_chain (task_queue task) (task_mem task) (task_event_idx task)
              (task_chain task) (t_server t) g in
          (set_t_server server (set_pool (Some (delete i tasks)) t), g, r)
      | None => (t, g, Ok tt)
      end
  | None => (t, g, Ok tt)
  end.

(** [loop { disable_notification; process; if !enable_notification { break } }]; an error of
    [process] is only reported. *)
Fixpoint event_loop (fuel : nat) (q : nat) (process : thread -> G -> thread * G * res stop bool)
  (t : thread) (g : G) : thread * G * res stop unit :=
  match fuel with
  | O => (t, g, Panic)
  | S fuel =>
      match disable_notification q g with
      | (g, false) => (t, g, Panic)
      | (g, true) =>
          match process t g with
          | (t, g, Err (Exited e)) => (t, g, Err (Exited e))
          | (t, g, Panic) => (t, g, Panic)
          | (t, g, _) =>
              match enable_notification q g with
              | (g, None) => (t, g, Panic)
              | (g, Some false) => (t, g, Ok tt)
              | (g, Some true) => event_loop fuel q process t g
              end
          end
      end
  end.

(** The ring an event is about, in the layout with or without the notification queue. *)
Definition event_ring (notif_enabled : bool) (device_event : nat) : option nat :=
  let req_event := if notif_enabled then REQ_QUEUE_EVENT_WITH_NOTIF else REQ_QUEUE_EVENT_NO_NOTIF in
  if decide (device_event = HIPRIO_QUEUE_EVENT) then Some 0%nat
  else if decide (device_event = req_event) then Some (if notif_enabled then 2%nat else 1%nat)
  else None.

(** [handle_event_serial] and [handle_event_pool]. *)
Definition handle_event_with (process : nat -> thread -> G -> thread * G * res stop bool)
  (device_event : nat) (t : thread) (g : G) : thread * G * res stop unit :=
  let notif_enabled := enabled (t_notifier t) in
  if notif_enabled && bool_decide (device_event = NOTIF_QUEUE_EVENT) then
    (match t_mem t with
     | Some mem => set_t_notifier (install 1 mem (t_notifier t)) t
     | None => t
     end, g, Ok tt)
  else
    match event_ring notif_enabled device_event with
    | None => (t, g, Err (Failed HandleEventUnknownEvent))
    | Some q =>
        if event_idx t then event_loop rounds q (process q) t g
        else
          let '(t, g, r) := process q t g in (t, g, _ ← r; Ok tt)
    end.

Definition handle_event_serial := handle_event_with process_queue_serial.
Definition handle_event_pool := handle_event_with process_queue_pool.
End Requests.

(** ** The device *)

(** Le32 is stored little endian. *)
Record VirtioFsConfig := { cfg_tag : bytes; num_request_queues : Z }.

Definition config_slice (c : VirtioFsConfig) : bytes := cfg_tag c ++ le_bytes 4 (num_request_queues c).

(** The outcome of a thread that has run, [Panic] if it panicked; the flag tells it to stop
    preparing. *)
Record PremigrationThread := {
  handle : option (io unit);
  cancel : bool;
}.

(** What a migration thread is to do.  The pipe of a SAVE takes what is written to it; that
    of a LOAD has the stream. *)
Inductive Job :=
| SaveJob (pre : option PremigrationThread)
| LoadJob (state_pipe : bytes).

(** The outcome is there once it has run. *)
Record MigrationThread := { job : Job; job_outcome : option (io unit) }.

(** [detached] are the threads that are still running and whose handles are gone;
    [written_state] is what has been written to the pipe of the last SAVE. *)
Record VhostUserFsBackend (F Mem : Type) := {
  thread : VhostUserFsThread F Mem;
  premigration_thread : option PremigrationThread;
  migration_thread : option MigrationThread;
  detached : list Job;
  tag : option bytes;
  notify_invalidate : bool;
  written_state : bytes;
}.
Arguments thread {F Mem}.
Arguments premigration_thread {F Mem}.
Arguments migration_thread {F Mem}.
Arguments detached {F Mem}.
Arguments tag {F Mem}.
Arguments notify_invalidate {F Mem}.
Arguments written_state {F Mem}.

Section BackendFields.
Context {F Mem : Type}.
Implicit Types b : VhostUserFsBackend F Mem.

Definition set_thread t b := Build_VhostUserFsBackend F Mem t (premigration_thread b) (migration_thread b) (detached b) (tag b) (notify_invalidate b) (written_state b).
Definition set_premigration p b := Build_VhostUserFsBackend F Mem (thread b) p (migration_thread b) (detached b) (tag b) (notify_invalidate b) (written_state b).
Definition set_migration m b := Build_VhostUserFsBackend F Mem (thread b) (premigration_thread b) m (detached b) (tag b) (notify_invalidate b) (written_state b).
Definition set_detached l b := Build_VhostUserFsBackend F Mem (thread b) (premigration_thread b) (migration_thread b) l (tag b) (notify_invalidate b) (written_state b).
Definition set_written w b := Build_VhostUserFsBackend F Mem (thread b) (premigration_thread b) (migration_thread b) (detached b) (tag b) (notify_invalidate b) w.
End BackendFields.

(** [VhostUserFsBackendBuilder]. *)
Record VhostUserFsBackendBuilder := {
  thread_pool_size : Z;
  b_tag : option bytes;
  b_notify_invalidate : bool;
}.

(** [SerializableFileSystem] (src/filesystem.rs). *)
Class SerializableFileSystem (F : Type) := {
  prepare_serialization : (F -> bool) -> F -> F * io unit;
  serialize : F -> F * io bytes;
  deserialize_and_apply : bytes -> F -> F * io unit;
}.

Inductive VhostTransferStateDirection := SAVE | LOAD.
Inductive VhostTransferStatePhase := STOPPED.

(** The sets of events epoll reports. *)
Inductive EventSet := Readable | All | OtherEvents.

Section Backend.
Context {F D G Mem : Type} `{FileSystem F D} `{SerializableFileSystem F} `{VirtQueues G Mem}.
Context (checks : bool) (os : HostOs) (page_size : Z) (rounds : nat).
(** Where a preparation that has been cancelled finds out. *)
Context (notices : F -> bool).

Local Notation backend := (VhostUserFsBackend F Mem).

Definition set_thread_pool_size (size : Z) (b : VhostUserFsBackendBuilder) : VhostUserFsBackendBuilder :=
  {| thread_pool_size := size; b_tag := b_tag b; b_notify_invalidate := b_notify_invalidate b |}.

Definition set_tag (tag : option bytes) (b : VhostUserFsBackendBuilder) : VhostUserFsBackendBuilder :=
  {| thread_pool_size := thread_pool_size b; b_tag := tag; b_notify_invalidate := b_notify_invalidate b |}.

Definition set_notify_invalidate (e : bool) (b : VhostUserFsBackendBuilder) : VhostUserFsBackendBuilder :=
  {| thread_pool_size := thread_pool_size b; b_tag := b_tag b; b_notify_invalidate := e |}.

(** [VhostUserFsBackendBuilder::build]. *)
Definition build (b : VhostUserFsBackendBuilder) (fs : F) (unshare create : io unit)
  : res VError backend :=
  t ← thread_new fs (thread_pool_size b) unshare create (notifier_state_new (b_notify_invalidate b));
  Ok {| thread := t; premigration_thread := None; migration_thread := None; detached := []; tag := b_tag b;
        notify_invalidate := b_notify_invalidate b; written_state := [] |}.

(** [VhostUserFsBackend::new]: without a pool or a tag. *)
Definition backend_new (fs : F) (unshare create : io unit) : res VError backend :=
  build {| thread_pool_size := 0; b_tag := None; b_notify_invalidate := false |} fs unshare create.

Definition num_queues (b : backend) : Z :=
  if notify_invalidate b then NUM_QUEUES_WITH_NOTIF else NUM_QUEUES_BASE.

Definition max_queue_size : Z := QUEUE_SIZE.

Definition features (b : backend) : Z :=
  let base := Z.lor (Z.lor (Z.lor (Z.lor (Z.shiftl 1 VIRTIO_F_VERSION_1)
                (Z.shiftl 1 VIRTIO_RING_F_INDIRECT_DESC)) (Z.shiftl 1 VIRTIO_RING_F_EVENT_IDX))
                PROTOCOL_FEATURES) LOG_ALL in
  if notify_invalidate b then Z.lor base VIRTIO_FS_F_NOTIFICATION else base.

Definition protocol_features (b : backend) : Z :=
  let base := bits_of_features
    [MQ; BACKEND_REQ; BACKEND_SEND_FD; REPLY_ACK; CONFIGURE_MEM_SLOTS; LOG_SHMFD; DEVICE_STATE;
     RESET_DEVICE] in
  match tag b with Some _ => Z.lor base (bits_of_features [CONFIG]) | None => base end.

(** An [expect], two [assert!]s, and the bytes asked for, with zeros after the structure. *)
Definition get_config (b : backend) (offset size : Z) : res Empty_set bytes :=
  match tag b with
  | None => Panic
  | Some tag =>
      if (length tag <=? MAX_TAG_LEN)%nat && negb (bool_decide (tag = [])) then
        let config := {| cfg_tag := fill (replicate MAX_TAG_LEN 0) tag;
                         num_request_queues := REQUEST_QUEUES |} in
        let result := take (Z.to_nat size) (drop (Z.to_nat offset) (config_slice config)) in
        Ok (result ++ replicate (Z.to_nat size - length result) 0)
      else Panic
  end.

Definition with_server (f : F -> F) (b : backend) : backend :=
  set_thread (set_t_server (with_fs (t_server (thread b)) (f (fs (t_server (thread b))))) (thread b)) b.

(** The file system behind all of it. *)
Definition shared_fs (b : backend) : F := fs (t_server (thread b)).

(** *** Migration *)

(** The preparation runs to its end; one that is cancelled stops where it looks. *)
Definition run_premigration (p : PremigrationThread) (b : backend) : backend * io unit :=
  match handle p with
  | Some r => (b, r)
  | None =>
      let '(f, r) := prepare_serialization (fun f => cancel p && notices f) (shared_fs b) in
      (with_server (fun _ => f) b, r)
  end.

(** [handle.join()]: the error of a thread that panicked. *)
Definition join_premigration (p : PremigrationThread) (b : backend) : backend * io unit :=
  match run_premigration p b with
  | (b, Panic) => (b, Err other_io_error)
  | (b, _) => (b, Ok tt)
  end.

(** The thread gets to run before anybody waits for it. *)
Definition premigration_runs (b : backend) : backend :=
  match premigration_thread b with
  | Some p =>
      let '(b, r) := run_premigration p b in
      set_premigration (Some {| handle := Some r; cancel := cancel p |}) b
  | None => b
  end.

Definition acked_features (features : Z) (b : backend) : backend :=
  if negb (Z.land features LOG_ALL =? 0) then
    match premigration_thread b with
    | None => set_premigration (Some {| handle := None; cancel := false |}) b
    | Some _ => b
    end
  else
    match premigration_thread b with
    | Some p =>
        (join_premigration {| handle := handle p; cancel := true |} (set_premigration None b)).1
    | None => b
    end.

(** A thread in place of another one: the handle of the old one is dropped, which does not
    stop it. *)
Definition start_migration (j : Job) (b : backend) : backend :=
  let b :=
    match migration_thread b with
    | Some {| job := old; job_outcome := None |} => set_detached (detached b ++ [old]) b
    | _ => b
    end in
  set_migration (Some {| job := j; job_outcome := None |}) b.

Definition do_set_device_state_fd (direction : VhostTransferStateDirection)
  (phase : option VhostTransferStatePhase) (file : bytes) (b : backend) : backend * io unit :=
  match phase with
  | None => (b, Err (Custom UnsupportedKind))
  | Some STOPPED =>
      match direction with
      | SAVE =>
          (start_migration (SaveJob (premigration_thread b)) (set_premigration None b), Ok tt)
      | LOAD =>
          let b :=
            match premigration_thread b with
            | Some p =>
                (join_premigration {| handle := handle p; cancel := true |}
                   (set_premigration None b)).1
            | None => b
            end in
          (start_migration (LoadJob file) b, Ok tt)
      end
  end.

(** The migration thread. *)
Definition run_job (j : Job) (b : backend) : backend * io unit :=
  match j with
  | SaveJob pre =>
      let '(b, prepared) :=
        match pre with
        | Some p => join_premigration p b
        | None =>
            let '(f, r) := prepare_serialization (fun _ => false) (shared_fs b) in
            (with_server (fun _ => f) b, match r with Panic => Panic | _ => Ok tt end)
        end in
      match prepared with
      | Ok _ =>
          let '(f, r) := serialize (shared_fs b) in
          let b := with_server (fun _ => f) b in
          match r with
          | Ok stream => (set_written stream b, Ok tt)
          | Err e => (b, Err (with_context e))
          | Panic => (b, Panic)
          end
      | Err e => (b, Err e)
      | Panic => (b, Panic)
      end
  | LoadJob stream =>
      let '(f, r) := deserialize_and_apply stream (shared_fs b) in
      (with_server (fun _ => f) b, map_err with_context r)
  end.

(** The thread gets to run before anybody waits for it. *)
Definition migration_runs (b : backend) : backend :=
  match migration_thread b with
  | Some {| job := j; job_outcome := None |} =>
      let '(b, r) := run_job j b in set_migration (Some {| job := j; job_outcome := Some r |}) b
  | _ => b
  end.

(** A detached thread runs; its pipe is not the one of the last SAVE. *)
Definition detached_runs (i : nat) (b : backend) : backend :=
  match detached b !! i with
  | Some j => set_written (written_state b) (run_job j (set_detached (delete i (detached b)) b)).1
  | None => b
  end.

(** [do_check_device_state] waits for the thread. *)
Definition check_device_state (b : backend) : backend * io unit :=
  match migration_thread b with
  | None => (b, Err (Custom InvalidInput))
  | Some t =>
      let b := set_migration None b in
      match (match job_outcome t with Some r => (b, r) | None => run_job (job t) b end) with
      | (b, Panic) => (b, Err other_io_error)
      | r => r
      end
  end.

(** *** The other messages *)

Definition reset_device (b : backend) : backend * res Empty_set unit :=
  let '(f, r) := fs_destroy (shared_fs b) in
  match r with
  | Panic => (with_server (fun _ => f) b, Panic)
  | _ => (set_thread (set_t_server {| Server.fs := f; options := 0 |} (thread b)) b, Ok tt)
  end.

Definition set_event_idx (e : bool) (b : backend) : backend :=
  set_thread (set_t_notifier (notifier_set_event_idx e (t_notifier (thread b)))
    (set_t_event_idx e (thread b))) b.

Definition update_memory (mem : Mem) (b : backend) : backend :=
  let t := set_t_mem (Some mem) (thread b) in
  set_thread
    (if notify_invalidate b then set_t_notifier (notifier_set_mem mem (t_notifier t)) t else t) b.

Definition set_backend_req_fd (fd : Z) (b : backend) : backend :=
  set_thread (set_vu_req (Some fd) (thread b)) b.

Definition handle_event (device_event : nat) (evset : EventSet) (b : backend) (g : G)
  : backend * G * res stop unit :=
  match evset with
  | Readable | All =>
      let '(t, g, r) :=
        match pool (thread b) with
        | Some _ => handle_event_pool rounds device_event (thread b) g
        | None => handle_event_serial checks os page_size rounds device_event (thread b) g
        end in
      (set_thread t b, g, r)
  | OtherEvents => (b, g, Err (Failed HandleEventNotEpollIn))
  end.
End Backend.
