(* ===== verification/VhostUserSpec.v ===== *)
(** * What the back end guarantees

    Requests are returned to the guest once each, in order, with the length of their reply;
    notifications fill one buffer each; the configuration space reads as the structure it
    is; and the messages of a migration hand the state of one daemon to another. *)

From S2P Require Import Prelude OpenFlags Libc FileHandle InodeStore DentryIndex FuseTypes.
From S2P Require Import FuseWire Descriptor SoftIdMap XattrMap Notify FileSystem Host Credentials.
From S2P Require Import ReadDir Paths MountFds Passthrough Ownership PassthroughOps PassthroughSpec.
From S2P Require Import Session Preserialization Migration SerializationSpec DeserializationSpec.
From S2P Require Import MigrationSpec Contract ReadOnly Requests Replies Server ServerSpec Daemon.
From S2P Require Import VhostUser.

(** ** Virtqueues

    What the crates document: a used ring takes the heads of the queue's descriptors and
    nothing else touches it; heads are 16 bits wide; a slice of guest memory has the length
    asked for. *)

Definition chain_wf (c : DescriptorChain) : Prop :=
  0 <= head_index c < 2 ^ 16 /\ Forall (fun d => 0 <= d.2) (writable c).

Class UsedRing (G Mem : Type) `{VirtQueues G Mem} := {
  used : nat -> G -> list (Z * Z);
  ring_size : nat -> Z;
  used_add q h len g :
    len <= u32_max ->
    used q (add_used q h len g).1 = used q g ++ (if h <? ring_size q then [(h, len)] else []);
  add_used_ok q h len g : (add_used q h len g).2 = (h <? ring_size q);
  used_collect q mem g : used q (vq_collect q mem g).1 = used q g;
  used_next q mem g : used q (vq_next q mem g).1 = used q g;
  used_store q mem c out g : used q (store_bytes mem c out g) = used q g;
  used_needs q g : used q (needs_notification q g).1 = used q g;
  used_signal q g : used q (signal_used_queue q g).1 = used q g;
  collect_wf q mem g g' chains : vq_collect q mem g = (g', Some chains) -> Forall chain_wf chains;
  next_wf q mem g g' c : vq_next q mem g = (g', Some (Some c)) -> chain_wf c;
  slice_length mem g addr len vs : find_slice mem g addr len = Ok vs -> blen vs = len;
}.

(** The entry for a chain; one whose head the queue does not have is only reported. *)
Definition used_entry {G Mem} `{UsedRing G Mem} (q : nat) (c : DescriptorChain) (len : Z)
  : list (Z * Z) :=
  if head_index c <? ring_size q then [(head_index c, len)] else [].

(** The guest's buffers.  The virtio specification asks drivers for chains whose buffers
    overlap neither each other nor the rings ([laid_out]); then what is stored into a chain
    stays there while the rings are used. *)
Class GuestBuffers (G Mem : Type) `{VirtQueues G Mem} := {
  laid_out : Mem -> DescriptorChain -> G -> Prop;
  buffer : Mem -> DescriptorChain -> G -> bytes;
  buffer_writer mem c g w :
    laid_out mem c g -> Writer_new mem g c = Ok w -> view (w_chain w) = buffer mem c g;
  buffer_store mem c out g :
    laid_out mem c g -> (length out <= length (buffer mem c g))%nat ->
    laid_out mem c (store_bytes mem c out g) /\
    buffer mem c (store_bytes mem c out g) = out ++ drop (length out) (buffer mem c g);
  buffer_used q h len mem c g :
    laid_out mem c g ->
    laid_out mem c (add_used q h len g).1 /\ buffer mem c (add_used q h len g).1 = buffer mem c g;
  buffer_needs q mem c g :
    laid_out mem c g ->
    laid_out mem c (needs_notification q g).1 /\
    buffer mem c (needs_notification q g).1 = buffer mem c g;
  buffer_signal q mem c g :
    laid_out mem c g -> buffer mem c (signal_used_queue q g).1 = buffer mem c g;
}.

(** ** Requests *)

Section Returning.
Context {F D G Mem : Type} `{RC : ReadContract F D} `{LC : !LookupCounts F D} `{UsedRing G Mem}.
Context (checks : bool) (os : HostOs) (page_size : Z).

(** The request of [c], read and answered in some state, has a reply of [len] bytes; in a
    chain of less than 4 GiB it is framed. *)
Definition answered (c : DescriptorChain) (len : Z) : Prop :=
  exists mem (g : G) r w (s s' : Server F) out,
    Reader_new mem g c = Ok r /\ Writer_new mem g c = Ok w /\
    handle_message checks os page_size s r w = (s', out, Ok len) /\
    (capacity w < 2 ^ 32 -> exists h rest,
     obj InHeader r = Ok (h, rest) /\ framed (in_header_unique h) out (Ok len)).

Lemma writer_new_fresh mem (g : G) c w :
  chain_wf c -> Writer_new mem g c = Ok w -> capacity w < 2 ^ 32 -> fresh w.
Proof.
  intros [_ Hd] Hw Hc. unfold Writer_new in Hw.
  destruct (consumer_new (find_slice mem g) (writable c)) as [k|?|] eqn:Hk; simplify_eq/=.
  unfold consumer_new in Hk.
  destruct (collect_buffers (find_slice mem g) 0 (writable c)) as [bufs|?|] eqn:Hcol; simplify_eq/=.
  pose proof Hcol as Hb. apply collect_buffers_total in Hb as [_ Hb]; [|apply slice_length|done|done].
  split; [|done|done]. split; [|done]. split; [done|]. simpl. unfold view. simpl.
  destruct (decide (writable c = [])) as [He|He]; [|by apply Hb in He].
  rewrite He in Hcol. by simplify_eq/=.
Qed.

Lemma signal_used q (g g' : G) : signal q g = (g', Ok tt) -> used q g' = used q g.
Proof.
  unfold signal. pose proof (used_signal q g). destruct (signal_used_queue q g) as [g1 []]; [|done].
  by intros [= <-].
Qed.

Lemma return_used q c e len (g g' : G) :
  return_descriptor q (head_index c) e len g = (g', Ok tt) ->
  used q g' = used q g ++ used_entry q c len.
Proof.
  unfold return_descriptor. destruct (Z.ltb_spec u32_max len) as [|Hlen]; [done|].
  pose proof (used_add q (head_index c) len g Hlen) as Hadd.
  destruct (add_used q (head_index c) len g) as [g1 ok]. simpl in Hadd. unfold used_entry.
  rewrite <- Hadd. destruct e; [|apply signal_used].
  pose proof (used_needs q g1) as Hn. destruct (needs_notification q g1) as [g2 [[]|]]; simpl in Hn;
    rewrite <- Hn; [apply signal_used|by intros [= <-]|apply signal_used].
Qed.

Lemma process_chain_used q mem e c (s s' : Server F) (g g' : G) :
  chain_wf c -> process_chain checks os page_size q mem e c s g = (s', g', Ok tt) ->
  exists len, answered c len /\ used q g' = used q g ++ used_entry q c len.
Proof.
  intros Hwf Hp. unfold process_chain, process_message in Hp.
  destruct (Reader_new mem g c) as [r|?|] eqn:Hr; [|done..].
  destruct (Writer_new mem g c) as [w|?|] eqn:Hw; [|done..].
  destruct (handle_message checks os page_size s r w) as [[s1 out] res] eqn:Hm.
  destruct res as [len|?|]; [|done..]. simpl in Hp.
  destruct (return_descriptor _ _ _ _ _) as [g1 ret] eqn:Hret. simplify_eq.
  exists len. split.
  - exists mem, g, r, w, s, s', out. split_and!; [done..|]. intros Hc.
    pose proof (message_framed checks os page_size s r w (writer_new_fresh _ _ _ _ Hwf Hw Hc)) as Hf.
    rewrite Hm in Hf. destruct (obj InHeader r) as [[h rest]|?|]; [eauto|by destruct Hf..].
  - apply return_used in Hret. by rewrite Hret, used_store.
Qed.

(** The entries of several chains. *)
Fixpoint used_entries (q : nat) (chains : list DescriptorChain) (lens : list Z) : list (Z * Z) :=
  match chains, lens with
  | c :: chains, len :: lens => used_entry q c len ++ used_entries q chains lens
  | _, _ => []
  end.

Lemma process_chains_used q mem e chains : forall (s s' : Server F) (g g' : G),
  Forall chain_wf chains ->
  process_chains checks os page_size q mem e chains s g = (s', g', Ok tt) ->
  exists lens, Forall2 answered chains lens /\ used q g' = used q g ++ used_entries q chains lens.
Proof.
  induction chains as [|c chains IH]; intros s s' g g' Hwf Hp; simpl in Hp.
  - simplify_eq. exists []. split; [constructor|]. by rewrite app_nil_r.
  - apply Forall_cons in Hwf as [Hc Hwf].
    destruct (process_chain _ _ _ _ _ _ _ _ _) as [[s1 g1] [[]|?|]] eqn:Hp1; [|done..].
    apply process_chain_used in Hp1 as (len & Ha & Hu); [|done].
    apply IH in Hp as (lens & Has & Hus); [|done]. exists (len :: lens). split; [by constructor|].
    simpl. by rewrite Hus, Hu, app_assoc.
Qed.

(** C10: every request the guest puts into a queue is returned once.  When the queue has been
    processed, its used ring has grown by one entry for each chain that was available, in
    their order, with the length of the reply that the file system server wrote into it. *)
Theorem serial_returns_requests q (t t' : VhostUserFsThread F Mem) (g g1 g' : G) mem chains any :
  t_mem t = Some mem -> vq_collect q mem g = (g1, Some chains) ->
  process_queue_serial checks os page_size q t g = (t', g', Ok any) ->
  any = negb (bool_decide (chains = [])) /\
  exists lens, Forall2 answered chains lens /\ used q g' = used q g ++ used_entries q chains lens.
Proof.
  intros Hmem Hc Hp. unfold process_queue_serial in Hp. rewrite Hmem, Hc in Hp.
  pose proof (used_collect q mem g) as Hu. pose proof (collect_wf _ _ _ _ _ Hc) as Hwf. rewrite Hc in Hu.
  destruct (process_chains _ _ _ _ _ _ _ _ _) as [[s1 g2] r] eqn:Hr.
  destruct r as [[]|?|]; simplify_eq/=. split; [done|].
  apply process_chains_used in Hr; [|done]. by rewrite <- Hu.
Qed.

(** *** The pool *)

(** Threads take tasks in any order. *)
Fixpoint run_tasks (order : list nat) (t : VhostUserFsThread F Mem) (g : G)
  : VhostUserFsThread F Mem * G * res stop unit :=
  match order with
  | [] => (t, g, Ok tt)
  | i :: order =>
      match run_task checks os page_size i t g with
      | (t, g, Ok _) => run_tasks order t g
      | r => r
      end
  end.

Definition entries_of (q : nat) (l : list (DescriptorChain * Z)) : list (Z * Z) :=
  concat ((fun e => used_entry q e.1 e.2) <$> l).

Definition task_ok (q : nat) (task : PoolTask Mem) : Prop :=
  task_queue task = q /\ chain_wf (task_chain task).

Lemma run_tasks_used q order : forall (t t' : VhostUserFsThread F Mem) (g g' : G) tasks,
  pool t = Some tasks -> Forall (task_ok q) tasks ->
  run_tasks order t g = (t', g', Ok tt) -> pool t' = Some [] ->
  exists l, l.*1 ≡ₚ task_chain <$> tasks /\ Forall (fun e => answered e.1 e.2) l /\
    used q g' ≡ₚ used q g ++ entries_of q l.
Proof.
  induction order as [|i order IH]; intros t t' g g' tasks Ht Hok Hr Hend; simpl in Hr.
  { simplify_eq. exists []. unfold entries_of. simpl.
    by rewrite app_nil_r. }
  unfold run_task in Hr. rewrite Ht in Hr. destruct (tasks !! i) as [task|] eqn:Hi; [|by eapply IH].
  destruct (process_chain _ _ _ _ _ _ _ _ _) as [[s1 g1] [[]|?|]] eqn:Hp; [|done..].
  pose proof (delete_Permutation _ _ _ Hi) as Hperm.
  rewrite Hperm in Hok. apply Forall_cons in Hok as [[Hq Hwf] Hok]. rewrite Hq in Hp.
  apply process_chain_used in Hp as (len & Ha & Hu); [|done].
  eapply IH in Hr as (l & Hl & Hans & Hus); [|done|done|done].
  exists ((task_chain task, len) :: l). split_and!.
  - rewrite Hperm. csimpl. by rewrite Hl.
  - by constructor.
  - rewrite Hus, Hu. unfold entries_of. csimpl. by rewrite <- app_assoc.
Qed.

(** The chains that come off the queue until it is empty. *)
Inductive taken (q : nat) (mem : Mem) : G -> list DescriptorChain -> G -> Prop :=
| taken_none g g' : vq_next q mem g = (g', Some None) -> taken q mem g [] g'
| taken_one g g1 g' c chains :
    vq_next q mem g = (g1, Some (Some c)) -> taken q mem g1 chains g' ->
    taken q mem g (c :: chains) g'.

Lemma pool_loop_tasks q mem fuel : forall any any' (t t' : VhostUserFsThread F Mem) (g g' : G) tasks,
  pool t = Some tasks -> Forall (task_ok q) tasks ->
  pool_loop fuel q mem any t g = (t', g', Ok any') ->
  used q g' = used q g /\ exists more, pool t' = Some (tasks ++ more) /\
    taken q mem g (task_chain <$> more) g' /\
    Forall (task_ok q) (tasks ++ more) /\ any' = any || negb (bool_decide (more = [])).
Proof.
  induction fuel as [|fuel IH]; intros any any' t t' g g' tasks Ht Hok Hr; simpl in Hr;
    pose proof (used_next q mem g) as Hu; pose proof (next_wf q mem g) as Hwf;
    destruct (vq_next q mem g) as [g1 [[c|]|]] eqn:Hn; simpl in Hu; try done.
  1, 3: simplify_eq; split; [done|]; exists []; rewrite app_nil_r, orb_false_r; by repeat constructor.
  unfold spawn_task in Hr. rewrite Ht in Hr.
  eapply IH in Hr as (Hu' & more & Hm & Htk & Hall & ->); [|done|].
  - split; [congruence|]. eexists (_ :: more). rewrite <- app_assoc in *.
    split_and!; [done|by econstructor|done|]. simpl. by rewrite orb_true_r.
  - apply Forall_app. split; [done|]. constructor; [|done]. split; [done|]. by eapply Hwf.
Qed.

(** C21: with a thread pool every request is returned once too, whatever the order in which the
    threads take the requests: when the pool is done, the used ring has grown by one entry
    for each chain that came off the queue until it was empty, with the length of its
    reply. *)
Theorem pool_returns_requests rounds q order (t t1 t2 : VhostUserFsThread F Mem) (g g1 g2 : G) mem any :
  t_mem t = Some mem -> pool t = Some [] ->
  process_queue_pool rounds q t g = (t1, g1, Ok any) ->
  run_tasks order t1 g1 = (t2, g2, Ok tt) -> pool t2 = Some [] ->
  exists chains l, taken q mem g chains g1 /\ any = negb (bool_decide (chains = [])) /\
    l.*1 ≡ₚ chains /\ Forall (fun e => answered e.1 e.2) l /\
    used q g2 ≡ₚ used q g ++ entries_of q l.
Proof.
  intros Hmem Ht Hp Hr Hend. unfold process_queue_pool in Hp. rewrite Hmem in Hp.
  apply (pool_loop_tasks q mem rounds _ _ _ _ _ _ []) in Hp as (Hu & tasks & Ht1 & Htk & Hok & ->); [|done..].
  simpl in *. destruct (run_tasks_used q order _ _ _ _ _ Ht1 Hok Hr Hend) as (l & Hl & Ha & Hus).
  exists (task_chain <$> tasks), l. rewrite <- Hu. split_and!; try done. by destruct tasks.
Qed.
End Returning.

(** ** The configuration space *)

Section Config.
Context {F Mem : Type}.
Implicit Types b : VhostUserFsBackend F Mem.

(** The structure of the virtio specification. *)
Definition config_image (tag : bytes) : bytes :=
  tag ++ replicate (MAX_TAG_LEN - length tag) 0 ++ [1; 0; 0; 0].

(** [s] bytes from the offset [o], with zeros after the end. *)
Definition window (l : bytes) (o s : nat) : bytes := take s (drop o (l ++ replicate (o + s) 0)).

Lemma window_more l o s n :
  (o + s <= n)%nat -> take s (drop o (l ++ replicate n 0)) = window l o s.
Proof.
  intros Hn. unfold window. rewrite !drop_app, !take_app, !drop_replicate, !take_replicate.
  do 2 f_equal. lia.
Qed.

Lemma window_length l o s : length (window l o s) = s.
Proof. unfold window. rewrite length_take, length_drop, length_app, length_replicate. lia. Qed.

Lemma window_split l o s m : window l o (s + m) = window l o s ++ window l (o + s) m.
Proof.
  rewrite <- (window_more l o s (o + (s + m))), <- (window_more l (o + s) m (o + (s + m))) by lia.
  unfold window. by rewrite <- (drop_drop _ s o), take_take_drop.
Qed.

Lemma get_config_window b tg offset size :
  tag b = Some tg -> tg <> [] -> (length tg <= MAX_TAG_LEN)%nat ->
  get_config b offset size = Ok (window (config_image tg) (Z.to_nat offset) (Z.to_nat size)).
Proof.
  intros Ht Hne Hlen. unfold get_config. rewrite Ht.
  rewrite bool_decide_eq_false_2 by done. destruct (Nat.leb_spec (length tg) MAX_TAG_LEN); [|lia].
  cbn [andb negb]. f_equal.
  assert (Hc : config_slice {| cfg_tag := fill (replicate MAX_TAG_LEN 0) tg;
                               num_request_queues := REQUEST_QUEUES |} = config_image tg).
  { unfold config_slice, fill. cbn [cfg_tag num_request_queues]. rewrite drop_replicate.
    unfold config_image. by rewrite <- app_assoc. }
  rewrite Hc. unfold window. rewrite drop_app, take_app, drop_replicate, take_replicate.
  f_equal. f_equal. rewrite length_take, length_drop. lia.
Qed.

(** the configuration space reads as the structure of the virtio specification: the tag,
    padded with zeros to 36 bytes and not terminated if it fills them, and the number of
    request queues in little endian, with zeros after the end.  A read returns exactly the
    bytes asked for, and reading in pieces gives what reading at once does. *)
Theorem config_space b tg offset size more :
  tag b = Some tg -> tg <> [] -> (length tg <= MAX_TAG_LEN)%nat ->
  0 <= offset -> 0 <= size -> 0 <= more ->
  get_config b 0 40 = Ok (tg ++ replicate (36 - length tg) 0 ++ [1; 0; 0; 0]) /\
  exists r1 r2, get_config b offset size = Ok r1 /\ get_config b (offset + size) more = Ok r2 /\
    blen r1 = size /\ get_config b offset (size + more) = Ok (r1 ++ r2).
Proof.
  intros Ht Hne Hlen Ho Hs Hm. rewrite !(get_config_window b tg) by done. split.
  - f_equal. apply take_app_length'. unfold config_image. rewrite !length_app, length_replicate.
    simpl. unfold MAX_TAG_LEN in *. lia.
  - do 2 eexists. split_and!; [done..| |].
    + unfold blen. rewrite window_length. lia.
    + by rewrite !Z2Nat.inj_add, window_split by lia.
Qed.
End Config.

(** ** Notifications *)

Section NotifierSpec.
Context {G Mem : Type} `{UsedRing G Mem} `{!GuestBuffers G Mem}.

(** A buffer of the notification queue that comes back with [len] bytes. *)
Definition buffer_returned (q : nat) (c : DescriptorChain) (len : Z) (g g' : G) : Prop :=
  used q g' = used q g ++ used_entry q c len.

Lemma writer_new_empty mem (g : G) c w :
  chain_wf c -> Writer_new mem g c = Ok w -> chain_ok (w_chain w) /\ w_out w = [].
Proof.
  intros [_ Hd] Hw. unfold Writer_new, consumer_new in Hw.
  destruct (collect_buffers (find_slice mem g) 0 (writable c)) as [bufs|?|] eqn:Hcol; simplify_eq/=.
  pose proof Hcol as Hb. apply collect_buffers_total in Hb as [_ Hb]; [|apply slice_length|done|done].
  split; [|done]. split; [done|]. simpl. unfold view. simpl.
  destruct (decide (writable c = [])) as [He|He]; [|by apply Hb in He].
  rewrite He in Hcol. by simplify_eq/=.
Qed.

(** What is left of a guest once the buffer of [c] has been used: [data] stands at the
    beginning of the chain's buffers, the rest of them is as it was. *)
Definition now_holds (mem : Mem) (c : DescriptorChain) (data : bytes) (g g' : G) : Prop :=
  laid_out mem c g -> buffer mem c g' = data ++ drop (length data) (buffer mem c g).

(** Returning a buffer and signalling leave its contents alone. *)
Lemma finish_send q mem c len data e (g g1 g' : G) :
  now_holds mem c data g g1 -> (laid_out mem c g -> laid_out mem c g1) ->
  (let g2 := (add_used q (head_index c) len g1).1 in
   let '(g3, must) := if e : bool then let '(g3, b) := needs_notification q g2 in (g3, default true b)
                      else (g2, true) in
   if must : bool then (signal_used_queue q g3).1 else g3) = g' ->
  now_holds mem c data g g' /\ used q g' = used q (add_used q (head_index c) len g1).1.
Proof.
  cbv zeta. intros Hd Hl He. split.
  - intros Hlay. rewrite <- (Hd Hlay). destruct (buffer_used q (head_index c) len mem c g1 (Hl Hlay)) as [Hl2 <-].
    set (g2 := (add_used q (head_index c) len g1).1) in *.
    destruct (buffer_needs q mem c g2 Hl2) as [Hl3 Hn].
    subst g'. destruct e; [|by apply buffer_signal].
    destruct (needs_notification q g2) as [g3 b]. simpl in *. rewrite <- Hn.
    destruct (default true b); [by apply buffer_signal|done].
  - subst g'. set (g2 := (add_used q (head_index c) len g1).1).
    destruct e; [|apply used_signal]. pose proof (used_needs q g2) as Hn.
    destruct (needs_notification q g2) as [g3 b]. simpl in *. rewrite <- Hn.
    destruct (default true b); [apply used_signal|done].
Qed.

(** C22: what sending a notification does.  It takes one buffer off the notification queue.
    If the notification fits, its encoding stands in the guest's buffer, followed by what was
    there, and the buffer is returned with that length; if it does not, the buffer is
    returned empty and unchanged.  Without a negotiated queue nothing happens.  (After any
    other error the buffer that was taken is not returned: the guest has one buffer less for
    the rest of the session.) *)
Theorem notifier_send_outcome (n : NotifierState Mem) (g : G) (m : Notification) :
  let '(g', r) := notifier_send n g m in
  match vring n, ns_mem n with
  | Some q, Some mem =>
      if enabled n then
        match vq_next q mem g, r with
        | (g1, Some (Some c)), Ok _ =>
            buffer_returned q c (as_u32 (blen (encode m))) g g' /\
            now_holds mem c (encode m) g1 g' /\
            (laid_out mem c g1 -> (length (encode m) <= length (buffer mem c g1))%nat)
        | (g1, Some (Some c)), Err (BufferTooSmall needed have) =>
            needed = blen (encode m) /\ have < needed /\ buffer_returned q c 0 g g' /\
            now_holds mem c [] g1 g' /\ (laid_out mem c g1 -> blen (buffer mem c g1) = have)
        | (g1, Some (Some c)), Err e => (exists err, e = NotifierIo err) /\ used q g' = used q g
        | (g1, Some (Some c)), Panic => Writer_new mem g1 c = Panic
        | (g1, _), _ => r = Err QueueFull /\ g' = g1
        end
      else r = Err QueueNotNegotiated /\ g' = g
  | _, _ => r = Err QueueNotNegotiated /\ g' = g
  end.
Proof.
  unfold notifier_send. destruct (enabled n); simpl; [|by repeat case_match].
  destruct (vring n) as [q|]; [|done]. destruct (ns_mem n) as [mem|]; [|done].
  pose proof (used_next q mem g) as Hu. pose proof (next_wf q mem g) as Hwf.
  destruct (vq_next q mem g) as [g1 [[c|]|]]; simpl in Hu; [|done..].
  specialize (Hwf g1 c eq_refl). unfold buffer_returned. rewrite <- Hu.
  destruct (Writer_new mem g1 c) as [w|?|] eqn:Hw; [|split; [eauto|done]|done].
  destruct (writer_new_empty _ _ _ _ Hwf Hw) as [Hok Hout].
  rewrite available_bytes_view.
  destruct (Z.ltb_spec (blen (view (w_chain w))) (blen (encode m))) as [Hlt|Hge].
  - pose proof (used_add q (head_index c) 0 g1 ltac:(done)) as Ha.
    destruct (add_used q (head_index c) 0 g1) as [g2 ok] eqn:Hadd. split_and!; [done..| |].
    + intros Hl. pose proof (buffer_used q (head_index c) 0 mem c g1 Hl) as [_ Hb]. by rewrite Hadd in Hb.
    + intros Hl. by rewrite (buffer_writer _ _ _ _ Hl Hw).
  - pose proof (write_all_spec w (encode m) Hok) as Hwr.
    destruct (write_all w (encode m)) as [w' r]. destruct Hwr as (Ho & _ & _ & _ & Hr).
    unfold blen in Hge. unfold room in Hr, Ho.
    rewrite decide_True in Hr by lia. rewrite Hout, take_ge in Ho by lia. simpl in Ho. subst r. rewrite Ho.
    assert (Hfit : laid_out mem c g1 -> (length (encode m) <= length (buffer mem c g1))%nat)
      by (intros Hl; rewrite <- (buffer_writer _ _ _ _ Hl Hw); lia).
    set (len := as_u32 (blen (encode m))). set (g2 := store_bytes mem c (encode m) g1).
    assert (Hlen : len <= u32_max).
    { unfold len, as_u32, u32_max. pose proof (Z.mod_pos_bound (blen (encode m)) (2 ^ 32)). lia. }
    pose proof (used_add q (head_index c) len g2 Hlen) as Ha.
    pose proof (add_used_ok q (head_index c) len g2) as Hadd.
    assert (Hs : used q g2 = used q g1) by apply used_store.
    pose proof (finish_send q mem c len (encode m) (ns_event_idx n) g1 g2 _
      (fun Hl => proj2 (buffer_store mem c (encode m) g1 Hl (Hfit Hl)))
      (fun Hl => proj1 (buffer_store mem c (encode m) g1 Hl (Hfit Hl))) eq_refl) as Hf.
    unfold used_entry. rewrite <- Hs.
    destruct (add_used q (head_index c) len g2) as [g3 ok]. simpl in Ha, Hadd, Hf. rewrite <- Hadd in Ha |- *.
    destruct ok; [|by rewrite Ha, app_nil_r; split; [eauto|]]. rewrite <- Ha.
    destruct (if ns_event_idx n then _ else _) as [g4 must]. destruct Hf as [Hh Hused].
    split_and!; [exact Hused|exact Hh|exact Hfit].
Qed.
End NotifierSpec.

(** ** Migration *)

Section Serializing.
Context {W M : Type} `{Host W} `{RangeMap M MapEntry} `{Postcard SerPassthroughFs} `{HashOrder}.
Context (os : HostOs) (fs : Setup M) (rounds : nat).

(** [impl SerializableFileSystem for PassthroughFs]; the wrapper for read-only shares
    forwards to it. *)
Definition passthrough_serializable : SerializableFileSystem (PassthroughFs W) :=
  {| VhostUser.prepare_serialization := Preserialization.prepare_serialization true os fs rounds;
     VhostUser.serialize := Migration.serialize true os fs rounds;
     VhostUser.deserialize_and_apply := Migration.deserialize_and_apply true os fs |}.

Context {Mem : Type}.
#[local] Existing Instance passthrough_serializable.
Local Notation backend := (VhostUserFsBackend (PassthroughFs W) Mem).
Local Notation books := (books true fs 0).

Lemma shared_with_server (f : PassthroughFs W -> PassthroughFs W) (b : backend) :
  shared_fs (with_server f b) = f (shared_fs b).
Proof. done. Qed.

(** The references of the guest, and what it takes to migrate. *)
Definition ready (h : Z -> Z) (s : PassthroughFs W) : Prop :=
  books s {| held := h; loose := 0 |} /\ migratable fs s.

Lemma prepare_ready cancel h (s s' : PassthroughFs W) r :
  ready h s -> Preserialization.prepare_serialization true os fs rounds cancel s = (s', r) ->
  r = Panic \/ ready h s'.
Proof.
  intros [Hb Hm] Hr. destruct r as [[]|e|]; [right|right|by left].
  all: pose proof (safe_prepare fs true os rounds cancel s) as Hk; rewrite Hr in Hk;
    split; [|by apply Hk].
  - eapply neutral_books; [apply neutral_prepare|done|exact Hr].
  - assert (Hnn : nonneg {| held := h; loose := 0 |}) by (split; [intros j; by apply Hb|done]).
    apply books_nothing in Hb.
    pose proof (neutral_prepare os fs rounds cancel 0 s _ ltac:(done) Hnn Hb) as Hn.
    rewrite Hr in Hn. by apply books_nothing.
Qed.

Lemma join_ready notices p h (b b' : backend) :
  ready h (shared_fs b) -> join_premigration notices p b = (b', Ok tt) -> ready h (shared_fs b').
Proof.
  intros Hb. unfold join_premigration, run_premigration. destruct (handle p) as [[[]|?|]|].
  1, 2, 3: by intros [= <-].
  simpl. destruct (Preserialization.prepare_serialization _ _ _ _ _ _) as [s1 r] eqn:Hr.
  destruct (prepare_ready _ _ _ _ _ Hb Hr) as [->|Hs]; [done|]. destruct r; by intros [= <-].
Qed.

(** The end of a SAVE. *)
Lemma save_written notices h (b b' : backend) pre :
  ready h (shared_fs b) -> run_job notices (SaveJob pre) b = (b', Ok tt) ->
  exists s, ready h s /\
    Migration.serialize true os fs rounds s = (shared_fs b', Ok (written_state b')).
Proof.
  intros Hb Hr. unfold run_job in Hr.
  destruct pre as [p|].
  - destruct (join_premigration notices p b) as [b1 [[]|?|]] eqn:Hj; [|done..].
    pose proof (join_ready _ _ _ _ _ Hb Hj) as Hb1. exists (shared_fs b1). split; [done|].
    simpl in Hr. destruct (Migration.serialize _ _ _ _ _) as [s1 [bytes|?|]]; [|done..].
    by injection Hr as <-.
  - simpl in Hr. destruct (Preserialization.prepare_serialization _ _ _ _ _ _) as [s1 r] eqn:Hp.
    destruct (prepare_ready _ _ _ _ _ Hb Hp) as [->|Hs]; [done|].
    exists s1. split; [done|]. destruct r; [..|done].
    all: rewrite shared_with_server in Hr.
    all: destruct (Migration.serialize _ _ _ _ _) as [s2 [bytes|?|]]; [|done..]; by injection Hr as <-.
Qed.
End Serializing.

Section Jobs.
Context {F Mem : Type} `{SerializableFileSystem F} (notices : F -> bool).
Implicit Types b : VhostUserFsBackend F Mem.

(** A migration thread does not look at the handle of a migration thread. *)
Lemma run_job_set_migration j m b :
  run_job notices j (set_migration m b) =
    (set_migration m (run_job notices j b).1, (run_job notices j b).2).
Proof.
  destruct j as [[p|]|stream]; simpl; unfold join_premigration, run_premigration, shared_fs; simpl.
  - destruct (handle p) as [[[]|?|]|]; simpl; try done.
    all: try by destruct (serialize _) as [? []].
    destruct (prepare_serialization _ _) as [f [[]|?|]]; simpl; try done.
    all: by destruct (serialize _) as [? []].
  - destruct (prepare_serialization _ _) as [f [[]|?|]]; simpl; try done.
    all: by destruct (serialize _) as [? []].
  - by destruct (deserialize_and_apply _ _) as [f []].
Qed.

(** Whether a thread has run already makes no difference to the one who waits for it. *)
Lemma early_check b :
  check_device_state notices (migration_runs notices b) = check_device_state notices b.
Proof.
  unfold check_device_state, migration_runs.
  destruct (migration_thread b) as [[j [r|]]|] eqn:Hm; [by rewrite Hm| |by rewrite Hm].
  rewrite (surjective_pairing (run_job notices j b)). simpl.
  rewrite run_job_set_migration. done.
Qed.

Lemma check_device_state_inv j b b' (early : bool) :
  migration_thread b = Some {| job := j; job_outcome := None |} ->
  check_device_state notices (if early then migration_runs notices b else b) = (b', Ok tt) ->
  run_job notices j (set_migration None b) = (b', Ok tt).
Proof.
  intros Hj. assert (Hc : check_device_state notices (if early then migration_runs notices b else b) =
    check_device_state notices b) by (destruct early; [apply early_check|done]).
  rewrite Hc. unfold check_device_state. rewrite Hj. simpl.
  by destruct (run_job _ _ _) as [b1 [?|?|]].
Qed.

Lemma started_shared j m b : shared_fs (set_migration m (start_migration j b)) = shared_fs b.
Proof. unfold start_migration. by destruct (migration_thread b) as [[? []]|]. Qed.
End Jobs.

Section Handover.
Context {W1 W2 M1 M2 Mem1 Mem2 : Type}.
Context `{Host W1} `{Host W2} `{RangeMap M1 MapEntry} `{RangeMap M2 MapEntry}.
Context `{Postcard SerPassthroughFs} `{HashOrder}.

(** C9: the messages of a migration hand one daemon's state to another.  The front end tells
    the source to save its state, whether or not it has announced the migration before and
    whether or not the preparation has finished, and the destination to load what the
    source wrote; when both report success, the destination's file system has exactly the
    guest's references, and the source's options, IDs and open files, whether the threads
    that do it run before they are waited for or not.  The result can be asked for once. *)
Theorem device_state_handover (os1 os2 : HostOs) (fs1 : Setup M1) (fs2 : Setup M2)
  (rounds1 rounds2 : nat) (notices1 : PassthroughFs W1 -> bool) (notices2 : PassthroughFs W2 -> bool)
  (b b1 b2 : VhostUserFsBackend (PassthroughFs W1) Mem1)
  (c c1 c2 : VhostUserFsBackend (PassthroughFs W2) Mem2) (h h2 : Z -> Z) (file : bytes)
  (early1 early2 : bool) :
  let ser1 := passthrough_serializable os1 fs1 rounds1 in
  let ser2 := passthrough_serializable os2 fs2 rounds2 in
  ready fs1 h (shared_fs b) ->
  do_set_device_state_fd (H0 := ser1) notices1 SAVE (Some STOPPED) file b = (b1, Ok tt) ->
  check_device_state (H0 := ser1) notices1
    (if early1 then migration_runs (H0 := ser1) notices1 b1 else b1) = (b2, Ok tt) ->
  books true fs2 0 (shared_fs c) {| held := h2; loose := 0 |} -> premigration_thread c = None ->
  do_set_device_state_fd (H0 := ser2) notices2 LOAD (Some STOPPED) (written_state b2) c = (c1, Ok tt) ->
  check_device_state (H0 := ser2) notices2
    (if early2 then migration_runs (H0 := ser2) notices2 c1 else c1) = (c2, Ok tt) ->
  let s := shared_fs b2 in let t := shared_fs c2 in
  books true fs2 0 t {| held := h; loose := 0 |} /\
  opts t = opts s /\ next_inode t = next_inode s /\ next_handle t = next_handle s /\
  stands_for_file <$> handles t = stands_for_file <$> handles s /\
  (check_device_state (H0 := ser2) notices2 c2).2 = Err (Custom InvalidInput).
Proof.
  intros ser1 ser2 Hb Hsave Hsaved (Hw & _ & _ & Hsl) Hpre Hload Hloaded s t.
  unfold do_set_device_state_fd in Hsave, Hload. rewrite Hpre in Hload.
  injection Hsave as <-. injection Hload as <-.
  apply (check_device_state_inv notices1 (SaveJob (premigration_thread b))) in Hsaved; [|done].
  apply (check_device_state_inv notices2 (LoadJob (written_state b2))) in Hloaded; [|done].
  eapply (save_written os1 fs1 rounds1 notices1 h) in Hsaved; [|by rewrite started_shared].
  destruct Hsaved as (s0 & [Hs0 Hm0] & Hser).
  unfold run_job in Hloaded. rewrite started_shared in Hloaded. simpl in Hloaded.
  destruct (Migration.deserialize_and_apply true os2 fs2 (written_state b2) (shared_fs c))
    as [t0 r] eqn:Hde. destruct r as [[]|?|]; [|done..].
  injection Hloaded as <-.
  destruct (hands_over os1 os2 fs1 fs2 rounds1 _ _ _ _ h _ Hs0 Hm0 Hw Hsl Hser Hde)
    as (? & ? & ? & ? & ?). split_and!; done.
Qed.
End Handover.

(** ** The state of the device *)

Section Coherence.
Context {F D G Mem : Type} `{FileSystem F D} `{SerializableFileSystem F} `{VirtQueues G Mem}.
Context (checks : bool) (os : HostOs) (page_size : Z) (rounds : nat) (notices : F -> bool).

Local Notation thread := (VhostUserFsThread F Mem).
Local Notation backend := (VhostUserFsBackend F Mem).

(** What the front end, the guest and the threads of the daemon do, in any order. *)
Inductive backend_step : backend * G -> backend * G -> Prop :=
| step_acked fts b g : backend_step (b, g) (acked_features notices fts b, g)
| step_premigration b g : backend_step (b, g) (premigration_runs notices b, g)
| step_reset b g : backend_step (b, g) ((reset_device b).1, g)
| step_event_idx e b g : backend_step (b, g) (set_event_idx e b, g)
| step_memory mem b g : backend_step (b, g) (update_memory mem b, g)
| step_req_fd fd b g : backend_step (b, g) (set_backend_req_fd fd b, g)
| step_set_state dir phase file b g :
    backend_step (b, g) ((do_set_device_state_fd notices dir phase file b).1, g)
| step_check_state b g : backend_step (b, g) ((check_device_state notices b).1, g)
| step_migration b g : backend_step (b, g) (migration_runs notices b, g)
| step_detached i b g : backend_step (b, g) (detached_runs notices i b, g)
| step_event e evset b g :
    backend_step (b, g) (handle_event checks os page_size rounds e evset b g).1
| step_task i b g :
    let o := run_task checks os page_size i (VhostUser.thread b) g in
    backend_step (b, g) (set_thread o.1.1 b, o.1.2)
| step_send n b g :
    backend_step (b, g) (b, (notifier_send (t_notifier (VhostUser.thread b)) g n).1)
| step_guest b g g' : backend_step (b, g) (b, g').

(** The fields that only messages of the front end and the notification queue change. *)
Definition control (t : thread) := (t_mem t, event_idx t, t_notifier t).

Definition coherent_thread (notify : bool) (t : thread) : Prop :=
  let n := t_notifier t in
  enabled n = notify /\ ns_event_idx n = event_idx t /\
  (forall q, vring n = Some q -> q = NOTIF_QUEUE_EVENT /\ notify = true) /\
  (forall m, ns_mem n = Some m -> t_mem t = Some m /\ notify = true).

Definition coherent (b : backend) : Prop := coherent_thread (notify_invalidate b) (VhostUser.thread b).

Lemma coherent_control notify (t t' : thread) :
  control t' = control t -> coherent_thread notify t -> coherent_thread notify t'.
Proof. unfold control, coherent_thread. intros [= -> -> ->]. done. Qed.

Lemma process_serial_control q (t : thread) (g : G) :
  control (process_queue_serial checks os page_size q t g).1.1 = control t.
Proof.
  unfold process_queue_serial. destruct (t_mem t); [|done].
  destruct (vq_collect _ _ _) as [? [?|]]; [|done]. by destruct (process_chains _ _ _ _ _ _ _ _ _) as [[? ?] ?].
Qed.

Lemma pool_loop_control fuel q mem any (t : thread) (g : G) :
  control (pool_loop fuel q mem any t g).1.1 = control t.
Proof.
  revert any t g. induction fuel as [|fuel IH]; intros any t g; simpl;
    destruct (vq_next _ _ _) as [? [[?|]|]]; try done.
  unfold spawn_task. destruct (pool t); [|done]. simpl. by rewrite IH.
Qed.

Lemma process_pool_control q (t : thread) (g : G) :
  control (process_queue_pool rounds q t g).1.1 = control t.
Proof. unfold process_queue_pool. destruct (t_mem t); [apply pool_loop_control|done]. Qed.

Lemma run_task_control i (t : thread) (g : G) :
  control (run_task checks os page_size i t g).1.1 = control t.
Proof.
  unfold run_task. destruct (pool t) as [tasks|]; [|done]. destruct (tasks !! i); [|done].
  by destruct (process_chain _ _ _ _ _ _ _ _ _) as [[? ?] ?].
Qed.

Lemma event_loop_control fuel q process (t : thread) (g : G) :
  (forall t g, control (process t g : thread * G * res stop bool).1.1 = control t) ->
  control (event_loop fuel q process t g).1.1 = control t.
Proof.
  intros Hp. revert t g. induction fuel as [|fuel IH]; intros t g; [done|]. simpl.
  destruct (disable_notification _ _) as [g1 []]; [|done].
  pose proof (Hp t g1) as Hc. destruct (process t g1) as [[t2 g2] r].
  destruct r as [?|[?|?]|]; try done.
  all: destruct (enable_notification _ _) as [g3 [[]|]]; simpl in *; rewrite ?IH; done.
Qed.

Lemma handle_event_coherent process e notify (t : thread) (g : G) :
  (forall q t g, control (process q t g : thread * G * res stop bool).1.1 = control t) ->
  coherent_thread notify t -> coherent_thread notify (handle_event_with rounds process e t g).1.1.
Proof.
  intros Hp Ht. unfold handle_event_with. destruct (enabled _ && _) eqn:He.
  - apply andb_true_iff in He as [He _]. simpl. destruct (t_mem t) as [mem|] eqn:Hm; [|done].
    destruct Ht as (Hen & Hidx & Hv & Hmem). assert (notify = true) as -> by congruence.
    split_and!; simpl; [done..| |].
    + intros q. destruct (vring (t_notifier t)) as [q'|]; intros [= <-]; [by apply Hv|done].
    + intros m. destruct (ns_mem (t_notifier t)) as [m'|]; intros [= <-]; [|done].
      by apply Hmem.
  - destruct (event_ring _ _) as [q|]; [|done]. destruct (event_idx t).
    + eapply coherent_control; [|done]. apply event_loop_control. intros. apply Hp.
    + pose proof (Hp q t g) as Hc. destruct (process q t g) as [[t1 g1] r]. simpl in *.
      eapply coherent_control; done.
Qed.

Lemma coherent_same (b b' : backend) :
  notify_invalidate b' = notify_invalidate b ->
  control (VhostUser.thread b') = control (VhostUser.thread b) -> coherent b -> coherent b'.
Proof. unfold coherent. intros -> Hc. by apply coherent_control. Qed.

(** Preparing and transferring the state touch nothing but the file system. *)
Definition same_control (b b' : backend) : Prop :=
  notify_invalidate b' = notify_invalidate b /\
  control (VhostUser.thread b') = control (VhostUser.thread b).

Lemma join_control p (b : backend) : same_control b (join_premigration notices p b).1.
Proof.
  unfold join_premigration, run_premigration. destruct (handle p) as [[]|]; [done..|].
  by destruct (prepare_serialization _ _) as [? []].
Qed.

Lemma run_job_control j (b : backend) : same_control b (run_job notices j b).1.
Proof.
  destruct j as [pre|stream]; simpl; [|by destruct (deserialize_and_apply _ _)].
  assert (Hs : forall b1, same_control b b1 ->
    same_control b (let '(f, r) := serialize (shared_fs b1) in
      let b2 := with_server (fun _ => f) b1 in
      match r with
      | Ok st => (set_written st b2, @Ok io_error unit tt)
      | Err e => (b2, Err (with_context e))
      | Panic => (b2, Panic)
      end).1) by (intros b1 Hb1; by destruct (serialize _) as [? []]).
  destruct pre as [p|].
  - pose proof (join_control p b) as Hj. destruct (join_premigration _ p b) as [b1 [?|?|]]; auto.
  - destruct (prepare_serialization _ _) as [f r]. destruct r; [by apply Hs..|done].
Qed.

Lemma start_control j (b : backend) : coherent b -> coherent (start_migration j b).
Proof. unfold start_migration. by destruct (migration_thread b) as [[? []]|]. Qed.

Lemma backend_step_coherent c c' : backend_step c c' -> coherent c.1 -> coherent c'.1.
Proof.
  intros Hs. destruct Hs; simpl; intros Hc.
  - unfold acked_features. destruct (negb _), (premigration_thread b) as [p|]; try done.
    destruct (join_control {| handle := handle p; cancel := true |} (set_premigration None b)) as [Hn Hk].
    by apply (coherent_same b).
  - unfold premigration_runs, run_premigration. destruct (premigration_thread b) as [p|]; [|done].
    destruct (handle p); [done|]. by destruct (prepare_serialization _ _).
  - unfold reset_device. by destruct (fs_destroy _) as [? []].
  - destruct Hc as (? & ? & ? & ?). by split_and!.
  - unfold update_memory. destruct Hc as (He & Hi & Hv & Hm). unfold coherent, coherent_thread. simpl.
    destruct (notify_invalidate b); simpl; split_and!; try done.
    intros m Hn. by destruct (Hm m Hn).
  - done.
  - unfold do_set_device_state_fd. destruct phase as [[]|]; [|done]. destruct dir; [by apply start_control|].
    destruct (premigration_thread b) as [p|]; [|by apply start_control].
    destruct (join_control {| handle := handle p; cancel := true |} (set_premigration None b)) as [Hn Hk].
    apply start_control. by apply (coherent_same b).
  - unfold check_device_state. destruct (migration_thread b) as [[j [r|]]|]; [by destruct r| |done].
    destruct (run_job_control j (set_migration None b)) as [Hn Hk]. simpl.
    destruct (run_job _ _ _) as [b1 []]; by apply (coherent_same b).
  - unfold migration_runs. destruct (migration_thread b) as [[j [r|]]|]; [done| |done].
    destruct (run_job_control j b) as [Hn Hk]. destruct (run_job _ _ _) as [b1 r].
    by apply (coherent_same b).
  - unfold detached_runs. destruct (detached b !! i) as [j|]; [|done].
    destruct (run_job_control j (set_detached (delete i (detached b)) b)) as [Hn Hk].
    by apply (coherent_same b).
  - unfold handle_event. destruct evset; [| |done].
    all: destruct (pool _); unfold handle_event_pool, handle_event_serial.
    all: match goal with |- context[handle_event_with rounds ?p ?e ?t ?g] =>
      pose proof (handle_event_coherent p e _ t g
        ltac:(first [apply process_pool_control|apply process_serial_control]) Hc) as Hk;
      by destruct (handle_event_with rounds p e t g) as [[? ?] ?] end.
  - by apply (coherent_same b); [|apply run_task_control|].
  - done.
  - done.
Qed.

(** The rings of the layout: the event of a ring is handled as that ring's, and every other
    event is an error that changes nothing. *)
Lemma event_ring_layout (notify : bool) e :
  event_ring notify e =
    (if decide (e < (if notify then 3 else 2))%nat
     then (if notify && bool_decide (e = NOTIF_QUEUE_EVENT) then None else Some e) else None).
Proof.
  unfold event_ring, HIPRIO_QUEUE_EVENT, REQ_QUEUE_EVENT_WITH_NOTIF, REQ_QUEUE_EVENT_NO_NOTIF, NOTIF_QUEUE_EVENT.
  destruct notify; do 3 (destruct e as [|e]; [done|]); by rewrite !decide_False by lia.
Qed.

(** C11: in every state a device gets into, from its construction on and whatever the front end,
    the guest and the daemon's threads do in whatever order, the notifier agrees with the
    device: it sends exactly if notifications are advertised, on the notification queue, into
    the guest memory that is configured now, and by the notification rule that is negotiated
    now.  The events of the advertised queues are those the device handles; any other is
    refused without effect. *)
Theorem device_coherent builder fs0 unshare create b0 (g0 : G) b g e :
  build builder fs0 unshare create = Ok b0 -> rtc backend_step (b0, g0) (b, g) ->
  let n := t_notifier (VhostUser.thread b) in
  (enabled n = notify_invalidate b /\ ns_event_idx n = event_idx (VhostUser.thread b) /\
   (forall q, vring n = Some q -> q = NOTIF_QUEUE_EVENT /\ notify_invalidate b = true) /\
   (forall m, ns_mem n = Some m -> t_mem (VhostUser.thread b) = Some m)) /\
  (num_queues b <= Z.of_nat e ->
   handle_event checks os page_size rounds e Readable b g =
     (b, g, Err (Failed HandleEventUnknownEvent))) /\
  (Z.of_nat e < num_queues b -> notify_invalidate b && bool_decide (e = NOTIF_QUEUE_EVENT) = false ->
   event_ring (notify_invalidate b) e = Some e).
Proof.
  intros Hb Hr n.
  assert (Hc : coherent b).
  { change b with (b, g).1. remember (b0, g0) as c0 eqn:He. remember (b, g) as c eqn:He2. clear He2.
    assert (coherent c0.1) as Hc0; [|clear He; induction Hr as [|??? Hs _ IH]; eauto using backend_step_coherent].
    subst c0. simpl. unfold build, thread_new in Hb. simpl in Hb.
    destruct (0 <? _); [destruct unshare; [destruct create|..]|]; simplify_eq/=; done. }
  destruct Hc as (He & Hi & Hv & Hm). split_and!; try done.
  - intros m Hn. by apply Hm.
  - intros Hq. unfold handle_event.
    assert (Hno : forall p, handle_event_with (G := G) rounds p e (VhostUser.thread b) g =
      (VhostUser.thread b, g, Err (Failed HandleEventUnknownEvent))).
    { intros p. unfold handle_event_with. unfold n in He. rewrite He, event_ring_layout.
      unfold num_queues, NUM_QUEUES_WITH_NOTIF, NUM_QUEUES_BASE, REQUEST_QUEUES in Hq.
      rewrite decide_False by (destruct (notify_invalidate b); lia).
      rewrite bool_decide_false, andb_false_r; [done|]. unfold NOTIF_QUEUE_EVENT.
      destruct (notify_invalidate b); lia. }
    unfold handle_event_pool, handle_event_serial. rewrite !Hno. by destruct b, (pool _).
  - intros Hq Hne. rewrite event_ring_layout, Hne, decide_True; [done|].
    unfold num_queues, NUM_QUEUES_WITH_NOTIF, NUM_QUEUES_BASE, REQUEST_QUEUES in Hq.
    destruct (notify_invalidate b); lia.
Qed.
End Coherence.

(** ** An example

    A guest with one region of memory, rings of eight entries and requests waiting. *)

Record demo_guest := {
  memory : bytes;
  waiting : list DescriptorChain;
  returned : list (Z * Z);
}.

Definition demo_slice (g : demo_guest) (addr len : Z) : res chain_error slice :=
  if (0 <=? addr) && (0 <=? len) && (addr + len <=? blen (memory g))
  then Ok (take (Z.to_nat len) (drop (Z.to_nat addr) (memory g)))
  else Err FindMemoryRegion.

(** The bytes of a reply, descriptor by descriptor. *)
Fixpoint demo_store (descs : list (Z * Z)) (out mem : bytes) : bytes :=
  match descs with
  | [] => mem
  | (addr, len) :: descs =>
      let here := take (Z.to_nat len) out in
      demo_store descs (drop (Z.to_nat len) out)
        (take (Z.to_nat addr) mem ++ fill (drop (Z.to_nat addr) mem) here)
  end.

(** Chains whose lengths make sense. *)
Definition demo_chain_ok (c : DescriptorChain) : bool :=
  (0 <=? head_index c) && (head_index c <? 2 ^ 16) && forallb (fun d => 0 <=? d.2) (writable c).

#[local] Instance demo_queues : VirtQueues demo_guest unit :=
  {| vq_collect _ _ g :=
       ({| memory := memory g; waiting := []; returned := returned g |},
        Some (filter (fun c => demo_chain_ok c = true) (waiting g)));
     vq_next _ _ g :=
       ({| memory := memory g; waiting := tail (waiting g); returned := returned g |},
        Some (match waiting g with c :: _ => if demo_chain_ok c then Some c else None | [] => None end));
     find_slice _ g := demo_slice g;
     store_bytes _ c out g :=
       {| memory := demo_store (writable c) out (memory g); waiting := waiting g; returned := returned g |};
     add_used _ h len g :=
       if h <? 8 then ({| memory := memory g; waiting := waiting g; returned := returned g ++ [(h, len)] |}, true)
       else (g, false);
     needs_notification _ g := (g, Some true);
     signal_used_queue _ g := (g, true);
     disable_notification _ g := (g, true);
     enable_notification _ g := (g, Some false) |}.

Lemma demo_chain_wf c : demo_chain_ok c = true -> chain_wf c.
Proof.
  unfold demo_chain_ok. intros Hc. apply andb_prop in Hc as [Hc Hw]. apply andb_prop in Hc as [Hl Hh].
  split; [lia|]. apply Forall_forall. intros d Hd. rewrite forallb_forall in Hw.
  apply list_elem_of_In, Hw in Hd. lia.
Qed.

#[local] Program Instance demo_ring : UsedRing demo_guest unit :=
  {| used _ g := returned g; ring_size _ := 8 |}.
Next Obligation. intros q h len g _. simpl. destruct (h <? 8); simpl; [done|by rewrite app_nil_r]. Qed.
Next Obligation. intros q h len g. simpl. by destruct (h <? 8). Qed.
Next Obligation. done. Qed.
Next Obligation. done. Qed.
Next Obligation. done. Qed.
Next Obligation. done. Qed.
Next Obligation. done. Qed.
Next Obligation.
  intros q mem g g' chains [= _ <-]. apply Forall_forall. intros c Hc.
  apply list_elem_of_filter in Hc as [Hc _]. by apply demo_chain_wf.
Qed.
Next Obligation.
  intros q mem g g' c [= _ Hc]. destruct (waiting g) as [|d l]; [done|].
  destruct (demo_chain_ok d) eqn:Hd; simplify_eq. by apply demo_chain_wf.
Qed.
Next Obligation.
  intros mem g addr len vs. simpl. unfold demo_slice. intros Hv.
  destruct ((0 <=? addr) && (0 <=? len) && (addr + len <=? blen (memory g))) eqn:Hc; simplify_eq.
  apply andb_prop in Hc as [Hc H3]. apply andb_prop in Hc as [H1 H2].
  unfold blen in *. rewrite length_take, length_drop. lia.
Qed.

(** Chains with one buffer, which is in the region of memory. *)
#[local] Program Instance demo_buffers : GuestBuffers demo_guest unit :=
  {| laid_out _ c g :=
       exists addr len, writable c = [(addr, len)] /\ 0 <= addr /\ 0 <= len /\ addr + len <= blen (memory g);
     buffer _ c g :=
       concat ((fun d => take (Z.to_nat d.2) (drop (Z.to_nat d.1) (memory g))) <$> writable c) |}.
Next Obligation.
  intros mem c g w (addr & len & Hw & Ha & Hl & Hb). unfold Writer_new. rewrite Hw. simpl.
  unfold consumer_new. cbn [collect_buffers]. unfold demo_slice.
  rewrite !(proj2 (Z.leb_le _ _)) by done. cbn [andb].
  intros Hn. destruct (checked_add usize_max 0 len); by simplify_eq/=.
Qed.
Next Obligation.
  intros mem c out g (addr & len & Hw & Ha & Hl & Hb). simpl. rewrite Hw. simpl. rewrite !app_nil_r.
  rewrite length_take, length_drop. unfold blen in *. intros Ho.
  rewrite (take_ge out) by lia. unfold fill. split.
  - exists addr, len. split_and!; [done..|]. unfold blen.
    rewrite !length_app, length_take, !length_drop. lia.
  - rewrite drop_app_ge by (rewrite length_take; lia). rewrite length_take.
    replace (Z.to_nat addr - Z.to_nat addr `min` length (memory g))%nat with 0%nat by lia.
    rewrite drop_0, take_app, take_ge by lia. f_equal. rewrite take_drop_commute.
    do 2 f_equal. lia.
Qed.
Next Obligation. intros q h len mem c g Hl. simpl. by destruct (h <? 8). Qed.
Next Obligation. done. Qed.
Next Obligation. done. Qed.

(** Two lookups of the same name. *)
Definition demo_message : bytes := as_slice (header_of OpLookup 42) ++ text "a" ++ [0].

Definition demo_request (head : Z) (out : Z) : DescriptorChain :=
  {| head_index := head; readable := [(0, blen demo_message)]; writable := [(out, 100); (out + 100, 200)] |}.

Definition two_requests : demo_guest :=
  {| memory := demo_message ++ replicate 700 0; waiting := [demo_request 3 50; demo_request 5 350];
     returned := [] |}.

Definition demo_thread (pool : option (list (PoolTask unit)))
  : VhostUserFsThread (PassthroughFs demo_world) unit :=
  {| t_mem := Some tt; t_server := demo_daemon; vu_req := None; event_idx := true; pool := pool;
     t_notifier := notifier_state_new false |}.

#[local] Existing Instances list_range_map demo_pread.
#[local] Instance demo_share : FileSystem (PassthroughFs demo_world) ReadDir :=
  share true demo_os demo_setup 4 false.

Lemma serial_returns_requests_witness :
  let o := process_queue_serial true demo_os 4096 1 (demo_thread None) two_requests in
  o.2 = Ok true /\ returned o.1.2 = [(3, 144); (5, 144)] /\
  exists lens, Forall2 (answered (F := PassthroughFs demo_world) (G := demo_guest) (Mem := unit)
    true demo_os 4096) (waiting two_requests) lens /\
    returned o.1.2 = used_entries 1 (waiting two_requests) lens.
Proof.
  cbv zeta.
  assert (Hr : (process_queue_serial true demo_os 4096 1 (demo_thread None) two_requests).2 = Ok true)
    by (vm_compute; reflexivity).
  assert (Hc : vq_collect 1 tt two_requests =
    ({| memory := memory two_requests; waiting := []; returned := [] |}, Some (waiting two_requests)))
    by (vm_compute; reflexivity).
  destruct (process_queue_serial true demo_os 4096 1 (demo_thread None) two_requests) as [[t' g'] r] eqn:Hp.
  simpl in Hr. subst r. split; [done|]. split; [|simpl].
  - change g' with (t', g', @Ok stop _ true).1.2. rewrite <- Hp. vm_compute. reflexivity.
  - pose proof (serial_returns_requests true demo_os 4096 (LC := share_counts true demo_os demo_setup 4 false)
      (RC := share_reads true demo_os demo_setup 4 false) 1 (demo_thread None) _ two_requests _ _ tt _ _ eq_refl Hc Hp) as [_ Hs].
    exact Hs.
Defined.

Lemma pool_returns_requests_witness :
  let o := process_queue_pool 5 1 (demo_thread (Some [])) two_requests in
  let o2 := run_tasks true demo_os 4096 [1; 0]%nat o.1.1 o.1.2 in
  o.2 = Ok true /\ o2.2 = Ok tt /\ returned o2.1.2 = [(5, 144); (3, 144)] /\
  exists chains l, taken 1 tt two_requests chains o.1.2 /\ l.*1 ≡ₚ chains /\
    returned o2.1.2 ≡ₚ entries_of 1 l.
Proof.
  cbv zeta.
  destruct (process_queue_pool 5 1 (demo_thread (Some [])) two_requests) as [[t1 g1] r] eqn:Hp.
  assert (Hr : r = Ok true) by (change r with (t1, g1, r).2; rewrite <- Hp; vm_compute; reflexivity).
  subst r. change (t1, g1, @Ok stop bool true).1.1 with t1. change (t1, g1, @Ok stop bool true).1.2 with g1.
  assert (Ht : t1 = (process_queue_pool 5 1 (demo_thread (Some [])) two_requests).1.1) by (by rewrite Hp).
  assert (Hg : g1 = (process_queue_pool 5 1 (demo_thread (Some [])) two_requests).1.2) by (by rewrite Hp).
  destruct (run_tasks true demo_os 4096 [1; 0]%nat t1 g1) as [[t2 g2] r2] eqn:Hr2.
  assert (H2 : r2 = Ok tt /\ returned g2 = [(5, 144); (3, 144)] /\ pool t2 = Some []).
  { change r2 with (t2, g2, r2).2. change (returned g2) with (returned (t2, g2, r2).1.2).
    change (pool t2) with (pool (t2, g2, r2).1.1). rewrite <- Hr2, Ht, Hg. vm_compute. done. }
  destruct H2 as (-> & Hret & Hpool). split_and!; [done..|].
  destruct (pool_returns_requests true demo_os 4096 (LC := share_counts true demo_os demo_setup 4 false)
    (RC := share_reads true demo_os demo_setup 4 false) 5 1 [1; 0]%nat (demo_thread (Some [])) _ _ two_requests _ _ tt _ eq_refl eq_refl Hp Hr2 Hpool)
    as (chains & l & Htaken & _ & Hl & _ & Hu).
  exists chains, l. done.
Defined.

(** A device with a tag. *)
Definition demo_backend (f : PassthroughFs demo_world) (pre : option PremigrationThread)
  : VhostUserFsBackend (PassthroughFs demo_world) unit :=
  {| thread := {| t_mem := None; t_server := server_new f; vu_req := None; event_idx := false;
       pool := None; t_notifier := notifier_state_new false |};
     premigration_thread := pre; migration_thread := None; detached := []; tag := Some (text "myfs");
     notify_invalidate := false; written_state := [] |}.

Lemma config_space_witness :
  let b := demo_backend demo_fresh None in
  get_config b 0 40 = Ok (text "myfs" ++ replicate 32 0 ++ [1; 0; 0; 0]) /\
  exists r1 r2, get_config b 2 37 = Ok r1 /\ get_config b 39 6 = Ok r2 /\
    blen r1 = 37 /\ get_config b 2 43 = Ok (r1 ++ r2).
Proof.
  cbv zeta. apply (config_space (demo_backend demo_fresh None) (text "myfs") 2 37 6); try done.
  vm_compute. lia.
Defined.

(** The front end has announced the migration, and the preparation has come to its end. *)
#[local] Existing Instances bit_encoding sorted_table.
#[local] Instance demo_serializable : SerializableFileSystem (PassthroughFs demo_world) :=
  passthrough_serializable demo_os demo_setup 30.

Definition demo_saving :=
  (do_set_device_state_fd (fun _ => false) SAVE (Some STOPPED) []
     (demo_backend demo_source (Some {| handle := Some (Ok tt); cancel := false |}))).1.
Definition demo_saved := (check_device_state (fun _ => false) demo_saving).1.
Definition demo_loading :=
  (do_set_device_state_fd (fun _ => false) LOAD (Some STOPPED) (written_state demo_saved)
     (demo_backend demo_fresh None)).1.
Definition demo_loaded := (check_device_state (fun _ => false) demo_loading).1.

Lemma device_state_handover_witness :
  (0 < length (written_state demo_saved))%nat /\
  books true demo_setup 0 (shared_fs demo_loaded) {| held := demo_holds; loose := 0 |} /\
  (check_device_state (fun _ => false) demo_loaded).2 = Err (Custom InvalidInput).
Proof.
  assert (Hs : (check_device_state (fun _ => false) demo_saving).2 = Ok tt) by (vm_compute; reflexivity).
  assert (Hl : (check_device_state (fun _ => false) demo_loading).2 = Ok tt) by (vm_compute; reflexivity).
  assert (Hb : books true demo_setup 0 demo_fresh {| held := fun _ => 0; loose := 0 |})
    by (split_and!; [apply store_wf_empty|apply rc_inv_empty|by left|apply fresh_slots]).
  split; [apply Nat.ltb_lt; vm_compute; reflexivity|].
  pose proof (device_state_handover demo_os demo_os demo_setup demo_setup 30 30 (fun _ => false) (fun _ => false)
    (demo_backend demo_source (Some {| handle := Some (Ok tt); cancel := false |})) demo_saving demo_saved
    (demo_backend demo_fresh None) demo_loading demo_loaded demo_holds (fun _ => 0) [] false false
    (conj demo_source_books demo_source_migratable) (surjective_pairing _)
    (eq_trans (surjective_pairing _) (f_equal (pair _) Hs)) Hb eq_refl (surjective_pairing _)
    (eq_trans (surjective_pairing _) (f_equal (pair _) Hl))) as (Ht & _ & _ & _ & _ & Hc).
  split; [exact Ht|exact Hc].
Defined.

(** Memory is configured, and the guest kicks the notification queue. *)
Definition demo_builder : VhostUserFsBackendBuilder :=
  set_notify_invalidate true {| thread_pool_size := 0; b_tag := None; b_notify_invalidate := false |}.

Definition demo_device : VhostUserFsBackend (PassthroughFs demo_world) unit :=
  {| thread := {| t_mem := None; t_server := server_new demo_fresh; vu_req := None; event_idx := false;
       pool := None; t_notifier := notifier_state_new true |};
     premigration_thread := None; migration_thread := None; detached := []; tag := None; notify_invalidate := true;
     written_state := [] |}.

Definition demo_kicked :=
  handle_event true demo_os 4096 5 1 Readable (update_memory tt demo_device) two_requests.

Lemma device_coherent_witness :
  let b := demo_kicked.1.1 in let n := t_notifier (VhostUser.thread b) in
  vring n = Some 1%nat /\ ns_mem n = Some tt /\ t_mem (VhostUser.thread b) = Some tt /\
  (handle_event true demo_os 4096 5 3 Readable b two_requests).2 = Err (Failed HandleEventUnknownEvent) /\
  event_ring true 2 = Some 2%nat.
Proof.
  cbv zeta.
  assert (Hb : build demo_builder demo_fresh (Ok tt) (Ok tt) = Ok demo_device) by (vm_compute; reflexivity).
  assert (Hr : rtc (backend_step true demo_os 4096 5 (fun _ => false))
    (demo_device, two_requests) (demo_kicked.1.1, demo_kicked.1.2)).
  { apply (rtc_l _ _ (update_memory tt demo_device, two_requests)); [apply step_memory|].
    apply rtc_once. rewrite <- surjective_pairing. apply step_event. }
  pose proof (device_coherent true demo_os 4096 5 (fun _ => false) demo_builder demo_fresh (Ok tt) (Ok tt)
    demo_device two_requests demo_kicked.1.1 demo_kicked.1.2 3 Hb Hr) as ((_ & _ & _ & Hm) & He & _).
  pose proof (device_coherent true demo_os 4096 5 (fun _ => false) demo_builder demo_fresh (Ok tt) (Ok tt)
    demo_device two_requests demo_kicked.1.1 demo_kicked.1.2 2 Hb Hr) as (_ & _ & He2).
  assert (Hn : ns_mem (t_notifier (VhostUser.thread demo_kicked.1.1)) = Some tt) by (vm_compute; reflexivity).
  split_and!; [vm_compute; reflexivity|exact Hn|exact (Hm tt Hn)| |].
  - change two_requests with demo_kicked.1.2. rewrite He; [done|vm_compute; done].
  - apply He2; vm_compute; done.
Defined.

(** A notification on its way to a guest with a buffer of 64 bytes. *)
Definition demo_notifier : NotifierState unit := t_notifier (VhostUser.thread demo_kicked.1.1).

Definition one_buffer_guest : demo_guest :=
  {| memory := replicate 100 7;
     waiting := [{| head_index := 3; readable := []; writable := [(20, 64)] |}]; returned := [] |}.

Lemma notifier_send_outcome_witness :
  let o := notifier_send demo_notifier one_buffer_guest (InvalInode 2) in
  o.2 = Ok tt /\ returned o.1 = [(3, 40)] /\ waiting o.1 = [] /\
  buffer tt {| head_index := 3; readable := []; writable := [(20, 64)] |} o.1 =
    encode (InvalInode 2) ++ replicate 24 7.
Proof.
  cbv zeta. pose proof (notifier_send_outcome demo_notifier one_buffer_guest (InvalInode 2)) as Ho.
  destruct (notifier_send demo_notifier one_buffer_guest (InvalInode 2)) as [g' r] eqn:Hs.
  assert (Hr : r = Ok tt) by (change r with (g', r).2; rewrite <- Hs; vm_compute; reflexivity).
  assert (Hg : returned g' = [(3, 40)] /\ waiting g' = [])
    by (change g' with (g', r).1; rewrite <- Hs; vm_compute; done).
  subst r. destruct Hg as [Hg Hw]. split_and!; [done..|]. destruct Ho as (_ & Hh & _).
  refine (eq_trans (Hh _) _); [|vm_compute; reflexivity].
  exists 20, 64. vm_compute. done.
Defined.
