(* ===== verification/Defaults.v ===== *)
(** * What a file system gets without implementing it

    The default methods of the [FileSystem] and [SerializableFileSystem] traits
    (src/filesystem.rs): [init], [open], [opendir], [statfs] and the forgets have
    answers of their own, every other method fails with ENOSYS.  The passthrough file
    system takes locks, ioctls, polling, notify replies and O_TMPFILE from here, so the
    daemon answers these requests, the mapping requests and unknown opcodes with ENOSYS
    and nothing else happens. *)

From S2P Require Import Prelude OpenFlags Libc FileHandle InodeStore DentryIndex FuseTypes.
From S2P Require Import FuseWire Descriptor SoftIdMap XattrMap FileSystem Host Credentials ReadDir.
From S2P Require Import Paths MountFds Passthrough Ownership PassthroughOps PassthroughSpec Session.
From S2P Require Import Contract ReadOnly Requests Replies Server ServerSpec Daemon VhostUser.

#[local] Arguments as_slice : simpl never.

(** ** The default methods *)

Section Defaults.
Context {F D : Type} (os : HostOs).

(** [Err(io::Error::from_raw_os_error(libc::ENOSYS))] *)
Definition enosys {A} (f : F) : F * io A := (f, Err (Os (host_ENOSYS os))).

(** [FsOptions::empty()] *)
Definition default_init (f : F) (capable : Z) : F * io Z := (f, Ok 0).

Definition default_forget (f : F) (ctx : Context) (i count : Z) : F * res Empty_set unit :=
  (f, Ok tt).

(** [batch_forget] calls the implementation's [forget]. *)
Fixpoint default_batch_forget (forget : F -> Context -> Z -> Z -> F * res Empty_set unit)
  (f : F) (ctx : Context) (requests : list (Z * Z)) : F * res Empty_set unit :=
  match requests with
  | [] => (f, Ok tt)
  | (i, count) :: rest =>
      match forget f ctx i count with
      | (f, Ok _) => default_batch_forget forget f ctx rest
      | (f, Err e) => (f, Err e)
      | (f, Panic) => (f, Panic)
      end
  end.

(** [(None, OpenOptions::empty())] *)
Definition default_open (f : F) : F * io (option Z * Z) := (f, Ok (None, 0)).

Definition default_statvfs : Statvfs :=
  {| f_blocks := 0; f_bfree := 0; f_bavail := 0; f_files := 0; f_ffree := 0;
     f_bsize := 512; f_namemax := 255; f_frsize := 0 |}.

Definition default_fs (next : D -> D * res Empty_set (option DirEntry)) : FileSystem F D := {|
  dir_next := next;
  fs_init := default_init;
  fs_destroy f := (f, Ok tt);
  fs_lookup f _ _ _ := enosys f;
  fs_forget := default_forget;
  fs_batch_forget := default_batch_forget default_forget;
  fs_getattr f _ _ _ := enosys f;
  fs_setattr f _ _ _ _ _ := enosys f;
  fs_readlink f _ _ := enosys f;
  fs_symlink f _ _ _ _ _ := enosys f;
  fs_mknod f _ _ _ _ _ _ _ := enosys f;
  fs_mkdir f _ _ _ _ _ _ := enosys f;
  fs_unlink f _ _ _ := enosys f;
  fs_rmdir f _ _ _ := enosys f;
  fs_rename f _ _ _ _ _ _ := enosys f;
  fs_link f _ _ _ _ := enosys f;
  fs_open f _ _ _ _ := default_open f;
  fs_create f _ _ _ _ _ _ _ _ := enosys f;
  fs_read f _ _ _ w _ _ _ _ := (f, w, Err (Os (host_ENOSYS os)));
  fs_write f _ _ _ _ _ _ _ _ _ _ := enosys f;
  fs_flush f _ _ _ _ := enosys f;
  fs_fsync f _ _ _ _ := enosys f;
  fs_fallocate f _ _ _ _ _ _ := enosys f;
  fs_release f _ _ _ _ _ _ _ := enosys f;
  fs_statfs f _ _ := (f, Ok default_statvfs);
  fs_setxattr f _ _ _ _ _ _ := enosys f;
  fs_getxattr f _ _ _ _ := enosys f;
  fs_listxattr f _ _ _ := enosys f;
  fs_removexattr f _ _ _ := enosys f;
  fs_opendir f _ _ _ := default_open f;
  fs_readdir f _ _ _ _ _ := enosys f;
  fs_fsyncdir f _ _ _ _ := enosys f;
  fs_releasedir f _ _ _ _ := enosys f;
  fs_access f _ _ _ := enosys f;
  fs_lseek f _ _ _ _ _ := enosys f;
  fs_copyfilerange f _ _ _ _ _ _ _ _ _ := enosys f;
  fs_syncfs f _ _ := enosys f;
  fs_getlk := enosys;
  fs_setlk := enosys;
  fs_setlkw := enosys;
  fs_ioctl := enosys;
  fs_bmap := enosys;
  fs_poll := enosys;
  fs_notify_reply := enosys;
  fs_tmpfile := enosys;
|}.
End Defaults.

(** ** Error replies *)

Definition error_header (errno unique : Z) : OutHeader :=
  {| out_header_len := 16; out_header_error := - errno; out_header_unique := unique |}.

(** Linux's ENOSYS, whatever the host calls it. *)
Lemma enosys_to_linux os : errno_to_linux os (host_ENOSYS os) = 38.
Proof. by destruct os. Qed.

Lemma enomem_to_linux os : errno_to_linux os ENOMEM = ENOMEM.
Proof. by destruct os. Qed.

Lemma reply_error_exact checks os errno unique w :
  tracked w -> w_out w = [] -> (16 <= room w)%nat ->
  exists w', reply_error checks os (Os errno) unique w = (w', Ok 16) /\
    w_out w' = as_slice (error_header (errno_to_linux os errno) unique).
Proof.
  intros Hw Ho Hr. unfold reply_error. cbn zeta.
  change (default EIO (raw_os_error (Os errno))) with errno.
  change (Z.of_nat (size_of OutHeader)) with 16. fold (error_header (errno_to_linux os errno) unique).
  set (hd := error_header _ _).
  assert (Hl : length (as_slice hd) = 16%nat) by (rewrite as_slice_length; done).
  pose proof (write_all_tracked w (as_slice hd) Hw) as Ht.
  pose proof (write_all_spec w (as_slice hd) (tracked_ok w Hw)) as Hs.
  unfold write_then. destruct (write_all w (as_slice hd)) as [w1 q].
  destruct Hs as (Hout & _ & _ & _ & ->), Ht as ([_ Hb] & _).
  rewrite Ho, take_ge in Hout by lia. cbn [app] in Hout.
  rewrite decide_True by lia. rewrite Hout, blen_header in Hb. exists w1.
  unfold debug_assert_eq. rewrite Hb. change (out_header_len hd) with 16.
  by rewrite Z.eqb_refl, andb_false_r.
Qed.

(** ** A request that is refused

    The server is as it was, and the guest gets an error reply with Linux's ENOSYS or, for
    a request that is too large, ENOMEM; a request that cannot be decoded gets none. *)
Definition refused {F} (h : InHeader) (s : Server F) (o : Server F * bytes * res Error Z) : Prop :=
  o.1.1 = s /\
  (o.1.2 = [] /\ is_ok o.2 = false \/
   o.2 = Ok 16 /\ (o.1.2 = as_slice (error_header 38 (in_header_unique h)) \/
                   o.1.2 = as_slice (error_header ENOMEM (in_header_unique h)))).

Section Refused.
Context {F D : Type} (checks : bool) (os : HostOs).
Implicit Types (s : Server F) (h : InHeader) (w : writer).

(** Reply buffers with room for a header. *)
Record roomy (w : writer) : Prop := {
  roomy_tracked : tracked w;
  roomy_out : w_out w = [];
  roomy_room : (16 <= room w)%nat;
}.

Lemma fail_exact s errno h w :
  roomy w ->
  fail checks os s (Os errno) h w =
    (s, as_slice (error_header (errno_to_linux os errno) (in_header_unique h)), Ok 16).
Proof.
  intros [Hw Ho Hr]. unfold fail, finish.
  destruct (reply_error_exact checks os errno (in_header_unique h) w Hw Ho Hr) as (w' & -> & <-).
  done.
Qed.

Lemma refused_fail s h w : roomy w -> refused h s (fail checks os s (Os (host_ENOSYS os)) h w).
Proof. intros Hw. rewrite fail_exact, enosys_to_linux by done. split; eauto. Qed.

Lemma refused_fail_size s h w : roomy w -> refused h s (fail checks os s (Os ENOMEM) h w).
Proof. intros Hw. rewrite fail_exact, enomem_to_linux by done. split; eauto. Qed.

Lemma refused_try {A} s h w (q : res Error A) k :
  roomy w -> (forall a, refused h s (k a)) -> refused h s (try_ s w q k).
Proof.
  intros [_ Ho _] Hk. unfold try_. destruct q; [apply Hk|..]; rewrite Ho; split; eauto.
Qed.

Lemma with_same_fs s : with_fs s (Server.fs s) = s.
Proof. by destruct s. Qed.

Lemma refused_answer {A} s h w (ok : Server F -> A -> _) :
  roomy w -> refused h s (answer checks os s h w (enosys os (Server.fs s)) ok).
Proof. intros Hw. unfold answer, enosys. cbn. rewrite with_same_fs. by apply refused_fail. Qed.

Lemma refused_split_fail s h w b :
  roomy w -> w_out b = [] ->
  refused h s (finish_split b (fail checks os s (Os (host_ENOSYS os)) h w)).
Proof.
  intros Hw Hb. pose proof (refused_fail s h w Hw) as Hf. unfold finish_split.
  destruct (fail _ _ _ _ _ _) as [[s' out] r]. by rewrite Hb, app_nil_r.
Qed.

Lemma refused_split s h w k panic :
  roomy w -> (forall a b, roomy a -> w_out b = [] -> refused h s (k a b)) ->
  refused h s (split_header w k panic).
Proof.
  intros [[Hok Hb] Ho Hr] Hk. unfold split_header. change (Z.of_nat (size_of OutHeader)) with 16.
  pose proof (split_at_spec (w_chain w) 16 ltac:(lia)) as Hs. unfold room in Hr.
  destruct (split_at (w_chain w) 16) as [[a b]|e|]; [|unfold blen in Hs; lia|done].
  destruct Hs as (Hva & Hvb & Hca & Hcb & Hle).
  apply Hk; [|done]. rewrite Ho. destruct Hok as [Hok1 Hok2].
  unfold bytes_written in Hb. rewrite Ho in Hb.
  split; [apply tracked_empty|done|].
  - split; [lia|]. unfold blen in *. rewrite Hva, length_take. lia.
  - by rewrite Hca.
  - unfold room. cbn [w_chain]. rewrite Hva, length_take. lia.
Qed.
End Refused.

(** ** The server on a file system that implements nothing *)

(** The requests the defaults of the trait answer, and those the server answers alone. *)
Definition default_answers (o : Opcode) : bool :=
  match o with
  | OpInit | OpDestroy | OpForget | OpBatchForget | OpInterrupt => true
  | OpOpen | OpOpendir | OpStatfs => true
  | _ => false
  end.

Create HintDb handlers.
#[local] Hint Unfold lookup getattr setattr readlink symlink mknod mkdir unlink rmdir rename rename2
  link read write release fsync setxattr getxattr listxattr removexattr flush readdir readdirplus
  releasedir fsyncdir getlk setlk setlkw access create bmap ioctl poll notify_reply fallocate lseek
  copyfilerange setupmapping removemapping syncfs tmpfile : handlers.

Ltac refuse :=
  repeat match goal with
  | |- refused _ _ (try_ _ _ _ _) => apply refused_try; [done|intros ?]
  | |- refused _ _ (answer _ _ _ _ _ _ _) => by apply refused_answer
  | |- refused _ _ (error_only _ _ _ _ _ _) => by apply refused_answer
  | |- refused _ _ (fail _ _ _ (Os ENOMEM) _ _) => by apply refused_fail_size
  | |- refused _ _ (fail _ _ _ _ _ _) => by apply refused_fail
  | |- refused _ _ (do_rename _ _ _ _ _ _ _ _ _) => unfold do_rename
  | |- refused _ _ (split_header _ _ _) => apply refused_split; [done|intros ? ? ? ?];
      cbn [fs_read fs_readdir default_fs enosys answer reply_listing fst snd];
      rewrite with_same_fs; by apply refused_split_fail
  | |- refused _ _ (if ?b then _ else _) => destruct b
  | |- refused _ _ (let '(_, _) := ?p in _) => destruct p
  | |- refused _ _ (match ?p with pair _ _ => _ end) => destruct p
  | |- refused _ _ (_, w_out _, Err _) => split; [done|left; split; [by apply roomy_out|done]]
  end.

Section Nothing.
Context {F D : Type} (checks : bool) (os : HostOs).
Context (next : D -> D * res Empty_set (option DirEntry)).

(** On a file system that implements nothing, every request except those the trait's
    defaults answer leaves the server as it was and is refused: the reply is an error header
    with the request's id and Linux's ENOSYS (ENOMEM for an oversized buffer), on either
    host, and a request that cannot be decoded gets no reply. *)
Theorem defaults_refuse page_size o (s : Server F) h r w :
  default_answers o = false -> roomy w ->
  refused h s (dispatch (H := default_fs os next) checks os page_size o s h r w).
Proof.
  intros Ho Hw. destruct o; try discriminate Ho; cbn [dispatch].
  all: autounfold with handlers; refuse.
Qed.
End Nothing.

(** ** The daemon *)

(** The requests neither the server nor the passthrough file system implements. *)
Definition unserved (o : option Opcode) : bool :=
  match o with
  | None => true
  | Some (OpGetlk | OpSetlk | OpSetlkw | OpBmap | OpIoctl | OpPoll | OpNotifyReply | OpTmpFile) => true
  | Some (OpSetupMapping | OpRemoveMapping) => true
  | _ => false
  end.

Section Unserved.
Context {W M : Type} `{PreadHost W} `{RangeMap M MapEntry}.
Context (checks : bool) (os : HostOs) (setup : Setup M) (rounds : nat) (readonly : bool).
Context (page_size : Z).

(** C35: A lock, an ioctl, a poll, a block map, a notify reply, an O_TMPFILE creation, a DAX
    mapping or a request with an unknown opcode changes nothing in the daemon, on a read-only
    share or not: the guest gets exactly an error header with the request's id and Linux's
    ENOSYS, on macOS too, where the host's own number differs. *)
Theorem daemon_refuses (s : daemon W) r w h body :
  obj InHeader r = Ok (h, body) ->
  in_header_len h <= MAX_BUFFER_SIZE + FUSE_BUFFER_HEADER_SIZE ->
  unserved (opcode_try_from (in_header_opcode h)) = true -> roomy w ->
  daemon_message checks os setup rounds readonly page_size s r w =
    (s, as_slice (error_header 38 (in_header_unique h)), Ok 16).
Proof.
  intros Hh Hlen Ho Hw. rewrite <- (enosys_to_linux os), <- (fail_exact checks os s _ h w Hw).
  unfold daemon_message, handle_message. rewrite Hh. cbn [try_].
  rewrite (proj2 (Z.ltb_ge _ _)) by done.
  destruct (opcode_try_from _) as [[]|]; try discriminate Ho; cbn [dispatch]; try reflexivity.
  all: unfold share; destruct readonly; apply (f_equal (fun s => fail checks os s _ h w));
    apply with_same_fs.
Qed.
End Unserved.

(** ** Examples *)

#[local] Existing Instances list_range_map demo_pread.

Definition nothing_next (d : unit) : unit * res Empty_set (option DirEntry) := (d, Ok None).

Lemma room_for_roomy n : (16 <= n)%nat -> Z.of_nat n < 2 ^ 32 -> roomy (room_for n).
Proof.
  intros Hl Hn. destruct (room_for_fresh n Hn) as [Ht Ho Hc]. split; [done..|].
  unfold room. change (view (w_chain (room_for n))) with (replicate n 0 ++ []).
  rewrite app_nil_r, length_replicate. done.
Qed.

(** A [READ] from a file system that implements nothing. *)
Lemma defaults_refuse_witness :
  let o := dispatch (H := default_fs HostMacos nothing_next) true HostMacos 4096 OpRead (server_new tt)
             (header_of OpRead 80) (one_buffer (as_slice read_request)) (room_for 300) in
  o.2 = Ok 16 /\ refused (header_of OpRead 80) (server_new tt) o.
Proof.
  split; [vm_compute; reflexivity|].
  apply (defaults_refuse true HostMacos nothing_next 4096 OpRead); [reflexivity|].
  apply room_for_roomy; lia.
Defined.

Definition demo_ioctl : consumer := one_buffer (as_slice (header_of OpIoctl 40)).

(** An ioctl on the daemon of [Daemon]. *)
Lemma daemon_refuses_witness :
  daemon_message true demo_os demo_setup 4 false 4096 demo_daemon demo_ioctl (room_for 300) =
    (demo_daemon, as_slice (error_header 38 77), Ok 16).
Proof.
  assert (Ho : exists r, obj InHeader demo_ioctl = Ok (header_of OpIoctl 40, r))
    by (eexists; vm_compute; reflexivity).
  destruct Ho as [r Ho].
  apply (daemon_refuses true demo_os demo_setup 4 false 4096 demo_daemon demo_ioctl (room_for 300)
    (header_of OpIoctl 40) r Ho); [vm_compute; discriminate|reflexivity|].
  apply room_for_roomy; lia.
Defined.
