(* ===== verification/Process.v ===== *)
(** * The process

    What the daemon does to its own process while it starts: mounts, namespaces, forks,
    resource limits, capabilities, files outside the share.  As with the calls of
    requests (Host), what a call does is the business of a class.  A computation ends
    with a value, an error, a panic, or with the end of the process.

    Modelled here: the process parts of src/util.rs and src/oslib.rs. *)

From S2P Require Import Prelude OpenFlags Libc FileHandle FuseTypes FuseWire Descriptor FileSystem.
From S2P Require Import Host XattrMap.

(** ** Calls *)

Inductive PCall : Type -> Type :=
(** Mounts and directories. *)
| PMount (source target fstype : bytes) (flags : Z) : PCall unit
| PUmount2 (target : bytes) (flags : Z) : PCall unit
| POpenTree (dirfd : Z) (path : bytes) (flags : Z) : PCall Z
| PMoveMount (from_fd : Z) (from_path : bytes) (to_fd : Z) (to_path : bytes) (flags : Z) : PCall unit
| PPivotRoot (new_root put_old : bytes) : PCall unit
| PChroot (path : bytes) : PCall unit
| PChdir (path : bytes) : PCall unit
(** Processes. *)
| PUnshare (flags : Z) : PCall unit
| PFork : PCall Z
| PGetpid : PCall Z
| PGetppid : PCall Z
| PPidfdOpen (pid flags : Z) : PCall Z
| PPrctlPdeathsig (signal : Z) : PCall unit
| PPollIn (fd : Z) : PCall Z
| PWaitpid (pid : Z) : PCall (Z * Z)
| PSetresuid (uid : Z) : PCall unit
| PSetresgid (gid : Z) : PCall unit
| PGetgroups : PCall Z
(** Pipes, one byte at a time: the end of the pipe is an error. *)
| PPipe : PCall (Z * Z)
| PReadByte (fd : Z) : PCall Z
| PWriteByte (fd b : Z) : PCall unit
(** Files and programs of the host. *)
| PExists (path : bytes) : PCall bool
| PIsDir (path : bytes) : PCall bool
| PIsFile (path : bytes) : PCall bool
| PReadToString (path : bytes) : PCall (list Z)
(** The entries that can be read: each one's path, and whether it is known to be a
    directory. *)
| PReadDir (path : bytes) : PCall (list (bytes * bool))
| PWriteFile (path contents : bytes) : PCall unit
| PCanonicalize (path : bytes) : PCall bytes
| PCreate (path : bytes) (mode flags : Z) : PCall Z
| PFlockExclusive (fd : Z) : PCall unit
| PStatIno (path : bytes) : PCall Z
| PWriteAll (fd : Z) (contents : bytes) : PCall unit
| PCommand (program : bytes) (args : list bytes) : PCall bool
| PGetgrnam (name : bytes) : PCall (option Z)
| PChown (path : bytes) (uid gid : Z) : PCall unit
| PListen (path : bytes) : PCall Z
| PRegisterSignal (signal : Z) : PCall unit
(** Limits. *)
| PGetrlimitNofile : PCall (Z * Z)
| PSetrlimitNofile (cur max : Z) : PCall unit
| PSysctlMaxfilesperproc : PCall Z
(** libcap-ng and libseccomp. *)
| PCapClear : PCall unit
| PCapUpdatev (caps : list (list Z)) : PCall unit
| PCapApply : PCall unit
| PCapName (name : list Z) : PCall unit
| PSeccompInit (action : Z) : PCall unit
| PSeccompAllow (syscall : string) : PCall unit
| PSeccompLoad : PCall unit
| PSeccompRelease : PCall unit.

Class Process (W : Type) := { proc_run : forall A, PCall A -> W -> W * outcome_of A }.
Arguments proc_run {W Process A} c w.

(** ** Computations *)

(** [process::exit] ends a computation like an error does, but nothing catches it and no
    destructor runs. *)
Inductive leave (E : Type) := Fails (e : E) | Exits (code : Z).
Arguments Fails {E} e.
Arguments Exits {E} code.

Definition proc (W E A : Type) : Type := world W -> world W * res (leave E) A.

#[export] Instance proc_ret W E : MRet (proc W E) := fun A a w => (w, Ok a).
#[export] Instance proc_bind W E : MBind (proc W E) := fun A B f m w =>
  match m w with
  | (w, Ok a) => f a w
  | (w, Err e) => (w, Err e)
  | (w, Panic) => (w, Panic)
  end.

Section Proc.
Context {W : Type} `{Host W} `{Process W}.

Definition call {A} (c : PCall A) : eff (world W) A := fun w =>
  let '(h, r) := proc_run c (host w) in
  ({| host := h; history := history w |},
   match r with inl errno => Err (Os errno) | inr a => Ok a end).

Context {E : Type}.

Definition fail {A} (e : E) : proc W E A := fun w => (w, Err (Fails e)).
Definition exit_ {A} (code : Z) : proc W E A := fun w => (w, Err (Exits code)).
Definition panic {A} : proc W E A := fun w => (w, Panic).

(** [m.map_err(f)?] *)
Definition or_fail {A} (f : io_error -> E) (m : eff (world W) A) : proc W E A := fun w =>
  let '(w, r) := m w in (w, map_err (fun e => Fails (f e)) r).

(** [m.unwrap()] *)
Definition or_panic {A} (m : eff (world W) A) : proc W E A := fun w =>
  match m w with (w, Ok a) => (w, Ok a) | (w, _) => (w, Panic) end.

(** [m.unwrap_or_else(|_| process::exit(code))] *)
Definition or_exit {A} (code : Z) (m : eff (world W) A) : proc W E A := fun w =>
  match m w with (w, Ok a) => (w, Ok a) | (w, Err _) => (w, Err (Exits code)) | (w, Panic) => (w, Panic) end.

(** The result as a value. *)
Definition outcome {A} (m : eff (world W) A) : proc W E (io A) := fun w =>
  match m w with (w, Panic) => (w, Panic) | (w, r) => (w, Ok r) end.

(** [m] and the destructor of a file that goes out of scope with it. *)
Definition closing {A} (fd : Z) (m : proc W E A) : proc W E A := fun w =>
  match m w with
  | (w, Err (Exits code)) => (w, Err (Exits code))
  | (w, r) => ((close fd w).1, r)
  end.

(** [CString::new(s).unwrap()] *)
Definition c_string (s : bytes) : proc W E bytes :=
  if decide (0 ∈ s) then panic else mret s.

Definition assert_ (b : bool) : proc W E unit := if b then mret tt else panic.

Lemma proc_bind_inv {A B} (m : proc W E A) (k : A -> proc W E B) w w' b :
  (a ← m; k a) w = (w', Ok b) -> exists w1 a, m w = (w1, Ok a) /\ k a w1 = (w', Ok b).
Proof. unfold mbind, proc_bind. destruct (m w) as [w1 [a|?|]]; [eauto|done..]. Qed.
End Proc.

(** [m.map_err(f)?] of a function of another part. *)
Definition convert {W E F A} (f : E -> F) (m : proc W E A) : proc W F A := fun w =>
  let '(w, r) := m w in
  (w, map_err (fun l => match l with Fails e => Fails (f e) | Exits c => Exits c end) r).

(** [match m { Ok(a) => .., Err(e) => .. }] *)
Definition caught {W E F A} (m : proc W E A) : proc W F (res E A) := fun w =>
  match m w with
  | (w, Ok a) => (w, Ok (Ok a))
  | (w, Err (Fails e)) => (w, Ok (Err e))
  | (w, Err (Exits c)) => (w, Err (Exits c))
  | (w, Panic) => (w, Panic)
  end.

(** ** Wrappers (src/oslib.rs) *)

Definition MOVE_MOUNT_F_EMPTY_PATH : Z := 4.

Section Wrappers.
Context {W : Type} `{Host W} `{Process W}.
Context (os : HostOs).

Definition no_nul (s : bytes) : eff (world W) bytes :=
  if decide (0 ∈ s) then lift Panic else mret s.

Definition mount (source : option bytes) (target : bytes) (fstype : option bytes) (flags : Z)
  : eff (world W) unit :=
  match os with
  | HostLinux _ =>
      source ← no_nul (default [] source);
      target ← no_nul target;
      fstype ← no_nul (default [] fstype);
      call (PMount source target fstype flags)
  | HostMacos => mret tt
  end.

Definition umount2 (target : bytes) (flags : Z) : eff (world W) unit :=
  match os with
  | HostLinux _ => target ← no_nul target; call (PUmount2 target flags)
  | HostMacos => mret tt
  end.

Definition fchdir (fd : Z) : eff (world W) unit := sys (SysFchdir fd).

Definition open_tree (dir : option Z) (pathname : bytes) (flags : Z) : eff (world W) Z :=
  match os with
  | HostLinux _ => call (POpenTree (default (AT_FDCWD os) dir) pathname flags)
  | HostMacos => throw (Os (host_ENOSYS os))
  end.

Definition move_mount (from_dir : option Z) (from_path : bytes) (to_dir : option Z)
  (to_path : bytes) (flags : Z) : eff (world W) unit :=
  match os with
  | HostLinux _ =>
      call (PMoveMount (default (AT_FDCWD os) from_dir) from_path (default (AT_FDCWD os) to_dir)
              to_path flags)
  | HostMacos => throw (Os (host_ENOSYS os))
  end.
End Wrappers.

(** ** Forks (src/util.rs) *)

Definition SIGTERM : Z := 15.
Definition SIGHUP : Z := 1.
Definition EXIT_FAILURE : Z := 1.

(** The status macros of wait(2). *)
Definition WIFEXITED (status : Z) : bool := Z.land status 127 =? 0.
Definition WEXITSTATUS (status : Z) : Z := Z.land (Z.shiftr status 8) 255.
Definition WTERMSIG (status : Z) : Z := Z.land status 127.
Definition WIFSIGNALED (status : Z) : bool :=
  (0 <? Z.land status 127) && (Z.land status 127 <? 127).

Definition exit_code (status : Z) : Z :=
  if WIFEXITED status then WEXITSTATUS status
  else if WIFSIGNALED status then - WTERMSIG status
  else EXIT_FAILURE.

Section Fork.
Context {W : Type} `{Host W} `{Process W}.
Context (os : HostOs).

(** The descriptor of the parent is closed on every way out. *)
Definition sfork : eff (world W) Z :=
  match os with
  | HostLinux _ =>
      cur_pid ← call PGetpid;
      parent_pidfd ← call (PPidfdOpen cur_pid 0);
      finally
        (child_pid ← call PFork;
         if child_pid =? 0 then
           expect (call (PPrctlPdeathsig SIGTERM));;
           num_fds ← call (PPollIn parent_pidfd);
           if num_fds =? 0 then mret child_pid else throw (Custom Other)
         else mret child_pid)
        (close parent_pidfd)
  | HostMacos => call PFork
  end.

(** Never returns. *)
Definition wait_for_child {E A} (pid : Z) : proc W E A :=
  match os with
  | HostLinux _ =>
      outcome (call PCapClear);;
      outcome (call PCapApply);;
      mret tt
  | HostMacos => mret tt
  end;;
  r ← outcome (call (PWaitpid pid));
  match r with
  | Ok (waited, status) => if waited =? pid then exit_ (exit_code status) else exit_ 1
  | _ => exit_ 1
  end.

(** ** The pid file (src/util.rs)

    The loop ends when the locked file is the one in the directory; it takes fuel. *)

Definition lock_current (file : Z) (name : bytes) : eff (world W) bool :=
  call (PFlockExclusive file);;
  locked ← (s ← sys (SysFstat file); mret (st_ino s));
  current ← attempt (call (PStatIno name));
  mret match current with Ok current => bool_decide (locked = current) | _ => false end.

(** [None] when out of rounds. *)
Fixpoint open_pid_file (fuel : nat) (name : bytes) : eff (world W) (option Z) :=
  match fuel with
  | O => mret None
  | S fuel =>
      file ← call (PCreate name 384 (O_CLOEXEC os));
      current ← on_failure (lock_current file name) (close file);
      if current : bool then mret (Some file)
      else close file;; open_pid_file fuel name
  end.

Definition write_pid_file (fuel : nat) (name : bytes) : eff (world W) (option Z) :=
  file ← open_pid_file fuel name;
  match file with
  | Some file =>
      pid ← call PGetpid;
      on_failure (call (PWriteAll file (show pid ++ [10]))) (close file);;
      mret (Some file)
  | None => mret None
  end.
End Fork.
