(* ===== verification/WatchScan.v ===== *)
(** * The scan for too many directories

    src/notify_invalidate/watcher.rs, [HostWatcher::warn_if_oversized]: before the shared
    directory is watched on Linux its subdirectories are counted, up to a cap, and many of
    them are worth a warning.  The scan ends whatever the host answers, links and changing
    directories included, and on a tree that stands still it counts exactly. *)

From S2P Require Import Prelude OpenFlags Libc FileHandle FuseTypes FuseWire Descriptor FileSystem.
From S2P Require Import Host XattrMap Process.

Definition INOTIFY_WATCH_WARN_THRESHOLD : Z := 8000.
Definition SCAN_CAP : Z := INOTIFY_WATCH_WARN_THRESHOLD + 1.

(** The loop over one directory's entries. *)
Fixpoint scan_entries (count : Z) (stack : list bytes) (entries : list (bytes * bool))
  : Z * list bytes :=
  match entries with
  | [] => (count, stack)
  | (path, is_dir) :: rest =>
      if is_dir then
        let count := count + 1 in
        if SCAN_CAP <=? count then (count, stack) else scan_entries count (path :: stack) rest
      else scan_entries count stack rest
  end.

Section Scan.
Context {W E : Type} `{Host W} `{Process W}.

(** The loop over the directories to visit; [None] when [fuel] does not last. *)
Fixpoint scan (fuel : nat) (count : Z) (stack : list bytes) : proc W E (option Z) :=
  match stack with
  | [] => mret (Some count)
  | dir :: stack =>
      if SCAN_CAP <=? count then mret (Some count)
      else
        match fuel with
        | O => mret None
        | S fuel =>
            r ← outcome (call (PReadDir dir));
            match r with
            | Ok entries => let '(count, stack) := scan_entries count stack entries in
                            scan fuel count stack
            | _ => scan fuel count stack
            end
        end
  end.

(** Enough for the root and one visit per counted directory. *)
Definition scan_fuel : nat := Z.to_nat (SCAN_CAP + 1).

(** Whether a warning is logged. *)
Definition warn_if_oversized (root : bytes) : proc W E (option bool) :=
  count ← scan scan_fuel 0 [root];
  mret ((fun count => INOTIFY_WATCH_WARN_THRESHOLD <=? count) <$> count).

(** ** The scan ends *)

(** Every directory put on the stack is paid for with the count. *)
Lemma scan_entries_measure entries : forall count stack count' stack',
  count < SCAN_CAP -> scan_entries count stack entries = (count', stack') ->
  count <= count' <= SCAN_CAP /\
  count + Z.of_nat (length stack') <= count' + Z.of_nat (length stack).
Proof.
  induction entries as [|[path []] rest IH]; intros count stack count' stack' Hc Hs; simpl in Hs.
  - simplify_eq. lia.
  - destruct (Z.leb_spec SCAN_CAP (count + 1)); [simplify_eq; lia|].
    apply IH in Hs; [|lia]. cbn [length] in Hs. lia.
  - by apply IH in Hs.
Qed.

Lemma call_total {A} (c : PCall A) (w : world W) : exists w' r, call c w = (w', r) /\ r <> Panic.
Proof. unfold call. destruct (proc_run c (host w)) as [h [e|a]]; eexists _, _; by split. Qed.

(** One visit, whatever it finds. *)
Lemma visit dir (w : world W) :
  exists w' r, r <> Panic /\ call (PReadDir dir) w = (w', r) /\
    forall B (k : io (list (bytes * bool)) -> proc W E B),
      (r ← outcome (call (PReadDir dir)); k r) w = k r w'.
Proof.
  destruct (call_total (PReadDir dir) w) as (w' & r & Hr & Hp). exists w', r. split_and!; [done..|].
  intros B k. unfold mbind, proc_bind, outcome. rewrite Hr. by destruct r.
Qed.

Lemma scan_ends fuel : forall count stack w,
  0 <= count <= SCAN_CAP -> SCAN_CAP - count + Z.of_nat (length stack) <= Z.of_nat fuel ->
  exists w' n, scan fuel count stack w = (w', Ok (Some n)) /\ count <= n <= SCAN_CAP.
Proof.
  induction fuel as [|fuel IH]; intros count [|dir stack] w Hc Hf; cbn [scan].
  1, 3: exists w, count; split; [done|lia].
  - cbn [length] in Hf. lia.
  - destruct (Z.leb_spec SCAN_CAP count); [exists w, count; split; [done|lia]|].
    cbn [length] in Hf. destruct (visit dir w) as (w' & r & Hp & _ & ->).
    destruct r as [entries|e|]; [|apply IH; lia|done].
    destruct (scan_entries count stack entries) as [count' stack'] eqn:Hs.
    apply scan_entries_measure in Hs as [Hn Hm]; [|lia].
    destruct (IH count' stack' w' ltac:(lia) ltac:(lia)) as (w2 & n & Hn2 & ?).
    exists w2, n. split; [done|lia].
Qed.

(** ** On a tree that stands still the scan counts it *)

Definition subdirs (entries : io (list (bytes * bool))) : list bytes :=
  match entries with Ok l => (filter (fun e => e.2 = true) l).*1 | _ => [] end.

Section Tree.
Context (ls : bytes -> io (list (bytes * bool))).

(** [forest ds n]: the trees below [ds] have [n] directories, [ds] included. *)
Inductive forest : list bytes -> Z -> Prop :=
| forest_nil : forest [] 0
| forest_cons d ds m n :
    forest (subdirs (ls d)) m -> forest ds n -> forest (d :: ds) (1 + m + n).

Lemma forest_length ds n : forest ds n -> Z.of_nat (length ds) <= n.
Proof.
  induction 1 as [|d ds m n _ IH1 _ IH2]; cbn [length]; lia.
Qed.

Lemma forest_rev_app a b m n :
  forest a m -> forest b n -> forest (rev_append a b) (m + n).
Proof.
  intros Ha. revert b n. induction Ha as [|d ds m1 m2 H1 _ H2 IH]; intros b n Hb; cbn [rev_append].
  - done.
  - replace (1 + m1 + m2 + n) with (m2 + (1 + m1 + n)) by lia. apply IH. by constructor.
Qed.

Lemma scan_entries_all entries : forall count stack,
  count < SCAN_CAP ->
  let ds := subdirs (Ok entries) in
  let n := count + Z.of_nat (length ds) in
  scan_entries count stack entries = (n, rev_append ds stack) /\ n < SCAN_CAP \/
  (scan_entries count stack entries).1 = SCAN_CAP /\ SCAN_CAP <= n.
Proof.
  induction entries as [|[path []] rest IH]; intros count stack Hc; cbn [scan_entries subdirs].
  - left. cbn. rewrite Z.add_0_r. done.
  - rewrite filter_cons_True by done. cbn [fmap list_fmap length rev_append fst].
    destruct (Z.leb_spec SCAN_CAP (count + 1)).
    + right. cbn. lia.
    + destruct (IH (count + 1) (path :: stack)) as [[-> ?]|[-> ?]]; [lia|left|right];
        cbn [subdirs] in *; split; try lia. f_equal. lia.
  - rewrite filter_cons_False by done. apply IH. done.
Qed.

Context (still : forall dir (w : world W), call (PReadDir dir) w = (w, ls dir)).

Lemma scan_capped fuel count stack (w : world W) :
  count = SCAN_CAP -> scan fuel count stack w = (w, Ok (Some SCAN_CAP)).
Proof.
  intros ->. by destruct fuel, stack.
Qed.

Lemma scan_counts fuel : forall count stack n w w' r,
  count < SCAN_CAP -> forest stack n -> scan fuel count stack w = (w', Ok (Some r)) ->
  r = Z.min SCAN_CAP (count + n - Z.of_nat (length stack)).
Proof.
  induction fuel as [|fuel IH]; intros count stack n w w' r Hc Hf Hr; destruct Hf as [|d ds m n Hm Hn];
    cbn [scan] in Hr; try (injection Hr as <- <-; cbn [length]; lia);
    destruct (Z.leb_spec SCAN_CAP count); try lia; [done|].
  pose proof (forest_length _ _ Hm). pose proof (forest_length _ _ Hn). cbn [length].
  destruct (visit d w) as (w1 & q & Hp & Hq & Hk). rewrite still in Hq. simplify_eq.
  rewrite Hk in Hr. clear Hk. destruct (ls d) as [entries|e|]; [|inv Hm|done].
  - destruct (scan_entries_all entries count ds Hc) as [[Hs Hlt]|[Hs Hge]].
    + rewrite Hs in Hr. apply (IH _ _ (m + n)) in Hr; [|done|by apply forest_rev_app].
      rewrite rev_append_rev, length_app, length_rev in Hr. lia.
    + destruct (scan_entries count ds entries) as [count' stack']. cbn [fst] in Hs.
      rewrite scan_capped in Hr by done. injection Hr as <- <-. lia.
  - apply (IH _ _ _ _ _ _ Hc Hn) in Hr. lia.
Qed.
End Tree.

(** C33: Counting the subdirectories of the shared directory before it is watched ends,
    whatever the host answers to the reads: the host may list a directory below itself or
    change between reads.  When the directories stay as they are, the operator is warned
    exactly if there are at least 8000 directories below the shared one; a directory that
    cannot be read counts as one without subdirectories. *)
Theorem oversized_scan root (w : world W) :
  exists w' warned, warn_if_oversized root w = (w', Ok (Some warned)) /\
    forall ls n, (forall dir (w : world W), call (PReadDir dir) w = (w, ls dir)) ->
      forest ls [root] n -> warned = (INOTIFY_WATCH_WARN_THRESHOLD <=? n - 1).
Proof.
  destruct (scan_ends scan_fuel 0 [root] w) as (w' & r & Hr & _); [done|done|].
  exists w', (INOTIFY_WATCH_WARN_THRESHOLD <=? r). split.
  - unfold warn_if_oversized, mbind, proc_bind. by rewrite Hr.
  - intros ls n Hls Hf. apply (scan_counts ls Hls _ _ _ n) in Hr as ->; [|done|done].
    cbn [length]. unfold SCAN_CAP, INOTIFY_WATCH_WARN_THRESHOLD.
    destruct (Z.leb_spec 8000 (n - 1)); [apply Z.leb_le|apply Z.leb_gt]; lia.
Qed.
End Scan.

(** ** An example: a share with two directories and a file, which never changes *)

Definition demo_ls (dir : bytes) : list (bytes * bool) :=
  if decide (dir = text "/s") then [(text "/s/a", true); (text "/s/f", false)]
  else if decide (dir = text "/s/a") then [(text "/s/a/b", true)] else [].

Definition demo_answer {A} (c : PCall A) : outcome_of A :=
  match c in PCall A return outcome_of A with
  | PReadDir dir => inr (demo_ls dir)
  | _ => inl 38
  end.

#[local] Instance demo_still : Process unit := {| proc_run A c w := (w, demo_answer c) |}.

Lemma demo_forest : forest (fun dir => Ok (demo_ls dir)) [text "/s"] 3.
Proof.
  change 3 with (1 + (1 + (1 + 0 + 0) + 0) + 0).
  repeat (apply forest_cons || apply forest_nil).
Qed.

Lemma oversized_scan_witness :
  exists w' warned,
    warn_if_oversized (E := unit) (text "/s") {| host := tt; history := [] |} = (w', Ok (Some warned)) /\
    warned = false.
Proof.
  destruct (oversized_scan (E := unit) (text "/s") {| host := tt; history := [] |})
    as (w' & warned & Hr & Hw).
  exists w', warned. split; [exact Hr|].
  rewrite (Hw (fun dir => Ok (demo_ls dir)) 3); [reflexivity| |exact demo_forest].
  intros dir [[] hist]. reflexivity.
Defined.
