(* ===== verification/Sandbox.v ===== *)
(** * The sandbox

    src/sandbox.rs and [IdMapSetUpPipeMessage] of src/idmap.rs: how the daemon isolates
    itself before it serves a guest, by namespaces and pivot_root(2) or by chroot(2), and
    gives up its supplementary groups.  The messages of errors are left out. *)

From S2P Require Import Prelude OpenFlags Libc FileHandle FuseTypes FuseWire Descriptor SoftIdMap.
From S2P Require Import XattrMap FileSystem Host Process.

(** ** Data *)

Inductive SandboxError :=
| BindMountProcSelfFd (e : io_error) | BindMountSharedDir (e : io_error)
| ChdirOldRoot (e : io_error) | ChdirNewRoot (e : io_error) | ChrootFailed (e : io_error)
| ChrootChdir (e : io_error) | CleanMount (e : io_error) | CreateTempDir (e : io_error)
| DropSupplementalGroups (e : io_error) | Fork (e : io_error) | GetSupplementalGroups (e : io_error)
| MountBind (e : io_error) | MountOldRoot (e : io_error) | MountProc (e : io_error)
| MountNewRoot (e : io_error) | MountTarget (e : io_error) | OpenMountinfo (e : io_error)
| OpenNewRoot (e : io_error) | OpenOldRoot (e : io_error) | StatNewRoot (e : io_error)
| StatOldRoot (e : io_error) | OpenProcSelf (e : io_error) | OpenProcSelfFd (e : io_error)
| PivotRoot (e : io_error) | RmdirTempDir (e : io_error) | UmountOldRoot (e : io_error)
| UmountTempDir (e : io_error) | Unshare (e : io_error) | WriteGidMap | WriteSetGroups (e : io_error)
| WriteUidMap | SandboxModeInvalidUID | SandboxModeInvalidUidMap | SandboxModeInvalidGidMap.

Inductive SandboxMode := Namespace | Chroot | NoSandbox.

#[export] Instance SandboxMode_eq_dec : EqDecision SandboxMode.
Proof. solve_decision. Defined.

(** [to_lowercase] of the whole string. *)
Definition sandbox_mode_from_str `{CharTables} (s : list Z) : option SandboxMode :=
  let s := concat (map to_lowercase s) in
  if decide (s = text "namespace") then Some Namespace
  else if decide (s = text "chroot") then Some Chroot
  else if decide (s = text "none") then Some NoSandbox
  else None.

Record Sandbox := {
  sb_shared_dir : bytes;
  sb_proc_self_fd : option Z;
  sb_mountinfo_fd : option Z;
  sandbox_mode : SandboxMode;
  sb_uid_map : list UidMap;
  sb_gid_map : list GidMap;
}.

Definition sandbox_new (shared_dir : bytes) (mode : SandboxMode) (uids : list UidMap)
  (gids : list GidMap) : Sandbox :=
  {| sb_shared_dir := shared_dir; sb_proc_self_fd := None; sb_mountinfo_fd := None;
     sandbox_mode := mode; sb_uid_map := uids; sb_gid_map := gids |}.

Definition set_sb_proc_self_fd (fd : option Z) (sb : Sandbox) : Sandbox :=
  {| sb_shared_dir := sb_shared_dir sb; sb_proc_self_fd := fd;
     sb_mountinfo_fd := sb_mountinfo_fd sb; sandbox_mode := sandbox_mode sb;
     sb_uid_map := sb_uid_map sb; sb_gid_map := sb_gid_map sb |}.

Definition set_sb_mountinfo_fd (fd : option Z) (sb : Sandbox) : Sandbox :=
  {| sb_shared_dir := sb_shared_dir sb; sb_proc_self_fd := sb_proc_self_fd sb;
     sb_mountinfo_fd := fd; sandbox_mode := sandbox_mode sb;
     sb_uid_map := sb_uid_map sb; sb_gid_map := sb_gid_map sb |}.

Definition pipe_request : Z := 1.
Definition pipe_done : Z := 2.

(** mount(2), umount2(2), open_tree(2) and clone(2) flags. *)
Definition MS_NOSUID : Z := 2.
Definition MS_NODEV : Z := 4.
Definition MS_NOEXEC : Z := 8.
Definition MS_BIND : Z := 4096.
Definition MS_REC : Z := 16384.
Definition MS_SLAVE : Z := 524288.
Definition MS_RELATIME : Z := 2097152.
Definition MNT_DETACH : Z := 2.
Definition AT_RECURSIVE : Z := 32768.
Definition OPEN_TREE_CLONE : Z := 1.
Definition OPEN_TREE_CLOEXEC : Z := linux_O_CLOEXEC.
Definition CLONE_NEWNS : Z := 131072.
Definition CLONE_NEWUSER : Z := 268435456.
Definition CLONE_NEWPID : Z := 536870912.
Definition CLONE_NEWNET : Z := 1073741824.

Section Sandbox.
Context {W : Type} `{Host W} `{Process W}.
Context (os : HostOs).

Local Notation prog := (proc W SandboxError).

(** ** Mounts *)

(** To the shared directory as the root, unless it is the root already. *)
Definition switch_root (oldroot_fd newroot : Z) : prog unit :=
  or_fail PivotRoot (call (PPivotRoot (text ".") (text ".")));;
  or_fail ChdirOldRoot (fchdir oldroot_fd);;
  or_fail CleanMount (mount os None (text ".") None (Z.lor MS_SLAVE MS_REC));;
  or_fail UmountOldRoot (umount2 os (text ".") MNT_DETACH);;
  or_fail ChdirNewRoot (fchdir newroot).

Definition same_root (old_st new_st : StatExt) : bool :=
  (st_mnt_id old_st =? st_mnt_id new_st) && (st_dev (st old_st) =? st_dev (st new_st)) &&
  (st_ino (st old_st) =? st_ino (st new_st)).

Definition enter_new_root (oldroot_fd newroot : Z) : prog unit :=
  or_fail ChdirNewRoot (fchdir newroot);;
  old_st ← or_fail StatOldRoot (statx os oldroot_fd None);
  new_st ← or_fail StatNewRoot (statx os newroot None);
  (if same_root old_st new_st then mret tt else switch_root oldroot_fd newroot);;
  outcome (sys (SysClose oldroot_fd));;
  mret tt.

Definition setup_mounts (sb : Sandbox) : prog Sandbox :=
  proc_self ← or_fail OpenProcSelf (sys (SysOpen (text "/proc/self") linux_O_PATH));
  closing proc_self
    (or_fail CleanMount (mount os None (text "/") None (Z.lor MS_SLAVE MS_REC));;
     or_fail MountProc (mount os (Some (text "proc")) (text "/proc") (Some (text "proc"))
       (Z.lor (Z.lor (Z.lor MS_NODEV MS_NOEXEC) MS_NOSUID) MS_RELATIME));;
     or_fail BindMountProcSelfFd (mount os (Some (text "/proc/self/fd")) (text "/proc") None MS_BIND);;
     proc_self_fd ← or_fail OpenProcSelfFd (sys (SysOpen (text "/proc") linux_O_PATH));
     let sb := set_sb_proc_self_fd (Some proc_self_fd) sb in
     shared_dir ← c_string (sb_shared_dir sb);
     newroot ← or_fail OpenNewRoot (open_tree os None shared_dir
       (Z.lor (Z.lor AT_RECURSIVE OPEN_TREE_CLONE) OPEN_TREE_CLOEXEC));
     closing newroot
       (or_fail BindMountSharedDir
          (move_mount os (Some newroot) [] None shared_dir MOVE_MOUNT_F_EMPTY_PATH);;
        oldroot_fd ← or_fail OpenOldRoot (sys (SysOpen (text "/")
          (Z.lor (Z.lor (O_DIRECTORY os) linux_O_RDONLY) linux_O_CLOEXEC)));
        enter_new_root oldroot_fd newroot;;
        mountinfo_fd ← or_fail OpenMountinfo
          (sys (SysOpenat proc_self (text "mountinfo") linux_O_RDONLY 0));
        mret (set_sb_mountinfo_fd (Some mountinfo_fd) sb))).

(** ** User and group IDs *)

Definition uid_args (m : list UidMap) : list bytes :=
  concat (map (fun e => [show (inside_uid e); show (outside_uid e); show (uid_count e)]) m).
Definition gid_args (m : list GidMap) : list bytes :=
  concat (map (fun e => [show (inside_gid e); show (outside_gid e); show (gid_count e)]) m).

(** One own ID: what an unprivileged process may map by itself. *)
Definition own_uid (current : Z) (m : list UidMap) : option UidMap :=
  match m with
  | [e] => if negb (outside_uid e =? current) || (1 <? uid_count e) then None else Some e
  | _ => None
  end.
Definition own_gid (current : Z) (m : list GidMap) : option GidMap :=
  match m with
  | [e] => if negb (outside_gid e =? current) || (1 <? gid_count e) then None else Some e
  | _ => None
  end.

Definition proc_file (pid : Z) (name : string) : bytes :=
  text "/proc/" ++ show pid ++ text "/" ++ text name.

(** A program that fails or cannot be executed. *)
Definition run_helper (e : SandboxError) (program : string) (pid : Z) (args : list bytes) : prog unit :=
  success ← or_fail (fun _ => e) (call (PCommand (text program) (show pid :: args)));
  if success : bool then mret tt else fail e.

Definition setup_uid_map (uids : list UidMap) (current pid : Z) : prog unit :=
  match own_uid current uids with
  | None => run_helper WriteUidMap "newuidmap" pid (uid_args uids)
  | Some e =>
      or_fail (fun _ => WriteUidMap) (call (PWriteFile (proc_file pid "uid_map")
        (show (inside_uid e) ++ text " " ++ show (outside_uid e) ++ text " 1")))
  end.

Definition setup_gid_map (gids : list GidMap) (current pid : Z) : prog unit :=
  match own_gid current gids with
  | None => run_helper WriteGidMap "newgidmap" pid (gid_args gids)
  | Some e =>
      or_fail (fun _ => WriteGidMap) (call (PWriteFile (proc_file pid "setgroups") (text "deny")));;
      or_fail (fun _ => WriteGidMap) (call (PWriteFile (proc_file pid "gid_map")
        (show (inside_gid e) ++ text " " ++ show (outside_gid e) ++ text " 1")))
  end.

(** geteuid(2) and getegid(2) do not fail. *)
Definition setup_id_mappings (uids : list UidMap) (gids : list GidMap) (pid : Z) : prog unit :=
  current_uid ← or_panic (sys SysGeteuid);
  current_gid ← or_panic (sys SysGetegid);
  let uids := match uids with
              | [] => [{| outside_uid := current_uid; inside_uid := current_uid; uid_count := 1 |}]
              | _ => uids end in
  let gids := match gids with
              | [] => [{| outside_gid := current_gid; inside_gid := current_gid; gid_count := 1 |}]
              | _ => gids end in
  setup_uid_map uids current_uid pid;;
  setup_gid_map gids current_gid pid.

(** ** Namespaces *)

(** The child that writes the ID maps of its parent. *)
Definition mapping_child (sb : Sandbox) (uid x_reader x_writer y_reader y_writer : Z)
  : prog (Sandbox * Z) :=
  outcome (close x_writer);;
  outcome (close y_reader);;
  message ← or_panic (call (PReadByte x_reader));
  assert_ (message =? pipe_request);;
  (if uid =? 0 then mret tt
   else
     ppid ← or_panic (call PGetppid);
     r ← caught (setup_id_mappings (sb_uid_map sb) (sb_gid_map sb) ppid);
     match r with
     | Ok _ => mret tt
     | _ => outcome (close x_reader);; outcome (close y_writer);; exit_ 1
     end);;
  or_exit 1 (call (PWriteByte y_writer pipe_done));;
  exit_ 0.

(** The listener is closed in the process that only waits. *)
Definition sandboxed_child (sb : Sandbox) (listener : Z) : prog (Sandbox * Z) :=
  child ← or_fail Fork (sfork os);
  if child =? 0 then
    sb ← setup_mounts sb;
    mret (sb, listener)
  else
    outcome (close listener);;
    wait_for_child os child.

Definition unshared_parent (sb : Sandbox) (flags pid x_reader x_writer y_reader y_writer listener : Z)
  : prog (Sandbox * Z) :=
  r ← outcome (call (PUnshare flags));
  match r with
  | Ok _ =>
      outcome (close x_reader);;
      outcome (close y_writer);;
      closing x_writer (closing y_reader
        (or_panic (call (PWriteByte x_writer pipe_request));;
         message ← or_exit 1 (call (PReadByte y_reader));
         assert_ (message =? pipe_done);;
         outcome (call (PWaitpid pid));;
         outcome (call (PSetresuid 0));;
         outcome (call (PSetresgid 0));;
         sandboxed_child sb listener))
  | Err e =>
      closing x_reader (closing x_writer (closing y_reader (closing y_writer (fail (Unshare e)))))
  | Panic => panic
  end.

Definition enter_namespace (sb : Sandbox) (listener : Z) : prog (Sandbox * Z) :=
  match os with
  | HostLinux _ =>
      uid ← or_panic (sys SysGeteuid);
      let flags := Z.lor (Z.lor CLONE_NEWPID CLONE_NEWNS) CLONE_NEWNET in
      let flags := if uid =? 0 then flags else Z.lor flags CLONE_NEWUSER in
      '(x_reader, x_writer) ← or_panic (call PPipe);
      '(y_reader, y_writer) ← or_panic (call PPipe);
      r ← outcome (sfork os);
      match r with
      | Ok pid =>
          if pid =? 0 then mapping_child sb uid x_reader x_writer y_reader y_writer
          else unshared_parent sb flags pid x_reader x_writer y_reader y_writer listener
      | Err e =>
          closing x_reader (closing x_writer (closing y_reader (closing y_writer (fail (Fork e)))))
      | Panic => panic
      end
  | HostMacos => fail (Unshare (Custom UnsupportedKind))
  end.

(** ** chroot *)

Definition enter_chroot (sb : Sandbox) : prog Sandbox :=
  sb ← match os with
       | HostLinux _ =>
           fd ← or_fail OpenProcSelfFd (sys (SysOpen (text "/proc/self/fd") linux_O_PATH));
           let sb := set_sb_proc_self_fd (Some fd) sb in
           fd ← or_fail OpenMountinfo (sys (SysOpen (text "/proc/self/mountinfo") linux_O_RDONLY));
           mret (set_sb_mountinfo_fd (Some fd) sb)
       | HostMacos => mret sb
       end;
  shared_dir ← c_string (sb_shared_dir sb);
  or_fail ChrootFailed (call (PChroot shared_dir));;
  or_fail ChrootChdir (call (PChdir (text "/")));;
  mret sb.

(** ** Supplementary groups *)

(** [str::split_whitespace]. *)
Fixpoint words (l word : list Z) : list (list Z) :=
  match l with
  | [] => if bool_decide (word = []) then [] else [word]
  | c :: l =>
      if is_whitespace c then (if bool_decide (word = []) then words l [] else word :: words l [])
      else words l (word ++ [c])
  end.
Definition split_whitespace (l : list Z) : list (list Z) := words l [].

Definition single_mapping (id_map : list Z) : bool :=
  match split_whitespace id_map with [_; _; count] => bool_decide (count = text "1") | _ => false end.

Definition must_drop_supplemental_groups : prog bool :=
  uid ← or_panic (sys SysGeteuid);
  match os with
  | HostLinux _ =>
      if negb (uid =? 0) then mret false
      else
        user_namespaces ← outcome (call (PExists (text "/proc/self/ns/user")));
        match user_namespaces with
        | Ok true =>
            uid_map ← or_fail DropSupplementalGroups (call (PReadToString (text "/proc/self/uid_map")));
            gid_map ← or_fail DropSupplementalGroups (call (PReadToString (text "/proc/self/gid_map")));
            setgroups ← or_fail DropSupplementalGroups
              (call (PReadToString (text "/proc/self/setgroups")));
            mret (negb (bool_decide (trim setgroups = text "deny")) ||
                  negb (single_mapping uid_map) || negb (single_mapping gid_map))
        | _ => mret true
        end
  | HostMacos => mret (uid =? 0)
  end.

Definition drop_supplemental_groups : prog unit :=
  ngroups ← or_fail GetSupplementalGroups (call PGetgroups);
  if ngroups =? 0 then mret tt else or_fail DropSupplementalGroups (sys (SysSetgroups [])).

(** ** All of it *)

Definition enter (sb : Sandbox) (listener : Z) : prog (Sandbox * Z) :=
  uid ← or_panic (sys SysGeteuid);
  if negb (uid =? 0) && bool_decide (sandbox_mode sb = Chroot) then fail SandboxModeInvalidUID
  else if negb (bool_decide (sb_uid_map sb = [])) &&
          ((uid =? 0) || negb (bool_decide (sandbox_mode sb = Namespace)))
  then fail SandboxModeInvalidUidMap
  else if negb (bool_decide (sb_gid_map sb = [])) &&
          ((uid =? 0) || negb (bool_decide (sandbox_mode sb = Namespace)))
  then fail SandboxModeInvalidGidMap
  else
    must_drop ← caught must_drop_supplemental_groups;
    (if match must_drop with Ok b => b | _ => true end then drop_supplemental_groups else mret tt);;
    match sandbox_mode sb with
    | Namespace => enter_namespace sb listener
    | Chroot => sb ← enter_chroot sb; mret (sb, listener)
    | NoSandbox => mret (sb, listener)
    end.

Definition get_proc_self_fd (sb : Sandbox) : Sandbox * option Z :=
  (set_sb_proc_self_fd None sb, sb_proc_self_fd sb).

Definition get_mountinfo_fd (sb : Sandbox) : Sandbox * option Z :=
  (set_sb_mountinfo_fd None sb, sb_mountinfo_fd sb).

Definition get_root_dir (sb : Sandbox) : bytes :=
  match sandbox_mode sb with Namespace | Chroot => text "/" | NoSandbox => sb_shared_dir sb end.

(** A path that is not valid text is an error. *)
Definition get_mountinfo_prefix (is_text : bytes -> bool) (sb : Sandbox) : eff (world W) (option bytes) :=
  match os with
  | HostLinux _ =>
      match sandbox_mode sb with
      | Namespace | NoSandbox => mret None
      | Chroot =>
          prefix ← call (PCanonicalize (sb_shared_dir sb));
          if is_text prefix then mret (Some prefix) else throw (Os EINVAL)
      end
  | HostMacos => mret None
  end.
End Sandbox.
