(* ===== verification/SandboxSpec.v ===== *)
(** * Confinement

    What a daemon that has entered its sandbox can reach.  [Kernel] states what the calls
    of the sandbox do to a process, as their manual pages do: its root and working
    directory, the directories its descriptors refer to, its supplementary groups, and
    which mounts are attached.  A call that fails changes none of them.

    The theorems hold for every such kernel: after [enter] the root and the working
    directory are the shared directory, the old root is out of reach, and a process that
    can take any user's identity has no supplementary groups. *)

From S2P Require Import Prelude OpenFlags Libc FileHandle FuseTypes FuseWire Descriptor SoftIdMap.
From S2P Require Import XattrMap FileSystem Host Process Sandbox.

(** ** The kernel *)

Record pview (node : Type) := {
  v_root : node;
  v_cwd : node;
  v_fds : gmap Z node;
  v_groups : Z;
}.
Arguments v_root {node} p.
Arguments v_cwd {node} p.
Arguments v_fds {node} p.
Arguments v_groups {node} p.

(** A directory in a mount; [dev_ino] tells directories apart, [attached] whether a mount
    is in the tree.  [euid] is the effective user ID, [proc_self] the text of
    a file below /proc/self. *)
Class Views (W node : Type) := {
  view : W -> pview node;
  file_at : W -> bytes -> node;
  dev_ino : node -> Z * Z;
  attached : W -> node -> Prop;
  euid : W -> Z;
  proc_self : W -> bytes -> list Z;
}.

Section Effects.
Context {W node : Type} `{Views W node}.

Definition same_files (h h' : W) : Prop :=
  forall p, dev_ino (file_at h' p) = dev_ino (file_at h p).
Definition keeps_fds (h h' : W) : Prop := v_fds (view h) ⊆ v_fds (view h').
Definition no_attach (h h' : W) : Prop := forall n, attached h' n -> attached h n.

(** Neither directories nor groups change. *)
Definition stays (h h' : W) : Prop :=
  v_root (view h') = v_root (view h) /\ v_cwd (view h') = v_cwd (view h) /\
  v_groups (view h') = v_groups (view h).

Definition quiet (h h' : W) : Prop :=
  stays h h' /\ same_files h h' /\ no_attach h h' /\ (forall p, proc_self h' p = proc_self h p).

(** The calls of requests that the sandbox makes. *)
Definition sys_effect `{Host W} {A} (c : Call A) (h h' : W) : outcome_of A -> Prop :=
  match c in Call A return outcome_of A -> Prop with
  | SysClose _ => fun _ => quiet h h'
  | SysOpen path _ => fun r =>
      quiet h h' /\ keeps_fds h h' /\
      match r with
      | inr fd => exists n, v_fds (view h') !! fd = Some n /\ (path = text "/" -> n = v_root (view h))
      | inl _ => True
      end
  | SysFchdir fd => fun r =>
      keeps_fds h h' /\ no_attach h h' /\
      match r with
      | inr _ =>
          v_root (view h') = v_root (view h) /\ v_groups (view h') = v_groups (view h) /\
          v_fds (view h) !! fd = Some (v_cwd (view h'))
      | inl _ => stays h h'
      end
  | SysStatx fd path _ _ => fun r =>
      quiet h h' /\ keeps_fds h h' /\
      match r with
      | inr x => forall n, path = [] -> v_fds (view h) !! fd = Some n ->
          dev_ino n = (makedev (stx_dev_major x) (stx_dev_minor x), st_ino (stx_stat x))
      | inl _ => True
      end
  | SysSetgroups gids => fun r =>
      same_files h h' /\
      match r with
      | inr _ =>
          v_root (view h') = v_root (view h) /\ v_cwd (view h') = v_cwd (view h) /\
          v_groups (view h') = Z.of_nat (length gids)
      | inl _ => stays h h'
      end
  | SysGeteuid => fun r => quiet h h' /\ keeps_fds h h' /\ euid h' = euid h /\ r = inr (euid h)
  | SysOpenat _ _ _ _ | SysNameToHandleAt _ _ _ | SysGetegid => fun _ =>
      quiet h h' /\ keeps_fds h h'
  | _ => fun _ => True
  end.

(** Calls on the process.  Mounting changes what paths below the mount point lead to,
    changing the propagation of mounts does not.  A new mount namespace has copies of the
    mounts. *)
Definition proc_effect {A} (c : PCall A) (h h' : W) : outcome_of A -> Prop :=
  match c in PCall A return outcome_of A -> Prop with
  | PMount _ target _ flags => fun _ =>
      stays h h' /\ keeps_fds h h' /\ (has_any flags MS_SLAVE = true -> no_attach h h') /\
      forall p, has_any flags MS_SLAVE = true \/ ~ target `prefix_of` p ->
        dev_ino (file_at h' p) = dev_ino (file_at h p)
  | PMoveMount _ _ _ _ _ => fun _ => stays h h' /\ keeps_fds h h'
  | POpenTree _ path _ => fun r =>
      stays h h' /\ keeps_fds h h' /\ same_files h h' /\
      match r with
      | inr fd => exists n, v_fds (view h') !! fd = Some n /\ dev_ino n = dev_ino (file_at h path)
      | inl _ => True
      end
  | PPivotRoot new_root put_old => fun r =>
      keeps_fds h h' /\
      match r with
      | inr _ =>
          new_root = text "." -> put_old = text "." ->
          v_root (view h') = v_cwd (view h) /\ v_groups (view h') = v_groups (view h)
      | inl _ => stays h h'
      end
  | PUmount2 target _ => fun r =>
      stays h h' /\ keeps_fds h h' /\ no_attach h h' /\
      match r with
      | inr _ => target = text "." -> ~ attached h' (v_cwd (view h))
      | inl _ => True
      end
  | PChroot path => fun r =>
      match r with
      | inr _ => v_root (view h') = file_at h path /\ v_groups (view h') = v_groups (view h)
      | inl _ => stays h h'
      end
  | PChdir path => fun r =>
      match r with
      | inr _ =>
          v_root (view h') = v_root (view h) /\ v_groups (view h') = v_groups (view h) /\
          (path = text "/" -> v_cwd (view h') = v_root (view h))
      | inl _ => stays h h'
      end
  | PUnshare _ => fun _ =>
      same_files h h' /\ v_groups (view h') = v_groups (view h) /\
      dev_ino (v_root (view h')) = dev_ino (v_root (view h))
  | PGetgroups => fun r =>
      quiet h h' /\ match r with inr n => n = v_groups (view h) | inl _ => True end
  | PFork | PGetpid | PGetppid => fun _ => quiet h h'
  | PPidfdOpen _ _ => fun _ => quiet h h'
  | PPrctlPdeathsig _ | PPollIn _ => fun _ => quiet h h'
  | PWaitpid _ => fun _ => quiet h h'
  | PSetresuid _ | PSetresgid _ => fun _ => quiet h h'
  | PPipe => fun _ => quiet h h'
  | PReadByte _ => fun _ => quiet h h'
  | PWriteByte _ _ => fun _ => quiet h h'
  | PExists _ => fun _ => quiet h h'
  | PReadDir _ => fun _ => quiet h h'
  | PCanonicalize _ => fun _ => quiet h h' /\ euid h' = euid h
  | PReadToString path => fun r =>
      quiet h h' /\ match r with inr t => t = proc_self h path | inl _ => True end
  | PCapClear | PCapApply => fun _ => quiet h h'
  | PCapUpdatev _ | PCapName _ => fun _ => quiet h h'
  | PSeccompInit _ | PSeccompAllow _ | PSeccompLoad | PSeccompRelease => fun _ => quiet h h'
  | _ => fun _ => True
  end.
End Effects.

Class Kernel (W node : Type) `{Host W} `{Process W} `{Views W node} : Prop := {
  kernel_sys A (c : Call A) h h' r : host_run c h = (h', r) -> sys_effect c h h' r;
  kernel_proc A (c : PCall A) h h' r : proc_run c h = (h', r) -> proc_effect c h h' r;
}.

(** ** Runs *)

Section Runs.
Context {W node : Type} `{Kernel W node}.

#[export] Instance quiet_preorder : PreOrder (quiet (W := W)).
Proof.
  split.
  - intros h. split_and!; [done..| |done]. by intros n.
  - intros h1 h2 h3 [(Hr & Hc & Hg) (Hf & Ha & Ht)] [(Hr' & Hc' & Hg') (Hf' & Ha' & Ht')].
    split_and!; [split_and!; congruence| | |].
    + intros p. by rewrite Hf', Hf.
    + intros n Hn. by apply Ha, Ha'.
    + intros p. by rewrite Ht', Ht.
Qed.

(** What a run before the mounts may change: the mount namespace. *)
Definition mild (h h' : W) : Prop :=
  same_files h h' /\ dev_ino (v_root (view h')) = dev_ino (v_root (view h)) /\
  v_groups (view h') = v_groups (view h).

#[export] Instance mild_preorder : PreOrder mild.
Proof.
  split; [by intros h; split_and!|].
  intros h1 h2 h3 (Hf & Hr & Hg) (Hf' & Hr' & Hg'). split_and!; [|congruence..].
  intros p. by rewrite Hf', Hf.
Qed.

Lemma quiet_mild h h' : quiet h h' -> mild h h'.
Proof. intros [(Hr & _ & Hg) [Hf _]]. split_and!; [done|by rewrite Hr|done]. Qed.

Lemma sys_inv {A} (c : Call A) w w' r :
  sys c w = (w', r) ->
  exists o, sys_effect c (host w) (host w') o /\
    r = match o with inl e => Err (Os e) | inr a => Ok a end.
Proof.
  unfold sys. destruct (host_run c (host w)) as [h o] eqn:Hr. intros [= <- <-].
  exists o. split; [|done]. by apply (kernel_sys _ c).
Qed.

Lemma call_inv {A} (c : PCall A) w w' r :
  call c w = (w', r) ->
  exists o, proc_effect c (host w) (host w') o /\
    r = match o with inl e => Err (Os e) | inr a => Ok a end.
Proof.
  unfold call. destruct (proc_run c (host w)) as [h o] eqn:Hr. intros [= <- <-].
  exists o. split; [|done]. by apply (kernel_proc _ c).
Qed.

(** A relation between the states before and after, however the run ends. *)
Definition quietly {A} (m : eff (world W) A) : Prop :=
  respects (fun w w' => quiet (host w) (host w')) m.

#[export] Instance quiet_worlds : PreOrder (fun w w' : world W => quiet (host w) (host w')).
Proof. split; [by intros w|]. intros w1 w2 w3. apply transitivity. Qed.

Lemma quietly_sys {A} (c : Call A) :
  (forall h h' o, sys_effect c h h' o -> quiet h h') -> quietly (sys c).
Proof. intros Hc w. destruct (sys c w) as [w' r] eqn:Hs. apply sys_inv in Hs as (o & Ho & _). eauto. Qed.

Lemma quietly_call {A} (c : PCall A) :
  (forall h h' o, proc_effect c h h' o -> quiet h h') -> quietly (call c).
Proof. intros Hc w. destruct (call c w) as [w' r] eqn:Hs. apply call_inv in Hs as (o & Ho & _). eauto. Qed.

(** The same for computations of the process, for any preorder on hosts. *)
Definition goes (R : W -> W -> Prop) {E A} (m : proc W E A) : Prop :=
  forall w, R (host w) (host (m w).1).

Section Goes.
Context (R : W -> W -> Prop) `{HR : !PreOrder R} {E : Type}.

Lemma goes_ret {A} (a : A) : goes R (mret (M := proc W E) a).
Proof. intros w. cbn. reflexivity. Qed.

Lemma goes_fail {A} e : goes R (fail (A := A) e : proc W E A).
Proof. intros w. cbn. reflexivity. Qed.

Lemma goes_exit {A} c : goes R (exit_ (A := A) c : proc W E A).
Proof. intros w. cbn. reflexivity. Qed.

Lemma goes_panic {A} : goes R (panic (A := A) : proc W E A).
Proof. intros w. cbn. reflexivity. Qed.

Lemma goes_assert b : goes R (assert_ b : proc W E unit).
Proof. destruct b; [apply goes_ret|apply goes_panic]. Qed.

Lemma goes_bind {A B} (m : proc W E A) (k : A -> proc W E B) :
  goes R m -> (forall a, goes R (k a)) -> goes R (a ← m; k a).
Proof.
  intros Hm Hk w. specialize (Hm w). unfold mbind, proc_bind.
  destruct (m w) as [w1 [a|e|]]; cbn in *; [|done..]. etrans; [done|apply Hk].
Qed.

Lemma goes_lift {A} (m : eff (world W) A) :
  respects (fun w w' => R (host w) (host w')) m ->
  (forall f, goes R (or_fail f m : proc W E A)) /\ goes R (or_panic m : proc W E A) /\
  (forall c, goes R (or_exit c m : proc W E A)) /\ goes R (outcome m : proc W E (io A)).
Proof.
  intros Hm. split_and!; intros; intros w; specialize (Hm w);
    unfold or_fail, or_panic, or_exit, outcome; by destruct (m w) as [w1 [a|e|]].
Qed.

Lemma goes_or_fail {A} f (m : eff (world W) A) :
  respects (fun w w' => R (host w) (host w')) m -> goes R (or_fail f m : proc W E A).
Proof. intros Hm. by apply goes_lift. Qed.
Lemma goes_or_panic {A} (m : eff (world W) A) :
  respects (fun w w' => R (host w) (host w')) m -> goes R (or_panic m : proc W E A).
Proof. intros Hm. by apply goes_lift. Qed.
Lemma goes_or_exit {A} c (m : eff (world W) A) :
  respects (fun w w' => R (host w) (host w')) m -> goes R (or_exit c m : proc W E A).
Proof. intros Hm. by apply goes_lift. Qed.
Lemma goes_outcome {A} (m : eff (world W) A) :
  respects (fun w w' => R (host w) (host w')) m -> goes R (outcome m : proc W E (io A)).
Proof. intros Hm. by apply goes_lift. Qed.

Lemma goes_caught {F A} (m : proc W F A) : goes R m -> goes R (caught m : proc W E (res F A)).
Proof. intros Hm w. specialize (Hm w). unfold caught. by destruct (m w) as [w1 [a|[e|c]|]]. Qed.
End Goes.

(** ** Steps of a successful run *)

Lemma or_fail_ok {E A} (f : io_error -> E) (m : eff (world W) A) w w' a :
  or_fail f m w = (w', Ok a) -> m w = (w', Ok a).
Proof. unfold or_fail. destruct (m w) as [w1 [b|e|]]; simpl; [by intros [= <- <-]|done..]. Qed.

Lemma or_panic_ok {E A} (m : eff (world W) A) w w' a :
  or_panic (E := E) m w = (w', Ok a) -> m w = (w', Ok a).
Proof. unfold or_panic. destruct (m w) as [w1 [b|e|]]; [by intros [= <- <-]|done..]. Qed.

Lemma outcome_ok {E A} (m : eff (world W) A) w w' r :
  outcome (E := E) m w = (w', Ok r) -> m w = (w', r).
Proof. unfold outcome. destruct (m w) as [w1 [b|e|]]; by intros [= <- <-]. Qed.

Lemma proc_ret_ok {E A} (a b : A) (w w' : world W) :
  (mret a : proc W E A) w = (w', Ok b) -> w' = w /\ b = a.
Proof. by intros [= <- <-]. Qed.

Lemma closing_ok {E A} fd (m : proc W E A) w w' a :
  closing fd m w = (w', Ok a) -> exists w1, m w = (w1, Ok a) /\ quiet (host w1) (host w').
Proof.
  unfold closing. destruct (m w) as [w1 [b|[e|c]|]]; try by intros [= <- <-].
  intros [= <- <-]. exists w1. split; [done|].
  assert (Hq : quietly (close fd)); [|apply Hq]. apply respects_ignore; [apply _|].
  by apply quietly_sys.
Qed.

Lemma sys_ok_inv {A} (c : Call A) w w' a :
  sys c w = (w', Ok a) -> sys_effect c (host w) (host w') (inr a).
Proof. intros (o & Ho & He)%sys_inv. by destruct o; simplify_eq. Qed.

Lemma call_ok_inv {A} (c : PCall A) w w' a :
  call c w = (w', Ok a) -> proc_effect c (host w) (host w') (inr a).
Proof. intros (o & Ho & He)%call_inv. by destruct o; simplify_eq. Qed.

Lemma eff_bind_inv_ok {A B} (m : eff (world W) A) (k : A -> eff (world W) B) w w' b :
  (a ← m; k a) w = (w', Ok b) -> exists w1 a, m w = (w1, Ok a) /\ k a w1 = (w', Ok b).
Proof. intros [?|[(?&?&?)|[??]]]%eff_bind_inv; [done|done|done]. Qed.

Lemma no_nul_ok s w w' a : no_nul (W := W) s w = (w', Ok a) -> w' = w /\ a = s.
Proof. unfold no_nul. case_decide; [done|]. by intros [= <- <-]. Qed.
End Runs.

(** ** The mounts *)

Ltac proc_step :=
  match goal with
  | Hr : @mbind (proc _ _) _ _ _ _ _ _ = (_, Ok _) |- _ =>
      let w := fresh "w" in let a := fresh "a" in let Hm := fresh "Hm" in
      apply proc_bind_inv in Hr as (w & a & Hm & Hr)
  | Hr : or_fail _ _ _ = (_, Ok _) |- _ => apply or_fail_ok in Hr
  | Hr : or_panic _ _ = (_, Ok _) |- _ => apply or_panic_ok in Hr
  | Hr : outcome _ _ = (_, Ok _) |- _ => apply outcome_ok in Hr
  | Hr : @mret (proc _ _) _ _ _ _ = (_, Ok _) |- _ => apply proc_ret_ok in Hr as [? ?]; subst
  | Hr : sys _ _ = (_, Ok _) |- _ => apply sys_ok_inv in Hr; simpl in Hr
  | Hr : call _ _ = (_, Ok _) |- _ => apply call_ok_inv in Hr; simpl in Hr
  end.

Section Confined.
Context {W node : Type} `{Kernel W node}.
Context (arch : GuestArch).

Local Notation linux := (HostLinux arch).

Lemma mount_ok source target fstype flags w w' u :
  mount linux source target fstype flags w = (w', Ok u) ->
  exists s f, proc_effect (PMount s target f flags) (host w) (host w') (inr u).
Proof.
  unfold mount. intros (w1 & s & Hs & Hr)%eff_bind_inv_ok. apply no_nul_ok in Hs as [-> ->].
  apply eff_bind_inv_ok in Hr as (w2 & t & Ht & Hr). apply no_nul_ok in Ht as [-> ->].
  apply eff_bind_inv_ok in Hr as (w3 & f & Hf & Hr). apply no_nul_ok in Hf as [-> ->].
  apply call_ok_inv in Hr. eauto.
Qed.

Lemma umount2_ok target flags w w' u :
  umount2 linux target flags w = (w', Ok u) ->
  proc_effect (PUmount2 target flags) (host w) (host w') (inr u).
Proof.
  unfold umount2. intros (w1 & s & Hs & Hr)%eff_bind_inv_ok. apply no_nul_ok in Hs as [-> ->].
  by apply call_ok_inv in Hr.
Qed.

(** Looking at a file changes nothing; what is seen identifies it. *)
Lemma statx_ok fd w w' s n :
  statx linux fd None w = (w', Ok s) -> v_fds (view (host w)) !! fd = Some n ->
  quiet (host w) (host w') /\ keeps_fds (host w) (host w') /\
  dev_ino n = (st_dev (st s), st_ino (st s)).
Proof.
  intros Hs Hn. unfold statx in Hs. apply eff_bind_inv_ok in Hs as (w1 & x & Hx & Hs).
  apply sys_ok_inv in Hx as (Hq & Hk & Hid). specialize (Hid n eq_refl Hn).
  apply eff_bind_inv_ok in Hs as (w2 & mnt & Hmnt & Hs).
  assert (quiet (host w1) (host w2) /\ keeps_fds (host w1) (host w2)) as [Hq2 Hk2].
  { destruct (statx_mount_id x); [injection Hmnt as <- _; split; [reflexivity|unfold keeps_fds; reflexivity]|]. unfold get_mount_id in Hmnt.
    apply eff_bind_inv_ok in Hmnt as (w3 & r & Hr & Hmnt). injection Hmnt as <- _.
    unfold attempt in Hr. destruct (sys _ w1) as [w4 r4] eqn:H4. apply sys_inv in H4 as (o & Ho & _).
    simpl in Ho. by destruct r4; simplify_eq. }
  apply eff_bind_inv_ok in Hs as (w3 & st0 & Hst & Hs). injection Hs as <- <-.
  unfold lift, ok_or in Hst. destruct (statx_stat64 x) as [st1|] eqn:H64; [|done].
  injection Hst as <- <-. split_and!; [by etrans| |].
  - unfold keeps_fds in *. by etrans.
  - unfold statx_stat64 in H64. destruct (has_any _ _); [|done]. injection H64 as <-. exact Hid.
Qed.

(** From the old root to the new one. *)
Lemma enter_new_root_ok oldroot_fd newroot w w' n :
  v_fds (view (host w)) !! oldroot_fd = Some (v_root (view (host w))) ->
  v_fds (view (host w)) !! newroot = Some n ->
  enter_new_root linux oldroot_fd newroot w = (w', Ok tt) ->
  let old := v_root (view (host w)) in
  v_groups (view (host w')) = v_groups (view (host w)) /\ v_cwd (view (host w')) = n /\
  (v_root (view (host w')) = n /\ ~ attached (host w') old \/
   v_root (view (host w')) = old /\ dev_ino old = dev_ino n).
Proof.
  intros Hold Hnew Hr. cbv zeta. unfold enter_new_root, fchdir in Hr. repeat proc_step.
  destruct Hm as (Hk0 & _ & Hr0 & Hg0 & Hc0). rewrite Hnew in Hc0.
  assert (Hold0 := lookup_weaken _ _ _ _ Hold Hk0). assert (Hnew0 := lookup_weaken _ _ _ _ Hnew Hk0).
  eapply statx_ok in Hm0 as (Hq1 & Hk1 & Hid1); [|exact Hold0].
  assert (Hnew1 := lookup_weaken _ _ _ _ Hnew0 Hk1). assert (Hold1 := lookup_weaken _ _ _ _ Hold0 Hk1).
  eapply statx_ok in Hm1 as (Hq2 & Hk2 & Hid2); [|exact Hnew1].
  assert (Hnew2 := lookup_weaken _ _ _ _ Hnew1 Hk2). assert (Hold2 := lookup_weaken _ _ _ _ Hold1 Hk2).
  apply sys_inv in Hm3 as (o & Hq4 & _). simpl in Hq4.
  destruct Hq1 as [(Hr1 & Hc1 & Hg1) _], Hq2 as [(Hr2 & Hc2 & Hg2) _], Hq4 as [(Hr4 & Hc4 & Hg4) (_ & Ha4 & _)].
  destruct (same_root a0 a1) eqn:Hsame.
  - repeat proc_step. injection Hc0 as Hc0. split_and!; [congruence..|]. right. split; [congruence|].
    unfold same_root in Hsame. apply andb_true_iff in Hsame as [[_ Hd%Z.eqb_eq]%andb_true_iff Hi%Z.eqb_eq].
    congruence.
  - unfold switch_root, fchdir in Hm2. repeat proc_step.
    destruct Hm as [Hkp Hpv]. destruct (Hpv eq_refl eq_refl) as [Hrp Hgp].
    assert (Holdp := lookup_weaken _ _ _ _ Hold2 Hkp). assert (Hnewp := lookup_weaken _ _ _ _ Hnew2 Hkp).
    destruct Hm0 as (Hk5 & _ & Hr5 & Hg5 & Hc5). rewrite Holdp in Hc5.
    assert (Hnew5 := lookup_weaken _ _ _ _ Hnewp Hk5).
    apply mount_ok in Hm1 as (? & ? & (Hr6 & Hc6 & Hg6) & Hk6 & _ & _).
    assert (Hnew6 := lookup_weaken _ _ _ _ Hnew5 Hk6).
    apply umount2_ok in Hm3 as ((Hr7 & Hc7 & Hg7) & Hk7 & _ & Hdet).
    assert (Hnew7 := lookup_weaken _ _ _ _ Hnew6 Hk7).
    destruct Hm2 as (_ & Ha8 & Hr8 & Hg8 & Hc8). rewrite Hnew7 in Hc8.
    injection Hc0 as Hc0. injection Hc5 as Hc5. injection Hc8 as Hc8.
    split_and!; [congruence..|]. left. split; [congruence|].
    intros Hat. apply (Hdet eq_refl). rewrite Hc6, <- Hc5. apply Ha8, Ha4, Hat.
Qed.

(** The process has the shared directory, as [h] has it, for its root and working directory,
    and the root of [h] is out of reach. *)
Definition confined (h h' : W) (shared_dir : bytes) : Prop :=
  exists n old,
    dev_ino n = dev_ino (file_at h shared_dir) /\ dev_ino old = dev_ino (v_root (view h)) /\
    v_cwd (view h') = n /\
    (v_root (view h') = n /\ ~ attached h' old \/ v_root (view h') = old /\ dev_ino old = dev_ino n).

Lemma confined_quiet h h' h'' d : confined h h' d -> quiet h' h'' -> confined h h'' d.
Proof.
  intros (n & old & Hn & Ho & Hc & Hr) [(Hr' & Hc' & _) (_ & Ha & _)]. exists n, old.
  rewrite Hr', Hc'. split_and!; [done..|]. destruct Hr as [[? Hat]|?]; [left|by right].
  split; [done|]. intros Hx. by apply Hat, Ha.
Qed.

Lemma confined_mild h0 h h' d : mild h0 h -> confined h h' d -> confined h0 h' d.
Proof.
  intros (Hf & Hr & _) (n & old & Hn & Ho & Hc & Hd). exists n, old.
  split_and!; [by rewrite Hn, Hf|by rewrite Ho, Hr|done|done].
Qed.

Lemma setup_mounts_ok sb w w' sb' :
  ~ text "/proc" `prefix_of` sb_shared_dir sb ->
  setup_mounts linux sb w = (w', Ok sb') ->
  confined (host w) (host w') (sb_shared_dir sb) /\
  v_groups (view (host w')) = v_groups (view (host w)) /\
  is_Some (sb_proc_self_fd sb') /\ is_Some (sb_mountinfo_fd sb').
Proof.
  intros Hd Hr. unfold setup_mounts in Hr. repeat proc_step.
  apply closing_ok in Hr as (wa & Hr & Hq1). destruct Hm as (Hq0 & _ & _).
  repeat proc_step. apply closing_ok in Hr as (wb & Hr & Hq2). repeat proc_step.
  unfold c_string in Hm3. simpl in Hm3. case_decide; [done|]. proc_step.
  apply mount_ok in Hm as (? & ? & (Hr1 & _ & Hg1) & _ & _ & Hf1).
  apply mount_ok in Hm0 as (? & ? & (Hr2 & _ & Hg2) & _ & _ & Hf2).
  apply mount_ok in Hm1 as (? & ? & (Hr3 & _ & Hg3) & _ & _ & Hf3).
  destruct Hm2 as ([(Hr4 & _ & Hg4) [Hf4 _]] & _ & _).
  apply call_ok_inv in Hm4 as ((Hr5 & _ & Hg5) & _ & _ & n & Hn & Hd5).
  apply call_ok_inv in Hm5 as ((Hr6 & _ & Hg6) & Hk6).
  destruct Hm6 as ([(Hr7 & _ & Hg7) _] & Hk7 & old & Hold & Heq). specialize (Heq eq_refl). subst old.
  assert (Hn7 := lookup_weaken _ _ _ _ (lookup_weaken _ _ _ _ Hn Hk6) Hk7). rewrite <- Hr7 in Hold.
  destruct a8. destruct (enter_new_root_ok _ _ _ _ _ Hold Hn7 Hm7) as (Hg8 & Hc8 & Hroot).
  destruct Hq0 as [(Hr0 & _ & Hg0) [Hf0 _]], Hm8 as [Hq8 _].
  assert (Hq : quiet (host w9) (host w')) by (etrans; [exact Hq8|]; by etrans).
  split_and!; [|destruct Hq as [(_ & _ & ->) _]; congruence|done|done].
  eapply confined_quiet; [|exact Hq]. exists n, (v_root (view (host w8))). split_and!; [| |done|done].
  - rewrite Hd5, Hf4, Hf3, Hf2, Hf1, Hf0; [done|by left|by right..].
  - congruence.
Qed.

(** ** Namespaces *)

Lemma quietly_run {A} (m : eff (world W) A) w w' r :
  quietly m -> m w = (w', r) -> quiet (host w) (host w').
Proof. intros Hm Hr. specialize (Hm w). by rewrite Hr in Hm. Qed.

Lemma quietly_close fd : quietly (close (W := W) fd).
Proof. apply respects_ignore; [apply _|]. by apply quietly_sys. Qed.

Lemma quietly_sfork : quietly (sfork (W := W) linux).
Proof.
  apply respects_bind; [apply _|by apply quietly_call|intros pid].
  apply respects_bind; [apply _|by apply quietly_call|intros fd].
  apply respects_finally; [apply _| |apply quietly_close].
  apply respects_bind; [apply _|by apply quietly_call|intros child].
  destruct (child =? 0); [|by apply respects_ret, _].
  apply respects_bind; [apply _|by apply respects_expect, quietly_call|intros _].
  apply respects_bind; [apply _|by apply quietly_call|intros n].
  destruct (n =? 0); [by apply respects_ret, _|by apply respects_throw, _].
Qed.

Lemma mapping_child_ends sb uid xr xw yr yw w w' r :
  mapping_child sb uid xr xw yr yw w <> (w', Ok r).
Proof. unfold mapping_child. intros Hr. by repeat proc_step. Qed.

Lemma wait_for_child_ends {E A} pid w w' a : wait_for_child (E := E) (A := A) linux pid w <> (w', Ok a).
Proof.
  unfold wait_for_child. intros Hr. do 2 (apply proc_bind_inv in Hr as (? & ? & _ & Hr)).
  repeat case_match; by injection Hr.
Qed.

(** A sandbox set up by namespaces. *)
Definition sandboxed (sb : Sandbox) (listener : Z) (r : Sandbox * Z) (h h' : W) : Prop :=
  confined h h' (sb_shared_dir sb) /\ v_groups (view h') = v_groups (view h) /\
  is_Some (sb_proc_self_fd r.1) /\ is_Some (sb_mountinfo_fd r.1) /\ r.2 = listener.

Lemma sandboxed_around sb listener r h0 h h' h1 :
  mild h0 h -> sandboxed sb listener r h h' -> quiet h' h1 -> sandboxed sb listener r h0 h1.
Proof.
  intros Hm (Hc & Hg & ? & ? & ?) Hq. split_and!; [| |done..].
  - eapply confined_quiet; [|done]. by eapply confined_mild.
  - destruct Hm as (_ & _ & Hg0), Hq as [(_ & _ & ->) _]. congruence.
Qed.

Lemma sandboxed_child_ok sb listener w w' r :
  ~ text "/proc" `prefix_of` sb_shared_dir sb ->
  sandboxed_child linux sb listener w = (w', Ok r) ->
  sandboxed sb listener r (host w) (host w').
Proof.
  intros Hd Hr. unfold sandboxed_child in Hr. do 2 proc_step.
  apply quietly_run in Hm; [|apply quietly_sfork]. destruct (a =? 0).
  - proc_step. apply proc_ret_ok in Hr as [-> ->].
    destruct (setup_mounts_ok _ _ _ _ Hd Hm0) as (Hc & Hg & Hp & Hmi).
    eapply sandboxed_around; [by apply quiet_mild| |reflexivity]. by split_and!.
  - proc_step. by apply wait_for_child_ends in Hr.
Qed.

Lemma or_exit_ok {E A} c (m : eff (world W) A) w w' a :
  or_exit (E := E) c m w = (w', Ok a) -> m w = (w', Ok a).
Proof. unfold or_exit. destruct (m w) as [w1 [b|e|]]; [by intros [= <- <-]|done..]. Qed.

Lemma assert_ok {E} b (w w' : world W) u : (assert_ b : proc W E unit) w = (w', Ok u) -> w' = w.
Proof. destruct b; [by intros [= <-]|done]. Qed.

Lemma quiet_mild_trans h0 h h' : mild h0 h -> quiet h h' -> mild h0 h'.
Proof. intros Hm Hq. etrans; [done|by apply quiet_mild]. Qed.

Lemma unshared_parent_ok sb flags pid xr xw yr yw listener w w' r :
  ~ text "/proc" `prefix_of` sb_shared_dir sb ->
  unshared_parent linux sb flags pid xr xw yr yw listener w = (w', Ok r) ->
  sandboxed sb listener r (host w) (host w').
Proof.
  intros Hd Hr. unfold unshared_parent in Hr. do 2 proc_step.
  destruct a as [u|e|]; [|by unfold closing, fail in Hr; simpl in Hr|done].
  apply call_ok_inv in Hm. simpl in Hm. destruct Hm as (Hf & Hg & Hro).
  assert (Hmi : mild (host w) (host w0)) by done. do 2 proc_step. do 2 proc_step.
  apply quietly_run in Hm, Hm0; [|apply quietly_close..].
  apply closing_ok in Hr as (wa & Hr & Hqa). apply closing_ok in Hr as (wb & Hr & Hqb).
  repeat proc_step. apply or_exit_ok, call_ok_inv in Hm2. apply assert_ok in Hm3. subst w5.
  apply call_inv in Hm4 as (? & Hm4 & _), Hm5 as (? & Hm5 & _), Hm6 as (? & Hm6 & _).
  apply (sandboxed_child_ok _ _ _ _ _ Hd) in Hr.
  eapply sandboxed_around; [|exact Hr|by etrans]. simpl in *. eauto 8 using quiet_mild_trans.
Qed.

Lemma enter_namespace_ok sb listener w w' r :
  ~ text "/proc" `prefix_of` sb_shared_dir sb ->
  enter_namespace linux sb listener w = (w', Ok r) ->
  sandboxed sb listener r (host w) (host w').
Proof.
  intros Hd Hr. unfold enter_namespace in Hr. repeat proc_step. destruct a0 as [xr xw].
  repeat proc_step. destruct a0 as [yr yw]. repeat proc_step. destruct Hm as [Hm _].
  apply quietly_run in Hm2; [|apply quietly_sfork].
  destruct a0 as [pid|e|]; [|by unfold closing, fail in Hr; simpl in Hr|done].
  destruct (pid =? 0); [by apply mapping_child_ends in Hr|].
  apply (unshared_parent_ok _ _ _ _ _ _ _ _ _ _ _ Hd) in Hr.
  eapply sandboxed_around; [|exact Hr|reflexivity].
  eauto 8 using quiet_mild_trans, quiet_mild.
Qed.

(** ** Entering *)

(** What [enter] does before the sandbox proper, on either system. *)
Lemma enter_ok os sb listener w w' r :
  enter os sb listener w = (w', Ok r) ->
  exists w1 must_drop w2 w3, sys SysGeteuid w = (w1, Ok (euid (host w))) /\
    (sandbox_mode sb = Chroot -> euid (host w) = 0) /\
    (sb_uid_map sb <> [] \/ sb_gid_map sb <> [] -> euid (host w) <> 0 /\ sandbox_mode sb = Namespace) /\
    caught (F := SandboxError) (must_drop_supplemental_groups os) w1 = (w2, Ok must_drop) /\
    (if match must_drop with Ok b => b | _ => true end
     then drop_supplemental_groups else mret tt) w2 = (w3, Ok tt) /\
    match sandbox_mode sb with
    | Namespace => enter_namespace os sb listener
    | Chroot => sb ← enter_chroot os sb; mret (sb, listener)
    | NoSandbox => mret (sb, listener)
    end w3 = (w', Ok r).
Proof.
  intros Hr. unfold enter in Hr. apply proc_bind_inv in Hr as (w1 & uid & Hu & Hr). apply or_panic_ok in Hu.
  pose proof Hu as Hu'. apply sys_ok_inv in Hu'. simpl in Hu'. destruct Hu' as (_ & _ & _ & Huid).
  injection Huid as ->.
  destruct (negb (_ =? 0) && _) eqn:Hch; [done|]. destruct (negb (bool_decide (sb_uid_map sb = [])) && _) eqn:Hum; [done|].
  destruct (negb (bool_decide (sb_gid_map sb = [])) && _) eqn:Hgm; [done|].
  apply proc_bind_inv in Hr as (w2 & must_drop & Hmd & Hr).
  apply proc_bind_inv in Hr as (w3 & [] & Hdrop & Hr).
  exists w1, must_drop, w2, w3. split_and!; [done| | |done..].
  - intros Hm. rewrite Hm in Hch. simpl in Hch. lia.
  - rewrite !andb_false_iff, !negb_false_iff, !orb_false_iff, !negb_false_iff, !bool_decide_eq_true in Hum, Hgm.
    intros [Hne|Hne]; [destruct Hum as [?|[? ?]]|destruct Hgm as [?|[? ?]]]; try done; split; try done; lia.
Qed.

Ltac solve_goes :=
  repeat first
    [ apply goes_ret | apply goes_fail | apply goes_exit | apply goes_panic
    | apply goes_bind; [try apply _| |intros]
    | apply goes_or_panic | apply goes_or_fail | apply goes_outcome | apply _
    | by apply quietly_sys; simpl; intros; naive_solver
    | by apply quietly_call; simpl; intros; naive_solver
    | case_match ].

Lemma must_drop_quiet os : goes quiet (must_drop_supplemental_groups (W := W) os).
Proof. unfold must_drop_supplemental_groups. solve_goes. Qed.

(** Whether or not there were groups, there are none. *)
Lemma drop_groups_ok w w' u :
  drop_supplemental_groups w = (w', Ok u) ->
  v_groups (view (host w')) = 0 /\ same_files (host w) (host w') /\
  v_root (view (host w')) = v_root (view (host w)) /\ v_cwd (view (host w')) = v_cwd (view (host w)).
Proof.
  intros Hr. unfold drop_supplemental_groups in Hr. repeat proc_step.
  destruct Hm as [[(Hr0 & Hc0 & Hg0) [Hf0 _]] Hn]. destruct (Z.eqb_spec a 0) as [->|Hne]; proc_step.
  - by rewrite Hg0, <- Hn.
  - apply sys_ok_inv in Hr. destruct Hr as (Hf1 & Hr1 & Hc1 & Hg1). split_and!; [done| |congruence..].
    intros p. by rewrite Hf1, Hf0.
Qed.

Lemma maybe_drop_ok (b : bool) w w' u :
  (if b then drop_supplemental_groups else mret tt) w = (w', Ok u) ->
  (if b then v_groups (view (host w')) = 0 else v_groups (view (host w')) = v_groups (view (host w))) /\
  same_files (host w) (host w') /\
  v_root (view (host w')) = v_root (view (host w)) /\ v_cwd (view (host w')) = v_cwd (view (host w)).
Proof.
  destruct b; [apply drop_groups_ok|]. intros Hr. proc_step. by split_and!.
Qed.

(** A process that cannot take other identities: a user namespace with one user and one
    group, in which setgroups(2) is denied. *)
Definition single_identity (h : W) : Prop :=
  trim (proc_self h (text "/proc/self/setgroups")) = text "deny" /\
  (exists i o, split_whitespace (proc_self h (text "/proc/self/uid_map")) = [i; o; text "1"]) /\
  (exists i o, split_whitespace (proc_self h (text "/proc/self/gid_map")) = [i; o; text "1"]).

Lemma single_mapping_words m :
  single_mapping m = true -> exists i o, split_whitespace m = [i; o; text "1"].
Proof.
  unfold single_mapping. destruct (split_whitespace m) as [|i [|o [|c [|]]]]; try done.
  intros ->%bool_decide_eq_true. eauto.
Qed.

Lemma must_drop_false w w' :
  euid (host w) = 0 -> must_drop_supplemental_groups linux w = (w', Ok false) -> single_identity (host w).
Proof.
  intros Hu Hr. unfold must_drop_supplemental_groups in Hr.
  apply proc_bind_inv in Hr as (w1 & uid & Hm & Hr). apply or_panic_ok, sys_ok_inv in Hm. simpl in Hm.
  destruct Hm as ([_ (_ & _ & Ht1)] & _ & _ & Huid). injection Huid as ->. rewrite Hu in Hr. simpl in Hr.
  apply proc_bind_inv in Hr as (w2 & ns & Hns%outcome_ok & Hr). apply call_inv in Hns as (? & [_ (_ & _ & Ht2)] & _).
  destruct ns as [[]|?|]; try done.
  apply proc_bind_inv in Hr as (w3 & uid_map & Hm1%or_fail_ok%call_ok_inv & Hr).
  apply proc_bind_inv in Hr as (w4 & gid_map & Hm2%or_fail_ok%call_ok_inv & Hr).
  apply proc_bind_inv in Hr as (w5 & setgroups & Hm3%or_fail_ok%call_ok_inv & Hr).
  destruct Hm1 as ([_ (_ & _ & Ht3)] & ->), Hm2 as ([_ (_ & _ & Ht4)] & ->), Hm3 as (_ & ->).
  injection Hr as _ Hr. rewrite !Ht4, !Ht3, !Ht2, !Ht1 in Hr.
  apply orb_false_iff in Hr as [[Hs%negb_false_iff%bool_decide_eq_true Hum%negb_false_iff]%orb_false_iff Hgm%negb_false_iff].
  split_and!; [done|..]; by apply single_mapping_words.
Qed.

Lemma enter_chroot_ok sb w w' sb' :
  enter_chroot linux sb w = (w', Ok sb') ->
  v_groups (view (host w')) = v_groups (view (host w)) /\
  dev_ino (v_root (view (host w'))) = dev_ino (file_at (host w) (sb_shared_dir sb)) /\
  v_cwd (view (host w')) = v_root (view (host w')) /\
  is_Some (sb_proc_self_fd sb') /\ is_Some (sb_mountinfo_fd sb').
Proof.
  intros Hr. unfold enter_chroot in Hr. repeat proc_step.
  destruct Hm3 as ([(_ & _ & Hg0) [Hf0 _]] & _ & _), Hm4 as ([(_ & _ & Hg1) [Hf1 _]] & _ & _).
  unfold c_string in Hm0. simpl in Hm0. case_decide; [done|]. proc_step.
  destruct Hm1 as (Hro & Hg2), Hm2 as (Hro2 & Hg3 & Hc). specialize (Hc eq_refl).
  split_and!; [congruence| |congruence|done|done]. rewrite Hro2, Hro, Hf1. apply Hf0.
Qed.

(** Where a process is after [enter]; [h] is the host it entered from. *)
Definition placed (mode : SandboxMode) (h h' : W) (dir : bytes) : Prop :=
  match mode with
  | Namespace => confined h h' dir
  | Chroot =>
      euid h = 0 /\
      dev_ino (v_root (view h')) = dev_ino (file_at h dir) /\ v_cwd (view h') = v_root (view h')
  | NoSandbox => v_root (view h') = v_root (view h) /\ v_cwd (view h') = v_cwd (view h)
  end.

Lemma placed_quiet mode h h' h'' d : placed mode h h' d -> quiet h' h'' -> placed mode h h'' d.
Proof.
  destruct mode; simpl; [apply confined_quiet|..]; intros Hp [(Hr & Hc & _) _]; rewrite Hr, Hc; done.
Qed.

Lemma placed_from mode h h' h'' d :
  quiet h h' -> euid h' = euid h -> placed mode h' h'' d -> placed mode h h'' d.
Proof.
  intros Hq He. destruct mode; simpl; [by apply confined_mild, quiet_mild|..]; destruct Hq as [(Hr & Hc & _) [Hf _]].
  - by rewrite He, Hf.
  - by rewrite Hr, Hc.
Qed.

Lemma enter_places sb listener w w' r :
  ~ text "/proc" `prefix_of` sb_shared_dir sb -> enter linux sb listener w = (w', Ok r) ->
  placed (sandbox_mode sb) (host w) (host w') (sb_shared_dir sb) /\ r.2 = listener /\
  (sandbox_mode sb <> NoSandbox -> is_Some (sb_proc_self_fd r.1) /\ is_Some (sb_mountinfo_fd r.1)).
Proof.
  intros Hd Hr. apply enter_ok in Hr as (w1 & md & w2 & w3 & Hu & Hch & Hmaps & Hmd & Hdrop & Hr).
  apply sys_ok_inv in Hu as (Hq1 & _). pose proof (goes_caught _ (E := SandboxError) _ (must_drop_quiet linux) w1) as Hq2.
  rewrite Hmd in Hq2. simpl in Hq2. apply maybe_drop_ok in Hdrop as (_ & Hf3 & Hr3 & Hc3).
  assert (Hq : quiet (host w) (host w2)) by by etrans.
  destruct Hq as [(Hr2 & Hc2 & _) [Hf2 _]].
  destruct (sandbox_mode sb) eqn:Hmode; simpl.
  - destruct r as [sb' l]. apply enter_namespace_ok in Hr as (Hc & _ & Hp & Hmi & Hl); [|done]. split_and!; [|done..].
    destruct Hc as (n & old & Hn & Ho & Hc & Hroot). exists n, old. rewrite Hn, Ho.
    split_and!; [by rewrite Hf3, Hf2|by rewrite Hr3, Hr2|done|]. by rewrite Ho, Hn in Hroot.
  - proc_step. apply enter_chroot_ok in Hm as (_ & Hroot & Hcwd & Hp & Hmi).
    apply proc_ret_ok in Hr as [-> ->]. split_and!; [by apply Hch| |done..].
    by rewrite Hroot, Hf3, Hf2.
  - apply proc_ret_ok in Hr as [-> ->]. split_and!; [congruence|congruence|done..].
Qed.

(** C7: a daemon that has entered its sandbox is confined to the shared directory.  Whatever
    the calls on the way return: if [enter] succeeds with namespaces, the root and the
    working directory of the process that goes on are the shared directory, as it was
    found from outside, and the old root is detached unless it was that very directory;
    with chroot, they are the shared directory; and in both cases the descriptors that
    take the place of /proc are open.  The listener is the one that was passed in.  Only
    root can have used chroot, and ID maps only an unprivileged user with namespaces.
    Without a sandbox the process stays where it was.  (The path of the shared directory
    must not begin with /proc, where the sandbox mounts over it.) *)
Theorem sandbox_confines sb listener w w' sb' listener' :
  ~ text "/proc" `prefix_of` sb_shared_dir sb ->
  enter linux sb listener w = (w', Ok (sb', listener')) ->
  listener' = listener /\
  (sb_uid_map sb <> [] \/ sb_gid_map sb <> [] -> euid (host w) <> 0 /\ sandbox_mode sb = Namespace) /\
  (sandbox_mode sb <> NoSandbox -> is_Some (sb_proc_self_fd sb') /\ is_Some (sb_mountinfo_fd sb')) /\
  placed (sandbox_mode sb) (host w) (host w') (sb_shared_dir sb).
Proof.
  intros Hd Hr. destruct (enter_places _ _ _ _ _ Hd Hr) as (Hp & Hl & Hfds).
  apply enter_ok in Hr as (w1 & md & w2 & w3 & _ & _ & Hmaps & _). by split_and!.
Qed.

(** C25: a daemon that serves as root and can take the identity of any user has no
    supplementary groups: after [enter] there are none, unless the process is in a user
    namespace that knows one user and one group and denies setgroups(2) - then they cannot
    be dropped and give nothing away.  A daemon that could not find out drops them. *)
Theorem groups_dropped sb listener w w' r :
  ~ text "/proc" `prefix_of` sb_shared_dir sb ->
  euid (host w) = 0 -> enter linux sb listener w = (w', Ok r) ->
  v_groups (view (host w')) = 0 \/ single_identity (host w).
Proof.
  intros Hd He Hr. apply enter_ok in Hr as (w1 & md & w2 & w3 & Hu & _ & _ & Hmd & Hdrop & Hr).
  apply sys_ok_inv in Hu as ([_ (_ & _ & Ht1)] & _ & He1 & _).
  assert (Hg : v_groups (view (host w')) = v_groups (view (host w3))).
  { destruct (sandbox_mode sb).
    - by apply enter_namespace_ok in Hr as (_ & Hg & _); [|done].
    - proc_step. apply enter_chroot_ok in Hm as (Hg & _). by apply proc_ret_ok in Hr as [-> _].
    - by apply proc_ret_ok in Hr as [-> _]. }
  apply maybe_drop_ok in Hdrop as (Hdrop & _). rewrite Hg.
  destruct md as [[]|e|]; [by left|right|by left|by left].
  unfold caught in Hmd. destruct (must_drop_supplemental_groups linux w1) as [w4 [b|[e|c]|]] eqn:Hmf; simplify_eq.
  apply must_drop_false in Hmf; [|congruence]. unfold single_identity in *. by rewrite !Ht1 in Hmf.
Qed.
End Confined.

(** ** An example

    A kernel with a root directory (1) and a shared directory "/srv" (2); the copy of its
    mount (3) is the same directory. *)

Record box := {
  bv : pview Z;
  gone : list Z;
  uid : Z;
  forks : list Z;
  fresh : Z;
}.

Definition set_view (v : pview Z) (b : box) : box :=
  {| bv := v; gone := gone b; uid := uid b; forks := forks b; fresh := fresh b |}.
Definition set_cwd (n : Z) (b : box) : box :=
  set_view {| v_root := v_root (bv b); v_cwd := n; v_fds := v_fds (bv b); v_groups := v_groups (bv b) |} b.
Definition set_root (n : Z) (b : box) : box :=
  set_view {| v_root := n; v_cwd := v_cwd (bv b); v_fds := v_fds (bv b); v_groups := v_groups (bv b) |} b.
Definition set_groups (n : Z) (b : box) : box :=
  set_view {| v_root := v_root (bv b); v_cwd := v_cwd (bv b); v_fds := v_fds (bv b); v_groups := n |} b.

(** A descriptor that is in use is not handed out. *)
Definition open_dir (n : Z) (b : box) : box * outcome_of Z :=
  match v_fds (bv b) !! fresh b with
  | Some _ => (b, inl 24)
  | None =>
      ({| bv := {| v_root := v_root (bv b); v_cwd := v_cwd (bv b);
                   v_fds := <[fresh b := n]> (v_fds (bv b)); v_groups := v_groups (bv b) |};
          gone := gone b; uid := uid b; forks := forks b; fresh := fresh b + 1 |}, inr (fresh b))
  end.

Definition box_ino (n : Z) : Z := if n =? 3 then 2 else n.

Definition box_stat (n : Z) : Statx :=
  {| stx_mask := Z.lor STATX_BASIC_STATS STATX_MNT_ID;
     stx_stat := {| st_dev := 0; st_ino := box_ino n; st_mode := 16877; st_nlink := 1; st_uid := 0; st_gid := 0;
       st_rdev := 0; st_size := 0; st_blksize := 0; st_blocks := 0; st_atime := 0; st_atime_nsec := 0;
       st_mtime := 0; st_mtime_nsec := 0; st_ctime := 0; st_ctime_nsec := 0 |};
     stx_dev_major := 0; stx_dev_minor := 0; stx_rdev_major := 0; stx_rdev_minor := 0; stx_mnt_id := n |}.

Definition box_sys {A} (c : Call A) (b : box) : box * outcome_of A :=
  match c in Call A return box * outcome_of A with
  | SysClose _ => (b, inr tt)
  | SysOpen path _ => open_dir (if decide (path = text "/") then v_root (bv b) else 4) b
  | SysOpenat _ _ _ _ => open_dir 5 b
  | SysFchdir fd =>
      match v_fds (bv b) !! fd with Some n => (set_cwd n b, inr tt) | None => (b, inl EBADF) end
  | SysStatx fd _ _ _ =>
      match v_fds (bv b) !! fd with Some n => (b, inr (box_stat n)) | None => (b, inl EBADF) end
  | SysSetgroups gids => (set_groups (Z.of_nat (length gids)) b, inr tt)
  | SysGeteuid => (b, inr (uid b))
  | _ => (b, inl 38)
  end.

#[local] Instance box_host : Host box := {| host_run A := box_sys; makedev major minor := major |}.

Definition box_proc {A} (c : PCall A) (b : box) : box * outcome_of A :=
  match c in PCall A return box * outcome_of A with
  | PMount _ _ _ _ | PMoveMount _ _ _ _ _ | PUnshare _ | PPrctlPdeathsig _ | PWriteByte _ _ => (b, inr tt)
  | PSetresuid _ | PSetresgid _ => (b, inr tt)
  | POpenTree _ path _ => open_dir (if decide (path = text "/srv") then 3 else 1) b
  | PPivotRoot _ _ => (set_root (v_cwd (bv b)) b, inr tt)
  | PUmount2 _ _ =>
      ({| bv := bv b; gone := v_cwd (bv b) :: gone b; uid := uid b; forks := forks b; fresh := fresh b |},
       inr tt)
  | PChroot path => (set_root (if decide (path = text "/srv") then 2 else 1) b, inr tt)
  | PChdir _ => (set_cwd (v_root (bv b)) b, inr tt)
  | PFork =>
      match forks b with
      | p :: l => ({| bv := bv b; gone := gone b; uid := uid b; forks := l; fresh := fresh b |}, inr p)
      | [] => (b, inl 11)
      end
  | PGetpid | PPidfdOpen _ _ => (b, inr 30)
  | PPollIn _ => (b, inr 0)
  | PWaitpid pid => (b, inr (pid, 0))
  | PPipe => (b, inr (40, 41))
  | PReadByte _ => (b, inr pipe_done)
  | PExists _ => (b, inr false)
  | PGetgroups => (b, inr (v_groups (bv b)))
  | _ => (b, inl 38)
  end.

#[local] Instance box_process : Process box := {| proc_run A := box_proc |}.

#[local] Instance box_views : Views box Z := {|
  view := bv; file_at _ path := if decide (path = text "/srv") then 2 else 1;
  dev_ino n := (0, box_ino n); attached b n := n ∉ gone b; euid := uid; proc_self _ _ := [] |}.

Lemma open_dir_keeps n b b' r :
  open_dir n b = (b', r) ->
  quiet b b' /\ keeps_fds b b' /\ match r with inr fd => v_fds (view b') !! fd = Some n | inl _ => True end.
Proof.
  unfold open_dir. destruct (v_fds (bv b) !! fresh b) eqn:Hf; intros [= <- <-].
  - split; [reflexivity|]. by split; [unfold keeps_fds|].
  - split; [split_and!; by try intros ?|]. by split; [apply insert_subseteq|apply lookup_insert_eq].
Qed.

Lemma quiet_box (b b' : box) : bv b' = bv b -> gone b' = gone b -> quiet b b'.
Proof.
  intros Hv Hg. unfold quiet, stays, no_attach. simpl. rewrite Hv, Hg. by split_and!.
Qed.
Lemma keeps_box (b b' : box) : v_fds (bv b') = v_fds (bv b) -> keeps_fds b b'.
Proof. intros Hv. unfold keeps_fds. simpl. by rewrite Hv. Qed.
Lemma attach_box (b b' : box) : gone b ⊆ gone b' -> no_attach b b'.
Proof. intros Hg n. simpl. set_solver. Qed.
Lemma stays_box (b b' : box) : bv b' = bv b -> stays b b'.
Proof. intros Hv. unfold stays. simpl. by rewrite Hv. Qed.
Lemma files_box (b b' : box) : same_files b b'.
Proof. done. Qed.

Ltac box_solve :=
  simplify_eq/=; split_and?;
  try match goal with
      | |- quiet _ _ => apply quiet_box
      | |- keeps_fds _ _ => apply keeps_box
      | |- no_attach _ _ => apply attach_box
      | |- stays _ _ => apply stays_box
      | |- same_files _ _ => apply files_box
      end; try done.

#[local] Instance box_kernel : Kernel box Z.
Proof.
  split.
  - intros A c h h' r Hr. simpl in Hr. destruct c; simpl in *; try (by box_solve).
    + by apply open_dir_keeps in Hr as (? & ? & _).
    + apply open_dir_keeps in Hr as (? & ? & Hr). split_and!; [done..|]. destruct r; [done|].
      eexists. split; [done|]. intros ->. by rewrite decide_True.
    + destruct (v_fds (bv h) !! dirfd) eqn:Hf; box_solve. intros n _ [= <-]. done.
    + destruct (v_fds (bv h) !! fd) eqn:Hf; by box_solve.
  - intros A c h h' r Hr. simpl in Hr. destruct c; simpl in *; try (by box_solve).
    + box_solve. intros _. by apply attach_box.
    + box_solve; [by apply list_subseteq_cons|intros _ Hn; apply Hn; by apply list_elem_of_here].
    + apply open_dir_keeps in Hr as ([? [? _]] & ? & Hr). split_and!; [done..|].
      destruct r; [done|]. eexists. split; [done|]. by case_decide.
    + destruct (forks h) as [|? ?]; box_solve.
Qed.

(** Root in the first box, another user in the second, whose first fork is in the parent and
    whose second in the child. *)
Definition root_box : world box :=
  {| host := {| bv := {| v_root := 1; v_cwd := 1; v_fds := ∅; v_groups := 4 |}; gone := []; uid := 0;
                forks := []; fresh := 3 |}; history := [] |}.
Definition user_box : world box :=
  {| host := {| bv := {| v_root := 1; v_cwd := 1; v_fds := ∅; v_groups := 4 |}; gone := []; uid := 1000;
                forks := [77; 0]; fresh := 3 |}; history := [] |}.

Definition demo_sandbox (mode : SandboxMode) : Sandbox := sandbox_new (text "/srv") mode [] [].
Definition demo_entered := enter (HostLinux X86_64) (demo_sandbox Namespace) 9 user_box.
Definition demo_chrooted := enter (HostLinux X86_64) (demo_sandbox Chroot) 9 root_box.

Lemma sandbox_confines_witness :
  confined (host user_box) (host demo_entered.1) (text "/srv") /\
  v_root (view (host demo_entered.1)) = 3 /\ gone (host demo_entered.1) = [1].
Proof.
  assert (Hr : exists sb', demo_entered = (demo_entered.1, Ok (sb', 9))) by (eexists; vm_compute; reflexivity).
  destruct Hr as [sb' Hr]. split; [|split; vm_compute; reflexivity].
  destruct (sandbox_confines X86_64 (demo_sandbox Namespace) 9 user_box demo_entered.1 sb' 9) as (_ & _ & _ & Hc).
  - intros [k Hk]. vm_compute in Hk. discriminate Hk.
  - exact Hr.
  - exact Hc.
Defined.

Lemma groups_dropped_witness :
  v_groups (view (host root_box)) = 4 /\
  (v_groups (view (host demo_chrooted.1)) = 0 \/ single_identity (host root_box)).
Proof.
  split; [done|].
  assert (Hr : exists r, demo_chrooted = (demo_chrooted.1, Ok r)) by (eexists; vm_compute; reflexivity).
  destruct Hr as [r Hr]. eapply (groups_dropped X86_64 (demo_sandbox Chroot) 9 root_box); [|reflexivity|exact Hr].
  intros [k Hk]. vm_compute in Hk. discriminate Hk.
Defined.
