(* ===== verification/Seccomp.v ===== *)
(** * The system call filter

    src/seccomp.rs: the filter a daemon puts on itself before it serves a guest.  Then the
    question whether it can live with it: the calls the passthrough file system makes on
    Linux are all in the filter.  Those of the host watcher are not.

    Modelled for the architectures whose flags the daemon knows (x86_64, aarch64). *)

From S2P Require Import Prelude OpenFlags Libc FileHandle InodeStore DentryIndex FuseTypes FuseWire.
From S2P Require Import Descriptor SoftIdMap XattrMap FileSystem Host Credentials ReadDir Paths.
From S2P Require Import MountFds Passthrough PassthroughOps Session ReadOnly Process.

(** ** The filter *)

Inductive SeccompError := AllowSeccompSyscall (syscall : string) | LoadSeccompFilter | InitSeccompContext.

Inductive SeccompAction := ActAllow | ActKill | ActLog | ActTrap.

#[export] Instance SeccompAction_eq_dec : EqDecision SeccompAction.
Proof. solve_decision. Defined.

(** The actions of libseccomp. *)
Definition action_value (a : SeccompAction) : Z :=
  match a with
  | ActAllow => 0x7fff0000 | ActKill => 0x80000000 | ActLog => 0x7ffc0000 | ActTrap => 0x00030000
  end.

Definition on_x86_64 (arch : GuestArch) (l : list string) : list string :=
  match arch with X86_64 => l | Aarch64 => [] end.

(** The system calls in the order they are allowed.  [gnu] is [target_env = "gnu"]. *)
Definition allowed_syscalls (arch : GuestArch) (gnu allow_remote_logging : bool) : list string :=
    ["accept4"; "brk"; "capget"; "capset"; "clock_gettime"; "clone"; "clone3"; "close";
     "copy_file_range"; "dup"] ++
    on_x86_64 arch ["epoll_create"] ++
    ["epoll_create1"; "epoll_ctl"; "epoll_pwait"] ++
    on_x86_64 arch ["epoll_wait"] ++
    ["eventfd2"; "exit"; "exit_group"; "fallocate"; "fchdir"; "fchmod"; "fchmodat";
     "fchownat"; "fcntl"; "fdatasync"; "fgetxattr"; "flistxattr"; "flock"; "fremovexattr";
     "fsetxattr"; "fstat"; "fstatfs"; "fsync"; "ftruncate"; "futex"] ++
    on_x86_64 arch ["getdents"] ++
    ["getdents64"; "getegid"; "geteuid"; "getpid"; "getrandom"; "gettid"; "gettimeofday";
     "getxattr"; "linkat"; "listxattr"; "lseek"; "madvise"; "membarrier"; "mkdirat";
     "mknodat"; "mmap"; "mprotect"; "mremap"; "munmap"; "name_to_handle_at"; "newfstatat"] ++
    on_x86_64 arch ["open"] ++
    ["openat"; "openat2"; "open_by_handle_at"; "prctl"; "preadv"; "pread64"; "preadv2";
     "pwritev"; "pwritev2"; "pwrite64"; "read"; "readv"; "readlinkat"; "recvmsg"; "renameat";
     "renameat2"; "removexattr"] ++
    (if gnu then ["rseq"] else []) ++
    ["rt_sigaction"; "rt_sigprocmask"; "rt_sigreturn"; "sched_getaffinity"; "sched_yield";
     "sendmsg"; "setgroups"; "setresgid"; "setresuid"; "set_robust_list"; "setxattr";
     "sigaltstack"; "statx"; "symlinkat"; "syncfs"] ++
    on_x86_64 arch ["time"] ++
    ["tkill"; "tgkill"; "umask"] ++
    on_x86_64 arch ["unlink"] ++
    ["unlinkat"; "unshare"; "utimensat"; "write"; "writev"] ++
    (if allow_remote_logging then ["sendto"] else []).

Section Enabling.
Context {W : Type} `{Host W} `{Process W}.
Context (os : HostOs) (gnu : bool).

Fixpoint allow_all (l : list string) : proc W SeccompError unit :=
  match l with
  | [] => mret tt
  | s :: l => or_fail (fun _ => AllowSeccompSyscall s) (call (PSeccompAllow s));; allow_all l
  end.

Definition enable_seccomp (action : SeccompAction) (allow_remote_logging : bool)
  : proc W SeccompError unit :=
  match os with
  | HostLinux arch =>
      or_fail (fun _ => InitSeccompContext) (call (PSeccompInit (action_value action)));;
      allow_all (allowed_syscalls arch gnu allow_remote_logging);;
      or_fail (fun _ => LoadSeccompFilter) (call PSeccompLoad);;
      outcome (call PSeccompRelease);;
      mret tt
  | HostMacos => mret tt
  end.
End Enabling.

(** ** The calls of the passthrough file system *)

(** Calls that only macOS has. *)
Definition darwin_only {A} (c : Call A) : bool :=
  match c with
  | SysRenameatxNp _ _ _ _ _ | SysReadlink _ _ | SysGetpath _ | SysFchown _ _ _ | SysFullfsync _
  | SysNocache _ | SysPreallocate _ _ _ | SysGetdirentries _ _ => true
  | _ => false
  end.

(** Whether a call is made on a host. *)
Definition fits (os : HostOs) {A} (c : Call A) : bool :=
  if darwin_only c then match os with HostMacos => true | HostLinux _ => false end else true.

Definition event_fits (os : HostOs) (e : event) : bool := match e with Event c _ => fits os c end.

(** A run that only makes calls of its host. *)
Definition native {W} (os : HostOs) (w w' : world W) : Prop :=
  exists evs, history w' = history w ++ evs /\ Forall (fun e => event_fits os e = true) evs.

#[local] Instance native_preorder {W} os : PreOrder (native (W := W) os).
Proof.
  split; [by exists []; rewrite app_nil_r|]. intros w1 w2 w3 (e1 & Hw1 & F1) (e2 & Hw2 & F2).
  exists (e1 ++ e2). rewrite Hw2, Hw1, app_assoc. split; [done|]. by apply Forall_app.
Qed.

Definition mounts_native {W} (os : HostOs) (s s' : MountFds * world W) : Prop := native os s.2 s'.2.

#[local] Instance mounts_native_preorder {W} os : PreOrder (mounts_native (W := W) os).
Proof. split; [intros ?; unfold mounts_native; reflexivity|]. intros ???. unfold mounts_native. apply transitivity. Qed.

Definition fs_native {W} (os : HostOs) (s s' : PassthroughFs W) : Prop :=
  native os (fs_world s) (fs_world s').

#[local] Instance fs_native_preorder {W} os : PreOrder (fs_native (W := W) os).
Proof. split; [intros ?; unfold fs_native; reflexivity|]. intros ???. unfold fs_native. apply transitivity. Qed.

Section NativeState.
Context {W : Type} `{Host W}.
Implicit Types os : HostOs.

Lemma native_sys {A} os (c : Call A) : fits os c = true -> respects (native (W := W) os) (sys c).
Proof.
  intros Hc w. unfold sys. destruct (host_run c (host w)) as [h r]. simpl.
  exists [Event c r]. split; [done|]. by repeat constructor.
Qed.

Lemma native_on_world {A} os (m : eff (world W) A) :
  respects (native os) m -> respects (mounts_native os) (on_world m).
Proof. intros Hm. by apply (respects_zoom _ (native os)). Qed.

Lemma native_mount_modify os f :
  (forall s : MountFds * world W, (f s).2 = s.2) -> respects (mounts_native os) (modify f).
Proof. intros Hf. apply respects_modify. intros s. unfold mounts_native. rewrite Hf. reflexivity. Qed.

Lemma native_hosted {A} os (m : eff (world W) A) :
  respects (native os) m -> respects (fs_native os) (hosted m).
Proof. intros Hm. by apply (respects_zoom _ (native os)). Qed.

Lemma native_mounts {A} os (m : eff (MountFds * world W) A) :
  respects (mounts_native os) m -> respects (fs_native os) (mounts m).
Proof.
  intros Hm s. unfold mounts. destruct (mount_fds s) as [mf|]; [|reflexivity].
  specialize (Hm (mf, fs_world s)). by destruct (m _) as [[mf' w] r].
Qed.

Lemma native_modify os (f : PassthroughFs W -> PassthroughFs W) :
  (forall s, fs_world (f s) = fs_world s) -> respects (fs_native os) (modify f).
Proof. intros Hf. apply respects_modify. intros s. unfold fs_native. rewrite Hf. reflexivity. Qed.
End NativeState.

(** [chase] follows the definitions of a computation down to its calls. *)
Ltac head_of t := lazymatch t with ?f _ => head_of f | _ => t end.

Ltac chase :=
  respect;
  try lazymatch goal with
      | |- respects _ (on_world _) => apply native_on_world; chase
      | |- respects _ (hosted _) => apply native_hosted; chase
      | |- respects _ (mounts _) => apply native_mounts; chase
      | |- respects _ (fun _ => _) => fail
      | |- respects _ ?m => let h := head_of m in progress (unfold h); chase
      end.

#[local] Hint Extern 1 (fits _ _ = true) => reflexivity : eff.
#[local] Hint Extern 1 (forall s, fs_world _ = fs_world s) => reflexivity : eff.
#[local] Hint Resolve native_sys native_mount_modify native_modify : eff.

Section NativeCalls.
Context {W : Type} `{Host W}.
Implicit Types os : HostOs.

Lemma native_statx os fd path : respects (native (W := W) os) (statx os fd path).
Proof. chase. Qed.

Lemma native_reopen os fd fl p : respects (native (W := W) os) (reopen_fd_through_proc os fd fl p).
Proof. destruct os; chase. Qed.

Lemma native_get_path os fd p : respects (native (W := W) os) (get_path_by_fd os fd p).
Proof. destruct os; chase. Qed.

Lemma native_walk os checks fuel dir off buf :
  respects (native (W := W) os) (walk_loop checks fuel dir off buf).
Proof. revert buf. induction fuel as [|fuel IH]; intros buf; simpl; chase. Qed.

Lemma native_chunks fuel dir acc : respects (native (W := W) HostMacos) (read_chunks fuel dir acc).
Proof. revert acc. induction fuel as [|fuel IH]; intros acc; simpl; chase. Qed.
#[local] Hint Resolve native_walk native_chunks : eff.

Lemma native_readdir os checks fuel dir off size :
  respects (native (W := W) os) (readdir_new checks os fuel dir off size).
Proof. destruct os; chase. Qed.

Lemma native_credentials os c : respects (native (W := W) os) (credentials_set os c).
Proof. destruct os; chase. Qed.

Lemma native_drop_cap os name : respects (native (W := W) os) (drop_effective_cap os name).
Proof. destruct os; chase. Qed.

Lemma native_fallocate fd mode offset length :
  respects (native (W := W) HostMacos) (macos_emulate_fallocate HostMacos fd mode offset length).
Proof. chase. Qed.
#[local] Hint Resolve native_statx : eff.

Lemma native_mount_get os reopen id :
  (forall fd fl, respects (mounts_native (W := W) os) (reopen fd fl)) ->
  respects (mounts_native os) (mount_fds_get os reopen id).
Proof. intros Hr. destruct os; chase. Qed.

Lemma native_mount_drop os mfd : respects (mounts_native (W := W) os) (mount_fd_drop mfd).
Proof. chase. Qed.
End NativeCalls.
#[local] Hint Resolve native_statx native_reopen native_get_path native_readdir native_credentials
  native_drop_cap native_fallocate native_mount_drop : eff.

Section NativeOperations.
Context {W M : Type} `{Host W} `{RangeMap M MapEntry}.
Context (checks : bool) (fs : Setup M) (rounds : nat).

Local Notation native_op os := (respects (fs_native (W := W) os)).

Lemma native_drop_foh os foh : native_op os (drop_file_or_handle checks fs foh).
Proof. chase. Qed.
#[local] Hint Resolve native_drop_foh : eff.

Lemma native_change_store os st' : native_op os (change_store checks fs st').
Proof. chase. Qed.
#[local] Hint Resolve native_change_store : eff.

Lemma native_drop_ref os i : native_op os (drop_ref checks fs i).
Proof. chase. Qed.
#[local] Hint Resolve native_drop_ref : eff.

Lemma native_with_inode {A} os i (k : InodeData -> eff (PassthroughFs W) A) :
  (forall d, native_op os (k d)) -> native_op os (with_inode checks fs i k).
Proof. intros Hk. chase. Qed.

Lemma native_get_file os d : native_op os (get_file os d).
Proof. destruct os; chase. Qed.
#[local] Hint Resolve native_get_file : eff.

Lemma native_with_file {A} os d (k : Z -> eff (PassthroughFs W) A) :
  (forall fd, native_op os (k fd)) -> native_op os (with_file os d k).
Proof. intros Hk. chase. Qed.

Lemma native_open_inode os d fl : native_op os (open_inode os fs d fl).
Proof. chase. Qed.

Lemma native_in_proc {A} os (m : eff (PassthroughFs W) A) :
  native_op os m -> native_op os (in_proc_self_fd fs m).
Proof. intros Hm. chase. Qed.

Lemma native_open_relative os dir p fl mode : native_op os (open_relative_to os fs dir p fl mode).
Proof. destruct os as [[]|]; chase. Qed.
#[local] Hint Resolve native_open_inode native_open_relative : eff.

Lemma native_openable os fh : native_op os (make_file_handle_openable os fs fh).
Proof.
  unfold make_file_handle_openable. respect. apply native_mounts, native_mount_get.
  intros fd fl. apply native_on_world, native_reopen.
Qed.
#[local] Hint Resolve native_openable : eff.

Lemma native_handle_opt os fd st : native_op os (get_file_handle_opt os fs fd st).
Proof. destruct os; chase. Qed.
#[local] Hint Resolve native_handle_opt : eff.

Lemma native_credentials_op {A} os ctx ext (m : eff (PassthroughFs W) A) :
  native_op os m -> native_op os (with_credentials checks os fs ctx ext m).
Proof. intros Hm. chase. Qed.

Lemma native_umask_op {A} os umask (m : eff (PassthroughFs W) A) :
  native_op os m -> native_op os (with_umask umask m).
Proof. intros Hm. chase. Qed.

Lemma native_killing {A} os kill (m : eff (PassthroughFs W) A) :
  native_op os m -> native_op os (killing_priv os kill m).
Proof. intros Hm. chase. Qed.

Lemma native_info_internal os l foh : native_op os (migration_info_internal os fs l foh).
Proof. chase. Qed.
#[local] Hint Resolve native_info_internal : eff.

Lemma native_info_new os p name foh : native_op os (migration_info_new checks os fs p name foh).
Proof. chase. Qed.
#[local] Hint Resolve native_info_new : eff.

Lemma native_try_lookup os p name : native_op os (try_lookup_implementation checks os fs p name).
Proof. unfold try_lookup_implementation. apply native_with_file. chase. Qed.
#[local] Hint Resolve native_try_lookup : eff.

Lemma native_do_lookup os parent name : native_op os (do_lookup checks os fs parent name).
Proof. unfold do_lookup. apply native_with_inode. chase. Qed.
#[local] Hint Resolve native_do_lookup : eff.

(** The same through the functions that take a continuation. *)
Ltac chase_op :=
  respect;
  try lazymatch goal with
      | |- respects _ (with_inode _ _ _ _) => apply native_with_inode; chase_op
      | |- respects _ (with_file _ _ _) => apply native_with_file; chase_op
      | |- respects _ (in_proc_self_fd _ _) => apply native_in_proc; chase_op
      | |- respects _ (with_credentials _ _ _ _ _ _) => apply native_credentials_op; chase_op
      | |- respects _ (with_umask _ _) => apply native_umask_op; chase_op
      | |- respects _ (killing_priv _ _ _) => apply native_killing; chase_op
      | |- respects _ (hosted _) => apply native_hosted; chase_op
      | |- respects _ (mounts _) => apply native_mounts; chase_op
      | |- respects _ (fun _ => _) => fail
      | |- respects _ ?m => let h := head_of m in progress (unfold h); chase_op
      end.

Lemma native_walk_path os parent elements : native_op os (walk_path checks os fs parent elements).
Proof. revert parent. induction elements as [|e l IH]; intros parent; simpl; chase_op. Qed.
#[local] Hint Resolve native_walk_path : eff.

Lemma native_refresh os d p :
  native_op os (set_path_migration_info_from_proc_self_fd checks os fs d p).
Proof. chase_op. Qed.
#[local] Hint Resolve native_refresh : eff.

Lemma native_invalidating {A} os d name (m : eff (PassthroughFs W) A) :
  native_op os m -> native_op os (invalidating checks os fs d name m).
Proof. intros Hm. chase_op. Qed.

Lemma native_clear_capabilities os fd ft o_path :
  native_op os (clear_file_capabilities os fs fd ft o_path).
Proof. chase_op. Qed.
#[local] Hint Resolve native_clear_capabilities : eff.

Lemma native_do_open os i kill_priv hf : native_op os (do_open checks os fs i kill_priv hf).
Proof. destruct os; chase_op. Qed.
#[local] Hint Resolve native_do_open : eff.

Lemma native_filter os names : native_op os (filter_blocked names).
Proof. induction names as [|x l IH]; simpl; chase_op. Qed.
#[local] Hint Resolve native_filter : eff.

Lemma native_write_out os fuel fd data off : native_op os (write_out checks fuel fd data off).
Proof. revert data off. induction fuel as [|fuel IH]; intros data off; simpl; chase_op. Qed.
#[local] Hint Resolve native_write_out : eff.

Lemma native_copy_loop os fuel fd_in off_in fd_out off_out len total remaining :
  native_op os (copy_loop checks rounds fuel fd_in off_in fd_out off_out len total remaining).
Proof.
  revert off_in off_out total remaining. induction fuel as [|fuel IH]; intros; simpl; chase_op.
Qed.
#[local] Hint Resolve native_copy_loop : eff.

Lemma native_on_xattrs {A} os d (safe other : Z -> eff (PassthroughFs W) (option A)) :
  (forall fd, native_op os (safe fd)) -> (forall fd, native_op os (other fd)) ->
  native_op os (on_xattrs os fs d safe other).
Proof. intros Hs Ho. chase_op. Qed.

Lemma native_write os i handle r size off delayed kill fl :
  native_op os (write os fs i handle r size off delayed kill fl).
Proof.
  unfold write. chase_op. intros w. apply (zc_transfer_respects (H := pwritev_file os _ _)); [exact _|].
  intros w' bufs o. apply native_sys. by destruct os.
Qed.

Lemma native_read os i handle w size off s : fs_native os s (read i handle w size off s).1.1.
Proof.
  unfold read.
  assert (Hf : native_op os (handle_fd (W := W) handle i)) by chase_op. specialize (Hf s).
  destruct (handle_fd handle i s) as [s1 [fd|e|]]; [|done..]. simpl in Hf.
  assert (PreOrder (fun a b : world W * bytes => native os a.1 b.1))
    by (split; [intros ?; reflexivity|intros ???; apply transitivity]).
  pose proof (zc_transfer_respects (H := preadv_file fd) (fun a b => native os a.1 b.1)
    (fs_world s1, []) (w_chain w) size off) as Hz.
  destruct (zc_transfer _ _ _ _) as [[wd stored] r]. simpl.
  etrans; [exact Hf|]. apply Hz. intros [wd' st'] bufs o. simpl.
  pose proof (native_sys os (SysPreadv fd (total_len bufs) o) eq_refl wd') as Hp.
  destruct (sys _ wd') as [w1 [data|e|]]; done.
Qed.

Lemma native_no_errors os m s : native_op os m -> fs_native os s (no_errors m s).1.
Proof. intros Hm. specialize (Hm s). unfold no_errors. by destruct (m s) as [s' [?|?|]]. Qed.

(** Any method of the file system. *)
Lemma native_call os s s' :
  fs_call (H := passthrough_fs checks os fs rounds) s s' -> fs_native os s s'.
Proof.
  intros Hc. destruct Hc; simpl;
    try (apply native_no_errors; chase_op; fail).
  all: try match goal with
       | |- fs_native _ ?s (?m ?s).1 => assert (Hm : native_op os m); [|apply Hm]
       end.
  all: try reflexivity.
  all: try apply native_read.
  all: try apply native_write.
  all: destruct os; chase_op.
  all: apply (native_sys _ (if datasync then _ else _)); by destruct datasync.
Qed.
End NativeOperations.

(** ** The filter is enough *)

(** The calls of libcap-ng, which documents what they do to the capabilities of the process
    and not the system calls it takes. *)
Definition capability_call {A} (c : Call A) : bool :=
  match c with
  | CapNameToId _ | CapHaveEffective _ | CapGetProcess | CapUpdateEffective _ _ | CapApply => true
  | _ => false
  end.

(** The system calls by which the C library and the standard library of a Linux system carry
    out the other calls, according to the manual pages: some have changed over time, and a
    build has one of them. *)
Definition manual_calls (arch : GuestArch) {A} (c : Call A) : list string :=
  match c with
  | SysClose _ => ["close"]
  | SysOpenat _ _ _ _ => ["openat"]
  | SysOpenat2 _ _ _ _ _ => ["openat2"]
  | SysOpen _ _ => on_x86_64 arch ["open"] ++ ["openat"]
  | SysStatx _ _ _ _ => ["statx"]
  | SysFstat _ => ["fstat"; "newfstatat"; "statx"]
  | SysFstatat _ _ _ => ["newfstatat"; "statx"]
  | SysNameToHandleAt _ _ _ => ["name_to_handle_at"]
  | SysOpenByHandleAt _ _ _ => ["open_by_handle_at"]
  | SysUnlinkat _ _ _ => ["unlinkat"]
  | SysMkdirat _ _ _ => ["mkdirat"]
  | SysMknodat _ _ _ _ => ["mknodat"]
  | SysSymlinkat _ _ _ => ["symlinkat"]
  | SysLinkat _ _ _ _ _ => ["linkat"]
  | SysRenameat _ _ _ _ => ["renameat"; "renameat2"]
  | SysRenameat2 _ _ _ _ _ => ["renameat2"]
  | SysReadlinkat _ _ _ => ["readlinkat"]
  | SysFstatvfs _ => ["fstatfs"]
  | SysFchmod _ _ => ["fchmod"]
  | SysFchmodat _ _ _ _ => ["fchmodat"]
  | SysFchownat _ _ _ _ _ => ["fchownat"]
  | SysFtruncate _ _ => ["ftruncate"]
  | SysFutimens _ _ _ | SysUtimensat _ _ _ _ _ => ["utimensat"]
  | SysFsetxattr _ _ _ _ => ["fsetxattr"]
  | SysSetxattr _ _ _ _ => ["setxattr"]
  | SysFgetxattr _ _ _ => ["fgetxattr"]
  | SysGetxattr _ _ _ => ["getxattr"]
  | SysFlistxattr _ _ => ["flistxattr"]
  | SysListxattr _ _ => ["listxattr"]
  | SysFremovexattr _ _ => ["fremovexattr"]
  | SysRemovexattr _ _ => ["removexattr"]
  | SysFchdir _ => ["fchdir"]
  | SysDup _ => ["dup"; "fcntl"]
  | SysFsync _ => ["fsync"]
  | SysFdatasync _ => ["fdatasync"]
  | SysSyncfs _ => ["syncfs"]
  | SysFallocate _ _ _ _ => ["fallocate"]
  | SysLseek _ _ _ => ["lseek"]
  | SysCopyFileRange _ _ _ _ _ _ => ["copy_file_range"]
  | SysPread _ _ _ => ["pread64"]
  | SysPwrite _ _ _ => ["pwrite64"]
  | SysPreadv _ _ _ => ["preadv"; "preadv2"]
  | SysPwritev _ _ _ _ => ["pwritev"; "pwritev2"]
  | SysGetdents _ _ => ["getdents64"]
  | SysReadAll _ => ["statx"; "fstat"; "lseek"; "read"]
  | SysUmask _ => ["umask"]
  | SysGeteuid => ["geteuid"]
  | SysGetegid => ["getegid"]
  | SysSeteffuid _ => ["setresuid"]
  | SysSeteffgid _ => ["setresgid"]
  | SysSetgroups _ => ["setgroups"]
  | CapNameToId _ | CapHaveEffective _ | CapGetProcess | CapUpdateEffective _ _ | CapApply => []
  | SysRenameatxNp _ _ _ _ _ | SysReadlink _ _ | SysGetpath _ | SysFchown _ _ _ | SysFullfsync _
  | SysNocache _ | SysPreallocate _ _ _ | SysGetdirentries _ _ => ["of another system"]
  end.

Lemma manual_allowed arch gnu log {A} (c : Call A) :
  darwin_only c = false ->
  forallb (fun x => bool_decide (x ∈ allowed_syscalls arch gnu log)) (manual_calls arch c) = true.
Proof. intros Hc. destruct c; try discriminate Hc; clear; destruct arch, gnu, log; vm_compute; reflexivity. Qed.

(** What libseccomp does: a context under construction and the filter of the process,
    which nothing but loading changes. *)
Definition loads {A} (c : PCall A) : bool := match c with PSeccompLoad => true | _ => false end.

Class Filtering (W : Type) `{Host W} `{Process W} := {
  building : W -> option (Z * list string);
  loaded : W -> option (Z * list string);
  init_effect a h h' u : proc_run (PSeccompInit a) h = (h', inr u) -> building h' = Some (a, []);
  allow_effect s h h' u : proc_run (PSeccompAllow s) h = (h', inr u) ->
    building h' = (fun '(a, l) => (a, l ++ [s])) <$> building h;
  load_effect h h' u : proc_run PSeccompLoad h = (h', inr u) -> loaded h' = building h;
  other_effect A (c : PCall A) h h' r :
    loads c = false -> proc_run c h = (h', r) -> loaded h' = loaded h;
  request_effect A (c : Call A) h h' r : host_run c h = (h', r) -> loaded h' = loaded h;
}.

Section Filter.
Context {P : Type} `{Filtering P}.

Lemma allow_all_builds l a done_ (w w' : world P) u :
  building (host w) = Some (a, done_) -> allow_all l w = (w', Ok u) ->
  building (host w') = Some (a, done_ ++ l).
Proof.
  revert w done_. induction l as [|s l IH]; intros w done_ Hb Hr; simpl in Hr.
  - injection Hr as <- _. by rewrite app_nil_r.
  - apply proc_bind_inv in Hr as (w1 & [] & Hs & Hr). unfold or_fail, call in Hs.
    destruct (proc_run (PSeccompAllow s) (host w)) as [h [e|v]] eqn:He; [done|]. simpl in Hs.
    injection Hs as <-. apply allow_effect in He. rewrite Hb in He. simpl in He.
    apply IH with (done_ := done_ ++ [s]) in Hr; [|done]. by rewrite Hr, <- app_assoc.
Qed.

Lemma enable_seccomp_loads arch gnu action log (w w' : world P) u :
  enable_seccomp (HostLinux arch) gnu action log w = (w', Ok u) ->
  loaded (host w') = Some (action_value action, allowed_syscalls arch gnu log).
Proof.
  intros Hr. unfold enable_seccomp in Hr.
  apply proc_bind_inv in Hr as (w1 & [] & Hi & Hr). unfold or_fail, call in Hi.
  destruct (proc_run (PSeccompInit _) (host w)) as [h [e|v]] eqn:He; [done|]. simpl in Hi. injection Hi as <-.
  apply init_effect in He.
  apply proc_bind_inv in Hr as (w2 & [] & Ha & Hr). eapply allow_all_builds in Ha; [|exact He].
  apply proc_bind_inv in Hr as (w3 & [] & Hl & Hr). unfold or_fail, call in Hl.
  destruct (proc_run PSeccompLoad (host w2)) as [h3 [e|v3]] eqn:He3; [done|]. simpl in Hl. injection Hl as <-.
  apply load_effect in He3.
  apply proc_bind_inv in Hr as (w4 & r4 & Hrel & Hr). injection Hr as <- _. unfold outcome, call in Hrel.
  destruct (proc_run PSeccompRelease _) as [h4 r5] eqn:He4. apply other_effect in He4; [|done].
  assert (w4 = {| host := h4; history := history w2 |}) as -> by (destruct r5; by injection Hrel as <- _).
  simpl in *. by rewrite He4, He3.
Qed.

Section Requests.
Context {W M : Type} `{Host W} `{RangeMap M MapEntry}.
(** The system calls each call comes to in the libraries the daemon is linked to, and that
    they are those of the manual pages. *)
Context (kernel_calls : forall A, Call A -> list string).

Definition as_documented (arch : GuestArch) : Prop :=
  forall A (c : Call A) x, capability_call c = false -> x ∈ kernel_calls A c -> x ∈ manual_calls arch c.

(** C13: The filter lets the daemon do its work.  When the filter has been enabled, with
    whatever action, then for any request, in any state and whatever the host answers, every
    system call that a call of the passthrough file system comes to is one the loaded filter
    allows, provided the C library and the standard library make the system calls the manual
    pages name: the daemon does not get killed for serving its guest.  Nothing is said of
    the calls of libcap-ng, whose system calls are not documented. *)
Theorem filter_admits_requests arch gnu action log (w w' : world P) (checks : bool) (fs : Setup M)
  (rounds : nat) (s s' : PassthroughFs W) :
  as_documented arch ->
  enable_seccomp (HostLinux arch) gnu action log w = (w', Ok tt) ->
  fs_call (H := passthrough_fs checks (HostLinux arch) fs rounds) s s' ->
  exists allowed evs, loaded (host w') = Some (action_value action, allowed) /\
    history (fs_world s') = history (fs_world s) ++ evs /\
    Forall (fun e => match e with Event c _ =>
      capability_call c = false -> forall x, x ∈ kernel_calls _ c -> x ∈ allowed end) evs.
Proof.
  intros Hman Hen Hc. apply enable_seccomp_loads in Hen. apply native_call in Hc as (evs & Hh & Hev).
  exists (allowed_syscalls arch gnu log), evs. split_and!; [done..|].
  eapply Forall_impl; [exact Hev|]. intros [A c r] Hf Hcap x Hx%Hman; [|done]. simpl in Hf.
  assert (Hd : darwin_only c = false) by (unfold fits in Hf; by destruct (darwin_only c)).
  pose proof (manual_allowed arch gnu log c Hd) as Hall. rewrite forallb_forall in Hall.
  apply list_elem_of_In in Hx. apply Hall in Hx. by apply bool_decide_eq_true in Hx.
Qed.
End Requests.

(** The calls of inotify(7), which the watcher of [--notify-invalidate] is built on. *)
Definition watcher_calls : list string := ["inotify_init1"; "inotify_add_watch"; "inotify_rm_watch"].

(** C38: the filter does not let the host watcher work.  The daemon starts the watcher after it
    has enabled the filter, and none of the calls it needs on Linux is in it; with the
    default action the first of them ends the daemon. *)
Theorem filter_stops_watcher arch gnu action log (w w' : world P) :
  enable_seccomp (HostLinux arch) gnu action log w = (w', Ok tt) ->
  exists allowed, loaded (host w') = Some (action_value action, allowed) /\
    Forall (fun c => c ∉ allowed) watcher_calls.
Proof.
  intros Hen. apply enable_seccomp_loads in Hen. eexists. split; [exact Hen|].
  clear. apply Forall_forall. intros c Hc Hin.
  apply (bool_decide_eq_true_2 (c ∈ allowed_syscalls arch gnu log)) in Hin.
  unfold watcher_calls in Hc. rewrite !elem_of_cons, elem_of_nil in Hc.
  destruct Hc as [->|[->|[->|[]]]]; destruct arch, gnu, log; vm_compute in Hin; discriminate Hin.
Qed.
End Filter.

(** ** An example *)

(** A process that knows nothing but its filter. *)
Record sieve := { context : option (Z * list string); active : option (Z * list string) }.

Definition sieve_run {A} (c : PCall A) (b : sieve) : sieve * outcome_of A :=
  match c in PCall A return sieve * outcome_of A with
  | PSeccompInit a => ({| context := Some (a, []); active := active b |}, inr tt)
  | PSeccompAllow s =>
      ({| context := (fun '(a, l) => (a, l ++ [s])) <$> context b; active := active b |}, inr tt)
  | PSeccompLoad => ({| context := context b; active := context b |}, inr tt)
  | PSeccompRelease => ({| context := None; active := active b |}, inr tt)
  | _ => (b, inl 38)
  end.

#[local] Instance sieve_process : Process sieve := {| proc_run A := sieve_run |}.
#[local] Instance sieve_host : Host sieve := {| host_run A c b := (b, inl 38); makedev a _ := a |}.
#[local] Instance sieve_filtering : Filtering sieve.
Proof.
  refine {| building := context; loaded := active |}; try by intros; simplify_eq/=.
  intros A c h h' r Hl Hr. simpl in Hr. by destruct c; simplify_eq/=.
Defined.

Definition demo_filtered : world sieve * res (leave SeccompError) unit :=
  enable_seccomp (HostLinux X86_64) true ActKill false
    {| host := {| context := None; active := None |}; history := [] |}.
Definition sieve_world : world sieve := demo_filtered.1.

Lemma demo_filtered_ok :
  enable_seccomp (HostLinux X86_64) true ActKill false
    {| host := {| context := None; active := None |}; history := [] |} = (sieve_world, Ok tt).
Proof. vm_compute. reflexivity. Qed.

#[local] Existing Instance list_range_map.
Lemma filter_admits_requests_witness :
  exists allowed evs, loaded (host sieve_world) = Some (action_value ActKill, allowed) /\
    history (fs_world (lookup true (HostLinux X86_64) demo_setup 1 (text "a") demo_fresh).1) =
      history (fs_world demo_fresh) ++ evs /\
    Forall (fun e => match e with Event c _ =>
      capability_call c = false -> forall x, x ∈ manual_calls X86_64 c -> x ∈ allowed end) evs.
Proof.
  apply (filter_admits_requests (fun A c => manual_calls X86_64 c) X86_64 true ActKill false
    {| host := {| context := None; active := None |}; history := [] |} sieve_world true demo_setup 4 demo_fresh).
  - by intros A c x _ Hx.
  - exact demo_filtered_ok.
  - apply (call_lookup (H := passthrough_fs true (HostLinux X86_64) demo_setup 4) demo_fresh
      {| ctx_uid := 0; ctx_gid := 0; ctx_pid := 0 |} 1 (text "a")).
Defined.

Lemma filter_stops_watcher_witness :
  exists allowed, loaded (host sieve_world) = Some (action_value ActKill, allowed) /\
    Forall (fun c => c ∉ allowed) watcher_calls.
Proof.
  apply (filter_stops_watcher X86_64 true ActKill false
    {| host := {| context := None; active := None |}; history := [] |}).
  exact demo_filtered_ok.
Defined.
