(* ===== verification/Startup.v ===== *)
(** * Start-up

    src/main.rs and src/limits.rs: from the options of the command line to a device that
    waits for its guest.  Parsing of the command line into [Opt] is the business of clap;
    the parsers of single values are modelled where the program has its own.  Log messages
    are left out, as is their set-up. *)

From S2P Require Import Prelude OpenFlags Libc FileHandle InodeStore DentryIndex FuseTypes FuseWire.
From S2P Require Import Descriptor SoftIdMap XattrMap Notify FileSystem Host Credentials ReadDir Paths.
From S2P Require Import MountFds Passthrough PassthroughOps ReadOnly Server VhostUser.
From S2P Require Import Process WatchScan Sandbox Seccomp.
From coqutil Require Import Datatypes.RecordSetters.
Import DoubleBraceUpdate.

(** ** Limits (src/limits.rs) *)

Definition DEFAULT_NOFILE : Z := 1000000.

Section Limits.
Context {W : Type} `{Host W} `{Process W}.
Context (os : HostOs).

(** On macOS a [c_int] widened to 64 bits. *)
Definition get_max_nofile : eff (world W) Z :=
  match os with
  | HostLinux _ =>
      max_str ← call (PReadToString (text "/proc/sys/fs/nr_open"));
      lift (map_err (fun _ => Custom Other) (parse_unsigned u64_max (trim max_str)))
  | HostMacos => val ← call PSysctlMaxfilesperproc; mret (val mod 2 ^ 64)
  end.

Definition get_nofile_limits : eff (world W) (Z * Z) := call PGetrlimitNofile.

Definition setup_rlimit_nofile_to (nofile : Z) : eff (world W) unit :=
  call (PSetrlimitNofile nofile nofile).

Definition raise_limit (requested : bool) (target_limit rlim_max : Z) : eff (world W) Z :=
  r ← attempt (setup_rlimit_nofile_to target_limit);
  match r with
  | Err error =>
      if requested then throw error
      else setup_rlimit_nofile_to rlim_max;; mret rlim_max
  | _ => mret target_limit
  end.

Definition setup_rlimit_nofile (nofile : option Z) : eff (world W) Z :=
  max_nofile ← get_max_nofile;
  '(rlim_cur, rlim_max) ← get_nofile_limits;
  match nofile with
  | Some n =>
      if n =? 0 then mret rlim_cur
      else if max_nofile <? n then throw (Custom Other)
      else raise_limit true n rlim_max
  | None =>
      if DEFAULT_NOFILE <=? rlim_cur then mret rlim_cur
      else
        let target_limit := Z.min DEFAULT_NOFILE max_nofile in
        if max_nofile <? target_limit then throw (Custom Other)
        else raise_limit false target_limit rlim_max
  end.
End Limits.

(** ** Options *)

Definition MAX_MEM_SLOTS : Z := 509.
Definition INTERNAL_FD_RESERVE : Z := MAX_MEM_SLOTS + 100.

Definition parse_seccomp (src : list Z) : option SeccompAction :=
  if decide (src = text "none") then Some ActAllow
  else if decide (src = text "kill") then Some ActKill
  else if decide (src = text "log") then Some ActLog
  else if decide (src = text "trap") then Some ActTrap
  else None.

Inductive InodeFileHandlesCommandLineMode := ClmNever | ClmFallback | ClmPrefer | ClmMandatory.

#[export] Instance Clm_eq_dec : EqDecision InodeFileHandlesCommandLineMode.
Proof. solve_decision. Defined.

Definition handles_mode (m : InodeFileHandlesCommandLineMode) : InodeFileHandlesMode :=
  match m with
  | ClmNever => HandlesNever
  | ClmFallback => HandlesPrefer
  | ClmPrefer => HandlesPrefer
  | ClmMandatory => HandlesMandatory
  end.

Definition clm_from_str (s : list Z) : option InodeFileHandlesCommandLineMode :=
  if decide (s = text "never") then Some ClmNever
  else if decide (s = text "fallback") then Some ClmFallback
  else if decide (s = text "prefer") then Some ClmPrefer
  else if decide (s = text "mandatory") then Some ClmMandatory
  else None.

(** A string is held in UTF-8, and a path or tag is the bytes of a string. *)
Definition utf8_char (c : Z) : bytes :=
  if c <? 128 then [c]
  else if c <? 2048 then [192 + c / 64; 128 + c mod 64]
  else if c <? 65536 then [224 + c / 4096; 128 + c / 64 mod 64; 128 + c mod 64]
  else [240 + c / 262144; 128 + c / 4096 mod 64; 128 + c / 64 mod 64; 128 + c mod 64].
Definition utf8 (s : list Z) : bytes := s ≫= utf8_char.

Definition parse_tag (tag : list Z) : res VError bytes :=
  if negb (bool_decide (tag = [])) && (length (utf8 tag) <=? MAX_TAG_LEN)%nat then Ok (utf8 tag)
  else Err InvalidTag.

Inductive LevelFilter := LevelOff | LevelError | LevelWarn | LevelInfo | LevelDebug | LevelTrace.

Record Opt := {
  o_shared_dir : option bytes;
  o_tag : option bytes;
  o_socket : option bytes;
  o_socket_path : option bytes;
  o_socket_group : option bytes;
  o_fd : option Z;
  o_thread_pool_size : Z;
  o_xattr : bool;
  o_posix_acl : NegotiationMode;
  o_xattrmap : option XattrMap;
  o_sandbox : SandboxMode;
  o_readonly : bool;
  o_seccomp : SeccompAction;
  o_announce_submounts : bool;
  o_no_announce_submounts : bool;
  o_notify_invalidate : bool;
  o_inode_file_handles : InodeFileHandlesCommandLineMode;
  o_cache : CachePolicy;
  o_allow_mmap : bool;
  o_no_readdirplus : bool;
  o_writeback : bool;
  o_allow_direct_io : bool;
  o_guest_arch : GuestArch;
  o_print_capabilities : bool;
  o_modcaps : option (list Z);
  o_log_level : LevelFilter;
  o_syslog : bool;
  o_rlimit_nofile : option Z;
  o_compat_options : option (list (list Z));
  o_compat_debug : bool;
  o_no_killpriv_v2 : bool;
  o_killpriv_v2 : bool;
  o_compat_foreground : bool;
  o_security_label : NegotiationMode;
  o_uid_map : list UidMap;
  o_gid_map : list GidMap;
  o_translate_uid : list CmdlineIdMap;
  o_translate_gid : list CmdlineIdMap;
  o_preserve_noatime : bool;
  o_migration_mode : MigrationMode;
  o_migration_on_error : MigrationOnError;
  o_migration_verify_handles : bool;
  o_migration_confirm_paths : bool;
}.

(** *** Options of the legacy implementation

    An option nobody knows or a value that is wrong ends the process, as clap does. *)

Inductive CompatError := InvalidCompatValue | UnknownCompatArgument.

Definition equals_sign : Z := 61.
Definition comma : Z := 44.

(** The mapping's parser may panic. *)
Definition parse_tuple (o : Opt) (tuple : list Z) : res CompatError Opt :=
  match split_on equals_sign tuple with
  | [key; value] =>
      if decide (key = text "xattrmap") then
        match xattrmap_try_from value with
        | Ok m => Ok (o {{ o_xattrmap := Some m }})
        | Err _ => Err InvalidCompatValue
        | Panic => Panic
        end
      else if decide (key = text "cache") then
        if decide (value = text "auto") then Ok (o {{ o_cache := CacheAuto }})
        else if decide (value = text "always") then Ok (o {{ o_cache := CacheAlways }})
        else if decide (value = text "none") then Ok (o {{ o_cache := CacheNever }})
        else if decide (value = text "metadata") then Ok (o {{ o_cache := CacheMetadata }})
        else Err InvalidCompatValue
      else if decide (key = text "loglevel") then
        if decide (value = text "debug") then Ok (o {{ o_log_level := LevelDebug }})
        else if decide (value = text "info") then Ok (o {{ o_log_level := LevelInfo }})
        else if decide (value = text "warn") then Ok (o {{ o_log_level := LevelWarn }})
        else if decide (value = text "err") then Ok (o {{ o_log_level := LevelError }})
        else Err InvalidCompatValue
      else if decide (key = text "sandbox") then
        if decide (value = text "namespace") then Ok (o {{ o_sandbox := Namespace }})
        else if decide (value = text "chroot") then Ok (o {{ o_sandbox := Chroot }})
        else Err InvalidCompatValue
      else if decide (key = text "source") then Ok (o {{ o_shared_dir := Some (utf8 value) }})
      else if decide (key = text "modcaps") then Ok (o {{ o_modcaps := Some value }})
      else Err UnknownCompatArgument
  | _ => Err UnknownCompatArgument
  end.

Definition parse_single (o : Opt) (option : list Z) : res CompatError Opt :=
  if decide (option = text "xattr") then Ok (o {{ o_xattr := true }})
  else if decide (option = text "no_xattr") then Ok (o {{ o_xattr := false }})
  else if decide (option = text "readdirplus") then Ok (o {{ o_no_readdirplus := false }})
  else if decide (option = text "no_readdirplus") then Ok (o {{ o_no_readdirplus := true }})
  else if decide (option = text "writeback") then Ok (o {{ o_writeback := true }})
  else if decide (option = text "no_writeback") then Ok (o {{ o_writeback := false }})
  else if decide (option = text "allow_direct_io") then Ok (o {{ o_allow_direct_io := true }})
  else if decide (option = text "no_allow_direct_io") then Ok (o {{ o_allow_direct_io := false }})
  else if decide (option = text "announce_submounts") then Ok (o {{ o_announce_submounts := true }})
  else if decide (option = text "killpriv_v2") then Ok (o {{ o_killpriv_v2 := true }})
  else if decide (option = text "no_killpriv_v2") then Ok (o {{ o_killpriv_v2 := false }})
  else if decide (option = text "posix_acl") then Ok (o {{ o_posix_acl := NegAlways }})
  else if decide (option = text "no_posix_acl") then Ok (o {{ o_posix_acl := NegNever }})
  else if decide (option = text "security_label") then Ok (o {{ o_security_label := NegAlways }})
  else if decide (option = text "no_security_label") then Ok (o {{ o_security_label := NegNever }})
  else if decide (option = text "no_posix_lock") then Ok o
  else if decide (option = text "no_flock") then Ok o
  else Err UnknownCompatArgument.

Definition parse_compat_option (o : Opt) (option : list Z) : res CompatError Opt :=
  if bool_decide (equals_sign ∈ option) then parse_tuple o option else parse_single o option.

Fixpoint parse_each (o : Opt) (options : list (list Z)) : res CompatError Opt :=
  match options with
  | [] => Ok o
  | option :: options => o ← parse_compat_option o option; parse_each o options
  end.

Fixpoint parse_lines (o : Opt) (lines : list (list Z)) : res CompatError Opt :=
  match lines with
  | [] => Ok o
  | line :: lines => o ← parse_each o (split_on comma line); parse_lines o lines
  end.

Definition parse_compat (o : Opt) : res CompatError Opt :=
  match o_compat_options o with Some lines => parse_lines o lines | None => Ok o end.

(** ** Capabilities *)

Inductive Unfinished := PidFileRounds.

Section Process.
Context {W : Type} `{Host W} `{Process W}.
Context (os : HostOs).
(** [char::to_uppercase] *)
Context (to_uppercase : Z -> list Z).

Local Notation prog := (proc W Unfinished).

(** [modcap.split_at(1)] panics in the middle of a character. *)
Definition parse_modcap (modcap : list Z) : prog (bool * list Z) :=
  match modcap with
  | [] => exit_ 1
  | action :: cap_name =>
      if 128 <=? action then panic
      else
        let cap_name := cap_name ≫= to_uppercase in
        if negb (bool_decide ([action] = text "+") || bool_decide ([action] = text "-")) then exit_ 1
        else
          or_exit 1 (call (PCapName cap_name));;
          mret (bool_decide ([action] = text "+"), cap_name)
  end.

(** The required and the disabled capabilities. *)
Definition modify_caps (sets : gset (list Z) * gset (list Z)) (m : bool * list Z)
  : gset (list Z) * gset (list Z) :=
  let '(required_caps, disabled_caps) := sets in
  let '(add, cap_name) := m in
  if add : bool then ({[cap_name]} ∪ required_caps, disabled_caps ∖ {[cap_name]})
  else (required_caps ∖ {[cap_name]}, {[cap_name]} ∪ disabled_caps).

Fixpoint parse_each_modcap (modcaps : list (list Z)) (sets : gset (list Z) * gset (list Z))
  : prog (gset (list Z) * gset (list Z)) :=
  match modcaps with
  | [] => mret sets
  | modcap :: modcaps => m ← parse_modcap modcap; parse_each_modcap modcaps (modify_caps sets m)
  end.

Definition colon : Z := 58.

Definition parse_modcaps (default_caps : list (list Z)) (modcaps : option (list Z))
  : prog (gset (list Z) * gset (list Z)) :=
  let required_caps := list_to_set default_caps in
  match modcaps with
  | Some modcaps => parse_each_modcap (split_on colon modcaps) (required_caps, ∅)
  | None => mret (required_caps, ∅)
  end.

Definition default_caps : list (list Z) :=
  [text "CHOWN"; text "DAC_OVERRIDE"; text "FOWNER"; text "FSETID"; text "SETGID"; text "SETUID";
   text "MKNOD"; text "SETFCAP"].

Definition DAC_READ_SEARCH : list Z := text "DAC_READ_SEARCH".

Definition required_caps (inode_file_handles : InodeFileHandlesMode) (modcaps : option (list Z))
  : prog (gset (list Z)) :=
  '(required_caps, disabled_caps) ← parse_modcaps default_caps modcaps;
  if decide (inode_file_handles = HandlesNever) then mret required_caps
  else if decide (DAC_READ_SEARCH ∈ disabled_caps) then exit_ 1
  else mret ({[DAC_READ_SEARCH]} ∪ required_caps).

Definition drop_capabilities (inode_file_handles : InodeFileHandlesMode) (modcaps : option (list Z))
  : prog unit :=
  caps ← required_caps inode_file_handles modcaps;
  outcome (call PCapClear);;
  or_exit 1 (call (PCapUpdatev (elements caps)));;
  or_exit 1 (call PCapApply).
End Process.

(** ** What the options ask for *)

Definition wants_xattr (o : Opt) : bool :=
  bool_decide (is_Some (o_xattrmap o)) || negb (bool_decide (o_posix_acl o = NegNever)) ||
  negb (bool_decide (o_security_label o = NegNever)) || o_xattr o.

Definition wants_readdirplus (o : Opt) : bool :=
  match o_cache o with CacheNever => false | _ => negb (o_no_readdirplus o) end.

Definition timeout (c : CachePolicy) : Duration :=
  match c with
  | CacheNever => from_secs 0
  | CacheMetadata => from_secs 86400
  | CacheAuto => from_secs 1
  | CacheAlways => from_secs 86400
  end.

(** [S_IRWXO], and [S_IRWXG] with it. *)
Definition socket_umask (o : Opt) : Z :=
  match o_socket_group o with Some _ => 7 | None => 63 end.

(** [fs_cfg] *)
Definition fs_cfg (o : Opt) (root : bytes) (prefix : option bytes) (proc_self_fd mountinfo_fd : option Z)
  (limit : Z) : Config :=
  {| cfg_entry_timeout := timeout (o_cache o); cfg_attr_timeout := timeout (o_cache o);
     cache_policy := o_cache o; cfg_writeback := o_writeback o; root_dir := root;
     mountinfo_prefix := prefix; xattr := wants_xattr o; xattrmap := o_xattrmap o;
     xattr_security_capability := None; proc_sfd_rawfd := proc_self_fd;
     proc_mountinfo_rawfd := mountinfo_fd;
     cfg_announce_submounts := negb (o_no_announce_submounts o);
     inode_file_handles := handles_mode (o_inode_file_handles o);
     Passthrough.readdirplus := wants_readdirplus o; allow_direct_io := o_allow_direct_io o;
     guest_arch := o_guest_arch o; killpriv_v2 := o_killpriv_v2 o; cfg_posix_acl := o_posix_acl o;
     security_label := o_security_label o; clean_noatime := negb (o_preserve_noatime o);
     allow_mmap := o_allow_mmap o; migration_on_error := o_migration_on_error o;
     migration_verify_handles := o_migration_verify_handles o;
     migration_confirm_paths := o_migration_confirm_paths o; migration_mode := o_migration_mode o;
     cfg_uid_map := Some (o_translate_uid o); cfg_gid_map := Some (o_translate_gid o);
     guest_fd_limit := limit |}.

(** ** [Path::parent]

    The components are what is between slashes; empty ones and "." do not count, but "."
    does at the start of a path that has no root. *)

Definition slash : Z := 47.

Definition is_component (c : bytes) : bool :=
  negb (bool_decide (c = [])) && negb (bool_decide (c = text ".")).

Fixpoint drop_while_not {A} (p : A -> bool) (l : list A) : list A :=
  match l with
  | [] => []
  | x :: l' => if p x then l else drop_while_not p l'
  end.

(** Takes and gives the pieces in reverse. *)
Definition parent_pieces (pieces : list bytes) : option (list bytes) :=
  match drop_while_not is_component pieces with
  | [] => None
  | _ :: pieces => Some (drop_while_not is_component pieces)
  end.

(** What is before the body of the path, and the body. *)
Definition before_body (p : bytes) : bytes * bytes :=
  match p with
  | c :: rest =>
      if c =? slash then ([c], rest)
      else if bool_decide (text "." = [c]) &&
              match rest with [] => true | d :: _ => d =? slash end
      then ([c], rest)
      else ([], p)
  | [] => ([], [])
  end.

Definition parent (p : bytes) : option bytes :=
  let '(start, body) := before_body p in
  match parent_pieces (rev (split_on slash body)) with
  | Some pieces => Some (start ++ join_with slash (rev pieces))
  | None => if decide (start = text ".") then Some [] else None
  end.

(** ** From the options to the configuration *)

Section Settle.
Context {W : Type} `{Host W} `{Process W}.
Context (checks : bool) (os : HostOs) (gnu : bool) (to_uppercase : Z -> list Z).
(** Valid UTF-8; rounds for the pid file. *)
Context (is_text : bytes -> bool) (rounds : nat).

Local Notation prog := (proc W Unfinished).

Definition set_signal_handlers : prog unit :=
  or_exit 1 (call (PRegisterSignal SIGHUP));;
  or_exit 1 (call (PRegisterSignal SIGTERM)).

(** [Path::is_dir] and the like: an error is a no. *)
Definition probe (c : PCall bool) : prog bool :=
  r ← outcome (call c); mret match r with Ok b => b | _ => false end.

Definition get_shared_dir (o : Opt) : prog bytes :=
  match o_shared_dir o with
  | None => exit_ 1
  | Some shared_dir =>
      is_dir ← probe (PIsDir shared_dir);
      if is_dir : bool then mret shared_dir
      else
        is_file ← probe (PIsFile shared_dir);
        if is_file : bool then mret shared_dir else exit_ 1
  end.

Definition check_options (o : Opt) : prog unit :=
  (match o_migration_mode o with
   | FindPaths => mret tt
   | FileHandles =>
       if o_migration_confirm_paths o || o_migration_verify_handles o then exit_ 1 else mret tt
   end);;
  if negb (bool_decide (o_posix_acl o = NegNever)) &&
     (negb (bool_decide (o_translate_uid o = [])) || negb (bool_decide (o_translate_gid o = [])))
  then exit_ 1
  else mret tt.

(** The guard is dropped unless the process ends. *)
Definition restore_umask {A} (saved : Z) (m : prog A) : prog A := fun w =>
  match m w with
  | (w, Err e) => (w, Err e)
  | (w, r) => ((scoped_umask_drop saved w).1, r)
  end.
Definition under_umask {A} (umask : Z) (m : prog A) : prog A :=
  saved ← or_panic (scoped_umask_new umask); restore_umask saved m.

(** The rounds of the pid file may be too few. *)
Definition get_pid_file (socket : bytes) : prog Z :=
  file ← or_exit 1 (write_pid_file os rounds (socket ++ text ".pid"));
  match file with Some file => mret file | None => fail PidFileRounds end.

Definition get_listener (o : Opt) : prog (Z * option bytes) :=
  match o_fd o with
  | Some fd => mret (fd, None)
  | None =>
      under_umask (socket_umask o)
        (socket ← match o_socket_path o, o_socket o with
                  | Some socket, _ => mret socket
                  | None, Some socket => mret socket
                  | None, None => panic
                  end;
         socket_parent_dir ← match parent socket with Some d => mret d | None => exit_ 1 end;
         exists_ ← (if decide (socket_parent_dir = []) then mret true
                    else probe (PExists socket_parent_dir));
         if negb exists_ then exit_ 1
         else
           get_pid_file socket;;
           listener ← or_exit 1 (call (PListen socket));
           mret (listener, Some socket))
  end.

Definition set_socket_group (o : Opt) (socket_path : option bytes) : prog unit :=
  match o_socket_group o with
  | None => mret tt
  | Some group_name =>
      c_name ← c_string group_name;
      group ← or_exit 1 (call (PGetgrnam c_name));
      match group, socket_path with
      | None, _ => exit_ 1
      | Some _, None => panic
      | Some gid, Some socket_path =>
          c_socket_path ← c_string socket_path;
          or_exit 1 (call (PChown c_socket_path u32_max gid))
      end
  end.

Definition internal_fd_reserve (o : Opt) : prog Z := fun w =>
  (w, plain_add checks u64_max INTERNAL_FD_RESERVE (Z.max (o_thread_pool_size o) 1)).

Definition get_guest_fd_limit (o : Opt) : prog Z :=
  fd_count_limit ← or_exit 1 (setup_rlimit_nofile os (o_rlimit_nofile o));
  internal_fd_reserve ← internal_fd_reserve o;
  match checked_sub fd_count_limit internal_fd_reserve with
  | Some limit => mret limit
  | None => exit_ 1
  end.

(** [m.unwrap_or_else(|_| process::exit(1))] and [m.unwrap()]. *)
Definition exits {E A} (m : proc W E A) : prog A := fun w =>
  match m w with
  | (w, Ok a) => (w, Ok a)
  | (w, Err (Fails _)) => (w, Err (Exits 1))
  | (w, Err (Exits c)) => (w, Err (Exits c))
  | (w, Panic) => (w, Panic)
  end.
Definition unwraps {E A} (m : proc W E A) : prog A := fun w =>
  match m w with
  | (w, Ok a) => (w, Ok a)
  | (w, Err (Exits c)) => (w, Err (Exits c))
  | (w, _) => (w, Panic)
  end.

Definition enter_sandbox (o : Opt) (shared_dir : bytes) (listener limit : Z) : prog (Config * Z) :=
  let sandbox := sandbox_new shared_dir (o_sandbox o) (o_uid_map o) (o_gid_map o) in
  mountinfo_prefix ← or_exit 1 (get_mountinfo_prefix os is_text sandbox);
  '(sandbox, listener) ← exits (enter os sandbox listener);
  let '(sandbox, proc_self_fd) := get_proc_self_fd sandbox in
  let '(sandbox, mountinfo_fd) := get_mountinfo_fd sandbox in
  mret (fs_cfg o (get_root_dir sandbox) mountinfo_prefix proc_self_fd mountinfo_fd limit, listener).

(** The filter, then the capabilities: on Linux only. *)
Definition restrict (o : Opt) (cfg : Config) : prog unit :=
  match os with
  | HostLinux _ =>
      match o_seccomp o with
      | ActAllow => mret tt
      | a => unwraps (enable_seccomp os gnu a (o_syslog o))
      end;;
      uid ← or_panic (sys SysGeteuid);
      if uid =? 0 then drop_capabilities to_uppercase (inode_file_handles cfg) (o_modcaps o) else mret tt
  | HostMacos => mret tt
  end.

(** [main] up to the sandbox, and up to the file system. *)
Definition gather (o : Opt) : prog (bytes * Z * Z) :=
  set_signal_handlers;;
  shared_dir ← get_shared_dir o;
  check_options o;;
  '(listener, socket_path) ← get_listener o;
  set_socket_group o socket_path;;
  limit ← get_guest_fd_limit o;
  mret (shared_dir, listener, limit).

Definition settle (o : Opt) : prog (bytes * Config * Z) :=
  '(shared_dir, listener, limit) ← gather o;
  '(cfg, listener) ← enter_sandbox o shared_dir listener limit;
  restrict o cfg;;
  mret (shared_dir, cfg, listener).
End Settle.

(** ** The device *)

(** [HostWatcher::new] (src/notify_invalidate/watcher.rs).  [subscribe] stands for the
    watcher of the notify crate.  The count of directories that is logged first is left
    out. *)
Inductive WatcherError := WatcherNotify | WatcherSpawn (e : io_error) | InvalidPath (path : bytes).

Definition CLONE_FS : Z := 512.

Section Run.
Context {W M Mem : Type} `{Host W} `{Process W} `{RangeMap M MapEntry}.
Context (checks : bool) (os : HostOs) (gnu : bool) (to_uppercase : Z -> list Z).
Context (is_text : bytes -> bool) (rounds : nat).
(** The notify crate and the thread pool. *)
Context (subscribe : bytes -> res WatcherError unit) (create : io unit).

Local Notation prog := (proc W Unfinished).
Local Notation device := (VhostUserFsBackend (PassthroughFs W) Mem).

Definition host_watcher_new (shared_dir : bytes) : prog (res WatcherError bytes) :=
  r ← outcome (call (PCanonicalize shared_dir));
  match r with
  | Ok canonical =>
      is_dir ← probe (PIsDir canonical);
      if negb is_dir then mret (Err (InvalidPath canonical))
      else
        (match os with HostLinux _ => warn_if_oversized canonical;; mret tt | HostMacos => mret tt end);;
        mret (_ ← subscribe canonical; Ok canonical)
  | _ => mret (Err (InvalidPath shared_dir))
  end.

(** The file system of the device goes on in the world the process is in. *)
Definition share_world (d : device) : prog device := fun w =>
  let server := t_server (thread d) in
  (w, Ok (set_thread
            (set_t_server {| Server.fs := set_fs_world w (Server.fs server);
                             Server.options := Server.options server |} (thread d)) d)).

(** [build] after the setters; a pool needs unshare(2) to work. *)
Definition try_build (fs : PassthroughFs W) (b : VhostUserFsBackendBuilder) (unshare : io unit)
  : prog device := fun w =>
  match build b fs unshare create with
  | Ok d => (w, Ok d)
  | Err _ => (w, Err (Exits 1))
  | Panic => (w, Panic)
  end.

Definition build_device (fs : PassthroughFs W) (size : Z) (tag : option bytes) (notify : bool)
  : prog device :=
  let b := {| thread_pool_size := 0; b_tag := None; b_notify_invalidate := false |} in
  unshare ← (if 0 <? size then outcome (call (PUnshare CLONE_FS)) else mret (Ok tt));
  try_build fs (set_notify_invalidate notify (set_tag tag (set_thread_pool_size size b))) unshare.

(** Up to the connection of the front end.  A pipeline that does not start is logged. *)
Definition run_generic_fs (fs : PassthroughFs W) (size : Z) (tag : option bytes)
  (notify_pipeline : option bytes) : prog device :=
  d ← build_device fs size tag (bool_decide (is_Some notify_pipeline));
  (match notify_pipeline with
   | Some shared_dir => host_watcher_new shared_dir;; mret tt
   | None => mret tt
   end);;
  share_world d.

(** Which of the wrappers handles requests is up to [o_readonly]. *)
Definition launch (o : Opt) : prog (Setup M * device) :=
  '(shared_dir, cfg, _) ← settle checks os gnu to_uppercase is_text rounds o;
  '(setup, fs) ← or_exit 1 (passthrough_new checks os cfg);
  d ← run_generic_fs (if o_notify_invalidate o then enable_dentry_index fs else fs)
        (o_thread_pool_size o) (o_tag o)
        (if o_notify_invalidate o then Some shared_dir else None);
  mret (setup, d).

(** The options are those clap has parsed; it ends the process with 2. *)
Definition main (o : Opt) : prog (option (Setup M * device)) :=
  match parse_compat o with
  | Ok o => if o_print_capabilities o then mret None else d ← launch o; mret (Some d)
  | Err _ => exit_ 2
  | Panic => panic
  end.
End Run.
