(* ===== verification/StartupSpec.v ===== *)
(** * A daemon that has started

    What holds when src/main.rs gets as far as serving: the limits it has set for itself,
    the capabilities it has kept, where it is confined, which filter is loaded, and that
    its configuration is consistent; and that the descriptors held for its guest then stay
    within the limit of the process.  What the calls do that set limits and capabilities
    is stated in classes, as their manual pages do. *)

From S2P Require Import Prelude OpenFlags Libc FileHandle InodeStore DentryIndex FuseTypes FuseWire.
From S2P Require Import Descriptor SoftIdMap XattrMap Notify FileSystem Host Credentials ReadDir Paths.
From S2P Require Import MountFds Passthrough Ownership PassthroughOps PassthroughSpec Session ReadOnly.
From S2P Require Import Server VhostUser Process WatchScan Sandbox SandboxSpec Seccomp Startup.

(** ** Limits *)

Definition limits_after {A} (c : PCall A) (r : outcome_of A) (l : Z * Z) : Z * Z :=
  match c with
  | PSetrlimitNofile cur max => match r with inr _ => (cur, max) | inl _ => l end
  | _ => l
  end.

(** The soft and the hard limit of open files: only setrlimit(2) changes them. *)
Class Limits (W : Type) `{Host W} `{Process W} := {
  nofile : W -> Z * Z;
  limits_get h h' r : proc_run PGetrlimitNofile h = (h', inr r) -> r = nofile h;
  limits_call A (c : PCall A) h h' r : proc_run c h = (h', r) -> nofile h' = limits_after c r (nofile h);
  limits_sys A (c : Call A) h h' r : host_run c h = (h', r) -> nofile h' = nofile h;
}.

Section Limits.
Context {W : Type} `{Limits W}.
Implicit Types w : world W.

Definition same_limits (h h' : W) : Prop := nofile h' = nofile h.

#[export] Instance same_limits_preorder : PreOrder same_limits.
Proof. unfold same_limits. split; [by intros h|]. intros h1 h2 h3. congruence. Qed.

Lemma call_limits {A} (c : PCall A) w w' r :
  call c w = (w', r) ->
  nofile (host w') = match r with Ok a => limits_after c (inr a) (nofile (host w)) | _ => nofile (host w) end.
Proof.
  unfold call. destruct (proc_run c (host w)) as [h [e|a]] eqn:Hr; intros [= <- <-];
    apply limits_call in Hr; [|done]. simpl. rewrite Hr. by destruct c.
Qed.

Lemma get_max_same os w w' r : get_max_nofile os w = (w', r) -> nofile (host w') = nofile (host w).
Proof.
  unfold get_max_nofile. intros Hr. destruct os; apply eff_bind_inv in Hr as [(a & w1 & Hc & Hr)|[(e & Hc & Hr)|[Hc Hr]]];
    apply call_limits in Hc; simpl in Hc; unfold lift, mret, eff_ret in Hr; simplify_eq/=; done.
Qed.

Lemma get_limits w w' r :
  get_nofile_limits w = (w', r) ->
  nofile (host w') = nofile (host w) /\ (forall l, r = Ok l -> l = nofile (host w)).
Proof.
  intros Hr. split; [apply call_limits in Hr; by destruct r|]. intros l ->. unfold get_nofile_limits, call in Hr.
  destruct (proc_run _ _) as [h [e|a]] eqn:He; [done|]. injection Hr as _ <-. by eapply limits_get.
Qed.

Lemma raise_limit_sets requested target rlim_max w w' r :
  raise_limit requested target rlim_max w = (w', r) ->
  match r with
  | Ok n => nofile (host w') = (n, n) /\ (n = target \/ requested = false /\ n = rlim_max)
  | _ => nofile (host w') = nofile (host w)
  end.
Proof.
  unfold raise_limit, attempt, setup_rlimit_nofile_to, mbind, eff_bind.
  destruct (call (PSetrlimitNofile target target) w) as [w1 r1] eqn:Hc. apply call_limits in Hc.
  destruct r1 as [u|e|]; simpl in Hc.
  - intros [= <- <-]. auto.
  - destruct requested; [by intros [= <- <-]|].
    destruct (call (PSetrlimitNofile rlim_max rlim_max) w1) as [w2 r2] eqn:Hc2. apply call_limits in Hc2.
    destruct r2; simpl in Hc2; intros [= <- <-]; rewrite ?Hc2; auto.
  - by intros [= <- <-].
Qed.

(** What a daemon that asks for [requested] descriptors may find. *)
Definition limit_outcome (requested : option Z) (before after : Z * Z) (r : io Z) : Prop :=
  match r with
  | Ok n =>
      n = after.1 /\
      match requested with
      | Some k => if k =? 0 then after = before else after = (k, k)
      | None =>
          after = before /\ DEFAULT_NOFILE <= n \/
          after = (n, n) /\ (n <= DEFAULT_NOFILE \/ n = before.2)
      end
  | _ => after = before
  end.

Lemma setup_rlimit_sets os requested w w' r :
  setup_rlimit_nofile os requested w = (w', r) ->
  limit_outcome requested (nofile (host w)) (nofile (host w')) r.
Proof.
  intros Hr. unfold setup_rlimit_nofile in Hr.
  apply eff_bind_inv in Hr as [(w1 & max & Hm & Hr)|[(e & Hm & ->)|[Hm ->]]]; apply get_max_same in Hm; [|done..].
  apply eff_bind_inv in Hr as [(w2 & [cur hard] & Hg & Hr)|[(e & Hg & ->)|[Hg ->]]];
    apply get_limits in Hg as [Hg Hl]; [|simpl; congruence..].
  specialize (Hl _ eq_refl). rewrite Hm in *.
  assert (Hsame : forall r', (w2, r') = (w', r) -> (forall n, r' <> Ok n) ->
    limit_outcome requested (nofile (host w)) (nofile (host w')) r).
  { intros r' [= <- <-] Hn. by destruct r'; [edestruct Hn|..]. }
  destruct requested as [k|].
  - simpl. destruct (k =? 0) eqn:Hk.
    { injection Hr as <- <-. simpl. rewrite Hg, <- Hl, Hk. done. }
    destruct (max <? k); [by eapply Hsame|]. apply raise_limit_sets in Hr.
    destruct r as [n|e|]; [|simpl; congruence..]. destruct Hr as [Ha [->|[? _]]]; [|done].
    simpl. by rewrite Ha, Hk.
  - destruct (DEFAULT_NOFILE <=? cur) eqn:Hd.
    { injection Hr as <- <-. simpl. rewrite Hg, <- Hl. simpl. split; [done|]. left. split; [done|]. by apply Z.leb_le. }
    destruct (max <? _); [by eapply Hsame|]. apply raise_limit_sets in Hr.
    destruct r as [n|e|]; [|simpl; congruence..]. destruct Hr as [Ha Hn]. simpl. rewrite Ha. split; [done|].
    right. split; [done|]. rewrite <- Hl. simpl. destruct Hn as [->|[_ ->]]; [left; lia|by right].
Qed.

(** C24: the number of descriptors the daemon reckons with is the limit in force.  Whatever
    the calls answer: when [setup_rlimit_nofile] returns a number, it is the soft limit of
    the process; a limit that was asked for is the one set, zero leaves the limits alone,
    and without a wish a soft limit of a million or more is left alone and otherwise both
    limits become at most a million, or the old hard limit.  When it fails the limits
    are what they were. *)
Theorem limit_in_force os requested w :
  limit_outcome requested (nofile (host w)) (nofile (host (setup_rlimit_nofile os requested w).1))
    (setup_rlimit_nofile os requested w).2.
Proof. destruct (setup_rlimit_nofile os requested w) as [w' r] eqn:Hr. by apply setup_rlimit_sets in Hr. Qed.
End Limits.

(** ** Capabilities *)

(** libcap-ng: a set under construction and the permitted and effective set of the
    process.  None of this changes the user. *)
Class Capabilities (W node : Type) `{Process W} `{Views W node} := {
  staged : W -> gset (list Z);
  held : W -> gset (list Z);
  clear_effect h h' r : proc_run PCapClear h = (h', r) -> staged h' = ∅ /\ euid h' = euid h;
  update_effect caps h h' u : proc_run (PCapUpdatev caps) h = (h', inr u) ->
    staged h' = staged h ∪ list_to_set caps /\ euid h' = euid h;
  apply_effect h h' u : proc_run PCapApply h = (h', inr u) -> held h' = staged h /\ euid h' = euid h;
  name_effect name h h' r : proc_run (PCapName name) h = (h', r) -> euid h' = euid h;
}.

(** A list of changes, as [--modcaps] has them. *)
Definition modcap_of (to_uppercase : Z -> list Z) (modcap : list Z) : bool * list Z :=
  match modcap with
  | action :: cap_name => (bool_decide ([action] = text "+"), cap_name ≫= to_uppercase)
  | [] => (false, [])
  end.

Definition changes (to_uppercase : Z -> list Z) (modcaps : option (list Z)) : list (bool * list Z) :=
  match modcaps with
  | Some modcaps => modcap_of to_uppercase <$> split_on colon modcaps
  | None => []
  end.

Fixpoint last_change (cap : list Z) (l : list (bool * list Z)) (before : option bool) : option bool :=
  match l with
  | [] => before
  | (add, name) :: l => last_change cap l (if decide (name = cap) then Some add else before)
  end.

(** The capabilities a daemon is to keep. *)
Definition keeps_cap (to_uppercase : Z -> list Z) (handles : InodeFileHandlesMode)
  (modcaps : option (list Z)) (cap : list Z) : Prop :=
  match last_change cap (changes to_uppercase modcaps) None with
  | Some add => add = true
  | None => cap ∈ default_caps \/ handles <> HandlesNever /\ cap = DAC_READ_SEARCH
  end.

Lemma fold_caps cap l r d m :
  match m with Some true => cap ∈ r /\ cap ∉ d | Some false => (cap ∉ r) /\ cap ∈ d | None => cap ∉ d end ->
  let '(r', d') := foldl modify_caps (r, d) l in
  match last_change cap l m with
  | Some true => cap ∈ r' /\ cap ∉ d'
  | Some false => (cap ∉ r') /\ cap ∈ d'
  | None => (cap ∈ r' <-> cap ∈ r) /\ (cap ∉ d') /\ m = None
  end.
Proof.
  revert r d m. induction l as [|[add name] l IH]; intros r d m Hm; cbn; [by destruct m as [[]|]|].
  destruct add; [specialize (IH ({[name]} ∪ r) (d ∖ {[name]}) (if decide (name = cap) then Some true else m))
                |specialize (IH (r ∖ {[name]}) ({[name]} ∪ d) (if decide (name = cap) then Some false else m))];
    destruct (foldl modify_caps _ l) as [r' d'], (decide (name = cap)) as [->|]; destruct m as [[]|];
    destruct (last_change _ _ _) as [[]|]; set_solver.
Qed.

Section Capabilities.
Context {W node : Type} `{Host W} `{Capabilities W node}.
Context (to_uppercase : Z -> list Z).
Implicit Types w : world W.

Definition same_user (h h' : W) : Prop := euid h' = euid h.

Lemma parse_modcap_ok modcap w w' m :
  parse_modcap to_uppercase modcap w = (w', Ok m) -> m = modcap_of to_uppercase modcap /\ same_user (host w) (host w').
Proof.
  destruct modcap as [|action name]; simpl; [done|]. destruct (128 <=? action); [done|].
  destruct (negb _); [done|]. intros Hr. apply proc_bind_inv in Hr as (w1 & [] & Hc & Hr).
  apply or_exit_ok in Hc. apply proc_ret_ok in Hr as [-> ->]. split; [done|]. unfold call in Hc.
  destruct (proc_run _ _) as [h o] eqn:He. apply name_effect in He. by injection Hc as <- _.
Qed.

Lemma parse_each_modcap_ok l sets w w' sets' :
  parse_each_modcap to_uppercase l sets w = (w', Ok sets') ->
  sets' = foldl modify_caps sets (modcap_of to_uppercase <$> l) /\ same_user (host w) (host w').
Proof.
  revert sets w. induction l as [|m l IH]; intros sets w Hr; simpl in Hr.
  - by apply proc_ret_ok in Hr as [-> ->].
  - apply proc_bind_inv in Hr as (w1 & c & Hc & Hr). apply parse_modcap_ok in Hc as [-> Hu].
    apply IH in Hr as [-> Hu']. split; [done|]. unfold same_user in *. congruence.
Qed.

Lemma required_caps_ok handles modcaps w w' caps :
  required_caps to_uppercase handles modcaps w = (w', Ok caps) ->
  (forall cap, cap ∈ caps <-> keeps_cap to_uppercase handles modcaps cap) /\
  (handles <> HandlesNever -> DAC_READ_SEARCH ∈ caps) /\ same_user (host w) (host w').
Proof.
  intros Hr. unfold required_caps in Hr. apply proc_bind_inv in Hr as (w1 & [r d] & Hp & Hr).
  assert (Hp' : (r, d) = foldl modify_caps (list_to_set default_caps, ∅) (changes to_uppercase modcaps) /\
    same_user (host w) (host w1)).
  { unfold parse_modcaps in Hp. destruct modcaps as [l|]; [by apply parse_each_modcap_ok in Hp|].
    by apply proc_ret_ok in Hp as [-> ->]. }
  destruct Hp' as [Hf Hu].
  assert (Hc : forall cap, match last_change cap (changes to_uppercase modcaps) None with
    | Some true => cap ∈ r /\ cap ∉ d | Some false => (cap ∉ r) /\ cap ∈ d
    | None => (cap ∈ r <-> cap ∈ default_caps) /\ cap ∉ d end).
  { intros cap. pose proof (fold_caps cap (changes to_uppercase modcaps) (list_to_set default_caps) ∅ None) as Hc.
    rewrite <- Hf in Hc. specialize (Hc ltac:(set_solver)).
    destruct (last_change _ _ _) as [[]|]; [done..|]. destruct Hc as (Hc & Hcd & _). split; [|done]. by rewrite Hc, elem_of_list_to_set. }
  unfold keeps_cap. case_decide as Hn; [|case_decide as Hd; [done|]]; apply proc_ret_ok in Hr as [-> ->].
  - split_and!; [|done..]. intros cap. specialize (Hc cap). destruct (last_change _ _ _) as [[]|]; naive_solver.
  - split_and!; [|set_solver|done]. intros cap. specialize (Hc cap). rewrite elem_of_union, elem_of_singleton.
    destruct (decide (cap = DAC_READ_SEARCH)) as [->|]; destruct (last_change _ _ _) as [[]|]; naive_solver.
Qed.

Lemma drop_capabilities_ok handles modcaps w w' u :
  drop_capabilities to_uppercase handles modcaps w = (w', Ok u) ->
  (forall cap, cap ∈ held (host w') <-> keeps_cap to_uppercase handles modcaps cap) /\
  (handles <> HandlesNever -> DAC_READ_SEARCH ∈ held (host w')) /\ same_user (host w) (host w').
Proof.
  intros Hr. unfold drop_capabilities in Hr. apply proc_bind_inv in Hr as (w1 & caps & Hp & Hr).
  apply required_caps_ok in Hp as (Hcaps & Hdac & Hu).
  apply proc_bind_inv in Hr as (w2 & r & Hc & Hr). apply outcome_ok in Hc.
  apply proc_bind_inv in Hr as (w3 & [] & Hup & Ha). apply or_exit_ok in Hup, Ha. unfold call in *.
  destruct (proc_run PCapClear (host w1)) as [h1 o1] eqn:E1. apply clear_effect in E1 as [Hs1 Hu1].
  injection Hc as <- _. simpl in Hup.
  destruct (proc_run (PCapUpdatev _) h1) as [h2 [e|o2]] eqn:E2; [done|]. apply update_effect in E2 as [Hs2 Hu2].
  injection Hup as <-. simpl in Ha.
  destruct (proc_run PCapApply h2) as [h3 [e|o3]] eqn:E3; [done|]. apply apply_effect in E3 as [Hs3 Hu3].
  injection Ha as <- _. simpl. unfold same_user in *. rewrite Hs3, Hs2, Hs1, list_to_set_elements_L, (left_id_L ∅ (∪)).
  split_and!; [done..|congruence].
Qed.
End Capabilities.

(** ** Hardening *)

Section Goes.
Context {W : Type} `{Host W} `{Process W} (R : W -> W -> Prop) `{HR : !PreOrder R}.

Lemma goes_closing {E A} fd (m : proc W E A) :
  respects (fun w w' => R (host w) (host w')) (close (W := W) fd) -> goes R m -> goes R (closing fd m).
Proof.
  intros Hc Hm w. specialize (Hm w). unfold closing. destruct (m w) as [w1 r]. simpl in Hm.
  specialize (Hc w1). destruct r as [a|[e|c]|]; simpl in *; [by etrans..|done|by etrans].
Qed.

Lemma goes_c_string {E} s : goes R (c_string s : proc W E bytes).
Proof. unfold c_string. case_decide; [apply goes_panic|apply goes_ret]; apply _. Qed.

Lemma goes_exits {E A} (m : proc W E A) : goes R m -> goes R (exits m).
Proof. intros Hm w. specialize (Hm w). unfold exits. by destruct (m w) as [w1 [a|[e|c]|]]. Qed.

Lemma goes_unwraps {E A} (m : proc W E A) : goes R m -> goes R (unwraps m).
Proof. intros Hm w. specialize (Hm w). unfold unwraps. by destruct (m w) as [w1 [a|[e|c]|]]. Qed.

Lemma goes_scan {E} fuel : forall count stack,
  (forall dir, respects (fun w w' => R (host w) (host w')) (call (W := W) (PReadDir dir))) ->
  goes R (scan fuel count stack : proc W E (option Z)).
Proof.
  induction fuel as [|fuel IH]; intros count [|dir stack] Hc; cbn [scan];
    try (apply goes_ret; exact _); destruct (SCAN_CAP <=? count); try (apply goes_ret; exact _).
  apply goes_bind; [exact _|by apply goes_outcome|intros [entries|e|]; [|by apply IH..]].
  destruct (scan_entries count stack entries). by apply IH.
Qed.
End Goes.

(** [goes_through] follows the definitions of a computation down to its calls, which
    [calls] deals with. *)
Ltac goes_through calls :=
  repeat lazymatch goal with
  | |- forall _, _ => intros ?
  | |- goes _ (mret _) => apply goes_ret; exact _
  | |- goes _ (fail _) => apply goes_fail; exact _
  | |- goes _ (exit_ _) => apply goes_exit; exact _
  | |- goes _ panic => apply goes_panic; exact _
  | |- goes _ (assert_ _) => apply goes_assert; exact _
  | |- goes _ (c_string _) => apply goes_c_string; exact _
  | |- goes _ (mbind _ _) => apply goes_bind; [exact _| |intros ?]
  | |- goes _ (or_fail _ _) => apply goes_or_fail
  | |- goes _ (or_panic _) => apply goes_or_panic
  | |- goes _ (or_exit _ _) => apply goes_or_exit
  | |- goes _ (outcome _) => apply goes_outcome
  | |- goes _ (caught _) => apply goes_caught
  | |- goes _ (exits _) => apply goes_exits
  | |- goes _ (unwraps _) => apply goes_unwraps
  | |- goes _ (closing _ _) => apply goes_closing; [exact _| |]
  | |- goes _ (scan _ _ _) => apply goes_scan; [exact _|]
  | |- goes _ (match ?x with _ => _ end) => destruct x
  | |- goes _ (let _ := _ in _) => cbv zeta
  | |- goes _ ?m => let f := head_of m in progress unfold f
  | |- respects _ (call _) => calls
  | |- respects _ (sys _) => calls
  | |- respects _ (mbind _ _) => apply respects_bind; [exact _| |intros ?]
  | |- respects _ (match ?x with _ => _ end) => destruct x
  | |- respects _ ?m =>
      first [progress respect | let f := head_of m in progress unfold f]
  end.

(** What a computation returns, if it does. *)
Section Yields.
Context {W E : Type} `{Host W}.

Definition yields {A} (P : A -> Prop) (m : proc W E A) : Prop := forall w w' a, m w = (w', Ok a) -> P a.

Lemma yields_ret {A} (P : A -> Prop) a : P a -> yields P (mret a).
Proof. by intros Ha w w' b [_ ->]%proc_ret_ok. Qed.
Lemma yields_bind {A B} (P : B -> Prop) (m : proc W E A) k :
  (forall a, yields P (k a)) -> yields P (a ← m; k a).
Proof. intros Hk w w' b (w1 & a & _ & Hr)%proc_bind_inv. by eapply Hk. Qed.
Lemma yields_then {A B} (Q : A -> Prop) (P : B -> Prop) (m : proc W E A) k :
  yields Q m -> (forall a, Q a -> yields P (k a)) -> yields P (a ← m; k a).
Proof. intros Hm Hk w w' b (w1 & a & Ha%Hm & Hr)%proc_bind_inv. by eapply Hk. Qed.
Lemma yields_closing {A} (P : A -> Prop) fd (m : proc W E A) : yields P m -> yields P (closing fd m).
Proof.
  intros Hm w w' a. unfold closing. destruct (m w) as [w1 [b|[e|c]|]] eqn:Hr; intros [= _ <-]. by eapply Hm.
Qed.
End Yields.

(** [enter] changes only the descriptors of a sandbox. *)
Section SameSandbox.
Context {W : Type} `{Host W} `{Process W}.

Definition same_sandbox (sb sb' : Sandbox) : Prop :=
  sandbox_mode sb' = sandbox_mode sb /\ sb_shared_dir sb' = sb_shared_dir sb.

Ltac yields_through :=
  repeat lazymatch goal with
  | |- forall _, _ => intros ?
  | |- yields _ (mret _) => apply yields_ret
  | |- yields _ (exit_ _) => by intros ???
  | |- yields _ (fail _) => by intros ???
  | |- yields _ panic => by intros ???
  | |- yields _ (mbind _ (setup_mounts _ _)) => eapply yields_then; [eassumption|]
  | |- yields _ (mbind _ (enter_chroot _ _)) => eapply yields_then; [eassumption|]
  | |- yields _ (mbind _ _) => apply yields_bind; intros ?
  | |- yields _ (closing _ _) => apply yields_closing
  | |- yields _ (match ?x with _ => _ end) => destruct x
  | |- yields _ (let _ := _ in _) => cbv zeta
  | |- yields _ ?m => let f := head_of m in progress unfold f
  end.

Lemma yields_setup_mounts os sb : yields (same_sandbox sb) (setup_mounts (W := W) os sb).
Proof. yields_through. done. Qed.

Lemma yields_enter_chroot os sb : yields (same_sandbox sb) (enter_chroot (W := W) os sb).
Proof.
  unfold enter_chroot. apply (yields_then (same_sandbox sb)); [yields_through; done|].
  intros sb' Hs. yields_through. done.
Qed.

Lemma yields_enter os sb listener :
  yields (fun r : Sandbox * Z => same_sandbox sb r.1) (enter (W := W) os sb listener).
Proof.
  pose proof (yields_setup_mounts os sb). pose proof (yields_enter_chroot os sb). yields_through; done.
Qed.
End SameSandbox.

(** The calls of [restrict]. *)
Definition cap_call {A} (c : PCall A) : bool :=
  match c with PCapClear | PCapUpdatev _ | PCapApply | PCapName _ => true | _ => false end.
Definition filter_call {A} (c : PCall A) : bool :=
  match c with PSeccompInit _ | PSeccompAllow _ | PSeccompLoad | PSeccompRelease => true | _ => false end.

Section Restricting.
Context {W : Type} `{Host W} `{Process W} (R : W -> W -> Prop) `{HR : !PreOrder R}.

Local Notation runs m := (respects (fun w w' : world W => R (host w) (host w')) m).

Lemma goes_enable os gnu a log :
  (forall A (c : PCall A), filter_call c = true -> runs (call c)) ->
  goes R (enable_seccomp (W := W) os gnu a log).
Proof.
  intros Hcall. assert (Hall : forall l, goes R (allow_all (W := W) l)).
  { intros l. induction l; simpl; goes_through ltac:(by apply Hcall); done. }
  unfold enable_seccomp. destruct os; [|apply goes_ret; exact _]. generalize (allowed_syscalls arch gnu log).
  intros l. repeat (apply goes_bind; [exact _| |intros ?]); try apply Hall; goes_through ltac:(by apply Hcall).
Qed.

Lemma goes_drop_capabilities up mode modcaps :
  (forall A (c : PCall A), cap_call c = true -> runs (call c)) ->
  goes R (drop_capabilities (W := W) up mode modcaps).
Proof.
  intros Hcall. assert (Hall : forall l sets, goes R (parse_each_modcap (W := W) up l sets)).
  { intros l. induction l; intros sets; simpl; goes_through ltac:(by apply Hcall); done. }
  unfold drop_capabilities, required_caps, parse_modcaps.
  apply goes_bind; [exact _| |goes_through ltac:(by apply Hcall)].
  apply goes_bind; [exact _| |goes_through ltac:(by apply Hcall)].
  destruct modcaps; [apply Hall|apply goes_ret; exact _].
Qed.

Lemma goes_restrict os gnu up o c :
  runs (sys SysGeteuid) ->
  (forall A (c : PCall A), cap_call c || filter_call c = true -> runs (call c)) ->
  goes R (restrict (W := W) os gnu up o c).
Proof.
  intros Hsys Hcall. unfold restrict. destruct os; [|apply goes_ret; exact _].
  apply goes_bind; [exact _| |intros ?].
  - destruct (o_seccomp o); [apply goes_ret; exact _|apply goes_unwraps, goes_enable..];
      intros A pc Hc; apply Hcall; rewrite Hc; apply orb_true_r.
  - apply goes_bind; [exact _|by apply goes_or_panic|intros uid].
    destruct (uid =? 0); [|apply goes_ret; exact _].
    apply goes_drop_capabilities. intros A pc Hc. apply Hcall. by rewrite Hc.
Qed.
End Restricting.

Section Limited.
Context {W : Type} `{Limits W}.

Definition limited (w w' : world W) : Prop := same_limits (host w) (host w').

#[export] Instance limited_preorder : PreOrder limited.
Proof. unfold limited. split; [by intros w|]. intros w1 w2 w3. apply transitivity. Qed.

Lemma limited_sys {A} (c : Call A) : respects limited (sys c).
Proof. intros w. unfold sys. destruct (host_run c (host w)) as [h r] eqn:Hr. by apply limits_sys in Hr. Qed.

Definition sets_limits {A} (c : PCall A) : bool := match c with PSetrlimitNofile _ _ => true | _ => false end.

Lemma limited_call {A} (c : PCall A) : sets_limits c = false -> respects limited (call c).
Proof.
  intros Hc w. destruct (call c w) as [w' r] eqn:Hr. apply call_limits in Hr. unfold limited, same_limits.
  destruct r; [|done..]. by destruct c.
Qed.

Ltac limited_calls := first [apply limited_sys|apply limited_call; reflexivity].

Lemma limited_enter_sandbox os is_text o dir listener limit :
  goes same_limits (enter_sandbox (W := W) os is_text o dir listener limit).
Proof. goes_through limited_calls. Qed.

Lemma limited_restrict os gnu up o c : goes same_limits (restrict (W := W) os gnu up o c).
Proof. apply goes_restrict; [exact _|apply limited_sys|]. intros A pc Hc. apply limited_call. by destruct pc. Qed.
End Limited.

Section Hardened.
Context {W node : Type} `{Kernel W node} `{!Filtering W} `{!Limits W} `{!Capabilities W node}.
Context (checks : bool) (arch : GuestArch) (gnu : bool) (to_uppercase : Z -> list Z).
Context (is_text : bytes -> bool) (rounds : nat).

Local Notation linux := (HostLinux arch).

Definition same_filter (h h' : W) : Prop := loaded h' = loaded h.

#[local] Instance same_filter_preorder : PreOrder same_filter.
Proof. unfold same_filter. split; [by intros h|]. intros h1 h2 h3. congruence. Qed.

Lemma quiet_restrict o c : goes quiet (restrict (W := W) linux gnu to_uppercase o c).
Proof.
  apply goes_restrict; [exact _|by apply quietly_sys; simpl; intros; naive_solver|].
  intros A pc Hc. apply quietly_call. intros h h' r. by destruct pc.
Qed.

Lemma same_filter_caps mode modcaps : goes same_filter (drop_capabilities (W := W) to_uppercase mode modcaps).
Proof.
  apply goes_drop_capabilities; [exact _|]. intros A c Hc w. unfold call.
  destruct (proc_run c (host w)) as [h r] eqn:Hr. apply other_effect in Hr; [done|by destruct c].
Qed.

Lemma restrict_ok o c w w' u :
  restrict linux gnu to_uppercase o c w = (w', Ok u) ->
  (o_seccomp o <> ActAllow ->
     loaded (host w') = Some (action_value (o_seccomp o), allowed_syscalls arch gnu (o_syslog o))) /\
  (euid (host w') = 0 ->
     (forall cap, cap ∈ held (host w') <-> keeps_cap to_uppercase (inode_file_handles c) (o_modcaps o) cap) /\
     (inode_file_handles c <> HandlesNever -> DAC_READ_SEARCH ∈ held (host w'))).
Proof.
  intros Hr. unfold restrict in Hr. apply proc_bind_inv in Hr as (w1 & [] & He & Hr).
  apply proc_bind_inv in Hr as (w2 & uid & Hu & Hr). apply or_panic_ok in Hu.
  assert (Hl2 : loaded (host w2) = loaded (host w1)).
  { unfold sys in Hu. destruct (host_run _ _) as [h r] eqn:Hh. injection Hu as <- _. by eapply request_effect. }
  apply sys_ok_inv in Hu. simpl in Hu. destruct Hu as (_ & _ & Hsame & [= Heq]).
  assert (Hl3 : loaded (host w') = loaded (host w2)).
  { destruct (uid =? 0); [|by apply proc_ret_ok in Hr as [-> _]].
    pose proof (same_filter_caps (inode_file_handles c) (o_modcaps o) w2) as Hk. by rewrite Hr in Hk. }
  split.
  - intros Ha. rewrite Hl3, Hl2. destruct (o_seccomp o) eqn:Hs; [done|..]; unfold unwraps in He;
      destruct (enable_seccomp linux gnu _ (o_syslog o) w) as [w0 [[]|[]|]] eqn:Hen; simplify_eq;
      by apply enable_seccomp_loads in Hen.
  - intros Hz. destruct (uid =? 0) eqn:Huid.
    + apply drop_capabilities_ok in Hr as (Hcaps & Hdac & _). done.
    + apply proc_ret_ok in Hr as [-> _]. exfalso. lia.
Qed.

(** What [main] has checked before it enters the sandbox. *)
Lemma check_options_ok o (w w' : world W) u :
  check_options o w = (w', Ok u) ->
  (o_migration_mode o = FileHandles ->
     o_migration_confirm_paths o = false /\ o_migration_verify_handles o = false) /\
  (o_posix_acl o <> NegNever -> o_translate_uid o = [] /\ o_translate_gid o = []).
Proof.
  intros Hr. unfold check_options in Hr. apply proc_bind_inv in Hr as (w1 & [] & Hm & Hr). split.
  - intros Hmode. rewrite Hmode in Hm. by destruct (o_migration_confirm_paths o), (o_migration_verify_handles o).
  - intros Ha. rewrite (bool_decide_eq_false_2 _ Ha) in Hr. simpl in Hr.
    by destruct (o_translate_uid o), (o_translate_gid o).
Qed.

Lemma get_guest_fd_limit_ok os o (w w' : world W) limit :
  o_thread_pool_size o <= u64_max - INTERNAL_FD_RESERVE ->
  get_guest_fd_limit checks os o w = (w', Ok limit) ->
  0 <= limit /\ limit + INTERNAL_FD_RESERVE + Z.max (o_thread_pool_size o) 1 = (nofile (host w')).1.
Proof.
  intros Hsize Hr. unfold get_guest_fd_limit in Hr. apply proc_bind_inv in Hr as (w1 & n & Hl & Hr).
  apply or_exit_ok in Hl. apply setup_rlimit_sets in Hl as [Hn _].
  apply proc_bind_inv in Hr as (w2 & reserve & Hi & Hr). unfold internal_fd_reserve, plain_add in Hi.
  rewrite (proj2 (Z.leb_le _ _)) in Hi by (unfold u64_max, INTERNAL_FD_RESERVE, MAX_MEM_SLOTS in *; lia).
  injection Hi as <- <-. unfold checked_sub in Hr. destruct (_ <=? n) eqn:Hle; [|done].
  apply proc_ret_ok in Hr as [-> ->]. apply Z.leb_le in Hle. rewrite Hn in *. lia.
Qed.

Lemma gather_dir os o (w w' : world W) dir listener limit :
  gather checks os rounds o w = (w', Ok (dir, listener, limit)) -> o_shared_dir o = Some dir.
Proof.
  intros Hr. unfold gather in Hr. apply proc_bind_inv in Hr as (w1 & [] & _ & Hr).
  apply proc_bind_inv in Hr as (w2 & d & Hd & Hr).
  assert (d = dir) as ->.
  { apply proc_bind_inv in Hr as (? & [] & _ & Hr). apply proc_bind_inv in Hr as (? & [] & _ & Hr).
    do 2 apply proc_bind_inv in Hr as (? & ? & _ & Hr). by apply proc_ret_ok in Hr as [_ [= -> _ _]]. }
  unfold get_shared_dir in Hd. destruct (o_shared_dir o) as [d'|]; [|done].
  apply proc_bind_inv in Hd as (? & [] & _ & Hd); [by apply proc_ret_ok in Hd as [_ ->]|].
  apply proc_bind_inv in Hd as (? & [] & _ & Hd); [by apply proc_ret_ok in Hd as [_ ->]|done].
Qed.

Lemma gather_ok os o (w w' : world W) dir listener limit :
  o_thread_pool_size o <= u64_max - INTERNAL_FD_RESERVE ->
  gather checks os rounds o w = (w', Ok (dir, listener, limit)) ->
  o_shared_dir o = Some dir /\ 0 <= limit /\
  limit + INTERNAL_FD_RESERVE + Z.max (o_thread_pool_size o) 1 = (nofile (host w')).1 /\
  (o_migration_mode o = FileHandles ->
     o_migration_confirm_paths o = false /\ o_migration_verify_handles o = false) /\
  (o_posix_acl o <> NegNever -> o_translate_uid o = [] /\ o_translate_gid o = []).
Proof.
  intros Hsize Hr. pose proof (gather_dir _ _ _ _ _ _ _ Hr) as Hd. unfold gather in Hr.
  apply proc_bind_inv in Hr as (w1 & [] & _ & Hr). apply proc_bind_inv in Hr as (w2 & d & _ & Hr).
  apply proc_bind_inv in Hr as (w3 & [] & Hc & Hr). apply check_options_ok in Hc as [Hmig Hacl].
  apply proc_bind_inv in Hr as (w4 & [l sp] & _ & Hr). apply proc_bind_inv in Hr as (w5 & [] & _ & Hr).
  apply proc_bind_inv in Hr as (w6 & n & Hl & Hr). apply proc_ret_ok in Hr as [-> [= -> -> ->]].
  apply get_guest_fd_limit_ok in Hl as [Hn Hl]; [by split_and!|done].
Qed.

Lemma enter_sandbox_ok o dir listener limit w w' c listener' :
  ~ text "/proc" `prefix_of` dir ->
  enter_sandbox linux is_text o dir listener limit w = (w', Ok (c, listener')) ->
  placed (o_sandbox o) (host w) (host w') dir /\ listener' = listener /\
  nofile (host w') = nofile (host w) /\
  exists prefix proc_self_fd mountinfo_fd,
    c = fs_cfg o (match o_sandbox o with NoSandbox => dir | _ => text "/" end) prefix proc_self_fd
          mountinfo_fd limit.
Proof.
  intros Hd Hr. pose proof (limited_enter_sandbox linux is_text o dir listener limit w) as Hlim.
  rewrite Hr in Hlim. unfold enter_sandbox in Hr. apply proc_bind_inv in Hr as (w1 & prefix & Hp & Hr).
  apply or_exit_ok in Hp.
  assert (Hq : quiet (host w) (host w1) /\ euid (host w1) = euid (host w)).
  { unfold get_mountinfo_prefix in Hp. simpl in Hp. destruct (o_sandbox o); [by injection Hp as -> _| |by injection Hp as -> _].
    apply eff_bind_inv_ok in Hp as (w2 & p & Hc & Hp). apply call_ok_inv in Hc. simpl in Hc.
    by destruct (is_text p); [injection Hp as -> _|]. }
  apply proc_bind_inv in Hr as (w2 & [sb l] & He & Hr). unfold exits in He.
  destruct (enter linux _ listener w1) as [w3 [r|[e|e]|]] eqn:Hent; simplify_eq.
  pose proof (yields_enter _ _ _ _ _ _ Hent) as [Hmode Hdir].
  apply enter_places in Hent as (Hpl & Hl & _); [|done]. simpl in *.
  apply proc_ret_ok in Hr as [-> [= -> ->]]. split_and!; [|done..|].
  - destruct Hq as [Hq Heu]. by apply (placed_from _ _ _ _ _ Hq Heu).
  - unfold get_root_dir. simpl. rewrite Hmode, Hdir. by destruct (o_sandbox o); do 3 eexists.
Qed.

Lemma settle_ok o w w' dir c listener :
  ~ text "/proc" `prefix_of` dir ->
  settle checks linux gnu to_uppercase is_text rounds o w = (w', Ok (dir, c, listener)) ->
  exists w1 limit, gather checks linux rounds o w = (w1, Ok (dir, listener, limit)) /\
    placed (o_sandbox o) (host w1) (host w') dir /\ nofile (host w') = nofile (host w1) /\
    (exists w2, restrict linux gnu to_uppercase o c w2 = (w', Ok tt)) /\
    exists prefix proc_self_fd mountinfo_fd,
      c = fs_cfg o (match o_sandbox o with NoSandbox => dir | _ => text "/" end) prefix proc_self_fd
            mountinfo_fd limit.
Proof.
  intros Hd Hr. unfold settle in Hr. apply proc_bind_inv in Hr as (w1 & [[d l] limit] & Hg & Hr).
  apply proc_bind_inv in Hr as (w2 & [c' l'] & He & Hr). apply proc_bind_inv in Hr as (w3 & [] & Hres & Hr).
  apply proc_ret_ok in Hr as [-> [= -> -> ->]]. apply enter_sandbox_ok in He as (Hp & -> & Hn & Hc); [|done].
  exists w1, limit. split_and!; [done| | |by exists w2|done].
  - eapply placed_quiet; [done|]. pose proof (quiet_restrict o c' w2) as Hq. by rewrite Hres in Hq.
  - rewrite <- Hn. pose proof (limited_restrict linux gnu to_uppercase o c' w2) as Hq. by rewrite Hres in Hq.
Qed.

Lemma settle_shared_dir o w w' dir c listener :
  settle checks linux gnu to_uppercase is_text rounds o w = (w', Ok (dir, c, listener)) ->
  o_shared_dir o = Some dir.
Proof.
  intros Hr. unfold settle in Hr. apply proc_bind_inv in Hr as (w1 & [[d l] limit] & Hg & Hr).
  apply proc_bind_inv in Hr as (w2 & [c' l'] & _ & Hr). apply proc_bind_inv in Hr as (w3 & [] & _ & Hr).
  apply proc_ret_ok in Hr as [-> [= -> -> ->]]. by apply gather_dir in Hg.
Qed.

(** C8: a daemon that gets as far as its file system is hardened.  If [main] has come
    through its preparations on Linux, whatever the calls answered: the process is in the
    shared directory as the sandbox mode says, and stays there while the restrictions
    are set up; the filter with the action of [--seccomp] is loaded, unless that is
    none; and if the process is root its capabilities are exactly the default ones as
    changed by [--modcaps], the last mention of one deciding, with the one that opens file
    handles if handles are to be used. *)
Theorem startup_hardened o w w' dir c listener :
  ~ text "/proc" `prefix_of` dir ->
  settle checks linux gnu to_uppercase is_text rounds o w = (w', Ok (dir, c, listener)) ->
  (exists w1 limit, gather checks linux rounds o w = (w1, Ok (dir, listener, limit)) /\
     placed (o_sandbox o) (host w1) (host w') dir) /\
  (o_seccomp o <> ActAllow ->
     loaded (host w') = Some (action_value (o_seccomp o), allowed_syscalls arch gnu (o_syslog o))) /\
  (euid (host w') = 0 ->
     (forall cap, cap ∈ held (host w') <->
        keeps_cap to_uppercase (handles_mode (o_inode_file_handles o)) (o_modcaps o) cap) /\
     (handles_mode (o_inode_file_handles o) <> HandlesNever -> DAC_READ_SEARCH ∈ held (host w'))).
Proof.
  intros Hd Hr. apply settle_ok in Hr as (w1 & limit & Hg & Hp & _ & [w2 Hres] & (? & ? & ? & ->)); [|done].
  apply restrict_ok in Hres as [Hl Hc]. split_and!; [by exists w1, limit|done..].
Qed.

(** C23: the configuration such a daemon serves with is consistent.  The descriptors left to
    the guest and those the daemon keeps for itself, one for each thread among them, are
    the limit of the process in force; access control lists are not combined with
    translated IDs, and they, security labels and attribute maps come with extended
    attributes; migration by file handles needs no confirmation of paths; without a cache
    the guest is told to keep nothing; and the root is that of the sandbox.  (For a shared
    directory outside /proc, and a thread count that does not overflow 64 bits with the
    reserve: the sum is not checked.) *)
Theorem startup_consistent o w w' dir c listener :
  o_thread_pool_size o <= u64_max - INTERNAL_FD_RESERVE -> ~ text "/proc" `prefix_of` dir ->
  settle checks linux gnu to_uppercase is_text rounds o w = (w', Ok (dir, c, listener)) ->
  0 <= guest_fd_limit c /\
  guest_fd_limit c + INTERNAL_FD_RESERVE + Z.max (o_thread_pool_size o) 1 = (nofile (host w')).1 /\
  (cfg_posix_acl c <> NegNever -> cfg_uid_map c = Some [] /\ cfg_gid_map c = Some []) /\
  (cfg_posix_acl c <> NegNever \/ security_label c <> NegNever \/ is_Some (xattrmap c) -> xattr c = true) /\
  (migration_mode c = FileHandles -> migration_confirm_paths c = false /\ migration_verify_handles c = false) /\
  (cache_policy c = CacheNever ->
     cfg_entry_timeout c = from_secs 0 /\ cfg_attr_timeout c = from_secs 0 /\
     Passthrough.readdirplus c = false) /\
  o_shared_dir o = Some dir /\ root_dir c = match o_sandbox o with NoSandbox => dir | _ => text "/" end.
Proof.
  intros Hs Hd Hr. apply settle_ok in Hr as (w1 & limit & Hg & _ & Hn & _ & (? & ? & ? & ->)); [|done].
  apply gather_ok in Hg as (Ho & H0' & Hl & Hm & Ha); [|done]. rewrite Hn. split_and!; [done|done| | |done| |done..]; simpl.
  - intros [-> ->]%Ha. done.
  - unfold wants_xattr. intros [Hx|[Hx|Hx]]; rewrite ?(bool_decide_eq_false_2 _ Hx), ?(bool_decide_eq_true_2 _ Hx);
      simpl; rewrite ?orb_true_r; done.
  - intros Hc. unfold wants_readdirplus, timeout. by rewrite Hc.
Qed.
End Hardened.

(** ** The guest's descriptors *)

(** What a computation returns, if it does. *)
Definition returns {S A} (P : A -> Prop) (m : eff S A) : Prop := forall s s' a, m s = (s', Ok a) -> P a.

Section Returns.
Context {S : Type}.

Lemma returns_ret {A} (P : A -> Prop) a : P a -> returns (S := S) P (mret a).
Proof. by intros Ha s s' b [= _ <-]. Qed.
Lemma returns_bind {A B} (P : B -> Prop) (m : eff S A) k :
  (forall a, returns P (k a)) -> returns P (a ← m; k a).
Proof. intros Hk s s' b [(s1 & a & _ & Hr)|[(? & _ & ?)|[_ ?]]]%eff_bind_inv; [by eapply Hk|done..]. Qed.
Lemma returns_then {A B} (Q : A -> Prop) (P : B -> Prop) (m : eff S A) k :
  returns Q m -> (forall a, Q a -> returns P (k a)) -> returns P (a ← m; k a).
Proof.
  intros Hm Hk s s' b [(s1 & a & Ha%Hm & Hr)|[(? & _ & ?)|[_ ?]]]%eff_bind_inv; [by eapply Hk|done..].
Qed.
Lemma returns_lift {A} (P : A -> Prop) (r : io A) : (forall a, r = Ok a -> P a) -> returns (S := S) P (lift r).
Proof. intros Hr s s' a [= _ He]. by apply Hr. Qed.
Lemma returns_finally {A} (P : A -> Prop) (m : eff S A) c : returns P m -> returns P (finally m c).
Proof.
  intros Hm s s' a. unfold finally. destruct (m s) as [s1 r] eqn:Hr. destruct (c s1) as [s2 rc].
  intros [= _ He]. eapply Hm. rewrite Hr. f_equal. by destruct rc.
Qed.
Lemma returns_on_failure {A} (P : A -> Prop) (m : eff S A) c : returns P m -> returns P (on_failure m c).
Proof.
  intros Hm s s' a. unfold on_failure. destruct (m s) as [s1 r] eqn:Hr.
  destruct r as [b|e|]; [intros [= _ <-]; by eapply Hm|..]; destruct (c s1) as [s2 []]; done.
Qed.
End Returns.

Ltac returns_through :=
  repeat lazymatch goal with
  | |- forall _, _ => intros ?
  | |- returns _ (mret _) => apply returns_ret
  | |- returns _ (mbind _ _) => apply returns_bind; intros ?
  | |- returns _ (finally _ _) => apply returns_finally
  | |- returns _ (on_failure _ _) => apply returns_on_failure
  | |- returns _ (lift _) => apply returns_lift; intros ?
  | |- returns _ (match ?x with _ => _ end) => destruct x
  | |- returns _ (let _ := _ in _) => cbv zeta
  end.

Section Construction.
Context {W M : Type} `{Limits W} `{RangeMap M MapEntry}.
Context (checks : bool) (os : HostOs).

Local Notation same_limit c := (fun setup : Setup M => guest_fd_limit (cfg setup) = guest_fd_limit c).

Lemma returns_prepare c :
  returns (fun r : Setup M * option MountFds => guest_fd_limit (cfg r.1) = guest_fd_limit c)
    (prepare (W := W) checks os c).
Proof. unfold prepare. returns_through; done. Qed.

Lemma returns_check_handles c setup :
  same_limit c setup -> returns (same_limit c) (check_working_file_handles (W := W) os setup).
Proof.
  intros Hs. unfold check_working_file_handles. returns_through; try done.
  all: unfold without_handles in *; by repeat case_match; simplify_eq/=.
Qed.

Lemma returns_finish_setup c setup :
  same_limit c setup -> returns (same_limit c) (finish_setup (W := W) os setup).
Proof.
  intros Hs. unfold finish_setup. apply returns_bind. intros cap. cbv zeta.
  eapply returns_then; [apply (returns_check_handles c); exact Hs|]. intros setup' Hs'. returns_through. done.
Qed.

(** Neither the tables nor the limits change. *)
Definition starting (s s' : PassthroughFs W) : Prop :=
  untouched s s' /\ limited (fs_world s) (fs_world s').

#[local] Instance starting_preorder : PreOrder starting.
Proof.
  split; [done|]. intros s1 s2 s3 [(? & ? & ? & ?) ?] [(? & ? & ? & ?) ?].
  split; [repeat split; congruence|by etrans].
Qed.

Definition mount_limited (s s' : MountFds * world W) : Prop := limited s.2 s'.2.

#[local] Instance mount_limited_preorder : PreOrder mount_limited.
Proof. unfold mount_limited. split; [done|]. intros s1 s2 s3. apply transitivity. Qed.

Lemma starting_hosted {A} (m : eff (world W) A) : respects limited m -> respects starting (hosted m).
Proof. intros Hm. by apply (respects_zoom _ limited). Qed.

Lemma starting_mounts {A} (m : eff (MountFds * world W) A) :
  respects mount_limited m -> respects starting (mounts m).
Proof.
  intros Hm s. unfold mounts. destruct (mount_fds s) as [mf|]; [|reflexivity].
  specialize (Hm (mf, fs_world s)). by destruct (m _) as [[mf' w] r].
Qed.

Lemma mount_limited_world {A} (m : eff (world W) A) : respects limited m -> respects mount_limited (on_world m).
Proof. intros Hm. by apply (respects_zoom _ limited). Qed.

Ltac limited_through :=
  respect;
  try lazymatch goal with
      | |- respects _ (sys _) => apply limited_sys
      | |- respects _ (on_world _) => apply mount_limited_world; limited_through
      | |- respects _ (hosted _) => apply starting_hosted; limited_through
      | |- respects _ (mounts _) => apply starting_mounts; limited_through
      | |- respects _ (modify _) => apply respects_modify; done
      | |- respects _ (fun _ => _) => fail
      | |- respects _ ?m => let h := head_of m in progress (unfold h); limited_through
      end.

Lemma limited_prepare c : respects limited (prepare (W := W) (M := M) checks os c).
Proof. limited_through. Qed.

Lemma starting_finish_setup (setup : Setup M) : respects starting (finish_setup os setup).
Proof. limited_through. Qed.

(** A file system as [PassthroughFs::new] makes it. *)
Definition brand_new (limit : Z) (s : PassthroughFs W) : Prop :=
  inodes s = empty_store /\ handles s = ∅ /\ unlinked s = [] /\ available s = limit.

Lemma passthrough_new_ok c w w' (setup : Setup M) s :
  passthrough_new checks os c w = (w', Ok (setup, s)) ->
  limited w w' /\ guest_fd_limit (cfg setup) = guest_fd_limit c /\ brand_new (guest_fd_limit c) s.
Proof.
  unfold passthrough_new. destruct (prepare checks os c w) as [w1 r1] eqn:Hp.
  pose proof (limited_prepare c w) as Hl. rewrite Hp in Hl. simpl in Hl.
  destruct r1 as [[fs0 mf]|e|]; [|done..]. apply returns_prepare in Hp. simpl in Hp.
  destruct (on_failure _ _ _) as [s1 r2] eqn:Hf. destruct r2 as [fs1|e|]; [|done..]. intros [= <- <- <-].
  unfold on_failure in Hf. pose proof (starting_finish_setup fs0 (fresh_state c mf w1)) as Hs.
  destruct (finish_setup os fs0 (fresh_state c mf w1)) as [s2 [fs2|e|]] eqn:Hfin; simpl in Hs;
    [injection Hf as -> ->|by destruct (drop_fresh _ _) as [? []]..].
  destruct Hs as [(Hi & Ha & Hh & Hu) Hw]. split_and!; [by etrans| |done..].
  by eapply (returns_finish_setup c fs0 Hp).
Qed.
End Construction.

Section Device.
Context {W node M Mem : Type} `{Kernel W node} `{!Filtering W} `{!Limits W} `{!Capabilities W node}.
Context `{RangeMap M MapEntry}.
Context (arch : GuestArch) (gnu : bool) (to_uppercase : Z -> list Z).
Context (is_text : bytes -> bool) (rounds : nat).
Context (subscribe : bytes -> res WatcherError unit) (create : io unit).

Local Notation linux := (HostLinux arch).

Definition device_fs (d : VhostUserFsBackend (PassthroughFs W) Mem) : PassthroughFs W :=
  Server.fs (t_server (thread d)).

Lemma build_device_ok fs size tag notify w w' (d : VhostUserFsBackend (PassthroughFs W) Mem) :
  build_device create fs size tag notify w = (w', Ok d) -> limited w w' /\ device_fs d = fs.
Proof.
  intros Hr. unfold build_device in Hr. apply proc_bind_inv in Hr as (w1 & unshare & Hu & Hr). split.
  - assert (w' = w1) as -> by (unfold try_build in Hr; destruct (build _ _ _ _) as [?|?|]; by simplify_eq).
    destruct (0 <? size); [|by apply proc_ret_ok in Hu as [-> _]]. apply outcome_ok in Hu.
    pose proof (limited_call (PUnshare CLONE_FS) eq_refl w) as Hl. by rewrite Hu in Hl.
  - unfold try_build in Hr. destruct (build _ _ _ _) as [d'|e|] eqn:Hb; simplify_eq. unfold build, thread_new in Hb.
    clear Hu. destruct (if 0 <? _ then _ else _) as [p|e|]; by simplify_eq/=.
Qed.

Lemma run_generic_fs_ok fs size tag notify w w' (d : VhostUserFsBackend (PassthroughFs W) Mem) :
  run_generic_fs linux subscribe create fs size tag notify w = (w', Ok d) ->
  limited w w' /\ device_fs d = set_fs_world w' fs.
Proof.
  intros Hr. unfold run_generic_fs in Hr. apply proc_bind_inv in Hr as (w1 & d1 & Hb & Hr).
  apply build_device_ok in Hb as [Hl Hd]. apply proc_bind_inv in Hr as (w2 & [] & Hn & Hr).
  unfold share_world in Hr. injection Hr as <- <-. split; [|by rewrite <- Hd].
  etrans; [exact Hl|]. destruct notify as [dir|]; [|by apply proc_ret_ok in Hn as [-> _]].
  assert (Hg : goes same_limits (host_watcher_new (W := W) linux subscribe dir;; mret tt)).
  { goes_through ltac:(apply limited_call; reflexivity). }
  specialize (Hg w1). by rewrite Hn in Hg.
Qed.

(** C12: The descriptors of the process are divided up once and for all.  From the start of
    the daemon on, through the mounting of the file system, whatever requests the guest
    makes and whatever the host answers, as long as the guest forgets no more than it has
    been given: the descriptors the tables hold for the guest (those of inodes, of open
    files, and of inodes that are gone but still in use), the slots still free for it, and
    what the daemon has set aside for itself - memory slots, its own files, one for each
    thread that has opened a file and not yet accounted for it - add up to exactly the
    limit of the process.  A descriptor no table holds is not in the sum; one that is opened
    and never closed, as in the labelling of a new node, is at the expense of what is set
    aside.  (For a shared directory outside /proc and a thread count that does not overflow
    64 bits with the reserve.) *)
Theorem device_within_limit o (w w' : world W) (setup : Setup M) d capable s opts c :
  o_thread_pool_size o <= u64_max - INTERNAL_FD_RESERVE -> (nofile (host w')).1 <= u64_max ->
  (forall dir, o_shared_dir o = Some dir -> ~ text "/proc" `prefix_of` dir) ->
  launch (M := M) (Mem := Mem) true linux gnu to_uppercase is_text rounds subscribe create o w
    = (w', Ok (setup, d)) ->
  PassthroughOps.init true linux setup capable (device_fs d) = (s, Ok opts) ->
  rtc (guest_step linux setup rounds) (mounted s) c ->
  0 <= guest_files (fs_state c) /\ 0 <= available (fs_state c) /\
  guest_files (fs_state c) + available (fs_state c) + INTERNAL_FD_RESERVE + Z.max (o_thread_pool_size o) 1
    = (nofile (host w')).1.
Proof.
  intros Hsize Hmax Hdir Hr Hinit Hc. unfold launch in Hr. apply proc_bind_inv in Hr as (w1 & [[dir cf] l] & Hs & Hr).
  apply proc_bind_inv in Hr as (w2 & [setup' fs] & Hn & Hr). apply or_exit_ok in Hn.
  apply proc_bind_inv in Hr as (w3 & d' & Hrun & Hr). apply proc_ret_ok in Hr as [-> [= -> ->]].
  apply run_generic_fs_ok in Hrun as [Hl3 Hd]. apply passthrough_new_ok in Hn as (Hl2 & Hlim & Hi & Hh & Hu & Ha).
  assert (Hsh : o_shared_dir o = Some dir) by by eapply settle_shared_dir.
  apply settle_ok in Hs; [|by apply Hdir]. destruct Hs as (w0 & limit & Hg & _ & Hn1 & _ & (? & ? & ? & ->)).
  apply gather_ok in Hg as (_ & Hpos & Hsum & _); [|done]. simpl in Hlim, Ha.
  unfold limited, same_limits in *. rewrite Hl3, Hl2, Hn1 in *.
  assert (Hok : session_ok setup' c).
  { eapply session_from; [| |exact Hinit|exact Hc]; rewrite Hd.
    - destruct (o_notify_invalidate o); simpl; rewrite Hi; apply store_wf_empty.
    - apply empty_slots; [rewrite Hlim; split; [done|]|..].
      + unfold INTERNAL_FD_RESERVE, MAX_MEM_SLOTS in *. lia.
      + by destruct (o_notify_invalidate o).
      + by destruct (o_notify_invalidate o).
      + by destruct (o_notify_invalidate o).
      + rewrite Hlim. by destruct (o_notify_invalidate o). }
  apply session_slots in Hok as [[H0' H1'] Hav]. rewrite Hlim in H1', Hav. lia.
Qed.
End Device.

(** ** An example

    The kernel of the sandbox's example, with limits, a filter and capabilities. *)

#[local] Existing Instances box_host box_process box_views box_kernel.

Record gear := {
  g_limits : Z * Z;
  g_building : option (Z * list string);
  g_loaded : option (Z * list string);
  g_staged : gset (list Z);
  g_held : gset (list Z);
}.

Definition station : Type := box * gear.

Definition nr_open : list Z := text "/proc/sys/fs/nr_open".

Definition set_building l (g : gear) : gear :=
  {| g_limits := g_limits g; g_building := l; g_loaded := g_loaded g; g_staged := g_staged g; g_held := g_held g |}.
Definition set_loaded l (g : gear) : gear :=
  {| g_limits := g_limits g; g_building := g_building g; g_loaded := l; g_staged := g_staged g; g_held := g_held g |}.
Definition set_caps staged held (g : gear) : gear :=
  {| g_limits := g_limits g; g_building := g_building g; g_loaded := g_loaded g; g_staged := staged; g_held := held |}.
Definition set_limits l (g : gear) : gear :=
  {| g_limits := l; g_building := g_building g; g_loaded := g_loaded g; g_staged := g_staged g; g_held := g_held g |}.

(** What the box does not know. *)
Definition gear_run {A} (c : PCall A) (g : gear) : option (gear * outcome_of A) :=
  match c in PCall A return option (gear * outcome_of A) with
  | PRegisterSignal _ => Some (g, inr tt)
  | PIsDir _ => Some (g, inr true)
  | PCanonicalize path => Some (g, inr path)
  | PReadToString path => if decide (path = nr_open) then Some (g, inr (text "1048576")) else None
  | PGetrlimitNofile => Some (g, inr (g_limits g))
  | PSetrlimitNofile cur max => Some (set_limits (cur, max) g, inr tt)
  | PSeccompInit a => Some (set_building (Some (a, [])) g, inr tt)
  | PSeccompAllow s => Some (set_building ((fun '(a, l) => (a, l ++ [s])) <$> g_building g) g, inr tt)
  | PSeccompLoad => Some (set_loaded (g_building g) g, inr tt)
  | PSeccompRelease => Some (set_building None g, inr tt)
  | PCapClear => Some (set_caps ∅ (g_held g) g, inr tt)
  | PCapUpdatev caps => Some (set_caps (g_staged g ∪ list_to_set caps) (g_held g) g, inr tt)
  | PCapApply => Some (set_caps (g_staged g) (g_staged g) g, inr tt)
  | PCapName _ => Some (g, inr tt)
  | _ => None
  end.

Definition station_proc {A} (c : PCall A) (h : station) : station * outcome_of A :=
  match gear_run c h.2 with
  | Some (g, r) => ((h.1, g), r)
  | None => let '(b, r) := proc_run c h.1 in ((b, h.2), r)
  end.

#[local] Instance station_host : Host station :=
  {| host_run A c h := let '(b, r) := host_run c h.1 in ((b, h.2), r); makedev major minor := major |}.
#[local] Instance station_process : Process station := {| proc_run A := station_proc |}.
#[local] Instance station_views : Views station Z := {|
  view h := bv h.1; file_at h := file_at h.1; dev_ino := dev_ino; attached h := attached h.1;
  euid h := uid h.1; proc_self _ path := if decide (path = nr_open) then text "1048576" else [] |}.

Lemma quiet_station (b b' : box) (g g' : gear) : quiet b b' -> quiet (W := station) (b, g) (b', g').
Proof. intros (Hs & Hf & Ha & _). by split_and!. Qed.

#[local] Instance station_kernel : Kernel station Z.
Proof.
  split.
  - intros A c [b g] [b' g'] r Hr. simpl in Hr. destruct (box_sys c b) as [b1 r1] eqn:Hb. simplify_eq.
    pose proof (kernel_sys (W := box) A c b b' r Hb) as Hk.
    destruct c; simpl in *; first
      [exact Hk|by apply quiet_station|destruct Hk as [Hq Hk]; split; [by apply quiet_station|exact Hk]].
  - intros A c [b g] [b' g'] r Hr. simpl in Hr. unfold station_proc in Hr. simpl in Hr.
    destruct (gear_run c g) as [[g1 r1]|] eqn:Hg.
    + simplify_eq. assert (Hq : quiet b' b') by reflexivity.
      destruct c; simpl in *; simplify_eq; try done; try by apply quiet_station.
      case_decide; simplify_eq. by split; [apply quiet_station|].
    + destruct (box_proc c b) as [b1 r1] eqn:Hb. simplify_eq.
      pose proof (kernel_proc (W := box) A c b b' r Hb) as Hk.
      destruct c; simpl in *; try exact Hk; try by apply quiet_station.
      all: try (destruct Hk as [Hq Hk]; split; [by apply quiet_station|]; try exact Hk).
      case_decide; [done|]. destruct r; [done|]. done.
Qed.

#[local] Instance station_filtering : Filtering station.
Proof.
  refine {| building h := g_building h.2; loaded h := g_loaded h.2 |}; intros; simpl in *;
    unfold station_proc in *; simpl in *; simplify_eq/=; try done.
  - destruct (gear_run c h.2) as [[g o]|] eqn:Hg; [|destruct (box_proc c h.1); by simplify_eq].
    destruct c; simpl in *; try case_decide; by simplify_eq/=.
  - destruct (box_sys c h.1); by simplify_eq.
Defined.

#[local] Instance station_limits : Limits station.
Proof.
  refine {| nofile h := g_limits h.2 |}; intros; simpl in *; unfold station_proc in *; simpl in *; simplify_eq/=; try done.
  - destruct (gear_run c h.2) as [[g o]|] eqn:Hg.
    + destruct c; simpl in *; try case_decide; by simplify_eq/=.
    + destruct (box_proc c h.1); destruct c; by simplify_eq/=.
  - destruct (box_sys c h.1); by simplify_eq.
Defined.

#[local] Instance station_capabilities : Capabilities station Z.
Proof.
  refine {| staged h := g_staged h.2; held h := g_held h.2 |}; intros; simpl in *;
    unfold station_proc in *; simpl in *; by simplify_eq/=.
Defined.

(** Root, with chroot and a change of the capabilities. *)
Definition demo_opt (mode : InodeFileHandlesCommandLineMode) : Opt := {|
  o_shared_dir := Some (text "/srv"); o_tag := Some (text "share"); o_socket := None; o_socket_path := None;
  o_socket_group := None; o_fd := Some 9; o_thread_pool_size := 4; o_xattr := false; o_posix_acl := NegAlways;
  o_xattrmap := None; o_sandbox := Chroot; o_readonly := false; o_seccomp := ActKill;
  o_announce_submounts := false; o_no_announce_submounts := false; o_notify_invalidate := true;
  o_inode_file_handles := mode; o_cache := CacheAuto; o_allow_mmap := false; o_no_readdirplus := false;
  o_writeback := false; o_allow_direct_io := false; o_guest_arch := X86_64; o_print_capabilities := false;
  o_modcaps := Some (text "+sys_admin:-chown"); o_log_level := LevelInfo; o_syslog := false;
  o_rlimit_nofile := None; o_compat_options := None; o_compat_debug := false; o_no_killpriv_v2 := false;
  o_killpriv_v2 := false; o_compat_foreground := false; o_security_label := NegNever; o_uid_map := [];
  o_gid_map := []; o_translate_uid := []; o_translate_gid := []; o_preserve_noatime := false;
  o_migration_mode := FindPaths; o_migration_on_error := OnErrorAbort; o_migration_verify_handles := false;
  o_migration_confirm_paths := false |}.

Definition ascii_uppercase (c : Z) : list Z := [if (97 <=? c) && (c <=? 122) then c - 32 else c].

Definition demo_station : world station :=
  {| host := (host root_box, {| g_limits := (1024, 4096); g_building := None; g_loaded := None;
                                g_staged := ∅; g_held := ∅ |}); history := [] |}.

Definition demo_settled :=
  settle true (HostLinux X86_64) true ascii_uppercase (fun _ => true) 8 (demo_opt ClmPrefer) demo_station.

Definition settled_of {A} (r : res (leave Unfinished) (bytes * Config * A)) : Config :=
  match r with Ok (_, c, _) => c | _ => config_default X86_64 end.

Definition demo_config : Config := Eval vm_compute in settled_of demo_settled.2.

Lemma demo_settled_ok :
  settle true (HostLinux X86_64) true ascii_uppercase (fun _ => true) 8 (demo_opt ClmPrefer) demo_station
    = (demo_settled.1, Ok (text "/srv", demo_config, 9)).
Proof. vm_compute. reflexivity. Qed.

Lemma not_proc : ~ text "/proc" `prefix_of` text "/srv".
Proof. intros [k Hk]. vm_compute in Hk. discriminate Hk. Qed.

(** The daemon is in "/srv", filtered, with CAP_SYS_ADMIN and without CAP_CHOWN. *)
Lemma startup_hardened_witness :
  v_root (view (host demo_settled.1)) = 2 /\
  is_Some (loaded (host demo_settled.1)) /\
  text "SYS_ADMIN" ∈ held (host demo_settled.1) /\ (text "CHOWN" ∉ held (host demo_settled.1)) /\
  DAC_READ_SEARCH ∈ held (host demo_settled.1).
Proof.
  destruct (startup_hardened true X86_64 true ascii_uppercase (fun _ => true) 8 (demo_opt ClmPrefer) demo_station
    demo_settled.1 (text "/srv") demo_config 9 not_proc demo_settled_ok) as (_ & Hl & Hc).
  destruct Hc as [Hcap Hdac]; [vm_compute; reflexivity|].
  split_and!.
  - vm_compute. reflexivity.
  - rewrite Hl by discriminate. eexists. reflexivity.
  - apply Hcap. vm_compute. reflexivity.
  - intros Hx. apply Hcap in Hx. vm_compute in Hx. discriminate Hx.
  - apply Hdac. discriminate.
Defined.

Lemma startup_consistent_witness :
  guest_fd_limit demo_config = 1000000 - 613 /\ nofile (host demo_settled.1) = (1000000, 1000000) /\
  xattr demo_config = true /\ root_dir demo_config = text "/".
Proof.
  destruct (startup_consistent true X86_64 true ascii_uppercase (fun _ => true) 8 (demo_opt ClmPrefer) demo_station
    demo_settled.1 (text "/srv") demo_config 9 ltac:(by vm_compute) not_proc demo_settled_ok)
    as (_ & Hsum & _ & Hx & _ & _ & _ & Hroot).
  assert (Hn : nofile (host demo_settled.1) = (1000000, 1000000)) by (vm_compute; reflexivity).
  rewrite Hn in Hsum. change (guest_fd_limit demo_config + 609 + 4 = 1000000) in Hsum.
  split_and!; [|exact Hn|apply Hx; left; discriminate|exact Hroot].
  clear -Hsum. revert Hsum. generalize (guest_fd_limit demo_config). intros; lia.
Defined.

#[local] Existing Instance list_range_map.

Definition demo_launched :=
  launch (M := list (Z * Z * MapEntry)) (Mem := unit) true (HostLinux X86_64) true ascii_uppercase
    (fun _ => true) 8 (fun _ => Ok tt) (Ok tt) (demo_opt ClmNever) demo_station.

(** The root directory is opened. *)
Lemma demo_device :
  exists setup d s opts c,
    demo_launched = (demo_launched.1, Ok (setup, d)) /\
    PassthroughOps.init true (HostLinux X86_64) setup u64_max (device_fs d) = (s, Ok opts) /\
    rtc (guest_step (HostLinux X86_64) setup 8) (mounted s) c /\ guest_files (fs_state c) = 2.
Proof.
  eexists _, _, _, _, _. split; [vm_compute; reflexivity|]. split; [vm_compute; reflexivity|]. split.
  - eapply rtc_l; [eapply (step_ok _ _ _ (ROpendir ROOT_ID 0)); [|vm_compute; reflexivity]|reflexivity].
    apply honest_nothing. intros j. case_decide; lia.
  - vm_compute. reflexivity.
Qed.

Lemma device_within_limit_witness :
  exists c : session (W := station), guest_files (fs_state c) = 2 /\
    2 + available (fs_state c) + INTERNAL_FD_RESERVE + 4 = (nofile (host demo_launched.1)).1.
Proof.
  destruct demo_device as (setup & d & s & opts & c & Hl & Hi & Hc & Hg). exists c. split; [exact Hg|].
  destruct (device_within_limit (node := Z) X86_64 true ascii_uppercase (fun _ => true) 8 (fun _ => Ok tt) (Ok tt)
    (demo_opt ClmNever) demo_station demo_launched.1 setup d u64_max s opts c) as (_ & _ & Hsum).
  - by vm_compute.
  - by vm_compute.
  - intros dir [= <-]. exact not_proc.
  - exact Hl.
  - exact Hi.
  - exact Hc.
  - rewrite Hg in Hsum. exact Hsum.
Defined.
