(* ===== verification/LegacyOptions.v ===== *)
(** * Options of the legacy implementation

    What main.rs makes of the [-o] options ([parse_compat] of [Startup]): the language of
    these options, and what a command line with any number of them sets. *)

From S2P Require Import Prelude OpenFlags XattrMap Passthrough Sandbox Startup StartupSpec.
From coqutil Require Import Datatypes.RecordSetters.
Import DoubleBraceUpdate.

(** ** The language *)

Inductive setting :=
| Xattr (b : bool)
| Readdirplus (b : bool)
| Writeback (b : bool)
| DirectIo (b : bool)
| Submounts
| KillprivV2 (b : bool)
| PosixAcl (b : bool)
| SecurityLabel (b : bool)
| NoPosixLock
| NoFlock
| XattrMapIs (rules : list Z) (m : XattrMap)
| CacheIs (p : CachePolicy)
| LogLevelIs (x : LevelFilter)
| SandboxIs (m : SandboxMode)
| SourceIs (dir : list Z)
| ModcapsIs (caps : list Z).

Definition switch (name : list Z) (b : bool) : list Z := if b then name else text "no_" ++ name.
Definition assignment (key value : list Z) : list Z := key ++ equals_sign :: value.

Definition cache_word (p : CachePolicy) : list Z :=
  match p with
  | CacheAuto => text "auto" | CacheAlways => text "always"
  | CacheNever => text "none" | CacheMetadata => text "metadata"
  end.

(** The other levels and modes have no word. *)
Definition level_word (x : LevelFilter) : option (list Z) :=
  match x with
  | LevelDebug => Some (text "debug") | LevelInfo => Some (text "info")
  | LevelWarn => Some (text "warn") | LevelError => Some (text "err")
  | LevelOff | LevelTrace => None
  end.

Definition sandbox_word (m : SandboxMode) : option (list Z) :=
  match m with
  | Namespace => Some (text "namespace") | Chroot => Some (text "chroot") | NoSandbox => None
  end.

Definition setting_text (st : setting) : list Z :=
  match st with
  | Xattr b => switch (text "xattr") b
  | Readdirplus b => switch (text "readdirplus") b
  | Writeback b => switch (text "writeback") b
  | DirectIo b => switch (text "allow_direct_io") b
  | Submounts => text "announce_submounts"
  | KillprivV2 b => switch (text "killpriv_v2") b
  | PosixAcl b => switch (text "posix_acl") b
  | SecurityLabel b => switch (text "security_label") b
  | NoPosixLock => text "no_posix_lock"
  | NoFlock => text "no_flock"
  | XattrMapIs rules _ => assignment (text "xattrmap") rules
  | CacheIs p => assignment (text "cache") (cache_word p)
  | LogLevelIs x => assignment (text "loglevel") (default [] (level_word x))
  | SandboxIs m => assignment (text "sandbox") (default [] (sandbox_word m))
  | SourceIs dir => assignment (text "source") dir
  | ModcapsIs caps => assignment (text "modcaps") caps
  end.

(** Values cannot hold the characters that separate options and values. *)
Definition unseparated (v : list Z) : Prop := (equals_sign ∉ v) /\ (comma ∉ v).

Definition valid (st : setting) : Prop :=
  match st with
  | XattrMapIs rules m => unseparated rules /\ xattrmap_try_from rules = Ok m
  | LogLevelIs x => is_Some (level_word x)
  | SandboxIs m => is_Some (sandbox_word m)
  | SourceIs v | ModcapsIs v => unseparated v
  | _ => True
  end.

(** ** What the settings come to

    Of several settings of one thing the last one counts; what is not set stays. *)

Definition last_given {A} (f : setting -> option A) (l : list setting) (old : A) : A :=
  default old (last (omap f l)).

Definition negotiation (b : bool) : NegotiationMode := if b then NegAlways else NegNever.

Definition resulting (o : Opt) (l : list setting) : Opt := {|
  o_shared_dir :=
    last_given (fun st => match st with SourceIs v => Some (Some (utf8 v)) | _ => None end) l (o_shared_dir o);
  o_xattr :=
    last_given (fun st => match st with Xattr b => Some b | _ => None end) l (o_xattr o);
  o_posix_acl :=
    last_given (fun st => match st with PosixAcl b => Some (negotiation b) | _ => None end) l (o_posix_acl o);
  o_xattrmap :=
    last_given (fun st => match st with XattrMapIs _ m => Some (Some m) | _ => None end) l (o_xattrmap o);
  o_sandbox :=
    last_given (fun st => match st with SandboxIs m => Some m | _ => None end) l (o_sandbox o);
  o_announce_submounts :=
    last_given (fun st => match st with Submounts => Some true | _ => None end) l (o_announce_submounts o);
  o_cache :=
    last_given (fun st => match st with CacheIs p => Some p | _ => None end) l (o_cache o);
  o_no_readdirplus :=
    last_given (fun st => match st with Readdirplus b => Some (negb b) | _ => None end) l (o_no_readdirplus o);
  o_writeback :=
    last_given (fun st => match st with Writeback b => Some b | _ => None end) l (o_writeback o);
  o_allow_direct_io :=
    last_given (fun st => match st with DirectIo b => Some b | _ => None end) l (o_allow_direct_io o);
  o_modcaps :=
    last_given (fun st => match st with ModcapsIs v => Some (Some v) | _ => None end) l (o_modcaps o);
  o_log_level :=
    last_given (fun st => match st with LogLevelIs x => Some x | _ => None end) l (o_log_level o);
  o_killpriv_v2 :=
    last_given (fun st => match st with KillprivV2 b => Some b | _ => None end) l (o_killpriv_v2 o);
  o_security_label :=
    last_given (fun st => match st with SecurityLabel b => Some (negotiation b) | _ => None end) l (o_security_label o);
  o_tag := o_tag o; o_socket := o_socket o; o_socket_path := o_socket_path o;
  o_socket_group := o_socket_group o; o_fd := o_fd o; o_thread_pool_size := o_thread_pool_size o;
  o_readonly := o_readonly o; o_seccomp := o_seccomp o;
  o_no_announce_submounts := o_no_announce_submounts o;
  o_notify_invalidate := o_notify_invalidate o; o_inode_file_handles := o_inode_file_handles o;
  o_allow_mmap := o_allow_mmap o; o_guest_arch := o_guest_arch o;
  o_print_capabilities := o_print_capabilities o; o_syslog := o_syslog o;
  o_rlimit_nofile := o_rlimit_nofile o; o_compat_options := o_compat_options o;
  o_compat_debug := o_compat_debug o; o_no_killpriv_v2 := o_no_killpriv_v2 o;
  o_compat_foreground := o_compat_foreground o; o_uid_map := o_uid_map o;
  o_gid_map := o_gid_map o; o_translate_uid := o_translate_uid o;
  o_translate_gid := o_translate_gid o; o_preserve_noatime := o_preserve_noatime o;
  o_migration_mode := o_migration_mode o; o_migration_on_error := o_migration_on_error o;
  o_migration_verify_handles := o_migration_verify_handles o;
  o_migration_confirm_paths := o_migration_confirm_paths o;
|}.

(** ** One option *)

Definition apply_setting (st : setting) (o : Opt) : Opt :=
  match st with
  | Xattr b => o {{ o_xattr := b }}
  | Readdirplus b => o {{ o_no_readdirplus := negb b }}
  | Writeback b => o {{ o_writeback := b }}
  | DirectIo b => o {{ o_allow_direct_io := b }}
  | Submounts => o {{ o_announce_submounts := true }}
  | KillprivV2 b => o {{ o_killpriv_v2 := b }}
  | PosixAcl b => o {{ o_posix_acl := negotiation b }}
  | SecurityLabel b => o {{ o_security_label := negotiation b }}
  | NoPosixLock | NoFlock => o
  | XattrMapIs _ m => o {{ o_xattrmap := Some m }}
  | CacheIs p => o {{ o_cache := p }}
  | LogLevelIs x => o {{ o_log_level := x }}
  | SandboxIs m => o {{ o_sandbox := m }}
  | SourceIs v => o {{ o_shared_dir := Some (utf8 v) }}
  | ModcapsIs v => o {{ o_modcaps := Some v }}
  end.

Lemma last_given_snoc {A} (f : setting -> option A) l st old :
  last_given f (l ++ [st]) old = default (last_given f l old) (f st).
Proof.
  unfold last_given. rewrite omap_app. simpl. destruct (f st) as [a|]; simpl.
  - by rewrite last_snoc.
  - by rewrite app_nil_r.
Qed.

Lemma resulting_nil o : resulting o [] = o.
Proof. by destruct o. Qed.

Lemma resulting_snoc o l st : resulting o (l ++ [st]) = apply_setting st (resulting o l).
Proof. unfold resulting. rewrite !last_given_snoc. by destruct st. Qed.

Lemma resulting_fold o l : fold_left (fun o st => apply_setting st o) l o = resulting o l.
Proof.
  induction l as [|st l IH] using rev_ind; [by rewrite resulting_nil|].
  rewrite fold_left_app, resulting_snoc. simpl. by rewrite IH.
Qed.

Lemma parse_assignment o key value :
  equals_sign ∉ key -> equals_sign ∉ value ->
  split_on equals_sign (assignment key value) = [key; value] /\
  parse_compat_option o (assignment key value) = parse_tuple o (assignment key value).
Proof.
  intros Hk Hv. unfold assignment. rewrite split_on_app, split_on_clean by done. split; [done|].
  unfold parse_compat_option. rewrite bool_decide_eq_true_2; [done|]. set_solver.
Qed.

Ltac not_in := apply (bool_decide_unpack _); vm_compute; reflexivity.

(** A valid setting is understood. *)
Lemma setting_parses o st : valid st -> parse_compat_option o (setting_text st) = Ok (apply_setting st o).
Proof.
  assert (Ha : forall key value, bool_decide (equals_sign ∉ key) = true -> equals_sign ∉ value ->
    parse_compat_option o (assignment key value) = parse_tuple o (assignment key value) /\
    split_on equals_sign (assignment key value) = [key; value]).
  { intros key value Hk%bool_decide_eq_true Hv. by destruct (parse_assignment o key value Hk Hv). }
  destruct st; cbn [setting_text valid apply_setting]; intros Hv.
  1-4, 6-8: destruct b; vm_compute; reflexivity.
  1-3: vm_compute; reflexivity.
  - destruct Hv as [[Hr _] Hm]. destruct (Ha (text "xattrmap") rules) as [-> Hs]; [done..|].
    unfold parse_tuple. rewrite Hs. cbn [decide]. rewrite decide_True by done. by rewrite Hm.
  - destruct p; vm_compute; reflexivity.
  - destruct x; try (vm_compute; reflexivity); by destruct Hv.
  - destruct m; try (vm_compute; reflexivity); by destruct Hv.
  - destruct Hv as [Hr _]. destruct (Ha (text "source") dir) as [-> Hs]; [done..|].
    unfold parse_tuple. by rewrite Hs.
  - destruct Hv as [Hr _]. destruct (Ha (text "modcaps") caps) as [-> Hs]; [done..|].
    unfold parse_tuple. by rewrite Hs.
Qed.

(** Nothing else is. *)
Lemma parses_setting o x o' :
  comma ∉ x -> parse_compat_option o x = Ok o' ->
  exists st, valid st /\ x = setting_text st /\ o' = apply_setting st o.
Proof.
  intros Hc. unfold parse_compat_option. case_bool_decide as He.
  - unfold parse_tuple. pose proof (join_split equals_sign x) as Hx.
    pose proof (split_on_pieces equals_sign x) as Hp.
    destruct (split_on equals_sign x) as [|key [|value [|? ?]]]; try done.
    rewrite !Forall_cons in Hp. destruct Hp as (_ & Hv & _). cbn [join_with] in Hx.
    assert (Hu : unseparated value) by (split; [done|]; set_solver).
    change (assignment key value = x) in Hx. clear He Hc. subst x.
    repeat case_decide; subst; try done.
    all: try (intros [= <-]).
    + destruct (xattrmap_try_from value) as [m|e|] eqn:Hm; [|done..]. intros [= <-].
      by exists (XattrMapIs value m).
    + by exists (CacheIs CacheAuto).
    + by exists (CacheIs CacheAlways).
    + by exists (CacheIs CacheNever).
    + by exists (CacheIs CacheMetadata).
    + exists (LogLevelIs LevelDebug). by split; [eexists|].
    + exists (LogLevelIs LevelInfo). by split; [eexists|].
    + exists (LogLevelIs LevelWarn). by split; [eexists|].
    + exists (LogLevelIs LevelError). by split; [eexists|].
    + exists (SandboxIs Namespace). by split; [eexists|].
    + exists (SandboxIs Chroot). by split; [eexists|].
    + by exists (SourceIs value).
    + by exists (ModcapsIs value).
  - unfold parse_single. repeat case_decide; subst; try done; intros [= <-].
    + by exists (Xattr true).
    + by exists (Xattr false).
    + by exists (Readdirplus true).
    + by exists (Readdirplus false).
    + by exists (Writeback true).
    + by exists (Writeback false).
    + by exists (DirectIo true).
    + by exists (DirectIo false).
    + by exists Submounts.
    + by exists (KillprivV2 true).
    + by exists (KillprivV2 false).
    + by exists (PosixAcl true).
    + by exists (PosixAcl false).
    + by exists (SecurityLabel true).
    + by exists (SecurityLabel false).
    + by exists NoPosixLock.
    + by exists NoFlock.
Qed.

(** A setting fits between commas. *)
Lemma setting_text_clean st : valid st -> comma ∉ setting_text st.
Proof.
  assert (Ha : forall key value, bool_decide (comma ∉ key) = true -> comma ∉ value ->
    comma ∉ assignment key value).
  { intros key value Hk%bool_decide_eq_true Hv. unfold assignment.
    rewrite elem_of_app, elem_of_cons. intros [?|[?|?]]; done. }
  destruct st; cbn [setting_text valid]; intros Hv.
  all: try (destruct b; not_in).
  all: try not_in.
  - destruct Hv as [[_ Hr] _]. by apply Ha.
  - destruct p; not_in.
  - destruct x; not_in.
  - destruct m; not_in.
  - destruct Hv as [_ Hr]. by apply Ha.
  - destruct Hv as [_ Hr]. by apply Ha.
Qed.

(** ** All of them *)

Lemma settings_parse o l :
  Forall valid l -> parse_each o (setting_text <$> l) = Ok (fold_left (fun o st => apply_setting st o) l o).
Proof.
  intros Hl. revert o. induction Hl as [|st l Hv Hl IH]; intros o; [done|].
  cbn [fmap list_fmap parse_each]. rewrite setting_parses by done. apply IH.
Qed.

Lemma parse_settings o options o' :
  Forall (fun x => comma ∉ x) options -> parse_each o options = Ok o' ->
  exists l, Forall valid l /\ options = setting_text <$> l /\
    o' = fold_left (fun o st => apply_setting st o) l o.
Proof.
  intros Hc. revert o. induction Hc as [|x options Hx Hc IH]; intros o Hp; simpl in Hp.
  { simplify_eq. by exists []. }
  destruct (parse_compat_option o x) as [o1|e|] eqn:H1; [|done..]. apply parses_setting in H1 as (st & Hv & -> & ->); [|done].
  apply IH in Hp as (l & Hl & -> & ->). exists (st :: l). split; [by constructor|done].
Qed.

Definition line_text (g : list setting) : list Z := join_with comma (setting_text <$> g).

(** C30: The legacy options mean what they say.  A command line is accepted exactly when each of
    its [-o] arguments is one or more of the known settings, separated by commas, with a
    value the setting allows; then, however the settings are grouped into arguments, each
    thing that can be set has the value of the last setting of it, and everything else is as
    it was.  Any other option or value ends the process. *)
Theorem legacy_options o lines o' :
  o_compat_options o = Some lines ->
  parse_compat o = Ok o' <->
  exists groups, lines = line_text <$> groups /\
    Forall (fun g => g <> [] /\ Forall valid g) groups /\ o' = resulting o (concat groups).
Proof.
  intros Ho. unfold parse_compat. rewrite Ho. clear Ho. setoid_rewrite <- resulting_fold. split.
  - revert o. induction lines as [|line lines IH]; intros o Hp; simpl in Hp.
    { simplify_eq. by exists []. }
    destruct (parse_each o (split_on comma line)) as [o1|e|] eqn:H1; [|done..].
    apply parse_settings in H1 as (l & Hl & Hs & ->); [|apply split_on_pieces].
    apply IH in Hp as (groups & -> & Hg & ->). exists (l :: groups). split_and!.
    + cbn. f_equal. unfold line_text. by rewrite <- Hs, join_split.
    + constructor; [|done]. split; [|done]. intros ->. by apply (split_on_nil_not comma line).
    + cbn [concat]. by rewrite fold_left_app.
  - intros (groups & -> & Hg & ->). revert o. induction Hg as [|g groups [Hne Hg] _ IH]; intros o; [done|].
    cbn [fmap list_fmap parse_lines concat]. change (line_text g) with (join_with comma (setting_text <$> g)). rewrite split_join.
    + rewrite settings_parse by done. cbn [mbind res_bind]. by rewrite fold_left_app.
    + by destruct g.
    + apply Forall_fmap. eapply Forall_impl; [exact Hg|]. intros st. apply setting_text_clean.
Qed.

Definition demo_lines : list (list Z) :=
  [text "xattr,cache=none,no_flock"; text "source=/srv"; text "cache=auto,no_xattr"].

Definition demo_legacy : Opt := (demo_opt ClmNever) {{ o_compat_options := Some demo_lines }}.

Lemma legacy_options_witness :
  exists o', parse_compat demo_legacy = Ok o' /\
    o_xattr o' = false /\ o_cache o' = CacheAuto /\ o_shared_dir o' = Some (text "/srv") /\
    o_writeback o' = o_writeback demo_legacy.
Proof.
  pose (groups := [[Xattr true; CacheIs CacheNever; NoFlock]; [SourceIs (text "/srv")];
                   [CacheIs CacheAuto; Xattr false]]).
  exists (resulting demo_legacy (concat groups)). split; [|vm_compute; split_and!; reflexivity].
  apply (legacy_options demo_legacy demo_lines); [reflexivity|].
  exists groups. split; [vm_compute; reflexivity|]. split; [|reflexivity].
  repeat constructor; try discriminate; apply (bool_decide_unpack _); vm_compute; reflexivity.
Defined.
